(* ===== verification/_CoqProject ===== *)
-Q . S2P
Prelude.v
GoLib.v
GoSplit.v
Utf8.v
Shamir.v
AesGcm.v
Encoding.v
Storage.v
ScanView.v
StorageFacts.v
Core.v
BarrierState.v
KeyringOps.v
Barrier.v
Lease.v
ApprovalTypes.v
ApprovalCore.v
ApprovalPure.v
ApprovalHandlers.v
ApprovalPaths.v
RequestHandling.v
ApprovalJson.v
CoreLogic.v
ApprovalLogic.v
Router.v
Routing.v
Scenario.v
BarrierScenario.v
BarrierLogic.v
BarrierCrypt.v
KeyringFacts.v
BarrierInv.v
BarrierOps.v
BarrierRefine.v
BarrierSim.v
BarrierSimKeys.v
BarrierTheorems.v
KeyringTheorems.v
RouterFacts.v
RouterScenario.v
SystemPaths.v
RoutingFacts.v
Templating.v
Policy.v
Acl.v
AclFacts.v
AclSound.v
Tokens.v
Server.v
PolicyStore.v
TokenStore.v
ServerLogic.v
TokenFacts.v
TokenUses.v
TokenRevoke.v
TokenLookup.v
Pipeline.v
Quiet.v
ServerScenario.v
TokenTheorems.v
PolicyStoreFacts.v
PolicyStoreTheorems.v
Reliable.v
ScanViewFacts.v
Interception.v
Effects.v
PipelineFacts.v
PipelineTheorems.v
LeaseFacts.v
ApprovalAuthority.v
ApprovalInvariant.v
ApprovalConfinement.v
ApprovalLifecycle.v
ApprovalOps.v
ApprovalRaces.v
ApprovalPurge.v
ShamirArith.v
ShamirTotal.v
GF256.v
ShamirSharing.v
