(* ===== verification/Prelude.v ===== *)
(** * Verification of Vault with the human approval workflow

    The repository is a fork of HashiCorp Vault (Go) that adds a workflow in
    which guarded requests wait for human approval.  This library models the
    workflow completely, and around it the parts of Vault that decide what
    happens to a request and to the data it leaves: tokens, policies and access
    control, the router, the path of a request from its token to a registered
    lease, the storage below, the security barrier with its keyring, and the
    secret sharing that unseals the server.

    ** The parts and how they interact

    An HTTP request gets a path ([http/logical.go]).  In [handleRequest]
    ([vault/request_handling.go]) its token is looked up
    ([vault/token_store.go]); the token's policies are fetched
    ([vault/policy_store.go]), compiled and checked against the path
    ([vault/policy.go], [vault/acl.go], [sdk/helper/identitytpl]); a path that
    the backend lists as a root path also needs sudo ([vault/router.go],
    [vault/logical_system.go]); the use of the token is counted.  The
    interceptor ([vault/approval_core.go]) parks a request that passes if a
    rule guards its path; otherwise the router hands it to the backend of its
    mount, and a secret in the answer gets a lease ([sdk/framework/lease.go]).
    A parked request is approved, denied and fetched through the endpoints
    below sys/approvals ([vault/logical_system_approvals.go]); the deciding
    approval executes it. Everything is stored through views of the barrier
    ([vault/barrier_view.go], [sdk/logical/storage_view.go]); the barrier
    ([vault/barrier_aes_gcm.go]) encrypts it under the keys of a keyring
    ([vault/keyring.go]) and puts it on a physical backend
    ([sdk/physical/inmem]).

    ** The files

    Foundations.
    - [Prelude]: results, programs with effects, their interpretation alone
      ([run]) and interleaved ([pool_step], [run_schedule]), the rely/guarantee
      judgement [obeys], generic lemmas and tactics.
    - [GoLib], [GoSplit], [Utf8]: the parts of Go's language and library that
      the sources use: byte strings, UTF-8, durations, JSON values, splitting.
      [Encoding]: big-endian integers, base64, the text of JSON documents.
      [AesGcm]: AES in Galois counter mode, and the class [AEAD] of what the
      barrier needs to know of a cipher.
    - [Storage]: [sdk/physical/inmem/inmem.go], storage views, barrier views.
      [ScanView]: the walks over a view of [sdk/logical/storage.go].
    - [Core]: the effects of the server (storage, clock, randomness, lookups of
      tokens and entities, routing, leases) and the world they act on. What an
      effect answers is given by an environment [Env]: storage may fail at any
      step, the backend may answer anything.

    The approval workflow.
    - [ApprovalTypes], [ApprovalCore]: [vault/approval_core.go]: rules,
      requests, history, their JSON encoding, the interceptor
      ([checkNeedsApproval]), the duplicate check, the execution
      ([executeApprovedRequest]), the Slack message.
    - [ApprovalHandlers], [ApprovalPaths]: [vault/logical_system_approvals.go]:
      each handler as a program over the effects, and the table of endpoints
      with their patterns.
    - [RequestHandling], [Lease]: the part of [handleRequest] from the
      interceptor to the lease, and [CalculateTTL].
    - [ApprovalJson], [CoreLogic], [ApprovalLogic], [Reliable], [Effects]: the
      encoding round trips, the weakest-precondition logic of handlers, its
      rules for storage without faults, and the disciplines of effects (which
      handlers only read, never route, write through one view only).
    - [ApprovalPure], [Interception], [ApprovalAuthority], [ApprovalInvariant],
      [ApprovalConfinement], [ApprovalLifecycle], [ApprovalOps],
      [ApprovalPurge], [ApprovalRaces], [LeaseFacts], [StorageFacts],
      [ScanViewFacts]: the theorems.

    The barrier.
    - [BarrierState]: a store of keys shared by pointers, the keyring and the
      barrier that refer to it, the physical backend, and the monad of the
      operations: state, a Go error as a result, a Go panic as no result.
    - [KeyringOps], [Barrier]: [vault/keyring.go] and
      [vault/barrier_aes_gcm.go], function by function.
    - [BarrierLogic], [BarrierCrypt], [KeyringFacts], [BarrierInv],
      [BarrierOps]: the weakest-precondition logic, the layout of a stored
      value, the meaning of a keyring, the invariant of disk and memory, and a
      rule per operation.
    - [BarrierRefine], [BarrierSim], [BarrierSimKeys]: the abstract store of
      plain values and the simulation.  [BarrierTheorems], [KeyringTheorems]:
      the theorems.

    Routing and access control.
    - [Router], [Routing]: [vault/router.go]: the table (a store of shared
      entries, reached by mount path and by storage prefix), its operations and
      lookups, the special paths of a backend, and [routeCommon].
    - [RouterFacts], [RoutingFacts], [SystemPaths]: their theorems, with
      [buildLogicalPath] and the root paths of the system backend.
    - [Templating], [Policy], [Acl]: the templates of policy paths, the parsing
      of policies, and access control.
    - [AclFacts], [AclSound]: their theorems.

    Tokens and policies on a running server.
    - [Tokens]: the entry of a token, its encoding and its identifiers
      ([sdk/logical/token.go]).
    - [Server]: the memory of the policy and token stores beside the world of
      [Core], their effects, and sections of code under a lock: [locked] code
      is one step of an interleaving, [steps] makes every effect one.  What the
      other parts answer is given by an environment [SEnv].
    - [PolicyStore]: [vault/policy_store.go] and the endpoints of policies.
    - [TokenStore]: [vault/token_store.go]: storing, looking up, using,
      creating and revoking tokens.  Each access to the storage, to a lock or
      to the map of deletions is an effect; [thread_step] interleaves threads
      that wait for the locks they ask for.
    - [ServerLogic], [PolicyStoreFacts], [PolicyStoreTheorems]: the logic of
      locked programs, one rule per operation, and the theorems of the policy
      store.
    - [TokenFacts], [TokenUses], [TokenRevoke], [TokenLookup], [TokenTheorems]:
      the encoding of an entry, a ghost count of the uses that each thread may
      still make, the walk of a revocation over a token's descendants, what a
      lookup returns, and the theorems.

    A request from its token on.
    - [Pipeline]: [vault/request_handling.go]: [PopulateTokenEntry],
      [CheckToken] with what it calls, and [handleRequest] up to [dispatch] of
      [RequestHandling], over the effects of [Server].  [handle_with_token]
      composes them.
    - [Quiet], [PipelineFacts], [PipelineTheorems]: what lookups leave alone,
      what each stage returns, and the theorems.

    Secret sharing.
    - [Shamir]: [shamir/shamir.go], on bytes.  [ShamirArith], [ShamirTotal],
      [GF256], [ShamirSharing]: the field, totality and the two theorems.

    [Scenario], [RouterScenario], [BarrierScenario] and [ServerScenario] hold a
    concrete deployment, on which the witnesses evaluate the definitions.

    ** What the theorems show

    - Authority: a parked request is executed only by an entitled, deciding
      vote, exactly as it was parked (C1); a guarded request never reaches a
      backend otherwise (C2, C13); fetching and denying are reserved to those
      entitled (C11, C37); the workflow writes nowhere but in its own part of
      the storage ([approvals_confined]). Reaching a backend means being routed
      for the operation; the question whether the entry of a write exists is
      put to the backend before the interceptor and before the policies are
      consulted, and does not count.
    - Mediation: a request with a token is routed only if the token is live and
      all the policies it is entitled to, taken together, let the operation
      pass, with sudo on a root path, and it is then in the audit log (C3).
    - Life of a request: calls served one after the other, under every pattern
      of storage faults, are a run of an abstract store in which each call
      makes only its own move (C5); in every interleaving of calls what is
      stored is well formed (C14); a credential is handed out and removed
      (C12).
    - Function, without faults: parking (C29), the grant (C27), the delivery
      (C28), the cascade of a deleted rule (C36); plain theorems give the roll
      back of a failed execution, the block on duplicates, the history and the
      match of a rule.
    - Barrier: whatever fails on disk, in every order of operations and with
      stops of the process between them, the barrier is a store of plain values
      that is unsealed by its root key alone (C8).  The operations read and
      write paths that are not the barrier's own, and a key that is tried opens
      no entry sealed under another one.  When nothing fails the barrier does
      what it is asked (C9); what it reads back was sealed under a key of its
      keyring, and for that path if the entry is of version 2, even from a disk
      that anyone may have rewritten (C10); sealing leaves no key in memory
      (C17).
    - Keys: rotation installs the next term and keeps the old ones readable
      (C18); the text of a keyring gives it back (C19); a standby that follows
      the upgrades reaches the active node's keyring (C20); encryptions are
      counted exactly ([persistEncryptions_exact]).
    - Routing: the table stays unambiguous (C15); a backend sees neither the
      token nor what the core keeps (C16); plain theorems show that the caller
      gets its request back and that special paths mean what their lists say.
    - Storage: clearing a view removes nothing else, reports success only if
      the view is empty, and succeeds when nothing goes wrong (C31).
    - Access control: decisions are sound and always made (C4); policies
      combine as union with denial on top (C25); the rule of highest priority
      applies whatever the order of a map's iteration (C26); what parses has
      the capabilities its text states, as bits and as names (C32).
    - Policy store: in every interleaving the cache agrees with the storage
      (C21), for names that the cache's key leaves alone and a storage that
      applies no write for which it reports an error; other names share a key,
      and what follows from that is C34 and C35.
    - Token store: in every interleaving of uses, lookups and revocations
      (other than the one that makes orphans of children) a token is used at
      most as often as its count says (C22); the revocation of a tree ends and
      leaves none of its tokens, whatever the shape of the index (C23); a
      lookup returns live tokens only (C24), where root tokens count as live
      whatever their lease. Two ways in which revocation goes wrong are
      [orphaning_gives_use_back] and C38.
    - Secret sharing: enough shares give the secret back (C6), fewer are as
      likely to come from any other secret of that length (C7), combining
      always ends and never divides by zero (C33).
    - Leases: the time to live is bounded ([CalculateTTL_bounded]).
    - What the code does not do: C30 (no lease for an approved secret),
      [approval_lists_need_no_sudo] (listings that should need sudo), C39 (a
      vote that was let through does not notice that the request was executed
      or denied in the meantime; runs of this are [handlers_race]), C40
      (unreadable rules are skipped, while a list that fails stops the
      request).

    ** Parameters

    Code outside the repository is a parameter, with what is used of it as laws
    of a class: go-radix ([RadixTree], [RadixSearch]), Unicode tables
    ([GoTables]), go-secure-stdlib and its relatives ([Strutil], [Strsets],
    [Globbing], [Parseutil]), the HCL library ([HCL]), go-sockaddr
    ([Sockaddr]), the hash of mount identifiers ([Crypto]), the hashes of
    tokens and of lock numbers and the protocol buffers of tokens
    ([TokenCrypto]), the order of a map's iteration ([MapRange], [TermRange]),
    the text of JSON documents ([JsonText]).  The cipher is a class as well
    ([AEAD]); that a ciphertext can be opened only if it was sealed under that
    key, nonce and data is a law of functions and not of probabilities, and
    [aes_gcm] proves it of AES-GCM as it is written.  Backends, tokens,
    entities, random bytes, clocks and storage faults are quantified over
    ([Env], [SEnv], [BEnv]).  Each class has an instance in the scenarios.

    ** Bounds and fuel

    Loops are structural recursion on what they range over.  [decode_chunks]
    decodes a byte string with its length as fuel and every step consumes at
    least one byte ([chunks_fuel]); [Split] cuts a string with one more than
    its length, which no number of pieces exceeds; [scan_loop] lists at most
    [weight] folders, one more than the keys' total length below the view (part
    of C31).  [Lookup_chain] follows the parents of batch tokens, each inside
    of the text of its child, with the length of the identifier as fuel;
    [revoke_loop] takes at most [tree_fuel] steps (part of C23).  Durations are
    64-bit and wrap ([wrap64]), bytes are 8-bit; capabilities are bit sets
    below 2^10.  A key's term is 32-bit and wraps, a count of encryptions is
    64-bit and wraps, and a plaintext is at most [gcm_limit] bytes, beyond
    which Go's cipher panics. Schedules and numbers of calls are unbounded.

    ** What is not modelled

    Locks of the router (an operation is one step).  Of the barrier: the
    moments at which [CheckUpgrade], [ReloadRootKey], [CheckBarrierAutoRotate],
    [CreateUpgrade], [Delete] and [List] change or leave the lock, so that each
    of them is one step ([Put] and [Encrypt], which encrypt without the lock,
    are two), the seal-wrap mark of an entry, metrics and timeouts.  Seals, and
    the unsealing and rekeying of a server above the barrier.  Of the token
    store: the parsing of a request to create a token, roles, renewal, the
    endpoints of accessors and tidying.  Of the handling of a request: logins,
    quotas, the Auth blocks and wrapping tokens of responses, and the special
    treatment of single paths.  The identity store, the expiration manager, the
    activity log and the audit log, which appear as effects; forwarding and
    high availability; the other endpoints of the system backend; secrets
    engines and auth methods, which are arbitrary answers; the HTTP server,
    command line, agent, web interface and physical backends other than the
    in-memory one, which are input and output.  The namespaces and sentinel
    policies of the enterprise edition, which the sources replace by stubs.

    ** Next

    Logins and the tokens that responses carry, which enter the pipeline after
    the router; then the mount tables. *)

From stdpp Require Export prelude gmap strings list sorting pretty.
From Stdlib Require Export Lia.

#[global] Set Default Goal Selector "!".
#[global] Open Scope stdpp_scope.
#[global] Open Scope Z_scope.

(** ** Results

    A Go function returning [(T, error)] where exactly one of the two is
    meaningful returns a [result]. *)

Inductive result (Er A : Type) : Type :=
| Ok (a : A)
| Err (e : Er).
Arguments Ok {_ _} _.
Arguments Err {_ _} _.

#[export] Instance result_mret Er : MRet (result Er) := λ A a, Ok a.
#[export] Instance result_mbind Er : MBind (result Er) := λ A B f r,
  match r with Ok a => f a | Err e => Err e end.

Definition is_ok {Er A} (r : result Er A) : bool :=
  match r with Ok _ => true | Err _ => false end.

(** ** Effectful programs

    A handler of the server is a finite tree: it either returns, or performs
    one effect and continues with the effect's answer. The same tree is run
    to completion by [run], and step by step among other handlers by
    [pool_step]; the theorems about a handler alone and about interleaved
    handlers are theorems about one definition. *)

Inductive prog (E : Type → Type) (A : Type) : Type :=
| Ret (a : A)
| Vis {X : Type} (e : E X) (k : X → prog E A).
Arguments Ret {_ _} _.
Arguments Vis {_ _ _} _ _.

Fixpoint pbind {E A B} (f : A → prog E B) (p : prog E A) : prog E B :=
  match p with
  | Ret a => f a
  | Vis e k => Vis e (λ x, pbind f (k x))
  end.

#[export] Instance prog_mret E : MRet (prog E) := λ A a, Ret a.
#[export] Instance prog_mbind E : MBind (prog E) := λ A B f p, pbind f p.

Definition trigger {E X} (e : E X) : prog E X := Vis e Ret.

(** [for _, x := range l { ... }]: [inl s] falls through to the next
    iteration with loop state [s]; [inr r] leaves the loop ([break] or
    [return]). *)
Fixpoint range {E A S R} (l : list A) (s : S)
    (body : A → S → prog E (S + R)) : prog E (S + R) :=
  match l with
  | [] => Ret (inl s)
  | x :: l' =>
      r ← body x s;
      match r with
      | inl s' => range l' s' body
      | inr r' => Ret (inr r')
      end
  end.

(** ** Interpretation *)

Class Handler (E : Type → Type) (W : Type) : Type :=
  handle : ∀ X, E X → W → X * W.
Arguments handle {_ _ _ _} _ _.

Section interpretation.
Context {E : Type → Type} {W : Type} {H : Handler E W} {A : Type}.

Fixpoint run (p : prog E A) (w : W) : A * W :=
  match p with
  | Ret a => (a, w)
  | Vis e k => let r := handle e w in run (k r.1) r.2
  end.

(** One effect of one thread. *)
Definition tstep (p : prog E A) (w : W) : option (prog E A * W) :=
  match p with
  | Ret _ => None
  | Vis e k => let r := handle e w in Some (k r.1, r.2)
  end.

(** The interleaving semantics: any thread that has not returned may
    perform its next effect. *)
Inductive pool_step : list (prog E A) * W → list (prog E A) * W → Prop :=
| pool_sched ts w (i : nat) t t' w' :
    ts !! i = Some t →
    tstep t w = Some (t', w') →
    pool_step (ts, w) (<[i:=t']> ts, w').

(** A schedule, executed: the indices of the threads to step, in order; a
    returned or absent thread is skipped. *)
Definition sched_step (c : list (prog E A) * W) (i : nat) : list (prog E A) * W :=
  match c.1 !! i with
  | Some t => match tstep t c.2 with
              | Some (t', w') => (<[i:=t']> c.1, w')
              | None => c
              end
  | None => c
  end.

Definition run_schedule (sch : list nat) (c : list (prog E A) * W) :=
  fold_left sched_step sch c.

Definition returned (p : prog E A) : option A :=
  match p with Ret a => Some a | Vis _ _ => None end.
End interpretation.

Lemma run_bind {E W} {H : Handler E W} {A B} (p : prog E A) (f : A → prog E B) w :
  run (p ≫= f) w = run (f (run p w).1) (run p w).2.
Proof.
  revert w. induction p as [a|X e k IH]; intros w; [done|]. apply IH.
Qed.

Lemma run_ret {E W} {H : Handler E W} {A} (a : A) w :
  run (E:=E) (Ret a) w = (a, w).
Proof. done. Qed.

Lemma run_trigger {E W} {H : Handler E W} {X} (e : E X) w :
  run (trigger e) w = handle e w.
Proof. simpl. by destruct (handle e w). Qed.

Lemma run_schedule_steps {E W} {H : Handler E W} {A} sch (c : list (prog E A) * W) :
  rtc pool_step c (run_schedule sch c).
Proof.
  revert c. induction sch as [|i sch IH]; intros [ts w]; [done|]. simpl.
  etrans; [|apply IH]. unfold sched_step; simpl.
  destruct (ts !! i) as [t|] eqn:Ht; [|done].
  destruct (tstep t w) as [[t' w']|] eqn:Hs; [|done].
  apply rtc_once. by econstructor.
Qed.

(** A thread of a pool can run up to a point without the others, *)
Lemma pool_run_bind {E W} {H : Handler E W} {A B} (i : nat) ts (p : prog E B)
    (k : B → prog E A) w :
  ts !! i = Some (p ≫= k) →
  rtc pool_step (ts, w) (<[i:=k (run p w).1]> ts, (run p w).2).
Proof.
  revert ts w. induction p as [b|X e f IH]; intros ts w Hi.
  { by rewrite list_insert_id. }
  eapply rtc_l; [by eapply pool_sched|]. simpl.
  specialize (IH (handle e w).1 (<[i:=f (handle e w).1 ≫= k]> ts) (handle e w).2).
  rewrite list_insert_insert_eq in IH. apply IH, list_lookup_insert_eq. by eapply lookup_lt_Some.
Qed.

(** or to its end. *)
Lemma pool_run {E W} {H : Handler E W} {A} (i : nat) ts (p : prog E A) w :
  ts !! i = Some p → rtc pool_step (ts, w) (<[i:=Ret (run p w).1]> ts, (run p w).2).
Proof.
  revert ts w. induction p as [a|X e f IH]; intros ts w Hi; [by rewrite list_insert_id|].
  eapply rtc_l; [by eapply pool_sched|]. simpl.
  specialize (IH (handle e w).1 (<[i:=f (handle e w).1]> ts) (handle e w).2).
  rewrite list_insert_insert_eq in IH. apply IH, list_lookup_insert_eq. by eapply lookup_lt_Some.
Qed.

(** ** Rely/guarantee reasoning

    [obeys pre post p Q]: every effect [p] issues satisfies [pre], assuming
    every answer satisfies [post], and the value returned satisfies [Q]. When
    [pre] is enough to keep an invariant of the world and the invariant gives
    [post], the invariant holds in every interleaving. *)

Section obeys.
Context {E : Type → Type}.
Context (pre : ∀ X, E X → Prop) (post : ∀ X, E X → X → Prop).

Fixpoint obeys {A} (p : prog E A) (Q : A → Prop) : Prop :=
  match p with
  | Ret a => Q a
  | Vis e k => pre _ e ∧ ∀ x, post _ e x → obeys (k x) Q
  end.

Lemma obeys_mono {A} (p : prog E A) (Q Q' : A → Prop) :
  obeys p Q → (∀ a, Q a → Q' a) → obeys p Q'.
Proof.
  intros Hp HQ. induction p as [a|X e k IH]; simpl in *; [by apply HQ|].
  destruct Hp as [Hpre Hk]. split; [done|]. intros x Hx. by apply IH, Hk.
Qed.

Lemma obeys_bind {A B} (p : prog E A) (f : A → prog E B) Q :
  obeys p (λ a, obeys (f a) Q) → obeys (p ≫= f) Q.
Proof.
  intros Hp. induction p as [a|X e k IH]; simpl in *; [done|].
  destruct Hp as [Hpre Hk]. split; [done|]. intros x Hx. by apply IH, Hk.
Qed.

(** The rule for a call: the callee's specification, then the rest. *)
Lemma obeys_call {A B} (p : prog E A) (f : A → prog E B) (P : A → Prop) Q :
  obeys p P → (∀ a, P a → obeys (f a) Q) → obeys (p ≫= f) Q.
Proof. intros Hp Hf. apply obeys_bind. by eapply obeys_mono. Qed.

Lemma obeys_trigger {X} (e : E X) Q :
  pre _ e → (∀ x, post _ e x → Q x) → obeys (trigger e) Q.
Proof. done. Qed.

(** The loop rule, with an invariant [I] of the loop state. *)
Lemma obeys_range {A S R} (I : S → Prop) (Q : R → Prop)
    (l : list A) s (body : A → S → prog E (S + R)) :
  I s →
  (∀ x s, x ∈ l → I s →
     obeys (body x s) (λ r, match r with inl s' => I s' | inr r' => Q r' end)) →
  obeys (range l s body) (λ r, match r with inl s' => I s' | inr r' => Q r' end).
Proof.
  intros Hs Hbody. revert s Hs. induction l as [|x l IH]; intros s Hs; [done|].
  simpl. eapply obeys_call; [apply Hbody; [set_solver|done]|].
  intros [s'|r'] Hr; [|done]. apply IH; [|done].
  intros y s'' Hy. apply Hbody. set_solver.
Qed.

Context {W : Type} {H : Handler E W} (Inv : W → Prop).
Context (sound : ∀ X (e : E X) w,
  pre X e → Inv w → Inv (handle e w).2 ∧ post X e (handle e w).1).

Lemma obeys_run {A} (p : prog E A) Q w :
  obeys p Q → Inv w → Inv (run p w).2 ∧ Q (run p w).1.
Proof using sound.
  revert w. induction p as [a|X e k IH]; intros w; [done|].
  intros [Hpre Hk] Hw. destruct (sound X e w Hpre Hw) as [Hw' Hpost].
  simpl. by apply IH; [apply Hk|].
Qed.

Lemma obeys_tstep {A} (p p' : prog E A) Q w w' :
  tstep p w = Some (p', w') → obeys p Q → Inv w → obeys p' Q ∧ Inv w'.
Proof using sound.
  destruct p as [a|X e k]; [done|]. intros Hs [Hpre Hk] Hw.
  destruct (sound X e w Hpre Hw) as [Hw' Hpost].
  injection Hs as <- <-. split; [by apply Hk|done].
Qed.

(** Every thread obeying, the invariant holds after any interleaving, and
    every value a thread has returned satisfies its postcondition. *)
Lemma obeys_pool {A} (Q : A → Prop) ts w ts' w' :
  rtc pool_step (ts, w) (ts', w') →
  Forall (λ p, obeys p Q) ts → Inv w →
  Forall (λ p, obeys p Q) ts' ∧ Inv w'.
Proof using sound.
  remember (ts, w) as c eqn:Hc. remember (ts', w') as c' eqn:Hc'. intros Hsteps.
  revert ts w Hc. induction Hsteps as [c|c c1 c2 Hstep Hsteps IH];
    intros ts w -> Hts Hw; [by simplify_eq|].
  inversion Hstep as [ts0 w0 i t t1 w1 Hi Ht]; simplify_eq.
  destruct (obeys_tstep _ _ Q _ _ Ht (Forall_lookup_1 _ _ _ _ Hts Hi) Hw).
  eapply IH; [done..| |done]. by apply Forall_insert.
Qed.
End obeys.

(** ** Lists *)

Lemma NoDup_only {A} (a : A) (l : list A) : NoDup l → (∀ x, x ∈ l ↔ x = a) → l = [a].
Proof.
  intros Hl Hx. symmetry. apply Permutation_singleton_l, NoDup_Permutation; [apply NoDup_singleton|done|].
  intros x. by rewrite Hx, list_elem_of_singleton.
Qed.

Lemma elem_of_concat {A} (x : A) (ls : list (list A)) :
  x ∈ concat ls ↔ ∃ l, l ∈ ls ∧ x ∈ l.
Proof.
  rewrite list_elem_of_In, in_concat. by setoid_rewrite list_elem_of_In.
Qed.

(** ** Tactics *)

(** Simplifies conditions without unfolding the effects after them. *)
Ltac csimplb := cbn [negb andb orb fst snd from_option default].
