(* ===== verification/GoLib.v ===== *)
(** * The parts of Go's language and standard library the sources use

    Strings are byte strings; a rune is an [N]. Package [strings]:
    [HasPrefix], [TrimPrefix], [HasSuffix], [TrimSuffix], [Contains],
    [Index], [TrimSpace], [EqualFold]; ranging over a string and
    [WriteRune] (UTF-8); [http.CanonicalHeaderKey]; the scheme of
    [url.Parse]; [time.Duration] in seconds and minutes. *)

From S2P Require Import Prelude.
From Stdlib Require Import Ascii SpecFloat.

(** ** Prefixes and suffixes *)

Fixpoint strip_prefix (p s : string) : option string :=
  match p, s with
  | "", _ => Some s
  | String c p', String d s' => if decide (c = d) then strip_prefix p' s' else None
  | _, _ => None
  end.

Fixpoint strip_suffix (q s : string) : option string :=
  if decide (s = q) then Some ""
  else match s with
       | "" => None
       | String c s' => String c <$> strip_suffix q s'
       end.

Definition HasPrefix (s p : string) : bool := bool_decide (is_Some (strip_prefix p s)).
Definition TrimPrefix (s p : string) : string := default s (strip_prefix p s).
Definition HasSuffix (s q : string) : bool := bool_decide (is_Some (strip_suffix q s)).
Definition TrimSuffix (s q : string) : string := default s (strip_suffix q s).

(** [strings.Index]: the offset of the first occurrence, [None] for -1. *)
Fixpoint Index (s sub : string) : option nat :=
  if HasPrefix s sub then Some 0%nat
  else match s with
       | "" => None
       | String _ s' => S <$> Index s' sub
       end.

Definition Contains (s sub : string) : bool := bool_decide (is_Some (Index s sub)).

(** The bytes before offset [n], [s[:n]]. *)
Fixpoint str_take (n : nat) (s : string) : string :=
  match n, s with
  | S n', String c s' => String c (str_take n' s')
  | _, _ => ""
  end.

(** The bytes from offset [n], [s[n:]]. *)
Fixpoint str_drop (n : nat) (s : string) : string :=
  match n, s with
  | S n', String _ s' => str_drop n' s'
  | _, _ => s
  end.

Lemma str_app_nil_r s : s +:+ "" = s.
Proof. induction s as [|c s IH]; [done|]. by rewrite <-IH at 2. Qed.

Lemma str_app_assoc (s t u : string) : (s +:+ t) +:+ u = s +:+ (t +:+ u).
Proof. induction s as [|c s IH]; [done|]. by apply (f_equal (String c)). Qed.

Lemma str_app_inj_l (p s t : string) : p +:+ s = p +:+ t → s = t.
Proof. induction p as [|c p IH]; [done|]. intros [= Heq]. by apply IH. Qed.

Lemma str_length_app (s t : string) :
  String.length (s +:+ t) = (String.length s + String.length t)%nat.
Proof. induction s as [|c s IH]; [done|]. simpl. by apply (f_equal S). Qed.

Lemma strip_prefix_Some p s r : strip_prefix p s = Some r ↔ s = p +:+ r.
Proof.
  revert s. induction p as [|c p IH]; intros s; simpl.
  { split; [by intros [= ->]|by intros ->]. }
  destruct s as [|d s]; [done|]. case_decide as Hcd.
  - subst d. rewrite IH. split; [by intros ->|by intros [= ->]].
  - split; [done|]. by intros [= ? _].
Qed.

Lemma strip_prefix_app p r : strip_prefix p (p +:+ r) = Some r.
Proof. by apply strip_prefix_Some. Qed.

Lemma HasPrefix_spec s p : HasPrefix s p = true ↔ ∃ r, s = p +:+ r.
Proof.
  unfold HasPrefix. rewrite bool_decide_eq_true. unfold is_Some.
  split; intros [r Hr]; exists r; by apply strip_prefix_Some.
Qed.

Lemma TrimPrefix_app p r : TrimPrefix (p +:+ r) p = r.
Proof. unfold TrimPrefix. by rewrite strip_prefix_app. Qed.

Lemma strip_suffix_Some q s r : strip_suffix q s = Some r ↔ s = r +:+ q.
Proof.
  revert r. induction s as [|c s IH]; intros r; simpl.
  - case_decide as Hq; subst.
    + split; [by intros [= <-]|]. by destruct r.
    + split; [done|]. intros Heq. by destruct r.
  - case_decide as Hq; subst.
    + split; [by intros [= <-]|]. intros Heq.
      enough (String.length r = 0%nat) by by destruct r.
      apply (f_equal String.length) in Heq. rewrite str_length_app in Heq. simpl in *. lia.
    + rewrite fmap_Some. split.
      * intros [r' [Hr' ->]]. apply IH in Hr' as ->. done.
      * destruct r as [|d r]; [by intros Heq; destruct Hq|]. intros [= -> Hs].
        exists r. split; [by apply IH|done].
Qed.

Lemma HasSuffix_spec s q : HasSuffix s q = true ↔ ∃ r, s = r +:+ q.
Proof.
  unfold HasSuffix. rewrite bool_decide_eq_true. unfold is_Some.
  split; intros [r Hr]; exists r; by apply strip_suffix_Some.
Qed.

Lemma TrimSuffix_app r q : TrimSuffix (r +:+ q) q = r.
Proof. unfold TrimSuffix. by rewrite (proj2 (strip_suffix_Some q _ r) eq_refl). Qed.

(** ** Bytes and UTF-8 *)

Fixpoint bytes (s : string) : list N :=
  match s with
  | "" => []
  | String c s' => N_of_ascii c :: bytes s'
  end.

Fixpoint of_bytes (bs : list N) : string :=
  match bs with
  | [] => ""
  | b :: bs' => String (ascii_of_N b) (of_bytes bs')
  end.

Definition RuneError : N := 0xFFFD.

Definition byte_in (lo hi b : N) : bool := ((lo <=? b) && (b <=? hi))%N.

(** [utf8.DecodeRune]: the first rune and its width; an invalid or
    truncated sequence, an overlong form or a surrogate is
    [(RuneError, 1)]. *)
Definition decode_rune (bs : list N) : N * nat :=
  let cont (b : N) := N.land b 0x3F in
  match bs with
  | [] => (RuneError, 0%nat)
  | b0 :: r =>
    if (b0 <? 0x80)%N then (b0, 1%nat)
    else if byte_in 0xC2 0xDF b0 then
      match r with
      | b1 :: _ =>
        if byte_in 0x80 0xBF b1
        then (N.lor (N.shiftl (N.land b0 0x1F) 6) (cont b1), 2%nat)
        else (RuneError, 1%nat)
      | _ => (RuneError, 1%nat)
      end
    else if byte_in 0xE0 0xEF b0 then
      let lo := if (b0 =? 0xE0)%N then 0xA0%N else 0x80%N in
      let hi := if (b0 =? 0xED)%N then 0x9F%N else 0xBF%N in
      match r with
      | b1 :: b2 :: _ =>
        if byte_in lo hi b1 && byte_in 0x80 0xBF b2
        then (N.lor (N.shiftl (N.land b0 0x0F) 12)
                (N.lor (N.shiftl (cont b1) 6) (cont b2)), 3%nat)
        else (RuneError, 1%nat)
      | _ => (RuneError, 1%nat)
      end
    else if byte_in 0xF0 0xF4 b0 then
      let lo := if (b0 =? 0xF0)%N then 0x90%N else 0x80%N in
      let hi := if (b0 =? 0xF4)%N then 0x8F%N else 0xBF%N in
      match r with
      | b1 :: b2 :: b3 :: _ =>
        if byte_in lo hi b1 && byte_in 0x80 0xBF b2 && byte_in 0x80 0xBF b3
        then (N.lor (N.shiftl (N.land b0 0x07) 18)
                (N.lor (N.shiftl (cont b1) 12)
                   (N.lor (N.shiftl (cont b2) 6) (cont b3))), 4%nat)
        else (RuneError, 1%nat)
      | _ => (RuneError, 1%nat)
      end
    else (RuneError, 1%nat)
  end.

(** The runes of a byte string in order, each with the bytes it was read
    from. Each step consumes at least one byte, so the length of the string
    is enough fuel. *)
Fixpoint decode_chunks (fuel : nat) (bs : list N) : list (N * list N) :=
  match fuel, bs with
  | S fuel', _ :: _ =>
      let '(r, n) := decode_rune bs in
      (r, take n bs) :: decode_chunks fuel' (drop n bs)
  | _, _ => []
  end.

Definition chunks (bs : list N) : list (N * list N) := decode_chunks (length bs) bs.

(** [for _, r := range s]. *)
Definition runes (bs : list N) : list N := (chunks bs).*1.

(** [utf8.AppendRune]; a value that is not a Unicode scalar is written as
    [RuneError]. *)
Definition encode_rune (r : N) : list N :=
  let cont (x : N) := N.lor 0x80 (N.land x 0x3F) in
  let three (r : N) :=
    [N.lor 0xE0 (N.shiftr r 12); cont (N.shiftr r 6); cont r] in
  if (r <? 0x80)%N then [r]
  else if (r <? 0x800)%N then [N.lor 0xC0 (N.shiftr r 6); cont r]
  else if byte_in 0xD800 0xDFFF r || (0x10FFFF <? r)%N then three RuneError
  else if (r <? 0x10000)%N then three r
  else [N.lor 0xF0 (N.shiftr r 18); cont (N.shiftr r 12); cont (N.shiftr r 6); cont r].

(** [unicode.IsSpace]. *)
Definition is_space (r : N) : bool :=
  (byte_in 0x09 0x0D r || (r =? 0x20) || (r =? 0x85) || (r =? 0xA0) || (r =? 0x1680)
   || byte_in 0x2000 0x200A r || (r =? 0x2028) || (r =? 0x2029) || (r =? 0x202F)
   || (r =? 0x205F) || (r =? 0x3000))%N.

Fixpoint drop_spaces (l : list (N * list N)) : list (N * list N) :=
  match l with
  | [] => []
  | c :: l' => if is_space c.1 then drop_spaces l' else l
  end.

(** [strings.TrimSpace]. *)
Definition TrimSpace (bs : list N) : list N :=
  concat (reverse (drop_spaces (reverse (drop_spaces (chunks bs))))).*2.

(** What [encoding/json] makes of a Go string: invalid UTF-8 is replaced. *)
Definition valid_utf8 (s : string) : string :=
  of_bytes (concat (encode_rune <$> runes (bytes s))).

Lemma decode_rune_width b bs : (1 ≤ (decode_rune (b :: bs)).2)%nat.
Proof. unfold decode_rune. repeat (case_match; simpl; try lia). Qed.

Lemma chunks_fuel fuel bs :
  (length bs ≤ fuel)%nat → concat (decode_chunks fuel bs).*2 = bs.
Proof.
  revert bs. induction fuel as [|fuel IH]; intros [|b bs] Hlen; try done; [simpl in Hlen; lia|].
  pose proof (decode_rune_width b bs) as Hw. cbn [decode_chunks].
  destruct (decode_rune (b :: bs)) as [r n] eqn:Hd. simpl in Hw.
  rewrite fmap_cons. cbn [concat snd].
  rewrite IH; [by rewrite take_drop|]. rewrite length_drop. simpl in *. lia.
Qed.

Lemma chunks_concat bs : concat (chunks bs).*2 = bs.
Proof. by apply chunks_fuel. Qed.

Lemma drop_spaces_suffix l : ∃ k, l = k ++ drop_spaces l.
Proof.
  induction l as [|c l [k Hk]]; [by exists []|]. simpl. case_match.
  - exists (c :: k). by rewrite <-app_comm_cons, <-Hk.
  - by exists [].
Qed.

(** Trimming keeps a contiguous part of the bytes. *)
Lemma TrimSpace_infix bs : ∃ k1 k2, bs = k1 ++ TrimSpace bs ++ k2.
Proof.
  unfold TrimSpace.
  destruct (drop_spaces_suffix (chunks bs)) as [k1 Hk1].
  destruct (drop_spaces_suffix (reverse (drop_spaces (chunks bs)))) as [k2 Hk2].
  apply (f_equal reverse) in Hk2. rewrite reverse_involutive, reverse_app in Hk2.
  exists (concat k1.*2), (concat (reverse k2).*2).
  rewrite <-(chunks_concat bs) at 1. rewrite Hk1 at 1. rewrite fmap_app, concat_app.
  f_equal. rewrite Hk2 at 1. by rewrite fmap_app, concat_app.
Qed.

(** ** Letter case, header keys, URL schemes *)

Definition is_upper (b : N) : bool := byte_in 0x41 0x5A b.
Definition is_lower (b : N) : bool := byte_in 0x61 0x7A b.
Definition is_digit (b : N) : bool := byte_in 0x30 0x39 b.
Definition to_upper (b : N) : N := if is_lower b then (b - 32)%N else b.
Definition to_lower (b : N) : N := if is_upper b then (b + 32)%N else b.

(** What of the standard library's tables the model does not spell out:
    Unicode case folding and lowercasing outside ASCII, and the checks
    [url.Parse] makes after the scheme (control bytes, escapes, host and
    port). *)
Class GoTables : Type := {
  SimpleFold_eq : N → N → bool;
  unicode_ToLower : N → N;
  url_rest_invalid : string → bool;
}.

(** One rune of [strings.EqualFold]. *)
Definition rune_fold_eq `{GoTables} (sr tr : N) : bool :=
  let lo := N.min sr tr in
  let hi := N.max sr tr in
  if (lo =? hi)%N then true
  else if (hi <? 0x80)%N then is_upper lo && (hi =? lo + 32)%N
  else SimpleFold_eq lo hi.

Fixpoint all2 {A B} (f : A → B → bool) (l : list A) (k : list B) : bool :=
  match l, k with
  | [], [] => true
  | x :: l', y :: k' => f x y && all2 f l' k'
  | _, _ => false
  end.

Definition EqualFold `{GoTables} (s t : string) : bool :=
  all2 rune_fold_eq (runes (bytes s)) (runes (bytes t)).

(** [strings.ToLower]. *)
Definition ToLower `{GoTables} (s : string) : string :=
  of_bytes (concat ((λ r, encode_rune (if (r <? 0x80)%N then to_lower r else unicode_ToLower r))
                      <$> runes (bytes s))).

Lemma EqualFold_refl `{GoTables} s : EqualFold s s = true.
Proof.
  unfold EqualFold. induction (runes (bytes s)) as [|r l IH]; [done|]. simpl.
  rewrite IH, andb_true_r. unfold rune_fold_eq.
  by rewrite N.min_id, N.max_id, N.eqb_refl.
Qed.

(** [validHeaderFieldByte]: the token characters of RFC 7230. *)
Definition header_byte (b : N) : bool :=
  is_upper b || is_lower b || is_digit b
  || existsb (N.eqb b)
       [0x21; 0x23; 0x24; 0x25; 0x26; 0x27; 0x2A; 0x2B; 0x2D; 0x2E; 0x5E; 0x5F;
        0x60; 0x7C; 0x7E]%N.

Fixpoint canonical_from (upper : bool) (bs : list N) : list N :=
  match bs with
  | [] => []
  | b :: bs' =>
      let c := if upper then to_upper b else to_lower b in
      c :: canonical_from (c =? 0x2D)%N bs'
  end.

(** [http.CanonicalHeaderKey]. *)
Definition CanonicalHeaderKey (s : string) : string :=
  if forallb header_byte (bytes s)
  then of_bytes (canonical_from true (bytes s)) else s.

(** [getScheme] of [net/url], [acc] being the bytes before the current one:
    [None] is the error for a leading colon, [Some []] no scheme. *)
Fixpoint getScheme (acc bs : list N) : option (list N) :=
  match bs with
  | [] => Some []
  | b :: bs' =>
    if is_upper b || is_lower b then getScheme (acc ++ [b]) bs'
    else if is_digit b || existsb (N.eqb b) [0x2B; 0x2D; 0x2E]%N then
      match acc with [] => Some [] | _ => getScheme (acc ++ [b]) bs' end
    else if (b =? 0x3A)%N then
      match acc with [] => None | _ => Some acc end
    else Some []
  end.

(** [url.Parse], of which only the error and [u.Scheme] (lower-cased) are
    used. *)
Definition url_Parse `{GoTables} (raw : string) : option string :=
  if url_rest_invalid raw then None
  else match getScheme [] (bytes raw) with
       | Some sch => Some (of_bytes (to_lower <$> sch))
       | None => None
       end.

(** ** Durations and instants

    An instant is the number of nanoseconds since Go's zero [time.Time], so
    [t.IsZero()] is [t =? 0]; a [time.Duration] is a number of
    nanoseconds. *)

Definition Second : Z := 1000000000.
Definition Minute : Z := 60 * Second.
Definition Hour : Z := 60 * Minute.

Definition IsZero (t : Z) : bool := t =? 0.
Definition After (t u : Z) : bool := u <? t.
Definition Before (t u : Z) : bool := t <? u.

Definition float64 (z : Z) : spec_float := binary_normalize 53 1024 z 0 false.

Definition trunc (f : spec_float) : Z :=
  match f with
  | S754_finite s m e =>
      let a := if 0 <=? e then Z.shiftl (Zpos m) e else Z.shiftr (Zpos m) (- e) in
      if s then - a else a
  | _ => 0
  end.

(** [int64(d.Seconds())] for [unit := Second], [int(d.Minutes())] for
    [unit := Minute]: the whole part plus the remainder over the unit, in
    [float64], truncated. *)
Definition dur_in (unit d : Z) : Z :=
  trunc (SFadd 53 1024 (float64 (Z.quot d unit))
           (SFdiv 53 1024 (float64 (Z.rem d unit)) (float64 unit))).

Example dur_in_ex1 : dur_in Second (3600 * Second + 1) = 3600.
Proof. vm_compute. reflexivity. Qed.
Example dur_in_ex2 : dur_in Second (4294967296 * Second + 999999999) = 4294967297.
Proof. vm_compute. reflexivity. Qed.

(** [t.Truncate(d)] for an instant. *)
Definition Truncate (t d : Z) : Z := t - t mod d.

(** [t.Sub(u)], saturating at the range of [time.Duration]. *)
Definition time_Sub (t u : Z) : Z := Z.max (- 2 ^ 63) (Z.min (2 ^ 63 - 1) (t - u)).

(** Two's complement at 64 bits. *)
Definition wrap64 (z : Z) : Z := (z + 2 ^ 63) mod 2 ^ 64 - 2 ^ 63.

(** [fmtFrac] of package [time]: the fraction [v / 10^prec] with its point,
    trailing zeros dropped; empty when it is zero. *)
Fixpoint frac_digits (prec : nat) (v : Z) (printing : bool) : string :=
  match prec with
  | O => if printing then "." else ""
  | S prec' =>
      let digit := v mod 10 in
      let printing := printing || negb (digit =? 0) in
      frac_digits prec' (v / 10) printing
      +:+ (if printing then pretty digit else "")
  end.

(** [time.Duration.String]. *)
Definition Duration_String (d : Z) : string :=
  let u := Z.abs d in
  let sign := if d <? 0 then "-" else "" in
  let scaled (prec : nat) (suffix : string) :=
    pretty (u / 10 ^ Z.of_nat prec) +:+ frac_digits prec u false +:+ suffix in
  if u =? 0 then "0s"
  else sign +:+
    (if u <? 1000 then scaled 0%nat "ns"
     else if u <? 1000000 then scaled 3%nat "µs"
     else if u <? Second then scaled 6%nat "ms"
     else
       let secs := u / Second in
       let s := pretty (secs mod 60) +:+ frac_digits 9 u false +:+ "s" in
       let mins := secs / 60 in
       if mins =? 0 then s
       else
         let ms := pretty (mins mod 60) +:+ "m" +:+ s in
         if mins / 60 =? 0 then ms else pretty (mins / 60) +:+ "h" +:+ ms).

(** [len] of a slice. *)
Definition len {A} (l : list A) : Z := Z.of_nat (length l).

(** ** Go values and JSON

    A Go [interface{}] value, and the JSON document it is encoded as.
    [VTime] is an instant (in JSON its RFC 3339 string), [VSprintf] a text
    kept as its format and arguments, [VText v] the JSON text of [v]. *)

#[local] Set Warnings "-register-all".

Inductive value : Type :=
| VNil
| VBool (b : bool)
| VNum (z : Z)
| VStr (s : string)
| VTime (t : Z)
| VArr (l : list value)
| VObj (o : list (string * value))
| VSprintf (fmt : string) (args : list value)
| VText (v : value).

Inductive goerr : Type :=
| ErrPermissionDenied
| ErrRelativePath
| ErrReadOnly
| ErrNilEntry
| ErrStorage
| ErrEncode
| ErrDecode
| ErrUUID
| ErrInternalError
| ErrUnsupportedPath
| ErrUnsupportedOperation
| ErrMaxTTLNotPositive
| ErrPastMaxTTL
| ErrInvalidRequest
| ErrInvalidToken
| ErrPleaseForward
| ErrNamespace
| ErrBackend (what : string)
| ErrUser (what : string)
| ErrWrap (msg : string) (e : goerr)
| ErrMulti (errs : list goerr).

Abbreviation res := (result goerr).

(** [errors.Is] and [errwrap.Contains]: whether an error is or wraps one that
    is asked for. *)
Fixpoint err_has (test : goerr → bool) (e : goerr) : bool :=
  test e || match e with
          | ErrWrap _ e => err_has test e
          | ErrMulti l => existsb (err_has test) l
          | _ => false
          end.

Fixpoint assoc (k : string) (o : list (string * value)) : option value :=
  match o with
  | [] => None
  | (k', v) :: o' => if decide (k = k') then Some v else assoc k o'
  end.

(** Decoding one member of an object into a struct field: an absent or
    [null] member leaves the zero value, another JSON type is an error. *)
Definition dec_string (o : list (string * value)) (k : string) : res string :=
  match assoc k o with
  | None | Some VNil => Ok ""
  | Some (VStr s) => Ok s
  | _ => Err ErrDecode
  end.

Definition int64_ok (z : Z) : bool := (- 2 ^ 63 <=? z) && (z <? 2 ^ 63).

Definition dec_int (o : list (string * value)) (k : string) : res Z :=
  match assoc k o with
  | None | Some VNil => Ok 0
  | Some (VNum z) => if int64_ok z then Ok z else Err ErrDecode
  | _ => Err ErrDecode
  end.

Definition dec_bool (o : list (string * value)) (k : string) : res bool :=
  match assoc k o with
  | None | Some VNil => Ok false
  | Some (VBool b) => Ok b
  | _ => Err ErrDecode
  end.

Definition dec_time (o : list (string * value)) (k : string) : res Z :=
  match assoc k o with
  | None | Some VNil => Ok 0
  | Some (VTime t) => Ok t
  | _ => Err ErrDecode
  end.

Fixpoint mapR {A B} (f : A → res B) (l : list A) : res (list B) :=
  match l with
  | [] => Ok []
  | x :: l' => y ← f x; ys ← mapR f l'; Ok (y :: ys)
  end.

Definition dec_list {A} (f : value → res A) (o : list (string * value)) (k : string)
    : res (list A) :=
  match assoc k o with
  | None | Some VNil => Ok []
  | Some (VArr l) => mapR f l
  | _ => Err ErrDecode
  end.

Definition dec_str_elem (v : value) : res string :=
  match v with VStr s => Ok s | VNil => Ok "" | _ => Err ErrDecode end.

(** A nil-able [map[string]T]. *)
Definition dec_map {A} (f : value → res A) (o : list (string * value)) (k : string)
    : res (option (gmap string A)) :=
  match assoc k o with
  | None | Some VNil => Ok None
  | Some (VObj l) =>
      l' ← mapR (λ '(k, v), a ← f v; Ok (k, a)) l; Ok (Some (list_to_map l'))
  | _ => Err ErrDecode
  end.

Definition enc_map {A} (f : A → value) (m : option (gmap string A)) : value :=
  match m with
  | None => VNil
  | Some m => VObj (prod_map id f <$> map_to_list m)
  end.

(** The range of instants [time.Time.MarshalJSON] accepts: years 0 to 9999. *)
Definition time_json_ok (t : Z) : bool :=
  (- (366 * 24 * Hour) <=? t) && (t <? 3652059 * 24 * Hour).

Lemma mapR_fmap {A B} (f : B → res A) (g : A → B) l :
  (∀ a, f (g a) = Ok a) → mapR f (g <$> l) = Ok l.
Proof. intros Hfg. induction l as [|a l IH]; [done|].
  rewrite fmap_cons. cbn [mapR]. rewrite Hfg. simpl. by rewrite IH. Qed.

Lemma mapR_pairs {A} (f : value → res A) (g : A → value) (l : list (string * A)) :
  (∀ a, f (g a) = Ok a) →
  mapR (λ '(k, v), a ← f v; Ok (k, a)) (prod_map id g <$> l) = Ok l.
Proof. intros Hfg. apply mapR_fmap. intros [k a]. simpl. by rewrite Hfg. Qed.

(** A map survives encoding, [nil] included. *)
Lemma dec_enc_map {A} (f : value → res A) (g : A → value) o k m :
  (∀ a, f (g a) = Ok a) → assoc k o = Some (enc_map g m) → dec_map f o k = Ok m.
Proof.
  intros Hfg Ho. unfold dec_map. rewrite Ho. destruct m as [m|]; [|done].
  simpl. rewrite (mapR_pairs f g) by done. simpl. by rewrite list_to_map_to_list.
Qed.
