(* ===== verification/GoSplit.v ===== *)
(** * [strings.Split], [path.Join] and the comparison of Go values

    Splitting at a separator, with the laws the clients use, the cleaning of
    paths, and [reflect.DeepEqual] on decoded values. *)

From Stdlib Require Import Ascii.
From S2P Require Import Prelude GoLib.

(** ** Splitting *)

(** [strings.SplitN(s, sep, n)] for a separator that is not empty and [0 < n]:
    at most [n] pieces, the last of which is the rest. *)
Fixpoint SplitN (s sep : string) (n : nat) : list string :=
  match n with
  | O => []
  | S O => [s]
  | S n' =>
      match Index s sep with
      | None => [s]
      | Some i => str_take i s :: SplitN (str_drop (i + String.length sep) s) sep n'
      end
  end.

(** A string has no more pieces than it has bytes, and one. *)
Definition Split (s sep : string) : list string := SplitN s sep (S (String.length s)).

(** [strings.Join]. *)
Fixpoint Join (l : list string) (sep : string) : string :=
  match l with
  | [] => ""
  | [s] => s
  | s :: l => s +:+ sep +:+ Join l sep
  end.

(** [strings.ContainsAny] for ASCII characters. *)
Fixpoint has_byte (c : ascii) (s : string) : bool :=
  match s with
  | "" => false
  | String d s => Ascii.eqb d c || has_byte c s
  end.
Definition ContainsAny (s chars : string) : bool :=
  existsb (λ c, has_byte c s) (String.list_ascii_of_string chars).

Lemma has_byte_app c s t : has_byte c (s +:+ t) = has_byte c s || has_byte c t.
Proof.
  induction s as [|d s IH]; [done|]. change (has_byte c (String d s +:+ t)) with
    (Ascii.eqb d c || has_byte c (s +:+ t)). by rewrite IH, orb_assoc.
Qed.

Lemma take_drop_str n s : str_take n s +:+ str_drop n s = s.
Proof.
  revert n. induction s as [|c s IH]; intros [|n]; [done..|].
  change (String c (str_take n s +:+ str_drop n s) = String c s). by rewrite IH.
Qed.

Lemma str_take_app p r : str_take (String.length p) (p +:+ r) = p.
Proof. induction p as [|c p IH]; simpl; [by destruct r|]. by rewrite IH. Qed.

Lemma str_take_length n s : (n ≤ String.length s)%nat → String.length (str_take n s) = n.
Proof. revert n. induction s as [|c s IH]; intros [|n] Hn; simpl in *; [done|lia|done|]. rewrite IH; lia. Qed.

Lemma str_drop_drop n m s : str_drop n (str_drop m s) = str_drop (m + n) s.
Proof.
  revert m. induction s as [|c s IH]; intros [|m]; [by destruct n..|done|]. apply IH.
Qed.

Lemma str_drop_length n s : String.length (str_drop n s) = (String.length s - n)%nat.
Proof. revert n. induction s as [|c s IH]; intros [|n]; simpl; [done..|]. apply IH. Qed.

Lemma str_drop_app p r : str_drop (String.length p) (p +:+ r) = r.
Proof. by induction p. Qed.

Lemma HasPrefix_drop s p : HasPrefix s p = true → s = p +:+ str_drop (String.length p) s.
Proof. intros (r & ->)%HasPrefix_spec. by rewrite str_drop_app. Qed.

(** What [Index] finds. *)
Lemma Index_Some s sub i : Index s sub = Some i → s = str_take i s +:+ sub +:+ str_drop (i + String.length sub) s.
Proof.
  revert i. induction s as [|c s IH]; intros i; cbn [Index]; destruct (HasPrefix _ sub) eqn:Hp.
  - intros [= <-]. by apply HasPrefix_drop.
  - done.
  - intros [= <-]. by apply HasPrefix_drop.
  - intros (j & Hj & ->)%fmap_Some. cbn [str_take Nat.add str_drop].
    change (String c s = String c (str_take j s +:+ sub +:+ str_drop (j + String.length sub) s)).
    f_equal. by apply IH.
Qed.

Lemma Index_is_Some x sub y : is_Some (Index (x +:+ sub +:+ y) sub).
Proof.
  induction x as [|c x [n IH]].
  - assert (HasPrefix (sub +:+ y) sub = true) as Hp by (apply HasPrefix_spec; eauto).
    change ("" +:+ sub +:+ y) with (sub +:+ y). by destruct (sub +:+ y); cbn [Index]; rewrite Hp.
  - change (String c x +:+ sub +:+ y) with (String c (x +:+ sub +:+ y)). cbn [Index].
    rewrite IH. by case_match.
Qed.

Lemma Index_char_cons a x s :
  Index (String x s) (String a "") = if decide (x = a) then Some O else S <$> Index s (String a "").
Proof.
  cbn [Index]. destruct (HasPrefix (String x s) (String a "")) eqn:Hp; case_decide as Hc; try done.
  - apply HasPrefix_spec in Hp as [r [= -> _]]. done.
  - apply not_true_iff_false in Hp. destruct Hp. apply HasPrefix_spec. exists s. by subst.
Qed.

(** A byte that does not occur. *)
Lemma Index_char_app a s t :
  Index (s +:+ t) (String a "") = None ↔ Index s (String a "") = None ∧ Index t (String a "") = None.
Proof.
  induction s as [|x s IH]; [by split; [intros ?; split|intros [_ ?]]|].
  change (String x s +:+ t) with (String x (s +:+ t)). rewrite !Index_char_cons.
  case_decide; [by split; [|intros [? _]]|]. rewrite !fmap_None. apply IH.
Qed.

Lemma SplitN_nonempty s sep n : (0 < n)%nat → SplitN s sep n ≠ [].
Proof. destruct n as [|[|n]]; [lia|done|]. intros _. cbn [SplitN]. by destruct (Index s sep). Qed.

(** The pieces joined give the string. *)
Lemma Join_SplitN s sep n : (0 < n)%nat → Join (SplitN s sep n) sep = s.
Proof.
  revert s. induction n as [|n IH]; intros s Hn; [lia|]. destruct n as [|n]; [done|].
  cbn [SplitN]. destruct (Index s sep) as [i|] eqn:Hi; [|done].
  change (match SplitN (str_drop (i + String.length sep) s) sep (S n) with
          | [] => str_take i s
          | _ :: _ => str_take i s +:+ sep +:+ Join (SplitN (str_drop (i + String.length sep) s) sep (S n)) sep
          end = s).
  destruct (SplitN _ sep (S n)) as [|p l] eqn:Hs; [by apply SplitN_nonempty in Hs; [|lia]|].
  rewrite <-Hs, IH by lia. symmetry. by apply Index_Some.
Qed.

Lemma Join_Split s sep : Join (Split s sep) sep = s.
Proof. apply Join_SplitN. lia. Qed.

(** ** [path.Clean] and [path.Join] *)

(** The elements of a path, from the last to the first: an empty element or
    [.] is dropped, [..] takes the one before it away. *)
Fixpoint clean_elems (rooted : bool) (elems out : list string) : list string :=
  match elems with
  | [] => out
  | x :: elems =>
      clean_elems rooted elems
        (if bool_decide (x = "") || bool_decide (x = ".") then out
         else if decide (x = "..") then
           match out with
           | y :: out' => if decide (y = "..") then x :: out else out'
           | [] => if rooted then [] else [x]
           end
         else x :: out)
  end.

Definition path_Clean (path : string) : string :=
  let rooted := HasPrefix path "/" in
  let out := Join (rev (clean_elems rooted (Split path "/") [])) "/" in
  if rooted then "/" +:+ out else if decide (out = "") then "." else out.

(** Of two elements; an empty one is ignored. *)
Definition path_Join (a b : string) : string :=
  if decide (a = "") then if decide (b = "") then "" else path_Clean b
  else if decide (b = "") then path_Clean a
  else path_Clean (a +:+ "/" +:+ b).

(** ** Comparison of values *)

(** [reflect.DeepEqual] on decoded values: the constructors are the dynamic
    types.  A number of a request is a [json.Number], the JSON text of the
    number, and differs from the number of a policy. *)
Fixpoint DeepEqual (v w : value) {struct v} : bool :=
  let fix all_eq (l k : list value) :=
    match l, k with
    | [], [] => true
    | x :: l, y :: k => DeepEqual x y && all_eq l k
    | _, _ => false
    end in
  let fix fields_eq (l k : list (string * value)) :=
    match l, k with
    | [], [] => true
    | (f, x) :: l, (g, y) :: k => bool_decide (f = g) && DeepEqual x y && fields_eq l k
    | _, _ => false
    end in
  match v, w with
  | VNil, VNil => true
  | VBool b, VBool c => Bool.eqb b c
  | VNum m, VNum n => m =? n
  | VStr s, VStr t => bool_decide (s = t)
  | VTime t, VTime u => t =? u
  | VArr l, VArr k => all_eq l k
  | VObj l, VObj k => fields_eq l k
  | VSprintf f l, VSprintf g k => bool_decide (f = g) && all_eq l k
  | VText x, VText y => DeepEqual x y
  | _, _ => false
  end.
