(* ===== verification/Utf8.v ===== *)
(** * UTF-8, header keys and the strings the workflow stores

    What the encoders and sanitizers of [GoLib] do to the bytes of a string:
    the facts the invariants of the workflow rest on. *)

From S2P Require Import Prelude GoLib.

(** ** Bounds of bitwise or *)

Lemma N_le_lor a b : (a ≤ N.lor a b)%N.
Proof.
  assert (N.lor a b = a + N.ldiff b a)%N as ->; [|lia].
  rewrite N.add_nocarry_lxor.
  - apply N.bits_inj. intros i. rewrite N.lxor_spec, N.lor_spec, N.ldiff_spec.
    by destruct (N.testbit a i), (N.testbit b i).
  - apply N.bits_inj. intros i. rewrite N.land_spec, N.ldiff_spec, N.bits_0.
    by destruct (N.testbit a i), (N.testbit b i).
Qed.

Lemma N_lor_lt a b k : (a < 2 ^ k)%N → (b < 2 ^ k)%N → (N.lor a b < 2 ^ k)%N.
Proof.
  intros Ha Hb.
  assert (∀ x, x < 2 ^ k ↔ N.shiftr x k = 0)%N as Hx.
  { intros x. rewrite N.shiftr_div_pow2. rewrite N.div_small_iff; [done|].
    by apply N.pow_nonzero. }
  apply Hx. rewrite N.shiftr_lor. by rewrite (proj1 (Hx a)), (proj1 (Hx b)).
Qed.

(** ** Bytes of a string *)

Lemma bytes_byte s b : b ∈ bytes s → (b < 256)%N.
Proof.
  induction s as [|c s IH]; simpl; [by intros ?%elem_of_nil|].
  intros [->|Hb]%elem_of_cons; [|by apply IH]. apply Ascii.N_ascii_bounded.
Qed.

Lemma of_bytes_bytes s : of_bytes (bytes s) = s.
Proof. induction s as [|c s IH]; [done|]. simpl. by rewrite Ascii.ascii_N_embedding, IH. Qed.

Lemma bytes_of_bytes bs : Forall (λ b, b < 256)%N bs → bytes (of_bytes bs) = bs.
Proof.
  induction 1 as [|b bs Hb _ IH]; [done|]. simpl. by rewrite Ascii.N_ascii_embedding, IH.
Qed.

(** ** Runes *)

Lemma cont_byte x : (0x80 ≤ N.lor 0x80 (N.land x 0x3F) < 256)%N.
Proof.
  split; [apply N_le_lor|]. apply (N_lor_lt _ _ 8); [done|].
  change 0x3F%N with (N.ones 6). rewrite N.land_ones.
  pose proof (N.mod_lt x (2 ^ 6)). lia.
Qed.

(** An ASCII rune is its own encoding; any other is encoded by bytes from
    0x80 on. *)
Lemma encode_rune_bytes r :
  encode_rune r = [r] ∧ (r < 0x80)%N ∨
  Forall (λ b, 0x80 ≤ b < 256)%N (encode_rune r) ∧ encode_rune r ≠ [].
Proof.
  assert (∀ h x k, h < 256 → 0x80 ≤ h → x < 2 ^ k → k ≤ 8 → 0x80 ≤ N.lor h x < 256)%N as Hhead.
  { intros h x k Hh Hl Hx Hk. split; [etrans; [exact Hl|apply N_le_lor]|].
    apply (N_lor_lt _ _ 8); [done|]. eapply N.lt_le_trans; [exact Hx|].
    by apply N.pow_le_mono_r. }
  unfold encode_rune. destruct (N.ltb_spec r 0x80); [by left|]. right.
  assert (∀ r, r < 2 ^ 16 → 0x80 ≤ N.lor 0xE0 (N.shiftr r 12) < 256)%N as H3.
  { intros r' Hr'. apply (Hhead _ _ 4%N); [done..| |done]. rewrite N.shiftr_div_pow2.
    apply N.Div0.div_lt_upper_bound. by rewrite <-N.pow_add_r. }
  destruct (N.ltb_spec r 0x800).
  { split; [|done]. repeat constructor; [| |apply cont_byte..];
      apply (Hhead _ _ 5%N); try done; rewrite N.shiftr_div_pow2;
      apply N.Div0.div_lt_upper_bound; by rewrite <-N.pow_add_r. }
  destruct (byte_in 0xD800 0xDFFF r || (0x10FFFF <? r)%N) eqn:Hs.
  { split; [|done]. repeat constructor; apply cont_byte || by apply H3. }
  apply orb_false_iff in Hs as [_ Hs%N.ltb_ge].
  destruct (N.ltb_spec r 0x10000).
  { split; [|done]. repeat constructor; apply cont_byte || by apply H3. }
  split; [|done]. repeat constructor; try apply cont_byte;
    apply (Hhead _ _ 3%N); try done; rewrite N.shiftr_div_pow2;
    apply N.Div0.div_lt_upper_bound; eapply N.le_lt_trans; [exact Hs|done|exact Hs|done].
Qed.

(** ** Decoding *)

Lemma lor_ge_l n a b : (n ≤ a → n ≤ N.lor a b)%N.
Proof. intros. etrans; [done|apply N_le_lor]. Qed.
Lemma lor_ge_r n a b : (n ≤ b → n ≤ N.lor a b)%N.
Proof. rewrite N.lor_comm. apply lor_ge_l. Qed.

(** The payload bits of a byte, shifted into place. *)
Lemma payload_ge lo x m k :
  (lo ≤ x mod 2 ^ m → lo * 2 ^ k ≤ N.shiftl (N.land x (N.ones m)) k)%N.
Proof.
  intros Hlo. rewrite N.land_ones, N.shiftl_mul_pow2. by apply N.mul_le_mono_r.
Qed.

Lemma payload_top q lo x m k n :
  (q * 2 ^ m + lo ≤ x < (q + 1) * 2 ^ m → n ≤ lo * 2 ^ k →
   n ≤ N.shiftl (N.land x (N.ones m)) k)%N.
Proof.
  intros Hx Hn. etrans; [exact Hn|]. apply payload_ge.
  assert (x mod 2 ^ m = x - q * 2 ^ m)%N as ->; [|lia].
  symmetry. apply (N.mod_unique _ _ q); lia.
Qed.

(** A lead byte and the range its first continuation byte must be in keep
    every longer form at or above 0x80. *)
Lemma decode_rune_ascii b bs :
  ((decode_rune (b :: bs)).1 < 0x80)%N → decode_rune (b :: bs) = (b, 1%nat) ∧ (b < 0x80)%N.
Proof.
  unfold decode_rune, byte_in, RuneError. destruct (N.ltb_spec b 0x80); [done|].
  assert (∀ (r : N) (n : nat) (P : Prop), 0x80 ≤ r → (r, n).1 < 0x80 → P)%N as Hbig
    by (simpl; intros; lia).
  destruct (_ && _) eqn:H2.
  { apply andb_true_iff in H2 as [?%N.leb_le ?%N.leb_le].
    destruct bs as [|b1 bs]; [by apply Hbig|]. destruct (_ && _); apply Hbig; [|done].
    apply lor_ge_l, (payload_top 6 2 b 5 6); lia. }
  clear H2. destruct (_ && _) eqn:H3.
  { apply andb_true_iff in H3 as [?%N.leb_le ?%N.leb_le].
    destruct bs as [|b1 [|b2 bs]]; [by apply Hbig..|].
    destruct (_ && _ && _) eqn:Hc; apply Hbig; [|done].
    apply andb_true_iff in Hc as [[?%N.leb_le ?%N.leb_le]%andb_true_iff _].
    destruct (N.eqb_spec b 0xE0) as [->|Hne].
    - apply lor_ge_r, lor_ge_l. simpl in *. apply (payload_top 2 32 b1 6 6); lia.
    - apply lor_ge_l, (payload_top 14 1 b 4 12); lia. }
  clear H3. destruct (_ && _) eqn:H4; [|by apply Hbig].
  apply andb_true_iff in H4 as [?%N.leb_le ?%N.leb_le].
  destruct bs as [|b1 [|b2 [|b3 bs]]]; [by apply Hbig..|].
  destruct (_ && _ && _ && _) eqn:Hc; apply Hbig; [|done].
  apply andb_true_iff in Hc as [[[?%N.leb_le ?%N.leb_le]%andb_true_iff _]%andb_true_iff _].
  destruct (N.eqb_spec b 0xF0) as [->|Hne].
  - apply lor_ge_r, lor_ge_l. simpl in *. apply (payload_top 2 16 b1 6 12); lia.
  - apply lor_ge_l, (payload_top 30 1 b 3 18); lia.
Qed.

(** ** Whole strings *)

Lemma decode_chunks_cons fuel b bs :
  decode_chunks (S fuel) (b :: bs) =
    ((decode_rune (b :: bs)).1, take (decode_rune (b :: bs)).2 (b :: bs))
    :: decode_chunks fuel (drop (decode_rune (b :: bs)).2 (b :: bs)).
Proof. cbn [decode_chunks]. by destruct (decode_rune (b :: bs)). Qed.

Lemma decode_chunks_nil fuel : decode_chunks fuel [] = [].
Proof. by destruct fuel. Qed.

Lemma decode_chunks_ascii fuel bs r :
  r ∈ (decode_chunks fuel bs).*1 → (r < 0x80)%N → r ∈ bs.
Proof.
  revert bs. induction fuel as [|fuel IH]; intros [|b bs]; try by intros ?%elem_of_nil.
  rewrite decode_chunks_cons, fmap_cons. intros [->|Hr]%elem_of_cons Hlt.
  - destruct (decode_rune_ascii b bs Hlt) as [-> _]. apply list_elem_of_here.
  - apply IH in Hr; [|done]. apply (elem_of_submseteq _ _ _ Hr).
    apply sublist_submseteq, sublist_drop.
Qed.

Lemma decode_chunks_all_ascii fuel bs :
  (length bs ≤ fuel)%nat →
  Forall (λ b, b < 0x80)%N (concat (encode_rune <$> (decode_chunks fuel bs).*1)) →
  concat (encode_rune <$> (decode_chunks fuel bs).*1) = bs.
Proof.
  revert bs. induction fuel as [|fuel IH]; intros [|b bs] Hlen; try done; [simpl in Hlen; lia|].
  rewrite decode_chunks_cons, !fmap_cons. cbn [concat fst].
  intros [Hr Hrest]%Forall_app.
  destruct (encode_rune_bytes (decode_rune (b :: bs)).1) as [[He Hlt]|[He Hne]].
  - destruct (decode_rune_ascii b bs Hlt) as [Hd _]. rewrite Hd in *. cbn [fst snd] in *.
    rewrite He. simpl in *. f_equal. rewrite drop_0 in *. apply IH; [lia|done].
  - destruct (encode_rune _) as [|x l]; [done|].
    apply Forall_cons in He as [? _]. apply Forall_cons in Hr as [? _]. lia.
Qed.

Lemma valid_utf8_bytes s :
  bytes (valid_utf8 s) = concat (encode_rune <$> runes (bytes s)).
Proof.
  unfold valid_utf8. apply bytes_of_bytes, Forall_forall. intros b Hb.
  apply elem_of_concat in Hb as (l & Hl & Hb).
  apply list_elem_of_fmap in Hl as (r & -> & _).
  destruct (encode_rune_bytes r) as [[He Hr]|[He _]].
  - rewrite He in Hb. apply list_elem_of_singleton in Hb as ->. lia.
  - rewrite Forall_forall in He. apply He in Hb. lia.
Qed.

(** Making a string valid adds no ASCII byte. *)
Lemma valid_utf8_ascii s b : b ∈ bytes (valid_utf8 s) → (b < 0x80)%N → b ∈ bytes s.
Proof.
  rewrite valid_utf8_bytes. intros (l & Hl & Hb)%elem_of_concat Hlt.
  apply list_elem_of_fmap in Hl as (r & -> & Hr).
  destruct (encode_rune_bytes r) as [[He Hr']|[He _]].
  - rewrite He in Hb. apply list_elem_of_singleton in Hb as ->.
    by eapply decode_chunks_ascii.
  - rewrite Forall_forall in He. apply He in Hb. lia.
Qed.

(** A string that becomes pure ASCII was it before. *)
Lemma valid_utf8_all_ascii s :
  Forall (λ b, b < 0x80)%N (bytes (valid_utf8 s)) → valid_utf8 s = s.
Proof.
  rewrite valid_utf8_bytes. intros Hall. unfold valid_utf8, runes, chunks in *.
  rewrite decode_chunks_all_ascii by done. apply of_bytes_bytes.
Qed.

Definition ascii_only (s : string) : Prop := Forall (λ b, b < 0x80)%N (bytes s).

Lemma decode_chunks_of_ascii fuel bs :
  (length bs ≤ fuel)%nat → Forall (λ b, b < 0x80)%N bs →
  concat (encode_rune <$> (decode_chunks fuel bs).*1) = bs.
Proof.
  revert bs. induction fuel as [|fuel IH]; intros [|b bs] Hlen Hall; try done; [simpl in Hlen; lia|].
  apply Forall_cons in Hall as [Hb Hall].
  assert (decode_rune (b :: bs) = (b, 1%nat)) as Hd.
  { unfold decode_rune. by rewrite (proj2 (N.ltb_lt _ _) Hb). }
  rewrite decode_chunks_cons, Hd, !fmap_cons. cbn [concat fst snd].
  assert (encode_rune b = [b]) as ->.
  { unfold encode_rune. by rewrite (proj2 (N.ltb_lt _ _) Hb). }
  simpl. rewrite drop_0, IH; [done|simpl in Hlen; lia|done].
Qed.

(** ASCII text is not changed by encoding. *)
Lemma valid_utf8_id s : ascii_only s → valid_utf8 s = s.
Proof.
  intros Hs. unfold valid_utf8, runes, chunks.
  rewrite decode_chunks_of_ascii by done. apply of_bytes_bytes.
Qed.

(** ** Encoding and decoding *)

Lemma lor_add a b k : (b < 2 ^ k → N.lor (a * 2 ^ k) b = a * 2 ^ k + b)%N.
Proof.
  intros Hb. rewrite N.add_nocarry_lxor.
  - apply N.bits_inj. intros i. rewrite N.lor_spec, N.lxor_spec.
    destruct (N.lt_ge_cases i k).
    + rewrite N.mul_pow2_bits_low by done. by destruct (N.testbit b i).
    + replace (N.testbit b i) with false; [by destruct (N.testbit _ i)|].
      rewrite <-(N.mod_small b (2 ^ k)) by done. by rewrite N.mod_pow2_bits_high.
  - apply N.bits_inj. intros i. rewrite N.land_spec, N.bits_0.
    destruct (N.lt_ge_cases i k).
    + by rewrite N.mul_pow2_bits_low.
    + rewrite <-(N.mod_small b (2 ^ k)) by done. rewrite N.mod_pow2_bits_high by done. apply andb_false_r.
Qed.

Lemma lor_payload a x m : (a mod 2 ^ m = 0 → x < 2 ^ m → N.lor a x = a + x)%N.
Proof.
  intros Ha Hx. pose proof (N.div_mod a (2 ^ m) ltac:(by apply N.pow_nonzero)) as Hd.
  rewrite Ha, N.add_0_r, N.mul_comm in Hd. rewrite Hd. by apply lor_add.
Qed.

(** A Unicode scalar; anything else is written as [RuneError]. *)
Definition surrogate_or_beyond (r : N) : bool := byte_in 0xD800 0xDFFF r || (0x10FFFF <? r)%N.

Lemma byte_in_true lo hi b : (lo ≤ b ≤ hi)%N → byte_in lo hi b = true.
Proof. intros Hb. unfold byte_in. rewrite andb_true_iff, !N.leb_le. lia. Qed.
Lemma byte_in_false lo hi b : (b < lo ∨ hi < b)%N → byte_in lo hi b = false.
Proof. intros Hb. unfold byte_in. rewrite andb_false_iff, !N.leb_gt. lia. Qed.

Lemma cont_eq x : (N.lor 0x80 (N.land x 0x3F) = 0x80 + x mod 64)%N.
Proof.
  change 0x3F%N with (N.ones 6). rewrite N.land_ones. apply (lor_payload _ _ 6); [done|].
  by apply N.mod_lt.
Qed.
Lemma cont_payload y : (y < 64 → N.land (0x80 + y) 0x3F = y)%N.
Proof.
  intros Hy. change 0x3F%N with (N.ones 6). rewrite N.land_ones. change (2 ^ 6)%N with 64%N. 
  symmetry. apply (N.mod_unique _ _ 2); lia.
Qed.
Lemma join_payload a b k : (b < 2 ^ k → N.lor (N.shiftl a k) b = a * 2 ^ k + b)%N.
Proof. intros Hb. rewrite N.shiftl_mul_pow2. by apply lor_add. Qed.

Ltac runes_lia := zify; Z.to_euclidean_division_equations; lia.

Lemma decode_two r l :
  (0x80 ≤ r < 0x800)%N → decode_rune (encode_rune r ++ l) = (r, 2%nat).
Proof.
  intros Hr. unfold encode_rune. rewrite (proj2 (N.ltb_ge _ _)), (proj2 (N.ltb_lt _ _)) by lia.
  rewrite cont_eq, (lor_payload _ _ 5) by (done || (rewrite N.shiftr_div_pow2; change (2 ^ 6)%N with 64%N; change (2^5)%N with 32%N; runes_lia)).
  rewrite N.shiftr_div_pow2. change (2 ^ 6)%N with 64%N. cbn [app decode_rune].
  rewrite (proj2 (N.ltb_ge _ _)), (byte_in_true 0xC2 0xDF), (byte_in_true 0x80 0xBF) by runes_lia.
  rewrite cont_payload by runes_lia. change 0x1F%N with (N.ones 5). rewrite N.land_ones.
  rewrite join_payload by (change (2 ^ 6)%N with 64%N; runes_lia). f_equal.
  change (2 ^ 6)%N with 64%N. change (2 ^ 5)%N with 32%N. runes_lia.
Qed.

Lemma decode_three r l :
  (0x800 ≤ r < 0x10000)%N → surrogate_or_beyond r = false → decode_rune (encode_rune r ++ l) = (r, 3%nat).
Proof.
  intros Hr Hs. unfold encode_rune. unfold surrogate_or_beyond in Hs.
  rewrite (proj2 (N.ltb_ge _ _)), (proj2 (N.ltb_ge r 0x800)), Hs, (proj2 (N.ltb_lt _ _)) by lia.
  apply orb_false_iff in Hs as [Hs _]. unfold byte_in in Hs. rewrite andb_false_iff, !N.leb_gt in Hs.
  rewrite !cont_eq, !N.shiftr_div_pow2. change (2 ^ 6)%N with 64%N. change (2 ^ 12)%N with 4096%N.
  rewrite (lor_payload _ _ 4) by (done || (change (2 ^ 4)%N with 16%N; runes_lia)). cbn [app decode_rune].
  rewrite (proj2 (N.ltb_ge _ _)), (byte_in_false 0xC2 0xDF), (byte_in_true 0xE0 0xEF) by runes_lia.
  rewrite (byte_in_true 0x80 0xBF) by runes_lia.
  rewrite byte_in_true.
  2: { destruct (N.eqb_spec (0xE0 + r / 4096) 0xE0), (N.eqb_spec (0xE0 + r / 4096) 0xED); runes_lia. }
  rewrite !cont_payload by runes_lia. change 0x0F%N with (N.ones 4). rewrite N.land_ones.
  cbn [andb]. rewrite (join_payload _ _ 6) by (change (2 ^ 6)%N with 64%N; runes_lia).
  change (2 ^ 6)%N with 64%N.
  rewrite join_payload by (change (2 ^ 12)%N with 4096%N; runes_lia). f_equal.
  change (2 ^ 12)%N with 4096%N. change (2 ^ 4)%N with 16%N. runes_lia.
Qed.

Lemma decode_four r l :
  (0x10000 ≤ r ≤ 0x10FFFF)%N → decode_rune (encode_rune r ++ l) = (r, 4%nat).
Proof.
  intros Hr. unfold encode_rune.
  rewrite (proj2 (N.ltb_ge r 0x80)), (proj2 (N.ltb_ge r 0x800)), (byte_in_false 0xD800), (proj2 (N.ltb_ge 0x10FFFF r)),
    (proj2 (N.ltb_ge r 0x10000)) by lia. cbn [orb].
  rewrite !cont_eq, !N.shiftr_div_pow2. change (2 ^ 6)%N with 64%N. change (2 ^ 12)%N with 4096%N.
  change (2 ^ 18)%N with 262144%N.
  rewrite (lor_payload _ _ 3) by (done || (change (2 ^ 3)%N with 8%N; runes_lia)). cbn [app decode_rune].
  rewrite (proj2 (N.ltb_ge _ _)), (byte_in_false 0xC2 0xDF), (byte_in_false 0xE0 0xEF), (byte_in_true 0xF0 0xF4) by runes_lia.
  rewrite !(byte_in_true 0x80 0xBF) by runes_lia.
  rewrite byte_in_true.
  2: { destruct (N.eqb_spec (0xF0 + r / 262144) 0xF0), (N.eqb_spec (0xF0 + r / 262144) 0xF4); runes_lia. }
  rewrite !cont_payload by runes_lia. change 0x07%N with (N.ones 3). rewrite N.land_ones.
  cbn [andb]. rewrite (join_payload _ _ 6) by (change (2 ^ 6)%N with 64%N; runes_lia).
  change (2 ^ 6)%N with 64%N.
  rewrite (join_payload _ _ 12) by (change (2 ^ 12)%N with 4096%N; runes_lia).
  change (2 ^ 12)%N with 4096%N.
  rewrite join_payload by (change (2 ^ 18)%N with 262144%N; runes_lia). f_equal.
  change (2 ^ 18)%N with 262144%N. change (2 ^ 3)%N with 8%N. runes_lia.
Qed.

Definition scalar (r : N) : N := if surrogate_or_beyond r then RuneError else r.

Lemma encode_scalar r : encode_rune (scalar r) = encode_rune r.
Proof.
  unfold scalar. destruct (surrogate_or_beyond r) eqn:Hs; [|done].
  unfold encode_rune at 2. unfold surrogate_or_beyond in Hs. rewrite Hs.
  apply orb_true_iff in Hs. unfold byte_in in Hs. rewrite andb_true_iff, !N.leb_le, N.ltb_lt in Hs.
  by rewrite (proj2 (N.ltb_ge r 0x80)), (proj2 (N.ltb_ge r 0x800)) by lia.
Qed.

Lemma decode_encode_rune r l :
  decode_rune (encode_rune r ++ l) = (scalar r, length (encode_rune r)).
Proof.
  assert (∀ r, surrogate_or_beyond r = false → decode_rune (encode_rune r ++ l) = (r, length (encode_rune r))) as Hok.
  { clear r. intros r Hs. destruct (N.lt_ge_cases r 0x80).
    { unfold encode_rune. rewrite (proj2 (N.ltb_lt _ _)) by done. simpl. by rewrite (proj2 (N.ltb_lt _ _)). }
    destruct (N.lt_ge_cases r 0x800).
    { rewrite decode_two by done. unfold encode_rune. by rewrite (proj2 (N.ltb_ge r _)), (proj2 (N.ltb_lt _ _)). }
    destruct (N.lt_ge_cases r 0x10000).
    { rewrite decode_three by done. unfold encode_rune, surrogate_or_beyond in *.
      by rewrite (proj2 (N.ltb_ge r 0x80)), (proj2 (N.ltb_ge r 0x800)), Hs, (proj2 (N.ltb_lt _ _)). }
    rewrite decode_four.
    - unfold encode_rune, surrogate_or_beyond in *.
      by rewrite (proj2 (N.ltb_ge r 0x80)), (proj2 (N.ltb_ge r 0x800)), Hs, (proj2 (N.ltb_ge r 0x10000)).
    - apply orb_false_iff in Hs as [_ Hs%N.ltb_ge]. done. }
  rewrite <-!(encode_scalar r). apply Hok. unfold scalar. by destruct (surrogate_or_beyond r) eqn:Hs.
Qed.

Lemma encode_nonempty r : encode_rune r ≠ [].
Proof. destruct (encode_rune_bytes r) as [[-> _]|[_ ?]]; done. Qed.

Lemma decode_chunks_encode fuel rs :
  (length (concat (encode_rune <$> rs)) ≤ fuel)%nat →
  (decode_chunks fuel (concat (encode_rune <$> rs))).*1 = scalar <$> rs.
Proof.
  revert fuel. induction rs as [|r rs IH]; intros fuel Hlen; [by rewrite decode_chunks_nil|].
  rewrite fmap_cons in *. cbn [concat] in *. rewrite length_app in Hlen.
  pose proof (encode_nonempty r) as Hne. pose proof (decode_encode_rune r (concat (encode_rune <$> rs))) as Hd.
  destruct (encode_rune r) as [|b bs] eqn:He; [done|]. destruct fuel as [|fuel]; [simpl in Hlen; lia|].
  cbn [app] in *. rewrite decode_chunks_cons, Hd. cbn [fst snd length drop]. rewrite !fmap_cons. f_equal.
  rewrite drop_app_length. apply IH. simpl in Hlen. lia.
Qed.

(** Making a string valid twice is making it valid once. *)
Lemma valid_utf8_idem s : valid_utf8 (valid_utf8 s) = valid_utf8 s.
Proof.
  unfold valid_utf8 at 1. unfold runes, chunks. rewrite valid_utf8_bytes, decode_chunks_encode by done.
  rewrite <-list_fmap_compose. rewrite (list_fmap_ext _ encode_rune) by (intros; apply encode_scalar). done.
Qed.

(** ** Header keys *)

Lemma header_byte_ascii b : header_byte b = true → (b < 0x80)%N.
Proof.
  unfold header_byte, is_upper, is_lower, is_digit, byte_in.
  rewrite !orb_true_iff, !andb_true_iff, !N.leb_le. simpl.
  rewrite !orb_true_iff, !N.eqb_eq. lia.
Qed.

(** Canonicalising neither makes a key ASCII nor can a key that encoding
    has altered become ASCII. *)
Lemma canonical_valid_utf8 s :
  ascii_only (CanonicalHeaderKey (valid_utf8 s)) → valid_utf8 s = s.
Proof.
  intros Ha. apply valid_utf8_all_ascii. unfold CanonicalHeaderKey in Ha.
  destruct (forallb header_byte (bytes (valid_utf8 s))) eqn:Hf; [|done].
  apply Forall_forall. intros b Hb. apply header_byte_ascii.
  rewrite forallb_forall in Hf. by apply Hf, list_elem_of_In.
Qed.
