(* ===== verification/Shamir.v ===== *)
(** * [shamir/shamir.go]: secret sharing over GF(2^8)

    The arithmetic of the field, the polynomials, [Split] and [Combine].
    A byte is a number below 256 with Go's wrap-around; a call that Go ends
    with a panic (division by zero, an index out of range) is [Panic].  The
    random bytes of crypto/rand and the permutation of math/rand are
    arguments. *)

From Stdlib Require Import NArith ZArith String List Bool Lia.
Import ListNotations.
#[local] Open Scope N_scope.

Definition uint8 (n : N) : N := n mod 256.

(** [-b] on a byte. *)
Definition neg8 (b : N) : N := uint8 (256 - b).

Definition add (a b : N) : N := N.lxor a b.

(** One round of [mult]. *)
Definition mult_round (a b i r : N) : N :=
  N.lxor (N.lxor (N.land (neg8 (N.land (N.shiftr b i) 1)) a)
                 (N.land (neg8 (N.shiftr r 7)) 0x1B))
         (uint8 (r + r)).

(** The loop, from [i] down. *)
Fixpoint mult_loop (i : nat) (a b r : N) : N :=
  match i with
  | O => r
  | S i => mult_loop i a b (mult_round a b (N.of_nat i) r)
  end.

Definition mult (a b : N) : N := mult_loop 8 a b 0.

Definition inverse (a : N) : N :=
  let b := mult a a in
  let c := mult a b in
  let b := mult c c in
  let b := mult b b in
  let c := mult b c in
  let b := mult b b in
  let b := mult b b in
  let b := mult b c in
  let b := mult b b in
  let b := mult a b in
  mult b b.

(** What a call ends with. *)
Inductive outcome (A : Type) :=
| Value (a : A)
| Error (msg : string)
| Panic.
Arguments Value {A}.
Arguments Error {A}.
Arguments Panic {A}.

Definition bind {A B} (x : outcome A) (f : A -> outcome B) : outcome B :=
  match x with
  | Value a => f a
  | Error msg => Error msg
  | Panic => Panic
  end.

Notation "x <- e ;; f" := (bind e (fun x => f))
  (at level 100, e at next level, right associativity).

(** [ConstantTimeSelect(ConstantTimeByteEq(a, 0), 0, ret)]. *)
Definition div (a b : N) : outcome N :=
  if b =? 0 then Panic
  else
    let ret := mult a (inverse b) in
    Value (if a =? 0 then 0 else ret).

(** ** Polynomials *)

(** [l[i]]. *)
Definition index {A} (l : list A) (i : nat) : outcome A :=
  match nth_error l i with Some a => Value a | None => Panic end.

(** [makePolynomial]: the intercept, then [random], the bytes read into the
    other coefficients, or the error of the read. *)
Definition makePolynomial (random : nat -> outcome (list N)) (intercept degree : N)
    : outcome (list N) :=
  match N.to_nat (uint8 (degree + 1)) with
  | O => Panic
  | S n => bytes <- random n;; Value (intercept :: bytes)
  end.

(** Horner's rule, from the coefficient [i - 1] down. *)
Fixpoint horner (p : list N) (x : N) (i : nat) (out : N) : outcome N :=
  match i with
  | O => Value out
  | S i => coeff <- index p i;; horner p x i (add (mult out x) coeff)
  end.

Definition evaluate (p : list N) (x : N) : outcome N :=
  if x =? 0 then index p 0
  else
    match length p with
    | O => Panic
    | S degree => out <- index p degree;; horner p x degree out
    end.

(** The inner loop of the interpolation: the Lagrange basis polynomial of
    the sample [i] at [x]. *)
Fixpoint basis_loop (x_samples : list N) (x : N) (i : nat) (js : list nat) (basis : N)
    : outcome N :=
  match js with
  | [] => Value basis
  | j :: js =>
      if Nat.eqb i j then basis_loop x_samples x i js basis
      else
        xj <- index x_samples j;;
        xi <- index x_samples i;;
        term <- div (add x xj) (add xi xj);;
        basis_loop x_samples x i js (mult basis term)
  end.

Fixpoint interpolate_loop (x_samples y_samples : list N) (x : N) (idxs : list nat) (result : N)
    : outcome N :=
  match idxs with
  | [] => Value result
  | i :: idxs =>
      basis <- basis_loop x_samples x i (seq 0 (length x_samples)) 1;;
      yi <- index y_samples i;;
      interpolate_loop x_samples y_samples x idxs (add result (mult yi basis))
  end.

Definition interpolatePolynomial (x_samples y_samples : list N) (x : N) : outcome N :=
  interpolate_loop x_samples y_samples x (seq 0 (length x_samples)) 0.

(** ** Splitting *)

(** One value per element, in order. *)
Fixpoint traverse {A B} (f : A -> outcome B) (l : list A) : outcome (list B) :=
  match l with
  | [] => Value []
  | a :: l => b <- f a;; bs <- traverse f l;; Value (b :: bs)
  end.

(** The tag of the share [i]. *)
Definition coordinate (xCoordinates : list N) (i : nat) : outcome N :=
  c <- index xCoordinates i;; Value (uint8 (uint8 c + 1)).

(** [%w] with a prefix. *)
Definition wrap_error {A} (text : string) (x : outcome A) : outcome A :=
  match x with Error msg => Error (text ++ msg) | _ => x end.

(** The bytes of all shares for one byte of the secret. *)
Definition column (random : nat -> outcome (list N)) (xCoordinates : list N) (parts : nat)
    (threshold val : N) : outcome (list N) :=
  p <- wrap_error "failed to generate polynomial: "
         (makePolynomial random val (uint8 (threshold - 1)));;
  traverse (fun i => x <- coordinate xCoordinates i;; evaluate p x) (seq 0 parts).

(** The shares: row [i] has the byte of share [i] in each column, and its tag
    last.  [random idx] is the read for the byte [idx] of the secret. *)
Fixpoint columns (random : nat -> nat -> outcome (list N)) (xCoordinates : list N) (parts : nat)
    (threshold : N) (tags : list N) (idx : nat) (secret : list N) : outcome (list (list N)) :=
  match secret with
  | [] => Value (map (fun t => [t]) tags)
  | val :: secret =>
      col <- column (random idx) xCoordinates parts threshold val;;
      rows <- columns random xCoordinates parts threshold tags (S idx) secret;;
      Value (map (fun '(y, row) => y :: row) (combine col rows))
  end.

Definition Split (random : nat -> nat -> outcome (list N)) (perm : list N) (secret : list N)
    (parts threshold : Z) : outcome (list (list N)) :=
  if (parts <? threshold)%Z then Error "parts cannot be less than threshold"
  else if (255 <? parts)%Z then Error "parts cannot exceed 255"
  else if (threshold <? 2)%Z then Error "threshold must be at least 2"
  else if (255 <? threshold)%Z then Error "threshold cannot exceed 255"
  else match secret with
  | [] => Error "cannot split an empty secret"
  | _ :: _ =>
      tags <- traverse (coordinate perm) (seq 0 (Z.to_nat parts));;
      columns random perm (Z.to_nat parts) (Z.to_N threshold) tags 0 secret
  end.

(** ** Combining *)

(** The tags of the parts, each of them new. *)
Fixpoint sample_loop (last : nat) (seen : list N) (parts : list (list N)) : outcome (list N) :=
  match parts with
  | [] => Value []
  | part :: parts =>
      samp <- index part last;;
      if existsb (N.eqb samp) seen then Error "duplicate part detected"
      else xs <- sample_loop last (samp :: seen) parts;; Value (samp :: xs)
  end.

Definition Combine (parts : list (list N)) : outcome (list N) :=
  match parts with
  | first :: ((_ :: _) as rest) =>
      let firstPartLen := length first in
      if (firstPartLen <? 2)%nat then Error "parts must be at least two bytes"
      else if negb (forallb (fun part => Nat.eqb (length part) firstPartLen) rest)
      then Error "all parts must be the same length"
      else
        x_samples <- sample_loop (firstPartLen - 1) [] parts;;
        traverse (fun idx =>
          y_samples <- traverse (fun part => index part idx) parts;;
          interpolatePolynomial x_samples y_samples 0) (seq 0 (firstPartLen - 1))
  | _ => Error "less than two parts cannot be used to reconstruct the secret"
  end.

(** ** Evaluation *)

(** The product of the standard's example, and a secret of two bytes split
    into three shares of which the first and the last restore it. *)
Example mult_ex : mult 0x53 0xCA = 1.
Proof. reflexivity. Qed.

Example split_combine_ex :
  (shares <- Split (fun idx n => Value (repeat (N.of_nat idx + 7) n)) (map N.of_nat (seq 0 255))
               [0x41; 0x42] 3 2;;
   a <- index shares 0;; b <- index shares 2;; Combine [a; b]) = Value [0x41; 0x42].
Proof. vm_compute. reflexivity. Qed.
