(* ===== verification/AesGcm.v ===== *)
(** * AES in Galois counter mode

    [crypto/aes] and [crypto/cipher] as the barrier uses them: [NewCipher],
    [NewGCM], [Seal] and [Open] with a nonce of 12 bytes (FIPS 197, NIST SP
    800-38D).  A byte string is a [string].  [AEAD] is what the barrier needs
    to know of the cipher; [aes_gcm] shows that this one provides it. *)

From S2P Require Import Shamir.
From S2P Require Import Prelude GoLib GoSplit Utf8.
From Stdlib Require Import Ascii.
#[local] Open Scope N_scope.

(** ** The interface of [cipher.AEAD] *)

Definition NonceSize : nat := 12.
Definition Overhead : nat := 16.

(** A [cipher.AEAD] is represented by the key it was made from, which it
    copies: [NewCipher] reports whether a key has the size of an AES key. *)
Class AEAD : Type := {
  NewCipher : string → bool;
  gcm_Seal : string → string → string → string → string;
  gcm_Open : string → string → string → string → option string;
  NewCipher_spec : ∀ k, NewCipher k = true ↔
    String.length k = 16%nat ∨ String.length k = 24%nat ∨ String.length k = 32%nat;
  Open_Seal : ∀ k nonce plain aad,
    gcm_Open k nonce (gcm_Seal k nonce plain aad) aad = Some plain;
  Open_only : ∀ k nonce ct plain aad,
    gcm_Open k nonce ct aad = Some plain → ct = gcm_Seal k nonce plain aad;
  Seal_length : ∀ k nonce plain aad,
    String.length (gcm_Seal k nonce plain aad) = (String.length plain + Overhead)%nat;
}.

(** ** AES *)

(** The S-box: inversion in the field of [Shamir], then an affine map. *)
Definition rotl8 (b n : N) : N := N.land (N.lor (N.shiftl b n) (N.shiftr b (8 - n))) 255.
Definition affine (b : N) : N :=
  fold_left N.lxor [rotl8 b 1; rotl8 b 2; rotl8 b 3; rotl8 b 4; 0x63] b.
Definition sbox : list N :=
  Eval vm_compute in (λ i, affine (Shamir.inverse (N.of_nat i))) <$> seq 0 256.
Definition sub (b : N) : N := nth (N.to_nat b) sbox 0.

Definition xors : list N → list N → list N := zip_with N.lxor.

Fixpoint groups {A} (n : nat) (fuel : nat) (l : list A) : list (list A) :=
  match fuel, l with
  | O, _ | _, [] => []
  | S fuel, _ => take n l :: groups n fuel (drop n l)
  end.

Definition rcon : list N := [1; 2; 4; 8; 16; 32; 64; 128; 27; 54].

(** The words of the key schedule, newest first, from the [i]-th. *)
Fixpoint expand (nk i fuel : nat) (ws : list (list N)) : list (list N) :=
  match fuel with
  | O => ws
  | S fuel =>
      let prev := hd [] ws in
      let t :=
        if (i mod nk =? 0)%nat then
          xors (sub <$> (drop 1 prev ++ take 1 prev)) [nth (i / nk - 1) rcon 0; 0; 0; 0]
        else if (6 <? nk)%nat && (i mod nk =? 4)%nat then sub <$> prev
        else prev in
      expand nk (S i) fuel (xors (nth (nk - 1) ws []) t :: ws)
  end.

Definition round_keys (key : string) : list (list N) :=
  let nk := (String.length key / 4)%nat in
  let ws := rev (groups 4 nk (bytes key)) in
  let all := rev (expand nk nk (4 * (nk + 7) - nk) ws) in
  map (@concat N) (groups 4 (nk + 7) all).

Definition shift_rows (s : list N) : list N :=
  (λ i, nth i s 0) <$> [0; 5; 10; 15; 4; 9; 14; 3; 8; 13; 2; 7; 12; 1; 6; 11]%nat.

(** Multiplication by 2 in the field. *)
Definition xtime (b : N) : N :=
  if N.testbit b 7 then N.lxor (N.land (N.double b) 255) 0x1b else N.double b.

Example xtime_mult : forallb (λ i, xtime (N.of_nat i) =? Shamir.mult 2 (N.of_nat i)) (seq 0 256) = true.
Proof. vm_compute. reflexivity. Qed.

Definition mix_column (c : list N) : list N :=
  match c with
  | [a; b; c; d] =>
      let m2 := xtime in
      let x := N.lxor in
      [x (x (m2 a) (x (m2 b) b)) (x c d); x (x a (m2 b)) (x (x (m2 c) c) d);
       x (x a b) (x (m2 c) (x (m2 d) d)); x (x (x (m2 a) a) b) (x c (m2 d))]
  | _ => c
  end.

Definition mix_columns (s : list N) : list N := concat (mix_column <$> groups 4 4 s).

Fixpoint rounds (s : list N) (rks : list (list N)) : list N :=
  match rks with
  | [] => s
  | [rk] => xors (shift_rows (sub <$> s)) rk
  | rk :: rks => rounds (xors (mix_columns (shift_rows (sub <$> s))) rk) rks
  end.

Definition encrypt_block (rks : list (list N)) (block : list N) : list N :=
  rounds (xors block (hd [] rks)) (tail rks).

(** ** Counter mode and authentication *)

(** The big-endian number of a list of bytes, and the [n] bytes of a number. *)
Definition be_value (l : list N) : N := fold_left (λ acc b, acc * 256 + b) l 0.
Fixpoint be_bytes (n : nat) (v : N) : list N :=
  match n with
  | O => []
  | S n => be_bytes n (v / 256) ++ [v mod 256]
  end.

Definition counter_block (nonce : string) (i : N) : list N :=
  bytes nonce ++ be_bytes 4 (i mod 2 ^ 32).

(** The keystream: [n] blocks from the [i]-th. *)
Fixpoint keystream (rks : list (list N)) (nonce : string) (i : N) (n : nat) : list N :=
  match n with
  | O => []
  | S n => encrypt_block rks (counter_block nonce i) ++ keystream rks nonce (i + 1) n
  end.

Definition xor_byte (a b : ascii) : ascii :=
  match a, b with
  | Ascii a0 a1 a2 a3 a4 a5 a6 a7, Ascii b0 b1 b2 b3 b4 b5 b6 b7 =>
      Ascii (xorb a0 b0) (xorb a1 b1) (xorb a2 b2) (xorb a3 b3)
            (xorb a4 b4) (xorb a5 b5) (xorb a6 b6) (xorb a7 b7)
  end.

Fixpoint xor_str (s : string) (ks : list N) : string :=
  match s with
  | "" => ""
  | String c s => String (xor_byte c (ascii_of_N (hd 0 ks))) (xor_str s (tail ks))
  end.

(** Multiplication in GF(2^128), the first bit of a block being the
    coefficient of 1. *)
Fixpoint gmul_loop (i : nat) (x z v : N) : N :=
  match i with
  | O => z
  | S i =>
      let z := if N.testbit x (N.of_nat i) then N.lxor z v else z in
      let v' := N.shiftr v 1 in
      gmul_loop i x z (if N.testbit v 0 then N.lxor v' (N.shiftl 0xe1 120) else v')
  end.
Definition gmul (x y : N) : N := gmul_loop 128 x 0 y.

Definition blocks (s : string) : list N :=
  (λ b, be_value (b ++ replicate (16 - length b) 0)) <$>
    groups 16 (String.length s) (bytes s).

Definition bit_length (s : string) : N := 8 * N.of_nat (String.length s).

Definition ghash (h : N) (aad ct : string) : N :=
  fold_left (λ y b, gmul (N.lxor y b) h)
    (blocks aad ++ blocks ct ++ [bit_length aad * 2 ^ 64 + bit_length ct]) 0.

Definition gcm_tag (rks : list (list N)) (nonce aad ct : string) : string :=
  let h := be_value (encrypt_block rks (replicate 16 0)) in
  of_bytes (be_bytes 16 (N.lxor (be_value (encrypt_block rks (counter_block nonce 1)))
                           (ghash h aad ct))).

Definition gcm_crypt (rks : list (list N)) (nonce s : string) : string :=
  xor_str s (keystream rks nonce 2 ((String.length s + 15) / 16)).

Definition aes_Seal (key nonce plain aad : string) : string :=
  let rks := round_keys key in
  let ct := gcm_crypt rks nonce plain in
  ct +:+ gcm_tag rks nonce aad ct.

Definition aes_Open (key nonce sealed aad : string) : option string :=
  let rks := round_keys key in
  let n := (String.length sealed - Overhead)%nat in
  if (String.length sealed <? Overhead)%nat then None
  else if decide (str_drop n sealed = gcm_tag rks nonce aad (str_take n sealed))
  then Some (gcm_crypt rks nonce (str_take n sealed))
  else None.

(** The vectors of the GCM specification, cases 14 and 16. *)
Example gcm_case14 :
  bytes (aes_Seal (of_bytes (replicate 32 0)) (of_bytes (replicate 12 0))
           (of_bytes (replicate 16 0)) "") =
  be_bytes 16 0xcea7403d4d606b6e074ec5d3baf39d18 ++ be_bytes 16 0xd0d1c8a799996bf0265b98b5d48ab919.
Proof. vm_compute. reflexivity. Qed.

Example gcm_case16 :
  bytes (aes_Seal
    (of_bytes (be_bytes 32 0xfeffe9928665731c6d6a8f9467308308feffe9928665731c6d6a8f9467308308))
    (of_bytes (be_bytes 12 0xcafebabefacedbaddecaf888))
    (of_bytes (be_bytes 60 0xd9313225f88406e5a55909c5aff5269a86a7a9531534f7da2e4c303d8a318a721c3c0c95956809532fcf0e2449a6b525b16aedf5aa0de657ba637b39))
    (of_bytes (be_bytes 20 0xfeedfacedeadbeeffeedfacedeadbeefabaddad2))) =
  be_bytes 60 0x522dc1f099567d07f47f37a32a84427d643a8cdcbfe5c0c97598a2bd2555d1aa8cb08e48590dbb3da7b08b1056828838c5f61e6393ba7a0abcc9f662 ++
  be_bytes 16 0x76fc6ece0f4e1768cddf8853bb2d551b.
Proof. vm_compute. reflexivity. Qed.

(** ** What the cipher promises *)

Lemma xor_byte_invol a b : xor_byte (xor_byte a b) b = a.
Proof.
  destruct a, b. simpl. by rewrite !xorb_assoc, !xorb_nilpotent, !xorb_false_r.
Qed.

Lemma xor_str_invol s ks : xor_str (xor_str s ks) ks = s.
Proof.
  revert ks. induction s as [|c s IH]; intros ks; [done|]. simpl. by rewrite xor_byte_invol, IH.
Qed.

Lemma xor_str_length s ks : String.length (xor_str s ks) = String.length s.
Proof. revert ks. induction s as [|c s IH]; intros ks; simpl; [done|]. by rewrite IH. Qed.

Lemma gcm_crypt_length rks nonce s : String.length (gcm_crypt rks nonce s) = String.length s.
Proof. apply xor_str_length. Qed.

Lemma gcm_crypt_invol rks nonce s : gcm_crypt rks nonce (gcm_crypt rks nonce s) = s.
Proof. unfold gcm_crypt. by rewrite xor_str_length, xor_str_invol. Qed.

Lemma of_bytes_length l : String.length (of_bytes l) = length l.
Proof. induction l as [|b l IH]; simpl; [done|]. by rewrite IH. Qed.

Lemma be_bytes_length n v : length (be_bytes n v) = n.
Proof.
  revert v. induction n as [|n IH]; intros v; cbn [be_bytes]; [done|].
  rewrite length_app, IH. simpl. lia.
Qed.

Lemma gcm_tag_length rks nonce aad ct : String.length (gcm_tag rks nonce aad ct) = Overhead.
Proof. unfold gcm_tag. by rewrite of_bytes_length, be_bytes_length. Qed.

Definition aes_key (key : string) : bool :=
  existsb (Nat.eqb (String.length key)) [16; 24; 32]%nat.

#[export] Program Instance aes_gcm : AEAD := {|
  NewCipher := aes_key;
  gcm_Seal := aes_Seal;
  gcm_Open := aes_Open;
|}.
Next Obligation.
  intros k. unfold aes_key. simpl. rewrite !orb_true_iff, !Nat.eqb_eq. naive_solver.
Qed.
Next Obligation.
  intros k nonce plain aad. unfold aes_Open, aes_Seal.
  set (ct := gcm_crypt _ _ plain). set (tag := gcm_tag _ _ _ ct).
  assert (String.length (ct +:+ tag) - Overhead = String.length ct)%nat as Hn.
  { unfold tag. rewrite str_length_app, gcm_tag_length. lia. }
  rewrite Hn, str_take_app, str_drop_app.
  destruct (Nat.ltb_spec (String.length (ct +:+ tag)) Overhead) as [Hlt|_].
  { unfold tag in Hlt. rewrite str_length_app, gcm_tag_length in Hlt. lia. }
  rewrite decide_True by done. unfold ct. by rewrite gcm_crypt_invol.
Qed.
Next Obligation.
  intros k nonce ct plain aad. unfold aes_Open, aes_Seal.
  destruct (Nat.ltb_spec (String.length ct) Overhead); [done|].
  case_decide as Htag; [|done]. intros [= <-]. rewrite gcm_crypt_invol, <-Htag.
  by rewrite take_drop_str.
Qed.
Next Obligation.
  intros k nonce plain aad. unfold aes_Seal.
  by rewrite str_length_app, gcm_tag_length, gcm_crypt_length.
Qed.
