(* ===== verification/Encoding.v ===== *)
(** * Encodings of bytes

    [encoding/binary] at 32 bits, [encoding/base64] (the standard alphabet,
    with padding) and the text of JSON documents. *)

From S2P Require Import Prelude GoLib GoSplit Utf8.
From Stdlib Require Import Ascii.

(** ** Bytes as numbers *)

Definition to_byte (z : Z) : ascii := ascii_of_N (Z.to_N (z mod 256)).
Definition of_byte (c : ascii) : Z := Z.of_N (N_of_ascii c).

Lemma of_byte_range c : 0 ≤ of_byte c < 256.
Proof. unfold of_byte. pose proof (N_ascii_bounded c). lia. Qed.

Lemma to_of_byte c : to_byte (of_byte c) = c.
Proof.
  unfold to_byte. rewrite Z.mod_small by apply of_byte_range. unfold of_byte.
  by rewrite N2Z.id, ascii_N_embedding.
Qed.

Lemma of_to_byte z : 0 ≤ z < 256 → of_byte (to_byte z) = z.
Proof.
  intros Hz. unfold of_byte, to_byte. rewrite Z.mod_small by done.
  rewrite N_ascii_embedding by lia. lia.
Qed.

(** ** [binary.BigEndian] *)

Definition PutUint32 (v : Z) : string :=
  String (to_byte (v / 2 ^ 24)) (String (to_byte (v / 2 ^ 16))
    (String (to_byte (v / 2 ^ 8)) (String (to_byte v) ""))).

(** [Uint32(s[:4])]; slicing a shorter string panics. *)
Definition Uint32 (s : string) : option Z :=
  match s with
  | String a (String b (String c (String d _))) =>
      Some (of_byte a * 2 ^ 24 + of_byte b * 2 ^ 16 + of_byte c * 2 ^ 8 + of_byte d)
  | _ => None
  end.

Lemma Uint32_Put v s : 0 ≤ v < 2 ^ 32 → Uint32 (PutUint32 v +:+ s) = Some v.
Proof.
  intros Hv. change (Some (of_byte (to_byte (v / 2 ^ 24)) * 2 ^ 24 +
    of_byte (to_byte (v / 2 ^ 16)) * 2 ^ 16 + of_byte (to_byte (v / 2 ^ 8)) * 2 ^ 8 +
    of_byte (to_byte v)) = Some v). f_equal.
  assert (∀ z, of_byte (to_byte z) = z mod 256) as Hb.
  { intros z. rewrite <-(of_to_byte (z mod 256)) by (apply Z.mod_pos_bound; lia).
    unfold to_byte. by rewrite Z.mod_mod by lia. }
 rewrite !Hb. change (2 ^ 24) with 16777216. change (2 ^ 16) with 65536.
  change (2 ^ 8) with 256. Z.to_euclidean_division_equations. lia.
Qed.

(** A string of four bytes or more starts with the encoding of its number. *)
Lemma Uint32_inv s v :
  Uint32 s = Some v → 0 ≤ v < 2 ^ 32 ∧ s = PutUint32 v +:+ str_drop 4 s.
Proof.
  destruct s as [|a [|b [|c [|d s]]]]; [done..|]. cbn [Uint32]. intros [= <-].
  pose proof (of_byte_range a); pose proof (of_byte_range b);
    pose proof (of_byte_range c); pose proof (of_byte_range d).
  change (2 ^ 24) with 16777216. change (2 ^ 16) with 65536. change (2 ^ 8) with 256.
  split; [change (2 ^ 32) with 4294967296; lia|].
  assert (∀ e z, z mod 256 = of_byte e → to_byte z = e) as Hb.
  { intros e z Hz. unfold to_byte. rewrite Hz. unfold of_byte.
    by rewrite N2Z.id, ascii_N_embedding. }
  set (v := _ + of_byte d).
  change (String a (String b (String c (String d s))) =
    String (to_byte (v / 16777216)) (String (to_byte (v / 65536))
      (String (to_byte (v / 256)) (String (to_byte v) s)))).
  unfold v. rewrite (Hb a), (Hb b), (Hb c), (Hb d); [done|..];
    Z.to_euclidean_division_equations; lia.
Qed.

(** ** [base64.StdEncoding] *)

Definition alphabet : string :=
  "ABCDEFGHIJKLMNOPQRSTUVWXYZabcdefghijklmnopqrstuvwxyz0123456789+/".

Definition digit (z : Z) : ascii := default "="%char (String.get (Z.to_nat z) alphabet).
Definition digit_value (c : ascii) : option Z := Z.of_nat <$> Index alphabet (String c "").

Fixpoint b64_encode (s : string) : string :=
  match s with
  | "" => ""
  | String a "" =>
      let a := of_byte a in
      String (digit (a / 4)) (String (digit (a mod 4 * 16)) "==")
  | String a (String b "") =>
      let a := of_byte a in let b := of_byte b in
      String (digit (a / 4)) (String (digit (a mod 4 * 16 + b / 16))
        (String (digit (b mod 16 * 4)) "="))
  | String a (String b (String c s)) =>
      let a := of_byte a in let b := of_byte b in let c := of_byte c in
      String (digit (a / 4)) (String (digit (a mod 4 * 16 + b / 16))
        (String (digit (b mod 16 * 4 + c / 64)) (String (digit (c mod 64)) (b64_encode s))))
  end.

(** Four digits at a time; only the last four may have padding. *)
Fixpoint b64_quads (s : string) : option string :=
  match s with
  | "" => Some ""
  | String w (String x (String y (String z s))) =>
      w ← digit_value w; x ← digit_value x;
      let first := to_byte (w * 4 + x / 16) in
      match digit_value y with
      | Some y =>
          let second := to_byte (x mod 16 * 16 + y / 4) in
          match digit_value z with
          | Some z => String first ∘ String second ∘ String (to_byte (y mod 4 * 64 + z))
                        <$> b64_quads s
          | None => if decide (z = "="%char ∧ s = "") then Some (String first (String second ""))
                    else None
          end
      | None => if decide (y = "="%char ∧ z = "="%char ∧ s = "") then Some (String first "")
                else None
      end
  | _ => None
  end.

(** Line ends are ignored. *)
Fixpoint drop_newlines (s : string) : string :=
  match s with
  | "" => ""
  | String c s =>
      if decide (c = ascii_of_nat 10 ∨ c = ascii_of_nat 13) then drop_newlines s
      else String c (drop_newlines s)
  end.

Definition b64_decode (s : string) : option string := b64_quads (drop_newlines s).

Lemma digit_inv z :
  0 ≤ z < 64 → digit_value (digit z) = Some z ∧
  ¬ (digit z = ascii_of_nat 10 ∨ digit z = ascii_of_nat 13).
Proof.
  intros Hz. assert (Forall (λ n, digit_value (digit (Z.of_nat n)) = Some (Z.of_nat n) ∧
    ¬ (digit (Z.of_nat n) = ascii_of_nat 10 ∨ digit (Z.of_nat n) = ascii_of_nat 13))
    (seq 0 64)) as Hall.
  { apply (bool_decide_unpack _). vm_compute. exact I. }
  rewrite Forall_forall in Hall. specialize (Hall (Z.to_nat z)).
  rewrite Z2Nat.id in Hall by lia. apply Hall, elem_of_seq. lia.
Qed.

Lemma digit_val z : 0 ≤ z < 64 → digit_value (digit z) = Some z.
Proof. apply digit_inv. Qed.

Lemma digit_kept z s :
  0 ≤ z < 64 → drop_newlines (String (digit z) s) = String (digit z) (drop_newlines s).
Proof. intros Hz. cbn [drop_newlines]. rewrite decide_False by by apply digit_inv. done. Qed.

(** Strings are three bytes followed by a string, or shorter. *)
Lemma triples_ind (P : string → Prop) :
  P "" → (∀ a, P (String a "")) → (∀ a b, P (String a (String b ""))) →
  (∀ a b c s, P s → P (String a (String b (String c s)))) → ∀ s, P s.
Proof.
  intros H0 H1 H2 H3. fix IH 1. intros [|a [|b [|c s]]]; [done|apply H1|apply H2|apply H3, IH].
Qed.

(** Byte strings survive base64. *)
Lemma b64_decode_encode s : b64_decode (b64_encode s) = Some s.
Proof.
  unfold b64_decode.
  assert (∀ a c, of_byte a = c → to_byte c = a) as Hto by (intros a c <-; apply to_of_byte).
  induction s as [|a|a b|a b c s IH] using triples_ind; [done|..].
  all: pose proof (of_byte_range a); try pose proof (of_byte_range b);
    try pose proof (of_byte_range c); cbn [b64_encode].
  all: rewrite !digit_kept by (Z.to_euclidean_division_equations; lia).
  all: cbn [b64_quads drop_newlines].
  all: rewrite ?(decide_False (P:="="%char = _ ∨ _)) by (intros [?|?]; discriminate).
  all: repeat (rewrite digit_val by (Z.to_euclidean_division_equations; lia); simpl).
  all: rewrite ?IH; simpl; repeat f_equal; apply Hto;
    Z.to_euclidean_division_equations; lia.
Qed.

(** ** [base64.RawURLEncoding] *)

Definition url_digit (c : ascii) : option ascii :=
  if decide (c = "-"%char) then Some "+"%char
  else if decide (c = "_"%char) then Some "/"%char
  else if decide (c = "+"%char ∨ c = "/"%char ∨ c = "="%char) then None
  else Some c.
Fixpoint url_digits (s : string) : option string :=
  match s with
  | "" => Some ""
  | String c s => c ← url_digit c; String c <$> url_digits s
  end.

(** Without padding. *)
Definition rawurl_decode (s : string) : option string :=
  s ← url_digits (drop_newlines s);
  b64_quads (s +:+ match (String.length s mod 4)%nat with
                   | 2%nat => "=="
                   | 3%nat => "="
                   | _ => ""
                   end).

(** ** The text of JSON documents

    [json.Marshal] of a document and [jsonutil.DecodeJSON] of its text.  In
    the text an instant is a string, which the type of the field it is decoded
    into tells from other strings; [json_Decode] tells it by its syntax.  The
    round trip is used of documents in which no string can be taken for an
    instant or is changed by the encoding: those with base64 texts, integers
    of 64 bits, instants that have a text, and distinct names. *)

Definition base64_char (c : ascii) : bool :=
  bool_decide (c = "="%char) || bool_decide (is_Some (digit_value c)).
Fixpoint base64_text (s : string) : bool :=
  match s with "" => true | String c s => base64_char c && base64_text s end.

Fixpoint json_doc (v : value) : bool :=
  match v with
  | VNil | VBool _ => true
  | VNum z => (- 2 ^ 63 <=? z) && (z <? 2 ^ 64)
  | VStr s => base64_text s
  | VTime t => time_json_ok t
  | VArr l => forallb json_doc l
  | VObj o => bool_decide (NoDup o.*1) && forallb (λ p, base64_text p.1 && json_doc p.2) o
  | VSprintf _ _ | VText _ => false
  end.

Class JsonText : Type := {
  json_Marshal : value → string;
  json_Decode : string → option value;
  json_Decode_Marshal : ∀ v, json_doc v = true → json_Decode (json_Marshal v) = Some v;
}.

Lemma digit_base64 z : 0 ≤ z < 64 → base64_char (digit z) = true.
Proof. intros Hz. unfold base64_char. rewrite digit_val by done. apply orb_true_r. Qed.

Lemma b64_encode_text s : base64_text (b64_encode s) = true.
Proof.
  induction s as [|a|a b|a b c s IH] using triples_ind; [done|..].
  all: pose proof (of_byte_range a); try pose proof (of_byte_range b);
    try pose proof (of_byte_range c); cbn [b64_encode base64_text].
  all: rewrite !digit_base64 by (Z.to_euclidean_division_equations; lia).
  all: rewrite ?IH; done.
Qed.
