(* ===== verification/Storage.v ===== *)
(** * Storage: the in-memory physical backend and the prefixed views

    [Inmem] models [sdk/physical/inmem]: the backend's state and its [Put],
    [Get], [Delete] and [List]. [Storage] is the interface
    [logical.Storage]; [StorageView] and [BarrierView] model
    [sdk/logical/storage_view.go] and [vault/barrier_view.go], which turn a
    storage into the same storage confined to a key prefix. *)

From S2P Require Import Prelude GoLib.

(** The radix tree of [github.com/armon/go-radix]: a finite map whose
    [WalkPrefix] visits each key that has the prefix once. *)
Class RadixTree : Type := {
  WalkPrefix : ∀ {V}, gmap string V → string → list string;
  WalkPrefix_elem : ∀ {V} (m : gmap string V) p k,
    k ∈ WalkPrefix m p ↔ is_Some (m !! k) ∧ HasPrefix k p = true;
  WalkPrefix_NoDup : ∀ {V} (m : gmap string V) p, NoDup (WalkPrefix m p);
}.

Module Inmem.
(** [InmemBackend], with the switches its tests use to make operations
    fail; [size] is [len] of a stored value. *)
Record t (V : Type) := mk {
  root : gmap string V;
  failGet : bool;
  failPut : bool;
  failDelete : bool;
  failList : bool;
  maxValueSize : Z;
}.
Arguments mk {V}.
Arguments root {V}.
Arguments failGet {V}.
Arguments failPut {V}.
Arguments failDelete {V}.
Arguments failList {V}.
Arguments maxValueSize {V}.

Inductive err := PutDisabledError | GetDisabledError | DeleteDisabledError
| ListDisabledError | ErrValueTooLarge.

Section ops.
Context `{RadixTree} {V : Type} (size : V → Z).
Implicit Types (i : t V) (key prefix : string).

Definition NewInmem (maxValueSize : Z) : t V :=
  mk ∅ false false false false maxValueSize.

Definition set_root (m : gmap string V) i : t V :=
  mk m (failGet i) (failPut i) (failDelete i) (failList i) (maxValueSize i).

Definition PutInternal key (v : V) i : option err * t V :=
  if failPut i then (Some PutDisabledError, i)
  else if (0 <? maxValueSize i) && (maxValueSize i <? size v)
  then (Some ErrValueTooLarge, i)
  else (None, set_root (<[key:=v]> (root i)) i).

Definition GetInternal key i : result err (option V) :=
  if failGet i then Err GetDisabledError else Ok (root i !! key).

Definition DeleteInternal key i : option err * t V :=
  if failDelete i then (Some DeleteDisabledError, i)
  else (None, set_root (delete key (root i)) i).

(** One call of [walkFn]: the child of [prefix] that [s] lies under,
    appended to [out] unless it is a directory already seen. *)
Definition walkFn prefix (acc : list string * gset string) (s : string)
    : list string * gset string :=
  let '(out, seen) := acc in
  let trimmed := TrimPrefix s prefix in
  match Index trimmed "/" with
  | None => (out ++ [trimmed], seen)
  | Some sep =>
      let dir := str_take (S sep) trimmed in
      if decide (dir ∈ seen) then (out, seen) else (out ++ [dir], {[dir]} ∪ seen)
  end.

Definition ListInternal prefix i : result err (list string) :=
  if failList i then Err ListDisabledError
  else Ok (fold_left (walkFn prefix) (WalkPrefix (root i) prefix) ([], ∅)).1.
End ops.
End Inmem.

(** ** The storage interface *)

Section storage.
Context {E : Type → Type} {B : Type}.

Record StorageEntry := mkEntry { Key : string; Value : B }.

Record Storage := mkStorage {
  List : string → prog E (res (list string));
  Get : string → prog E (res (option StorageEntry));
  Put : option StorageEntry → prog E (option goerr);
  Delete : string → prog E (option goerr);
}.

(** ** [logical.StorageView] *)

Record StorageView := mkView { storage : Storage; prefix : string }.

Definition NewStorageView (s : Storage) (p : string) : StorageView := mkView s p.

Definition SanityCheck (key : string) : option goerr :=
  if Contains key ".." then Some ErrRelativePath else None.

Definition ExpandKey (s : StorageView) (suffix : string) : string := prefix s +:+ suffix.

Definition TruncateKey (s : StorageView) (full : string) : string :=
  TrimPrefix full (prefix s).

Definition view_List (s : StorageView) (p : string) : prog E (res (list string)) :=
  match SanityCheck p with
  | Some err => Ret (Err err)
  | None => List (storage s) (ExpandKey s p)
  end.

Definition view_Get (s : StorageView) (key : string)
    : prog E (res (option StorageEntry)) :=
  match SanityCheck key with
  | Some err => Ret (Err err)
  | None =>
      r ← Get (storage s) (ExpandKey s key);
      Ret (match r with
           | Err err => Err err
           | Ok None => Ok None
           | Ok (Some entry) =>
               Ok (Some (mkEntry (TruncateKey s (Key entry)) (Value entry)))
           end)
  end.

Definition view_Put (s : StorageView) (entry : option StorageEntry)
    : prog E (option goerr) :=
  match entry with
  | None => Ret (Some ErrNilEntry)
  | Some entry =>
      match SanityCheck (Key entry) with
      | Some err => Ret (Some err)
      | None => Put (storage s) (Some (mkEntry (ExpandKey s (Key entry)) (Value entry)))
      end
  end.

Definition view_Delete (s : StorageView) (key : string) : prog E (option goerr) :=
  match SanityCheck key with
  | Some err => Ret (Some err)
  | None => Delete (storage s) (ExpandKey s key)
  end.

Definition view_SubView (s : StorageView) (p : string) : StorageView :=
  mkView (storage s) (ExpandKey s p).

(** ** [BarrierView]: a view that refuses writes while it is read-only *)

Record BarrierView := mkBarrier { bstorage : StorageView; readOnlyErr : option goerr }.

Definition NewBarrierView (barrier : Storage) (p : string) : BarrierView :=
  mkBarrier (NewStorageView barrier p) None.

Definition setReadOnlyErr (v : BarrierView) (e : option goerr) : BarrierView :=
  mkBarrier (bstorage v) e.

Definition runICheck (v : BarrierView) (expandedKey : string) : bool := true.

Definition barrier_Put (v : BarrierView) (entry : option StorageEntry)
    : prog E (option goerr) :=
  match entry with
  | None => Ret (Some ErrNilEntry)
  | Some e =>
      match readOnlyErr v with
      | Some roErr =>
          if runICheck v (ExpandKey (bstorage v) (Key e)) then Ret (Some roErr)
          else view_Put (bstorage v) entry
      | None => view_Put (bstorage v) entry
      end
  end.

Definition barrier_Delete (v : BarrierView) (key : string) : prog E (option goerr) :=
  match readOnlyErr v with
  | Some roErr =>
      if runICheck v (ExpandKey (bstorage v) key) then Ret (Some roErr)
      else view_Delete (bstorage v) key
  | None => view_Delete (bstorage v) key
  end.

Definition barrier_SubView (v : BarrierView) (p : string) : BarrierView :=
  mkBarrier (view_SubView (bstorage v) p) (readOnlyErr v).

(** A barrier view is itself a [logical.Storage]. *)
Definition barrier_storage (v : BarrierView) : Storage :=
  mkStorage (view_List (bstorage v)) (view_Get (bstorage v))
    (barrier_Put v) (barrier_Delete v).
End storage.
Arguments Storage : clear implicits.
Arguments StorageEntry : clear implicits.
Arguments StorageView : clear implicits.
Arguments BarrierView : clear implicits.
