(* ===== verification/ScanView.v ===== *)
(** * Walking and clearing a view

    [sdk/logical/storage.go]: [ScanView] walks the folders of a view with a
    stack of the folders still to list, [CollectKeys] gathers the keys it
    meets, [ClearView] deletes them. *)

From S2P Require Import Prelude GoLib Storage.

(** ** The code *)

Section code.
Context {E : Type → Type}.

Record ClearableView := mkClearable {
  cv_List : string → prog E (res (list string));
  cv_Delete : string → prog E (option goerr);
}.

(** [ctx.Err()], asked again at each use. *)
Variable ctx_Err : prog E (option goerr).

(** The body of the loop over one folder's contents: the frontier is a stack
    whose head is the end of the slice. [inr err] returns from [ScanView];
    the callback answers whether to go on. *)
Definition scan_entry {S} (cb : string → S → prog E (S * bool)) (current c : string)
    (st : list string * S) : prog E ((list string * S) + (S * option goerr)) :=
  let '(frontier, s) := st in
  canceled ← ctx_Err;
  match canceled with
  | Some _ => err ← ctx_Err; Ret (inr (s, err))
  | None =>
      let fullPath := current +:+ c in
      if HasSuffix c "/" then Ret (inl (fullPath :: frontier, s))
      else
        r ← cb fullPath s;
        let '(s', cont) := r in
        Ret (if cont : bool then inl (frontier, s') else inr (s', None))
  end.

(** The loop of the scans, a folder per step; the path in the error of a
    failed listing is left as its format. *)
Fixpoint scan_loop {S} (fuel : nat) (view : ClearableView)
    (cb : string → S → prog E (S * bool)) (frontier : list string) (s : S)
    : prog E (option (S * option goerr)) :=
  match frontier with
  | [] => Ret (Some (s, None))
  | current :: frontier =>
      match fuel with
      | O => Ret None
      | Datatypes.S fuel =>
          contents ← cv_List view current;
          match contents with
          | Err err => Ret (Some (s, Some (ErrWrap "list failed at path %q: {{err}}" err)))
          | Ok contents =>
              r ← range contents (frontier, s) (scan_entry cb current);
              match r with
              | inr ret => Ret (Some ret)
              | inl (frontier', s') => scan_loop fuel view cb frontier' s'
              end
          end
      end
  end.

Definition AbortableScanView {S} (fuel : nat) (view : ClearableView)
    (cb : string → S → prog E (S * bool)) (s : S) : prog E (option (S * option goerr)) :=
  scan_loop fuel view cb [""] s.

(** [ScanView] is the same loop with a callback that never stops it. *)
Definition ScanView {S} (fuel : nat) (view : ClearableView)
    (cb : string → S → prog E S) (s : S) : prog E (option (S * option goerr)) :=
  scan_loop fuel view (λ path s, s' ← cb path s; Ret (s', true)) [""] s.

Definition CollectKeysWithPrefix (fuel : nat) (view : ClearableView) (prefix : string)
    : prog E (option (res (list string))) :=
  r ← ScanView fuel view
        (λ path keys, Ret (if HasPrefix path prefix then keys ++ [path] else keys)) [];
  Ret (match r with
       | None => None
       | Some (_, Some err) => Some (Err err)
       | Some (keys, None) => Some (Ok keys)
       end).

Definition CollectKeys (fuel : nat) (view : ClearableView)
    : prog E (option (res (list string))) :=
  CollectKeysWithPrefix fuel view "".

(** One deletion of [ClearViewWithLogging]; what it logs is left out. *)
Definition clear_entry (view : ClearableView) (key : string) (_ : ())
    : prog E (() + option goerr) :=
  canceled ← ctx_Err;
  match canceled with
  | Some _ => err ← ctx_Err; Ret (inr err)
  | None =>
      err ← cv_Delete view key;
      Ret (match err with Some _ => inr err | None => inl () end)
  end.

Definition ClearViewWithLogging (fuel : nat) (view : option ClearableView)
    : prog E (option (option goerr)) :=
  match view with
  | None => Ret (Some None)
  | Some view =>
      keys ← CollectKeys fuel view;
      match keys with
      | None => Ret None
      | Some (Err err) => Ret (Some (Some err))
      | Some (Ok keys) =>
          r ← range keys () (clear_entry view);
          Ret (Some (match r with inl _ => None | inr err => err end))
      end
  end.

Definition ClearView (fuel : nat) (view : option ClearableView)
    : prog E (option (option goerr)) := ClearViewWithLogging fuel view.
End code.
Arguments ClearableView : clear implicits.

(** A barrier view as what [ScanView] and [ClearView] take. *)
Definition clearable {E B} (v : BarrierView E B) : ClearableView E :=
  mkClearable (view_List (bstorage v)) (barrier_Delete v).
