(* ===== verification/StorageFacts.v ===== *)
(** * What the in-memory storage promises

    The listing of the in-memory backend. *)

From S2P Require Import Prelude GoLib Storage.

(** ** Listing *)

(** The child a path lies under: itself, or its first directory. *)
Definition child (rest : string) : string :=
  match Index rest "/" with
  | None => rest
  | Some sep => str_take (S sep) rest
  end.

Definition slash : Ascii.ascii := Ascii.ascii_of_nat 47.

Lemma Index_slash_cons c s :
  Index (String c s) "/" = if decide (c = slash) then Some O else S <$> Index s "/".
Proof.
  cbn [Index]. destruct (HasPrefix (String c s) "/") eqn:Hp; case_decide as Hc; try done.
  - apply HasPrefix_spec in Hp as [r [= -> _]]. done.
  - apply not_true_iff_false in Hp. destruct Hp. apply HasPrefix_spec. exists s. by subst.
Qed.

Lemma Index_child s n : Index s "/" = Some n → Index (str_take (S n) s) "/" = Some n.
Proof.
  revert n. induction s as [|c s IH]; intros n; [done|]. rewrite Index_slash_cons.
  case_decide as Hc.
  - intros [= <-]. by subst.
  - intros Hn. destruct (Index s "/") as [m|] eqn:Hm; [|done]. injection Hn as <-.
    change (str_take (S (S m)) (String c s)) with (String c (str_take (S m) s)).
    rewrite Index_slash_cons, decide_False by done. by rewrite (IH m).
Qed.

(** A path without a slash is its own child, and no other path's. *)
Lemma child_leaf s s' : Index s "/" = None → child s' = s → s' = s.
Proof.
  unfold child. intros Hs. destruct (Index s' "/") as [n|] eqn:Hn; [|done].
  intros <-. by rewrite (Index_child _ _ Hn) in Hs.
Qed.

Section list.
Context `{RadixTree} {V : Type}.

(** The state of the walk after visiting the keys [done]: [out] is the
    children met, each once, and [seen] the directories among them. *)
Record walked (p : string) (visited : list string) (acc : list string * gset string) : Prop := {
  walked_out : ∀ k, k ∈ acc.1 ↔ ∃ s, s ∈ visited ∧ k = child (TrimPrefix s p);
  walked_seen : ∀ d, d ∈ acc.2 ↔ d ∈ acc.1 ∧ is_Some (Index d "/");
  walked_NoDup : NoDup acc.1;
}.

Lemma walk_step p visited acc s :
  HasPrefix s p = true → (∀ s', s' ∈ visited → HasPrefix s' p = true ∧ s' ≠ s) →
  walked p visited acc → walked p (visited ++ [s]) (Inmem.walkFn p acc s).
Proof.
  intros Hs Hv [Ho Hse Hnd]. destruct acc as [out seen]. unfold Inmem.walkFn. cbn [fst snd] in *.
  assert (∀ k, (∃ s', s' ∈ visited ++ [s] ∧ k = child (TrimPrefix s' p)) ↔
               k ∈ out ∨ k = child (TrimPrefix s p)) as Hk.
  { intros k. rewrite Ho. setoid_rewrite elem_of_app. setoid_rewrite list_elem_of_singleton.
    split.
    - intros (s' & [?| ->] & ->); eauto.
    - intros [(s' & ? & ->)| ->]; eauto. }
  destruct (Index (TrimPrefix s p) "/") as [n|] eqn:Hn.
  - assert (child (TrimPrefix s p) = str_take (S n) (TrimPrefix s p)) as Hc
      by (unfold child; by rewrite Hn).
    pose proof (Index_child _ _ Hn) as Hi. rewrite <-Hc in Hi |- *.
    set (d := child (TrimPrefix s p)) in *.
    destruct (decide (d ∈ seen)) as [Hd|Hd]; split; cbn [fst snd]; try done.
    + intros k. rewrite Hk. apply Hse in Hd as [Hd _]. split.
      * by left.
      * by intros [?| ->].
    + intros k. rewrite elem_of_app, list_elem_of_singleton, Hk. done.
    + intros k. rewrite elem_of_union, elem_of_singleton, elem_of_app, list_elem_of_singleton, Hse.
      split.
      * intros [->|[? ?]]; [|by auto]. split; [by right|]. by rewrite Hi.
      * intros [[?| ->] ?]; auto.
    + apply NoDup_app. split_and!; [done| |apply NoDup_singleton].
      intros x Hx ->%list_elem_of_singleton. apply Hd, Hse. by rewrite Hi.
  - assert (child (TrimPrefix s p) = TrimPrefix s p) as Hc by (unfold child; by rewrite Hn).
    split; cbn [fst snd].
    + intros k. rewrite elem_of_app, list_elem_of_singleton, Hk. by rewrite Hc.
    + intros k. rewrite elem_of_app, list_elem_of_singleton, Hse. split; [intros [? ?]; auto|].
      intros [[?| ->] Hsl]; [done|]. rewrite Hn in Hsl. by destruct Hsl.
    + apply NoDup_app. split_and!; [done| |apply NoDup_singleton].
      intros x Hx ->%list_elem_of_singleton. apply Ho in Hx as (s' & Hs' & Heq).
      apply Hv in Hs' as [Hp Hne]. apply Hne.
      symmetry in Heq. apply child_leaf in Heq; [|done].
      apply HasPrefix_spec in Hp as [r ->]. apply HasPrefix_spec in Hs as [r' ->].
      by rewrite !TrimPrefix_app in Heq; subst.
Qed.

Lemma walk_all p todo visited acc :
  NoDup (visited ++ todo) → (∀ s, s ∈ visited ++ todo → HasPrefix s p = true) →
  walked p visited acc → walked p (visited ++ todo) (fold_left (Inmem.walkFn p) todo acc).
Proof.
  revert visited acc. induction todo as [|s todo IH]; intros visited acc Hnd Hp Hw; simpl.
  { by rewrite app_nil_r. }
  rewrite cons_middle, (assoc_L (++)) in *. apply IH; [done..|].
  apply walk_step; [|intros s' Hs'; split|done].
  - apply Hp. set_solver.
  - apply Hp. set_solver.
  - intros ->. apply NoDup_app in Hnd as [(_ & Hd & _)%NoDup_app _]. apply (Hd s); set_solver.
Qed.

(** The in-memory backend lists exactly the immediate children of a prefix,
    each once: a key directly below it by its name, the keys of a directory
    below it by the directory's name. *)
Lemma list_spec (p : string) (i : Inmem.t V) l :
  Inmem.ListInternal p i = Ok l →
  NoDup l ∧ ∀ k, k ∈ l ↔ ∃ rest, is_Some (Inmem.root i !! (p +:+ rest)) ∧ k = child rest.
Proof.
  unfold Inmem.ListInternal. destruct (Inmem.failList i); [done|]. intros [= <-].
  set (keys := WalkPrefix (Inmem.root i) p).
  assert (walked p keys (fold_left (Inmem.walkFn p) keys ([], ∅))) as [Ho _ Hnd].
  { apply (walk_all p keys []); simpl.
    - apply WalkPrefix_NoDup.
    - intros s Hs. by apply WalkPrefix_elem in Hs as [_ ?].
    - split; simpl; [set_solver..|apply NoDup_nil_2]. }
  split; [done|]. intros k. rewrite Ho. split.
  - intros (s & [Hs [r ->]%HasPrefix_spec]%WalkPrefix_elem & ->). exists r.
    by rewrite TrimPrefix_app.
  - intros (r & Hr & ->). exists (p +:+ r). rewrite TrimPrefix_app. split; [|done].
    apply WalkPrefix_elem. split; [done|]. apply HasPrefix_spec. by exists r.
Qed.
End list.
