(* ===== verification/Core.v ===== *)
(** * The core as the approval workflow sees it

    The request and response types of [sdk/logical], the effects a handler
    performs (storage, clock, identifiers, token and identity lookups,
    routing to a backend, notifications), the world those effects act on and
    the environment that decides what the model leaves open. *)

From S2P Require Import Prelude GoLib Storage.

(** ** [logical.Request] and [logical.Response]

    The fields the modelled code reads or writes. *)

(** The response-wrapping parameters: what the client asks for, and what a
    response carries. *)
Record RequestWrapInfo := mkReqWrap { rw_TTL : Z; rw_Format : string }.
Record ResponseWrapInfo := mkRespWrap {
  wi_TTL : Z;
  wi_Format : string;
  wi_CreationPath : string;
  wi_SealWrap : bool;
}.

Record Request := mkRequest {
  req_ID : string;
  req_Operation : string;
  req_Path : string;
  req_Data : option (gmap string value);
  req_Headers : option (gmap string (list string));
  req_EntityID : string;
  req_DisplayName : string;
  req_MountPoint : string;
  req_ClientToken : string;
  req_WrapInfo : option RequestWrapInfo;
  req_RequiresSnapshotID : string;
}.

Definition CreateOperation : string := "create".
Definition ReadOperation : string := "read".
Definition UpdateOperation : string := "update".
Definition ListOperation : string := "list".
Definition DeleteOperation : string := "delete".

Record Secret := mkSecret {
  TTL : Z;
  MaxTTL : Z;
  Renewable : bool;
  LeaseID : string;
}.

Record Response := mkResponse {
  resp_Data : gmap string value;
  resp_Warnings : list value;
  resp_Secret : option Secret;
  resp_WrapInfo : option ResponseWrapInfo;
  resp_MountType : string;
}.

Record Auth := mkAuth { auth_Policies : list string }.
Record TokenEntry := mkToken { te_Policies : list string }.
Record Entity := mkEntity { entity_Name : string }.

(** What the router knows of a mount: its entry, its backend, and the lease
    limits of its system view. *)
Record MountEntry := mkMount {
  me_Type : string;
  me_Options : option (gmap string string);
  me_PluginName : string;
}.
Inductive Backend := PassthroughBackend (GeneratesLeases : bool) | OtherBackend.
Record SystemView := mkSysView { DefaultLeaseTTL : Z; MaxLeaseTTL : Z }.

(** A Go [map[string]interface{}] literal: a later key wins. *)
Definition gomap (l : list (string * value)) : gmap string value :=
  list_to_map (reverse l).

Definition data_response (l : list (string * value)) : Response :=
  mkResponse (gomap l) [] None None "".

(** [logical.ErrorResponse]; without arguments the text is taken as it is. *)
Definition ErrorResponse (text : string) (vargs : list value) : Response :=
  data_response [("error", match vargs with [] => VStr text | _ => VSprintf text vargs end)].

Definition HTTPContentType : string := "http_content_type".
Definition HTTPStatusCode : string := "http_status_code".
Definition HTTPRawBody : string := "http_raw_body".

(** [logical.LogicalResponseToHTTPResponse] for a response without [Auth],
    as the JSON document of the [HTTPResponse], [RequestID] filled in. *)
Definition LogicalResponseToHTTPResponse (r : Response) (request_id : string) : value :=
  VObj [("request_id", VStr request_id);
        ("lease_id", VStr (from_option LeaseID "" (resp_Secret r)));
        ("renewable", VBool (from_option Renewable false (resp_Secret r)));
        ("lease_duration", VNum (from_option (λ s, dur_in Second (TTL s)) 0 (resp_Secret r)));
        ("data", VObj (map_to_list (resp_Data r)));
        ("wrap_info", VNil);
        ("warnings", match resp_Warnings r with [] => VNil | l => VArr l end);
        ("auth", VNil);
        ("mount_type", VStr (resp_MountType r))].

Definition RespondWithStatusCode (resp : option Response) (req : Request) (code : Z)
    : option Response * option goerr :=
  let ret := [(HTTPContentType, VStr "application/json"); (HTTPStatusCode, VNum code)] in
  match resp with
  | None => (Some (data_response ret), None)
  | Some r =>
      (Some (data_response (ret ++
         [(HTTPRawBody, VText (LogicalResponseToHTTPResponse r (req_ID req)))])), None)
  end.

Definition StatusAccepted : Z := 202.
Definition StatusBadRequest : Z := 400.
Definition StatusForbidden : Z := 403.
Definition StatusNotFound : Z := 404.

(** ** Effects *)

(** The bytes of a storage entry: a JSON document, or bytes that are not. *)
Inductive blob := Doc (v : value) | NotJSON.

Inductive coreE : Type → Type :=
| SList (prefix : string) : coreE (res (list string))
| SGet (key : string) : coreE (res (option blob))
| SPut (key : string) (b : blob) : coreE (option goerr)
| SDelete (key : string) : coreE (option goerr)
| Now : coreE Z
| GenerateUUID : coreE (res string)
| TokenLookup (token : string) : coreE (res (option TokenEntry))
| MemDBEntityByID (id : string) : coreE (res (option Entity))
| Route (req : Request) : coreE (option Response * option goerr)
| SlackPost (url text : string) : coreE ()
| MatchingMountEntry (path : string) : coreE (option MountEntry)
| MatchingBackend (path : string) : coreE (option Backend)
| MatchingSystemView (path : string) : coreE (option SystemView)
| Register (req : Request) (s : Secret) : coreE (res string).

Abbreviation handler A := (prog coreE A).

(** The barrier below the views: one effect per operation. *)
Definition barrier : Storage coreE blob := {|
  List p := trigger (SList p);
  Get k := r ← trigger (SGet k);
           Ret (match r with
                | Err e => Err e
                | Ok None => Ok None
                | Ok (Some b) => Ok (Some (mkEntry k b))
                end);
  Put e := match e with
           | None => Ret (Some ErrNilEntry)
           | Some e => trigger (SPut (Key e) (Value e))
           end;
  Delete k := trigger (SDelete k);
|}.

Record Core := mkCore {
  core_readOnly : option goerr;
  identityStore : bool;
  redirectAddr : string;
}.

Definition systemBarrierPrefix : string := "sys/".

Definition systemBarrierView (c : Core) : BarrierView coreE blob :=
  setReadOnlyErr (NewBarrierView barrier systemBarrierPrefix) (core_readOnly c).

(** ** World and environment

    [w_phys] is the physical backend below the barrier. [w_routed] records,
    newest first, the requests handed to a backend for their operation; the
    question whether the entry of a write exists, which the router also puts
    to a backend, is not recorded. [w_slack] records the
    notifications sent; [w_leases] the secrets registered with the expiration
    manager, with the request each was issued for. [w_tick] counts effects: the environment answers by
    it, so an environment is any history of answers. *)

Record World := mkWorld {
  w_phys : Inmem.t blob;
  w_routed : list Request;
  w_slack : list (string * string);
  w_leases : list (Request * Secret);
  w_tick : nat;
}.

(** What becomes of a storage operation: it succeeds, it fails without
    effect, or its error is reported although it took effect. *)
Inductive outcome := Done | Failed | FailedApplied.

Record Env := mkEnv {
  env_fault : nat → outcome;
  env_size : blob → Z;
  env_clock : nat → Z;
  env_uuid : nat → res string;
  env_token : nat → string → res (option TokenEntry);
  env_entity : nat → string → res (option Entity);
  env_backend : nat → Request → option Response * option goerr;
  env_mount : nat → string → option MountEntry;
  env_mount_backend : nat → string → option Backend;
  env_sysview : nat → string → option SystemView;
  env_register : nat → Request → Secret → res string;
}.

Definition tick (w : World) : World :=
  mkWorld (w_phys w) (w_routed w) (w_slack w) (w_leases w) (S (w_tick w)).
Definition set_phys (p : Inmem.t blob) (w : World) : World :=
  mkWorld p (w_routed w) (w_slack w) (w_leases w) (w_tick w).
Definition add_routed (r : Request) (w : World) : World :=
  mkWorld (w_phys w) (r :: w_routed w) (w_slack w) (w_leases w) (w_tick w).
Definition add_slack (m : string * string) (w : World) : World :=
  mkWorld (w_phys w) (w_routed w) (m :: w_slack w) (w_leases w) (w_tick w).
Definition add_lease (l : Request * Secret) (w : World) : World :=
  mkWorld (w_phys w) (w_routed w) (w_slack w) (l :: w_leases w) (w_tick w).

(** The stored entries. *)
Definition w_store (w : World) : gmap string blob := Inmem.root (w_phys w).

Definition store_err {A} (r : result Inmem.err A) : res A :=
  match r with Ok a => Ok a | Err _ => Err ErrStorage end.

Definition write_result (o : outcome) (r : option Inmem.err * Inmem.t blob) (w : World)
    : option goerr * World :=
  match o with
  | Done => (match r.1 with None => None | Some _ => Some ErrStorage end,
             set_phys r.2 (tick w))
  | Failed => (Some ErrStorage, tick w)
  | FailedApplied => (Some ErrStorage, set_phys r.2 (tick w))
  end.

Section semantics.
Context `{RadixTree} (env : Env).

Definition core_handle X (e : coreE X) (w : World) : X * World :=
  let n := w_tick w in
  match e in coreE X return X * World with
  | SList p =>
      (match env_fault env n with
       | Done => store_err (Inmem.ListInternal p (w_phys w))
       | _ => Err ErrStorage
       end, tick w)
  | SGet k =>
      (match env_fault env n with
       | Done => store_err (Inmem.GetInternal k (w_phys w))
       | _ => Err ErrStorage
       end, tick w)
  | SPut k b =>
      write_result (env_fault env n)
        (Inmem.PutInternal (env_size env) k b (w_phys w)) w
  | SDelete k =>
      write_result (env_fault env n) (Inmem.DeleteInternal k (w_phys w)) w
  | Now => (env_clock env n, tick w)
  | GenerateUUID => (env_uuid env n, tick w)
  | TokenLookup t => (env_token env n t, tick w)
  | MemDBEntityByID id => (env_entity env n id, tick w)
  | Route req => (env_backend env n req, add_routed req (tick w))
  | SlackPost url text => (tt, add_slack (url, text) (tick w))
  | MatchingMountEntry p => (env_mount env n p, tick w)
  | MatchingBackend p => (env_mount_backend env n p, tick w)
  | MatchingSystemView p => (env_sysview env n p, tick w)
  | Register req s =>
      match env_register env n req s with
      | Ok id => (Ok id, add_lease (req, s) (tick w))
      | Err e => (Err e, tick w)
      end
  end.

#[export] Instance core_handler : Handler coreE World := core_handle.

(** A handler run alone. *)
Definition exec {A} (p : handler A) (w : World) : A * World := run p w.

Lemma exec_bind {A B} (p : handler A) (f : A → handler B) w :
  exec (p ≫= f) w = exec (f (exec p w).1) (exec p w).2.
Proof. apply run_bind. Qed.
End semantics.
