(* ===== verification/BarrierState.v ===== *)
(** * The state of the security barrier

    The structures of [vault/keyring.go] and [vault/barrier_aes_gcm.go], the
    memory they share by pointers, the physical backend below, and the monad
    in which the barrier's operations are written: state, a Go error as a
    result, a Go panic as no result. *)

From S2P Require Import Prelude GoLib Storage Core AesGcm Encoding.

(** ** Errors *)

Inductive error : Type :=
| ErrBarrierSealed
| ErrBarrierAlreadyInit
| ErrBarrierNotInit
| ErrBarrierInvalidKey
| ErrPlaintextTooLarge
| ErrOpen
| ErrPhysical
| ErrRead
| ErrJSON
| ErrConsumer
| New (msg : string)
| Errorf (msg : string) (e : error).

(** [err.Error()], as far as the code looks at it. *)
Fixpoint error_text (e : error) : string :=
  match e with
  | ErrOpen => "cipher: message authentication failed"
  | New msg => msg
  | Errorf msg e => msg +:+ ": " +:+ error_text e
  | _ => ""
  end.

(** ** Keys and keyrings *)

Record KeyRotationConfig := mkRotation {
  Disabled : bool;
  MaxOperations : Z;
  Interval : Z;
}.

Module Keyring.
(** A [*Key] and a root key are pointers: [loc] is an index into the memory
    of keys, [rloc] into that of root keys. *)
Definition loc : Type := nat.
Definition rloc : Type := nat.

Record Key := mkKey {
  Term : Z;
  Version : Z;
  Value : string;
  InstallTime : Z;
  Encryptions : Z;
}.

Record t := mk {
  rootKey : option rloc;
  keys : gmap Z loc;
  activeTerm : Z;
  rotationConfig : KeyRotationConfig;
}.

Definition set_Value (v : string) (k : Key) : Key :=
  mkKey (Term k) (Version k) v (InstallTime k) (Encryptions k).
Definition set_InstallTime (t : Z) (k : Key) : Key :=
  mkKey (Term k) (Version k) (Value k) t (Encryptions k).
Definition set_Encryptions (n : Z) (k : Key) : Key :=
  mkKey (Term k) (Version k) (Value k) (InstallTime k) n.
End Keyring.

(** ** The barrier *)

(** [AESGCMBarrier]; the backend is the disk of the world below, and an AEAD
    is represented by its key. *)
Record AESGCMBarrier := mkBar {
  bar_sealed : bool;
  bar_keyring : option Keyring.t;
  bar_cache : gmap Z string;
  currentAESGCMVersionByte : Z;
  bar_initialized : bool;
  UnaccountedEncryptions : Z;
  RemoteEncryptions : Z;
  totalLocalEncryptions : Z;
}.

Definition set_sealed (b : bool) (m : AESGCMBarrier) : AESGCMBarrier :=
  mkBar b (bar_keyring m) (bar_cache m) (currentAESGCMVersionByte m) (bar_initialized m)
    (UnaccountedEncryptions m) (RemoteEncryptions m) (totalLocalEncryptions m).
Definition set_keyring (k : option Keyring.t) (m : AESGCMBarrier) : AESGCMBarrier :=
  mkBar (bar_sealed m) k (bar_cache m) (currentAESGCMVersionByte m) (bar_initialized m)
    (UnaccountedEncryptions m) (RemoteEncryptions m) (totalLocalEncryptions m).
Definition set_cache (c : gmap Z string) (m : AESGCMBarrier) : AESGCMBarrier :=
  mkBar (bar_sealed m) (bar_keyring m) c (currentAESGCMVersionByte m) (bar_initialized m)
    (UnaccountedEncryptions m) (RemoteEncryptions m) (totalLocalEncryptions m).
Definition set_initialized (b : bool) (m : AESGCMBarrier) : AESGCMBarrier :=
  mkBar (bar_sealed m) (bar_keyring m) (bar_cache m) (currentAESGCMVersionByte m) b
    (UnaccountedEncryptions m) (RemoteEncryptions m) (totalLocalEncryptions m).
Definition set_counters (u r l : Z) (m : AESGCMBarrier) : AESGCMBarrier :=
  mkBar (bar_sealed m) (bar_keyring m) (bar_cache m) (currentAESGCMVersionByte m)
    (bar_initialized m) u r l.

(** ** The world of one node

    [b_keys] and [b_roots] are the memory; [b_disk] is the physical backend;
    [b_tick] counts what was asked of the environment. *)
Record BWorld := mkBWorld {
  b_bar : AESGCMBarrier;
  b_keys : list Keyring.Key;
  b_roots : list string;
  b_disk : Inmem.t string;
  b_tick : nat;
}.

Definition set_bar (m : AESGCMBarrier) (w : BWorld) : BWorld :=
  mkBWorld m (b_keys w) (b_roots w) (b_disk w) (b_tick w).
Definition set_keys (ks : list Keyring.Key) (w : BWorld) : BWorld :=
  mkBWorld (b_bar w) ks (b_roots w) (b_disk w) (b_tick w).
Definition set_roots (rs : list string) (w : BWorld) : BWorld :=
  mkBWorld (b_bar w) (b_keys w) rs (b_disk w) (b_tick w).
Definition set_disk (d : Inmem.t string) (w : BWorld) : BWorld :=
  mkBWorld (b_bar w) (b_keys w) (b_roots w) d (b_tick w).
Definition btick (w : BWorld) : BWorld :=
  mkBWorld (b_bar w) (b_keys w) (b_roots w) (b_disk w) (S (b_tick w)).

(** What the environment answers: the fate of a storage operation, what
    [rand.Read] and a reader write into a buffer of the given size, the
    clock. *)
Class BEnv : Type := mkBEnv {
  be_fault : nat → outcome;
  be_rand : nat → nat → string * option error;
  be_reader : nat → nat → string * option error;
  be_clock : nat → Z;
}.

(** The iteration over a map from terms, in no particular order. *)
Class TermRange : Type := {
  range_terms : ∀ {V}, gmap Z V → list (Z * V);
  range_terms_perm : ∀ {V} (m : gmap Z V), range_terms m ≡ₚ map_to_list m;
}.

(** ** The monad *)

Definition E (A : Type) : Type := BWorld → option (result error A) * BWorld.

#[export] Instance E_ret : MRet E := λ A a w, (Some (Ok a), w).
#[export] Instance E_bind : MBind E := λ A B f m w,
  match m w with
  | (Some (Ok a), w') => f a w'
  | (Some (Err e), w') => (Some (Err e), w')
  | (None, w') => (None, w')
  end.

Definition throw {A} (e : error) : E A := λ w, (Some (Err e), w).
Definition panic {A} : E A := λ w, (None, w).

(** [err != nil] in the caller's hands. *)
Definition try {A} (m : E A) : E (result error A) := λ w,
  match m w with
  | (Some r, w') => (Some (Ok r), w')
  | (None, w') => (None, w')
  end.

(** [fmt.Errorf("msg: %w", err)]. *)
Definition wrapf {A} (msg : string) (m : E A) : E A := λ w,
  match m w with
  | (Some (Err e), w') => (Some (Err (Errorf msg e)), w')
  | r => r
  end.

Definition gets {A} (f : BWorld → A) : E A := λ w, (Some (Ok (f w)), w).
Definition modify (f : BWorld → BWorld) : E () := λ w, (Some (Ok ()), f w).
Definition bar_modify (f : AESGCMBarrier → AESGCMBarrier) : E () :=
  modify (λ w, set_bar (f (b_bar w)) w).
Definition nonnil {A} (o : option A) : E A :=
  match o with Some a => mret a | None => panic end.

Fixpoint for_each {A} (l : list A) (f : A → E ()) : E () :=
  match l with
  | [] => mret ()
  | x :: l => _ ← f x; for_each l f
  end.

(** Pointers. *)
Definition new_key (k : Keyring.Key) : E Keyring.loc := λ w,
  (Some (Ok (length (b_keys w))), set_keys (b_keys w ++ [k]) w).
Definition load (l : Keyring.loc) : E Keyring.Key := w ← gets b_keys; nonnil (w !! l).
Definition store (l : Keyring.loc) (k : Keyring.Key) : E () :=
  modify (λ w, set_keys (<[l := k]> (b_keys w)) w).
Definition new_root (s : string) : E Keyring.rloc := λ w,
  (Some (Ok (length (b_roots w))), set_roots (b_roots w ++ [s]) w).

Section effects.
Context `{RadixTree} `{BEnv}.

Definition time_Now : E Z := λ w, (Some (Ok (be_clock (b_tick w))), btick w).

Definition rand_Read (n : nat) : E (string * option error) := λ w,
  (Some (Ok (be_rand (b_tick w) n)), btick w).
Definition reader_Read (n : nat) : E (string * option error) := λ w,
  (Some (Ok (be_reader (b_tick w) n)), btick w).

(** ** The physical backend *)

Definition disk_write (r : option Inmem.err * Inmem.t string) : E () := λ w,
  match be_fault (b_tick w) with
  | Done => (Some (match r.1 with None => Ok () | Some _ => Err ErrPhysical end),
             set_disk r.2 (btick w))
  | Failed => (Some (Err ErrPhysical), btick w)
  | FailedApplied => (Some (Err ErrPhysical), set_disk r.2 (btick w))
  end.

Definition disk_read {A} (r : result Inmem.err A) : E A := λ w,
  (Some (match be_fault (b_tick w), r with
         | Done, Ok a => Ok a
         | _, _ => Err ErrPhysical
         end), btick w).

Definition disk_Put (key value : string) : E () := λ w,
  disk_write (Inmem.PutInternal (λ v, Z.of_nat (String.length v)) key value (b_disk w)) w.
Definition disk_Delete (key : string) : E () := λ w,
  disk_write (Inmem.DeleteInternal key (b_disk w)) w.
Definition disk_Get (key : string) : E (option string) := λ w,
  disk_read (Inmem.GetInternal key (b_disk w)) w.
Definition disk_List (prefix : string) : E (list string) := λ w,
  disk_read (Inmem.ListInternal prefix (b_disk w)) w.
End effects.
