(* ===== verification/KeyringOps.v ===== *)
(** * [vault/keyring.go]

    Keys are shared by pointer between a keyring and its clones, so that
    what [AddKey] and [Zeroize] do to a key is seen by every clone. *)

From S2P Require Import Prelude GoLib Storage Core AesGcm Encoding BarrierState.

Definition absoluteOperationMaximum : Z := 3865470566.
Definition absoluteOperationMinimum : Z := 1000000.
Definition minimumRotationInterval : Z := 24 * Hour.

Definition defaultRotationConfig : KeyRotationConfig :=
  mkRotation false absoluteOperationMaximum 0.

Definition Sanitize (c : KeyRotationConfig) : KeyRotationConfig :=
  let max := if (MaxOperations c =? 0) || (absoluteOperationMaximum <? MaxOperations c)
             then absoluteOperationMaximum else MaxOperations c in
  let max := if max <? absoluteOperationMinimum then absoluteOperationMinimum else max in
  let interval := if (0 <? Interval c) && (Interval c <? minimumRotationInterval)
                  then minimumRotationInterval else Interval c in
  mkRotation (Disabled c) max interval.

Definition config_Clone (c : KeyRotationConfig) : KeyRotationConfig :=
  Sanitize (mkRotation (Disabled c) (MaxOperations c) (Interval c)).

Definition config_Equals (c config : KeyRotationConfig) : bool :=
  (MaxOperations c =? MaxOperations config) && (Interval c =? Interval config).

Definition uint32 (z : Z) : Z := z mod 2 ^ 32.
Definition uint64 (z : Z) : Z := z mod 2 ^ 64.

(** [memzero]. *)
Fixpoint memzero (s : string) : string :=
  match s with
  | "" => ""
  | String _ s => String Ascii.zero (memzero s)
  end.

(** ** JSON *)

Definition enc_bytes (s : string) : value := VStr (b64_encode s).

Definition enc_key (k : Keyring.Key) : value :=
  VObj ([("Term", VNum (Keyring.Term k)); ("Version", VNum (Keyring.Version k));
         ("Value", enc_bytes (Keyring.Value k)); ("InstallTime", VTime (Keyring.InstallTime k))] ++
        (if Keyring.Encryptions k =? 0 then []
         else [("encryptions", VNum (Keyring.Encryptions k))])).

Definition enc_rotation (c : KeyRotationConfig) : value :=
  VObj [("Disabled", VBool (Disabled c)); ("MaxOperations", VNum (MaxOperations c));
        ("Interval", VNum (Interval c))].

Definition dec_bytes (o : list (string * value)) (k : string) : res string :=
  match assoc k o with
  | None | Some VNil => Ok ""
  | Some (VStr s) => match b64_decode s with Some b => Ok b | None => Err ErrDecode end
  | _ => Err ErrDecode
  end.

(** An unsigned integer of [bits] bits. *)
Definition dec_uint (bits : Z) (o : list (string * value)) (k : string) : res Z :=
  match assoc k o with
  | None | Some VNil => Ok 0
  | Some (VNum z) => if (0 <=? z) && (z <? 2 ^ bits) then Ok z else Err ErrDecode
  | _ => Err ErrDecode
  end.

Definition zero_key : Keyring.Key := Keyring.mkKey 0 0 "" 0 0.

Definition dec_key (v : value) : res Keyring.Key :=
  match v with
  | VNil => Ok zero_key
  | VObj o =>
      term ← dec_uint 32 o "Term"; version ← dec_int o "Version";
      val ← dec_bytes o "Value"; time ← dec_time o "InstallTime";
      encs ← dec_uint 64 o "encryptions";
      Ok (Keyring.mkKey term version val time encs)
  | _ => Err ErrDecode
  end.

Definition dec_rotation (o : list (string * value)) (k : string) : res KeyRotationConfig :=
  match assoc k o with
  | None | Some VNil => Ok (mkRotation false 0 0)
  | Some (VObj o) =>
      disabled ← dec_bool o "Disabled"; max ← dec_int o "MaxOperations";
      interval ← dec_int o "Interval"; Ok (mkRotation disabled max interval)
  | _ => Err ErrDecode
  end.

(** [EncodedKeyring]; a [null] among the keys is a nil pointer. *)
Record EncodedKeyring := mkEncoded {
  MasterKey : option string;
  Keys : list (option Keyring.Key);
  RotationConfig_ : KeyRotationConfig;
}.

Definition enc_keyring (root : option string) (ks : list Keyring.Key) (c : KeyRotationConfig)
    : value :=
  VObj [("MasterKey", match root with Some s => enc_bytes s | None => VNil end);
        ("Keys", match ks with [] => VNil | _ => VArr (enc_key <$> ks) end);
        ("RotationConfig", enc_rotation c)].

Definition dec_key_ptr (v : value) : res (option Keyring.Key) :=
  match v with VNil => Ok None | _ => k ← dec_key v; Ok (Some k) end.

Definition dec_keyring (v : value) : res EncodedKeyring :=
  match v with
  | VNil => Ok (mkEncoded None [] (mkRotation false 0 0))
  | VObj o =>
      root ← match assoc "MasterKey" o with
             | None | Some VNil => Ok None
             | Some _ => s ← dec_bytes o "MasterKey"; Ok (Some s)
             end;
      ks ← dec_list dec_key_ptr o "Keys";
      c ← dec_rotation o "RotationConfig";
      Ok (mkEncoded root ks c)
  | _ => Err ErrDecode
  end.

Section keyring.
Context `{RadixTree} `{BEnv} `{TermRange} `{JsonText}.
Import Keyring.

(** An instant outside the range of JSON times fails to encode. *)
Definition Marshal (times : list Z) (v : value) : E string :=
  if forallb time_json_ok times then mret (json_Marshal v) else throw ErrJSON.

Definition DecodeJSON_as {A} (dec : value → res A) (buf : string) : E A :=
  match json_Decode buf with
  | Some v => match dec v with Ok a => mret a | Err _ => throw ErrJSON end
  | None => throw ErrJSON
  end.

(** [Key.Serialize], of a nil pointer too. *)
Definition key_Serialize (k : option Key) : E string :=
  match k with
  | Some k => Marshal [InstallTime k] (enc_key k)
  | None => Marshal [] VNil
  end.

Definition DeserializeKey (buf : string) : E loc :=
  k ← wrapf "deserialization failed" (DecodeJSON_as dec_key buf); new_key k.

(** ** Operations *)

Definition NewKeyring : t := mk None ∅ 0 defaultRotationConfig.

(** [Clone] copies the map and shares what it points to. *)
Definition Clone (k : t) : t := mk (rootKey k) (keys k) (activeTerm k) (rotationConfig k).

Definition AddKey (k : t) (key : loc) : E t :=
  kv ← load key;
  match keys k !! Term kv with
  | Some existing =>
      ex ← load existing;
      if decide (Value kv = Value ex) then mret k
      else throw (New "conflicting key for term %d already installed")
  | None =>
      _ ← (if InstallTime kv =? 0 then
             now ← time_Now; store key (set_InstallTime now kv)
           else mret ());
      let clone := Clone k in
      let clone := mk (rootKey clone) (<[Term kv := key]> (keys clone))
                      (if activeTerm clone <? Term kv then Term kv else activeTerm clone)
                      (rotationConfig clone) in
      _ ← for_each (range_terms (keys clone)) (λ '(term, l),
            if term =? activeTerm clone then mret ()
            else kv ← load l; store l (set_Encryptions 0 kv));
      mret clone
  end.

Definition RemoveKey (k : t) (term : Z) : E t :=
  if term =? activeTerm k then throw (New "cannot remove active key")
  else match keys k !! term with
       | None => mret k
       | Some _ =>
           let clone := Clone k in
           mret (mk (rootKey clone) (delete term (keys clone)) (activeTerm clone)
                    (rotationConfig clone))
       end.

Definition ActiveTerm (k : t) : Z := activeTerm k.

Definition TermKey (k : t) (term : Z) : E (option Key) :=
  match keys k !! term with
  | None => mret None
  | Some l => kv ← load l; mret (Some kv)
  end.

Definition ActiveKey (k : t) : E (option Key) := TermKey k (activeTerm k).

Definition SetRootKey (k : t) (val : string) : E t :=
  l ← new_root val;
  let clone := Clone k in
  mret (mk (Some l) (keys clone) (activeTerm clone) (rotationConfig clone)).

(** The bytes of the root key, [None] for nil. *)
Definition RootKey (k : t) : E (option string) :=
  match rootKey k with
  | None => mret None
  | Some l => rs ← gets b_roots; s ← nonnil (rs !! l); mret (Some s)
  end.

Fixpoint load_all (ls : list (Z * loc)) : E (list Key) :=
  match ls with
  | [] => mret []
  | (_, l) :: ls => k ← load l; ks ← load_all ls; mret (k :: ks)
  end.

Definition Serialize (k : t) : E string :=
  root ← RootKey k;
  ks ← load_all (range_terms (keys k));
  Marshal (InstallTime <$> ks) (enc_keyring root ks (rotationConfig k)).

(** The loop over the decoded keys. *)
Fixpoint install_all (k : t) (ks : list (option Key)) : E t :=
  match ks with
  | [] => mret k
  | key :: ks =>
      key ← nonnil key;
      l ← new_key key;
      install_all (mk (rootKey k) (<[Term key := l]> (keys k))
                      (if activeTerm k <? Term key then Term key else activeTerm k)
                      (rotationConfig k)) ks
  end.

Definition DeserializeKeyring (buf : string) : E t :=
  enc ← wrapf "deserialization failed" (DecodeJSON_as dec_keyring buf);
  let k := NewKeyring in
  root ← match MasterKey enc with
         | None => mret None
         | Some s => l ← new_root s; mret (Some l)
         end;
  install_all (mk root (keys k) (activeTerm k) (Sanitize (RotationConfig_ enc))) (Keys enc).

Definition Zeroize (k : option t) (keysToo : bool) : E () :=
  match k with
  | None => mret ()
  | Some k =>
      _ ← match rootKey k with
          | None => mret ()
          | Some l => modify (λ w, set_roots (alter memzero l (b_roots w)) w)
          end;
      if keysToo then
        for_each (range_terms (keys k)) (λ '(_, l),
          kv ← load l; store l (set_Value (memzero (Value kv)) kv))
      else mret ()
  end.
End keyring.
