(* ===== verification/Barrier.v ===== *)
(** * [vault/barrier_aes_gcm.go]

    The operations of the security barrier.  An operation that holds the
    barrier's lock throughout is one program; [Put] and [Encrypt] give the
    lock up before they encrypt, so that each is two parts, [active_aead]
    and the rest. *)

From S2P Require Import Prelude GoLib GoSplit Storage Core AesGcm Encoding BarrierState KeyringOps.
Import Keyring.

Definition barrierInitPath : string := "barrier/init".
Definition keyringPath : string := "core/keyring".
Definition keyringPrefix : string := "core/".
Definition keyringUpgradePrefix : string := "core/upgrade/".
Definition rootKeyPath : string := "core/master".
Definition shamirKekPath : string := "core/shamir-kek".

Definition initialKeyTerm : Z := 1.
Definition termSize : Z := 4.
Definition AESGCMVersion1 : Z := 1.
Definition AESGCMVersion2 : Z := 2.
Definition MaxInt : Z := 2 ^ 63 - 1.

(** A plaintext above this size makes [gcm.Seal] panic. *)
Definition gcm_limit : Z := (2 ^ 32 - 2) * 16.

Definition NewAESGCMBarrier : AESGCMBarrier :=
  mkBar true None ∅ AESGCMVersion2 false 0 0 0.

Definition upgradePath (term : Z) : string := keyringUpgradePrefix +:+ pretty term.

Definition slen (s : string) : Z := Z.of_nat (String.length s).

Section barrier.
Context `{AEAD} `{RadixTree} `{BEnv} `{TermRange} `{JsonText}.

(** ** Encryption *)

Definition aeadFromKey (key : string) : E string :=
  if NewCipher key then mret key else throw (Errorf "failed to create cipher" (New "invalid key size")).

Definition get_keyring : E (option t) := gets (bar_keyring ∘ b_bar).

(** A method call on a nil keyring reads through a nil pointer. *)
Definition the_keyring : E t := k ← get_keyring; nonnil k.

Definition aeadForTerm (term : Z) : E (option string) :=
  keyring ← get_keyring;
  match keyring with
  | None => mret None
  | Some keyring =>
      cache ← gets (bar_cache ∘ b_bar);
      match cache !! term with
      | Some aead => mret (Some aead)
      | None =>
          key ← TermKey keyring term;
          match key with
          | None => mret None
          | Some key =>
              aead ← aeadFromKey (Value key);
              _ ← bar_modify (λ b, set_cache (<[term := aead]> (bar_cache b)) b);
              mret (Some aead)
          end
      end
  end.

(** A nil [cipher.AEAD] panics when used. *)
Definition encrypt (path : string) (term : Z) (gcm : option string) (plain : string) : E string :=
  gcm ← nonnil gcm;
  let extra := termSize + 1 + Z.of_nat NonceSize + Z.of_nat Overhead in
  if MaxInt - extra <? slen plain then throw ErrPlaintextTooLarge
  else
    version ← gets (currentAESGCMVersionByte ∘ b_bar);
    r ← rand_Read NonceSize;
    let '(nonce, err) := r in
    match err with
    | Some err => throw err
    | None =>
        if decide (String.length nonce = NonceSize) then
          let seal (aad : string) :=
            if gcm_limit <? slen plain then panic
            else mret (PutUint32 term +:+ String (to_byte version)
                         (nonce +:+ gcm_Seal gcm nonce plain aad)) in
          if version =? AESGCMVersion1 then seal ""
          else if version =? AESGCMVersion2 then seal path
          else panic
        else throw (New "unable to read enough random bytes to fill gcm nonce")
    end.

(** The output buffer is made with room for [len(raw)-gcm.NonceSize()]
    bytes: a negative capacity panics. *)
Definition decrypt (path : string) (gcm : string) (cipher : string) : E string :=
  if (String.length cipher <? 5 + NonceSize)%nat then throw (New "invalid cipher length")
  else
    let nonce := str_take NonceSize (str_drop 5 cipher) in
    let raw := str_drop (5 + NonceSize) cipher in
    if slen raw - Z.of_nat NonceSize <? 0 then panic
    else
      let open (aad : string) :=
        match gcm_Open gcm nonce raw aad with
        | Some plain => mret plain
        | None => throw ErrOpen
        end in
      match String.get 4 cipher with
      | Some v =>
          if of_byte v =? AESGCMVersion1 then open ""
          else if of_byte v =? AESGCMVersion2 then open path
          else throw (New "version bytes mis-match")
      | None => panic
      end.

Definition encryptTracked (path : string) (term : Z) (gcm : option string) (buf : string)
    : E string :=
  ct ← encrypt path term gcm buf;
  _ ← bar_modify (λ b, set_counters (wrap64 (UnaccountedEncryptions b + 1)) (RemoteEncryptions b)
                         (wrap64 (totalLocalEncryptions b + 1)) b);
  mret ct.

(** ** The keyring on disk *)

(** The first half of [persistKeyringInternal]: the keyring, under the root
    key. *)
Definition persist_keyring (keyring : t) : E () :=
  keyringBuf ← wrapf "failed to serialize keyring" (Serialize keyring);
  root ← RootKey keyring;
  gcm ← wrapf "failed to retrieve AES-GCM AEAD from root key" (aeadFromKey (default "" root));
  value ← wrapf "failed to encrypt barrier initial value"
            (encrypt keyringPath initialKeyTerm (Some gcm) keyringBuf);
  wrapf "failed to persist keyring" (disk_Put keyringPath value).

(** The second half: the root key, under the active key. *)
Definition persist_root (keyring : t) : E () :=
  root ← RootKey keyring;
  keyBuf ← wrapf "failed to serialize root key"
             (key_Serialize (Some (mkKey 1 1 (default "" root) 0 0)));
  activeKey ← ActiveKey keyring;
  activeKey ← nonnil activeKey;
  aead ← wrapf "failed to retrieve AES-GCM AEAD from active key" (aeadFromKey (Value activeKey));
  value ← wrapf "failed to encrypt and track active key value"
            (encryptTracked rootKeyPath (Term activeKey) (Some aead) keyBuf);
  wrapf "failed to persist root key" (disk_Put rootKeyPath value).

Definition persistKeyring (keyring : t) : E () :=
  _ ← persist_keyring keyring;
  persist_root keyring.

(** Persisting with a shorter timeout is the same operation. *)
Definition persistKeyringBestEffort (keyring : t) : E () := persistKeyring keyring.

(** What [Read] did not fill of the buffer is zero. *)
Definition GenerateKey : E string :=
  r ← reader_Read 32;
  let '(read, err) := r in
  match err with
  | Some err => throw err
  | None => mret (str_take 32 (read +:+ of_bytes (replicate 32 0%N)))
  end.

Definition key_size_ok (key : string) : bool := (16 <=? slen key) && (slen key <=? 32).

Definition key_size_error : error := New "key size must be %d or %d".

Definition Initialized : E bool :=
  initialized ← gets (bar_initialized ∘ b_bar);
  if initialized : bool then mret true
  else
    keys ← wrapf "failed to check for initialization" (disk_List keyringPrefix);
    if decide ("keyring" ∈ keys) then _ ← bar_modify (set_initialized true); mret true
    else
      out ← wrapf "failed to check for initialization" (disk_Get barrierInitPath);
      let there := match out with Some _ => true | None => false end in
      _ ← bar_modify (set_initialized there);
      mret there.

Definition putInternal (term : Z) (primary : option string) (key value : string) : E () :=
  ct ← encryptTracked key term primary value;
  disk_Put key ct.

Definition Initialize (key sealKey : string) : E () :=
  if negb (key_size_ok key) then throw key_size_error
  else
    alreadyInit ← Initialized;
    if alreadyInit : bool then throw ErrBarrierAlreadyInit
    else
      encryptionKey ← wrapf "failed to generate encryption key" GenerateKey;
      keyring ← SetRootKey NewKeyring key;
      l ← new_key (mkKey 1 1 encryptionKey 0 0);
      keyring ← wrapf "failed to create keyring" (AddKey keyring l);
      _ ← persistKeyring keyring;
      if 0 <? slen sealKey then
        primary ← aeadFromKey encryptionKey;
        wrapf "failed to store new seal key"
          (putInternal 1 (Some primary) shamirKekPath sealKey)
      else mret ().

Definition Sealed : E bool := gets (bar_sealed ∘ b_bar).

(** [if b.sealed { return ErrBarrierSealed }]. *)
Definition unsealed : E () :=
  s ← Sealed; if s : bool then throw ErrBarrierSealed else mret ().

Definition VerifyRoot (key : string) : E () :=
  _ ← unsealed;
  k ← the_keyring;
  root ← RootKey k;
  if decide (key = default "" root) then mret () else throw ErrBarrierInvalidKey.

Definition recoverKeyring (plaintext : string) : E () :=
  keyring ← wrapf "keyring deserialization failed" (DeserializeKeyring plaintext);
  bar_modify (λ b, set_keyring (Some keyring) (set_cache ∅ b)).

(** The term of a stored value, then its plaintext under the given key. *)
Definition open_stored (path gcm value : string) : E string :=
  term ← nonnil (Uint32 value);
  if negb (term =? initialKeyTerm) then throw (New "term mis-match")
  else
    r ← try (decrypt path gcm value);
    match r with
    | Ok plain => mret plain
    | Err err =>
        if Contains (error_text err) "message authentication failed"
        then throw ErrBarrierInvalidKey else throw err
    end.

Definition ReloadKeyring : E () :=
  k ← the_keyring;
  root ← RootKey k;
  gcm ← aeadFromKey (default "" root);
  out ← wrapf "failed to check for keyring" (disk_Get keyringPath);
  match out with
  | None => throw (New "keyring unexpectedly missing")
  | Some value =>
      plain ← open_stored keyringPath gcm value;
      _ ← bar_modify (set_counters 0 0 0);
      recoverKeyring plain
  end.

(** [lockSwitchedGet]. *)
Definition Get (key : string) : E (option string) :=
  _ ← unsealed;
  pe ← disk_Get key;
  match pe with
  | None => mret None
  | Some value =>
      if slen value <? 4 then throw (New "invalid value")
      else
        term ← nonnil (Uint32 value);
        gcm ← aeadForTerm term;
        match gcm with
        | None => throw (New "no decryption key available for term %d")
        | Some gcm => plain ← wrapf "decryption failed" (decrypt key gcm value); mret (Some plain)
        end
  end.

Definition ReloadRootKey : E () :=
  out ← wrapf "failed to read root key path" (Get rootKeyPath);
  match out with
  | None => mret ()
  | Some _ =>
      out ← wrapf "failed to read root key path" (Get rootKeyPath);
      match out with
      | None => mret ()
      | Some value =>
          l ← wrapf "failed to deserialize key" (DeserializeKey value);
          key ← load l;
          k ← the_keyring;
          root ← RootKey k;
          if decide (default "" root = Value key) then mret ()
          else
            k' ← SetRootKey k (Value key);
            _ ← bar_modify (set_keyring (Some k'));
            Zeroize (Some k) false
      end
  end.

(** [barrierInit], of the format before the keyring. *)
Definition dec_barrierInit (v : value) : res string :=
  match v with
  | VNil => Ok ""
  | VObj o => _ ← dec_int o "Version"; dec_bytes o "Key"
  | _ => Err ErrDecode
  end.

(** The part of [Unseal] for a barrier written before keyrings. *)
Definition unseal_legacy (key gcm : string) : E () :=
  out ← wrapf "failed to check for initialization" (disk_Get barrierInitPath);
  match out with
  | None => throw ErrBarrierNotInit
  | Some value =>
      plain ← open_stored barrierInitPath gcm value;
      r ← try (DecodeJSON_as dec_barrierInit plain);
      match r with
      | Err _ => throw (New "failed to unmarshal barrier init file")
      | Ok init_Key =>
          keyring ← SetRootKey NewKeyring key;
          l ← new_key (mkKey 1 1 init_Key 0 0);
          keyring ← wrapf "failed to create keyring" (AddKey keyring l);
          _ ← persistKeyring keyring;
          _ ← wrapf "failed to delete barrier init file" (disk_Delete barrierInitPath);
          bar_modify (λ b, set_sealed false (set_keyring (Some keyring) b))
      end
  end.

Definition Unseal (key : string) : E () :=
  s ← Sealed;
  if negb s then mret ()
  else
    gcm ← aeadFromKey key;
    out ← wrapf "failed to check for keyring" (disk_Get keyringPath);
    match out with
    | Some value =>
        plain ← open_stored keyringPath gcm value;
        _ ← wrapf "keyring deserialization failed" (recoverKeyring plain);
        bar_modify (set_sealed false)
    | None => unseal_legacy key gcm
    end.

Definition Seal : E () :=
  _ ← bar_modify (set_cache ∅);
  k ← get_keyring;
  _ ← Zeroize k true;
  bar_modify (λ b, set_sealed true (set_keyring None b)).

Definition Rotate : E Z :=
  _ ← unsealed;
  encrypt ← wrapf "failed to generate encryption key" GenerateKey;
  k ← the_keyring;
  let term := ActiveTerm k in
  let newTerm := uint32 (term + 1) in
  if newTerm <? term then
    throw (New "failed to generate a new term value due to integer overflow")
  else
    l ← new_key (mkKey newTerm 1 encrypt 0 0);
    newKeyring ← wrapf "failed to add new encryption key" (AddKey k l);
    _ ← persistKeyring newKeyring;
    _ ← bar_modify (set_counters 0 0 0);
    _ ← bar_modify (set_keyring (Some newKeyring));
    mret newTerm.

(** ** Upgrades of standby nodes *)

Definition CreateUpgrade (term : Z) : E () :=
  _ ← unsealed;
  k ← the_keyring;
  termKey ← TermKey k term;
  buf ← key_Serialize termKey;
  let prevTerm := uint32 (term - 1) in
  primary ← aeadForTerm prevTerm;
  let key := upgradePath prevTerm in
  value ← encryptTracked key prevTerm primary buf;
  disk_Put key value.

Definition Delete (key : string) : E () :=
  _ ← unsealed; disk_Delete key.

Definition List (prefix : string) : E (list string) :=
  _ ← unsealed; disk_List prefix.

Definition DestroyUpgrade (term : Z) : E () := Delete (upgradePath (uint32 (term - 1))).

Definition CheckUpgrade : E (bool * Z) :=
  _ ← unsealed;
  k ← the_keyring;
  entry ← Get (upgradePath (ActiveTerm k));
  match entry with
  | None => mret (false, 0)
  | Some _ =>
      _ ← unsealed;
      k ← the_keyring;
      entry ← Get (upgradePath (ActiveTerm k));
      match entry with
      | None => mret (false, 0)
      | Some value =>
          l ← DeserializeKey value;
          newKeyring ← wrapf "failed to add new encryption key" (AddKey k l);
          _ ← bar_modify (set_keyring (Some newKeyring));
          key ← load l;
          mret (true, Term key)
      end
  end.

(** ** The root key *)

Definition updateRootKeyCommon (key : string) : E t :=
  _ ← unsealed;
  if negb (key_size_ok key) then throw key_size_error
  else k ← the_keyring; SetRootKey k key.

Definition Rekey (key : string) : E () :=
  newKeyring ← updateRootKeyCommon key;
  _ ← persistKeyring newKeyring;
  oldKeyring ← get_keyring;
  _ ← bar_modify (set_keyring (Some newKeyring));
  Zeroize oldKeyring false.

Definition barrier_SetRootKey (key : string) : E () :=
  newKeyring ← updateRootKeyCommon key;
  oldKeyring ← get_keyring;
  _ ← bar_modify (set_keyring (Some newKeyring));
  Zeroize oldKeyring false.

(** ** Reading and writing *)

(** The term and the cipher for a write, read under the lock. *)
Definition active_aead : E (Z * option string) :=
  _ ← unsealed;
  k ← the_keyring;
  let term := ActiveTerm k in
  primary ← aeadForTerm term;
  mret (term, primary).

Definition Put (key value : string) : E () :=
  r ← active_aead;
  let '(term, primary) := r in
  putInternal term primary key value.

Definition Encrypt (key plaintext : string) : E string :=
  r ← active_aead;
  let '(term, primary) := r in
  encryptTracked key term primary plaintext.

Definition Decrypt (key ciphertext : string) : E string :=
  _ ← unsealed;
  if slen ciphertext =? 0 then throw (New "empty ciphertext")
  else if slen ciphertext <? 4 then throw (New "invalid ciphertext term")
  else
    term ← nonnil (Uint32 ciphertext);
    gcm ← aeadForTerm term;
    match gcm with
    | None => throw (New "no decryption key available for term %d")
    | Some gcm => wrapf "decryption failed" (decrypt key gcm ciphertext)
    end.

Definition get_Keyring : E t := _ ← unsealed; k ← the_keyring; mret (Clone k).

(** ** Counting encryptions *)

Definition encryptions : E Z :=
  k ← get_keyring;
  match k with
  | None => mret 0
  | Some k =>
      activeKey ← ActiveKey k;
      match activeKey with
      | None => mret 0
      | Some activeKey =>
          u ← gets (UnaccountedEncryptions ∘ b_bar);
          mret (wrap64 (u + wrap64 (Encryptions activeKey)))
      end
  end.

Record KeyInfo := mkKeyInfo {
  ki_Term : Z;
  ki_InstallTime : Z;
  ki_Encryptions : Z;
}.

Definition ActiveKeyInfo : E KeyInfo :=
  _ ← unsealed;
  k ← the_keyring;
  key ← TermKey k (ActiveTerm k);
  key ← nonnil key;
  n ← encryptions;
  mret (mkKeyInfo (ActiveTerm k) (InstallTime key) n).

Definition AddRemoteEncryptions (n : Z) : E () :=
  bar_modify (λ b, set_counters (wrap64 (UnaccountedEncryptions b + n))
                     (wrap64 (RemoteEncryptions b + n)) (totalLocalEncryptions b) b).

Definition add_Unaccounted (n : Z) : E () :=
  bar_modify (λ b, set_counters (wrap64 (UnaccountedEncryptions b + n)) (RemoteEncryptions b)
                     (totalLocalEncryptions b) b).

Definition ConsumeEncryptionCount (consumer : Z → option error) : E () :=
  k ← get_keyring;
  match k with
  | None => mret ()
  | Some _ =>
      c ← gets (UnaccountedEncryptions ∘ b_bar);
      match consumer c with
      | Some err => throw err
      | None => if 0 <? c then add_Unaccounted (- c) else mret ()
      end
  end.

Definition RotationConfig : E KeyRotationConfig :=
  k ← get_keyring;
  match k with
  | None => throw (New "keyring not yet present")
  | Some k => mret (config_Clone (rotationConfig k))
  end.

Definition SetRotationConfig (rotConfig : KeyRotationConfig) : E () :=
  let rotConfig := Sanitize rotConfig in
  k ← the_keyring;
  if negb (config_Equals rotConfig (rotationConfig k)) then
    let k' := mk (rootKey k) (keys k) (activeTerm k) rotConfig in
    _ ← bar_modify (set_keyring (Some k'));
    persistKeyring k'
  else mret ().

(** The active key is changed in place, seen by the clone that is persisted. *)
Definition persistEncryptions : E () :=
  s ← Sealed;
  if s : bool then mret ()
  else
    upe ← gets (UnaccountedEncryptions ∘ b_bar);
    if 0 <? upe then
      k ← the_keyring;
      l ← nonnil (keys k !! activeTerm k);
      activeKey ← load l;
      let newEncs := wrap64 (upe + 1) in
      _ ← store l (set_Encryptions (uint64 (Encryptions activeKey + newEncs)) activeKey);
      r ← try (persistKeyringBestEffort (Clone k));
      match r with
      | Err err =>
          activeKey ← load l;
          _ ← store l (set_Encryptions (uint64 (Encryptions activeKey - newEncs)) activeKey);
          throw err
      | Ok _ => add_Unaccounted (- newEncs)
      end
    else mret ().

Definition oneYear : Z := 24 * 365 * Hour.

Definition time_Since (t : Z) : E Z := now ← time_Now; mret (time_Sub now t).

(** Why a rotation is due, the empty string if it is not. *)
Definition rotation_reason (k : t) : E string :=
  rc ← RotationConfig;
  if Disabled rc then mret ""
  else
    activeKey ← ActiveKey k;
    ops ← encryptions;
    activeKey ← nonnil activeKey;
    old ← (if (Encryptions activeKey =? 0) && negb (InstallTime activeKey =? 0)
           then age ← time_Since (InstallTime activeKey); mret (oneYear <? age)
           else mret false);
    if old : bool then mret "legacy rotation"
    else if MaxOperations rc <? ops then mret "reached max operations"
    else if 0 <? Interval rc then
      age ← time_Since (InstallTime activeKey);
      mret (if Interval rc <? age then "rotation interval reached" else "")
    else mret "".

Definition CheckBarrierAutoRotate : E string :=
  k ← get_keyring;
  reason ← match k with None => mret "" | Some k => rotation_reason k end;
  if decide (reason = "") then
    k ← get_keyring;
    match k with
    | None => mret reason
    | Some _ => _ ← persistEncryptions; mret reason
    end
  else mret reason.
End barrier.
