(* ===== verification/Lease.v ===== *)
(** * [sdk/framework/lease.go]: the time to live of a lease

    [CalculateTTL] combines what the caller, the backend, the role and the
    mount ask for. Durations are 64-bit; the clock is an argument. *)

From S2P Require Import Prelude GoLib Core.

(** [humanDuration]: a duration without its zero elements. *)
Definition humanDuration (d : Z) : string :=
  if d =? 0 then "0s"
  else
    let s := Duration_String d in
    let s := if HasSuffix s "m0s" then str_take (String.length s - 2) s else s in
    match Index s "h0m" with
    | Some (S _ as idx) => str_take (idx + 1) s +:+ str_drop (idx + 3) s
    | _ => s
    end.

Example humanDuration_ex1 : humanDuration (90 * Minute) = "1h30m".
Proof. vm_compute. reflexivity. Qed.
Example humanDuration_ex2 : humanDuration (2 * Hour) = "2h".
Proof. vm_compute. reflexivity. Qed.

(** The mount's maximum, unless the backend or the caller is stricter. *)
Definition effective_max (sysView : SystemView) (backendMaxTTL explicitMaxTTL : Z) : Z :=
  let maxTTL := MaxLeaseTTL sysView in
  let maxTTL := if (0 <? backendMaxTTL) && (backendMaxTTL <? maxTTL)
                then backendMaxTTL else maxTTL in
  if (0 <? explicitMaxTTL) && (explicitMaxTTL <? maxTTL) then explicitMaxTTL else maxTTL.

(** The proposed time to live, its warning, and the instant it may not pass
    (Go's zero time when there is none). *)
Definition proposed_ttl (sysView : SystemView)
    (increment backendTTL period explicitMaxTTL maxTTL startTime : Z)
    : Z * list (string * Z * Z) * Z :=
  if 0 <? period then
    let '(period, warnings) :=
      if maxTTL <? period then
        (maxTTL, [("period of %q exceeded the effective max_ttl of %q; period value is capped accordingly",
                   period, maxTTL)])
      else (period, []) in
    (period, warnings, if 0 <? explicitMaxTTL then startTime + explicitMaxTTL else 0)
  else
    let ttl := if 0 <? increment then increment
               else if 0 <? backendTTL then backendTTL
               else DefaultLeaseTTL sysView in
    (ttl, [], startTime + maxTTL).

(** A warning is the format and the two durations printed in it by
    [humanDuration]. *)
Definition CalculateTTL (sysView : SystemView)
    (increment backendTTL period backendMaxTTL explicitMaxTTL startTime now : Z)
    : res (Z * list (string * Z * Z)) :=
  let now := Truncate now Second in
  let startTime := if IsZero startTime then now else Truncate startTime Second in
  let maxTTL := effective_max sysView backendMaxTTL explicitMaxTTL in
  if maxTTL <=? 0 then Err ErrMaxTTLNotPositive
  else
    let '(ttl, warnings, maxValidTime) :=
      proposed_ttl sysView increment backendTTL period explicitMaxTTL maxTTL startTime in
    if IsZero maxValidTime then Ok (ttl, warnings)
    else
      let maxValidTTL := time_Sub maxValidTime now in
      if maxValidTTL <=? 0 then Err ErrPastMaxTTL
      else if wrap64 (maxValidTTL - ttl) <? 0 then
        Ok (maxValidTTL, warnings ++
              [("TTL of %q exceeded the effective max_ttl of %q; TTL value is capped accordingly",
                ttl, maxValidTTL)])
      else Ok (ttl, warnings).

Definition ttl_warning (w : string * Z * Z) : value :=
  let '(fmt, d, m) := w in VSprintf fmt [VStr (humanDuration d); VStr (humanDuration m)].
