(* ===== verification/ApprovalTypes.v ===== *)
(** * The records of the approval workflow and their JSON form

    The structs of [vault/approval_core.go], and what [json] makes of them
    according to their field tags: [omitempty] drops an empty string, a
    zero number, [false] and an empty map, and never drops a [time.Time]. *)

From S2P Require Import Prelude GoLib Storage Core.

Record ApprovalRule := mkRule {
  RuleID : string;
  Description : string;
  TargetMountPath : string;
  AuthorizedApprovers : list string;
  ApprovalsRequired : Z;
  SlackWebhookURL : string;
  CreatedByEntityID : string;
  AllowSelfApproval : bool;
}.

Record ApprovalRecord := mkRecord {
  ApproverEntityID : string;
  rec_ApprovedAt : Z;
}.

Record PendingRequest := mkPending {
  RequestID : string;
  p_RuleID : string;
  OriginalPath : string;
  OriginalOperation : string;
  OriginalData : option (gmap string value);
  OriginalHeaders : option (gmap string (list string));
  OriginalMountPoint : string;
  RequesterEntityID : string;
  RequesterDisplayName : string;
  Approvals : list ApprovalRecord;
  Status : string;
  CreatedAt : Z;
  ExpiresAt : Z;
  CredentialData : option (gmap string value);
  ApprovedAt : Z;
  SecretTTL : Z;
  SecretMaxTTL : Z;
  Justification : string;
}.

Record ApprovalHistoryEntry := mkHistory {
  h_RequestID : string;
  h_RuleID : string;
  h_OriginalPath : string;
  h_RequesterEntityID : string;
  h_RequesterDisplayName : string;
  h_Justification : string;
  h_Status : string;
  h_CreatedAt : Z;
  ResolvedAt : Z;
  ResolvedBy : string;
  ResolvedByName : string;
  HistoryExpiresAt : Z;
}.

(** ** Assignments to the fields of a pending request *)

Definition set_Status (s : string) (p : PendingRequest) : PendingRequest :=
  mkPending (RequestID p) (p_RuleID p) (OriginalPath p) (OriginalOperation p)
    (OriginalData p) (OriginalHeaders p) (OriginalMountPoint p) (RequesterEntityID p)
    (RequesterDisplayName p) (Approvals p) s (CreatedAt p) (ExpiresAt p)
    (CredentialData p) (ApprovedAt p) (SecretTTL p) (SecretMaxTTL p) (Justification p).

Definition set_Approvals (l : list ApprovalRecord) (p : PendingRequest) : PendingRequest :=
  mkPending (RequestID p) (p_RuleID p) (OriginalPath p) (OriginalOperation p)
    (OriginalData p) (OriginalHeaders p) (OriginalMountPoint p) (RequesterEntityID p)
    (RequesterDisplayName p) l (Status p) (CreatedAt p) (ExpiresAt p)
    (CredentialData p) (ApprovedAt p) (SecretTTL p) (SecretMaxTTL p) (Justification p).

Definition set_CredentialData (m : option (gmap string value)) (p : PendingRequest)
    : PendingRequest :=
  mkPending (RequestID p) (p_RuleID p) (OriginalPath p) (OriginalOperation p)
    (OriginalData p) (OriginalHeaders p) (OriginalMountPoint p) (RequesterEntityID p)
    (RequesterDisplayName p) (Approvals p) (Status p) (CreatedAt p) (ExpiresAt p)
    m (ApprovedAt p) (SecretTTL p) (SecretMaxTTL p) (Justification p).

Definition set_ApprovedAt (t : Z) (p : PendingRequest) : PendingRequest :=
  mkPending (RequestID p) (p_RuleID p) (OriginalPath p) (OriginalOperation p)
    (OriginalData p) (OriginalHeaders p) (OriginalMountPoint p) (RequesterEntityID p)
    (RequesterDisplayName p) (Approvals p) (Status p) (CreatedAt p) (ExpiresAt p)
    (CredentialData p) t (SecretTTL p) (SecretMaxTTL p) (Justification p).

Definition set_SecretTTLs (ttl maxttl : Z) (p : PendingRequest) : PendingRequest :=
  mkPending (RequestID p) (p_RuleID p) (OriginalPath p) (OriginalOperation p)
    (OriginalData p) (OriginalHeaders p) (OriginalMountPoint p) (RequesterEntityID p)
    (RequesterDisplayName p) (Approvals p) (Status p) (CreatedAt p) (ExpiresAt p)
    (CredentialData p) (ApprovedAt p) ttl maxttl (Justification p).

(** ** JSON *)

Definition enc_str (s : string) : value := VStr (valid_utf8 s).

Definition omit_str (k s : string) : list (string * value) :=
  if decide (s = "") then [] else [(k, enc_str s)].
Definition omit_num (k : string) (z : Z) : list (string * value) :=
  if decide (z = 0) then [] else [(k, VNum z)].
Definition omit_bool (k : string) (b : bool) : list (string * value) :=
  if b then [(k, VBool true)] else [].
Definition omit_map (k : string) (m : option (gmap string value)) : list (string * value) :=
  match m with
  | None => []
  | Some m' => if decide (m' = ∅) then [] else [(k, enc_map id m)]
  end.

Definition enc_rule (r : ApprovalRule) : value :=
  VObj ([("rule_id", enc_str (RuleID r))]
    ++ omit_str "description" (Description r)
    ++ [("target_mount_path", enc_str (TargetMountPath r));
        ("authorized_approvers", VArr (enc_str <$> AuthorizedApprovers r));
        ("approvals_required", VNum (ApprovalsRequired r))]
    ++ omit_str "slack_webhook_url" (SlackWebhookURL r)
    ++ omit_str "created_by_entity_id" (CreatedByEntityID r)
    ++ omit_bool "allow_self_approval" (AllowSelfApproval r)).

Definition dec_rule (v : value) : res ApprovalRule :=
  match v with
  | VObj o =>
      id ← dec_string o "rule_id";
      desc ← dec_string o "description";
      target ← dec_string o "target_mount_path";
      approvers ← dec_list dec_str_elem o "authorized_approvers";
      n ← dec_int o "approvals_required";
      url ← dec_string o "slack_webhook_url";
      by_id ← dec_string o "created_by_entity_id";
      self ← dec_bool o "allow_self_approval";
      Ok (mkRule id desc target approvers n url by_id self)
  | VNil => Ok (mkRule "" "" "" [] 0 "" "" false)
  | _ => Err ErrDecode
  end.

Definition enc_record (a : ApprovalRecord) : value :=
  VObj [("approver_entity_id", enc_str (ApproverEntityID a));
        ("approved_at", VTime (rec_ApprovedAt a))].

Definition dec_record (v : value) : res ApprovalRecord :=
  match v with
  | VObj o =>
      id ← dec_string o "approver_entity_id";
      t ← dec_time o "approved_at";
      Ok (mkRecord id t)
  | VNil => Ok (mkRecord "" 0)
  | _ => Err ErrDecode
  end.

(** The elements of a header map; the values are lists of strings. *)
Definition enc_strs (l : list string) : value := VArr (enc_str <$> l).
Definition dec_strs (v : value) : res (list string) :=
  match v with
  | VArr l => mapR dec_str_elem l
  | VNil => Ok []
  | _ => Err ErrDecode
  end.

Definition enc_headers (m : option (gmap string (list string))) : value :=
  match m with
  | None => VNil
  | Some m => VObj (prod_map valid_utf8 enc_strs <$> map_to_list m)
  end.

Definition enc_pending (p : PendingRequest) : value :=
  VObj ([("request_id", enc_str (RequestID p));
         ("rule_id", enc_str (p_RuleID p));
         ("original_path", enc_str (OriginalPath p));
         ("original_operation", enc_str (OriginalOperation p));
         ("original_data", enc_map id (OriginalData p));
         ("original_headers", enc_headers (OriginalHeaders p));
         ("original_mount_point", enc_str (OriginalMountPoint p));
         ("requester_entity_id", enc_str (RequesterEntityID p));
         ("requester_display_name", enc_str (RequesterDisplayName p));
         ("approvals", VArr (enc_record <$> Approvals p));
         ("status", enc_str (Status p));
         ("created_at", VTime (CreatedAt p));
         ("expires_at", VTime (ExpiresAt p))]
    ++ omit_map "credential_data" (CredentialData p)
    ++ [("approved_at", VTime (ApprovedAt p))]
    ++ omit_num "secret_ttl" (SecretTTL p)
    ++ omit_num "secret_max_ttl" (SecretMaxTTL p)
    ++ omit_str "justification" (Justification p)).

Definition dec_pending (v : value) : res PendingRequest :=
  match v with
  | VObj o =>
      id ← dec_string o "request_id";
      rule ← dec_string o "rule_id";
      path ← dec_string o "original_path";
      op ← dec_string o "original_operation";
      data ← dec_map Ok o "original_data";
      headers ← dec_map dec_strs o "original_headers";
      mount ← dec_string o "original_mount_point";
      entity ← dec_string o "requester_entity_id";
      name ← dec_string o "requester_display_name";
      approvals ← dec_list dec_record o "approvals";
      status ← dec_string o "status";
      created ← dec_time o "created_at";
      expires ← dec_time o "expires_at";
      cred ← dec_map Ok o "credential_data";
      approved ← dec_time o "approved_at";
      ttl ← dec_int o "secret_ttl";
      maxttl ← dec_int o "secret_max_ttl";
      just ← dec_string o "justification";
      Ok (mkPending id rule path op data headers mount entity name approvals status
            created expires cred approved ttl maxttl just)
  | VNil => Ok (mkPending "" "" "" "" None None "" "" "" [] "" 0 0 None 0 0 0 "")
  | _ => Err ErrDecode
  end.

Definition enc_history (h : ApprovalHistoryEntry) : value :=
  VObj ([("request_id", enc_str (h_RequestID h));
         ("rule_id", enc_str (h_RuleID h));
         ("original_path", enc_str (h_OriginalPath h));
         ("requester_entity_id", enc_str (h_RequesterEntityID h));
         ("requester_display_name", enc_str (h_RequesterDisplayName h))]
    ++ omit_str "justification" (h_Justification h)
    ++ [("status", enc_str (h_Status h));
        ("created_at", VTime (h_CreatedAt h));
        ("resolved_at", VTime (ResolvedAt h))]
    ++ omit_str "resolved_by" (ResolvedBy h)
    ++ omit_str "resolved_by_name" (ResolvedByName h)
    ++ [("history_expires_at", VTime (HistoryExpiresAt h))]).

Definition dec_history (v : value) : res ApprovalHistoryEntry :=
  match v with
  | VObj o =>
      id ← dec_string o "request_id";
      rule ← dec_string o "rule_id";
      path ← dec_string o "original_path";
      entity ← dec_string o "requester_entity_id";
      name ← dec_string o "requester_display_name";
      just ← dec_string o "justification";
      status ← dec_string o "status";
      created ← dec_time o "created_at";
      resolved ← dec_time o "resolved_at";
      by_id ← dec_string o "resolved_by";
      by_name ← dec_string o "resolved_by_name";
      expires ← dec_time o "history_expires_at";
      Ok (mkHistory id rule path entity name just status created resolved by_id by_name expires)
  | VNil => Ok (mkHistory "" "" "" "" "" "" "" 0 0 "" "" 0)
  | _ => Err ErrDecode
  end.

(** [logical.StorageEntryJSON]: fails when a [time.Time] of the struct is
    outside the years JSON can carry. *)
Definition StorageEntryJSON (k : string) (times : list Z) (v : value)
    : res (StorageEntry blob) :=
  if forallb time_json_ok times then Ok (mkEntry k (Doc v)) else Err ErrEncode.

(** [StorageEntry.DecodeJSON], for the decoder of the target struct. *)
Definition DecodeJSON {A} (dec : value → res A) (e : StorageEntry blob) : res A :=
  match Value e with Doc v => dec v | NotJSON => Err ErrDecode end.
