(* ===== verification/ApprovalCore.v ===== *)
(** * [vault/approval_core.go]: rules, interception, execution, history

    One definition per function of the file, in its order. A function that
    returns a response and an error returns a pair of options; a
    function that mutates the pending request it is given returns the mutated
    request as well. Log lines have no effect and are left out. *)

From S2P Require Import Prelude GoLib GoSplit Storage Core ApprovalTypes.

Definition approvalStoragePrefix : string := "approvals/".
Definition approvalRequestTTL : Z := 1 * Hour.
Definition approvalCredentialTTL : Z := 90 * Minute.
Definition approvalHistoryTTL : Z := 7 * 24 * Hour.

(** [time.Since(t)]. *)
Definition time_Since (t : Z) : handler Z := now ← trigger Now; Ret (time_Sub now t).

(** ** Context bypass key *)

(** The context of a request: whether the bypass key is set in it. *)
Record Ctx := mkCtx { ctxKeyApprovalBypass : option bool }.
Definition withApprovalBypass (ctx : Ctx) : Ctx := mkCtx (Some true).
Definition isApprovalBypass (ctx : Ctx) : bool := default false (ctxKeyApprovalBypass ctx).

(** ** Storage helpers *)

Definition approvalStorage (c : Core) : Storage coreE blob :=
  barrier_storage (barrier_SubView (systemBarrierView c) approvalStoragePrefix).

(** The common shape of a typed read: [nil] for an absent entry. *)
Definition get_entry {A} (dec : value → res A) (c : Core) (key : string)
    : handler (res (option A)) :=
  entry ← Get (approvalStorage c) key;
  Ret (match entry with
       | Err err => Err err
       | Ok None => Ok None
       | Ok (Some e) => match DecodeJSON dec e with
                        | Err err => Err err
                        | Ok a => Ok (Some a)
                        end
       end).

Definition getApprovalRule (c : Core) (ruleID : string) : handler (res (option ApprovalRule)) :=
  get_entry dec_rule c ("config/" +:+ ruleID).

Definition put_entry (c : Core) (e : res (StorageEntry blob)) : handler (option goerr) :=
  match e with
  | Err err => Ret (Some err)
  | Ok entry => Put (approvalStorage c) (Some entry)
  end.

Definition putApprovalRule (c : Core) (rule : ApprovalRule) : handler (option goerr) :=
  put_entry c (StorageEntryJSON ("config/" +:+ RuleID rule) [] (enc_rule rule)).

Definition pending_times (r : PendingRequest) : list Z :=
  CreatedAt r :: ExpiresAt r :: ApprovedAt r :: (rec_ApprovedAt <$> Approvals r).

Definition storePendingRequest (c : Core) (r : PendingRequest) : handler (option goerr) :=
  put_entry c (StorageEntryJSON ("pending/" +:+ RequestID r) (pending_times r) (enc_pending r)).

Definition getPendingRequest (c : Core) (id : string) : handler (res (option PendingRequest)) :=
  get_entry dec_pending c ("pending/" +:+ id).

(** The loops over a listing read each entry and [continue] on a failed
    read, an absent entry or an entry that does not decode. *)
Definition read_listed {A} (dec : value → res A) (c : Core) (key : string)
    : handler (option A) :=
  entry ← Get (approvalStorage c) key;
  Ret (match entry with
       | Ok (Some e) => match DecodeJSON dec e with Ok a => Some a | Err _ => None end
       | _ => None
       end).

Definition sweepPendingRequestsByRule (c : Core) (ruleID : string) : handler (option goerr) :=
  keys ← List (approvalStorage c) "pending/";
  match keys with
  | Err err => Ret (Some err)
  | Ok keys =>
      _ ← range (R := Empty_set) keys () (λ key _,
        r ← read_listed dec_pending c ("pending/" +:+ key);
        match r with
        | None => Ret (inl ())
        | Some r =>
            if decide (p_RuleID r = ruleID) then
              _ ← Delete (approvalStorage c) ("pending/" +:+ key); Ret (inl ())
            else Ret (inl ())
        end);
      Ret None
  end.

(** ** Path matching *)

(** One rune of the sanitizer's loop. *)
Definition sanitize_rune (r : N) : list N :=
  if (r =? 0x3C)%N then bytes "&lt;"
  else if (r =? 0x3E)%N then bytes "&gt;"
  else if (r =? 0x26)%N then bytes "&amp;"
  else if (0x20 <=? r)%N && negb (r =? 0x7F)%N then encode_rune r
  else [].

Definition maxLen : nat := 1000.

Definition sanitizeJustification (s : string) : string :=
  if decide (s = "") then ""
  else
    let result := TrimSpace (concat (sanitize_rune <$> runes (bytes s))) in
    of_bytes (if (maxLen <? length result)%nat then take maxLen result else result).

Definition approvalRuleMatchesPath (rule : ApprovalRule) (reqPath : string) : bool :=
  let p := TargetMountPath rule in
  if decide (p = "*") then true
  else if HasSuffix p "/*" then
    let prefix := TrimSuffix p "/*" in
    bool_decide (reqPath = prefix) || HasPrefix reqPath (prefix +:+ "/")
  else bool_decide (p = reqPath).

(** ** Deduplication guard *)

Definition Resp := (option Response * option goerr)%type.

(** The body of the loop for one stored request; [inr] is a [return]. *)
Definition dedup_body (c : Core) (req : Request) (key : string) (_ : ())
    : handler (() + Resp) :=
  r ← read_listed dec_pending c ("pending/" +:+ key);
  match r with
  | None => Ret (inl ())
  | Some existing =>
    if negb (bool_decide (RequesterEntityID existing = req_EntityID req))
       || negb (bool_decide (OriginalPath existing = req_Path req))
    then Ret (inl ())
    else if decide (Status existing = "pending") then
      now ← trigger Now;
      if Before now (ExpiresAt existing) then
        Ret (inr (RespondWithStatusCode
          (Some (ErrorResponse "you already have a pending approval request for %q (request ID: %s). Please wait for an admin to review it before submitting again."
             [VStr (req_Path req); VStr (RequestID existing)])) req StatusBadRequest))
      else
        _ ← Delete (approvalStorage c) ("pending/" +:+ key); Ret (inl ())
    else if decide (Status existing = "approved") then
      since ← (match CredentialData existing with
               | Some _ =>
                   if IsZero (ApprovedAt existing) then Ret None
                   else s ← time_Since (ApprovedAt existing); Ret (Some s)
               | None => Ret None
               end);
      if from_option (λ s, s <? approvalCredentialTTL) false since then
        since' ← time_Since (ApprovedAt existing);
        let remaining := wrap64 (approvalCredentialTTL - since') in
        Ret (inr (RespondWithStatusCode
          (Some (ErrorResponse "you have an approved, unread credential for %q ready to retrieve (request ID: %s, expires in %d minutes). Please visit the 'My Requests' tab to view it before requesting a new one."
             [VStr (req_Path req); VStr (RequestID existing); VNum (dur_in Minute remaining)]))
          req StatusBadRequest))
      else
        _ ← Delete (approvalStorage c) ("pending/" +:+ key); Ret (inl ())
    else Ret (inl ())
  end.

Definition checkActiveApprovalRequest (c : Core) (req : Request) : handler Resp :=
  keys ← List (approvalStorage c) "pending/";
  match keys with
  | Err _ => Ret (None, None)
  | Ok keys =>
      r ← range keys () (dedup_body c req);
      Ret (match r with inl _ => (None, None) | inr resp => resp end)
  end.

(** ** Core interceptor *)

(** The loop that finds the first matching rule in listing order. *)
Definition matching_rule (c : Core) (keys : list string) (path : string)
    : handler (option ApprovalRule) :=
  r ← range keys () (λ key _,
    rule ← read_listed dec_rule c ("config/" +:+ key);
    Ret (match rule with
         | Some rule => if approvalRuleMatchesPath rule path then inr rule else inl ()
         | None => inl ()
         end));
  Ret (match r with inl _ => None | inr rule => Some rule end).

Definition blockedHeaders : list string :=
  ["X-Vault-Token"; "Authorization"; "X-Vault-Wrap-Ttl"; "X-Vault-Wrap-Format";
   "X-Vault-Namespace"; "X-Vault-Mfa"].

Definition safe_headers (headers : option (gmap string (list string)))
    : gmap string (list string) :=
  filter (λ kv, CanonicalHeaderKey kv.1 ∉ blockedHeaders) (default ∅ headers).

Definition request_justification (headers : option (gmap string (list string))) : string :=
  match default ∅ headers !! "X-Vault-Justification" with
  | Some (v :: _) => sanitizeJustification v
  | _ => ""
  end.

(** The request as it is parked. *)
Definition parked (id : string) (rule : ApprovalRule) (req : Request) (now : Z)
    : PendingRequest :=
  {| RequestID := id;
     p_RuleID := RuleID rule;
     OriginalPath := req_Path req;
     OriginalOperation := req_Operation req;
     OriginalData := req_Data req;
     OriginalHeaders := Some (safe_headers (req_Headers req));
     OriginalMountPoint := req_MountPoint req;
     RequesterEntityID := req_EntityID req;
     RequesterDisplayName := req_DisplayName req;
     Approvals := [];
     Status := "pending";
     CreatedAt := now;
     ExpiresAt := now + approvalRequestTTL;
     CredentialData := None;
     ApprovedAt := 0;
     SecretTTL := 0;
     SecretMaxTTL := 0;
     Justification := request_justification (req_Headers req) |}.

(** The paths and operations never intercepted. *)
Definition exempt_path (path : string) : bool :=
  HasPrefix path "sys/" || HasPrefix path "auth/" || HasPrefix path "cubbyhole/"
  || HasPrefix path "identity/".

Definition intercepted_op (op : string) : bool :=
  bool_decide (op = ReadOperation) || bool_decide (op = UpdateOperation)
  || bool_decide (op = CreateOperation).

Definition has_root (policies : list string) : bool := bool_decide ("root" ∈ policies).

(** The display names given to the notification: an approver without a named
    entity is shown by its ID. *)
Fixpoint approver_names (c : Core) (ids : list string) : handler (list string) :=
  match ids with
  | [] => Ret []
  | id :: ids' =>
      name ← (if identityStore c then
                entity ← trigger (MemDBEntityByID id);
                Ret (match entity with
                     | Ok (Some e) =>
                         if decide (entity_Name e = "") then id else entity_Name e
                     | _ => id
                     end)
              else Ret id);
      names ← approver_names c ids';
      Ret (name :: names)
  end.

(** ** Slack notification *)

Definition nl : string := String (Ascii.ascii_of_nat 10) "".
Definition dquote : string := String (Ascii.ascii_of_nat 34) "".

Definition pad (width : nat) (z : Z) : string :=
  let s := pretty z in
  Nat.iter (width - String.length s) (String.append "0") s.

(** [t.UTC().Format] with the layout year-month-day hour:minute:second UTC:
    the proleptic Gregorian date, counted in 400-year eras from 1 March of
    year 0. *)
Definition format_utc (t : Z) : string :=
  let days := t / (24 * Hour) in
  let secs := (t mod (24 * Hour)) / Second in
  let z := days + 306 in
  let era := z / 146097 in
  let doe := z mod 146097 in
  let yoe := (doe - doe / 1460 + doe / 36524 - doe / 146096) / 365 in
  let doy := doe - (365 * yoe + yoe / 4 - yoe / 100) in
  let mp := (5 * doy + 2) / 153 in
  let d := doy - (153 * mp + 2) / 5 + 1 in
  let m := if mp <? 10 then mp + 3 else mp - 9 in
  let y := yoe + era * 400 + (if m <=? 2 then 1 else 0) in
  pad 4 y +:+ "-" +:+ pad 2 m +:+ "-" +:+ pad 2 d +:+ " "
  +:+ pad 2 (secs / 3600) +:+ ":" +:+ pad 2 (secs / 60 mod 60) +:+ ":"
  +:+ pad 2 (secs mod 60) +:+ " UTC".

(** The part of an e-mail address before the at sign. *)
Definition short_name (name : string) : string :=
  match Index name "@" with
  | Some (S _ as idx) => str_take idx name
  | _ => name
  end.

Definition justification_line (r : PendingRequest) : string :=
  if decide (Justification r = "") then ""
  else "*Justification:* " +:+ dquote +:+ Justification r +:+ dquote +:+ nl.

Definition approvers_line (names : list string) : string :=
  match names with
  | [] => ""
  | _ => "*Authorized approvers:* " +:+ Join (short_name <$> names) ", " +:+ nl
  end.

Definition slack_text (rule : ApprovalRule) (r : PendingRequest) (approverNames : list string)
    (vaultAddr : string) : string :=
  let approvalsText :=
    if 1 <? ApprovalsRequired rule
    then pretty (ApprovalsRequired rule) +:+ " approvals required"
    else "1 approval required" in
  let vaultLink :=
    if decide (vaultAddr = "") then ""
    else nl +:+ "<" +:+ vaultAddr +:+ "/ui/vault/access/approvals/requests|Review in Vault UI>" in
  "<!here> *[Vault] Credential Request Pending Approval*" +:+ nl
  +:+ "*Requester:* " +:+ RequesterDisplayName r +:+ nl
  +:+ justification_line r
  +:+ "*Path:* `" +:+ OriginalPath r +:+ "`" +:+ nl
  +:+ "*Rule:* `" +:+ RuleID rule +:+ "`" +:+ nl
  +:+ "*Request ID:* `" +:+ RequestID r +:+ "`" +:+ nl
  +:+ "*Requires:* " +:+ approvalsText +:+ nl
  +:+ approvers_line approverNames
  +:+ "*Expires:* " +:+ format_utc (ExpiresAt r) +:+ nl +:+ nl
  +:+ "To approve:  `vault write sys/approvals/approve/" +:+ RequestID r +:+ "`" +:+ nl
  +:+ "To deny:     `vault write sys/approvals/deny/" +:+ RequestID r +:+ "`"
  +:+ vaultLink.

Definition sendApprovalSlackNotification (rule : ApprovalRule) (r : PendingRequest)
    (approverNames : list string) (vaultAddr : string) : handler () :=
  trigger (SlackPost (SlackWebhookURL rule) (slack_text rule r approverNames vaultAddr)).

(** ** The interceptor, once a rule has matched *)

Definition park_request (c : Core) (req : Request) (rule : ApprovalRule)
    : handler (option Response * bool * option goerr) :=
  id ← trigger GenerateUUID;
  match id with
  | Err err => Ret (None, false, Some (ErrWrap "approval: failed to generate request ID" err))
  | Ok id =>
    now ← trigger Now;
    let pending := parked id rule req now in
    err ← storePendingRequest c pending;
    match err with
    | Some err =>
        Ret (None, false, Some (ErrWrap "approval: failed to store pending request" err))
    | None =>
        _ ← (if decide (SlackWebhookURL rule = "") then Ret ()
             else names ← approver_names c (AuthorizedApprovers rule);
                  sendApprovalSlackNotification rule pending names (redirectAddr c));
        let inner := data_response [("status", VStr "pending"); ("request_id", VStr id);
                                    ("message", VStr "Request is pending approval")] in
        let '(resp, err) := RespondWithStatusCode (Some inner) req StatusAccepted in
        Ret (resp, true, err)
    end
  end.

(** The result is the response, whether the request was intercepted, and the
    error. *)
Definition checkNeedsApproval (c : Core) (req : Request) (auth : option Auth)
    : handler (option Response * bool * option goerr) :=
  if exempt_path (req_Path req) then Ret (None, false, None)
  else if negb (intercepted_op (req_Operation req)) then Ret (None, false, None)
  else if from_option (λ a, has_root (auth_Policies a)) false auth then Ret (None, false, None)
  else
    ruleKeys ← List (approvalStorage c) "config/";
    match ruleKeys with
    | Err err => Ret (None, false, Some err)
    | Ok [] => Ret (None, false, None)
    | Ok ruleKeys =>
        matchedRule ← matching_rule c ruleKeys (req_Path req);
        match matchedRule with
        | None => Ret (None, false, None)
        | Some rule =>
            block ← (if decide (req_EntityID req = "") then Ret (None, None)
                     else checkActiveApprovalRequest c req);
            match block with
            | (None, None) => park_request c req rule
            | (blockResp, blockErr) => Ret (blockResp, true, blockErr)
            end
        end
    end.

(** ** Approval executor *)

(** The request rebuilt from the parked one. *)
Definition reconstructed (execID : string) (pending : PendingRequest) : Request :=
  {| req_ID := execID;
     req_Operation := OriginalOperation pending;
     req_Path := OriginalPath pending;
     req_Data := OriginalData pending;
     req_Headers := OriginalHeaders pending;
     req_EntityID := RequesterEntityID pending;
     req_DisplayName := RequesterDisplayName pending;
     req_MountPoint := OriginalMountPoint pending;
     req_ClientToken := "";
     req_WrapInfo := None;
     req_RequiresSnapshotID := "" |}.

(** The credential of the backend's response, embedded in the request. *)
Definition with_credential (resp : option Response) (now : Z) (pending : PendingRequest)
    : PendingRequest :=
  let credData := from_option resp_Data ∅ resp in
  let pending := match resp with
                 | Some {| resp_Secret := Some s |} => set_SecretTTLs (TTL s) (MaxTTL s) pending
                 | _ => pending
                 end in
  set_ApprovedAt now (set_CredentialData (Some credData) pending).

(** The error, and the pending request as the call leaves it. *)
Definition executeApprovedRequest (c : Core) (pending : PendingRequest)
    : handler (option goerr * PendingRequest) :=
  execID ← trigger GenerateUUID;
  match execID with
  | Err err => Ret (Some (ErrWrap "approval: failed to generate execution ID" err), pending)
  | Ok execID =>
      resp ← trigger (Route (reconstructed execID pending));
      match resp with
      | (_, Some err) =>
          Ret (Some (ErrWrap "approval: backend execution failed" err), pending)
      | (resp, None) =>
          now ← trigger Now;
          let pending := with_credential resp now pending in
          err ← storePendingRequest c pending;
          Ret (err, pending)
      end
  end.

(** ** History storage *)

Definition history_times (h : ApprovalHistoryEntry) : list Z :=
  [h_CreatedAt h; ResolvedAt h; HistoryExpiresAt h].

Definition storeHistoryEntry (c : Core) (h : ApprovalHistoryEntry) : handler (option goerr) :=
  put_entry c (StorageEntryJSON ("history/" +:+ h_RequestID h) (history_times h) (enc_history h)).

Definition history_body (c : Core) (now : Z) (key : string)
    (results : list ApprovalHistoryEntry)
    : handler (list ApprovalHistoryEntry + Empty_set) :=
  h ← read_listed dec_history c ("history/" +:+ key);
  match h with
  | None => Ret (inl results)
  | Some h =>
      if After now (HistoryExpiresAt h) then
        _ ← Delete (approvalStorage c) ("history/" +:+ key); Ret (inl results)
      else Ret (inl (results ++ [h]))
  end.

Definition listAllHistoryEntries (c : Core) : handler (res (list ApprovalHistoryEntry)) :=
  keys ← List (approvalStorage c) "history/";
  match keys with
  | Err err => Ret (Err err)
  | Ok keys =>
      now ← trigger Now;
      r ← range keys [] (history_body c now);
      Ret (match r with inl l => Ok l | inr e => Empty_set_rect (λ _, _) e end)
  end.

Definition listHistoryEntriesForUser (c : Core) (entityID : string)
    : handler (res (list ApprovalHistoryEntry)) :=
  all ← listAllHistoryEntries c;
  Ret (match all with
       | Err err => Err err
       | Ok l => Ok (filter (λ h, h_RequesterEntityID h = entityID) l)
       end).
