(* ===== verification/ApprovalPure.v ===== *)
(** * The pure parts of the workflow: justification, headers, path matching *)

From S2P Require Import Prelude GoLib Utf8 Storage Core ApprovalTypes ApprovalCore.

(** ** The justification *)

(** A byte that can neither end a line nor open a Slack mention or link. *)
Definition safe_byte (b : N) : Prop := (0x20 ≤ b ∧ b ≠ 0x7F ∧ b ≠ 0x3C ∧ b ≠ 0x3E)%N.

#[export] Instance safe_byte_dec b : Decision (safe_byte b).
Proof. unfold safe_byte. apply _. Defined.

Definition safe_text (s : string) : Prop := Forall safe_byte (bytes s).

Lemma sanitize_rune_safe r b : b ∈ sanitize_rune r → safe_byte b ∧ (b < 256)%N.
Proof.
  unfold sanitize_rune.
  destruct (N.eqb_spec r 0x3C).
  { by revert b; apply (Forall_forall (λ b, safe_byte b ∧ (b < 256)%N)); repeat constructor. }
  destruct (N.eqb_spec r 0x3E).
  { by revert b; apply (Forall_forall (λ b, safe_byte b ∧ (b < 256)%N)); repeat constructor. }
  destruct (N.eqb_spec r 0x26).
  { by revert b; apply (Forall_forall (λ b, safe_byte b ∧ (b < 256)%N)); repeat constructor. }
  destruct (N.leb_spec 0x20 r); simpl; [|by intros ?%elem_of_nil].
  destruct (N.eqb_spec r 0x7F); simpl; [by intros ?%elem_of_nil|].
  unfold safe_byte. destruct (encode_rune_bytes r) as [[-> Hr]|[He _]].
  - intros ->%list_elem_of_singleton. lia.
  - rewrite Forall_forall in He. intros Hb%He. lia.
Qed.

(** The bytes kept by the sanitizer are bytes its loop wrote, in order. *)
Lemma sanitize_infix s :
  s ≠ "" → ∃ k1 l k2, sanitizeJustification s = of_bytes l ∧ (length l ≤ maxLen)%nat ∧
    concat (sanitize_rune <$> runes (bytes s)) = k1 ++ l ++ k2.
Proof.
  intros Hs. unfold sanitizeJustification. rewrite decide_False by done.
  destruct (TrimSpace_infix (concat (sanitize_rune <$> runes (bytes s)))) as (k1 & k2 & Heq).
  set (t := TrimSpace _) in *. destruct (Nat.ltb_spec maxLen (length t)).
  - exists k1, (take maxLen t), (drop maxLen t ++ k2). split_and!; [done| |].
    + rewrite length_take. lia.
    + by rewrite Heq at 1; rewrite (assoc_L (++) (take _ _)), take_drop.
  - exists k1, t, k2. split_and!; [done|lia|done].
Qed.

Lemma sanitize_bytes s :
  (length (bytes (sanitizeJustification s)) ≤ maxLen)%nat ∧ safe_text (sanitizeJustification s).
Proof.
  destruct (decide (s = "")) as [->|Hs]; [split; [apply Nat.le_0_l|constructor]|].
  destruct (sanitize_infix s Hs) as (k1 & l & k2 & Heq & Hlen & Hl).
  assert (∀ b, b ∈ l → safe_byte b ∧ (b < 256)%N) as Hsafe.
  { intros b Hb. assert (b ∈ concat (sanitize_rune <$> runes (bytes s))) as Hb'
      by (rewrite Hl; set_solver).
    apply elem_of_concat in Hb' as (l' & (r & -> & _)%list_elem_of_fmap & Hb').
    by eapply sanitize_rune_safe. }
  unfold safe_text. rewrite Heq, bytes_of_bytes.
  - split; [done|]. apply Forall_forall. intros b Hb. by apply Hsafe.
  - apply Forall_forall. intros b Hb. by apply Hsafe.
Qed.

Lemma safe_text_valid_utf8 s : safe_text s → safe_text (valid_utf8 s).
Proof.
  unfold safe_text. rewrite !Forall_forall. intros Hs b Hb.
  destruct (decide (b < 0x80)%N) as [Hlt|Hge].
  - by apply Hs, valid_utf8_ascii.
  - unfold safe_byte. lia.
Qed.

(** ** Headers *)

Definition clean_headers (m : option (gmap string (list string))) : Prop :=
  ∀ k, is_Some (default ∅ m !! k) → CanonicalHeaderKey k ∉ blockedHeaders.

Lemma safe_headers_spec h k v :
  safe_headers h !! k = Some v ↔
  default ∅ h !! k = Some v ∧ CanonicalHeaderKey k ∉ blockedHeaders.
Proof. unfold safe_headers. by rewrite map_lookup_filter_Some. Qed.

Lemma safe_headers_clean h : clean_headers (Some (safe_headers h)).
Proof. intros k [v Hv]. by apply safe_headers_spec in Hv as [_ ?]. Qed.

Lemma blocked_ascii k : k ∈ blockedHeaders → ascii_only k.
Proof.
  revert k. apply Forall_forall. repeat constructor.
Qed.

(** A header key that JSON encoding changes is no blocked header. *)
Lemma clean_valid_utf8 k :
  CanonicalHeaderKey k ∉ blockedHeaders → CanonicalHeaderKey (valid_utf8 k) ∉ blockedHeaders.
Proof.
  intros Hk Hb. apply Hk. by rewrite <-(canonical_valid_utf8 k) by by apply blocked_ascii.
Qed.

(** ** Path matching *)

(** What a rule's target stands for. *)
Variant target := AllPaths | Below (prefix : string) | Exactly (path : string).

Definition target_of (p : string) : target :=
  if decide (p = "*") then AllPaths
  else match strip_suffix "/*" p with Some prefix => Below prefix | None => Exactly p end.

(** [path] is [prefix] or lies below it. *)
Definition at_or_below (prefix path : string) : Prop :=
  path = prefix ∨ ∃ rest, path = prefix +:+ "/" +:+ rest.

Definition covers (t : target) (path : string) : Prop :=
  match t with
  | AllPaths => True
  | Below prefix => at_or_below prefix path
  | Exactly p => path = p
  end.

(** A rule matches exactly the paths its target stands for: the bare star
    every path, a target ending in slash-star its prefix and what lies below
    it, any other target itself only. In particular a sibling that merely
    starts with the prefix is not matched. *)
Theorem approvalRuleMatchesPath_covers rule path :
  approvalRuleMatchesPath rule path = true ↔ covers (target_of (TargetMountPath rule)) path.
Proof.
  unfold approvalRuleMatchesPath, target_of. destruct (decide (_ = "*")); [done|].
  unfold HasSuffix, TrimSuffix. destruct (strip_suffix "/*" _) as [prefix|]; simpl.
  - rewrite orb_true_iff, bool_decide_eq_true, HasPrefix_spec. unfold at_or_below.
    by setoid_rewrite str_app_assoc.
  - rewrite bool_decide_eq_true. by split.
Qed.

(** A sanitised justification is at most 1000 bytes long and contains no
    control character, no DEL and neither angle bracket, so it cannot break
    out of its line of the notification or open a mention or a link. *)
Theorem sanitizeJustification_safe s :
  (length (bytes (sanitizeJustification s)) ≤ 1000)%nat ∧ safe_text (sanitizeJustification s).
Proof. apply sanitize_bytes. Qed.

(** A string of [n] copies of the euro sign (three bytes each). *)
Definition euros (n : nat) : string :=
  of_bytes (concat (replicate n [0xE2; 0x82; 0xAC]%N)).

(** The limit counts bytes, not characters: 334 characters are cut, and the
    cut falls inside the last one, so what is kept is not valid UTF-8. *)
Theorem sanitizeJustification_cuts_a_character :
  length (runes (bytes (euros 334))) = 334%nat ∧
  sanitizeJustification (euros 334) ≠ euros 334 ∧
  valid_utf8 (sanitizeJustification (euros 334)) ≠ sanitizeJustification (euros 334).
Proof. split_and!; [vm_compute; reflexivity|vm_compute; discriminate..]. Qed.
