(* ===== verification/ApprovalHandlers.v ===== *)
(** * [vault/logical_system_approvals.go]: the handlers under sys/approvals

    One definition per handler; a long handler is split into its branches.
    A handler returns a response and an error, either of which may be nil. *)

From S2P Require Import Prelude GoLib Storage Core ApprovalTypes ApprovalCore.

Definition ok_resp (l : list (string * value)) : Resp := (Some (data_response l), None).
Definition err_resp (text : string) (vargs : list value) : Resp :=
  (Some (ErrorResponse text vargs), None).
Definition go_err (e : goerr) : Resp := (None, Some e).

Definition vstrs (l : list string) : value := VArr (VStr <$> l).

Section handlers.
Context `{GoTables}.
Context (c : Core).

(** ** Helpers *)

Definition callerIsRoot (req : Request) : handler bool :=
  if decide (req_ClientToken req = "") then Ret false
  else
    te ← trigger (TokenLookup (req_ClientToken req));
    Ret (match te with
         | Ok (Some te) => has_root (te_Policies te)
         | _ => false
         end).

Definition approvalEntityIsAuthorized (entityID : string) (approvers : list string) : bool :=
  if decide (entityID = "") then false
  else existsb (λ a, EqualFold a entityID) approvers.

(** The loop of the list and history handlers that looks for a rule the
    caller may approve under. *)
Definition is_approver (entityID : string) (ruleKeys : list string) : handler bool :=
  r ← range ruleKeys () (λ key _,
    rule ← read_listed dec_rule c ("config/" +:+ key);
    Ret (match rule with
         | Some rule =>
             if approvalEntityIsAuthorized entityID (AuthorizedApprovers rule)
             then inr () else inl ()
         | None => inl ()
         end));
  Ret (match r with inl _ => false | inr _ => true end).

(** The guard of those two handlers: [None] lets the caller through. *)
Definition root_or_approver (req : Request) : handler (option Resp) :=
  root ← callerIsRoot req;
  if root : bool then Ret None
  else if decide (req_EntityID req = "") then Ret (Some (go_err ErrPermissionDenied))
  else
    ruleKeys ← List (approvalStorage c) "config/";
    match ruleKeys with
    | Err err => Ret (Some (go_err err))
    | Ok ruleKeys =>
        ok ← is_approver (req_EntityID req) ruleKeys;
        Ret (if ok : bool then None else Some (go_err ErrPermissionDenied))
    end.

(** ** Rule handlers *)

Definition list_keys (prefix : string) : handler Resp :=
  keys ← List (approvalStorage c) prefix;
  Ret (match keys with
       | Err err => go_err err
       | Ok keys => ok_resp [("keys", vstrs keys)]
       end).

Definition handleApprovalRuleList (req : Request) : handler Resp := list_keys "config/".

Definition handleApprovalRuleRead (ruleID : string) (req : Request) : handler Resp :=
  rule ← getApprovalRule c ruleID;
  Ret (match rule with
       | Err err => go_err err
       | Ok None => err_resp "no approval rule found with ID %q" [VStr ruleID]
       | Ok (Some rule) =>
           ok_resp [("rule_id", VStr (RuleID rule));
                    ("description", VStr (Description rule));
                    ("target_mount_path", VStr (TargetMountPath rule));
                    ("authorized_approvers", vstrs (AuthorizedApprovers rule));
                    ("approvals_required", VNum (ApprovalsRequired rule));
                    ("slack_webhook_url", VStr (SlackWebhookURL rule));
                    ("created_by_entity_id", VStr (CreatedByEntityID rule));
                    ("allow_self_approval", VBool (AllowSelfApproval rule))]
       end).

(** The fields of a rule write; [None] is a field the request does not set. *)
Record RuleFields := mkRuleFields {
  f_description : option string;
  f_target_mount_path : option string;
  f_authorized_approvers : option (list string);
  f_approvals_required : option Z;
  f_slack_webhook_url : option string;
  f_allow_self_approval : option bool;
}.

(** The partial update of a rule by the fields set, or the validation error
    of the first field that fails. *)
Definition slack_url_ok (rawURL : string) : bool :=
  bool_decide (rawURL = "") || bool_decide (url_Parse rawURL = Some "https").

Definition update_rule (f : RuleFields) (r : ApprovalRule) : ApprovalRule + Resp :=
  match f_approvals_required f with
  | Some n =>
      if n <? 1 then inr (err_resp "approvals_required must be >= 1" [])
      else inl (mkRule (RuleID r) (default (Description r) (f_description f))
                  (default (TargetMountPath r) (f_target_mount_path f))
                  (default (AuthorizedApprovers r) (f_authorized_approvers f)) n
                  (SlackWebhookURL r) (CreatedByEntityID r) (AllowSelfApproval r))
  | None =>
      inl (mkRule (RuleID r) (default (Description r) (f_description f))
             (default (TargetMountPath r) (f_target_mount_path f))
             (default (AuthorizedApprovers r) (f_authorized_approvers f))
             (ApprovalsRequired r)
             (SlackWebhookURL r) (CreatedByEntityID r) (AllowSelfApproval r))
  end.

Definition update_rule_url (f : RuleFields) (r : ApprovalRule) : ApprovalRule + Resp :=
  let self := default (AllowSelfApproval r) (f_allow_self_approval f) in
  let with_url u := mkRule (RuleID r) (Description r) (TargetMountPath r)
    (AuthorizedApprovers r) (ApprovalsRequired r) u (CreatedByEntityID r) self in
  match f_slack_webhook_url f with
  | Some rawURL =>
      if slack_url_ok rawURL then inl (with_url rawURL)
      else inr (err_resp "slack_webhook_url must use the https:// scheme" [])
  | None => inl (with_url (SlackWebhookURL r))
  end.

(** The checks on the updated rule, and the write. *)
Definition check_and_put_rule (rule : ApprovalRule) : handler Resp :=
  if decide (TargetMountPath rule = "") then
    Ret (err_resp "target_mount_path is required" [])
  else if decide (AuthorizedApprovers rule = []) then
    Ret (err_resp "authorized_approvers must contain at least one entity ID" [])
  else
    err ← putApprovalRule c rule;
    Ret (match err with Some err => go_err err | None => (None, None) end).

Definition handleApprovalRuleWrite (ruleID : string) (f : RuleFields) (req : Request)
    : handler Resp :=
  if decide (ruleID = "") then Ret (err_resp "rule_id is required" [])
  else
    existing ← getApprovalRule c ruleID;
    match existing with
    | Err err => Ret (go_err err)
    | Ok existing =>
        let existing := default (mkRule ruleID "" "" [] 1 "" (req_EntityID req) false) existing in
        match update_rule f existing with
        | inr resp => Ret resp
        | inl r1 =>
            match update_rule_url f r1 with
            | inr resp => Ret resp
            | inl rule => check_and_put_rule rule
            end
        end
    end.

Definition handleApprovalRuleDelete (ruleID : string) (req : Request) : handler Resp :=
  _ ← sweepPendingRequestsByRule c ruleID;
  err ← Delete (approvalStorage c) ("config/" +:+ ruleID);
  Ret (match err with Some err => go_err err | None => (None, None) end).

(** ** Pending request handlers *)

Definition handleApprovalPendingList (req : Request) : handler Resp :=
  guard ← root_or_approver req;
  match guard with
  | Some resp => Ret resp
  | None => list_keys "pending/"
  end.

Definition approval_row (a : ApprovalRecord) : value :=
  VObj [("approver_entity_id", VStr (ApproverEntityID a));
        ("approved_at", VTime (rec_ApprovedAt a))].

(** Whether the caller may read the pending request. *)
Definition may_read (req : Request) (pending : PendingRequest) : handler bool :=
  root ← callerIsRoot req;
  if root : bool then Ret true
  else if negb (bool_decide (req_EntityID req = ""))
          && bool_decide (req_EntityID req = RequesterEntityID pending)
  then Ret true
  else
    rule ← getApprovalRule c (p_RuleID pending);
    Ret (match rule with
         | Ok (Some rule) =>
             approvalEntityIsAuthorized (req_EntityID req) (AuthorizedApprovers rule)
         | _ => false
         end).

Definition no_request (id : string) : Resp :=
  err_resp "no approval request found with ID %q" [VStr id].
Definition not_pending (id status : string) : Resp :=
  err_resp "request %q is not pending (current status: %s)" [VStr id; VStr status].
Definition expired_removed (id : string) : Resp :=
  err_resp "request %q has expired and has been removed" [VStr id].
Definition orphan_removed (rule : string) : Resp :=
  err_resp "approval rule %q no longer exists; orphaned request has been removed" [VStr rule].

(** Deleting the entry of a pending request, the error ignored. *)
Definition drop_pending (id : string) : handler () :=
  _ ← Delete (approvalStorage c) ("pending/" +:+ id); Ret ().

Definition handleApprovalPendingRead (id : string) (req : Request) : handler Resp :=
  pending ← getPendingRequest c id;
  match pending with
  | Err err => Ret (go_err err)
  | Ok None => Ret (no_request id)
  | Ok (Some pending) =>
      allowed ← may_read req pending;
      if negb (allowed : bool) then Ret (go_err ErrPermissionDenied)
      else
        expired ← (if decide (Status pending = "pending")
                   then now ← trigger Now; Ret (After now (ExpiresAt pending))
                   else Ret false);
        if expired : bool then
          _ ← drop_pending id; Ret (expired_removed id)
        else
          Ret (ok_resp
            [("request_id", VStr (RequestID pending));
             ("rule_id", VStr (p_RuleID pending));
             ("original_path", VStr (OriginalPath pending));
             ("original_operation", VStr (OriginalOperation pending));
             ("requester_entity_id", VStr (RequesterEntityID pending));
             ("requester_display_name", VStr (RequesterDisplayName pending));
             ("status", VStr (Status pending));
             ("approvals", VArr (approval_row <$> Approvals pending));
             ("created_at", VTime (CreatedAt pending));
             ("expires_at", VTime (ExpiresAt pending))])
  end.

(** ** Requires-approval check handler *)

Definition handleApprovalRequiresApproval (path : string) (req : Request) : handler Resp :=
  if decide (path = "") then Ret (err_resp "path is required" [])
  else
    ruleKeys ← List (approvalStorage c) "config/";
    match ruleKeys with
    | Err err => Ret (go_err err)
    | Ok ruleKeys =>
        rule ← matching_rule c ruleKeys path;
        Ret (match rule with
             | Some rule => ok_resp [("requires_approval", VBool true);
                                     ("rule_id", VStr (RuleID rule))]
             | None => ok_resp [("requires_approval", VBool false)]
             end)
    end.

(** ** Approve handler *)

(** The guards that approve and deny share: the request exists, is pending
    and has not expired, and its rule still exists; an expired or orphaned
    request is removed. [inl] lets the handler go on. *)
Definition pending_guards (id : string) : handler ((PendingRequest * ApprovalRule) + Resp) :=
  pending ← getPendingRequest c id;
  match pending with
  | Err err => Ret (inr (go_err err))
  | Ok None => Ret (inr (no_request id))
  | Ok (Some pending) =>
      if negb (bool_decide (Status pending = "pending"))
      then Ret (inr (not_pending id (Status pending)))
      else
        now ← trigger Now;
        if After now (ExpiresAt pending) then
          _ ← drop_pending id; Ret (inr (expired_removed id))
        else
          rule ← getApprovalRule c (p_RuleID pending);
          match rule with
          | Err err => Ret (inr (go_err err))
          | Ok None => _ ← drop_pending id; Ret (inr (orphan_removed (p_RuleID pending)))
          | Ok (Some rule) => Ret (inl (pending, rule))
          end
  end.

(** The authorisation of an approver: membership or root, separation of
    duties, one vote per entity. [None] lets the vote be recorded. *)
Definition approve_denied (req : Request) (pending : PendingRequest) (rule : ApprovalRule)
    : handler (option Resp) :=
  root ← callerIsRoot req;
  if negb root && negb (approvalEntityIsAuthorized (req_EntityID req) (AuthorizedApprovers rule))
  then Ret (Some (go_err ErrPermissionDenied))
  else
    root ← callerIsRoot req;
    if negb root && negb (AllowSelfApproval rule)
       && negb (bool_decide (req_EntityID req = ""))
       && bool_decide (req_EntityID req = RequesterEntityID pending)
    then Ret (Some (RespondWithStatusCode
           (Some (ErrorResponse
              "Separation of Duties violation: you cannot approve your own request" []))
           req StatusForbidden))
    else if existsb (λ a, bool_decide (ApproverEntityID a = req_EntityID req)
                          && negb (bool_decide (req_EntityID req = ""))) (Approvals pending)
    then Ret (Some (err_resp "entity %q has already approved this request"
                      [VStr (req_EntityID req)]))
    else Ret None.

Definition approve_response (id : string) (pending : PendingRequest) (rule : ApprovalRule)
    (thresholdMet : bool) : Resp :=
  ok_resp [("status", VStr (Status pending));
           ("request_id", VStr id);
           ("approvals_recorded", VNum (len (Approvals pending)));
           ("approvals_required", VNum (ApprovalsRequired rule));
           ("threshold_met", VBool thresholdMet)].

(** The branch taken when the threshold is met: the status is written before
    the execution, the entry read again, and a failed execution rolled
    back. *)
Definition approve_execute (id : string) (pending : PendingRequest) (rule : ApprovalRule)
    : handler Resp :=
  let pending := set_Status "approved" pending in
  err ← storePendingRequest c pending;
  match err with
  | Some err => Ret (go_err err)
  | None =>
      latestPending ← getPendingRequest c id;
      match latestPending with
      | Err err => Ret (go_err err)
      | Ok (Some {| CredentialData := Some _ |}) =>
          Ret (approve_response id pending rule true)
      | Ok _ =>
          r ← executeApprovedRequest c pending;
          match r with
          | (Some err, pending) =>
              let pending := set_Status "pending" pending in
              let pending := set_Approvals
                (take (length (Approvals pending) - 1) (Approvals pending)) pending in
              _ ← storePendingRequest c pending;
              Ret (go_err (ErrWrap "approval execution failed" err))
          | (None, pending) => Ret (approve_response id pending rule true)
          end
      end
  end.

(** The vote, once the request and its rule are read. *)
Definition approve_vote (id : string) (req : Request) (pending : PendingRequest)
    (rule : ApprovalRule) : handler Resp :=
  denied ← approve_denied req pending rule;
  match denied with
  | Some resp => Ret resp
  | None =>
      now ← trigger Now;
      let pending := set_Approvals
        (Approvals pending ++ [mkRecord (req_EntityID req) now]) pending in
      if ApprovalsRequired rule <=? len (Approvals pending) then
        approve_execute id pending rule
      else
        err ← storePendingRequest c pending;
        Ret (match err with
             | Some err => go_err err
             | None => approve_response id pending rule false
             end)
  end.

Definition handleApprovalApprove (id : string) (req : Request) : handler Resp :=
  g ← pending_guards id;
  match g with
  | inr resp => Ret resp
  | inl (pending, rule) => approve_vote id req pending rule
  end.

(** ** Deny handler *)

(** The name of the entity that resolved a request, if it has one. *)
Definition entity_name (entityID : string) : handler string :=
  if decide (entityID = "") then Ret ""
  else if identityStore c then
    entity ← trigger (MemDBEntityByID entityID);
    Ret (match entity with Ok (Some e) => entity_Name e | _ => "" end)
  else Ret "".

(** A history entry for a request resolved at [now]. *)
Definition history_of (pending : PendingRequest) (status : string) (now : Z)
    (by_id by_name : string) : ApprovalHistoryEntry :=
  {| h_RequestID := RequestID pending;
     h_RuleID := p_RuleID pending;
     h_OriginalPath := OriginalPath pending;
     h_RequesterEntityID := RequesterEntityID pending;
     h_RequesterDisplayName := RequesterDisplayName pending;
     h_Justification := Justification pending;
     h_Status := status;
     h_CreatedAt := CreatedAt pending;
     ResolvedAt := now;
     ResolvedBy := by_id;
     ResolvedByName := by_name;
     HistoryExpiresAt := now + approvalHistoryTTL |}.

Definition handleApprovalDeny (id : string) (req : Request) : handler Resp :=
  g ← pending_guards id;
  match g with
  | inr resp => Ret resp
  | inl (pending, rule) =>
      let isSelfWithdraw := negb (bool_decide (req_EntityID req = ""))
        && bool_decide (req_EntityID req = RequesterEntityID pending) in
      root ← callerIsRoot req;
      if negb root && negb isSelfWithdraw
         && negb (approvalEntityIsAuthorized (req_EntityID req) (AuthorizedApprovers rule))
      then Ret (go_err ErrPermissionDenied)
      else
        let pending := set_Status "denied" pending in
        err ← storePendingRequest c pending;
        match err with
        | Some err => Ret (go_err err)
        | None =>
            now ← trigger Now;
            resolvedByName ← entity_name (req_EntityID req);
            _ ← storeHistoryEntry c
                  (history_of pending "denied" now (req_EntityID req) resolvedByName);
            Ret (ok_resp [("status", VStr "denied"); ("request_id", VStr id)])
        end
  end.

(** ** Fetch handler *)

(** The last approver and its name, for the history. *)
Definition last_approver (pending : PendingRequest) : handler (string * string) :=
  match last (Approvals pending) with
  | None => Ret ("", "")
  | Some a =>
      name ← entity_name (ApproverEntityID a);
      Ret (ApproverEntityID a, name)
  end.

Definition fetch_pending (id : string) (req : Request) (pending : PendingRequest)
    : handler Resp :=
  now ← trigger Now;
  if After now (ExpiresAt pending) then
    _ ← drop_pending id;
    expiredNow ← trigger Now;
    _ ← storeHistoryEntry c (history_of pending "expired" expiredNow "" "");
    Ret (ok_resp [("status", VStr "expired"); ("request_id", VStr id);
                  ("message", VStr "Request has expired and has been removed.")])
  else
    Ret (RespondWithStatusCode
      (Some (data_response [("status", VStr "pending"); ("request_id", VStr id);
                            ("approvals_recorded", VNum (len (Approvals pending)))]))
      req StatusAccepted).

(** The data of the response that carries the credential: the credential's
    keys override the first two, and the lease hints override the
    credential's. *)
Definition credential_data (id : string) (cred : gmap string value) (ttl maxttl : Z)
    : gmap string value :=
  let base := gomap [("status", VStr "approved"); ("request_id", VStr id)] in
  let d := cred ∪ base in
  let d := if 0 <? ttl then <["lease_duration" := VNum (dur_in Second ttl)]> d else d in
  if 0 <? maxttl then <["lease_max_duration" := VNum (dur_in Second maxttl)]> d else d.

Definition fetch_window_expired (id : string) (pending : PendingRequest) : handler Resp :=
  _ ← drop_pending id;
  by_ ← last_approver pending;
  now ← trigger Now;
  _ ← storeHistoryEntry c (history_of pending "expired" now by_.1 by_.2);
  Ret (err_resp "credential for request %q has expired (90-minute retrieval window passed)"
         [VStr id]).

Definition fetch_burn (id : string) (pending : PendingRequest) (cred : gmap string value)
    : handler Resp :=
  let pending := set_CredentialData None pending in
  _ ← storePendingRequest c pending;
  err ← Delete (approvalStorage c) ("pending/" +:+ id);
  match err with
  | Some err => Ret (go_err err)
  | None =>
      by_ ← last_approver pending;
      now ← trigger Now;
      _ ← storeHistoryEntry c (history_of pending "retrieved" now by_.1 by_.2);
      Ret (Some (mkResponse (credential_data id cred (SecretTTL pending) (SecretMaxTTL pending))
                   [] None None ""), None)
  end.

Definition fetch_approved (id : string) (pending : PendingRequest) : handler Resp :=
  match CredentialData pending with
  | None => Ret (err_resp "credential for request %q has already been retrieved" [VStr id])
  | Some cred =>
      expired ← (if IsZero (ApprovedAt pending) then Ret false
                 else s ← time_Since (ApprovedAt pending); Ret (approvalCredentialTTL <? s));
      if expired : bool then fetch_window_expired id pending
      else fetch_burn id pending cred
  end.

Definition handleApprovalFetch (id : string) (req : Request) : handler Resp :=
  pending ← getPendingRequest c id;
  match pending with
  | Err err => Ret (go_err err)
  | Ok None =>
      Ret (RespondWithStatusCode
        (Some (ErrorResponse "approval request %q not found — it may have expired, been removed, or the server was restarted" [VStr id]))
        req StatusNotFound)
  | Ok (Some pending) =>
      allowed ← (if decide (RequesterEntityID pending = "") then callerIsRoot req
                 else Ret (bool_decide (req_EntityID req = RequesterEntityID pending)));
      if negb (allowed : bool) then Ret (go_err ErrPermissionDenied)
      else if decide (Status pending = "pending") then fetch_pending id req pending
      else if decide (Status pending = "denied") then
        Ret (ok_resp [("status", VStr "denied"); ("request_id", VStr id)])
      else if decide (Status pending = "approved") then fetch_approved id pending
      else Ret (err_resp "unknown status for request %q" [VStr id])
  end.

(** ** Listing handlers *)

Definition approvable_row (p : PendingRequest) : value :=
  VObj [("request_id", VStr (RequestID p));
        ("rule_id", VStr (p_RuleID p));
        ("original_path", VStr (OriginalPath p));
        ("original_operation", VStr (OriginalOperation p));
        ("requester_entity_id", VStr (RequesterEntityID p));
        ("requester_display_name", VStr (RequesterDisplayName p));
        ("justification", VStr (Justification p));
        ("status", VStr (Status p));
        ("approvals", VArr (enc_record <$> Approvals p));
        ("created_at", VTime (CreatedAt p));
        ("expires_at", VTime (ExpiresAt p))].

Definition approvable_body (isRoot : bool) (req : Request) (key : string)
    (results : list PendingRequest) : handler (list PendingRequest + Empty_set) :=
  r ← read_listed dec_pending c ("pending/" +:+ key);
  match r with
  | None => Ret (inl results)
  | Some p =>
      if negb (bool_decide (Status p = "pending")) then Ret (inl results)
      else
        now ← trigger Now;
        if After now (ExpiresAt p) then
          _ ← drop_pending key; Ret (inl results)
        else if isRoot then Ret (inl (results ++ [p]))
        else
          rule ← getApprovalRule c (p_RuleID p);
          Ret (inl (match rule with
               | Ok (Some rule) =>
                   if approvalEntityIsAuthorized (req_EntityID req) (AuthorizedApprovers rule)
                   then results ++ [p] else results
               | _ => results
               end))
  end.

Definition loop_result {S} (r : S + Empty_set) : S :=
  match r with inl s => s | inr e => Empty_set_rect (λ _, S) e end.

Definition handleApprovalApprovable (req : Request) : handler Resp :=
  isRoot ← callerIsRoot req;
  if negb isRoot && bool_decide (req_EntityID req = "") then
    Ret (Some (mkResponse (gomap [("requests", VArr [])])
      [VStr "Token has no entity ID; cannot determine approvable requests. Sign in with OIDC."]
      None None ""), None)
  else
    keys ← List (approvalStorage c) "pending/";
    match keys with
    | Err err => Ret (go_err err)
    | Ok keys =>
        results ← range keys [] (approvable_body isRoot req);
        Ret (ok_resp [("requests", VArr (approvable_row <$> loop_result results))])
    end.

Definition my_row (p : PendingRequest) : value :=
  VObj ([("request_id", VStr (RequestID p));
         ("rule_id", VStr (p_RuleID p));
         ("original_path", VStr (OriginalPath p));
         ("justification", VStr (Justification p));
         ("status", VStr (Status p));
         ("created_at", VTime (CreatedAt p));
         ("expires_at", VTime (ExpiresAt p))]
    ++ (if IsZero (ApprovedAt p) then [] else [("approved_at", VTime (ApprovedAt p))])).

Definition my_history_row (h : ApprovalHistoryEntry) : value :=
  VObj [("request_id", VStr (h_RequestID h));
        ("rule_id", VStr (h_RuleID h));
        ("original_path", VStr (h_OriginalPath h));
        ("justification", VStr (h_Justification h));
        ("status", VStr (h_Status h));
        ("created_at", VTime (h_CreatedAt h));
        ("resolved_at", VTime (ResolvedAt h));
        ("resolved_by", VStr (ResolvedBy h));
        ("resolved_by_name", VStr (ResolvedByName h))].

(** Whether an own request is stale: pending past its time to live, or
    approved past the retrieval window. *)
Definition my_stale (p : PendingRequest) : handler bool :=
  if decide (Status p = "pending") then
    now ← trigger Now; Ret (After now (ExpiresAt p))
  else if decide (Status p = "approved") then
    if IsZero (ApprovedAt p) then Ret false
    else s ← time_Since (ApprovedAt p); Ret (approvalCredentialTTL <=? s)
  else Ret false.

Definition my_body (req : Request) (key : string) (results : list PendingRequest)
    : handler (list PendingRequest + Empty_set) :=
  r ← read_listed dec_pending c ("pending/" +:+ key);
  match r with
  | None => Ret (inl results)
  | Some p =>
      if negb (bool_decide (RequesterEntityID p = req_EntityID req)) then Ret (inl results)
      else
        stale ← my_stale p;
        if stale : bool then _ ← drop_pending key; Ret (inl results)
        else Ret (inl (results ++ [p]))
  end.

Definition handleApprovalMyRequests (req : Request) : handler Resp :=
  if decide (req_EntityID req = "") then
    Ret (Some (mkResponse (gomap [("requests", VArr [])])
      [VStr "This token has no entity ID. My Requests shows requests tied to your OIDC identity. Sign in with OIDC to see your personal requests."]
      None None ""), None)
  else
    keys ← List (approvalStorage c) "pending/";
    match keys with
    | Err err => Ret (go_err err)
    | Ok keys =>
        results ← range keys [] (my_body req);
        histEntries ← listHistoryEntriesForUser c (req_EntityID req);
        let hist := match histEntries with Ok l => l | Err _ => [] end in
        Ret (ok_resp [("requests",
          VArr ((my_row <$> loop_result results) ++ (my_history_row <$> hist)))])
    end.

(** ** History handler *)

Definition history_row (h : ApprovalHistoryEntry) : value :=
  VObj [("request_id", VStr (h_RequestID h));
        ("rule_id", VStr (h_RuleID h));
        ("original_path", VStr (h_OriginalPath h));
        ("requester_entity_id", VStr (h_RequesterEntityID h));
        ("requester_display_name", VStr (h_RequesterDisplayName h));
        ("justification", VStr (h_Justification h));
        ("status", VStr (h_Status h));
        ("created_at", VTime (h_CreatedAt h));
        ("resolved_at", VTime (ResolvedAt h));
        ("resolved_by", VStr (ResolvedBy h));
        ("resolved_by_name", VStr (ResolvedByName h));
        ("history_expires_at", VTime (HistoryExpiresAt h))].

Definition handleApprovalHistory (req : Request) : handler Resp :=
  guard ← root_or_approver req;
  match guard with
  | Some resp => Ret resp
  | None =>
      entries ← listAllHistoryEntries c;
      Ret (match entries with
           | Err err => go_err err
           | Ok entries => ok_resp [("entries", VArr (history_row <$> entries))]
           end)
  end.

End handlers.
