(* ===== verification/ApprovalPaths.v ===== *)
(** * [approvalPaths] of [vault/logical_system_approvals.go]: the endpoints

    Which handler serves which path and operation. A pattern is anchored at
    both ends by the framework, so an endpoint's path is matched whole. *)

From S2P Require Import Prelude GoLib Storage Core ApprovalTypes ApprovalCore ApprovalHandlers.

(** ** Patterns *)

Definition lower_hex (b : N) : bool := is_digit b || byte_in 0x61 0x66 b.

(** [n] bytes satisfying [f], then the rest. *)
Fixpoint eat (f : N → bool) (n : nat) (bs : list N) : option (list N) :=
  match n, bs with
  | O, _ => Some bs
  | S n', b :: bs' => if f b then eat f n' bs' else None
  | S _, [] => None
  end.

Definition dash (b : N) : bool := (b =? 0x2D)%N.

(** [uuidPattern], as the whole of the text: five groups of hexadecimal
    digits. *)
Definition uuidPattern (s : string) : bool :=
  bool_decide (fold_left (λ o g, o ≫= eat g.1 g.2)
    [(lower_hex, 8%nat); (dash, 1%nat); (lower_hex, 4%nat); (dash, 1%nat);
     (lower_hex, 4%nat); (dash, 1%nat); (lower_hex, 4%nat); (dash, 1%nat);
     (lower_hex, 12%nat)] (Some (bytes s)) = Some []).

Definition rule_id_byte (b : N) : bool :=
  is_upper b || is_lower b || is_digit b || (b =? 0x5F)%N || (b =? 0x2D)%N.

(** [ruleIDPattern], as the whole of the text. *)
Definition ruleIDPattern (s : string) : bool :=
  negb (bool_decide (s = "")) && forallb rule_id_byte (bytes s).

Variant Endpoint :=
| EConfig (rule_id : string) | EConfigList
| EPending (id : string) | EPendingList
| EApprove (id : string) | EDeny (id : string)
| EMyRequests | EApprovable | ERequiresApproval
| EFetch (id : string) | EHistory.

(** The captured part of a path below a fixed prefix. *)
Definition capture (prefix : string) (pat : string → bool) (path : string) : option string :=
  match strip_prefix prefix path with
  | Some x => if pat x then Some x else None
  | None => None
  end.

(** The first path of the table whose pattern matches. *)
Definition approval_endpoint (path : string) : option Endpoint :=
  match capture "approvals/config/" ruleIDPattern path with
  | Some id => Some (EConfig id)
  | None =>
  if bool_decide (path ∈ ["approvals/config"; "approvals/config/"]) then Some EConfigList else
  match capture "approvals/pending/" uuidPattern path with
  | Some id => Some (EPending id)
  | None =>
  if bool_decide (path ∈ ["approvals/pending"; "approvals/pending/"]) then Some EPendingList else
  match capture "approvals/approve/" uuidPattern path with
  | Some id => Some (EApprove id)
  | None =>
  match capture "approvals/deny/" uuidPattern path with
  | Some id => Some (EDeny id)
  | None =>
  if decide (path = "approvals/my-requests") then Some EMyRequests else
  if decide (path = "approvals/approvable") then Some EApprovable else
  if decide (path = "approvals/requires-approval") then Some ERequiresApproval else
  match capture "approvals/fetch/" uuidPattern path with
  | Some id => Some (EFetch id)
  | None => if decide (path = "approvals/history") then Some EHistory else None
  end end end end end.

(** ** Callbacks *)

(** The fields of a request body that the endpoints read, already parsed by
    the framework according to their types. *)
Record Fields := mkFields { rule_fields : RuleFields; f_path : string }.

Section callbacks.
Context `{GoTables} (c : Core).

Definition callback (e : Endpoint) (op : string) (f : Fields) (req : Request)
    : option (handler Resp) :=
  match e with
  | EConfig id =>
      if decide (op = ReadOperation) then Some (handleApprovalRuleRead c id req)
      else if decide (op = UpdateOperation) then
        Some (handleApprovalRuleWrite c id (rule_fields f) req)
      else if decide (op = CreateOperation) then
        Some (handleApprovalRuleWrite c id (rule_fields f) req)
      else if decide (op = DeleteOperation) then Some (handleApprovalRuleDelete c id req)
      else None
  | EConfigList =>
      if decide (op = ListOperation) then Some (handleApprovalRuleList c req) else None
  | EPending id =>
      if decide (op = ReadOperation) then Some (handleApprovalPendingRead c id req) else None
  | EPendingList =>
      if decide (op = ListOperation) then Some (handleApprovalPendingList c req) else None
  | EApprove id =>
      if decide (op = UpdateOperation) then Some (handleApprovalApprove c id req) else None
  | EDeny id =>
      if decide (op = UpdateOperation) then Some (handleApprovalDeny c id req) else None
  | EMyRequests =>
      if decide (op = ReadOperation) then Some (handleApprovalMyRequests c req) else None
  | EApprovable =>
      if decide (op = ReadOperation) then Some (handleApprovalApprovable c req) else None
  | ERequiresApproval =>
      if decide (op = ReadOperation) then Some (handleApprovalRequiresApproval c (f_path f) req)
      else None
  | EFetch id =>
      if decide (op = ReadOperation) then Some (handleApprovalFetch c id req) else None
  | EHistory =>
      if decide (op = ReadOperation) then Some (handleApprovalHistory c req) else None
  end.

(** A request routed to the system backend below sys/approvals. *)
Definition handle_approvals (path op : string) (f : Fields) (req : Request) : handler Resp :=
  match approval_endpoint path with
  | None => Ret (go_err ErrUnsupportedPath)
  | Some e =>
      match callback e op f req with
      | None => Ret (go_err ErrUnsupportedOperation)
      | Some h => h
      end
  end.

(** The existence checks of the table: [None] for an endpoint without one. *)
Definition ExistenceCheck (e : Endpoint) : option (handler (res bool)) :=
  let exists_at key :=
    entry ← Get (approvalStorage c) key;
    Ret (match entry with
         | Err err => Err err
         | Ok e => Ok (bool_decide (is_Some e))
         end) in
  match e with
  | EConfig id => Some (exists_at ("config/" +:+ id))
  | EApprove id | EDeny id => Some (exists_at ("pending/" +:+ id))
  | _ => None
  end.

(** [Core.existenceCheck] for these endpoints: a write is an update unless
    the resource is found not to exist. *)
Definition existenceCheck (path : string) : handler (res string) :=
  match approval_endpoint path with
  | None => Ret (Ok UpdateOperation)
  | Some e =>
      match ExistenceCheck e with
      | None => Ret (Ok UpdateOperation)
      | Some check =>
          r ← check;
          Ret (match r with
               | Err ErrRelativePath => Err ErrRelativePath
               | Err _ => Err ErrInternalError
               | Ok true => Ok UpdateOperation
               | Ok false => Ok CreateOperation
               end)
      end
  end.
End callbacks.
