(* ===== verification/RequestHandling.v ===== *)
(** * [vault/request_handling.go]: dispatch of an authenticated request

    The part of [handleRequest] that follows authentication, auditing and
    quotas: the approval interceptor, routing, response wrapping, and the
    registration of a returned secret with the expiration manager. The
    handling of an [Auth] block, which only the token store may return, is
    not part of it. *)

From S2P Require Import Prelude GoLib Storage Core Lease ApprovalTypes ApprovalCore.

(** [Request.IsSnapshotReadOrList]. *)
Definition IsSnapshotReadOrList (r : Request) : bool :=
  (bool_decide (req_Operation r = ReadOperation) || bool_decide (req_Operation r = ListOperation))
  && negb (bool_decide (req_RequiresSnapshotID r = "")).

Definition set_WrapInfo (w : option ResponseWrapInfo) (r : Response) : Response :=
  mkResponse (resp_Data r) (resp_Warnings r) (resp_Secret r) w (resp_MountType r).
Definition set_MountType (t : string) (r : Response) : Response :=
  mkResponse (resp_Data r) (resp_Warnings r) (resp_Secret r) (resp_WrapInfo r) t.
Definition set_Secret (s : option Secret) (r : Response) : Response :=
  mkResponse (resp_Data r) (resp_Warnings r) s (resp_WrapInfo r) (resp_MountType r).
Definition add_warnings (l : list value) (r : Response) : Response :=
  mkResponse (resp_Data r) (resp_Warnings r ++ l) (resp_Secret r) (resp_WrapInfo r)
    (resp_MountType r).

(** The wrapping of the response: the shorter of the two times to live, the
    response's format before the request's. *)
Definition wrap_response (req : Request) (resp : Response) : Response :=
  let ttl0 := match resp_WrapInfo resp with
              | Some w => if 0 <? wi_TTL w then wi_TTL w else 0
              | None => 0
              end in
  let format0 := from_option wi_Format "" (resp_WrapInfo resp) in
  let creationPath := from_option wi_CreationPath "" (resp_WrapInfo resp) in
  let sealWrap := from_option wi_SealWrap false (resp_WrapInfo resp) in
  let '(ttl, format) :=
    match req_WrapInfo req with
    | Some w =>
        (if 0 <? rw_TTL w then
           if ttl0 =? 0 then rw_TTL w
           else if rw_TTL w <? ttl0 then rw_TTL w else ttl0
         else ttl0,
         if negb (bool_decide (rw_Format w = "")) && bool_decide (format0 = "")
         then rw_Format w else format0)
    | None => (ttl0, format0)
    end in
  set_WrapInfo (if 0 <? ttl then Some (mkRespWrap ttl format creationPath sealWrap) else None)
    resp.

Definition leased_passthrough (options : option (gmap string string)) : bool :=
  bool_decide (default ∅ options !! "leased_passthrough" = Some "true").

(** Whether a secret returned by the mount is registered: a key-value mount
    returns a time to live without a lease. *)
Definition registers_lease (req : Request) (entry : MountEntry) : handler (res bool) :=
  if bool_decide (me_Type entry = "kv") || bool_decide (me_Type entry = "generic") then
    backend ← trigger (MatchingBackend (req_Path req));
    Ret (match backend with
         | None => Err ErrInternalError
         | Some (PassthroughBackend generates) => Ok generates
         | Some OtherBackend =>
             if negb (leased_passthrough (me_Options entry)) then Ok false
             else Ok (negb (IsSnapshotReadOrList req))
         end)
  else if decide (me_Type entry = "plugin") then
    Ret (Ok (negb (bool_decide (me_PluginName entry = "kv")
              && (negb (leased_passthrough (me_Options entry)) || IsSnapshotReadOrList req))))
  else Ret (Ok true).

Definition set_Renewable (b : bool) (s : Secret) : Secret :=
  mkSecret (TTL s) (MaxTTL s) b (LeaseID s).
Definition set_TTL (t : Z) (s : Secret) : Secret :=
  mkSecret t (MaxTTL s) (Renewable s) (LeaseID s).
Definition set_LeaseID (id : string) (s : Secret) : Secret :=
  mkSecret (TTL s) (MaxTTL s) (Renewable s) id.

(** The registration itself. *)
Definition register_secret (req : Request) (resp : Response) (s : Secret) : handler Resp :=
  if IsSnapshotReadOrList req then
    Ret (Some (ErrorResponse "cannot register lease for snapshot read or list" []),
         Some ErrInternalError)
  else
    sysView ← trigger (MatchingSystemView (req_Path req));
    match sysView with
    | None => Ret (None, Some ErrInternalError)
    | Some sysView =>
        now ← trigger Now;
        match CalculateTTL sysView 0 (TTL s) 0 (MaxTTL s) 0 0 now with
        | Err err => Ret (None, Some err)
        | Ok (ttl, warnings) =>
            let s := set_TTL ttl s in
            let resp := add_warnings (ttl_warning <$> warnings) resp in
            leaseID ← trigger (Register req s);
            match leaseID with
            | Err _ => Ret (None, Some ErrInternalError)
            | Ok id => Ret (Some (set_Secret (Some (set_LeaseID id s)) resp), None)
            end
        end
    end.

Definition renew_path (path : string) : bool :=
  HasPrefix path "sys/renew" || HasPrefix path "sys/leases/renew".

(** The handling of the secret of a response. *)
Definition handle_secret (req : Request) (resp : Response) : handler Resp :=
  match resp_Secret resp with
  | None => Ret (Some resp, None)
  | Some s =>
      if renew_path (req_Path req) then Ret (Some resp, None)
      else
        entry ← trigger (MatchingMountEntry (req_Path req));
        match entry with
        | None => Ret (None, Some ErrInternalError)
        | Some entry =>
            reg ← registers_lease req entry;
            match reg with
            | Err err => Ret (None, Some err)
            | Ok false => Ret (Some (set_Secret (Some (set_Renewable false s)) resp), None)
            | Ok true => register_secret req resp s
            end
        end
  end.

(** Routing and what follows it. The routing error, if any, is returned with
    the response unless an error of the secret's handling comes first. *)
Definition route_request (entry : option MountEntry) (req : Request) : handler Resp :=
  r ← trigger (Route req);
  match r with
  | (None, routeErr) => Ret (None, routeErr)
  | (Some resp, routeErr) =>
      let resp := match entry with
                  | Some e => set_MountType (me_Type e) resp
                  | None => resp
                  end in
      h ← handle_secret req (wrap_response req resp);
      Ret (match h with
           | (resp, Some err) => (resp, Some err)
           | (resp, None) => (resp, routeErr)
           end)
  end.

(** The interceptor, then routing. *)
Definition dispatch (c : Core) (ctx : Ctx) (entry : option MountEntry) (req : Request)
    (auth : option Auth) : handler Resp :=
  if isApprovalBypass ctx then route_request entry req
  else
    r ← checkNeedsApproval c req auth;
    match r with
    | (resp, intercepted, err) =>
        if intercepted || bool_decide (is_Some err) then Ret (resp, err)
        else route_request entry req
    end.
