(* ===== verification/ApprovalJson.v ===== *)
(** * The JSON round trip of the stored records

    What is read back is what was written, up to two effects of the encoding:
    a string is made valid UTF-8, and an empty credential map, which
    [omitempty] drops, comes back as [nil]. *)

From S2P Require Import Prelude GoLib Storage Core ApprovalTypes.

Definition norm_rule (r : ApprovalRule) : ApprovalRule :=
  mkRule (valid_utf8 (RuleID r)) (valid_utf8 (Description r))
    (valid_utf8 (TargetMountPath r)) (valid_utf8 <$> AuthorizedApprovers r)
    (ApprovalsRequired r) (valid_utf8 (SlackWebhookURL r))
    (valid_utf8 (CreatedByEntityID r)) (AllowSelfApproval r).

Definition norm_record (a : ApprovalRecord) : ApprovalRecord :=
  mkRecord (valid_utf8 (ApproverEntityID a)) (rec_ApprovedAt a).

Definition norm_headers (m : option (gmap string (list string)))
    : option (gmap string (list string)) :=
  (λ m, list_to_map (prod_map valid_utf8 (fmap valid_utf8) <$> map_to_list m)) <$> m.

Definition norm_credential (m : option (gmap string value)) : option (gmap string value) :=
  match m with
  | Some m' => if decide (m' = ∅) then None else m
  | None => None
  end.

Definition norm_pending (p : PendingRequest) : PendingRequest :=
  {| RequestID := valid_utf8 (RequestID p);
     p_RuleID := valid_utf8 (p_RuleID p);
     OriginalPath := valid_utf8 (OriginalPath p);
     OriginalOperation := valid_utf8 (OriginalOperation p);
     OriginalData := OriginalData p;
     OriginalHeaders := norm_headers (OriginalHeaders p);
     OriginalMountPoint := valid_utf8 (OriginalMountPoint p);
     RequesterEntityID := valid_utf8 (RequesterEntityID p);
     RequesterDisplayName := valid_utf8 (RequesterDisplayName p);
     Approvals := norm_record <$> Approvals p;
     Status := valid_utf8 (Status p);
     CreatedAt := CreatedAt p;
     ExpiresAt := ExpiresAt p;
     CredentialData := norm_credential (CredentialData p);
     ApprovedAt := ApprovedAt p;
     SecretTTL := SecretTTL p;
     SecretMaxTTL := SecretMaxTTL p;
     Justification := valid_utf8 (Justification p) |}.

Definition norm_history (h : ApprovalHistoryEntry) : ApprovalHistoryEntry :=
  {| h_RequestID := valid_utf8 (h_RequestID h);
     h_RuleID := valid_utf8 (h_RuleID h);
     h_OriginalPath := valid_utf8 (h_OriginalPath h);
     h_RequesterEntityID := valid_utf8 (h_RequesterEntityID h);
     h_RequesterDisplayName := valid_utf8 (h_RequesterDisplayName h);
     h_Justification := valid_utf8 (h_Justification h);
     h_Status := valid_utf8 (h_Status h);
     h_CreatedAt := h_CreatedAt h;
     ResolvedAt := ResolvedAt h;
     ResolvedBy := valid_utf8 (ResolvedBy h);
     ResolvedByName := valid_utf8 (ResolvedByName h);
     HistoryExpiresAt := HistoryExpiresAt h |}.

(** ** Members of an object written with [omitempty] *)

Lemma assoc_app k o1 o2 :
  assoc k (o1 ++ o2) = match assoc k o1 with Some v => Some v | None => assoc k o2 end.
Proof. induction o1 as [|[k' v] o1 IH]; [done|]. simpl. by case_decide. Qed.

Lemma assoc_omit_str_ne k k' s : k ≠ k' → assoc k (omit_str k' s) = None.
Proof. intros Hk. unfold omit_str. case_decide; [done|]. simpl. by rewrite decide_False. Qed.
Lemma assoc_omit_num_ne k k' z : k ≠ k' → assoc k (omit_num k' z) = None.
Proof. intros Hk. unfold omit_num. case_decide; [done|]. simpl. by rewrite decide_False. Qed.
Lemma assoc_omit_bool_ne k k' b : k ≠ k' → assoc k (omit_bool k' b) = None.
Proof. intros Hk. destruct b; [|done]. simpl. by rewrite decide_False. Qed.
Lemma assoc_omit_map_ne k k' m : k ≠ k' → assoc k (omit_map k' m) = None.
Proof.
  intros Hk. destruct m as [m|]; [|done]. simpl. case_decide; [done|].
  simpl. by rewrite decide_False.
Qed.

Lemma valid_utf8_empty : valid_utf8 "" = "".
Proof. reflexivity. Qed.

(** Decoding one member, whatever precedes and follows it. *)
Section members.
Context (o : list (string * value)) (k : string).

Lemma dec_string_member s : assoc k o = Some (enc_str s) → dec_string o k = Ok (valid_utf8 s).
Proof. unfold dec_string. by intros ->. Qed.
Lemma dec_string_omit s :
  assoc k o = assoc k (omit_str k s) → dec_string o k = Ok (valid_utf8 s).
Proof.
  unfold dec_string, omit_str. intros ->. case_decide as Hs; [by rewrite Hs|].
  simpl. by rewrite decide_True.
Qed.
Lemma dec_int_member z : assoc k o = Some (VNum z) → int64_ok z = true → dec_int o k = Ok z.
Proof. unfold dec_int. by intros -> ->. Qed.
Lemma dec_int_omit z :
  assoc k o = assoc k (omit_num k z) → int64_ok z = true → dec_int o k = Ok z.
Proof.
  unfold dec_int, omit_num. intros -> Hz. case_decide as H0; [by rewrite H0|].
  simpl. by rewrite decide_True, Hz.
Qed.
Lemma dec_bool_omit b : assoc k o = assoc k (omit_bool k b) → dec_bool o k = Ok b.
Proof. unfold dec_bool. intros ->. destruct b; [|done]. simpl. by rewrite decide_True. Qed.
Lemma dec_time_member t : assoc k o = Some (VTime t) → dec_time o k = Ok t.
Proof. unfold dec_time. by intros ->. Qed.
Lemma dec_map_omit m :
  assoc k o = assoc k (omit_map k m) → dec_map Ok o k = Ok (norm_credential m).
Proof.
  unfold dec_map, omit_map, norm_credential. intros ->. destruct m as [m|]; [|done].
  case_decide; [done|]. simpl. rewrite decide_True by done. simpl.
  rewrite (mapR_pairs Ok id) by done. simpl. by rewrite list_to_map_to_list.
Qed.
Lemma dec_list_member {A B} (f : value → res B) (g : A → value) (n : A → B) l :
  (∀ a, f (g a) = Ok (n a)) →
  assoc k o = Some (VArr (g <$> l)) → dec_list f o k = Ok (n <$> l).
Proof.
  intros Hfg. unfold dec_list. intros ->.
  induction l as [|a l IH]; [done|]. rewrite !fmap_cons. cbn [mapR].
  rewrite Hfg. simpl. by rewrite IH.
Qed.
End members.

Lemma match_option_id {A} (x : option A) :
  match x with Some v => Some v | None => None end = x.
Proof. by destruct x. Qed.

Lemma bind_ok {A B} (m : res A) (f : A → res B) a r : m = Ok a → f a = r → (m ≫= f) = r.
Proof. by intros -> <-. Qed.

(** Computes [assoc] on a written object; decides equalities of literals. *)
Ltac solve_assoc :=
  cbn [app assoc];
  repeat first
    [ rewrite assoc_app
    | rewrite decide_True by done
    | rewrite decide_False by done
    | match goal with |- context [assoc ?k (omit_str ?k' ?s)] =>
        rewrite (assoc_omit_str_ne k k' s) by done end
    | match goal with |- context [assoc ?k (omit_num ?k' ?s)] =>
        rewrite (assoc_omit_num_ne k k' s) by done end
    | match goal with |- context [assoc ?k (omit_bool ?k' ?s)] =>
        rewrite (assoc_omit_bool_ne k k' s) by done end
    | match goal with |- context [assoc ?k (omit_map ?k' ?s)] =>
        rewrite (assoc_omit_map_ne k k' s) by done end
    | progress cbn [app assoc] ];
  try rewrite match_option_id; reflexivity.

(** The next field of a struct. *)
Ltac dec_field :=
  eapply bind_ok;
  [ first [ apply dec_string_member; solve_assoc
          | apply dec_string_omit; solve_assoc
          | apply dec_int_member; [solve_assoc|done]
          | apply dec_int_omit; [solve_assoc|done]
          | apply dec_bool_omit; solve_assoc
          | apply dec_time_member; solve_assoc
          | apply dec_map_omit; solve_assoc
          | eapply dec_list_member; [|solve_assoc]; done ]
  | cbv beta ].

Lemma dec_enc_rule r :
  int64_ok (ApprovalsRequired r) = true → dec_rule (enc_rule r) = Ok (norm_rule r).
Proof. intros Hn. unfold enc_rule, dec_rule. repeat dec_field. reflexivity. Qed.

Lemma dec_enc_record a : dec_record (enc_record a) = Ok (norm_record a).
Proof. done. Qed.

Lemma dec_enc_strs l : dec_strs (enc_strs l) = Ok (valid_utf8 <$> l).
Proof.
  unfold dec_strs, enc_strs. induction l as [|s l IH]; [done|].
  rewrite !fmap_cons. cbn [mapR]. simpl. by rewrite IH.
Qed.

Lemma dec_headers_member o k m :
  assoc k o = Some (enc_headers m) → dec_map dec_strs o k = Ok (norm_headers m).
Proof.
  intros Ho. unfold dec_map. rewrite Ho. destruct m as [m|]; [|done].
  unfold enc_headers, norm_headers. simpl.
  assert (∀ l : list (string * list string),
    mapR (λ '(k, v), a ← dec_strs v; Ok (k, a)) (prod_map valid_utf8 enc_strs <$> l)
    = Ok (prod_map valid_utf8 (fmap valid_utf8) <$> l)) as ->; [|done].
  induction l as [|[k' l'] l IH]; [done|]. rewrite !fmap_cons. cbn [mapR prod_map fst snd].
  rewrite dec_enc_strs. simpl. by rewrite IH.
Qed.

Lemma dec_enc_pending p :
  int64_ok (SecretTTL p) = true → int64_ok (SecretMaxTTL p) = true →
  dec_pending (enc_pending p) = Ok (norm_pending p).
Proof.
  intros Ht Hm. unfold enc_pending, dec_pending.
  repeat first
    [ dec_field
    | eapply bind_ok; [apply (dec_enc_map Ok id); [done|solve_assoc]|cbv beta]
    | eapply bind_ok; [apply dec_headers_member; solve_assoc|cbv beta]
    | eapply bind_ok; [eapply (dec_list_member _ _ dec_record enc_record norm_record);
                       [done|solve_assoc]|cbv beta] ].
  reflexivity.
Qed.

Lemma bind_inv {A B} (m : res A) (f : A → res B) b : (m ≫= f) = Ok b → ∃ a, m = Ok a ∧ f a = Ok b.
Proof. destruct m as [a|]; [|done]. by exists a. Qed.

Lemma dec_int_inv o k z n : assoc k o = assoc k (omit_num k z) → dec_int o k = Ok n → int64_ok z = true.
Proof.
  unfold dec_int, omit_num. intros ->. case_decide as H0; [by rewrite H0|].
  simpl. rewrite decide_True by done. by destruct (int64_ok z).
Qed.

(** Whatever is read back is the normal form. *)
Lemma dec_enc_pending_inv p p' : dec_pending (enc_pending p) = Ok p' → p' = norm_pending p.
Proof.
  intros Hd. enough (int64_ok (SecretTTL p) = true ∧ int64_ok (SecretMaxTTL p) = true) as [Ht Hm].
  { rewrite dec_enc_pending in Hd by done. congruence. }
  unfold enc_pending, dec_pending in Hd.
  do 15 (apply bind_inv in Hd as (? & _ & Hd)).
  apply bind_inv in Hd as (n & Hn & Hd). apply bind_inv in Hd as (n' & Hn' & _).
  split; eapply dec_int_inv; [|exact Hn| |exact Hn']; solve_assoc.
Qed.

Lemma dec_enc_rule_inv r r' : dec_rule (enc_rule r) = Ok r' → r' = norm_rule r.
Proof.
  intros Hd. enough (int64_ok (ApprovalsRequired r) = true) as Hn.
  { rewrite dec_enc_rule in Hd by done. congruence. }
  unfold enc_rule, dec_rule in Hd. do 4 (apply bind_inv in Hd as (? & _ & Hd)).
  apply bind_inv in Hd as (n & Hn & _). revert Hn. unfold dec_int.
  assert (∀ o, assoc "approvals_required" o = Some (VNum (ApprovalsRequired r)) →
    (match assoc "approvals_required" o with
     | None | Some VNil => Ok 0
     | Some (VNum z) => if int64_ok z then Ok z else Err ErrDecode
     | _ => Err ErrDecode
     end) = Ok n → int64_ok (ApprovalsRequired r) = true) as Haux.
  { intros o ->. by destruct (int64_ok (ApprovalsRequired r)). }
  apply Haux. solve_assoc.
Qed.

Lemma dec_enc_history h : dec_history (enc_history h) = Ok (norm_history h).
Proof. unfold enc_history, dec_history. repeat dec_field. reflexivity. Qed.
