(* ===== verification/CoreLogic.v ===== *)
(** * Reasoning about handlers

    [wp env p Q w]: the handler [p], run alone from the world [w] in the
    environment [env], returns a value and a world that satisfy [Q]. The
    rules for the storage operations hold for every environment: a storage
    operation may fail at any time. *)

From S2P Require Import Prelude GoLib Storage Core ApprovalTypes ApprovalCore.

(** The physical key of an entry of the approval view. *)
Definition akey (k : string) : string := "sys/approvals/" +:+ k.

Lemma akey_inj k1 k2 : akey k1 = akey k2 → k1 = k2.
Proof. apply str_app_inj_l. Qed.

(** [w'] differs from [w] in nothing but the number of effects performed. *)
Record ro (w w' : World) : Prop := mk_ro {
  ro_phys : w_phys w' = w_phys w;
  ro_routed : w_routed w' = w_routed w;
  ro_slack : w_slack w' = w_slack w;
  ro_leases : w_leases w' = w_leases w;
}.

#[export] Instance ro_preorder : PreOrder ro.
Proof. split; [done|]. intros w1 w2 w3 [] []. split; congruence. Qed.

Lemma ro_store w w' : ro w w' → w_store w' = w_store w.
Proof. intros []. unfold w_store. congruence. Qed.

Lemma ro_tick w : ro w (tick w).
Proof. done. Qed.

(** [w'] is [w] with the stored entries [m]. *)
Definition stored (m : gmap string blob) (w w' : World) : Prop :=
  ro (set_phys (Inmem.set_root m (w_phys w)) w) w'.

Lemma stored_store m w w' : stored m w w' → w_store w' = m.
Proof. intros Hs. by rewrite (ro_store _ _ Hs). Qed.

Lemma stored_self w w' : ro w w' → stored (w_store w) w w'.
Proof.
  intros Hro. unfold stored. etrans; [|exact Hro]. unfold w_store.
  destruct w as [[] ? ? ? ?]; by split.
Qed.

Lemma stored_ro_r m w w' w'' : stored m w w' → ro w' w'' → stored m w w''.
Proof. intros Hs Hr. unfold stored. by etrans. Qed.

Lemma stored_ro_l m w w' w'' : ro w w' → stored m w' w'' → stored m w w''.
Proof.
  intros Hr Hs. unfold stored. etrans; [|exact Hs]. destruct Hr. by split; simpl; [f_equal|..].
Qed.

Lemma stored_trans m1 m2 w w' w'' : stored m1 w w' → stored m2 w' w'' → stored m2 w w''.
Proof.
  intros H1 H2. unfold stored. etrans; [|exact H2]. destruct H1 as [Hp Hr Hsl Hl]. simpl in *.
  split; simpl; [by rewrite Hp|done..].
Qed.

Lemma stored_routed m w w' : stored m w w' → w_routed w' = w_routed w.
Proof. by intros [_ ? _ _]. Qed.
Lemma stored_leases m w w' : stored m w w' → w_leases w' = w_leases w.
Proof. by intros [_ _ _ ?]. Qed.
Lemma stored_slack m w w' : stored m w w' → w_slack w' = w_slack w.
Proof. by intros [_ _ ? _]. Qed.

Section wp.
Context `{RadixTree} (env : Env).

Definition wp {A} (p : handler A) (Q : A → World → Prop) (w : World) : Prop :=
  Q (exec env p w).1 (exec env p w).2.

Lemma wp_ret {A} (a : A) Q w : Q a w → wp (Ret a) Q w.
Proof. done. Qed.

Lemma wp_bind {A B} (p : handler A) (f : A → handler B) Q w :
  wp p (λ a w', wp (f a) Q w') w → wp (p ≫= f) Q w.
Proof. unfold wp. by rewrite exec_bind. Qed.

Lemma wp_mono {A} (p : handler A) (Q Q' : A → World → Prop) w :
  (∀ a w', Q a w' → Q' a w') → wp p Q w → wp p Q' w.
Proof. unfold wp. auto. Qed.

Lemma wp_trigger {X} (e : coreE X) Q w :
  Q (core_handle env X e w).1 (core_handle env X e w).2 → wp (trigger e) Q w.
Proof. done. Qed.

(** Every effect takes one tick. *)
Lemma core_tick {X} (e : coreE X) w : w_tick (core_handle env X e w).2 = S (w_tick w).
Proof. destruct e; try done; simpl; unfold write_result; by repeat case_match. Qed.

Lemma exec_tick {A} (p : handler A) w : (w_tick w ≤ w_tick (exec env p w).2)%nat.
Proof.
  revert w. induction p as [a|X e k IH]; intros w; [done|].
  eapply Nat.le_trans; [|apply (IH (core_handle env X e w).1 (core_handle env X e w).2)].
  rewrite core_tick. lia.
Qed.

Lemma wp_tick {A} (p : handler A) Q w :
  wp p (λ a w', (w_tick w ≤ w_tick w')%nat → Q a w') w → wp p Q w.
Proof. intros Hp. apply Hp, exec_tick. Qed.

Lemma wp_now Q w : (∀ w', ro w w' → Q (env_clock env (w_tick w)) w') → wp (trigger Now) Q w.
Proof. intros HQ. by apply wp_trigger, HQ. Qed.

Lemma wp_uuid Q w :
  (∀ w', ro w w' → Q (env_uuid env (w_tick w)) w') → wp (trigger GenerateUUID) Q w.
Proof. intros HQ. by apply wp_trigger, HQ. Qed.

Lemma wp_route req Q w :
  (∀ w', ro (add_routed req w) w' → Q (env_backend env (w_tick w) req) w') →
  wp (trigger (Route req)) Q w.
Proof. intros HQ. by apply wp_trigger, HQ. Qed.

(** ** Storage through the approval view *)

(** The view of the approval data, below its read-only check. *)
Definition aview : StorageView coreE blob := mkView barrier "sys/approvals/".

Lemma view_key k : ExpandKey aview k = akey k.
Proof. done. Qed.

Lemma wp_Get c k Q w :
  (∀ r w', ro w w' →
     (∀ e, r = Ok (Some e) → w_store w !! akey k = Some (Value e)) →
     (r = Ok None → w_store w !! akey k = None) → Q r w') →
  wp (Get (approvalStorage c) k) Q w.
Proof.
  intros HQ. change (Get (approvalStorage c) k) with (view_Get aview k). unfold view_Get. destruct (SanityCheck k) as [err|]; [by apply HQ|].
  rewrite view_key. apply wp_bind. unfold wp at 1. simpl.
  unfold Inmem.GetInternal.
  destruct (env_fault env (w_tick w)); [|by apply HQ..].
  destruct (Inmem.failGet (w_phys w)); [by apply HQ|]. simpl.
  destruct (Inmem.root (w_phys w) !! akey k) as [b|] eqn:Hb; apply HQ; try done.
  by intros e [= <-].
Qed.

Lemma wp_List c p Q w :
  (∀ r w', ro w w' →
     (∀ l, r = Ok l → Inmem.failList (w_phys w) = false ∧
                       Inmem.ListInternal (akey p) (w_phys w) = Ok l) → Q r w') →
  wp (List (approvalStorage c) p) Q w.
Proof.
  intros HQ. change (List (approvalStorage c) p) with (view_List aview p). unfold view_List. destruct (SanityCheck p) as [err|]; [by apply HQ|].
  rewrite view_key. apply wp_trigger. simpl. unfold Inmem.ListInternal in *.
  destruct (env_fault env (w_tick w)); [|by apply HQ..].
  destruct (Inmem.failList (w_phys w)); [by apply HQ|]. simpl. apply HQ; [done|].
  by intros l [= <-].
Qed.

(** A write reports success only if it took effect; it may take effect and
    report an error. *)
Definition wrote (err : option goerr) (m : gmap string blob) (w w' : World) : Prop :=
  stored m w w' ∨ (ro w w' ∧ is_Some err).

Lemma wp_write_result o r m Q w :
  (r.1 = None → r.2 = Inmem.set_root m (w_phys w)) →
  (is_Some r.1 → r.2 = w_phys w) →
  (∀ err w', wrote err m w w' → Q err w') →
  Q (write_result o r w).1 (write_result o r w).2.
Proof.
  intros Hok Herr HQ. destruct r as [[e|] i]; simpl in *.
  - rewrite Herr by done. unfold write_result. simpl.
    destruct o; apply HQ; right; by split.
  - rewrite Hok by done. unfold write_result. simpl.
    destruct o; apply HQ; [by left|by right; split|by left].
Qed.

Lemma wp_Put c k b Q w :
  (∀ err w', wrote err (<[akey k := b]> (w_store w)) w w' → Q err w') →
  wp (Put (approvalStorage c) (Some (mkEntry k b))) Q w.
Proof.
  intros HQ. change (Put (approvalStorage c) (Some (mkEntry k b)))
    with (barrier_Put (mkBarrier aview (core_readOnly c)) (Some (mkEntry k b))).
  unfold barrier_Put. cbn [readOnlyErr bstorage].
  destruct (core_readOnly c) as [e|].
  { apply HQ. by right. }
  unfold view_Put. cbn [Key Value]. destruct (SanityCheck k) as [err|].
  { apply HQ. by right. }
  rewrite view_key. apply wp_trigger. simpl. refine (wp_write_result _ _ _ Q w _ _ HQ).
  - unfold Inmem.PutInternal. by repeat case_match.
  - unfold Inmem.PutInternal. repeat case_match; simpl; intros [? ?]; done.
Qed.

Lemma wp_Delete c k Q w :
  (∀ err w', wrote err (delete (akey k) (w_store w)) w w' → Q err w') →
  wp (Delete (approvalStorage c) k) Q w.
Proof.
  intros HQ. change (Delete (approvalStorage c) k) with (barrier_Delete (mkBarrier aview (core_readOnly c)) k).
  unfold barrier_Delete. cbn [readOnlyErr bstorage].
  destruct (core_readOnly c) as [e|].
  { apply HQ. by right. }
  unfold view_Delete. destruct (SanityCheck k) as [err|].
  { apply HQ. by right. }
  rewrite view_key. apply wp_trigger. simpl. refine (wp_write_result _ _ _ Q w _ _ HQ).
  - unfold Inmem.DeleteInternal. by repeat case_match.
  - unfold Inmem.DeleteInternal. repeat case_match; simpl; intros [? ?]; done.
Qed.
End wp.
