(* ===== verification/ApprovalLogic.v ===== *)
(** * Specifications of the workflow's building blocks

    Rules for [wp], one per helper of [ApprovalCore] and [ApprovalHandlers];
    the theorems about whole handlers are composed from them. *)

From S2P Require Import Prelude GoLib Storage Core ApprovalTypes ApprovalCore ApprovalHandlers CoreLogic.

(** The stored entry [k] decodes to [a]. *)
Definition entry_at {A} (dec : value → res A) (m : gmap string blob) (k : string) (a : A)
    : Prop :=
  ∃ v, m !! akey k = Some (Doc v) ∧ dec v = Ok a.

Abbreviation pending_at m id p := (entry_at dec_pending m ("pending/" +:+ id) p).
Abbreviation rule_at m id r := (entry_at dec_rule m ("config/" +:+ id) r).
Abbreviation history_at m id h := (entry_at dec_history m ("history/" +:+ id) h).

Lemma entry_at_fun {A} (dec : value → res A) m k a b :
  entry_at dec m k a → entry_at dec m k b → a = b.
Proof. intros (v & Hv & Ha) (v' & Hv' & Hb). congruence. Qed.

(** The token of the request is, in the environment, a root token. *)
Definition root_token (env : Env) (req : Request) : Prop :=
  ∃ n te, env_token env n (req_ClientToken req) = Ok (Some te) ∧ "root" ∈ te_Policies te.

Lemma wp_range `{RadixTree} env {A S R} (I : S → World → Prop) (Q : S + R → World → Prop)
    (l : list A) s (body : A → S → handler (S + R)) w :
  I s w →
  (∀ x s w, x ∈ l → I s w →
     wp env (body x s) (λ r w', match r with inl s' => I s' w' | inr _ => Q r w' end) w) →
  (∀ s w, I s w → Q (inl s) w) →
  wp env (range l s body) Q w.
Proof.
  intros HI Hbody HQ. revert s w HI. induction l as [|x l IH]; intros s w HI.
  { by apply HQ. }
  simpl. apply wp_bind. eapply wp_mono; [|by apply Hbody; [set_solver|]].
  intros [s'|r] w' Hr; [|done]. apply IH; [|done].
  intros y s'' w'' Hy. apply Hbody. set_solver.
Qed.

Section blocks.
Context `{GoTables} `{RadixTree} (env : Env) (c : Core).

Lemma wp_get_entry {A} (dec : value → res A) k Q w :
  (∀ r w', ro w w' →
     (∀ a, r = Ok (Some a) → entry_at dec (w_store w) k a) →
     (r = Ok None → w_store w !! akey k = None) → Q r w') →
  wp env (get_entry dec c k) Q w.
Proof.
  intros HQ. apply wp_bind, wp_Get. intros r w' Hro Hsome Hnone. apply wp_ret.
  destruct r as [[[key b]|]|err]; [|by apply HQ; auto..].
  specialize (Hsome _ eq_refl). simpl in Hsome. unfold DecodeJSON. simpl.
  destruct b as [v|]; [|by apply HQ].
  destruct (dec v) as [a|err] eqn:Hdec; apply HQ; try done.
  intros a' [= <-]. by exists v.
Qed.

Lemma wp_read_listed {A} (dec : value → res A) k Q w :
  (∀ r w', ro w w' → (∀ a, r = Some a → entry_at dec (w_store w) k a) → Q r w') →
  wp env (read_listed dec c k) Q w.
Proof.
  intros HQ. apply wp_bind, wp_Get. intros r w' Hro Hsome Hnone. apply wp_ret.
  destruct r as [[[key b]|]|err]; [|by apply HQ..].
  specialize (Hsome _ eq_refl). simpl in Hsome. unfold DecodeJSON. simpl.
  destruct b as [v|]; [|by apply HQ].
  destruct (dec v) as [a|err] eqn:Hdec; apply HQ; try done.
  intros a' [= <-]. by exists v.
Qed.

Lemma wp_put_json k times v Q w :
  (∀ err w', wrote err (<[akey k := Doc v]> (w_store w)) w w' → Q err w') →
  wp env (put_entry c (StorageEntryJSON k times v)) Q w.
Proof.
  intros HQ. unfold StorageEntryJSON, put_entry. destruct (forallb _ times).
  - by apply wp_Put.
  - apply HQ. by right.
Qed.

Lemma wp_drop_pending id Q w :
  (∀ err w', wrote err (delete (akey ("pending/" +:+ id)) (w_store w)) w w' → Q () w') →
  wp env (drop_pending c id) Q w.
Proof. intros HQ. apply wp_bind, wp_Delete. intros err w' Hw. by eapply HQ. Qed.

Lemma wp_callerIsRoot req Q w :
  (∀ b w', ro w w' → (b = true → root_token env req) → Q b w') →
  wp env (callerIsRoot req) Q w.
Proof.
  intros HQ. unfold callerIsRoot. case_decide; [by apply HQ|].
  apply wp_bind, wp_trigger. simpl. apply wp_ret.
  destruct (env_token env (w_tick w) (req_ClientToken req)) as [[te|]|] eqn:Hte;
    apply HQ; try done.
  intros Hroot. exists (w_tick w), te. split; [done|].
  unfold has_root in Hroot. by apply bool_decide_eq_true in Hroot.
Qed.

Lemma wp_entity_name id Q w :
  (∀ s w', ro w w' → Q s w') → wp env (entity_name c id) Q w.
Proof.
  intros HQ. unfold entity_name. case_decide; [by apply HQ|].
  destruct (identityStore c); [|by apply HQ].
  apply wp_bind, wp_trigger. simpl. by apply wp_ret, HQ.
Qed.

Lemma wp_last_approver p Q w :
  (∀ r w', ro w w' → Q r w') → wp env (last_approver c p) Q w.
Proof.
  intros HQ. unfold last_approver. destruct (last (Approvals p)); [|by apply HQ].
  apply wp_bind, wp_entity_name. intros s w' Hro. by apply wp_ret, HQ.
Qed.

Lemma wp_time_Since t Q w :
  (∀ w', ro w w' → Q (time_Sub (env_clock env (w_tick w)) t) w') → wp env (time_Since t) Q w.
Proof. intros HQ. apply wp_bind, wp_now. intros w' Hro. by apply wp_ret, HQ. Qed.

Lemma wp_time_Since_tick t Q w :
  (∀ w', (w_tick w < w_tick w')%nat → Q (time_Sub (env_clock env (w_tick w)) t) w') →
  wp env (time_Since t) Q w.
Proof. intros HQ. apply wp_bind, wp_trigger, wp_ret, HQ. rewrite core_tick. lia. Qed.

(** ** The guards shared by approve and deny *)

(** What holds when the guards let a decision through: the request is the
    stored one, pending and not expired at some reading of the clock, and
    the rule the stored one. *)
Record decidable_request (m : gmap string blob) (id : string) (p : PendingRequest)
    (rule : ApprovalRule) : Prop := {
  dr_pending : pending_at m id p;
  dr_status : Status p = "pending";
  dr_alive : ∃ n, env_clock env n ≤ ExpiresAt p;
  dr_rule : rule_at m (p_RuleID p) rule;
}.

Lemma wp_pending_guards id Q w :
  (∀ p rule w', ro w w' → decidable_request (w_store w) id p rule → Q (inl (p, rule)) w') →
  (∀ resp w', ro w w' → Q (inr resp) w') →
  (∀ p resp err w', pending_at (w_store w) id p → Status p = "pending" →
     wrote err (delete (akey ("pending/" +:+ id)) (w_store w)) w w' → Q (inr resp) w') →
  wp env (pending_guards c id) Q w.
Proof.
  intros Hgo Hstop Hdrop. apply wp_bind, wp_get_entry. intros r w1 H1 Hp _.
  destruct r as [[p|]|err]; [|by apply wp_ret, Hstop..].
  specialize (Hp _ eq_refl). case_bool_decide as Hst; csimplb; [|by apply wp_ret, Hstop].
  assert (∀ resp w2, ro w w2 →
    wp env (_ ← drop_pending c id; Ret (inr resp)) Q w2) as Hd.
  { intros resp w2 Hro. apply wp_bind, wp_drop_pending. intros err w3 Hw. apply wp_ret.
    rewrite (ro_store _ _ Hro) in Hw. eapply (Hdrop p resp err); [done..|].
    destruct Hw as [Hw|[Hw Herr]]; [left; by eapply stored_ro_l|right].
    split; [by etrans|done]. }
  apply wp_bind, wp_now. intros w2 H2. unfold After. case_match eqn:Hexp.
  { apply Hd. by etrans. }
  apply wp_bind, wp_get_entry. intros r w3 H3 Hr _.
  assert (ro w w3) as Hro by (etrans; [|done]; by etrans).
  destruct r as [[rule|]|err]; [|by apply Hd|by apply wp_ret, Hstop].
  apply wp_ret, Hgo; [done|]. split; [done..| |].
  - exists (w_tick w1). apply Z.ltb_ge in Hexp. lia.
  - specialize (Hr _ eq_refl). by rewrite (ro_store _ _ H2), (ro_store _ _ H1) in Hr.
Qed.

(** The same, with what the guards answer when they stop. *)
Lemma wp_pending_guards_why id Q w :
  (∀ resp w', is_Some resp.2 ∨ (∃ text args, resp = err_resp text args) → Q (inr resp) w') →
  (∀ p rule w', ro w w' → decidable_request (w_store w) id p rule → Q (inl (p, rule)) w') →
  wp env (pending_guards c id) Q w.
Proof.
  intros Hstop Hgo. apply wp_bind, wp_get_entry. intros r w1 H1 Hp _.
  destruct r as [[p|]|err]; [|apply wp_ret, Hstop; by eauto..].
  specialize (Hp _ eq_refl). case_bool_decide as Hst; csimplb; [|apply wp_ret, Hstop; by eauto].
  assert (∀ resp w2, (∃ text args, resp = err_resp text args) →
    wp env (_ ← drop_pending c id; Ret (inr resp)) Q w2) as Hd.
  { intros resp w2 Hr. apply wp_bind, wp_drop_pending. intros err w3 _. apply wp_ret, Hstop. auto. }
  apply wp_bind, wp_now. intros w2 H2. unfold After. destruct (ExpiresAt p <? _) eqn:Hexp.
  { apply Hd. by eexists _, _. }
  apply wp_bind, wp_get_entry. intros r w3 H3 Hr _.
  assert (ro w w3) as Hro by (etrans; [|done]; by etrans).
  destruct r as [[rule|]|err]; [|apply Hd; by eexists _, _|apply wp_ret, Hstop; by eauto].
  apply wp_ret, Hgo; [done|]. split; [done..| |].
  - exists (w_tick w1). apply Z.ltb_ge in Hexp. lia.
  - specialize (Hr _ eq_refl). by rewrite (ro_store _ _ H2), (ro_store _ _ H1) in Hr.
Qed.

(** ** Recording a vote and executing *)

(** What holds when a vote may be recorded. *)
Record may_vote (req : Request) (p : PendingRequest) (rule : ApprovalRule) : Prop := {
  mv_authorised : root_token env req ∨
    approvalEntityIsAuthorized (req_EntityID req) (AuthorizedApprovers rule) = true;
  mv_duties : root_token env req ∨ AllowSelfApproval rule = true ∨
    req_EntityID req = "" ∨ req_EntityID req ≠ RequesterEntityID p;
  mv_once : req_EntityID req ≠ "" → req_EntityID req ∉ ApproverEntityID <$> Approvals p;
}.

Lemma wp_approve_denied req p rule Q w :
  (∀ w', ro w w' → may_vote req p rule → Q None w') →
  (∀ resp w', ro w w' → Q (Some resp) w') →
  wp env (approve_denied req p rule) Q w.
Proof.
  intros Hgo Hstop. unfold approve_denied. apply wp_bind, wp_callerIsRoot.
  intros root w1 H1 Hroot.
  destruct (negb root && negb _) eqn:Hauth; [by apply wp_ret, Hstop|].
  apply wp_bind, wp_callerIsRoot. intros root' w2 H2 Hroot'.
  assert (ro w w2) by by etrans.
  destruct (negb root' && _ && _ && _) eqn:Hsod; [by apply wp_ret, Hstop|].
  destruct (existsb _ _) eqn:Hdup; [by apply wp_ret, Hstop|].
  apply wp_ret, Hgo; [done|]. split.
  - apply andb_false_iff in Hauth as [?|?]; [left|right]; [apply Hroot|];
      by apply negb_false_iff.
  - apply andb_false_iff in Hsod as [[[?|?]%andb_false_iff|?]%andb_false_iff|?].
    + left. apply Hroot'. by apply negb_false_iff.
    + right; left. by apply negb_false_iff.
    + right; right; left. by apply (bool_decide_eq_true _), negb_false_iff.
    + do 3 right. by apply (bool_decide_eq_false _).
  - intros Hne (a & Ha & Hin)%list_elem_of_fmap.
    apply not_true_iff_false in Hdup. apply Hdup, existsb_exists.
    exists a. split; [by apply list_elem_of_In|].
    rewrite bool_decide_eq_true_2 by done. by rewrite bool_decide_eq_false_2.
Qed.

(** The execution hands the parked request, and nothing else, to the
    backend, at most once; it registers no lease. *)
Lemma wp_execute p Q w :
  (∀ err w', ro w w' → Q (Some err, p) w') →
  (∀ execID err w', ro (add_routed (reconstructed execID p) w) w' → Q (Some err, p) w') →
  (∀ execID n resp now err w',
     env_backend env n (reconstructed execID p) = (resp, None) →
     let p' := with_credential resp now p in
     wrote err (<[akey ("pending/" +:+ RequestID p) := Doc (enc_pending p')]> (w_store w))
       (add_routed (reconstructed execID p) w) w' → Q (err, p') w') →
  wp env (executeApprovedRequest c p) Q w.
Proof.
  intros Huuid Hback Hdone. apply wp_bind, wp_uuid. intros w1 H1.
  destruct (env_uuid env (w_tick w)) as [execID|err]; [|by apply wp_ret, Huuid].
  apply wp_bind, wp_route. intros w2 H2.
  assert (ro (add_routed (reconstructed execID p) w) w2) as H2'.
  { etrans; [|exact H2]. destruct H1. by split; simpl; [|f_equal|..]. }
  destruct (env_backend env _ _) as [resp [err|]] eqn:Hb.
  { by eapply wp_ret, Hback. }
  apply wp_bind, wp_now. intros w3 H3.
  assert (ro (add_routed (reconstructed execID p) w) w3) as H3' by by etrans.
  set (p' := with_credential _ _ _).
  assert (RequestID p' = RequestID p) as Hid by (subst p'; by destruct resp as [[? ? [] ? ?]|]).
  apply wp_bind, wp_put_json. intros err w4 Hw. apply wp_ret.
  eapply Hdone; [exact Hb|]. rewrite Hid, (ro_store _ _ H3') in Hw.
  destruct Hw as [Hw|[Hw ?]].
  - left. by eapply stored_ro_l.
  - right. split; [|done]. by etrans.
Qed.
End blocks.
