(* ===== verification/Router.v ===== *)
(** * [vault/router.go]: the router

    The routing table (mounting, unmounting, moving, tainting), the lookups by
    path, storage path, identifier and accessor, the special paths of a
    backend (those that need a root token, those that need no token), and
    [routeCommon], which prepares a request for the backend of its mount,
    calls it, and restores the request.

    Route entries are shared: the same entry is reachable by its mount path
    and by its storage prefix, and tainting it through one is seen through
    the other.  The table therefore holds locations of a store of entries. *)

From Stdlib Require Import Ascii.
From S2P Require Import Prelude GoLib Storage.

(** The search of go-radix's tree: the longest key that is a prefix. *)
Class RadixSearch : Type := {
  LongestPrefix : ∀ {V}, gmap string V → string → option (string * V);
  LongestPrefix_some : ∀ {V} (m : gmap string V) s k v,
    LongestPrefix m s = Some (k, v) ↔
    m !! k = Some v ∧ HasPrefix s k = true ∧
    ∀ k', is_Some (m !! k') → HasPrefix s k' = true → (String.length k' ≤ String.length k)%nat;
  LongestPrefix_none : ∀ {V} (m : gmap string V) s,
    LongestPrefix m s = None ↔ ∀ k, is_Some (m !! k) → HasPrefix s k = false;
}.

(** The iteration over a Go map: each key once, in no particular order. *)
Class MapRange : Type := {
  range_keys : ∀ {V}, gmap string V → list string;
  range_keys_elem : ∀ {V} (m : gmap string V) k, k ∈ range_keys m ↔ is_Some (m !! k);
  range_keys_NoDup : ∀ {V} (m : gmap string V), NoDup (range_keys m);
}.

(** [strutil.Difference] of go-secure-stdlib, with lowercasing: the elements
    of the first list, lowercased and possibly trimmed, that are not in the
    lowercased second list. *)
Class Strutil `{GoTables} : Type := {
  Difference : list string → list string → list string;
  Difference_from : ∀ a b x, x ∈ Difference a b →
    ∃ y, y ∈ a ∧ (x = ToLower y ∨ x = ToLower (of_bytes (TrimSpace (bytes y))));
  Difference_not_in : ∀ a b x, x ∈ Difference a b → x ∉ ToLower <$> b;
}.

(** The hash the mounts salt identifiers with. *)
Class Crypto : Type := { SHA1Hash : list N → list N }.

Module Router.

(** ** Special paths *)

(** [strings.Split(s, "/")]. *)
Fixpoint split_slash (s : string) : list string :=
  match s with
  | EmptyString => [EmptyString]
  | String c s =>
      if Ascii.eqb c "/"%char then EmptyString :: split_slash s
      else match split_slash s with
           | [] => [String c EmptyString]
           | w :: ws => String c w :: ws
           end
  end.

(** [strings.Count] of a byte. *)
Fixpoint count_byte (b : Ascii.ascii) (s : string) : nat :=
  match s with
  | EmptyString => 0
  | String c s => (if Ascii.eqb c b then 1 else 0) + count_byte b s
  end.

(** The last byte of a path is a star. *)
Definition ends_star (s : string) : bool := HasSuffix s "*".

(** The expression \+[^/]|[^/]\+ finds a match. *)
Fixpoint wcAdjacentNonSlashRegEx (s : string) : bool :=
  match s with
  | String a ((String b _) as s') =>
      (Ascii.eqb a "+"%char && negb (Ascii.eqb b "/"%char)) || (negb (Ascii.eqb a "/"%char) && Ascii.eqb b "+"%char)
      || wcAdjacentNonSlashRegEx s'
  | _ => false
  end.

Inductive err :=
| ErrNoNamespace
| ErrWildcard (path msg : string)
| ErrMountUnder (existing : string)
| ErrMissing (what path type : string)
| ErrNoMount (src : string)
| ErrUnsupportedPath
| ErrNilTokenEntry
| ErrEmptyCubbyholeID
| ErrSalt
| ErrBackend (what : string).

Definition isValidSpecialPath (path : string) : option err :=
  if (1 <? count_byte "*"%char path)%nat then
    Some (ErrWildcard path "(multiple '*' is forbidden)")
  else if Contains path "+*" then Some (ErrWildcard path "('+*' is forbidden)")
  else if Contains path "*" && negb (ends_star path) then
    Some (ErrWildcard path "('*' is only allowed at the end of a path)")
  else if wcAdjacentNonSlashRegEx path then
    Some (ErrWildcard path "('+' is not allowed next to a non-slash)")
  else None.

Record wildcardPath := mkWild { segments : list string; isPrefix : bool }.

Record specialPathsEntry := mkSpecial {
  paths : gmap string bool;
  wildcardPaths : list wildcardPath;
}.

(** The radix tree of special paths: whether the key is a prefix. *)
Definition pathsToRadix (l : list string) : gmap string bool :=
  fold_left (λ tree path,
    if ends_star path then <[TrimSuffix path "*" := true]> tree
    else <[path := false]> tree) l ∅.

Definition parse_wildcard (path : string) : wildcardPath :=
  if ends_star path then mkWild (split_slash (TrimSuffix path "*")) true
  else mkWild (split_slash path) false.

(** The loop of [parseSpecialPaths]. *)
Fixpoint parse_loop (l : list string) (tempPaths : list string) (wild : list wildcardPath)
    : result err (list string * list wildcardPath) :=
  match l with
  | [] => Ok (tempPaths, wild)
  | path :: l =>
      match isValidSpecialPath path with
      | Some e => Err e
      | None =>
          if Contains path "+" then parse_loop l tempPaths (wild ++ [parse_wildcard path])
          else parse_loop l (tempPaths ++ [path]) wild
      end
  end.

Definition parseSpecialPaths (l : list string) : result err specialPathsEntry :=
  match parse_loop l [] [] with
  | Err e => Err e
  | Ok (tempPaths, wild) => Ok (mkSpecial (pathsToRadix tempPaths) wild)
  end.

(** The loop over the segments; the last one of a prefix pattern matches a
    segment that it is a prefix of. *)
Fixpoint segments_match (path wcPath : list string) (isPrefix : bool) : bool :=
  match wcPath, path with
  | [], _ => true
  | w :: wcPath, p :: path =>
      (bool_decide (w = "+") || bool_decide (w = p)
       || (isPrefix && bool_decide (wcPath = []) && HasPrefix p w))
      && segments_match path wcPath isPrefix
  | _ :: _, [] => false
  end.

Definition pathMatchesWildcardPath (path wcPath : list string) (isPrefix : bool) : bool :=
  if decide (wcPath = []) then false
  else if (length path <? length wcPath)%nat then false
  else if negb isPrefix && negb (length wcPath =? length path)%nat then false
  else segments_match path wcPath isPrefix.

(** ** Mounts *)

Variant TokenType := TokenTypeDefault | TokenTypeService | TokenTypeBatch
| TokenTypeDefaultService | TokenTypeDefaultBatch | TokenTypeEnt.

Record MountEntry := mkEntry {
  Table : string;
  Path : string;
  Type_ : string;
  UUID : string;
  Accessor : string;
  Local_ : bool;
  Tainted : bool;
  nsPath : string;
  RunningSha256 : string;
  RunningVersion : string;
  Config_TokenType : TokenType;
  (** [synthesizedConfigCache]. *)
  passthrough_request_headers : option (list string);
  allowed_response_headers : option (list string);
}.

Definition credentialTableType : string := "auth".
Definition credentialRoutePrefix : string := "auth/".
Definition credentialBarrierPrefix : string := "auth/".
Definition mountPathSystem : string := "sys/".
Definition mountPathIdentity : string := "identity/".
Definition mountPathCubbyhole : string := "cubbyhole/".

Definition IsExternalPlugin (e : MountEntry) : bool := negb (bool_decide (RunningSha256 e = "")).

Definition MountClass (e : MountEntry) : string :=
  if bool_decide (Accessor e = "") || HasPrefix (Path e) (mountPathSystem +:+ "/") then ""
  else if decide (Table e = credentialTableType) then "auth"
  else "secret".

Definition headers := option (gmap string (list string)).

(** A token's entry, as far as routing reads it. *)
Record TokenEntry := mkTE {
  te_Type : TokenType;
  te_NamespaceID : string;
  te_CubbyholeID : string;
  te_ExternalID : string;
}.

Record WrapInfo := mkWrapInfo { w_TTL : Z; w_Format : string; w_SealWrap : bool }.

(** The request, with the fields that routing reads or writes; [Body] stands
    for the others. *)
Record Request := mkReq {
  ID : string;
  Operation : string;
  rPath : string;
  RecoverSourcePath : string;
  MountPoint : string;
  MountType : string;
  MountAccessor : string;
  MountRunningSha256 : string;
  MountRunningVersion : string;
  MountIsExternalPlugin : bool;
  rMountClass : string;
  rStorage : option string;
  EntityID : string;
  ClientToken : string;
  ClientTokenRemainingUses : Z;
  InboundSSCToken : string;
  rTokenEntry : option TokenEntry;
  Headers : headers;
  WrapInfo_ : option WrapInfo;
  MFACreds : option value;
  ControlGroup : option value;
  PolicyOverride : bool;
  Connection : option value;
  LastRemoteWAL : Z;
  Body : value;
}.

Record Alias := mkAlias { a_Name : string; a_MountAccessor : string }.
Record Auth := mkAuth {
  au_Alias : option Alias;
  au_GroupAliases : list Alias;
  au_TokenType : TokenType;
  au_Body : value;
}.
Record Response := mkResp { rs_Headers : headers; rs_Auth : option Auth; rs_Body : value }.

Definition ErrorResponse (fmt path : string) : Response :=
  mkResp None None (VObj [("error", VSprintf fmt [VStr path])]).

Record Paths := mkPaths {
  Root : list string;
  Unauthenticated : list string;
  Binary : list string;
  Limited : list string;
  AllowSnapshotRead : list string;
}.

(** A backend: an interface whose calls may change the request they are
    given. *)
Record Backend := mkBackend {
  SpecialPaths : option Paths;
  HandleRequest : Request → option Response * option err * Request;
  HandleExistenceCheck : Request → bool * bool * option err * Request;
}.

(** ** The routing table *)

Record routeEntry := mkRoute {
  tainted : bool;
  backend : option Backend;
  mountEntry : MountEntry;
  (** The storage view, known by its prefix. *)
  storagePrefix : string;
  rootPaths : gmap string bool;
  loginPaths : specialPathsEntry;
  binaryPaths : specialPathsEntry;
  limitedPaths : specialPathsEntry;
  allowSnapshotReadPaths : specialPathsEntry;
}.

Record t := mk {
  root : gmap string nat;
  storagePrefixes : gmap string nat;
  mountUUIDCache : gmap string MountEntry;
  mountAccessorCache : gmap string MountEntry;
  entries : gmap nat routeEntry;
}.

Definition NewRouter : t := mk ∅ ∅ ∅ ∅ ∅.

(** The entries of before may still be held by requests under way. *)
Definition reset (r : t) : t := mk ∅ ∅ ∅ ∅ (entries r).

(** The namespace of the context, by its path. *)
Definition Ctx := option string.

Section router.
Context `{GoTables} `{RadixTree} `{RadixSearch}.

(** The entry a path lies under. *)
Definition lookup (r : t) (tree : gmap string nat) (path : string)
    : option (string * routeEntry) :=
  '(mount, l) ← LongestPrefix tree path;
  re ← entries r !! l;
  Some (mount, re).

Definition Mount (backend : option Backend) (prefix : string) (me : MountEntry) (view : string)
    (r : t) : option err * t :=
  let prefix := nsPath me +:+ prefix in
  match LongestPrefix (root r) prefix with
  | Some ((String _ _) as existing, _) => (Some (ErrMountUnder existing), r)
  | _ =>
      let ps := default (mkPaths [] [] [] [] []) (backend ≫= SpecialPaths) in
      match parseSpecialPaths (Unauthenticated ps), parseSpecialPaths (Binary ps),
            parseSpecialPaths (Limited ps), parseSpecialPaths (AllowSnapshotRead ps) with
      | Err e, _, _, _ | _, Err e, _, _ | _, _, Err e, _ | _, _, _, Err e => (Some e, r)
      | Ok login, Ok binary, Ok limited, Ok snapshot =>
          if decide (prefix = "") then
            (Some (ErrMissing "prefix to be used for router entry" (Path me) (Type_ me)), r)
          else if decide (view = "") then
            (Some (ErrMissing "storage view prefix" (Path me) (Type_ me)), r)
          else if decide (UUID me = "") then
            (Some (ErrMissing "mount identifier" (Path me) (Type_ me)), r)
          else if decide (Accessor me = "") then
            (Some (ErrMissing "mount accessor" (Path me) (Type_ me)), r)
          else
            let re := mkRoute (Tainted me) backend me view (pathsToRadix (Root ps))
                        login binary limited snapshot in
            let l := fresh (dom (entries r)) in
            (None, mk (<[prefix := l]> (root r)) (<[view := l]> (storagePrefixes r))
                      (<[UUID me := me]> (mountUUIDCache r))
                      (<[Accessor me := me]> (mountAccessorCache r))
                      (<[l := re]> (entries r)))
      end
  end.

(** The backend whose [Cleanup] is called is returned too. *)
Definition Unmount (ctx : Ctx) (prefix : string) (r : t) : option err * option Backend * t :=
  match ctx with
  | None => (Some ErrNoNamespace, None, r)
  | Some ns =>
      let prefix := ns +:+ prefix in
      match root r !! prefix ≫= λ l, entries r !! l with
      | None => (None, None, r)
      | Some re =>
          (None, backend re,
           mk (delete prefix (root r)) (delete (storagePrefix re) (storagePrefixes r))
              (delete (UUID (mountEntry re)) (mountUUIDCache r))
              (delete (Accessor (mountEntry re)) (mountAccessorCache r)) (entries r))
      end
  end.

Definition Remount (ctx : Ctx) (src dst : string) (r : t) : option err * t :=
  match ctx with
  | None => (Some ErrNoNamespace, r)
  | Some ns =>
      let src := ns +:+ src in
      let dst := ns +:+ dst in
      match root r !! src with
      | None => (Some (ErrNoMount src), r)
      | Some l =>
          (None, mk (<[dst := l]> (delete src (root r))) (storagePrefixes r) (mountUUIDCache r)
                    (mountAccessorCache r) (entries r))
      end
  end.

Definition set_tainted (b : bool) (re : routeEntry) : routeEntry :=
  mkRoute b (backend re) (mountEntry re) (storagePrefix re) (rootPaths re) (loginPaths re)
    (binaryPaths re) (limitedPaths re) (allowSnapshotReadPaths re).

(** [Taint] and [Untaint]. *)
Definition mark (b : bool) (ctx : Ctx) (path : string) (r : t) : option err * t :=
  match ctx with
  | None => (Some ErrNoNamespace, r)
  | Some ns =>
      match LongestPrefix (root r) (ns +:+ path) with
      | None => (None, r)
      | Some (_, l) =>
          (None, mk (root r) (storagePrefixes r) (mountUUIDCache r) (mountAccessorCache r)
                    (alter (set_tainted b) l (entries r)))
      end
  end.
Definition Taint := mark true.
Definition Untaint := mark false.

(** ** Lookups *)

(** [mountUUIDCache] and [mountAccessorCache] are searched by prefix. *)
Definition cached (cache : gmap string MountEntry) (id : string) : option MountEntry :=
  if decide (id = "") then None else snd <$> LongestPrefix cache id.
Definition MatchingMountByUUID (r : t) (mountID : string) : option MountEntry :=
  cached (mountUUIDCache r) mountID.
Definition MatchingMountByAccessor (r : t) (accessor : string) : option MountEntry :=
  cached (mountAccessorCache r) accessor.

Record ValidateMountResponse := mkValidate {
  v_MountType : string;
  v_MountAccessor : string;
  v_MountPath : string;
  v_MountLocal : bool;
}.

Definition ValidateMountByAccessor (r : t) (accessor : string) : option ValidateMountResponse :=
  if decide (accessor = "") then None
  else
    me ← MatchingMountByAccessor r accessor;
    Some (mkValidate (Type_ me) (Accessor me)
            (if decide (Table me = credentialTableType) then credentialRoutePrefix +:+ Path me
             else Path me)
            (Local_ me)).

Definition matchingMountInternal (r : t) (ctx : Ctx) (path : string)
    : string * option MountEntry :=
  match ctx with
  | None => ("", None)
  | Some ns =>
      match lookup r (root r) (ns +:+ path) with
      | None => ("", None)
      | Some (mount, re) => (mount, Some (mountEntry re))
      end
  end.
Definition MatchingMount (r : t) (ctx : Ctx) (path : string) : string :=
  (matchingMountInternal r ctx path).1.

(** The first key the walk visits. *)
Definition matchingPrefixInternal (r : t) (ctx : Ctx) (path : string) : string :=
  match ctx with
  | None => ""
  | Some ns =>
      let path := ns +:+ path in
      default "" (head (filter (λ k, HasPrefix k path = true) (WalkPrefix (root r) path)))
  end.

Definition MountConflict (r : t) (ctx : Ctx) (path : string) : string :=
  let exactMatch := (matchingMountInternal r ctx path).1 in
  if decide (exactMatch = "") then
    let prefixMatch := matchingPrefixInternal r ctx path in
    if decide (prefixMatch = "") then "" else prefixMatch
  else exactMatch.

(** The storage views are known by their prefixes. *)
Definition matchingStorage (r : t) (ctx : Ctx) (path : string) (apiPath : bool) : option string :=
  ns ← ctx;
  '(_, re) ← lookup r (if apiPath then root r else storagePrefixes r) (ns +:+ path);
  Some (storagePrefix re).
Definition MatchingStorageByAPIPath r ctx path := matchingStorage r ctx path true.
Definition MatchingStorageByStoragePath r ctx path := matchingStorage r ctx path false.

Definition MatchingBackendAndMountEntry (r : t) (ctx : Ctx) (path : string)
    : option Backend * option MountEntry :=
  match ctx ≫= λ ns, lookup r (root r) (ns +:+ path) with
  | None => (None, None)
  | Some (_, re) => (backend re, Some (mountEntry re))
  end.
Definition MatchingMountEntry r ctx path := (MatchingBackendAndMountEntry r ctx path).2.
Definition MatchingBackend r ctx path := (MatchingBackendAndMountEntry r ctx path).1.

Definition matchingMountEntryByPath (r : t) (path : string) (apiPath : bool)
    : option (MountEntry * string) :=
  '(_, re) ← lookup r (if apiPath then root r else storagePrefixes r) path;
  Some (mountEntry re, storagePrefix re).

Definition MatchingStoragePrefixByAPIPath (r : t) (ctx : Ctx) (path : string) : option string :=
  ns ← ctx; snd <$> matchingMountEntryByPath r (ns +:+ path) true.

(** The namespace, the mount path and the storage prefix. *)
Definition MatchingAPIPrefixByStoragePath (r : t) (path : string)
    : option (string * string * string) :=
  '(me, prefix) ← matchingMountEntryByPath r path false;
  Some (nsPath me,
        if HasPrefix path credentialBarrierPrefix then credentialRoutePrefix +:+ Path me
        else Path me,
        prefix).

(** ** Special paths of a mount *)

Definition RootPath (r : t) (ctx : Ctx) (path : string) : bool :=
  match ctx with
  | None => false
  | Some ns =>
      let adjustedPath := ns +:+ path in
      match lookup r (root r) adjustedPath with
      | None => false
      | Some (mount, re) =>
          let remain := TrimPrefix adjustedPath mount in
          match LongestPrefix (rootPaths re) remain with
          | None => false
          | Some (m, true) => HasPrefix remain m
          | Some (m, false) => bool_decide (m = remain)
          end
      end
  end.

(** The special paths [pe], against the rest of a path. *)
Definition special_match (pe : specialPathsEntry) (remain : string) : bool :=
  let wild := existsb (λ w, pathMatchesWildcardPath (split_slash remain) (segments w) (isPrefix w))
                (wildcardPaths pe) in
  match LongestPrefix (paths pe) remain with
  | None => if decide (wildcardPaths pe = []) then false else wild
  | Some (m, true) => HasPrefix remain m
  | Some (m, false) => if decide (m = remain) then true else wild
  end.

Definition specialPath (r : t) (ctx : Ctx) (path : string) (pick : routeEntry → specialPathsEntry)
    : bool :=
  match ctx with
  | None => false
  | Some ns =>
      let adjustedPath := ns +:+ path in
      match lookup r (root r) adjustedPath with
      | None => false
      | Some (mount, re) => special_match (pick re) (TrimPrefix adjustedPath mount)
      end
  end.

Definition LoginPath r ctx path := specialPath r ctx path loginPaths.
Definition BinaryPath r ctx path := specialPath r ctx path binaryPaths.
Definition LimitedPath r ctx path := specialPath r ctx path limitedPaths.
Definition AllowSnapshotReadPath r ctx path := specialPath r ctx path allowSnapshotReadPaths.
End router.
End Router.
