(* ===== verification/Routing.v ===== *)
(** * [vault/router.go]: [routeCommon]

    What happens to a request between the core and the backend of its mount:
    the mount is found, the path is made relative to it, the client's token
    is replaced, the headers are filtered, the backend is called, and the
    request is restored.  Every return gives the request as the caller finds
    it afterwards; the only panic is the write of an external identifier to a
    token entry that is not there. *)

From S2P Require Import Prelude GoLib Storage Router.
Import Router.

Section routing.
Context `{GoTables} `{!Strutil} `{MapRange} `{Crypto} `{RadixSearch}.

Definition hex_digit (n : N) : string :=
  default "" (["0"; "1"; "2"; "3"; "4"; "5"; "6"; "7"; "8"; "9"; "a"; "b"; "c"; "d"; "e"; "f"]
                !! N.to_nat n).
Definition hex_EncodeToString (bs : list N) : string :=
  foldr (λ b s, hex_digit (b / 16) +:+ hex_digit (b mod 16) +:+ s) "" bs.

Definition SaltID (salt id : string) : string :=
  hex_EncodeToString (SHA1Hash (bytes (salt +:+ id))).

Definition deniedPassthroughRequestHeaders : list string := ["X-Vault-Token"].

(** The original name of each header, by its lowercased name. *)
Definition lower_keys (origHeaders : gmap string (list string)) : gmap string string :=
  fold_left (λ m key, <[ToLower key := key]> m) (range_keys origHeaders) ∅.

Definition filteredHeaders (origHeaders : headers) (candidateHeaders deniedHeaders : list string)
    : headers :=
  if decide (candidateHeaders = []) then None
  else
    let orig := default ∅ origHeaders in
    let lowerOrigHeaderKeys := lower_keys orig in
    Some (fold_left (λ ret ch,
      match lowerOrigHeaderKeys !! ch with
      | Some header => <[header := default [] (orig !! header)]> ret
      | None => ret
      end) (Difference candidateHeaders deniedHeaders) ∅).

Definition RenewOperation : string := "renew".
Definition RevokeOperation : string := "revoke".
Definition RollbackOperation : string := "rollback".
Definition RootNamespaceID : string := "root".
Definition ServiceTokenPrefix : string := "hvs.".
Definition LegacyServiceTokenPrefix : string := "s.".

(** What a call returns: the response, the two results of an existence check,
    the error, and the request afterwards. *)
Record Answer := mkAnswer {
  ans_resp : option Response;
  ans_ok : bool;
  ans_exists : bool;
  ans_err : option err;
  ans_req : Request;
}.

Definition refuse (fmt : string) (req : Request) : Answer :=
  mkAnswer (Some (ErrorResponse fmt (rPath req))) false false (Some ErrUnsupportedPath) req.

Definition quoted (s : string) : string :=
  let q := String (Ascii.ascii_of_nat 34) "" in q +:+ s +:+ q.

(** The token the backend is given, or an early return.  [salt] is the
    hashing of identifiers with the token store's salt. *)
Definition backend_token (salt : result err (string → string)) (uuid originalPath : string) (req : Request)
    : string + (option Response * option err) :=
  if HasPrefix originalPath "auth/token/" || HasPrefix originalPath mountPathSystem
     || HasPrefix originalPath mountPathIdentity
  then inl (ClientToken req)
  else if HasPrefix originalPath mountPathCubbyhole then
    if decide (Operation req = RollbackOperation) then inr (None, None)
    else
      match rTokenEntry req with
      | None => inr (None, Some ErrNilTokenEntry)
      | Some te =>
          match te_Type te with
          | TokenTypeService | TokenTypeEnt =>
              if bool_decide (te_NamespaceID te = RootNamespaceID)
                 && negb (HasPrefix (ClientToken req) LegacyServiceTokenPrefix)
                 && negb (HasPrefix (ClientToken req) ServiceTokenPrefix)
              then match salt with
                   | Err e => inr (None, Some e)
                   | Ok salt_id => inl (SaltID uuid (salt_id (ClientToken req)))
                   end
              else if decide (te_CubbyholeID te = "") then inr (None, Some ErrEmptyCubbyholeID)
              else inl (te_CubbyholeID te)
          | _ =>
              inr (Some (mkResp None None (VObj [("error",
                VStr ("cubbyhole operations are only supported by " +:+ quoted "service"
                      +:+ " or enterprise type tokens"))])), None)
          end
      end
  else inl (SaltID uuid (ClientToken req)).

(** The fields of the mount that the request carries. *)
Definition set_mount (mount : string) (me : MountEntry) (path recover : string)
    (storage : option string) (req : Request) : Request :=
  mkReq (ID req) (Operation req) path recover mount (Type_ me) (MountAccessor req)
    (RunningSha256 me) (RunningVersion me) (IsExternalPlugin me) (MountClass me) storage
    (EntityID req) (ClientToken req) (ClientTokenRemainingUses req) (InboundSSCToken req)
    (rTokenEntry req) (Headers req) (WrapInfo_ req) (MFACreds req) (ControlGroup req)
    (PolicyOverride req) (Connection req) (LastRemoteWAL req) (Body req).

(** The request relative to its mount. *)
Definition relative (ns mount : string) (re : routeEntry) (req : Request) : Request :=
  let path := TrimPrefix (ns +:+ rPath req) mount in
  set_mount mount (mountEntry re) (if decide (path = "/") then "" else path)
    (if decide (RecoverSourcePath req = "") then ""
     else TrimPrefix (ns +:+ RecoverSourcePath req) mount)
    (Some (storagePrefix re)) req.

(** The request as the backend gets it: another token, and no token entry,
    remaining uses, multi-factor credentials, control group, inbound token or
    headers but those let through. *)
Definition sanitized (token : string) (hs : headers) (req : Request) : Request :=
  mkReq (ID req) (Operation req) (rPath req) (RecoverSourcePath req) (MountPoint req)
    (MountType req) (MountAccessor req) (MountRunningSha256 req) (MountRunningVersion req)
    (MountIsExternalPlugin req) (rMountClass req) (rStorage req) (EntityID req)
    token 0 "" None hs (WrapInfo_ req) None None (PolicyOverride req) (Connection req)
    (LastRemoteWAL req) (Body req).

Definition passed_headers (me : MountEntry) (hs : headers) : headers :=
  match passthrough_request_headers me with
  | Some ((_ :: _) as l) => filteredHeaders hs l deniedPassthroughRequestHeaders
  | _ => None
  end.

Definition set_ExternalID (x : string) (te : TokenEntry) : TokenEntry :=
  mkTE (te_Type te) (te_NamespaceID te) (te_CubbyholeID te) x.

(** The deferred restoration: [orig] is the request before the path was made
    relative, [req] the request the backend left. *)
Definition restored (mount : string) (me : MountEntry) (orig req : Request) : option Request :=
  let finish te :=
    Some (mkReq (ID orig) (Operation req) (rPath orig) (RecoverSourcePath orig) mount (Type_ me)
      (Accessor me) (RunningSha256 me) (RunningVersion me) (IsExternalPlugin me) (MountClass me)
      None (EntityID orig) (ClientToken orig) (ClientTokenRemainingUses orig)
      (InboundSSCToken orig) te (Headers orig) (WrapInfo_ orig) (MFACreds orig)
      (ControlGroup orig) (PolicyOverride orig) (Connection orig) 0 (Body req)) in
  match rTokenEntry req with
  | Some te =>
      if decide (te_ExternalID te = "") then finish (rTokenEntry orig)
      else match rTokenEntry orig with
           | None => None
           | Some te0 => finish (Some (set_ExternalID (te_ExternalID te) te0))
           end
  | None => finish (rTokenEntry orig)
  end.

(** The token type of a login, as the mount tunes it. *)
Definition tuned_TokenType (mount_type : string) (config auth : TokenType) : TokenType :=
  if bool_decide (mount_type = "token") || bool_decide (mount_type = "ns_token") then auth
  else
    match config with
    | TokenTypeService | TokenTypeBatch => config
    | TokenTypeDefault | TokenTypeDefaultService =>
        match auth with
        | TokenTypeDefault | TokenTypeDefaultService | TokenTypeService => TokenTypeService
        | _ => TokenTypeBatch
        end
    | TokenTypeDefaultBatch =>
        match auth with
        | TokenTypeDefault | TokenTypeDefaultBatch | TokenTypeBatch => TokenTypeBatch
        | _ => TokenTypeService
        end
    | TokenTypeEnt => auth
    end.

Definition set_accessor (accessor : string) (a : Alias) : Alias := mkAlias (a_Name a) accessor.

(** The response: its headers filtered, its login tied to the mount. [path]
    is the request's path when the backend returns. *)
Definition adjusted_response (me : MountEntry) (path : string) (resp : Response) : Response :=
  mkResp
    (match allowed_response_headers me with
     | Some ((_ :: _) as l) => filteredHeaders (rs_Headers resp) l []
     | _ => None
     end)
    ((λ auth,
       let renew := HasPrefix path "renew" in
       mkAuth (if renew then au_Alias auth else set_accessor (Accessor me) <$> au_Alias auth)
         (if renew then au_GroupAliases auth else set_accessor (Accessor me) <$> au_GroupAliases auth)
         (tuned_TokenType (Type_ me) (Config_TokenType me) (au_TokenType auth)) (au_Body auth))
     <$> rs_Auth resp)
    (rs_Body resp).

(** The call of the backend and what follows it. *)
Definition call_backend (be : Backend) (mount : string) (me : MountEntry) (existenceCheck : bool)
    (orig req : Request) : option Answer :=
  if existenceCheck then
    let '(ok, exists_, e, req') := HandleExistenceCheck be req in
    req'' ← restored mount me orig req'; Some (mkAnswer None ok exists_ e req'')
  else
    let '(resp, e, req') := HandleRequest be req in
    req'' ← restored mount me orig req';
    Some (mkAnswer (adjusted_response me (rPath req') <$> resp) false false e req'').

Definition set_rPath (p : string) (req : Request) : Request :=
  mkReq (ID req) (Operation req) p (RecoverSourcePath req) (MountPoint req)
    (MountType req) (MountAccessor req) (MountRunningSha256 req) (MountRunningVersion req)
    (MountIsExternalPlugin req) (rMountClass req) (rStorage req) (EntityID req) (ClientToken req)
    (ClientTokenRemainingUses req) (InboundSSCToken req) (rTokenEntry req) (Headers req)
    (WrapInfo_ req) (MFACreds req) (ControlGroup req) (PolicyOverride req) (Connection req)
    (LastRemoteWAL req) (Body req).

(** A request whose mount is found. *)
Definition route_to (salt : result err (string → string)) (ns mount : string) (re : routeEntry)
    (existenceCheck : bool) (req : Request) : option Answer :=
  match backend re with
  | None => Some (refuse "no handler for route %q. route entry found, but backend is nil." req)
  | Some be =>
      if tainted re && negb (bool_decide (Operation req = RevokeOperation)
                             || bool_decide (Operation req = RollbackOperation))
      then Some (refuse "no handler for route %q. route entry is tainted." req)
      else
        let rel := relative ns mount re req in
        match backend_token salt (UUID (mountEntry re)) (rPath req) rel with
        | inr (resp, e) => Some (mkAnswer resp false false e rel)
        | inl token =>
            call_backend be mount (mountEntry re) existenceCheck req
              (sanitized token (passed_headers (mountEntry re) (Headers req)) rel)
        end
  end.

(** The mount is searched for the path, then for the path with a slash. *)
Definition find_mount (r : t) (ns path : string) : option (string * string * routeEntry) :=
  match lookup r (root r) (ns +:+ path) with
  | Some (mount, re) => Some (path, mount, re)
  | None =>
      if HasSuffix path "/" then None
      else
        '(mount, re) ← lookup r (root r) (ns +:+ (path +:+ "/"));
        Some (path +:+ "/", mount, re)
  end.

Definition routeCommon (r : t) (salt : result err (string → string)) (ctx : Ctx) (req : Request)
    (existenceCheck : bool) : option Answer :=
  match ctx with
  | None => Some (mkAnswer None false false (Some ErrNoNamespace) req)
  | Some ns =>
      match find_mount r ns (rPath req) with
      | None => Some (refuse "no handler for route %q. route entry not found." req)
      | Some (path, mount, re) => route_to salt ns mount re existenceCheck (set_rPath path req)
      end
  end.

Definition Route r salt ctx req := routeCommon r salt ctx req false.
Definition RouteExistenceCheck r salt ctx req := routeCommon r salt ctx req true.
End routing.
