(* ===== verification/Scenario.v ===== *)
(** * A concrete deployment

    Tables, a radix tree, an environment and stored entries on which the
    definitions are evaluated. *)

From S2P Require Import Prelude GoLib Storage Core ApprovalTypes ApprovalCore ApprovalHandlers.

(** Case mapping limited to ASCII; every URL is well formed after its scheme. *)
#[export] Instance ascii_tables : GoTables := {|
  SimpleFold_eq _ _ := false;
  unicode_ToLower r := r;
  url_rest_invalid _ := false;
|}.

#[export] Program Instance map_radix : RadixTree := {|
  WalkPrefix V m p := filter (λ k, HasPrefix k p = true) (map_to_list m).*1;
|}.
Next Obligation.
  intros V m p k. simpl. rewrite list_elem_of_filter, list_elem_of_fmap.
  split.
  - intros [Hp ([k' v] & -> & Hkv%elem_of_map_to_list)]. simpl in *. by eauto.
  - intros [[v Hv] Hp]. split; [done|]. exists (k, v). by rewrite elem_of_map_to_list.
Qed.
Next Obligation. intros V m p. apply NoDup_filter, NoDup_fst_map_to_list. Qed.

(** The start of 2025, in nanoseconds since Go's zero time. *)
Definition t2025 : Z := 739251 * 24 * Hour.

Definition db_response : Response :=
  mkResponse (gomap [("username", VStr "v-alice"); ("password", VStr "s3cret")]) []
    (Some (mkSecret (1 * Hour) (24 * Hour) true "")) None "".

(** No faults; the clock advances one second per effect; the token
    root-token is the only root token; the backend answers with a database
    credential. *)
Definition env0 : Env := {|
  env_fault _ := Done;
  env_size _ := 0;
  env_clock n := t2025 + Z.of_nat n * Second;
  env_uuid n := Ok ("uuid-" +:+ pretty n);
  env_token _ t := if decide (t = "root-token") then Ok (Some (mkToken ["root"]))
                   else Ok (Some (mkToken ["default"]));
  env_entity _ id := Ok (Some (mkEntity (id +:+ "@example.com")));
  env_backend _ _ := (Some db_response, None);
  env_mount _ _ := Some (mkMount "database" None "");
  env_mount_backend _ _ := Some OtherBackend;
  env_sysview _ _ := Some (mkSysView (32 * 24 * Hour) (32 * 24 * Hour));
  env_register _ _ _ := Ok "database/creds/readonly/lease-1";
|}.

Definition core0 : Core := mkCore None true "https://vault.example.com".

Definition phys0 (m : gmap string blob) : Inmem.t blob := Inmem.mk m false false false false 0.
Definition world0 (m : gmap string blob) : World := mkWorld (phys0 m) [] [] [] 0.

Definition rule_db : ApprovalRule :=
  mkRule "db" "" "database/creds/*" ["bob"; "carol"] 1 "" "admin" false.

(** The same rule with two approvals. *)
Definition rule_db2 : ApprovalRule :=
  mkRule "db" "" "database/creds/*" ["bob"; "carol"] 2 "" "admin" false.

Definition request (op path entity token : string) : Request :=
  mkRequest "req-1" op path None None entity entity "database/" token None "".

Definition alice_read : Request := request ReadOperation "database/creds/readonly" "alice" "t-a".
Definition bob_req : Request := request UpdateOperation "sys/approvals" "bob" "t-b".
Definition carol_req : Request := request UpdateOperation "sys/approvals" "carol" "t-c".
Definition alice_req : Request := request ReadOperation "sys/approvals" "alice" "t-a".
Definition root_req : Request := request UpdateOperation "sys/approvals" "" "root-token".

Definition put_rule (r : ApprovalRule) : gmap string blob → gmap string blob :=
  <["sys/approvals/config/" +:+ RuleID r := Doc (enc_rule r)]>.
Definition put_pending (p : PendingRequest) : gmap string blob → gmap string blob :=
  <["sys/approvals/pending/" +:+ RequestID p := Doc (enc_pending p)]>.

(** Its identifier. *)
Definition rid : string := "0d9cbb12-57a4-4a0f-8e30-6c1f2b7a9d55".

(** A request of alice, parked a minute before the scenario starts. *)
Definition pending0 : PendingRequest := parked rid rule_db alice_read (t2025 - Minute).

(** The same request, approved by bob and holding its credential. *)
Definition approved0 : PendingRequest :=
  set_Status "approved" (set_Approvals [mkRecord "bob" t2025]
    (with_credential (Some db_response) t2025 pending0)).

Definition world_pending : World := world0 (put_pending pending0 (put_rule rule_db ∅)).
Definition world_pending2 : World := world0 (put_pending pending0 (put_rule rule_db2 ∅)).
Definition world_approved : World := world0 (put_pending approved0 (put_rule rule_db ∅)).
