(* ===== verification/BarrierScenario.v ===== *)
(** * A concrete barrier

    Instances of the text of documents, of the iteration over a map and of the
    cipher, and a barrier with data in it. *)

From S2P Require Import Prelude GoLib GoSplit Storage Core Scenario AesGcm Encoding BarrierState KeyringOps Barrier.
From stdpp Require Import countable.
From Stdlib Require Import Ascii.
#[local] Open Scope Z_scope.

(** ** A text for every document *)

Section value_ind.
Variable P : value → Prop.
Hypothesis HNil : P VNil.
Hypothesis HBool : ∀ b, P (VBool b).
Hypothesis HNum : ∀ z, P (VNum z).
Hypothesis HStr : ∀ s, P (VStr s).
Hypothesis HTime : ∀ t, P (VTime t).
Hypothesis HArr : ∀ l, Forall P l → P (VArr l).
Hypothesis HObj : ∀ o, Forall (P ∘ snd) o → P (VObj o).
Hypothesis HSprintf : ∀ f l, Forall P l → P (VSprintf f l).
Hypothesis HText : ∀ v, P v → P (VText v).

Fixpoint value_nested_ind (v : value) : P v :=
  let fix all (l : list value) : Forall P l :=
    match l with [] => Forall_nil_2 P | v :: l => Forall_cons_2 P v l (value_nested_ind v) (all l) end in
  let fix all_snd (o : list (string * value)) : Forall (P ∘ snd) o :=
    match o with
    | [] => Forall_nil_2 _
    | (k, v) :: o => Forall_cons_2 (P ∘ snd) (k, v) o (value_nested_ind v) (all_snd o)
    end in
  match v with
  | VNil => HNil
  | VBool b => HBool b
  | VNum z => HNum z
  | VStr s => HStr s
  | VTime t => HTime t
  | VArr l => HArr l (all l)
  | VObj o => HObj o (all_snd o)
  | VSprintf f l => HSprintf f l (all l)
  | VText v => HText v (value_nested_ind v)
  end.
End value_ind.

Definition leaf : Type := Z + string.

Fixpoint to_tree (v : value) : gen_tree leaf :=
  match v with
  | VNil => GenNode 0 []
  | VBool b => GenNode (if b then 1 else 2) []
  | VNum z => GenNode 3 [GenLeaf (inl z)]
  | VStr s => GenNode 4 [GenLeaf (inr s)]
  | VTime t => GenNode 5 [GenLeaf (inl t)]
  | VArr l => GenNode 6 (map to_tree l)
  | VObj o => GenNode 7 (map (λ '(k, v), GenNode 0 [GenLeaf (inr k); to_tree v]) o)
  | VSprintf f l => GenNode 8 (GenLeaf (inr f) :: map to_tree l)
  | VText v => GenNode 9 [to_tree v]
  end%nat.

Fixpoint of_tree (t : gen_tree leaf) : value :=
  match t with
  | GenNode 1 [] => VBool true
  | GenNode 2 [] => VBool false
  | GenNode 3 [GenLeaf (inl z)] => VNum z
  | GenNode 4 [GenLeaf (inr s)] => VStr s
  | GenNode 5 [GenLeaf (inl t)] => VTime t
  | GenNode 6 l => VArr (map of_tree l)
  | GenNode 7 l =>
      VObj (map (λ t, match t with
                      | GenNode _ [GenLeaf (inr k); t] => (k, of_tree t)
                      | _ => ("", VNil)
                      end) l)
  | GenNode 8 (GenLeaf (inr f) :: l) => VSprintf f (map of_tree l)
  | GenNode 9 [t] => VText (of_tree t)
  | _ => VNil
  end.

Lemma of_to_tree v : of_tree (to_tree v) = v.
Proof.
  induction v as [|b|z|s|t|l IH|o IH|f l IH|v IH] using value_nested_ind; simpl; try done.
  - by destruct b.
  - f_equal. induction IH as [|x l Hx _ IH]; simpl; [done|]. by rewrite Hx, IH.
  - f_equal. induction IH as [|[k x] l Hx _ IH]; simpl; [done|]. simpl in Hx. by rewrite Hx, IH.
  - f_equal. induction IH as [|x l Hx _ IH]; simpl; [done|]. by rewrite Hx, IH.
  - by rewrite IH.
Qed.

(** The bits of a number below its leading one. *)
Fixpoint bits (p : positive) : list bool :=
  match p with
  | xH => []
  | xO p => false :: bits p
  | xI p => true :: bits p
  end.
Fixpoint of_bits (l : list bool) : positive :=
  match l with
  | [] => xH
  | false :: l => xO (of_bits l)
  | true :: l => xI (of_bits l)
  end.

(** Eight bits to a character; the last character ends in a one and zeros. *)
Definition tail_char (l : list bool) : ascii :=
  let l := l ++ [true] in
  Ascii (nth 0 l false) (nth 1 l false) (nth 2 l false) (nth 3 l false)
        (nth 4 l false) (nth 5 l false) (nth 6 l false) (nth 7 l false).
Fixpoint pack (l : list bool) : string :=
  match l with
  | a :: b :: c :: d :: e :: f :: g :: h :: l => String (Ascii a b c d e f g h) (pack l)
  | l => String (tail_char l) ""
  end.

Fixpoint trim_zeros (l : list bool) : list bool :=
  match l with
  | [] => []
  | b :: l => match trim_zeros l with [] => if b then [b] else [] | l => b :: l end
  end.
Definition char_bits (c : ascii) : list bool :=
  let '(Ascii a b c d e f g h) := c in [a; b; c; d; e; f; g; h].
Fixpoint unpack (s : string) : list bool :=
  match s with
  | EmptyString => []
  | String c EmptyString => removelast (trim_zeros (char_bits c))
  | String c s => char_bits c ++ unpack s
  end.

Lemma of_bits_bits p : of_bits (bits p) = p.
Proof. induction p; simpl; congruence. Qed.

Lemma tail_char_bits l : (length l < 8)%nat → removelast (trim_zeros (char_bits (tail_char l))) = l.
Proof.
  intros Hl. do 8 (destruct l as [|[] l]; [reflexivity|..]; simpl in Hl; try lia).
Qed.

Lemma pack_nonempty l : ∃ c s, pack l = String c s.
Proof. do 8 (destruct l as [|? l]; [by eexists _, _|]). by eexists _, _. Qed.

Lemma unpack_pack l : unpack (pack l) = l.
Proof.
  remember (length l) as n eqn:Hn. revert l Hn.
  induction (lt_wf n) as [n _ IH]. intros l ->.
  destruct (le_lt_dec 8 (length l)) as [Hge|Hlt].
  - do 8 (destruct l as [|? l]; [simpl in Hge; lia|]). cbn [pack].
    specialize (IH (length l) ltac:(simpl; lia) l eq_refl).
    destruct (pack_nonempty l) as (c & s & Hp). rewrite Hp in IH |- *. cbn [unpack]. cbn [unpack] in IH.
    by rewrite IH.
  - replace (pack l) with (String (tail_char l) "").
    + by apply tail_char_bits.
    + do 8 (destruct l as [|? l]; [done|]). simpl in Hlt. lia.
Qed.

Definition tree_Marshal (v : value) : string := pack (bits (encode (to_tree v))).
Definition tree_Decode (s : string) : option value := of_tree <$> decode (of_bits (unpack s)).

Lemma tree_Decode_Marshal v : tree_Decode (tree_Marshal v) = Some v.
Proof.
  unfold tree_Decode, tree_Marshal. rewrite unpack_pack, of_bits_bits, decode_encode.
  change (Some (of_tree (to_tree v)) = Some v). by rewrite of_to_tree.
Qed.

#[export] Instance tree_text : JsonText := {| json_Decode_Marshal v _ := tree_Decode_Marshal v |}.

#[export] Program Instance list_terms : TermRange := {| range_terms V m := map_to_list m |}.
Next Obligation. done. Qed.

(** ** A cipher that is quick to evaluate *)

(** The text itself, and a checksum of the key, the nonce, the text and the
    path: no secrecy, but what [AEAD] asks for.  The examples use it; AES is
    [aes_gcm]. *)
Fixpoint checksum (h : N) (s : string) : N :=
  match s with
  | EmptyString => h
  | String c s => checksum ((31 * h + N_of_ascii c) mod 65536) s
  end.

Definition quick_tag (key nonce plain aad : string) : string :=
  let h := checksum (checksum (checksum (checksum 7 key) nonce) plain) aad in
  of_bytes ([h / 256; h mod 256]%N ++ replicate 14 0%N).

Definition quick_Seal (key nonce plain aad : string) : string :=
  plain +:+ quick_tag key nonce plain aad.

Definition quick_Open (key nonce ct aad : string) : option string :=
  if (String.length ct <? Overhead)%nat then None
  else
    let n := (String.length ct - Overhead)%nat in
    let plain := str_take n ct in
    if decide (str_drop n ct = quick_tag key nonce plain aad) then Some plain else None.

#[export] Program Instance quick_aead : AEAD := {|
  NewCipher := aes_key;
  gcm_Seal := quick_Seal;
  gcm_Open := quick_Open;
|}.
Next Obligation. exact (@NewCipher_spec aes_gcm). Qed.
Next Obligation.
  intros k nonce plain aad. unfold quick_Open, quick_Seal. rewrite str_length_app.
  change (String.length (quick_tag k nonce plain aad)) with Overhead.
  destruct (Nat.ltb_spec (String.length plain + Overhead) Overhead); [lia|].
  rewrite Nat.add_sub, str_take_app, str_drop_app. by rewrite decide_True.
Qed.
Next Obligation.
  intros k nonce ct plain aad. unfold quick_Open, quick_Seal. case_match; [done|].
  case_decide as Htag; [|done]. intros [= <-]. by rewrite <-Htag, take_drop_str.
Qed.
Next Obligation. intros. unfold quick_Seal. by rewrite str_length_app. Qed.

(** ** The world *)

(** Nothing fails; each random byte of the [n]-th read is [n]; the clock
    ticks a second per question and stays in the year. *)
#[export] Instance benv0 : BEnv := {|
  be_fault _ := Done;
  be_rand n k := (of_bytes (replicate k (N.of_nat n)), None);
  be_reader n k := (of_bytes (replicate k (N.of_nat n)), None);
  be_clock n := t2025 + (Z.of_nat n mod 1000000) * Second;
|}.

Definition root0 : string := of_bytes (replicate 32 7%N).
Definition disk0 : Inmem.t string := Inmem.NewInmem 0.
Definition bworld0 : BWorld := mkBWorld NewAESGCMBarrier [] [] disk0 0.

Definition history0 : E (option string * option string) :=
  _ ← Initialize root0 "";
  _ ← Unseal root0;
  _ ← Put "a/x" "hello";
  _ ← Rotate;
  _ ← Put "a/y" "world";
  _ ← Seal;
  _ ← Unseal root0;
  x ← Get "a/x";
  y ← Get "a/y";
  mret (x, y).

Example history0_ex : (history0 bworld0).1 = Some (Ok (Some "hello", Some "world")).
Proof. vm_compute. reflexivity. Qed.
