(* ===== verification/BarrierLogic.v ===== *)
(** * Reasoning about the barrier

    [wpE m Q w]: the operation [m], run from [w], ends in a result and a
    world that satisfy [Q]; the result is [None] if it panics.  The rules hold
    for every environment; [calm] worlds are those in which nothing fails. *)

From S2P Require Import Prelude GoLib GoSplit Utf8 Storage Core AesGcm Encoding BarrierState KeyringOps Barrier.
Import Keyring.

Section wpE.
Definition wpE {A} (m : E A) (Q : option (result error A) → BWorld → Prop) (w : BWorld) : Prop :=
  Q (m w).1 (m w).2.

Lemma wpE_mono {A} (m : E A) (Q Q' : option (result error A) → BWorld → Prop) w :
  (∀ r w', Q r w' → Q' r w') → wpE m Q w → wpE m Q' w.
Proof. unfold wpE. auto. Qed.

Lemma wpE_eq {A} (m : E A) (Q : option (result error A) → BWorld → Prop) w :
  wpE m (λ r w', m w = (r, w') → Q r w') w → wpE m Q w.
Proof. unfold wpE. destruct (m w). auto. Qed.

Lemma wpE_ret {A} (a : A) Q w : Q (Some (Ok a)) w → wpE (mret a) Q w.
Proof. done. Qed.

Lemma wpE_bind {A B} (m : E A) (f : A → E B) Q w :
  wpE m (λ r w', match r with
                 | Some (Ok a) => wpE (f a) Q w'
                 | Some (Err e) => Q (Some (Err e)) w'
                 | None => Q None w'
                 end) w → wpE (m ≫= f) Q w.
Proof. unfold wpE, mbind, E_bind. destruct (m w) as [[[a|e]|] w']; done. Qed.

Lemma wpE_bind_inv {A B} (m : E A) (f : A → E B) Q w :
  wpE (m ≫= f) Q w →
  wpE m (λ r w', match r with
                 | Some (Ok a) => wpE (f a) Q w'
                 | Some (Err e) => Q (Some (Err e)) w'
                 | None => Q None w'
                 end) w.
Proof. unfold wpE, mbind, E_bind. destruct (m w) as [[[a|e]|] w']; done. Qed.

Lemma wpE_throw {A} e (Q : option (result error A) → BWorld → Prop) w :
  Q (Some (Err e)) w → wpE (throw e) Q w.
Proof. done. Qed.

Lemma wpE_panic {A} (Q : option (result error A) → BWorld → Prop) w : Q None w → wpE panic Q w.
Proof. done. Qed.

Lemma wpE_try {A} (m : E A) Q w :
  wpE m (λ r w', Q (match r with Some r => Some (Ok r) | None => None end) w') w → wpE (try m) Q w.
Proof. unfold wpE, try. destruct (m w) as [[r|] w']; done. Qed.

Lemma wpE_wrapf {A} msg (m : E A) Q w :
  wpE m (λ r w', Q (match r with
                    | Some (Err e) => Some (Err (Errorf msg e))
                    | r => r
                    end) w') w → wpE (wrapf msg m) Q w.
Proof. unfold wpE, wrapf. destruct (m w) as [[[a|e]|] w']; done. Qed.

Lemma wpE_gets {A} (f : BWorld → A) Q w : Q (Some (Ok (f w))) w → wpE (gets f) Q w.
Proof. done. Qed.

Lemma wpE_modify f Q w : Q (Some (Ok ())) (f w) → wpE (modify f) Q w.
Proof. done. Qed.

Lemma wpE_bar_modify f Q w : Q (Some (Ok ())) (set_bar (f (b_bar w)) w) → wpE (bar_modify f) Q w.
Proof. done. Qed.

Lemma wpE_nonnil {A} (o : option A) a Q w :
  o = Some a → Q (Some (Ok a)) w → wpE (nonnil o) Q w.
Proof. by intros ->. Qed.

Lemma wpE_load l kv Q w :
  b_keys w !! l = Some kv → Q (Some (Ok kv)) w → wpE (load l) Q w.
Proof. intros Hl HQ. apply wpE_bind, wpE_gets. by eapply wpE_nonnil. Qed.

Lemma wpE_store l kv Q w :
  Q (Some (Ok ())) (set_keys (<[l := kv]> (b_keys w)) w) → wpE (store l kv) Q w.
Proof. done. Qed.

Lemma wpE_new_key kv Q w :
  Q (Some (Ok (length (b_keys w)))) (set_keys (b_keys w ++ [kv]) w) → wpE (new_key kv) Q w.
Proof. done. Qed.

Lemma wpE_new_root s Q w :
  Q (Some (Ok (length (b_roots w)))) (set_roots (b_roots w ++ [s]) w) → wpE (new_root s) Q w.
Proof. done. Qed.

(** A loop: an invariant that each step keeps; no step fails. *)
Lemma wpE_for_each {A} (l : list A) f (I : BWorld → Prop) Q w :
  I w →
  (∀ x w, x ∈ l → I w → wpE (f x) (λ r w', r = Some (Ok ()) ∧ I w') w) →
  (∀ w, I w → Q (Some (Ok ())) w) → wpE (for_each l f) Q w.
Proof.
  intros HI Hf HQ. revert w HI. induction l as [|x l IH]; intros w HI; simpl.
  { apply wpE_ret. auto. }
  apply wpE_bind. eapply wpE_mono; [|apply Hf; [set_solver|done]].
  intros r w' [-> HI']. apply IH; [|done]. intros y w'' Hy. apply Hf. set_solver.
Qed.
End wpE.

(** ** Frames *)

(** [w'] differs from [w] in the counters of encryptions and in what the
    environment has been asked. *)
Record quiet (w w' : BWorld) : Prop := mk_quiet {
  q_sealed : bar_sealed (b_bar w') = bar_sealed (b_bar w);
  q_keyring : bar_keyring (b_bar w') = bar_keyring (b_bar w);
  q_cache : bar_cache (b_bar w') = bar_cache (b_bar w);
  q_version : currentAESGCMVersionByte (b_bar w') = currentAESGCMVersionByte (b_bar w);
  q_keys : b_keys w' = b_keys w;
  q_roots : b_roots w' = b_roots w;
  q_disk : b_disk w' = b_disk w;
  q_tick : (b_tick w ≤ b_tick w')%nat;
}.

#[export] Instance quiet_preorder : PreOrder quiet.
Proof. split; [done|]. intros w1 w2 w3 [] []. split; first [congruence|lia]. Qed.

Lemma quiet_tick w : quiet w (btick w).
Proof. split; try done. simpl. lia. Qed.

#[export] Hint Resolve quiet_tick : core.

Definition b_store (w : BWorld) : gmap string string := Inmem.root (b_disk w).

(** [w'] is [w] with the entries [m] on disk. *)
Definition on_disk (m : gmap string string) (w w' : BWorld) : Prop :=
  quiet (set_disk (Inmem.set_root m (b_disk w)) w) w'.

Lemma on_disk_store m w w' : on_disk m w w' → b_store w' = m.
Proof. intros Hq. unfold b_store. by rewrite (q_disk _ _ Hq). Qed.

Lemma on_disk_self w w' : quiet w w' → on_disk (b_store w) w w'.
Proof.
  intros Hq. unfold on_disk. etrans; [|exact Hq]. unfold b_store.
  destruct w as [? ? ? [] ?]; by split.
Qed.

Lemma on_disk_quiet_r m w w' w'' : on_disk m w w' → quiet w' w'' → on_disk m w w''.
Proof. intros Hs Hr. unfold on_disk. by etrans. Qed.

Lemma on_disk_quiet_l m w w' w'' : quiet w w' → on_disk m w' w'' → on_disk m w w''.
Proof.
  intros Hr Hs. unfold on_disk. etrans; [|exact Hs]. destruct Hr. split; simpl; try done.
  by f_equal.
Qed.

Lemma on_disk_trans m1 m2 w w' w'' : on_disk m1 w w' → on_disk m2 w' w'' → on_disk m2 w w''.
Proof.
  intros H1 H2. unfold on_disk in *. etrans; [|exact H2]. destruct H1. simpl in *.
  split; simpl; try done. by rewrite q_disk0.
Qed.

(** ** From now on nothing fails *)

Record calm `{BEnv} (w : BWorld) : Prop := {
  calm_fault : ∀ n, (b_tick w ≤ n)%nat → be_fault n = Done;
  calm_rand : ∀ n k, (b_tick w ≤ n)%nat →
    (be_rand n k).2 = None ∧ String.length (be_rand n k).1 = k;
  calm_reader : ∀ n k, (b_tick w ≤ n)%nat → (be_reader n k).2 = None;
  calm_get : Inmem.failGet (b_disk w) = false;
  calm_put : Inmem.failPut (b_disk w) = false;
  calm_delete : Inmem.failDelete (b_disk w) = false;
  calm_list : Inmem.failList (b_disk w) = false;
  calm_size : Inmem.maxValueSize (b_disk w) = 0;
}.

Lemma calm_on_disk `{BEnv} m w w' : on_disk m w w' → calm w → calm w'.
Proof.
  intros Hq. pose proof (q_disk _ _ Hq) as Hd. pose proof (q_tick _ _ Hq) as Ht. simpl in Hd, Ht.
  intros []; split; rewrite ?Hd; try done; intros;
    first [apply calm_fault0|apply calm_rand0|eapply calm_reader0]; lia.
Qed.

Lemma calm_quiet `{BEnv} w w' : quiet w w' → calm w → calm w'.
Proof. intros Hq. by eapply calm_on_disk, on_disk_self. Qed.

Section disk.
Context `{RadixTree} `{BEnv}.

(** A write reports success only if it took effect; it may take effect and
    report an error. *)
Lemma wpE_disk_write r m Q w :
  (r.1 = None → r.2 = Inmem.set_root m (b_disk w)) →
  (is_Some r.1 → r.2 = b_disk w ∧ ¬ calm w) →
  (∀ w', on_disk m w w' → Q (Some (Ok ())) w') →
  (∀ w', quiet w w' ∨ on_disk m w w' → ¬ calm w → Q (Some (Err ErrPhysical)) w') →
  wpE (disk_write r) Q w.
Proof.
  intros Hok Herr HQ HE. unfold wpE, disk_write. destruct r as [[e|] d]; simpl in *.
  - destruct Herr as [-> Hc]; [done|].
    assert (quiet w (btick (set_disk (b_disk w) w))) by (destruct w; apply quiet_tick).
    destruct (be_fault (b_tick w)); simpl; apply HE; auto using quiet_tick.
  - rewrite Hok by done. destruct (be_fault (b_tick w)) eqn:Hf; simpl.
    + apply HQ, quiet_tick.
    + apply HE; [left; apply quiet_tick|]. intros Hc. by rewrite (calm_fault _ Hc) in Hf.
    + apply HE; [right; apply quiet_tick|]. intros Hc. by rewrite (calm_fault _ Hc) in Hf.
Qed.

Lemma wpE_disk_Put k v Q w :
  (∀ w', on_disk (<[k := v]> (b_store w)) w w' → Q (Some (Ok ())) w') →
  (∀ w', quiet w w' ∨ on_disk (<[k := v]> (b_store w)) w w' → ¬ calm w →
     Q (Some (Err ErrPhysical)) w') →
  wpE (disk_Put k v) Q w.
Proof.
  intros HQ HE. refine (wpE_disk_write _ _ Q w _ _ HQ HE); unfold Inmem.PutInternal.
  - by repeat case_match.
  - repeat case_match; simpl; intros [? ?]; try done; (split; [done|]); intros Hc;
      pose proof (calm_put _ Hc); pose proof (calm_size _ Hc); try congruence.
    rewrite andb_true_iff, Z.ltb_lt in *. lia.
Qed.

Lemma wpE_disk_Delete k Q w :
  (∀ w', on_disk (delete k (b_store w)) w w' → Q (Some (Ok ())) w') →
  (∀ w', quiet w w' ∨ on_disk (delete k (b_store w)) w w' → ¬ calm w →
     Q (Some (Err ErrPhysical)) w') →
  wpE (disk_Delete k) Q w.
Proof.
  intros HQ HE. refine (wpE_disk_write _ _ Q w _ _ HQ HE); unfold Inmem.DeleteInternal.
  - by repeat case_match.
  - repeat case_match; simpl; intros [? ?]; try done. split; [done|]. intros Hc.
    pose proof (calm_delete _ Hc). congruence.
Qed.

Lemma wpE_disk_Get k Q w :
  (∀ w', quiet w w' → Q (Some (Ok (b_store w !! k))) w') →
  (∀ w', quiet w w' → ¬ calm w → Q (Some (Err ErrPhysical)) w') →
  wpE (disk_Get k) Q w.
Proof.
  intros HQ HE. unfold wpE, disk_Get, disk_read, Inmem.GetInternal. simpl.
  destruct (be_fault (b_tick w)) eqn:Hf, (Inmem.failGet (b_disk w)) eqn:Hg; simpl;
    first [by apply HQ, quiet_tick|by apply HQ; [apply quiet_tick|]|apply HE; [apply quiet_tick|]]; intros Hc;
    pose proof (calm_fault _ Hc (b_tick w) (le_n _)); pose proof (calm_get _ Hc); congruence.
Qed.

Lemma wpE_disk_List p Q w :
  (∀ l w', quiet w w' → Inmem.ListInternal p (b_disk w) = Ok l → Q (Some (Ok l)) w') →
  (∀ w', quiet w w' → ¬ calm w → Q (Some (Err ErrPhysical)) w') →
  wpE (disk_List p) Q w.
Proof.
  intros HQ HE. unfold wpE, disk_List, disk_read. simpl.
  destruct (Inmem.ListInternal p (b_disk w)) as [l|e] eqn:Hl.
  - destruct (be_fault (b_tick w)) eqn:Hf; first [by apply HQ, quiet_tick|by apply HQ; [apply quiet_tick|]|apply HE; [apply quiet_tick|]]; intros Hc;
      by rewrite (calm_fault _ Hc) in Hf.
  - assert (¬ calm w) as Hc.
    { intros Hc. unfold Inmem.ListInternal in Hl. by rewrite (calm_list _ Hc) in Hl. }
    destruct (be_fault (b_tick w)); (apply HE; [apply quiet_tick|done]).
Qed.
End disk.
