(* ===== verification/BarrierCrypt.v ===== *)
(** * What the barrier encrypts it decrypts

    The layout of a stored value, and the rules of [encrypt] and [decrypt].
    [decrypt] accepts nothing but the encryption of what it returns. *)

From S2P Require Import Prelude GoLib GoSplit Utf8 Storage Core AesGcm Encoding BarrierState KeyringOps Barrier BarrierLogic.
Import Keyring.

Section crypt.
Context `{AEAD} `{RadixTree} `{BEnv}.

(** Term, version, nonce, sealed text. *)
Definition layout (term v : Z) (nonce sealed : string) : string :=
  PutUint32 term +:+ String (to_byte v) (nonce +:+ sealed).

(** What is authenticated besides the text: the path, from version 2 on. *)
Definition aad_of (v : Z) (path : string) : string := if v =? AESGCMVersion1 then "" else path.

Definition version_ok (v : Z) : Prop := v = AESGCMVersion1 ∨ v = AESGCMVersion2.

(** [ct] is an encryption of [plain] for [path] under the key [kb]. *)
Definition ct_of (term : Z) (kb path plain ct : string) : Prop :=
  ∃ v nonce, version_ok v ∧ String.length nonce = NonceSize ∧
    ct = layout term v nonce (gcm_Seal kb nonce plain (aad_of v path)).

Lemma layout_split term v nonce sealed :
  layout term v nonce sealed = (PutUint32 term +:+ String (to_byte v) "") +:+ (nonce +:+ sealed).
Proof. done. Qed.

Lemma layout_head term v nonce sealed :
  String.get 4 (layout term v nonce sealed) = Some (to_byte v).
Proof. done. Qed.

Lemma layout_rest term v nonce sealed : str_drop 5 (layout term v nonce sealed) = nonce +:+ sealed.
Proof. done. Qed.

Lemma layout_nonce term v nonce sealed :
  String.length nonce = NonceSize →
  str_take NonceSize (str_drop 5 (layout term v nonce sealed)) = nonce ∧
  str_drop (5 + NonceSize) (layout term v nonce sealed) = sealed.
Proof.
  intros Hn. rewrite layout_rest, <-str_drop_drop, layout_rest, <-Hn.
  by rewrite str_take_app, str_drop_app.
Qed.

Lemma layout_length term v nonce sealed :
  String.length (layout term v nonce sealed) =
  (5 + String.length nonce + String.length sealed)%nat.
Proof. rewrite layout_split, !str_length_app. simpl. lia. Qed.

Lemma ct_term term kb path plain ct :
  0 ≤ term < 2 ^ 32 → ct_of term kb path plain ct → Uint32 ct = Some term ∧ 4 ≤ slen ct.
Proof.
  intros Ht (v & nonce & _ & Hn & ->). split; [by apply Uint32_Put|].
  unfold slen. rewrite layout_length. lia.
Qed.

Lemma ct_length term kb path plain ct :
  ct_of term kb path plain ct → String.length ct = (33 + String.length plain)%nat.
Proof.
  intros (v & nonce & _ & Hn & ->). rewrite layout_length, Seal_length, Hn.
  unfold NonceSize, Overhead. lia.
Qed.

Lemma layout_of ct v :
  (5 + NonceSize ≤ String.length ct)%nat → String.get 4 ct = Some (to_byte v) →
  ∃ term, 0 ≤ term < 2 ^ 32 ∧ Uint32 ct = Some term ∧
    ct = layout term v (str_take NonceSize (str_drop 5 ct)) (str_drop (5 + NonceSize) ct).
Proof.
  intros Hlen Hv. destruct (Uint32 ct) as [term|] eqn:Ht.
  2:{ destruct ct as [|? [|? [|? [|? ?]]]]; simpl in *; try lia. done. }
  destruct (Uint32_inv _ _ Ht) as [Hr Hct]. exists term. split; [done|]. split; [done|].
  unfold layout. rewrite Hct at 1. f_equal.
  destruct ct as [|? [|? [|? [|? [|c ct]]]]]; [simpl in Hlen; lia..|].
  change (Some c = Some (to_byte v)) in Hv. injection Hv as ->.
  change (str_drop 4 ?s) with (String (to_byte v) (str_drop 5 s)). f_equal.
  rewrite <-str_drop_drop. by rewrite take_drop_str.
Qed.

(** Whatever bytes it is given, [decrypt] changes nothing, and it returns
    only what they are an encryption of; it panics on a value of 17 to 28
    bytes. *)
Lemma wpE_decrypt path kb ct Q w :
  (∀ term plain, 0 ≤ term < 2 ^ 32 → Uint32 ct = Some term → ct_of term kb path plain ct →
     Q (Some (Ok plain)) w) →
  (∀ e, Q (Some (Err e)) w) →
  ((17 ≤ String.length ct < 29)%nat → Q None w) →
  wpE (decrypt path kb ct) Q w.
Proof.
  intros HQ HE HP. unfold decrypt.
  destruct (Nat.ltb_spec (String.length ct) (5 + NonceSize)) as [|Hlen]; [apply HE|].
  assert (∀ v, version_ok v → String.get 4 ct = Some (to_byte v) →
    wpE (match gcm_Open kb (str_take NonceSize (str_drop 5 ct)) (str_drop (5 + NonceSize) ct)
                 (aad_of v path) with Some plain => mret plain | None => throw ErrOpen end) Q w)
    as Hopen.
  { intros v Hv Hget. destruct (gcm_Open _ _ _ _) as [plain|] eqn:Ho; [|apply HE].
    destruct (layout_of ct v Hlen Hget) as (term & Hr & Ht & Hct). apply (HQ term); [done..|].
    exists v, (str_take NonceSize (str_drop 5 ct)). split; [done|]. split.
    { apply str_take_length. rewrite str_drop_length. lia. }
    by rewrite <-(Open_only _ _ _ _ _ Ho). }
  case_match eqn:Hraw.
  { apply HP. apply Z.ltb_lt in Hraw. unfold slen in Hraw. rewrite str_drop_length in Hraw.
    unfold NonceSize in *. lia. }
  destruct (String.get 4 ct) as [c|] eqn:Hc.
  2:{ destruct ct as [|? [|? [|? [|? [|? ?]]]]]; simpl in Hlen; try lia. done. }
  destruct (Z.eqb_spec (of_byte c) AESGCMVersion1) as [Hv|_].
  { apply (Hopen AESGCMVersion1); [by left|by rewrite <-Hv, to_of_byte]. }
  destruct (Z.eqb_spec (of_byte c) AESGCMVersion2) as [Hv|_]; [|apply HE].
  apply (Hopen AESGCMVersion2); [by right|by rewrite <-Hv, to_of_byte].
Qed.

(** What was encrypted for a path is decrypted at that path. *)
Lemma wpE_decrypt_ct term path kb plain ct Q w :
  ct_of term kb path plain ct → Q (Some (Ok plain)) w → wpE (decrypt path kb ct) Q w.
Proof.
  intros (v & nonce & Hv & Hn & ->) HQ. unfold decrypt.
  destruct (layout_nonce term v nonce (gcm_Seal kb nonce plain (aad_of v path)) Hn) as [-> ->].
  rewrite layout_length, Seal_length, Hn, layout_head.
  destruct (Nat.ltb_spec (5 + NonceSize + (String.length plain + Overhead)) (5 + NonceSize)); [lia|].
  unfold slen. rewrite Seal_length.
  destruct (Z.ltb_spec (Z.of_nat (String.length plain + Overhead) - Z.of_nat NonceSize) 0);
    [unfold Overhead, NonceSize in *; lia|].
  destruct Hv as [-> | ->]; rewrite of_to_byte by done; cbn -[gcm_Open gcm_Seal];
    by rewrite Open_Seal.
Qed.

(** A plaintext that [gcm.Seal] does not take. *)
Definition oversize (plain : string) : Prop := gcm_limit < slen plain.

Lemma wpE_encrypt path term kb plain Q w :
  version_ok (currentAESGCMVersionByte (b_bar w)) →
  (∀ ct w', quiet w w' → ct_of term kb path plain ct → Q (Some (Ok ct)) w') →
  (∀ e w', quiet w w' → ¬ calm w ∨ oversize plain → Q (Some (Err e)) w') →
  (∀ w', quiet w w' → oversize plain → Q None w') →
  wpE (encrypt path term (Some kb) plain) Q w.
Proof.
  intros Hv HQ HE HP. unfold encrypt. apply wpE_bind, wpE_ret.
  case_match eqn:Hbig.
  { apply wpE_throw, HE; [done|]. right. apply Z.ltb_lt in Hbig. unfold oversize, gcm_limit.
    unfold MaxInt, termSize, NonceSize, Overhead in Hbig. lia. }
  apply wpE_bind, wpE_gets, wpE_bind. unfold wpE at 1, rand_Read. simpl.
  destruct (be_rand (b_tick w) NonceSize) as [nonce [err|]] eqn:Hrand.
  { apply wpE_throw, HE; [done|]. left. intros Hc.
    destruct (calm_rand _ Hc (b_tick w) NonceSize) as [? ?]; [done|]. by rewrite Hrand in *. }
  case_decide as Hn.
  2:{ apply wpE_throw, HE; [done|]. left. intros Hc.
      destruct (calm_rand _ Hc (b_tick w) NonceSize) as [? ?]; [done|]. by rewrite Hrand in *. }
  assert (∀ v, version_ok v → wpE
    (if gcm_limit <? slen plain then panic
     else mret (PutUint32 term +:+ String (to_byte v)
       (nonce +:+ gcm_Seal kb nonce plain (aad_of v path)))) Q (btick w)) as Hseal.
  { intros v Hver. destruct (Z.ltb_spec gcm_limit (slen plain)) as [Hbig'|].
    - by apply wpE_panic, HP.
    - apply wpE_ret, HQ; [done|]. by exists v, nonce. }
  destruct Hv as [Hv|Hv]; rewrite Hv; simpl; [by apply (Hseal 1); left|by apply (Hseal 2); right].
Qed.

Lemma wpE_encryptTracked path term kb plain Q w :
  version_ok (currentAESGCMVersionByte (b_bar w)) →
  (∀ ct w', quiet w w' → ct_of term kb path plain ct → Q (Some (Ok ct)) w') →
  (∀ e w', quiet w w' → ¬ calm w ∨ oversize plain → Q (Some (Err e)) w') →
  (∀ w', quiet w w' → oversize plain → Q None w') →
  wpE (encryptTracked path term (Some kb) plain) Q w.
Proof.
  intros Hv HQ HE HP. apply wpE_bind, wpE_encrypt; [done| |done|done].
  intros ct w' Hq Hct. apply wpE_bind, wpE_bar_modify, wpE_ret, HQ; [|done].
  etrans; [exact Hq|done].
Qed.

Lemma wpE_aeadFromKey key Q w :
  (NewCipher key = true → Q (Some (Ok key)) w) →
  (∀ e, NewCipher key = false → Q (Some (Err e)) w) →
  wpE (aeadFromKey key) Q w.
Proof.
  intros HQ HE. unfold aeadFromKey. destruct (NewCipher key); [by apply wpE_ret, HQ|].
  by apply wpE_throw, HE.
Qed.
End crypt.
