(* ===== verification/KeyringFacts.v ===== *)
(** * What the keyring guarantees

    A keyring in memory stands for a map from terms to key bytes; its terms
    are 1 to the active one.  What is serialised is read back as the same
    map, whatever the order of the iteration; adding a key adds it and
    disturbs no keyring that shares its keys. *)

From S2P Require Import Prelude GoLib GoSplit Utf8 Storage Core AesGcm Encoding BarrierState KeyringOps Barrier BarrierLogic BarrierCrypt.
Import Keyring.

Lemma Forall_choose {A B} (R : A → B → Prop) l : Forall (λ x, ∃ y, R x y) l → ∃ l', Forall2 R l l'.
Proof.
  induction 1 as [|x l [y Hy] _ [l' IH]]; [by exists []|]. exists (y :: l'). by constructor.
Qed.

(** ** JSON *)

Definition key_json (kv : Key) : Prop :=
  0 ≤ Term kv < 2 ^ 32 ∧ int64_ok (Version kv) = true ∧ 0 ≤ Encryptions kv < 2 ^ 64.

Definition config_json (c : KeyRotationConfig) : Prop :=
  int64_ok (MaxOperations c) = true ∧ int64_ok (Interval c) = true.

Lemma uint_range bits z : 0 ≤ z < 2 ^ bits → (0 <=? z) && (z <? 2 ^ bits) = true.
Proof. intros Hz. rewrite andb_true_iff, Z.leb_le, Z.ltb_lt. lia. Qed.

Lemma dec_enc_key kv : key_json kv → dec_key (enc_key kv) = Ok kv.
Proof.
  intros (Ht & Hv & He). unfold dec_key, enc_key, dec_uint, dec_int, dec_bytes, dec_time, enc_bytes.
  destruct kv as [term version val time encs]. simpl in *.
  rewrite (uint_range 32), Hv, b64_decode_encode by done. simpl.
  destruct (Z.eqb_spec encs 0) as [->|_]; simpl; [done|]. by rewrite (uint_range 64).
Qed.

Lemma dec_enc_keyring root kvs c :
  Forall key_json kvs → config_json c →
  dec_keyring (enc_keyring (Some root) kvs c) = Ok (mkEncoded (Some root) (Some <$> kvs) c).
Proof.
  intros Hkvs [Hm Hi].
  assert (mapR dec_key_ptr (enc_key <$> kvs) = Ok (Some <$> kvs)) as Hmap.
  { induction Hkvs as [|kv kvs Hkv _ IH]; [done|]. rewrite !fmap_cons. cbn [mapR].
    assert (dec_key_ptr (enc_key kv) = Ok (Some kv)) as ->.
    { change (dec_key_ptr (enc_key kv)) with (k ← dec_key (enc_key kv); Ok (Some k) : res _).
      by rewrite dec_enc_key. }
    simpl. by rewrite IH. }
  assert (dec_rotation [("RotationConfig", enc_rotation c)] "RotationConfig" = Ok c) as Hrot.
  { unfold dec_rotation, enc_rotation, dec_int, dec_bool. simpl. rewrite Hm, Hi. by destruct c. }
  unfold dec_keyring, enc_keyring, dec_list, dec_bytes, enc_bytes.
  change (dec_rotation _ "RotationConfig") with (dec_rotation [("RotationConfig", enc_rotation c)] "RotationConfig").
  rewrite Hrot. simpl. rewrite b64_decode_encode. simpl.
  destruct kvs as [|kv kvs]; [done|]. rewrite fmap_cons in Hmap |- *. by rewrite Hmap.
Qed.

(** What is written has a text that is read back. *)
Lemma num_doc z : - 2 ^ 63 ≤ z < 2 ^ 64 → (- 2 ^ 63 <=? z) && (z <? 2 ^ 64) = true.
Proof. intros Hz. rewrite andb_true_iff, Z.leb_le, Z.ltb_lt. lia. Qed.

Lemma enc_key_doc kv :
  key_json kv → time_json_ok (InstallTime kv) = true → json_doc (enc_key kv) = true.
Proof.
  intros (Ht & Hv & He) Htime. unfold int64_ok in Hv. rewrite andb_true_iff, Z.leb_le, Z.ltb_lt in Hv.
  unfold enc_key, enc_bytes. destruct (Encryptions kv =? 0); cbn [app json_doc forallb fst snd];
    rewrite b64_encode_text, Htime, !num_doc by lia; done.
Qed.

Lemma enc_keyring_doc root kvs c :
  Forall (λ kv, key_json kv ∧ time_json_ok (InstallTime kv) = true) kvs → config_json c →
  json_doc (enc_keyring (Some root) kvs c) = true.
Proof.
  intros Hkvs [Hm Hi]. unfold int64_ok in Hm, Hi. rewrite andb_true_iff, Z.leb_le, Z.ltb_lt in Hm, Hi.
  assert (json_doc (match kvs with [] => VNil | _ => VArr (enc_key <$> kvs) end) = true) as Hk.
  { assert (forallb json_doc (enc_key <$> kvs) = true) as Hall.
    { apply forallb_forall. intros v (kv & -> & Hkv)%list_elem_of_In%list_elem_of_fmap.
      rewrite Forall_forall in Hkvs. destruct (Hkvs _ Hkv). by apply enc_key_doc. }
    by destruct kvs. }
  unfold enc_keyring, enc_rotation, enc_bytes. cbn [json_doc forallb fst snd].
  rewrite b64_encode_text, Hk, !num_doc by lia. done.
Qed.

(** ** Keyrings in memory *)

Section keyring.
Context `{AEAD} `{RadixTree} `{BEnv} `{TermRange} `{JsonText}.

(** A key that can be written out and used. *)
Definition wf_key (kv : Key) : Prop :=
  key_json kv ∧ time_json_ok (InstallTime kv) = true ∧ NewCipher (Value kv) = true.

(** The keyring [k] in the memory [ks], [rs] has the keys [T] and the root
    key [root]. *)
Record keyring_ok (ks : list Key) (rs : list string) (k : t) (T : gmap Z string) (root : string)
    : Prop := {
  ko_key : ∀ t l, keys k !! t = Some l →
    ∃ kv, ks !! l = Some kv ∧ Term kv = t ∧ wf_key kv ∧ T !! t = Some (Value kv);
  ko_seq : ∀ t, is_Some (keys k !! t) ↔ 1 ≤ t ≤ activeTerm k;
  ko_dom : ∀ t, is_Some (T !! t) → is_Some (keys k !! t);
  ko_pos : 0 ≤ activeTerm k;
  ko_root : ∃ l, rootKey k = Some l ∧ rs !! l = Some root;
  ko_config : config_json (rotationConfig k);
}.

(** The list of keys [kvs] stands for the map [T] with the terms 1 to [n]. *)
Record represents (kvs : list Key) (T : gmap Z string) (n : Z) : Prop := {
  rep_elem : ∀ t v, T !! t = Some v ↔ ∃ kv, kv ∈ kvs ∧ Term kv = t ∧ Value kv = v;
  rep_NoDup : NoDup (Term <$> kvs);
  rep_wf : Forall wf_key kvs;
  rep_seq : ∀ t, is_Some (T !! t) ↔ 1 ≤ t ≤ n;
  rep_pos : 1 ≤ n;
}.

Lemma keyring_seq ks rs k T root t :
  keyring_ok ks rs k T root → is_Some (T !! t) ↔ 1 ≤ t ≤ activeTerm k.
Proof.
  intros Hk. rewrite <-(ko_seq _ _ _ _ _ Hk). split; [apply (ko_dom _ _ _ _ _ Hk)|].
  intros [l Hl]. destruct (ko_key _ _ _ _ _ Hk _ _ Hl) as (kv & _ & _ & _ & ->). by eexists.
Qed.

(** Memory changes that keep keys usable: new keys, new counts and times. *)
Definition heap_upto (ks ks' : list Key) : Prop :=
  ∀ l kv, ks !! l = Some kv → ∃ kv', ks' !! l = Some kv' ∧ Term kv' = Term kv ∧
    Value kv' = Value kv ∧ (wf_key kv → wf_key kv').

#[export] Instance heap_upto_preorder : PreOrder heap_upto.
Proof.
  split; [intros ks l kv Hl; eauto|]. intros ks1 ks2 ks3 H12 H23 l kv Hl.
  destruct (H12 _ _ Hl) as (kv2 & Hl2 & ? & ? & ?). destruct (H23 _ _ Hl2) as (kv3 & ? & ? & ? & ?).
  exists kv3. split; [done|]. split; [congruence|]. split; [congruence|auto].
Qed.

Lemma heap_upto_app ks more : heap_upto ks (ks ++ more).
Proof. intros l kv Hl. exists kv. split; [by apply lookup_app_l_Some|done]. Qed.

Lemma heap_upto_insert ks l kv kv' :
  ks !! l = Some kv → Term kv' = Term kv → Value kv' = Value kv → (wf_key kv → wf_key kv') →
  heap_upto ks (<[l := kv']> ks).
Proof.
  intros Hl Ht Hv Hwf l' kv0 Hl'. destruct (decide (l = l')) as [<-|Hne].
  - exists kv'. rewrite list_lookup_insert_eq by (by eapply lookup_lt_Some).
    rewrite Hl in Hl'. injection Hl' as <-. done.
  - exists kv0. by rewrite list_lookup_insert_ne.
Qed.

Lemma keyring_ok_mono ks rs ks' rs' k T root :
  heap_upto ks ks' → (∀ l s, rootKey k = Some l → rs !! l = Some s → rs' !! l = Some s) →
  keyring_ok ks rs k T root → keyring_ok ks' rs' k T root.
Proof.
  intros Hks Hrs [Hk Hs Hd Hp (l & Hl & Hr) Hc]. split; try done.
  - intros t l' Hl'. destruct (Hk _ _ Hl') as (kv & Hkv & Ht & Hwf & HT).
    destruct (Hks _ _ Hkv) as (kv' & ? & ? & ? & ?). exists kv'.
    split; [done|]. split; [congruence|]. split; [auto|congruence].
  - eauto.
Qed.

(** ** Reading a keyring *)

Lemma wpE_TermKey ks rs k T root term Q w :
  keyring_ok ks rs k T root → b_keys w = ks →
  (∀ kv, T !! term = Some (Value kv) → Term kv = term → wf_key kv → Q (Some (Ok (Some kv))) w) →
  (T !! term = None → Q (Some (Ok None)) w) →
  wpE (TermKey k term) Q w.
Proof.
  intros Hk Hw HQ HN. unfold TermKey. destruct (keys k !! term) as [l|] eqn:Hl.
  - destruct (ko_key _ _ _ _ _ Hk _ _ Hl) as (kv & Hkv & Ht & Hwf & HT). subst ks.
    apply wpE_bind. eapply wpE_load; [done|]. by apply wpE_ret, HQ.
  - apply wpE_ret, HN. destruct (T !! term) eqn:HT; [|done].
    destruct (ko_dom _ _ _ _ _ Hk term) as [? ?]; [by rewrite HT|congruence].
Qed.

Lemma wpE_ActiveKey ks rs k T root Q w :
  keyring_ok ks rs k T root → 1 ≤ activeTerm k → b_keys w = ks →
  (∀ kv, T !! activeTerm k = Some (Value kv) → Term kv = activeTerm k → wf_key kv →
     Q (Some (Ok (Some kv))) w) →
  wpE (ActiveKey k) Q w.
Proof.
  intros Hk Hp Hw HQ. eapply wpE_TermKey; [done..|]. intros HT.
  assert (is_Some (T !! activeTerm k)) as [? ?] by (apply (keyring_seq _ _ _ _ _ _ Hk); lia).
  congruence.
Qed.

Lemma wpE_RootKey ks rs k T root Q w :
  keyring_ok ks rs k T root → b_roots w = rs → Q (Some (Ok (Some root))) w →
  wpE (RootKey k) Q w.
Proof.
  intros Hk Hw HQ. destruct (ko_root _ _ _ _ _ Hk) as (l & Hl & Hr). unfold RootKey.
  rewrite Hl. apply wpE_bind, wpE_gets. subst rs. apply wpE_bind.
  eapply wpE_nonnil; [done|]. by apply wpE_ret.
Qed.

Lemma wpE_load_all (ls : list (Z * loc)) Q w kvs :
  Forall2 (λ p kv, b_keys w !! p.2 = Some kv) ls kvs → Q (Some (Ok kvs)) w →
  wpE (load_all ls) Q w.
Proof.
  intros Hls. revert Q. induction Hls as [|[t l] kv ls kvs Hl _ IH]; intros Q HQ.
  { by apply wpE_ret. }
  cbn [load_all]. apply wpE_bind. eapply wpE_load; [done|]. apply wpE_bind, IH. by apply wpE_ret.
Qed.

(** The keys of a keyring, in whatever order they come. *)
Lemma keyring_listed ks rs k T root :
  keyring_ok ks rs k T root → 1 ≤ activeTerm k →
  ∃ kvs, Forall2 (λ p kv, ks !! p.2 = Some kv) (range_terms (keys k)) kvs ∧
    represents kvs T (activeTerm k).
Proof.
  intros Hk Hpos. pose proof (range_terms_perm (keys k)) as Hperm.
  assert (∃ kvs, Forall2 (λ p kv, ks !! p.2 = Some kv ∧ Term kv = p.1 ∧ wf_key kv ∧
    T !! p.1 = Some (Value kv)) (range_terms (keys k)) kvs) as [kvs Hkvs].
  { apply Forall_choose, Forall_forall. intros [t l] Hin.
    rewrite Hperm in Hin. apply elem_of_map_to_list in Hin.
    destruct (ko_key _ _ _ _ _ Hk _ _ Hin) as (kv & ? & ? & ? & ?). by exists kv. }
  exists kvs. split; [eapply Forall2_impl; [exact Hkvs|]; by intros ? ? [? _]|].
  assert (Term <$> kvs = (range_terms (keys k)).*1) as Hterms.
  { clear Hperm. induction Hkvs as [|p kv ls kvs (_ & Ht & _) _ IH]; [done|].
    rewrite !fmap_cons. by rewrite Ht, IH. }
  assert (∀ kv, kv ∈ kvs → wf_key kv ∧ T !! Term kv = Some (Value kv)) as Hall.
  { intros kv Hkv. apply list_elem_of_lookup in Hkv as [i Hi].
    destruct (Forall2_lookup_r _ _ _ _ _ Hkvs Hi) as ([t l] & _ & _ & Ht & Hwf & HT).
    simpl in *. by rewrite Ht. }
  split.
  - intros t v. split.
    + intros Hv. destruct (ko_dom _ _ _ _ _ Hk t) as [l Hl]; [by rewrite Hv|].
      assert ((t, l) ∈ range_terms (keys k)) as Hin by (rewrite Hperm; by apply elem_of_map_to_list).
      apply list_elem_of_lookup in Hin as [i Hi].
      destruct (Forall2_lookup_l _ _ _ _ _ Hkvs Hi) as (kv & Hkv & _ & Ht & _ & HT).
      exists kv. split; [by eapply list_elem_of_lookup_2|]. simpl in *. split; congruence.
    + intros (kv & Hkv & <- & <-). by apply Hall.
  - rewrite Hterms, Hperm. apply NoDup_fst_map_to_list.
  - apply Forall_forall. intros kv Hkv. by apply Hall.
  - intros t. apply (keyring_seq _ _ _ _ _ _ Hk).
  - done.
Qed.

Lemma wpE_Serialize_listed k T root kvs Q w :
  keyring_ok (b_keys w) (b_roots w) k T root →
  Forall2 (λ p kv, b_keys w !! p.2 = Some kv) (range_terms (keys k)) kvs →
  represents kvs T (activeTerm k) →
  Q (Some (Ok (json_Marshal (enc_keyring (Some root) kvs (rotationConfig k))))) w →
  wpE (Serialize k) Q w.
Proof.
  intros Hk Hls Hrep HQ. apply wpE_bind. eapply wpE_RootKey; [done..|].
  apply wpE_bind. eapply wpE_load_all; [done|]. unfold Marshal.
  assert (forallb time_json_ok (InstallTime <$> kvs) = true) as ->.
  { apply forallb_forall. intros t (kv & -> & Hkv)%list_elem_of_In%list_elem_of_fmap.
    destruct (proj1 (Forall_forall _ _) (rep_wf _ _ _ Hrep) kv Hkv) as (_ & ? & _). done. }
  by apply wpE_ret.
Qed.

Lemma wpE_Serialize ks rs k T root Q w :
  keyring_ok ks rs k T root → 1 ≤ activeTerm k → b_keys w = ks → b_roots w = rs →
  (∀ kvs, represents kvs T (activeTerm k) →
     Q (Some (Ok (json_Marshal (enc_keyring (Some root) kvs (rotationConfig k))))) w) →
  wpE (Serialize k) Q w.
Proof.
  intros Hk Hp <- <- HQ. destruct (keyring_listed _ _ _ _ _ Hk Hp) as (kvs & Hls & Hrep).
  eapply wpE_Serialize_listed; [done..|]. by apply HQ.
Qed.

(** ** Reading a keyring back *)

(** The keyring [k] holds the keys [done] installed so far. *)
Record installed (ks : list Key) (k : t) (done : list Key) : Prop := {
  ins_key : ∀ t l, keys k !! t = Some l → ∃ kv, ks !! l = Some kv ∧ Term kv = t ∧ kv ∈ done;
  ins_all : ∀ kv, kv ∈ done → is_Some (keys k !! Term kv) ∧ Term kv ≤ activeTerm k;
  ins_active : activeTerm k = 0 ∨ ∃ kv, kv ∈ done ∧ Term kv = activeTerm k;
}.

Lemma installed_step ks k done kv :
  installed ks k done → Term kv ∉ Term <$> done →
  installed (ks ++ [kv]) (mk (rootKey k) (<[Term kv := length ks]> (keys k))
    (if activeTerm k <? Term kv then Term kv else activeTerm k) (rotationConfig k)) (done ++ [kv]).
Proof.
  intros [Hk Ha Hact] Hnew. split; cbn [keys activeTerm].
  - intros t l [[<- <-]|[Hne Hl]]%lookup_insert_Some.
    + exists kv. rewrite list_lookup_middle by done. set_solver.
    + destruct (Hk _ _ Hl) as (kv' & Hkv' & ? & ?). exists kv'.
      split; [by apply lookup_app_l_Some|]. set_solver.
  - intros kv' [Hkv'| ->%list_elem_of_singleton]%elem_of_app.
    + destruct (Ha _ Hkv') as [Hs Hle]. split.
      * rewrite lookup_insert_ne; [done|]. intros Heq. apply Hnew, list_elem_of_fmap. eauto.
      * destruct (Z.ltb_spec (activeTerm k) (Term kv)); lia.
    + rewrite lookup_insert_eq. split; [done|]. destruct (Z.ltb_spec (activeTerm k) (Term kv)); lia.
  - destruct (Z.ltb_spec (activeTerm k) (Term kv)); [right; exists kv; set_solver|].
    destruct Hact as [?|(kv' & ? & ?)]; [by left|right]. exists kv'. set_solver.
Qed.

Lemma wpE_install_all todo done k Q w :
  installed (b_keys w) k done → NoDup (Term <$> done ++ todo) →
  (∀ k', installed (b_keys w ++ todo) k' (done ++ todo) → rootKey k' = rootKey k →
     rotationConfig k' = rotationConfig k →
     Q (Some (Ok k')) (set_keys (b_keys w ++ todo) w)) →
  wpE (install_all k (Some <$> todo)) Q w.
Proof.
  revert done k w. induction todo as [|kv todo IH]; intros done k w Hk Hnd HQ.
  { apply wpE_ret. rewrite !app_nil_r in HQ. specialize (HQ k Hk eq_refl eq_refl).
    by destruct w. }
  rewrite fmap_cons. cbn [install_all]. apply wpE_bind. eapply wpE_nonnil; [done|].
  apply wpE_bind, wpE_new_key. rewrite cons_middle, (assoc_L (++)) in Hnd.
  apply (IH (done ++ [kv])).
  - apply installed_step; [done|]. rewrite !fmap_app in Hnd.
    apply NoDup_app in Hnd as [(_ & Hd & _)%NoDup_app _]. intros Hin. apply (Hd _ Hin). simpl. set_solver.
  - done.
  - cbn [b_keys set_keys rootKey rotationConfig]. rewrite <-!(assoc_L (++)). simpl. auto.
Qed.

Lemma Sanitize_json c : config_json c → config_json (Sanitize c).
Proof.
  unfold config_json, Sanitize, int64_ok, absoluteOperationMaximum, absoluteOperationMinimum,
    minimumRotationInterval. cbn [MaxOperations Interval]. intros [Hm Hi].
  assert (24 * Hour = 86400000000000) as -> by done.
  rewrite andb_true_iff, Z.leb_le, Z.ltb_lt in *. split.
  - destruct (_ || _); [done|]. case_match; [done|]. lia.
  - case_match; [done|lia].
Qed.

Lemma installed_ok ks rs k kvs T n l root :
  installed ks k kvs → represents kvs T n → rootKey k = Some l → rs !! l = Some root →
  config_json (rotationConfig k) → keyring_ok ks rs k T root ∧ activeTerm k = n.
Proof.
  intros [Hk Ha Hact] [He Hnd Hwf Hseq Hpos] Hl Hr Hc. rewrite Forall_forall in Hwf.
  assert (∀ kv, kv ∈ kvs → T !! Term kv = Some (Value kv)) as HT by (intros; apply He; eauto).
  assert (∀ t, is_Some (keys k !! t) ↔ is_Some (T !! t)) as Hdom.
  { intros t. split.
    - intros [l' Hl']. destruct (Hk _ _ Hl') as (kv & _ & <- & Hin). by rewrite HT.
    - intros [v Hv]. apply He in Hv as (kv & Hin & <- & _). by apply Ha. }
  assert (activeTerm k = n) as Hn.
  { destruct (proj2 (Hseq n)) as [v Hv]; [lia|]. apply He in Hv as (kv & Hin & Ht & _).
    destruct (Ha _ Hin) as [_ Hle]. destruct Hact as [Hz|(kv' & Hin' & Ht')]; [lia|].
    assert (1 ≤ Term kv' ≤ n) by (apply Hseq; by rewrite HT). lia. }
  split; [|done]. split.
  - intros t l' Hl'. destruct (Hk _ _ Hl') as (kv & Hkv & Ht & Hin). exists kv.
    split; [done|]. split; [done|]. split; [by apply Hwf|]. by rewrite <-Ht, HT.
  - intros t. rewrite Hdom, Hseq, Hn. done.
  - intros t. by rewrite Hdom.
  - lia.
  - eauto.
  - done.
Qed.

(** The keyring written by [Serialize], in any order, is read back. *)
Lemma wpE_DeserializeKeyring kvs T n root c Q w :
  represents kvs T n → config_json c →
  (∀ k w', w' = set_keys (b_keys w ++ kvs) (set_roots (b_roots w ++ [root]) w) →
     keyring_ok (b_keys w') (b_roots w') k T root → activeTerm k = n →
     installed (b_keys w') k kvs → rotationConfig k = Sanitize c → Q (Some (Ok k)) w') →
  wpE (DeserializeKeyring (json_Marshal (enc_keyring (Some root) kvs c))) Q w.
Proof.
  intros Hrep Hc HQ. apply wpE_bind, wpE_wrapf. unfold DecodeJSON_as.
  rewrite json_Decode_Marshal, dec_enc_keyring; [|eapply Forall_impl; [apply Hrep|by intros ? [? _]]|done|].
  2: { apply enc_keyring_doc; [|done]. eapply Forall_impl; [apply Hrep|by intros ? (? & ? & _)]. }
  apply wpE_ret, wpE_bind, wpE_bind, wpE_new_root, wpE_ret. cbn [Keys].
  apply (wpE_install_all kvs []).
  - split; [intros t l Hl; simpl in Hl; by apply lookup_empty_Some in Hl|set_solver|by left].
  - apply Hrep.
  - cbn [rootKey rotationConfig app]. intros k Hk Hroot Hconf.
    destruct (installed_ok _ (b_roots w ++ [root]) _ _ _ _ (length (b_roots w)) root Hk Hrep) as [Hok Hn].
    + done.
    + by apply list_lookup_middle.
    + rewrite Hconf. by apply Sanitize_json.
    + by apply HQ.
Qed.

(** ** Wiping a keyring *)

Lemma memzero_twice s : memzero (memzero s) = memzero s.
Proof. induction s as [|c s IH]; [done|]. simpl. by rewrite IH. Qed.

(** The key at [l] is there, and wiped. *)
Definition wiped (ks : list Key) (l : loc) : Prop :=
  ∃ kv, ks !! l = Some kv ∧ memzero (Value kv) = Value kv.

(** Nothing but the memory of keys has moved, and what was wiped still is. *)
Record wipes (w w' : BWorld) : Prop := {
  wp_length : length (b_keys w') = length (b_keys w);
  wp_wiped : ∀ l, wiped (b_keys w) l → wiped (b_keys w') l;
  wp_bar : b_bar w' = b_bar w;
  wp_roots : b_roots w' = b_roots w;
  wp_disk : b_disk w' = b_disk w;
}.

Lemma wpE_wipe_all (ls : list (Z * loc)) Q w :
  (∀ p, p ∈ ls → (p.2 < length (b_keys w))%nat) →
  (∀ w', wipes w w' → (∀ p, p ∈ ls → wiped (b_keys w') p.2) → Q (Some (Ok ())) w') →
  wpE (for_each ls (λ '(_, l), kv ← load l; store l (set_Value (memzero (Value kv)) kv))) Q w.
Proof.
  revert w. induction ls as [|[t l] ls IH]; intros w Hin HQ.
  { apply wpE_ret, HQ; [by split|set_solver]. }
  destruct (lookup_lt_is_Some_2 (b_keys w) l) as [kv Hkv].
  { apply (Hin (t, l)). set_solver. }
  cbn [for_each]. apply wpE_bind, wpE_bind. eapply wpE_load; [done|]. apply wpE_store.
  set (kv' := set_Value (memzero (Value kv)) kv).
  assert (wiped (<[l := kv']> (b_keys w)) l) as Hl.
  { exists kv'. rewrite list_lookup_insert_eq by by eapply lookup_lt_Some.
    split; [done|]. apply memzero_twice. }
  apply IH.
  - intros p Hp. simpl. rewrite length_insert. apply Hin. set_solver.
  - intros w' [Hlen Hw ? ? ?] Hall. simpl in *. apply HQ; [split; [|..|done|done|done]|].
    + by rewrite Hlen, length_insert.
    + intros l0 (kv0 & Hl0 & Hz). apply Hw. destruct (decide (l = l0)) as [<-|Hne]; [done|].
      exists kv0. by rewrite list_lookup_insert_ne.
    + intros p [->|Hp]%elem_of_cons; [by apply Hw|by apply Hall].
Qed.

Lemma wpE_Zeroize_all k T root Q w :
  keyring_ok (b_keys w) (b_roots w) k T root →
  (∀ w', b_bar w' = b_bar w → b_disk w' = b_disk w →
     (∀ t l, keys k !! t = Some l → wiped (b_keys w') l) →
     (∀ l, rootKey k = Some l → b_roots w' !! l = Some (memzero root)) → Q (Some (Ok ())) w') →
  wpE (Zeroize (Some k) true) Q w.
Proof.
  intros Hk HQ. destruct (ko_root _ _ _ _ _ Hk) as (l & Hl & Hr). unfold Zeroize. rewrite Hl.
  apply wpE_bind, wpE_modify, wpE_wipe_all.
  - intros [t l'] Hin. rewrite range_terms_perm in Hin. apply elem_of_map_to_list in Hin.
    destruct (ko_key _ _ _ _ _ Hk _ _ Hin) as (kv & Hkv & _). by eapply lookup_lt_Some.
  - intros w' [_ _ Hb Hr' Hd] Hall. simpl in *. apply HQ; [done|done|..].
    + intros t l' Hl'. apply (Hall (t, l')). rewrite range_terms_perm. by apply elem_of_map_to_list.
    + intros l' Hl'. rewrite Hl in Hl'. injection Hl' as <-. rewrite Hr', list_lookup_alter_eq.
      exact (f_equal (fmap memzero) Hr).
Qed.

(** Only the root key is wiped. *)
Lemma wpE_Zeroize_root k T root Q w :
  keyring_ok (b_keys w) (b_roots w) k T root →
  (∀ l, rootKey k = Some l → Q (Some (Ok ())) (set_roots (alter memzero l (b_roots w)) w)) →
  wpE (Zeroize (Some k) false) Q w.
Proof.
  intros Hk HQ. destruct (ko_root _ _ _ _ _ Hk) as (l & Hl & _). unfold Zeroize. rewrite Hl.
  apply wpE_bind, wpE_modify, wpE_ret. auto.
Qed.

(** ** Changing a keyring *)

(** Nothing but the memory of keys, and the clock, has moved. *)
Record heap_only (w w' : BWorld) : Prop := {
  ho_keys : heap_upto (b_keys w) (b_keys w');
  ho_bar : b_bar w' = b_bar w;
  ho_roots : b_roots w' = b_roots w;
  ho_disk : b_disk w' = b_disk w;
}.

Lemma wpE_SetRootKey k T root val Q w :
  keyring_ok (b_keys w) (b_roots w) k T root →
  (∀ k' w', w' = set_roots (b_roots w ++ [val]) w →
     keyring_ok (b_keys w') (b_roots w') k' T val → rootKey k' = Some (length (b_roots w)) →
     activeTerm k' = activeTerm k → Q (Some (Ok k')) w') →
  wpE (SetRootKey k val) Q w.
Proof.
  intros [] HQ. apply wpE_bind, wpE_new_root, wpE_ret, HQ; try done. split; try done.
  exists (length (b_roots w)). split; [done|]. by apply list_lookup_middle.
Qed.

Hypothesis clock_ok : ∀ n, time_json_ok (be_clock n) = true.

Lemma wf_set_Encryptions kv : wf_key kv → wf_key (set_Encryptions 0 kv).
Proof. by intros ((? & ? & ?) & ? & ?). Qed.

Lemma wf_set_InstallTime t kv : time_json_ok t = true → wf_key kv → wf_key (set_InstallTime t kv).
Proof. intros Ht ((? & ? & ?) & ? & ?). done. Qed.

(** The keyring with the next key. *)
Lemma keyring_ok_add ks rs k T root l kv :
  keyring_ok ks rs k T root → ks !! l = Some kv → wf_key kv → Term kv = activeTerm k + 1 →
  keyring_ok ks rs (mk (rootKey k) (<[Term kv := l]> (keys k)) (Term kv) (rotationConfig k))
    (<[Term kv := Value kv]> T) root.
Proof.
  intros Hk Hl Hwf Ht. pose proof (ko_pos _ _ _ _ _ Hk). split; cbn [keys activeTerm].
  - intros t l' [[<- <-]|[Hne Hl']]%lookup_insert_Some.
    + exists kv. by rewrite lookup_insert_eq.
    + rewrite lookup_insert_ne by done. by apply (ko_key _ _ _ _ _ Hk).
  - intros t. rewrite lookup_insert_is_Some, (ko_seq _ _ _ _ _ Hk). lia.
  - intros t. rewrite !lookup_insert_is_Some.
    intros [?|[? ?]]; [by left|right]. split; [done|]. by apply (ko_dom _ _ _ _ _ Hk).
  - lia.
  - apply (ko_root _ _ _ _ _ Hk).
  - apply (ko_config _ _ _ _ _ Hk).
Qed.

(** The counts of the other keys are set to zero. *)
Lemma wpE_zero_others (k : t) Q w :
  (∀ t l, keys k !! t = Some l → is_Some (b_keys w !! l)) →
  (∀ w', heap_only w w' → Q (Some (Ok ())) w') →
  wpE (for_each (range_terms (keys k)) (λ '(term, l),
    if term =? activeTerm k then mret () else kv ← load l; store l (set_Encryptions 0 kv))) Q w.
Proof.
  intros Hk HQ. apply (wpE_for_each _ _ (heap_only w)); [by split| |done].
  intros [t l] w1 Hin Hw1. destruct (t =? activeTerm k); [by apply wpE_ret|].
  rewrite range_terms_perm in Hin. apply elem_of_map_to_list in Hin.
  destruct (Hk _ _ Hin) as [kv Hkv]. destruct (ho_keys _ _ Hw1 _ _ Hkv) as (kv1 & Hkv1 & _).
  apply wpE_bind. eapply wpE_load; [done|]. apply wpE_store. split; [done|].
  destruct Hw1 as [Hh ? ? ?]. split; simpl; try done. etrans; [exact Hh|].
  eapply heap_upto_insert; [done..|]. apply wf_set_Encryptions.
Qed.

(** Adding the next key. *)
Lemma wpE_AddKey rs k T root l kv Q w :
  keyring_ok (b_keys w) rs k T root → b_keys w !! l = Some kv → wf_key kv →
  Term kv = activeTerm k + 1 →
  (∀ k' w', heap_only w w' →
     keyring_ok (b_keys w') rs k' (<[Term kv := Value kv]> T) root →
     rootKey k' = rootKey k → activeTerm k' = Term kv →
     Q (Some (Ok k')) w') →
  wpE (AddKey k l) Q w.
Proof.
  intros Hk Hl Hwf Ht HQ. unfold AddKey. apply wpE_bind. eapply wpE_load; [done|].
  destruct (keys k !! Term kv) as [l'|] eqn:Hnew.
  { exfalso. assert (is_Some (keys k !! Term kv)) as Hs by by rewrite Hnew.
    apply (ko_seq _ _ _ _ _ Hk) in Hs. lia. }
  cbn [Clone activeTerm]. destruct (Z.ltb_spec (activeTerm k) (Term kv)); [|lia].
  assert (∀ w1, heap_only w w1 → wpE (
    for_each (range_terms (<[Term kv := l]> (keys k))) (λ '(term, l),
      if term =? Term kv then mret () else kv ← load l; store l (set_Encryptions 0 kv)) ≫= λ _,
    mret (mk (rootKey k) (<[Term kv := l]> (keys k)) (Term kv) (rotationConfig k))) Q w1) as Hloop.
  { intros w1 Hw1. destruct (ho_keys _ _ Hw1 _ _ Hl) as (kv1 & Hkv1 & Ht1 & Hv1 & Hwf1).
    apply (keyring_ok_mono _ rs (b_keys w1) rs) in Hk; [|apply Hw1|done].
    apply wpE_bind. refine (wpE_zero_others
      (mk (rootKey k) (<[Term kv := l]> (keys k)) (Term kv) (rotationConfig k)) _ w1 _ _).
    - cbn [keys]. intros t l' [[_ <-]|[_ Hl']]%lookup_insert_Some; [by exists kv1|].
      destruct (ko_key _ _ _ _ _ Hk _ _ Hl') as (kv2 & Hkv2 & _). by exists kv2.
    - intros w2 Hw2. apply wpE_ret, HQ; [|..|done|done].
      + destruct Hw1, Hw2. split; [by etrans|congruence..].
      + apply (keyring_ok_mono (b_keys w1) rs); [apply Hw2|done|].
        rewrite <-Ht1, <-Hv1. apply keyring_ok_add; [done|done|auto|congruence]. }
  apply wpE_bind. destruct (InstallTime kv =? 0).
  - apply wpE_bind. unfold wpE at 1, time_Now. simpl. apply wpE_store, Hloop.
    split; simpl; try done. eapply heap_upto_insert; [done..|]. by apply wf_set_InstallTime.
  - apply wpE_ret, Hloop. by split.
Qed.

End keyring.
