(* ===== verification/BarrierInv.v ===== *)
(** * The invariant of the barrier

    What holds of the disk and of the memory of a node between operations:
    every entry is encrypted under a key that the stored keyring has, and an
    unsealed barrier holds those keys. *)

From S2P Require Import Prelude GoLib GoSplit Utf8 Storage Core AesGcm Encoding BarrierState KeyringOps Barrier BarrierLogic BarrierCrypt KeyringFacts.
Import Keyring.

(** The paths the barrier keeps for itself. *)
Definition reserved (k : string) : bool :=
  bool_decide (k = keyringPath ∨ k = rootKeyPath ∨ k = barrierInitPath) ||
  HasPrefix k keyringUpgradePrefix.

Lemma upgrade_reserved t : reserved (upgradePath t) = true.
Proof.
  unfold reserved, upgradePath. rewrite (proj2 (HasPrefix_spec _ _)); [|eauto]. by rewrite orb_true_r.
Qed.

Lemma upgrade_not_keyring t : upgradePath t ≠ keyringPath ∧ upgradePath t ≠ rootKeyPath.
Proof. split; discriminate. Qed.

Lemma upgradePath_inj t t' : upgradePath t = upgradePath t' → t = t'.
Proof. intros Heq%str_app_inj_l. by apply (inj pretty). Qed.

Section inv.
Context `{AEAD} `{RadixTree} `{BEnv} `{TermRange} `{JsonText}.

(** The disk holds the keyring [S] with terms 1 to [n], under [root]. *)
Definition stored_keyring (S : gmap Z string) (n : Z) (root : string) (m : gmap string string)
    : Prop :=
  ∃ ct kvs c, m !! keyringPath = Some ct ∧ represents kvs S n ∧ config_json c ∧
    NewCipher root = true ∧
    ct_of 1 root keyringPath (json_Marshal (enc_keyring (Some root) kvs c)) ct.

(** The entry [o] is an encryption of the value [v] of [k], or both are
    absent. *)
Definition entry_ok (T : gmap Z string) (k : string) (v o : option string) : Prop :=
  match v, o with
  | None, None => True
  | Some v, Some ct => ∃ t kb, T !! t = Some kb ∧ ct_of t kb k v ct
  | _, _ => False
  end.

Definition upgrade_ok (T : gmap Z string) (t : Z) (ct : string) : Prop :=
  ∃ kb kv, T !! t = Some kb ∧ key_json kv ∧ Term kv = t + 1 ∧ T !! (t + 1) = Some (Value kv) ∧
    ct_of t kb (upgradePath t) (json_Marshal (enc_key kv)) ct.

(** [T] are the keys in use, [S] those of the stored keyring. *)
Record disk_inv (T S : gmap Z string) (n : Z) (root : string) (data m : gmap string string)
    : Prop := {
  di_keyring : stored_keyring S n root m;
  di_sub : T ⊆ S;
  di_data : ∀ k, reserved k = false → entry_ok T k (data !! k) (m !! k);
  di_upgrade : ∀ t ct, 0 ≤ t < 2 ^ 32 → m !! upgradePath t = Some ct → upgrade_ok T t ct;
  di_root : ∀ ct, m !! rootKeyPath = Some ct → (29 ≤ String.length ct)%nat;
}.

Record mem_inv (T : gmap Z string) (w : BWorld) : Prop := {
  mi_version : version_ok (currentAESGCMVersionByte (b_bar w));
  mi_sealed : bar_sealed (b_bar w) = true → bar_keyring (b_bar w) = None ∧ bar_cache (b_bar w) = ∅;
  mi_open : bar_sealed (b_bar w) = false → ∃ k root, bar_keyring (b_bar w) = Some k ∧
    keyring_ok (b_keys w) (b_roots w) k T root ∧ 1 ≤ activeTerm k ∧ bar_cache (b_bar w) ⊆ T;
}.

Lemma entry_ok_mono T T' k v o : T ⊆ T' → entry_ok T k v o → entry_ok T' k v o.
Proof.
  intros HT. destruct v, o; simpl; try done. intros (t & kb & Ht & Hct). exists t, kb.
  split; [by eapply lookup_weaken|done].
Qed.

Lemma disk_inv_mono T T' S n root data m :
  T ⊆ T' → T' ⊆ S → disk_inv T S n root data m → disk_inv T' S n root data m.
Proof.
  intros HT HS [Hk Hsub Hd Hu Hr]. split; [done|done|..|done].
  - intros k Hk'. eapply entry_ok_mono; [done|]. by apply Hd.
  - intros t ct Ht Hct. destruct (Hu t ct Ht Hct) as (kb & kv & Hkb & Hj & Hterm & Hv & Hc).
    exists kb, kv. split; [by eapply lookup_weaken|]. split; [done|]. split; [done|].
    split; [by eapply lookup_weaken|done].
Qed.

(** The terms in use are those of the stored keyring. *)
Lemma disk_inv_range T S n root data m t kb :
  disk_inv T S n root data m → T !! t = Some kb → 1 ≤ t < 2 ^ 32 ∧ t ≤ n ∧ NewCipher kb = true.
Proof.
  intros [(ct & kvs & c & _ & Hrep & _) Hsub _ _ _] Ht.
  assert (S !! t = Some kb) as HS by by eapply lookup_weaken.
  assert (1 ≤ t ≤ n) by (apply (rep_seq _ _ _ Hrep); by rewrite HS).
  apply (rep_elem _ _ _ Hrep) in HS as (kv & Hin & <- & <-).
  destruct (proj1 (Forall_forall _ _) (rep_wf _ _ _ Hrep) kv Hin) as ((? & _) & _ & ?). split; [lia|]. split; [lia|done].
Qed.

(** ** Changes of the disk *)

(** A change of data or of a path that is not the keyring's. *)
Lemma disk_inv_data T S n root data m k v o :
  disk_inv T S n root data m → reserved k = false → entry_ok T k v o →
  disk_inv T S n root (partial_alter (λ _, v) k data) (partial_alter (λ _, o) k m).
Proof.
  intros [(ct & kvs & c & Hk) Hsub Hd Hu Hr] Hres He.
  assert (∀ k', reserved k' = true → partial_alter (λ _, o) k m !! k' = m !! k') as Hne.
  { intros k' Hk'. apply lookup_partial_alter_ne. intros ->. congruence. }
  split; [|done|..].
  - exists ct, kvs, c. by rewrite Hne.
  - intros k' Hk'. destruct (decide (k = k')) as [<-|Hkk].
    + by rewrite !lookup_partial_alter_eq.
    + rewrite !lookup_partial_alter_ne by done. by apply Hd.
  - intros t ct' Ht. rewrite Hne by apply upgrade_reserved. by apply Hu.
  - intros ct'. rewrite Hne by done. apply Hr.
Qed.

Lemma disk_inv_put T S n root data m k v t kb ct :
  disk_inv T S n root data m → reserved k = false → T !! t = Some kb → ct_of t kb k v ct →
  disk_inv T S n root (<[k := v]> data) (<[k := ct]> m).
Proof. intros Hd Hk Ht Hct. apply (disk_inv_data _ _ _ _ _ _ k (Some v) (Some ct)); [done..|]. by exists t, kb. Qed.

Lemma disk_inv_delete T S n root data m k :
  disk_inv T S n root data m → reserved k = false →
  disk_inv T S n root (delete k data) (delete k m).
Proof. intros Hd Hk. by apply (disk_inv_data _ _ _ _ _ _ k None None). Qed.

Lemma disk_inv_upgrade T S n root data m t ct :
  disk_inv T S n root data m → upgrade_ok T t ct →
  disk_inv T S n root data (<[upgradePath t := ct]> m).
Proof.
  intros [(ct0 & kvs & c & Hk & Hrest) Hsub Hd Hu Hr] Hct. split; [|done|..].
  - exists ct0, kvs, c. rewrite lookup_insert_ne by apply upgrade_not_keyring. done.
  - intros k Hk'. rewrite lookup_insert_ne; [by apply Hd|]. intros <-.
    by rewrite upgrade_reserved in Hk'.
  - intros t' ct' Ht' [[<-%upgradePath_inj <-]|[_ Hct']]%lookup_insert_Some; [done|by apply Hu].
  - intros ct'. rewrite lookup_insert_ne by apply upgrade_not_keyring. apply Hr.
Qed.

Lemma disk_inv_destroy T S n root data m t :
  disk_inv T S n root data m → disk_inv T S n root data (delete (upgradePath t) m).
Proof.
  intros [(ct0 & kvs & c & Hk & Hrest) Hsub Hd Hu Hr]. split; [|done|..].
  - exists ct0, kvs, c. rewrite lookup_delete_ne by apply upgrade_not_keyring. done.
  - intros k Hk'. rewrite lookup_delete_ne; [by apply Hd|]. intros <-.
    by rewrite upgrade_reserved in Hk'.
  - intros t' ct' Ht' [_ Hct']%lookup_delete_Some. by apply Hu.
  - intros ct'. rewrite lookup_delete_ne by apply upgrade_not_keyring. apply Hr.
Qed.

(** What [persistKeyring] leaves on disk: the keyring, then the root key. *)
Definition keyring_written (M : gmap Z string) (n : Z) (root : string)
    (m m' : gmap string string) : Prop :=
  ∃ ct kvs c, m' = <[keyringPath := ct]> m ∧ represents kvs M n ∧ config_json c ∧
    NewCipher root = true ∧
    ct_of 1 root keyringPath (json_Marshal (enc_keyring (Some root) kvs c)) ct.

(** The text of the root key as a key. *)
Definition root_text (root : string) : string := json_Marshal (enc_key (mkKey 1 1 root 0 0)).

Definition persisted (M : gmap Z string) (n : Z) (root : string) (m m' : gmap string string)
    : Prop :=
  ∃ m1 kb ct, keyring_written M n root m m1 ∧ M !! n = Some kb ∧
    ct_of n kb rootKeyPath (root_text root) ct ∧ m' = <[rootKeyPath := ct]> m1.

(** The disk after an attempt: as it was, or with one or both written. *)
Definition attempted (M : gmap Z string) (n : Z) (root : string) (m m' : gmap string string)
    : Prop :=
  m' = m ∨ keyring_written M n root m m' ∨ persisted M n root m m'.

Lemma disk_inv_keyring_written T S n root data m M n' root' m' :
  disk_inv T S n root data m → T ⊆ M → keyring_written M n' root' m m' →
  disk_inv T M n' root' data m'.
Proof.
  intros [_ Hsub Hd Hu Hr] HM (ct & kvs & c & -> & Hrep & Hc & Hroot & Hct). split; [|done|..].
  - exists ct, kvs, c. by rewrite lookup_insert_eq.
  - intros k Hk. rewrite lookup_insert_ne; [by apply Hd|]. by intros <-.
  - intros t ct' Ht. rewrite lookup_insert_ne; [by apply Hu|].
    intros Heq. by apply (proj1 (upgrade_not_keyring t)).
  - intros ct'. rewrite lookup_insert_ne by done. apply Hr.
Qed.

Lemma disk_inv_root_key T S n root data m ct :
  disk_inv T S n root data m → (29 ≤ String.length ct)%nat →
  disk_inv T S n root data (<[rootKeyPath := ct]> m).
Proof.
  intros [(ct0 & kvs & c & Hk & Hrest) Hsub Hd Hu Hr] Hlen. split; [|done|..].
  - exists ct0, kvs, c. by rewrite lookup_insert_ne.
  - intros k Hk'. rewrite lookup_insert_ne; [by apply Hd|]. by intros <-.
  - intros t ct' Ht. rewrite lookup_insert_ne; [by apply Hu|].
    intros Heq. by apply (proj2 (upgrade_not_keyring t)).
  - intros ct'. rewrite lookup_insert_eq. by intros [= <-].
Qed.

Lemma disk_inv_persisted T S n root data m M n' root' m' :
  disk_inv T S n root data m → T ⊆ M → persisted M n' root' m m' → disk_inv T M n' root' data m'.
Proof.
  intros Hd HM (m1 & kb & ct & Hw & _ & Hct & ->). apply disk_inv_root_key.
  - by eapply disk_inv_keyring_written.
  - apply ct_length in Hct. lia.
Qed.

(** ** The barrier's own entries *)

(** The paths of the barrier's own entries, the root key that the entry
    [core/master] holds, and the key this entry is sealed under. *)
Record Own := mkOwn { o_paths : gset string; o_master : string; o_seal : string }.

Record own_inv (o : Own) (data m : gmap string string) : Prop := {
  oi_paths : ∀ k, k ∈ o_paths o ↔ reserved k = true ∧ is_Some (m !! k);
  oi_data : ∀ k, reserved k = true → data !! k = None;
  oi_master : ∃ t ct, m !! rootKeyPath = Some ct ∧
    ct_of t (o_seal o) rootKeyPath (root_text (o_master o)) ct;
}.

Lemma own_inv_data o data m k v x :
  own_inv o data m → reserved k = false →
  own_inv o (partial_alter (λ _, v) k data) (partial_alter (λ _, x) k m).
Proof.
  intros [Hp Hd (t & ct & Hct & Hof)] Hk.
  assert (∀ k', reserved k' = true → k ≠ k') as Hne by (intros k' Hk' <-; congruence).
  split.
  - intros k'. rewrite Hp. split; intros [Hk' Hs]; (split; [done|]);
      by rewrite lookup_partial_alter_ne in * by auto.
  - intros k' Hk'. rewrite lookup_partial_alter_ne by auto. by apply Hd.
  - exists t, ct. rewrite lookup_partial_alter_ne by auto. done.
Qed.

Lemma own_inv_put o data m k ct :
  own_inv o data m → reserved k = true → k ≠ rootKeyPath →
  own_inv (mkOwn ({[k]} ∪ o_paths o) (o_master o) (o_seal o)) data (<[k := ct]> m).
Proof.
  intros [Hp Hd (t & ct' & Hct & Hof)] Hk Hne. split; simpl; [|done|].
  - intros k'. rewrite elem_of_union, elem_of_singleton, Hp, lookup_insert_is_Some.
    split; [intros [->|[? ?]]; [by auto|]|intros [? [->|[_ ?]]]; auto].
    split; [done|]. destruct (decide (k = k')); auto.
  - exists t, ct'. by rewrite lookup_insert_ne.
Qed.

Lemma own_inv_remove o data m k :
  own_inv o data m → reserved k = true → k ≠ rootKeyPath →
  own_inv (mkOwn (o_paths o ∖ {[k]}) (o_master o) (o_seal o)) data (delete k m).
Proof.
  intros [Hp Hd (t & ct' & Hct & Hof)] Hk Hne. split; simpl; [|done|].
  - intros k'. rewrite elem_of_difference, elem_of_singleton, Hp, lookup_delete_is_Some.
    split; [intros [[? ?] ?]; auto|intros (? & ? & ?); auto].
  - exists t, ct'. by rewrite lookup_delete_ne.
Qed.

(** The keyring's entry is there already. *)
Lemma own_inv_keyring_written o data m M n root m' :
  own_inv o data m → is_Some (m !! keyringPath) → keyring_written M n root m m' → own_inv o data m'.
Proof.
  intros Ho Hk (ct & kvs & c & -> & _).
  assert (keyringPath ∈ o_paths o) as Hin by (by apply (oi_paths _ _ _ Ho)).
  apply (own_inv_put _ _ _ keyringPath ct) in Ho; [|done|done].
  replace ({[keyringPath]} ∪ o_paths o) with (o_paths o) in Ho by set_solver. by destruct o.
Qed.

Lemma own_inv_persisted o data m M n root m' :
  own_inv o data m → is_Some (m !! keyringPath) → persisted M n root m m' →
  ∃ kb, M !! n = Some kb ∧ own_inv (mkOwn (o_paths o) root kb) data m'.
Proof.
  intros Ho Hk (m1 & kb & ct & Hw & HM & Hct & ->). exists kb. split; [done|].
  apply (own_inv_keyring_written _ _ _ _ _ _ _ Ho Hk) in Hw as [Hp Hd (t & ct' & Hct' & _)].
  split; simpl; [|done|].
  - intros k. rewrite Hp, lookup_insert_is_Some. split.
    + intros [? ?]. split; [done|]. destruct (decide (rootKeyPath = k)); auto.
    + intros [Hr [<-|[_ Hs]]]; [|done]. by split; [|rewrite Hct'].
  - exists n, ct. by rewrite lookup_insert_eq.
Qed.

(** The paths in use are those of the data and the barrier's own. *)
Lemma own_inv_dom T S n root data m o k :
  disk_inv T S n root data m → own_inv o data m → is_Some (m !! k) ↔ k ∈ dom data ∪ o_paths o.
Proof.
  intros Hd [Hp Hn _]. rewrite elem_of_union, elem_of_dom, Hp. destruct (reserved k) eqn:Hk.
  - rewrite (Hn k Hk). split; [by right|]. by intros [[? ?]|[_ ?]].
  - pose proof (di_data _ _ _ _ _ _ Hd k Hk) as He. unfold entry_ok in He. split.
    + intros [ct Hct]. rewrite Hct in He. left. by destruct (data !! k).
    + intros [[v Hv]|[? _]]; [|done]. rewrite Hv in He. by destruct (m !! k).
Qed.

(** ** Changes of the memory *)

(** [w'] differs from [w] in the cache, which still agrees with [T], in the
    counters and in what the environment has been asked. *)
Record kept (T : gmap Z string) (w w' : BWorld) : Prop := {
  k_sealed : bar_sealed (b_bar w') = bar_sealed (b_bar w);
  k_keyring : bar_keyring (b_bar w') = bar_keyring (b_bar w);
  k_cache : bar_cache (b_bar w) ⊆ T → bar_cache (b_bar w') ⊆ T;
  k_nocache : bar_sealed (b_bar w) = true → bar_cache (b_bar w') = bar_cache (b_bar w);
  k_version : currentAESGCMVersionByte (b_bar w') = currentAESGCMVersionByte (b_bar w);
  k_keys : b_keys w' = b_keys w;
  k_roots : b_roots w' = b_roots w;
  k_tick : (b_tick w ≤ b_tick w')%nat;
}.

#[export] Instance kept_preorder T : PreOrder (kept T).
Proof.
  split; [done|]. intros w1 w2 w3 [] []. split; try congruence; [auto| |lia].
  intros Hs. rewrite k_nocache1, k_nocache0; congruence.
Qed.

Lemma quiet_kept T w w' : quiet w w' → kept T w w'.
Proof. intros [Hs Hk Hc Hv ? ? _]. split; try done. rewrite Hc. done. Qed.

Lemma on_disk_kept T m w w' : on_disk m w w' → kept T w w'.
Proof. intros Hq. etrans; [|by apply quiet_kept]. done. Qed.

Lemma mem_inv_kept T w w' : kept T w w' → mem_inv T w → mem_inv T w'.
Proof.
  intros [] [Hv Hs Ho]. split.
  - congruence.
  - intros Hs'. rewrite k_keyring0, k_nocache0; [apply Hs|]; congruence.
  - intros Hs'. destruct Ho as (k & root & Hk & Hok & Hp & Hc); [congruence|].
    exists k, root. rewrite k_keyring0, k_keys0, k_roots0. auto.
Qed.

(** The barrier of a process that has just started. *)
Definition crash (w : BWorld) : BWorld := set_bar NewAESGCMBarrier w.

Lemma mem_inv_crash T w : mem_inv T (crash w).
Proof. split; [by right|done|done]. Qed.
End inv.
