(* ===== verification/BarrierOps.v ===== *)
(** * The barrier's operations under the invariant

    One rule per operation: what it returns and what it leaves, for every
    environment; an error or a panic comes with its reason. *)

From S2P Require Import Prelude GoLib GoSplit Utf8 Storage Core AesGcm Encoding BarrierState KeyringOps Barrier BarrierLogic BarrierCrypt KeyringFacts BarrierInv.
Import Keyring.

Section ops.
Context `{AEAD} `{RadixTree} `{BEnv} `{TermRange} `{JsonText}.

Lemma wpE_unsealed Q w :
  (bar_sealed (b_bar w) = true → Q (Some (Err ErrBarrierSealed)) w) →
  (bar_sealed (b_bar w) = false → Q (Some (Ok ())) w) →
  wpE unsealed Q w.
Proof.
  intros HS HO. apply wpE_bind, wpE_gets. simpl.
  destruct (bar_sealed (b_bar w)); [by apply wpE_throw, HS|by apply wpE_ret, HO].
Qed.

Lemma wpE_get_keyring Q w :
  Q (Some (Ok (bar_keyring (b_bar w)))) w → wpE get_keyring Q w.
Proof. done. Qed.

Lemma wpE_the_keyring k Q w :
  bar_keyring (b_bar w) = Some k → Q (Some (Ok k)) w → wpE the_keyring Q w.
Proof. intros Hk HQ. apply wpE_bind, wpE_get_keyring. by eapply wpE_nonnil. Qed.

Lemma cache_kept T t kb w :
  bar_sealed (b_bar w) = false → T !! t = Some kb →
  kept T w (set_bar (set_cache (<[t := kb]> (bar_cache (b_bar w))) (b_bar w)) w).
Proof.
  intros Hs Ht. split; simpl; try done; [|congruence].
  intros Hc. by apply insert_subseteq_l.
Qed.

Lemma wpE_aeadForTerm T t Q w :
  mem_inv T w → bar_sealed (b_bar w) = false →
  (∀ w', kept T w w' → b_disk w' = b_disk w → Q (Some (Ok (T !! t))) w') →
  wpE (aeadForTerm t) Q w.
Proof.
  intros Hm Hs HQ. destruct (mi_open _ _ Hm Hs) as (k & root & Hk & Hok & Hp & Hc).
  apply wpE_bind, wpE_get_keyring. rewrite Hk. apply wpE_bind, wpE_gets. simpl.
  destruct (bar_cache (b_bar w) !! t) as [kb|] eqn:Hcache.
  { apply wpE_ret. eapply lookup_weaken in Hcache; [|done]. rewrite <-Hcache. by apply HQ. }
  apply wpE_bind. eapply wpE_TermKey; [done..| |].
  - intros kv HT _ (_ & _ & Hci). apply wpE_bind, wpE_aeadFromKey; [|congruence].
    intros _. apply wpE_bind, wpE_bar_modify, wpE_ret. rewrite <-HT. apply HQ; [|done].
    by apply cache_kept.
  - intros HT. apply wpE_ret. rewrite <-HT. by apply HQ.
Qed.

(** ** Reading *)

(** A read of a path whose entry is in order. *)
Lemma wpE_Get_entry T key v Q w :
  mem_inv T w → (∀ t kb, T !! t = Some kb → 0 ≤ t < 2 ^ 32) →
  entry_ok T key v (b_store w !! key) →
  (bar_sealed (b_bar w) = true → Q (Some (Err ErrBarrierSealed)) w) →
  (∀ w', bar_sealed (b_bar w) = false → kept T w w' → b_disk w' = b_disk w → Q (Some (Ok v)) w') →
  (∀ w', bar_sealed (b_bar w) = false → kept T w w' → b_disk w' = b_disk w → ¬ calm w →
     Q (Some (Err ErrPhysical)) w') →
  wpE (Get key) Q w.
Proof.
  intros Hm Hrange He HS HQ HE. apply wpE_bind, wpE_unsealed; [done|]. intros Hs.
  apply wpE_bind, wpE_disk_Get; cycle 1.
  { intros w' Hq Hc. apply HE; [done|by apply quiet_kept|apply Hq|done]. }
  intros w1 Hq1. destruct v as [v|], (b_store w !! key) as [ct|]; simpl in He; try done.
  2:{ apply wpE_ret, HQ; [done|by apply quiet_kept|apply Hq1]. }
  destruct He as (t & kb & Ht & Hct). destruct (ct_term _ _ _ _ _ (Hrange _ _ Ht) Hct) as [Hu Hlen].
  destruct (Z.ltb_spec (slen ct) 4); [lia|]. apply wpE_bind. eapply wpE_nonnil; [done|].
  apply wpE_bind. apply (wpE_aeadForTerm T).
  - eapply mem_inv_kept; [by apply quiet_kept|done].
  - by rewrite (q_sealed _ _ Hq1).
  - intros w2 Hk2 Hd2. rewrite Ht. apply wpE_bind, wpE_wrapf. eapply wpE_decrypt_ct; [done|].
    apply wpE_ret, HQ; [done|..].
    + etrans; [by apply quiet_kept|done].
    + rewrite Hd2. apply Hq1.
Qed.

(** A read of any path, of any bytes: a plaintext it returns is what the entry
    encrypts under a key of the keyring.  Only an entry of 17 to 28 bytes
    makes it panic. *)
Lemma wpE_Get_any T key Q w :
  mem_inv T w →
  (∀ e w', kept T w w' → b_disk w' = b_disk w → Q (Some (Err e)) w') →
  (∀ v w', bar_sealed (b_bar w) = false → kept T w w' → b_disk w' = b_disk w →
     entry_ok T key v (b_store w !! key) → Q (Some (Ok v)) w') →
  (∀ ct w', b_store w !! key = Some ct → (17 ≤ String.length ct < 29)%nat → Q None w') →
  wpE (Get key) Q w.
Proof.
  intros Hm HE HQ HP. apply wpE_bind, wpE_unsealed; [by intros _; apply HE|]. intros Hs.
  apply wpE_bind, wpE_disk_Get; cycle 1.
  { intros w' Hq Hc. apply HE; [by apply quiet_kept|apply Hq]. }
  intros w1 Hq1. destruct (b_store w !! key) as [ct|]; cycle 1.
  { apply wpE_ret, HQ; [done|by apply quiet_kept|apply Hq1|done]. }
  case_match eqn:Hshort; [apply wpE_throw, HE; [by apply quiet_kept|apply Hq1]|].
  apply Z.ltb_ge in Hshort. unfold slen in Hshort.
  destruct (Uint32 ct) as [t|] eqn:Ht; cycle 1.
  { destruct ct as [|? [|? [|? [|? ?]]]]; simpl in *; try lia. done. }
  apply wpE_bind. eapply wpE_nonnil; [done|]. apply wpE_bind, (wpE_aeadForTerm T).
  - eapply mem_inv_kept; [by apply quiet_kept|done].
  - by rewrite (q_sealed _ _ Hq1).
  - intros w2 Hk2 Hd2.
    assert (kept T w w2) as Hk by (etrans; [by apply quiet_kept|done]).
    assert (b_disk w2 = b_disk w) as Hd by (rewrite Hd2; apply Hq1).
    destruct (T !! t) as [kb|] eqn:HT; [|by apply wpE_throw, HE].
    apply wpE_bind, wpE_wrapf, wpE_decrypt; [|by intros; apply HE|by intros; eapply HP].
    intros t' plain _ Ht' Hct. rewrite Ht in Ht'. injection Ht' as <-.
    apply wpE_ret, HQ; [done..|]. by exists t, kb.
Qed.

(** ** Writing *)

Lemma wpE_active_aead T Q w :
  mem_inv T w →
  (bar_sealed (b_bar w) = true → Q (Some (Err ErrBarrierSealed)) w) →
  (∀ t kb w', bar_sealed (b_bar w) = false → kept T w w' → b_disk w' = b_disk w →
     T !! t = Some kb → Q (Some (Ok (t, Some kb))) w') →
  wpE active_aead Q w.
Proof.
  intros Hm HS HQ. apply wpE_bind, wpE_unsealed; [done|]. intros Hs.
  destruct (mi_open _ _ Hm Hs) as (k & root & Hk & Hok & Hp & _).
  apply wpE_bind. eapply wpE_the_keyring; [done|]. apply wpE_bind, (wpE_aeadForTerm T); [done..|].
  intros w' Hk' Hd'. destruct (T !! ActiveTerm k) as [kb|] eqn:HT; [by apply wpE_ret, HQ|].
  assert (is_Some (T !! activeTerm k)) as [? ?] by (apply (keyring_seq _ _ _ _ _ _ Hok); lia).
  unfold ActiveTerm in HT. congruence.
Qed.

Lemma wpE_putInternal t kb key value Q w :
  version_ok (currentAESGCMVersionByte (b_bar w)) →
  (∀ ct w', ct_of t kb key value ct → on_disk (<[key := ct]> (b_store w)) w w' →
     Q (Some (Ok ())) w') →
  (∀ e ct w', quiet w w' ∨ (ct_of t kb key value ct ∧ on_disk (<[key := ct]> (b_store w)) w w') →
     ¬ calm w ∨ oversize value → Q (Some (Err e)) w') →
  (∀ w', quiet w w' → oversize value → Q None w') →
  wpE (putInternal t (Some kb) key value) Q w.
Proof.
  intros Hv HQ HE HP. apply wpE_bind, wpE_encryptTracked; [done|..|done].
  - intros ct w1 Hq1 Hct. assert (b_store w1 = b_store w) as Hb
      by (unfold b_store; by rewrite (q_disk _ _ Hq1)).
    apply wpE_disk_Put; rewrite Hb.
    + intros w2 Hd. apply (HQ ct); [done|]. by eapply on_disk_quiet_l.
    + intros w2 Hd Hc. apply (HE _ ct).
      * destruct Hd as [Hd|Hd]; [left; by etrans|right]. split; [done|]. by eapply on_disk_quiet_l.
      * left. intros Hcalm. by apply Hc, (calm_quiet _ _ Hq1).
  - intros e w' Hq Hr. apply (HE _ ""); [by left|done].
Qed.

(** ** The keyring on disk *)

(** A keyring whose text [gcm.Seal] does not take. *)
Definition too_big (M : gmap Z string) (root : string) : Prop :=
  oversize (root_text root) ∨
  ∃ kvs n c, represents kvs M n ∧ oversize (json_Marshal (enc_keyring (Some root) kvs c)).

Lemma wpE_persist_keyring k M root Q w :
  version_ok (currentAESGCMVersionByte (b_bar w)) →
  keyring_ok (b_keys w) (b_roots w) k M root → 1 ≤ activeTerm k →
  (∀ m w', keyring_written M (activeTerm k) root (b_store w) m → on_disk m w w' →
     Q (Some (Ok ())) w') →
  (∀ e m w', m = b_store w ∨ keyring_written M (activeTerm k) root (b_store w) m →
     on_disk m w w' → ¬ calm w ∨ NewCipher root = false ∨ too_big M root → Q (Some (Err e)) w') →
  (∀ w', quiet w w' → too_big M root → Q None w') →
  wpE (persist_keyring k) Q w.
Proof.
  intros Hv Hk Hp HQ HE HP.
  apply wpE_bind, wpE_wrapf. eapply wpE_Serialize; [done..|]. intros kvs Hrep.
  apply wpE_bind. eapply wpE_RootKey; [done..|]. apply wpE_bind, wpE_wrapf, wpE_aeadFromKey; cycle 1.
  { intros e Hroot. apply (HE _ (b_store w)); [by left|by apply on_disk_self|auto]. }
  intros Hroot. apply wpE_bind, wpE_wrapf, wpE_encrypt; [done|..].
  2:{ intros e w' Hq Hr. apply (HE _ (b_store w)); [by left|by apply on_disk_self|].
      destruct Hr as [?|Hb]; [by left|]. do 2 right. right. eauto. }
  2:{ intros w' Hq Hb. apply HP; [done|]. right. eauto. }
  intros ct w1 Hq1 Hct. simpl in Hct.
  assert (b_store w1 = b_store w) as Hb1 by (unfold b_store; by rewrite (q_disk _ _ Hq1)).
  assert (keyring_written M (activeTerm k) root (b_store w) (<[keyringPath := ct]> (b_store w))) as Hw.
  { exists ct, kvs, (rotationConfig k). split; [done|]. split; [done|].
    split; [apply (ko_config _ _ _ _ _ Hk)|done]. }
  apply wpE_wrapf, wpE_disk_Put; rewrite Hb1.
  - intros w2 Hd. eapply HQ; [exact Hw|]. by eapply on_disk_quiet_l.
  - intros w2 Hd Hc. assert (¬ calm w) as Hc' by (intros ?; by apply Hc, (calm_quiet _ _ Hq1)). destruct Hd as [Hd|Hd].
    + apply (HE _ (b_store w)); [by left| |by left]. apply on_disk_self. by etrans.
    + eapply HE; [right; exact Hw| |by left]. by eapply on_disk_quiet_l.
Qed.

Lemma wpE_persist_root k M root Q w :
  version_ok (currentAESGCMVersionByte (b_bar w)) →
  keyring_ok (b_keys w) (b_roots w) k M root → 1 ≤ activeTerm k →
  (∀ kb ct w', M !! activeTerm k = Some kb →
     ct_of (activeTerm k) kb rootKeyPath (root_text root) ct →
     on_disk (<[rootKeyPath := ct]> (b_store w)) w w' → Q (Some (Ok ())) w') →
  (∀ e kb ct w', quiet w w' ∨ (M !! activeTerm k = Some kb ∧
       ct_of (activeTerm k) kb rootKeyPath (root_text root) ct ∧
       on_disk (<[rootKeyPath := ct]> (b_store w)) w w') →
     ¬ calm w ∨ too_big M root → Q (Some (Err e)) w') →
  (∀ w', quiet w w' → too_big M root → Q None w') →
  wpE (persist_root k) Q w.
Proof.
  intros Hv Hk Hp HQ HE HP. apply wpE_bind. eapply wpE_RootKey; [done..|].
  apply wpE_bind, wpE_wrapf, wpE_ret, wpE_bind.
  eapply wpE_ActiveKey; [done..|]. intros kv HT Ht Hwf.
  apply wpE_bind. eapply wpE_nonnil; [done|]. apply wpE_bind, wpE_wrapf, wpE_aeadFromKey; cycle 1.
  { intros e Hbad. destruct Hwf as (_ & _ & Hgood). congruence. }
  intros _. apply wpE_bind, wpE_wrapf, wpE_encryptTracked; [done|..].
  - intros ct w1 Hq1 Hct. rewrite Ht in Hct.
    assert (b_store w1 = b_store w) as Hb1 by (unfold b_store; by rewrite (q_disk _ _ Hq1)).
    apply wpE_wrapf, wpE_disk_Put; rewrite Hb1.
    + intros w2 Hd. eapply HQ; [exact HT|exact Hct|by eapply on_disk_quiet_l].
    + intros w2 Hd Hc. assert (¬ calm w) as Hc' by (intros ?; by apply Hc, (calm_quiet _ _ Hq1)).
      apply (HE _ (Value kv) ct); [|by left].
      destruct Hd as [Hd|Hd]; [left; by etrans|right]. split; [done|]. split; [done|].
      by eapply on_disk_quiet_l.
  - intros e w1 Hq1 Hr. apply (HE _ "" ""); [by left|]. destruct Hr; [by left|right; by left].
  - intros w1 Hq1 Hb. apply HP; [done|by left].
Qed.

Lemma wpE_persistKeyring k M root Q w :
  version_ok (currentAESGCMVersionByte (b_bar w)) →
  keyring_ok (b_keys w) (b_roots w) k M root → 1 ≤ activeTerm k →
  (∀ m w', persisted M (activeTerm k) root (b_store w) m → on_disk m w w' → Q (Some (Ok ())) w') →
  (∀ e m w', attempted M (activeTerm k) root (b_store w) m → on_disk m w w' →
     ¬ calm w ∨ NewCipher root = false ∨ too_big M root → Q (Some (Err e)) w') →
  (∀ m w', attempted M (activeTerm k) root (b_store w) m → on_disk m w w' → too_big M root →
     Q None w') →
  wpE (persistKeyring k) Q w.
Proof.
  intros Hv Hk Hp HQ HE HP. apply wpE_bind. eapply wpE_persist_keyring; [done..| | |]; cycle 1.
  { intros e m w' Hm. apply HE. destruct Hm; [by left|right; by left]. }
  { intros w' Hq. apply (HP (b_store w)); [by left|by apply on_disk_self]. }
  intros m w1 Hm Hd1. pose proof (on_disk_kept ∅ _ _ _ Hd1) as Hk1.
  pose proof (on_disk_store _ _ _ Hd1) as Hb1.
  eapply wpE_persist_root.
  - by rewrite (k_version _ _ _ Hk1).
  - rewrite (k_keys _ _ _ Hk1), (k_roots _ _ _ Hk1). exact Hk.
  - done.
  - rewrite Hb1. intros kb ct w2 HT Hct Hd2. eapply HQ; [by exists m, kb, ct|].
    by eapply on_disk_trans.
  - rewrite Hb1. intros e kb ct w2 Hd2 Hr. pose proof (calm_on_disk _ _ _ Hd1) as Hcalm.
    assert (¬ calm w ∨ NewCipher root = false ∨ too_big M root) as Hr' by tauto.
    destruct Hd2 as [Hq2|(HT & Hct & Hd2)].
    + eapply HE; [right; left; exact Hm|by eapply on_disk_quiet_r|done].
    + eapply HE; [right; right; by exists m, kb, ct|by eapply on_disk_trans|done].
  - intros w2 Hq2 Hb. eapply HP; [right; left; exact Hm|by eapply on_disk_quiet_r|done].
Qed.

(** ** Reading the keyring *)

(** An entry that was sealed for the term 1: whatever opens is authentic. *)
Lemma wpE_open_stored path root plain key ct Q w :
  ct_of 1 root path plain ct →
  (∀ plain', ct_of 1 key path plain' ct → Q (Some (Ok plain')) w) →
  (∀ e, Q (Some (Err e)) w) →
  wpE (open_stored path key ct) Q w.
Proof.
  intros Hct HQ HE. pose proof (ct_length _ _ _ _ _ Hct).
  apply ct_term in Hct as [Ht _]; [|done].
  apply wpE_bind. eapply wpE_nonnil; [done|]. simpl. apply wpE_bind, wpE_try, wpE_decrypt; [..|lia].
  - intros t plain' _ Ht'. rewrite Ht in Ht'. injection Ht' as <-. intros Hct'. by apply wpE_ret, HQ.
  - intros e. by case_match; apply wpE_throw.
Qed.

(** The key it was sealed under opens it. *)
Lemma wpE_open_stored_own path root plain ct Q w :
  ct_of 1 root path plain ct → Q (Some (Ok plain)) w → wpE (open_stored path root ct) Q w.
Proof.
  intros Hct HQ. pose proof Hct as [Ht _]%ct_term; [|done]. apply wpE_bind. eapply wpE_nonnil; [done|].
  apply wpE_bind, wpE_try. eapply wpE_decrypt_ct; [done|]. by apply wpE_ret.
Qed.

Lemma wpE_recoverKeyring kvs M n root c Q w :
  represents kvs M n → config_json c →
  (∀ k w', b_bar w' = set_keyring (Some k) (set_cache ∅ (b_bar w)) → b_disk w' = b_disk w →
     b_tick w' = b_tick w → keyring_ok (b_keys w') (b_roots w') k M root → 1 ≤ activeTerm k → Q (Some (Ok ())) w') →
  wpE (recoverKeyring (json_Marshal (enc_keyring (Some root) kvs c))) Q w.
Proof.
  intros Hrep Hc HQ. apply wpE_bind, wpE_wrapf. eapply wpE_DeserializeKeyring; [done..|].
  intros k w' -> Hk Hn _ _. apply wpE_bar_modify, (HQ k); [done..|].
  rewrite Hn. apply (rep_pos _ _ _ Hrep).
Qed.
End ops.
