(* ===== verification/BarrierRefine.v ===== *)
(** * The barrier is a store of plain values

    [A] is what a client of the barrier sees: the data, whether it is sealed,
    the key that unseals it, the writes under way, and of the barrier's own
    entries their paths and the root key among them.  [spec] says what an
    operation may return and do to it; [step] runs the operation.  Storage
    may fail at any point, with or without effect; the process may stop
    between operations, and one that panics stops: it starts again with what
    is on disk. *)

From S2P Require Import Prelude GoLib GoSplit Utf8 Storage StorageFacts Core AesGcm Encoding BarrierState KeyringOps Barrier BarrierLogic BarrierCrypt KeyringFacts BarrierInv BarrierOps.
Import Keyring.

(** ** The specification *)

(** [a_root] opens the keyring on disk; [a_mem] is the root key in memory,
    the same unless a change of the root key went wrong or was made in memory
    only.  [a_issued] are the path, the text and the ciphertext of each
    [Encrypt]. *)
Record A := mkA {
  a_data : gmap string string;
  a_sealed : bool;
  a_root : string;
  a_mem : string;
  a_puts : list (string * string);
  a_issued : list (string * string * string);
  a_own : Own;
}.

Definition with_data (d : gmap string string) (a : A) : A :=
  mkA d (a_sealed a) (a_root a) (a_mem a) (a_puts a) (a_issued a) (a_own a).
Definition with_root (r : string) (a : A) : A :=
  mkA (a_data a) (a_sealed a) r (a_mem a) (a_puts a) (a_issued a) (a_own a).
Definition with_mem (r : string) (a : A) : A :=
  mkA (a_data a) (a_sealed a) (a_root a) r (a_puts a) (a_issued a) (a_own a).
Definition with_puts (ps : list (string * string)) (a : A) : A :=
  mkA (a_data a) (a_sealed a) (a_root a) (a_mem a) ps (a_issued a) (a_own a).
Definition with_issued (i : string * string * string) (a : A) : A :=
  mkA (a_data a) (a_sealed a) (a_root a) (a_mem a) (a_puts a) (i :: a_issued a) (a_own a).
Definition with_own (o : Own) (a : A) : A :=
  mkA (a_data a) (a_sealed a) (a_root a) (a_mem a) (a_puts a) (a_issued a) o.
Definition opened (a : A) : A :=
  mkA (a_data a) false (a_root a) (a_root a) (a_puts a) (a_issued a) (a_own a).
Definition closed (a : A) : A :=
  mkA (a_data a) true (a_root a) (a_mem a) (a_puts a) (a_issued a) (a_own a).
Definition restarted (a : A) : A :=
  mkA (a_data a) true (a_root a) (a_mem a) [] (a_issued a) (a_own a).

(** The paths of the barrier's own entries are [ps]. *)
Definition with_paths (ps : gset string) (a : A) : A :=
  with_own (mkOwn ps (o_master (a_own a)) (o_seal (a_own a))) a.

(** The keyring was written under the root key [root], and then the entry of
    the root key, sealed under [kb]. *)
Definition rekeyed (root kb : string) (a : A) : A :=
  with_own (mkOwn (o_paths (a_own a)) root kb) (with_root root a).

Inductive Op :=
| OStop | OGet (k : string) | OPut (k v : string) | ODelete (k : string) | OList (p : string)
| OBegin (k v : string) | OEnd (i : nat)
| OInitialize (key sealKey : string) | OUnseal (key : string) | OSeal
| ORotate | ORekey (key : string) | OSetRoot (key : string)
| OReloadKeyring | OReloadRoot
| OCreateUpgrade (t : Z) | ODestroyUpgrade (t : Z) | OCheckUpgrade
| OSetConfig (c : KeyRotationConfig) | OAutoRotate | OAddRemote (n : Z)
| OConsume (consumer : Z → option error) | OVerify (key : string)
| OEncrypt (k v : string) | ODecrypt (k ct : string).

Inductive Val := VUnit | VEntry (v : option string) | VNames (l : list string) | VTerm (t : Z)
| VUpgrade (b : bool) (t : Z) | VText (s : string).

Definition reply : Type := option (result error Val).

(** An operation that only an unsealed barrier does. *)
Definition guarded (a : A) (r : reply) (a' : A) (S : Prop) : Prop :=
  if a_sealed a then r = Some (Err ErrBarrierSealed) ∧ a' = a else S.

(** A write that may also fail after it took effect. *)
Definition writes (a : A) (r : reply) (a' a1 : A) : Prop :=
  (r = Some (Ok VUnit) ∧ a' = a1) ∨ (∃ e, r = Some (Err e) ∧ (a' = a ∨ a' = a1)).

(** The keyring and the entry of the root key may have been written under the
    root key [mem], both or the first only. *)
Definition tried (mem : string) (a a' : A) : Prop :=
  a' = a ∨ a' = with_root mem a ∨ ∃ kb, a' = rekeyed mem kb a.

(** An operation that writes the keyring under the root key [mem], and then
    leaves [a1]. *)
Definition persists (mem : string) (a : A) (r : reply) (a' a1 : A) (v : Val → Prop) : Prop :=
  (∃ x kb, r = Some (Ok x) ∧ v x ∧ a' = rekeyed mem kb a1) ∨
  (∃ e, r = Some (Err e) ∧ tried mem a a') ∨
  (r = None ∧ ∃ a0, tried mem a a0 ∧ a' = restarted a0).

Definition spec (o : Op) (a : A) (r : reply) (a' : A) : Prop :=
  match o with
  | OStop => r = Some (Ok VUnit) ∧ a' = restarted a
  | OGet k => guarded a r a' (a' = a ∧
      (r = Some (Ok (VEntry (a_data a !! k))) ∨ r = Some (Err ErrPhysical)))
  | OPut k v => guarded a r a' (writes a r a' (with_data (<[k := v]> (a_data a)) a) ∨
      (r = None ∧ oversize v ∧ a' = restarted a))
  | ODelete k => guarded a r a' (writes a r a' (with_data (delete k (a_data a)) a))
  | OList p => guarded a r a' (a' = a ∧ (r = Some (Err ErrPhysical) ∨
      ∃ l, r = Some (Ok (VNames l)) ∧ NoDup l ∧
        ∀ c, c ∈ l ↔ ∃ rest, p +:+ rest ∈ dom (a_data a) ∪ o_paths (a_own a) ∧ c = child rest))
  | OBegin k v => guarded a r a'
      (r = Some (Ok VUnit) ∧ a' = with_puts (a_puts a ++ [(k, v)]) a)
  | OEnd i =>
      match a_puts a !! i with
      | None => r = Some (Ok VUnit) ∧ a' = a
      | Some (k, v) =>
          let a0 := with_puts (delete i (a_puts a)) a in
          writes a0 r a' (with_data (<[k := v]> (a_data a)) a0) ∨
          (r = None ∧ oversize v ∧ a' = restarted a)
      end
  | OInitialize key _ => a' = a ∧ ∃ e, r = Some (Err e)
  | OUnseal key =>
      if a_sealed a then
        (r = Some (Ok VUnit) ∧ key = a_root a ∧ a' = opened a) ∨ (∃ e, r = Some (Err e) ∧ a' = a)
      else r = Some (Ok VUnit) ∧ a' = a
  | OSeal => r = Some (Ok VUnit) ∧ a' = closed a
  | ORotate => guarded a r a' (persists (a_mem a) a r a' a (λ x, ∃ t, x = VTerm t))
  | ORekey key => guarded a r a' (persists key a r a' (with_mem key a) (eq VUnit))
  | OSetRoot key => guarded a r a'
      ((r = Some (Ok VUnit) ∧ a' = with_mem key a) ∨ (∃ e, r = Some (Err e) ∧ a' = a))
  | OReloadKeyring =>
      if a_sealed a then r = None ∧ a' = restarted a
      else (r = Some (Ok VUnit) ∧ a_mem a = a_root a ∧ a' = opened a) ∨
           (∃ e, r = Some (Err e) ∧ a' = a)
  | OReloadRoot =>
      (a_sealed a = false ∧ r = Some (Ok VUnit) ∧ a' = with_mem (o_master (a_own a)) a) ∨
      (∃ e, r = Some (Err e) ∧ a' = a)
  | OCreateUpgrade t => guarded a r a'
      (writes a r a' (with_paths ({[upgradePath (t - 1)]} ∪ o_paths (a_own a)) a) ∨
       r = None ∧ a' = restarted a)
  | ODestroyUpgrade t => guarded a r a'
      (writes a r a' (with_paths (o_paths (a_own a) ∖ {[upgradePath (uint32 (t - 1))]}) a))
  | OCheckUpgrade => guarded a r a'
      ((r = Some (Ok (VUpgrade false 0)) ∨ r = Some (Err ErrPhysical)) ∧ a' = a)
  | OSetConfig c =>
      if a_sealed a then r = None ∧ a' = restarted a
      else persists (a_mem a) a r a' a (eq VUnit) ∨ (r = Some (Ok VUnit) ∧ a' = a)
  | OAutoRotate =>
      persists (a_mem a) a r a' a (λ x, ∃ s, x = VText s) ∨
      (∃ s, r = Some (Ok (VText s)) ∧ a' = a)
  | OAddRemote n => r = Some (Ok VUnit) ∧ a' = a
  | OConsume f => (r = Some (Ok VUnit) ∨ ∃ e, r = Some (Err e)) ∧ a' = a
  | OVerify key => guarded a r a' (a' = a ∧
      r = Some (if decide (key = a_mem a) then Ok VUnit else Err ErrBarrierInvalidKey))
  | OEncrypt k v => guarded a r a'
      ((∃ ct, r = Some (Ok (VText ct)) ∧ a' = with_issued (k, v, ct) a) ∨
       (∃ e, r = Some (Err e) ∧ a' = a) ∨ (r = None ∧ oversize v ∧ a' = restarted a))
  | ODecrypt k ct => guarded a r a'
      ((∀ v, (k, v, ct) ∈ a_issued a → r = Some (Ok (VText v))) ∧
       (is_Some r ∧ a' = a ∨
        r = None ∧ (17 ≤ String.length ct < 29)%nat ∧ a' = restarted a))
  end.

(** ** The system *)

(** A write that has left the lock, with the term and cipher it took. *)
Definition pending : Type := (Z * option string) * (string * string).

Record Sys := mkSys { s_world : BWorld; s_puts : list pending }.

Section refine.
Context `{AEAD} `{RadixTree} `{BEnv} `{TermRange} `{JsonText}.

Definition unit_op (m : E ()) : E Val := _ ← m; mret VUnit.

Definition run_op (o : Op) : E Val :=
  match o with
  | OGet k => v ← Get k; mret (VEntry v)
  | OPut k v => unit_op (Put k v)
  | ODelete k => unit_op (Delete k)
  | OList p => l ← List p; mret (VNames l)
  | OStop | OBegin _ _ | OEnd _ => mret VUnit
  | OInitialize key sealKey => unit_op (Initialize key sealKey)
  | OUnseal key => unit_op (Unseal key)
  | OSeal => unit_op Seal
  | ORotate => t ← Rotate; mret (VTerm t)
  | ORekey key => unit_op (Rekey key)
  | OSetRoot key => unit_op (barrier_SetRootKey key)
  | OReloadKeyring => unit_op ReloadKeyring
  | OReloadRoot => unit_op ReloadRootKey
  | OCreateUpgrade t => unit_op (CreateUpgrade t)
  | ODestroyUpgrade t => unit_op (DestroyUpgrade t)
  | OCheckUpgrade => r ← CheckUpgrade; mret (VUpgrade r.1 r.2)
  | OSetConfig c => unit_op (SetRotationConfig c)
  | OAutoRotate => s ← CheckBarrierAutoRotate; mret (VText s)
  | OAddRemote n => unit_op (AddRemoteEncryptions n)
  | OConsume f => unit_op (ConsumeEncryptionCount f)
  | OVerify key => unit_op (VerifyRoot key)
  | OEncrypt k v => ct ← Encrypt k v; mret (VText ct)
  | ODecrypt k ct => v ← Decrypt k ct; mret (VText v)
  end.

(** The system after a run that ended in [w] with the writes [ps] under way. *)
Definition after {B} (r : option (result error B)) (w : BWorld) (ps : list pending) : Sys :=
  match r with Some _ => mkSys w ps | None => mkSys (crash w) [] end.

#[global] Arguments after : simpl never.

Definition step (o : Op) (s : Sys) : reply * Sys :=
  match o with
  | OStop => (Some (Ok VUnit), mkSys (crash (s_world s)) [])
  | OBegin k v =>
      let '(r, w) := active_aead (s_world s) in
      match r with
      | Some (Ok p) => (Some (Ok VUnit), mkSys w (s_puts s ++ [(p, (k, v))]))
      | Some (Err e) => (Some (Err e), mkSys w (s_puts s))
      | None => (None, mkSys (crash w) [])
      end
  | OEnd i =>
      match s_puts s !! i with
      | None => (Some (Ok VUnit), s)
      | Some ((term, primary), (k, v)) =>
          let '(r, w) := unit_op (putInternal term primary k v) (s_world s) in
          (r, after r w (delete i (s_puts s)))
      end
  | o => let '(r, w) := run_op o (s_world s) in (r, after r w (s_puts s))
  end.

(** ** The relation *)

Definition put_ok (T : gmap Z string) (p : pending) (q : string * string) : Prop :=
  p.2 = q ∧ reserved q.1 = false ∧ ∃ kb, p.1.2 = Some kb ∧ T !! p.1.1 = Some kb.

Definition issued_ok (T : gmap Z string) (i : string * string * string) : Prop :=
  ∃ t kb, T !! t = Some kb ∧ ct_of t kb i.1.1 i.1.2 i.2.

(** The system with the keys [T] in use and the keyring [S] on disk. *)
Record Rel (T S : gmap Z string) (n : Z) (a : A) (w : BWorld) (ps : list pending) : Prop := {
  rel_disk : disk_inv T S n (a_root a) (a_data a) (b_store w);
  rel_mem : mem_inv T w;
  rel_sealed : bar_sealed (b_bar w) = a_sealed a;
  rel_root : a_sealed a = false → ∃ k l, bar_keyring (b_bar w) = Some k ∧ rootKey k = Some l ∧
    b_roots w !! l = Some (a_mem a);
  rel_puts : Forall2 (put_ok T) ps (a_puts a);
  rel_issued : Forall (issued_ok T) (a_issued a);
  rel_own : own_inv (a_own a) (a_data a) (b_store w);
}.

Definition R (a : A) (s : Sys) : Prop := ∃ T S n, Rel T S n a (s_world s) (s_puts s).

(** The key of the term [t] in the keyring that [w] holds. *)
Definition in_keyring (w : BWorld) (t : Z) (kv : Key) : Prop :=
  ∃ k l, bar_keyring (b_bar w) = Some k ∧ keys k !! t = Some l ∧ b_keys w !! l = Some kv.

(** [key] is the one the entry at [path] was sealed under, or does not open
    it. *)
Definition authentic (sealKey : string) (m : gmap string string) (path key : string) : Prop :=
  key = sealKey ∨ ∀ ct t plain, m !! path = Some ct → ¬ ct_of t key path plain ct.

(** What is asked of an operation: clients keep away from the barrier's own
    entries, but for lists; a key that an entry was not sealed under does not
    open it; the upgrade is one to a term of the keyring; the configuration is
    one that JSON can hold. *)
Definition admissible (o : Op) (a : A) (w : BWorld) : Prop :=
  match o with
  | OGet k | OPut k _ | ODelete k | OBegin k _ => reserved k = false
  | OUnseal key => authentic (a_root a) (b_store w) keyringPath key
  | OReloadKeyring => authentic (a_root a) (b_store w) keyringPath (a_mem a)
  | OReloadRoot => ∀ t kv, in_keyring w t kv →
      authentic (o_seal (a_own a)) (b_store w) rootKeyPath (Value kv)
  | OCreateUpgrade t => ∀ k, bar_keyring (b_bar w) = Some k → 2 ≤ t ≤ activeTerm k
  | OSetConfig c => config_json c
  | _ => True
  end.
End refine.
