(* ===== verification/BarrierSim.v ===== *)
(** * Every operation keeps the relation: data, sealing, counting

    How the relation between the system and what its clients see moves with
    the disk and the memory, and the operations that leave the keyring on
    disk as it is. *)

From S2P Require Import Prelude GoLib GoSplit Utf8 Storage StorageFacts Core AesGcm Encoding BarrierState KeyringOps Barrier BarrierLogic BarrierCrypt KeyringFacts BarrierInv BarrierOps BarrierRefine.
Import Keyring.

Section sim.
Context `{AEAD} `{RadixTree} `{BEnv} `{TermRange} `{JsonText}.
Implicit Types (a : A) (w : BWorld) (ps : list pending).

(** ** Moves of the relation *)

(** The operation [m] ends as [SP] says, in a related state, with the writes
    [ps] under way. *)
Definition sim (SP : reply → A → Prop) ps (m : E Val) (w : BWorld) : Prop :=
  wpE m (λ r w', ∃ a', SP r a' ∧ R a' (after r w' ps)) w.

Lemma sim_mono (SP SP' : reply → A → Prop) ps m w :
  (∀ r a', SP r a' → SP' r a') → sim SP ps m w → sim SP' ps m w.
Proof. intros HS. apply wpE_mono. intros r w' (a' & ? & ?). eauto. Qed.

Lemma R_intro T S n a w ps (r : reply) : is_Some r → Rel T S n a w ps → R a (after r w ps).
Proof. intros [? ->] HR. by exists T, S, n. Qed.

Lemma Rel_kept T S n a w w' ps :
  kept T w w' → b_disk w' = b_disk w → Rel T S n a w ps → Rel T S n a w' ps.
Proof.
  intros Hk Hd [Hdisk Hm Hs Hr Hp Hi Ho]. assert (b_store w' = b_store w) as Hb by (unfold b_store; by rewrite Hd).
  split; [by rewrite Hb|by eapply mem_inv_kept|..|done|done|by rewrite Hb].
  - by rewrite (k_sealed _ _ _ Hk).
  - intros Hopen. destruct (Hr Hopen) as (k & l & ? & ? & ?). exists k, l.
    by rewrite (k_keyring _ _ _ Hk), (k_roots _ _ _ Hk).
Qed.

Lemma Rel_quiet T S n a w w' ps : quiet w w' → Rel T S n a w ps → Rel T S n a w' ps.
Proof. intros Hq. apply Rel_kept; [by apply quiet_kept|apply Hq]. Qed.

Lemma Rel_on_disk T S n S' n' root data own a w w' m ps :
  on_disk m w w' → disk_inv T S' n' root data m → own_inv own data m → Rel T S n a w ps →
  Rel T S' n' (mkA data (a_sealed a) root (a_mem a) (a_puts a) (a_issued a) own) w' ps.
Proof.
  intros Hd Hm Hown [_ Hmem Hs Hr Hp Hi _]. pose proof (on_disk_kept T _ _ _ Hd) as Hk.
  split; [|by eapply mem_inv_kept|..|done|done|]; simpl.
  - by rewrite (on_disk_store _ _ _ Hd).
  - by rewrite (k_sealed _ _ _ Hk).
  - intros Ho. destruct (Hr Ho) as (k & l & ? & ? & ?). exists k, l.
    by rewrite (k_keyring _ _ _ Hk), (k_roots _ _ _ Hk).
  - by rewrite (on_disk_store _ _ _ Hd).
Qed.

(** Data, or another own entry than that of the root key, is written or
    deleted. *)
Lemma Rel_put T S n a w w' ps k v t kb ct :
  Rel T S n a w ps → reserved k = false → T !! t = Some kb → ct_of t kb k v ct →
  on_disk (<[k := ct]> (b_store w)) w w' → Rel T S n (with_data (<[k := v]> (a_data a)) a) w' ps.
Proof.
  intros HR Hk Ht Hct Hd. eapply Rel_on_disk; [exact Hd| | |exact HR].
  - eapply disk_inv_put; [apply HR|done..].
  - apply (own_inv_data _ _ _ k (Some v) (Some ct)); [apply HR|done].
Qed.

Lemma Rel_delete T S n a w w' ps k :
  Rel T S n a w ps → reserved k = false → on_disk (delete k (b_store w)) w w' →
  Rel T S n (with_data (delete k (a_data a)) a) w' ps.
Proof.
  intros HR Hk Hd. eapply Rel_on_disk; [exact Hd| | |exact HR].
  - apply disk_inv_delete; [apply HR|done].
  - apply (own_inv_data _ _ _ k None None); [apply HR|done].
Qed.

Lemma Rel_restart T S n a w ps : Rel T S n a w ps → Rel T S n (restarted a) (crash w) [].
Proof.
  intros [Hd _ _ _ _ Hi Ho]. by split; [|apply mem_inv_crash|..].
Qed.

Lemma R_restart T S n a w ps ps' :
  Rel T S n a w ps → R (restarted a) (after (None : reply) w ps').
Proof. intros HR. exists T, S, n. by eapply Rel_restart. Qed.

(** The keyring of an unsealed barrier. *)
Lemma Rel_open T S n a w ps :
  Rel T S n a w ps → a_sealed a = false →
  ∃ k, bar_keyring (b_bar w) = Some k ∧ keyring_ok (b_keys w) (b_roots w) k T (a_mem a) ∧
    1 ≤ activeTerm k ∧ bar_cache (b_bar w) ⊆ T.
Proof.
  intros [_ Hm Hs Hr _ _ _] Ho. rewrite Ho in Hs. destruct (mi_open _ _ Hm Hs) as (k & root & Hk & Hok & Hp & Hc).
  destruct (Hr Ho) as (k' & l & Hk' & Hl & Hroot). exists k. split; [done|].
  assert (root = a_mem a) as <-; [|done]. destruct (ko_root _ _ _ _ _ Hok) as (l' & Hl' & Hroot').
  congruence.
Qed.

Lemma Rel_range T S n a w ps t kb : Rel T S n a w ps → T !! t = Some kb → 0 ≤ t < 2 ^ 32.
Proof. intros HR Ht. destruct (disk_inv_range _ _ _ _ _ _ _ _ (rel_disk _ _ _ _ _ _ HR) Ht). lia. Qed.

Lemma Rel_version T S n a w ps :
  Rel T S n a w ps → version_ok (currentAESGCMVersionByte (b_bar w)).
Proof. intros HR. apply HR. Qed.

Lemma put_ok_mono T T' p q : T ⊆ T' → put_ok T p q → put_ok T' p q.
Proof.
  intros HT (? & ? & kb & ? & ?). split; [done|]. split; [done|]. exists kb.
  split; [done|by eapply lookup_weaken].
Qed.

Lemma issued_ok_mono T T' i : T ⊆ T' → issued_ok T i → issued_ok T' i.
Proof. intros HT (t & kb & ? & ?). exists t, kb. split; [by eapply lookup_weaken|done]. Qed.

(** A new keyring in memory, with the keys in use and maybe more. *)
Lemma Rel_keyring T T' S n a w w' ps k mem :
  Rel T S n a w ps → T ⊆ T' → T' ⊆ S → b_disk w' = b_disk w →
  currentAESGCMVersionByte (b_bar w') = currentAESGCMVersionByte (b_bar w) →
  bar_sealed (b_bar w') = false → bar_keyring (b_bar w') = Some k →
  keyring_ok (b_keys w') (b_roots w') k T' mem → 1 ≤ activeTerm k → bar_cache (b_bar w') ⊆ T' →
  Rel T' S n (mkA (a_data a) false (a_root a) mem (a_puts a) (a_issued a) (a_own a)) w' ps.
Proof.
  intros [Hd Hm _ _ Hp Hi Hown] HT HS Hdisk Hv Hs Hk Hok Ha Hc. split; simpl.
  - unfold b_store. rewrite Hdisk. by apply (disk_inv_mono T).
  - split; [rewrite Hv; apply Hm|congruence|eauto 10].
  - done.
  - intros _. destruct (ko_root _ _ _ _ _ Hok) as (l & ? & ?). eauto.
  - eapply Forall2_impl; [done|]. intros p q. by apply put_ok_mono.
  - eapply Forall_impl; [done|]. intros i. by apply issued_ok_mono.
  - unfold b_store. by rewrite Hdisk.
Qed.

(** ** Answers *)

Lemma guarded_err a S : a_sealed a = true → guarded a (Some (Err ErrBarrierSealed)) a S.
Proof. intros Ha. unfold guarded. by rewrite Ha. Qed.

Lemma guarded_ok a r a' (S : Prop) : a_sealed a = false → S → guarded a r a' S.
Proof. intros Ha HS. unfold guarded. by rewrite Ha. Qed.

End sim.

(** The answer of a sealed barrier. *)
Ltac refuse :=
  intros ?; eexists; split; [apply guarded_err; congruence|eapply R_intro; [done|eassumption]].

(** An answer of an unsealed one, with the state after it. *)
Ltac answers s := exists s; split; [apply guarded_ok; [congruence|]|eapply R_intro; [done|]].

Section data.
Context `{AEAD} `{RadixTree} `{BEnv} `{TermRange} `{JsonText}.
Implicit Types (a : A) (w : BWorld) (ps : list pending).

(** ** Data *)

Lemma sim_Get T S n a ps w k :
  Rel T S n a w ps → reserved k = false → sim (spec (OGet k) a) ps (run_op (OGet k)) w.
Proof.
  intros HR Hk. pose proof (rel_sealed _ _ _ _ _ _ HR) as Hs. apply wpE_bind.
  apply (wpE_Get_entry T k (a_data a !! k)).
  - apply HR.
  - intros t kb. by apply (Rel_range _ _ _ _ _ _ _ _ HR).
  - by apply (di_data _ _ _ _ _ _ (rel_disk _ _ _ _ _ _ HR)).
  - refuse.
  - intros w' Ho Hk' Hd'. apply wpE_ret. answers a; [auto|by eapply Rel_kept].
  - intros w' Ho Hk' Hd' _. answers a; [auto|by eapply Rel_kept].
Qed.

(** The second half of a write, with a key in use. *)
Lemma sim_putInternal T S n a ps w t kb k v :
  Rel T S n a w ps → T !! t = Some kb → reserved k = false →
  sim (λ r a', writes a r a' (with_data (<[k := v]> (a_data a)) a) ∨
         (r = None ∧ oversize v ∧ a' = restarted a))
    ps (unit_op (putInternal t (Some kb) k v)) w.
Proof.
  intros HR Ht Hk. apply wpE_bind, wpE_putInternal; [by eapply Rel_version|..].
  - intros ct w' Hct Hd. apply wpE_ret. exists (with_data (<[k := v]> (a_data a)) a).
    split; [left; by left|]. eapply R_intro; [done|]. by eapply Rel_put.
  - intros e ct w' [Hq|[Hct Hd]] _.
    + exists a. split; [left; right; eauto|]. eapply R_intro; [done|]. by eapply Rel_quiet.
    + exists (with_data (<[k := v]> (a_data a)) a).
      split; [left; right; eauto|]. eapply R_intro; [done|]. by eapply Rel_put.
  - intros w' Hq Hbig. exists (restarted a). split; [by right|].
    eapply R_restart, Rel_quiet; done.
Qed.

Lemma sim_Put T S n a ps w k v :
  Rel T S n a w ps → reserved k = false → sim (spec (OPut k v) a) ps (run_op (OPut k v)) w.
Proof.
  intros HR Hk. pose proof (rel_sealed _ _ _ _ _ _ HR) as Hs.
  apply wpE_bind, wpE_bind. apply (wpE_active_aead T); [apply HR|..].
  - refuse.
  - intros t kb w1 Ho Hk1 Hd1 HT. apply (wpE_bind_inv (putInternal t (Some kb) k v) (λ _, mret VUnit)).
    eapply sim_mono; [|eapply sim_putInternal; [by eapply Rel_kept|done..]].
    intros r a'. apply guarded_ok. congruence.
Qed.

Lemma sim_Delete T S n a ps w k :
  Rel T S n a w ps → reserved k = false → sim (spec (ODelete k) a) ps (run_op (ODelete k)) w.
Proof.
  intros HR Hk. pose proof (rel_sealed _ _ _ _ _ _ HR) as Hs.
  apply wpE_bind, wpE_bind, wpE_unsealed; [refuse|]. intros Ho. apply wpE_disk_Delete.
  - intros w' Hd. apply wpE_ret. answers (with_data (delete k (a_data a)) a); [by left|]. by eapply Rel_delete.
  - intros w' [Hq|Hd] _.
    + answers a; [right; eauto|by eapply Rel_quiet].
    + answers (with_data (delete k (a_data a)) a); [right; eauto|]. by eapply Rel_delete.
Qed.

Lemma sim_List T S n a ps w p :
  Rel T S n a w ps → sim (spec (OList p) a) ps (run_op (OList p)) w.
Proof.
  intros HR. pose proof (rel_sealed _ _ _ _ _ _ HR) as Hs.
  apply wpE_bind, wpE_bind, wpE_unsealed; [refuse|]. intros Ho. apply wpE_disk_List.
  - intros l w' Hq Hl. apply wpE_ret. answers a; [|by eapply Rel_quiet]. split; [done|]. right.
    exists l. split; [done|]. destruct (list_spec _ _ _ Hl) as [Hnd Hel]. split; [done|].
    intros c. rewrite Hel. apply exist_proper. intros rest.
    by rewrite <-(own_inv_dom _ _ _ _ _ _ _ _ (rel_disk _ _ _ _ _ _ HR) (rel_own _ _ _ _ _ _ HR)).
  - intros w' Hq _. answers a; [auto|by eapply Rel_quiet].
Qed.

(** ** Writes in two halves *)

Lemma sim_Begin T S n a ps w k v :
  Rel T S n a w ps → reserved k = false →
  ∃ a', spec (OBegin k v) a (step (OBegin k v) (mkSys w ps)).1 a' ∧
        R a' (step (OBegin k v) (mkSys w ps)).2.
Proof.
  intros HR Hk. pose proof (rel_sealed _ _ _ _ _ _ HR) as Hs.
  assert (wpE active_aead (λ r w',
    (a_sealed a = true ∧ r = Some (Err ErrBarrierSealed) ∧ w' = w) ∨
    (a_sealed a = false ∧ ∃ t kb, r = Some (Ok (t, Some kb)) ∧ T !! t = Some kb ∧
       Rel T S n a w' ps)) w) as Hw.
  { apply (wpE_active_aead T); [apply HR|..].
    - intros Ho. left. split; [congruence|done].
    - intros t kb w' Ho Hk' Hd' HT. right. split; [congruence|]. exists t, kb.
      split; [done|]. split; [done|]. by eapply Rel_kept. }
  unfold wpE in Hw. simpl. destruct (active_aead w) as [r w']. simpl in Hw.
  destruct Hw as [(Ho & -> & ->)|(Ho & t & kb & -> & HT & HR')].
  - exists a. split; [by apply guarded_err|]. by exists T, S, n.
  - exists (with_puts (a_puts a ++ [(k, v)]) a). split; [by apply guarded_ok|]. exists T, S, n.
    destruct HR'. split; try done. simpl. apply Forall2_app; [done|]. constructor; [|done].
    split; [done|]. split; [done|]. eauto.
Qed.

Lemma sim_End T S n a ps w i :
  Rel T S n a w ps →
  ∃ a', spec (OEnd i) a (step (OEnd i) (mkSys w ps)).1 a' ∧ R a' (step (OEnd i) (mkSys w ps)).2.
Proof.
  intros HR. pose proof (rel_puts _ _ _ _ _ _ HR) as Hp. cbn [step s_puts s_world].
  destruct (ps !! i) as [[[t c] [k v]]|] eqn:Hi.
  - destruct (Forall2_lookup_l _ _ _ _ _ Hp Hi) as ([k' v'] & Hi' & Heq & Hk & kb & Hc & HT).
    simpl in *. injection Heq as -> ->. subst c.
    set (a0 := with_puts (delete i (a_puts a)) a).
    assert (Rel T S n a0 w (delete i ps)) as HR0.
    { destruct HR. split; try done. by apply Forall2_delete. }
    pose proof (sim_putInternal _ _ _ _ _ _ _ _ _ v' HR0 HT Hk) as Hsim.
    unfold sim, wpE in Hsim. rewrite Hi'. fold a0.
    destruct (unit_op _ w) as [r w']. destruct Hsim as (a' & HS & HR'). by exists a'.
  - exists a. split; [|by exists T, S, n]. unfold spec. apply Forall2_length in Hp.
    by rewrite (lookup_ge_None_2 (a_puts a)) by (rewrite <-Hp; by apply lookup_ge_None).
Qed.

(** ** Ciphertexts given out *)

Lemma sim_Encrypt T S n a ps w k v :
  Rel T S n a w ps → sim (spec (OEncrypt k v) a) ps (run_op (OEncrypt k v)) w.
Proof.
  intros HR. pose proof (rel_sealed _ _ _ _ _ _ HR) as Hs.
  apply wpE_bind, wpE_bind. apply (wpE_active_aead T); [apply HR|refuse|].
  intros t kb w1 Ho Hk1 Hd1 HT. apply (Rel_kept _ _ _ _ _ w1) in HR; [|done..].
  apply wpE_encryptTracked; [by eapply Rel_version|..].
  - intros ct w' Hq Hct. apply wpE_ret. answers (with_issued (k, v, ct) a); [left; eauto|].
    eapply Rel_quiet in HR; [|done]. destruct HR. split; try done. constructor; [by exists t, kb|done].
  - intros e w' Hq _. answers a; [right; left; eauto|by eapply Rel_quiet].
  - intros w' Hq Hbig. exists (restarted a). split; [apply guarded_ok; [congruence|auto]|].
    by eapply R_restart, Rel_quiet.
Qed.

Lemma sim_Decrypt T S n a ps w k ct :
  Rel T S n a w ps → sim (spec (ODecrypt k ct) a) ps (run_op (ODecrypt k ct)) w.
Proof.
  intros HR. pose proof (rel_sealed _ _ _ _ _ _ HR) as Hs.
  assert (∀ v, (k, v, ct) ∈ a_issued a → ∃ t kb, T !! t = Some kb ∧ ct_of t kb k v ct) as Hiss.
  { intros v Hv. exact (proj1 (Forall_forall _ _) (rel_issued _ _ _ _ _ _ HR) _ Hv). }
  assert (∀ v, (k, v, ct) ∈ a_issued a → 33 ≤ slen ct) as Hlen.
  { intros v (t & kb & _ & Hct%ct_length)%Hiss. unfold slen. lia. }
  apply wpE_bind, wpE_bind, wpE_unsealed; [refuse|]. intros Ho.
  case_match eqn:Hzero.
  { apply Z.eqb_eq in Hzero. apply wpE_throw. answers a; [|done]. split; [|eauto].
    intros v Hv%Hlen. lia. }
  case_match eqn:Hfour.
  { apply Z.ltb_lt in Hfour. apply wpE_throw. answers a; [|done]. split; [|eauto].
    intros v Hv%Hlen. lia. }
  apply Z.ltb_ge in Hfour. destruct (Uint32 ct) as [t|] eqn:Ht.
  2:{ destruct ct as [|? [|? [|? [|? ?]]]]; unfold slen in Hfour; simpl in *; try lia; done. }
  assert (∀ v, (k, v, ct) ∈ a_issued a → ∃ kb, T !! t = Some kb ∧ ct_of t kb k v ct) as Hiss'.
  { intros v (t' & kb & HT & Hct)%Hiss. destruct (ct_term _ _ _ _ _ (Rel_range _ _ _ _ _ _ _ _ HR HT) Hct) as [Ht' _].
    rewrite Ht in Ht'. injection Ht' as <-. eauto. }
  apply wpE_bind. eapply wpE_nonnil; [done|]. apply wpE_bind, (wpE_aeadForTerm T); [apply HR|done|].
  intros w' Hk' Hd'. apply (Rel_kept _ _ _ _ _ w') in HR; [|done..]. destruct (T !! t) as [kb|] eqn:HT.
  2:{ apply wpE_throw. answers a; [|done]. split; [|eauto]. intros v (kb & Hkb & _)%Hiss'. done. }
  assert (∀ v, (k, v, ct) ∈ a_issued a → (decrypt k kb ct w').1 = Some (Ok v)) as Hopen.
  { intros v (kb' & [= <-] & Hct)%Hiss'.
    by apply (wpE_decrypt_ct t k kb v ct (λ r _, r = Some (Ok v)) w'). }
  apply wpE_wrapf, wpE_eq, wpE_decrypt.
  - intros t' plain _ _ _ Heq. apply wpE_ret. answers a; [|done]. split; [|eauto].
    intros v Hv%Hopen. rewrite Heq in Hv. simpl in Hv. congruence.
  - intros e Heq. answers a; [|done]. split; [|eauto]. intros v Hv%Hopen. by rewrite Heq in Hv.
  - intros Hlen' Heq. exists (restarted a). split; [apply guarded_ok; [congruence|]|by eapply R_restart].
    split; [|auto]. intros v Hv%Hopen. by rewrite Heq in Hv.
Qed.

(** ** Sealing and unsealing *)

Lemma sim_Seal T S n a ps w :
  Rel T S n a w ps → sim (spec OSeal a) ps (run_op OSeal) w.
Proof.
  intros HR. assert (∀ w', bar_cache (b_bar w') = ∅ →
    currentAESGCMVersionByte (b_bar w') = currentAESGCMVersionByte (b_bar w) →
    b_disk w' = b_disk w →
    Rel T S n (closed a) (set_bar (set_sealed true (set_keyring None (b_bar w'))) w') ps) as Hend.
  { intros w' Hc Hv Hd. destruct HR as [Hdisk Hm _ _ ? ? Hown]. split; simpl; try done.
    - unfold b_store. simpl. by rewrite Hd.
    - split; simpl; [rewrite Hv; apply Hm|done|done].
    - unfold b_store. simpl. by rewrite Hd. }
  apply wpE_bind, wpE_bind, wpE_bar_modify, wpE_bind, wpE_get_keyring, wpE_bind.
  cbn [b_bar set_bar bar_keyring set_cache]. destruct (a_sealed a) eqn:Ho.
  - pose proof (rel_sealed _ _ _ _ _ _ HR) as Hs. rewrite Ho in Hs.
    destruct (mi_sealed _ _ (rel_mem _ _ _ _ _ _ HR) Hs) as [-> _].
    apply wpE_ret, wpE_bar_modify, wpE_ret. exists (closed a). split; [done|].
    eapply R_intro; [done|]. by apply Hend.
  - destruct (Rel_open _ _ _ _ _ _ HR Ho) as (k & -> & Hk & _).
    eapply wpE_Zeroize_all; [exact Hk|]. intros w' Hb Hd _ _.
    apply wpE_bar_modify, wpE_ret. exists (closed a). split; [done|].
    eapply R_intro; [done|]. apply Hend; [by rewrite Hb..|done].
Qed.

(** The keyring on disk: what opens it, and what it is read back as. *)
Lemma stored_opens T S n a w ps key :
  Rel T S n a w ps → authentic (a_root a) (b_store w) keyringPath key →
  ∃ ct plain, b_store w !! keyringPath = Some ct ∧
    (∀ Q w1, (key = a_root a → Q (Some (Ok plain)) w1) → (∀ e, Q (Some (Err e)) w1) →
       wpE (open_stored keyringPath key ct) Q w1) ∧
    (∀ Q w1, (∀ k w', b_bar w' = set_keyring (Some k) (set_cache ∅ (b_bar w1)) →
         b_disk w' = b_disk w1 → keyring_ok (b_keys w') (b_roots w') k S (a_root a) →
         1 ≤ activeTerm k → Q (Some (Ok ())) w') →
       wpE (recoverKeyring plain) Q w1).
Proof.
  intros HR Hauth. destruct (di_keyring _ _ _ _ _ _ (rel_disk _ _ _ _ _ _ HR))
    as (ct & kvs & c & Hct & Hrep & Hc & Hroot & Hof).
  exists ct, (json_Marshal (enc_keyring (Some (a_root a)) kvs c)). split; [done|]. split.
  - intros Q w1 HQ HE. destruct Hauth as [->|Hno].
    + eapply wpE_open_stored_own; [exact Hof|]. by apply HQ.
    + eapply wpE_open_stored; [exact Hof| |done]. intros plain' Hof'. by destruct (Hno _ _ _ Hct Hof').
  - intros Q w1 HQ. eapply wpE_recoverKeyring; [done..|]. intros k w' ? ? _ ? ?. by apply (HQ k).
Qed.

Lemma Rel_opened T S n a w w' ps k :
  Rel T S n a w ps → b_disk w' = b_disk w →
  b_bar w' = set_sealed false (set_keyring (Some k) (set_cache ∅ (b_bar w))) →
  keyring_ok (b_keys w') (b_roots w') k S (a_root a) → 1 ≤ activeTerm k →
  Rel S S n (opened a) w' ps.
Proof.
  intros HR Hd Hb Hk Hp. eapply Rel_keyring; [exact HR|apply HR|done|done|by rewrite Hb..| | |].
  - exact Hk.
  - done.
  - rewrite Hb. apply map_empty_subseteq.
Qed.

Lemma sim_Unseal T S n a ps w key :
  Rel T S n a w ps → authentic (a_root a) (b_store w) keyringPath key →
  sim (spec (OUnseal key) a) ps (run_op (OUnseal key)) w.
Proof.
  intros HR Hauth. pose proof (rel_sealed _ _ _ _ _ _ HR) as Hs.
  destruct (stored_opens _ _ _ _ _ _ _ HR Hauth) as (ct & plain & Hct & Hopen & Hrecover).
  apply wpE_bind, wpE_bind, wpE_gets. simpl. rewrite Hs. unfold sim, spec.
  destruct (a_sealed a) eqn:Ho; simpl.
  2:{ apply wpE_ret, wpE_ret. exists a. split; [done|]. by eapply R_intro. }
  assert (∀ e w', quiet w w' → ∃ a', (Some (Err e : result error Val) = Some (Ok VUnit) ∧ key = a_root a ∧ a' = opened a ∨
    ∃ e', Some (Err e : result error Val) = Some (Err e') ∧ a' = a) ∧
    R a' (after (Some (Err e : result error Val)) w' ps)) as HE.
  { intros e w' Hq. exists a. split; [eauto|]. eapply R_intro; [done|]. by eapply Rel_quiet. }
  apply wpE_bind, wpE_aeadFromKey; [intros _|by intros; apply HE].
  apply wpE_bind, wpE_wrapf, wpE_disk_Get; [|by intros; apply HE].
  rewrite Hct. intros w1 Hq1. apply wpE_bind, Hopen; [intros Hkey|by intros; apply HE].
  apply wpE_bind, wpE_wrapf, Hrecover. intros k w2 Hb2 Hd2 Hk2 Hp2.
  apply wpE_bar_modify, wpE_ret. exists (opened a). split; [eauto|].
  eapply R_intro; [done|]. eapply (Rel_opened _ _ _ _ w1); [by eapply Rel_quiet|done| |done|done].
  simpl. by rewrite Hb2.
Qed.

(** ** Reading and counting *)

Lemma sim_Verify T S n a ps w key :
  Rel T S n a w ps → sim (spec (OVerify key) a) ps (run_op (OVerify key)) w.
Proof.
  intros HR. pose proof (rel_sealed _ _ _ _ _ _ HR) as Hs.
  apply wpE_bind, wpE_bind, wpE_unsealed; [refuse|]. intros Ho.
  destruct (Rel_open _ _ _ _ _ _ HR) as (k & Hk & Hok & _); [congruence|].
  apply wpE_bind. eapply wpE_the_keyring; [done|]. apply wpE_bind. eapply wpE_RootKey; [done..|].
  cbn [from_option id]. destruct (decide (key = a_mem a)).
  - apply wpE_ret, wpE_ret. answers a; [|done]. by case_decide.
  - apply wpE_throw. answers a; [|done]. by case_decide.
Qed.

Lemma sim_AddRemote T S n a ps w z :
  Rel T S n a w ps → sim (spec (OAddRemote z) a) ps (run_op (OAddRemote z)) w.
Proof.
  intros HR. apply wpE_bind, wpE_bar_modify, wpE_ret. exists a. split; [done|].
  eapply R_intro; [done|]. by apply (Rel_quiet _ _ _ _ w).
Qed.

Lemma sim_Consume T S n a ps w f :
  Rel T S n a w ps → sim (spec (OConsume f) a) ps (run_op (OConsume f)) w.
Proof.
  intros HR. assert (∀ r : reply, (r = Some (Ok VUnit) ∨ ∃ e, r = Some (Err e)) →
    ∀ w', quiet w w' → ∃ a', spec (OConsume f) a r a' ∧ R a' (after r w' ps)) as Hend.
  { intros r Hr w' Hq. exists a. split; [done|]. eapply R_intro; [|by eapply Rel_quiet].
    destruct Hr as [->|[? ->]]; done. }
  apply wpE_bind, wpE_bind, wpE_get_keyring. destruct (bar_keyring (b_bar w)).
  2:{ apply wpE_ret, wpE_ret, Hend; [by left|done]. }
  apply wpE_bind, wpE_gets. destruct (f _); [apply wpE_throw, Hend; [eauto|done]|].
  destruct (0 <? _); [apply wpE_bar_modify, wpE_ret, Hend; [by left|done]|].
  apply wpE_ret, wpE_ret, Hend; [by left|done].
Qed.

(** ** Initialisation *)

(** A disk with a keyring is an initialised one. *)
Lemma keyring_listed_below (m : gmap string string) ct i l :
  m !! keyringPath = Some ct → Inmem.root i = m → Inmem.ListInternal keyringPrefix i = Ok l →
  "keyring" ∈ l.
Proof.
  intros Hct Hi Hl. destruct (list_spec _ _ _ Hl) as [_ Hel]. apply Hel. exists "keyring".
  split; [|done]. rewrite Hi. change (keyringPrefix +:+ "keyring") with keyringPath. by rewrite Hct.
Qed.

Lemma wpE_Initialized ct Q w :
  b_store w !! keyringPath = Some ct →
  (∀ w', quiet w w' → Q (Some (Ok true)) w') →
  (∀ e w', quiet w w' → Q (Some (Err e)) w') → wpE Initialized Q w.
Proof.
  intros Hct HQ HE. apply wpE_bind, wpE_gets. simpl.
  destruct (bar_initialized (b_bar w)); [by apply wpE_ret, HQ|].
  apply wpE_bind, wpE_wrapf, wpE_disk_List; [|by intros; apply HE].
  intros l w1 Hq1 Hl. pose proof (keyring_listed_below _ _ _ _ Hct eq_refl Hl).
  rewrite decide_True by done. apply wpE_bind, wpE_bar_modify, wpE_ret, HQ. by etrans.
Qed.

Lemma sim_Initialize T S n a ps w key sealKey :
  Rel T S n a w ps → sim (spec (OInitialize key sealKey) a) ps (run_op (OInitialize key sealKey)) w.
Proof.
  intros HR. assert (∀ e w', quiet w w' → ∃ a', spec (OInitialize key sealKey) a (Some (Err e)) a' ∧
    R a' (after (Some (Err e) : reply) w' ps)) as HE.
  { intros e w' Hq. exists a. split; [split; eauto|]. eapply R_intro; [done|]. by eapply Rel_quiet. }
  apply wpE_bind. unfold Initialize. destruct (negb _); [by apply wpE_throw, HE|].
  destruct (di_keyring _ _ _ _ _ _ (rel_disk _ _ _ _ _ _ HR)) as (ct & kvs & c & Hct & _).
  apply wpE_bind. eapply wpE_Initialized; [done|..|by intros; apply HE].
  intros w' Hq. by apply wpE_throw, HE.
Qed.

(** ** Upgrades *)

Lemma uint32_small z : 0 ≤ z < 2 ^ 32 → uint32 z = z.
Proof. intros. unfold uint32. by rewrite Z.mod_small. Qed.

Lemma uint32_range z : 0 ≤ uint32 z < 2 ^ 32.
Proof. by apply Z.mod_pos_bound. Qed.

Lemma sim_CreateUpgrade T S n a ps w t :
  Rel T S n a w ps → admissible (OCreateUpgrade t) a w →
  sim (spec (OCreateUpgrade t) a) ps (run_op (OCreateUpgrade t)) w.
Proof.
  intros HR Hadm. pose proof (rel_sealed _ _ _ _ _ _ HR) as Hs.
  apply wpE_bind, wpE_bind, wpE_unsealed; [refuse|]. intros Ho.
  destruct (Rel_open _ _ _ _ _ _ HR) as (k & Hk & Hok & Hp & _); [congruence|].
  specialize (Hadm k Hk). apply wpE_bind. eapply wpE_the_keyring; [done|].
  assert (∀ t', 1 ≤ t' ≤ activeTerm k → ∃ kb, T !! t' = Some kb) as HT.
  { intros t' Ht'. by apply (keyring_seq _ _ _ _ _ _ Hok). }
  apply wpE_bind. eapply wpE_TermKey; [done..| |].
  2:{ intros Hnone. destruct (HT t) as [? ?]; [lia|congruence]. }
  intros kv HTt Ht (Hj & Htime & _). apply wpE_bind. simpl. unfold Marshal. simpl. rewrite Htime. simpl.
  apply wpE_ret. destruct (HT (t - 1)) as [kb Hkb]; [lia|].
  rewrite (uint32_small (t - 1)) by (eapply Rel_range; done).
  apply wpE_bind, (wpE_aeadForTerm T); [apply HR|done|]. rewrite Hkb. intros w1 Hk1 Hd1.
  apply (Rel_kept _ _ _ _ _ w1) in HR; [|done..].
  apply wpE_bind, wpE_encryptTracked; [by eapply Rel_version|..].
  - intros ct w2 Hq2 Hct. apply (Rel_quiet _ _ _ _ _ w2) in HR; [|done].
    set (a1 := with_paths ({[upgradePath (t - 1)]} ∪ o_paths (a_own a)) a).
    assert (∀ w3, on_disk (<[upgradePath (t - 1) := ct]> (b_store w2)) w2 w3 → Rel T S n a1 w3 ps) as Hput.
    { intros w3 Hd3. eapply Rel_on_disk; [exact Hd3| | |exact HR].
      - apply disk_inv_upgrade; [apply HR|]. exists kb, kv. replace (t - 1 + 1) with t by lia. done.
      - apply own_inv_put; [apply HR|apply upgrade_reserved|apply upgrade_not_keyring]. }
    apply wpE_disk_Put.
    + intros w3 Hd3. apply wpE_ret. answers a1; [left; by left|by apply Hput].
    + intros w3 [Hq3|Hd3] _; [answers a|answers a1]; [left; right; eauto|by eapply Rel_quiet|left; right; eauto|].
      by apply Hput.
  - intros e w2 Hq2 _. answers a; [left; right; eauto|by eapply Rel_quiet].
  - intros w2 Hq2 _. exists (restarted a). split; [apply guarded_ok; [congruence|auto]|].
    by eapply R_restart, Rel_quiet.
Qed.

Lemma sim_DestroyUpgrade T S n a ps w t :
  Rel T S n a w ps → sim (spec (ODestroyUpgrade t) a) ps (run_op (ODestroyUpgrade t)) w.
Proof.
  intros HR. pose proof (rel_sealed _ _ _ _ _ _ HR) as Hs.
  apply wpE_bind, wpE_bind, wpE_unsealed; [refuse|]. intros Ho.
  set (a1 := with_paths (o_paths (a_own a) ∖ {[upgradePath (uint32 (t - 1))]}) a).
  assert (∀ w', on_disk (delete (upgradePath (uint32 (t - 1))) (b_store w)) w w' → Rel T S n a1 w' ps) as Hdel.
  { intros w' Hd. eapply Rel_on_disk; [exact Hd| | |exact HR].
    - apply disk_inv_destroy, HR.
    - apply own_inv_remove; [apply HR|apply upgrade_reserved|apply upgrade_not_keyring]. }
  apply wpE_disk_Delete.
  - intros w' Hd'. apply wpE_ret. answers a1; [by left|by apply Hdel].
  - intros w' [Hq'|Hd'] _; [answers a|answers a1]; [right; eauto|by eapply Rel_quiet|right; eauto|by apply Hdel].
Qed.

(** There is no upgrade beyond the active term. *)
Lemma no_upgrade T S n a ps w k :
  Rel T S n a w ps → keyring_ok (b_keys w) (b_roots w) k T (a_mem a) → 1 ≤ activeTerm k →
  b_store w !! upgradePath (activeTerm k) = None.
Proof.
  intros HR Hk Hp. destruct (b_store w !! _) as [ct|] eqn:Hct; [|done]. exfalso.
  assert (is_Some (T !! activeTerm k)) as [kb Hkb] by (apply (keyring_seq _ _ _ _ _ _ Hk); lia).
  destruct (di_upgrade _ _ _ _ _ _ (rel_disk _ _ _ _ _ _ HR) _ _ (Rel_range _ _ _ _ _ _ _ _ HR Hkb) Hct)
    as (_ & kv & _ & _ & _ & HT & _).
  assert (is_Some (T !! (activeTerm k + 1))) as Hn by by rewrite HT.
  apply (keyring_seq _ _ _ _ _ _ Hk) in Hn. lia.
Qed.

Lemma sim_CheckUpgrade T S n a ps w :
  Rel T S n a w ps → sim (spec OCheckUpgrade a) ps (run_op OCheckUpgrade) w.
Proof.
  intros HR. pose proof (rel_sealed _ _ _ _ _ _ HR) as Hs.
  apply wpE_bind, wpE_bind, wpE_unsealed; [refuse|]. intros Ho.
  destruct (Rel_open _ _ _ _ _ _ HR) as (k & Hk & Hok & Hp & _); [congruence|].
  apply wpE_bind. eapply wpE_the_keyring; [done|]. apply wpE_bind.
  apply (wpE_Get_entry T _ None); [apply HR|by intros; eapply Rel_range|..].
  - unfold ActiveTerm. by rewrite (no_upgrade _ _ _ _ _ _ _ HR).
  - congruence.
  - intros w' _ Hk' Hd'. apply wpE_ret, wpE_ret. answers a; [auto|by eapply Rel_kept].
  - intros w' _ Hk' Hd' _. answers a; [auto|by eapply Rel_kept].
Qed.
End data.
