(* ===== verification/BarrierSimKeys.v ===== *)
(** * Every operation keeps the relation: keys

    The operations that change the keyring, in memory and on disk, and then
    the refinement for all operations. *)

From S2P Require Import Prelude GoLib GoSplit Utf8 Storage StorageFacts Core AesGcm Encoding BarrierState KeyringOps Barrier BarrierLogic BarrierCrypt KeyringFacts BarrierInv BarrierOps BarrierRefine BarrierSim.
Import Keyring.

Section sim_keys.
Context `{AEAD} `{RadixTree} `{BEnv} `{TermRange} `{JsonText}.
Implicit Types (a : A) (w : BWorld) (ps : list pending).

(** ** Memory *)

(** Root keys are where they were. *)
Definition roots_upto (rs rs' : list string) : Prop :=
  ∀ l s, rs !! l = Some s → rs' !! l = Some s.

Lemma Rel_heap T S n a w w' ps :
  Rel T S n a w ps → heap_upto (b_keys w) (b_keys w') → roots_upto (b_roots w) (b_roots w') →
  b_bar w' = b_bar w → b_disk w' = b_disk w → Rel T S n a w' ps.
Proof.
  intros [Hd Hm Hs Hr Hp Hi Hown] Hk Hroots Hb Hdisk. split; [..|done|done|].
  - unfold b_store. by rewrite Hdisk.
  - split; rewrite Hb; [apply Hm..|]. intros Ho.
    destruct (mi_open _ _ Hm Ho) as (k & root & Hbk & Hok & Hrest). exists k, root.
    split; [done|]. split; [|done]. by eapply keyring_ok_mono; [..|exact Hok]; eauto.
  - by rewrite Hb.
  - intros Ho. destruct (Hr Ho) as (k & l & ? & ? & ?). exists k, l. rewrite Hb. auto.
  - unfold b_store. by rewrite Hdisk.
Qed.

(** ** Writing the keyring *)

Lemma keyring_there T S n a w ps : Rel T S n a w ps → is_Some (b_store w !! keyringPath).
Proof.
  intros HR. destruct (di_keyring _ _ _ _ _ _ (rel_disk _ _ _ _ _ _ HR)) as (ct & ? & ? & Hct & _).
  by exists ct.
Qed.

Lemma Rel_persisted T S n a w w' ps M n' root m :
  Rel T S n a w ps → T ⊆ M → persisted M n' root (b_store w) m → on_disk m w w' →
  ∃ kb, Rel T M n' (rekeyed root kb a) w' ps.
Proof.
  intros HR HT Hm Hd.
  destruct (own_inv_persisted _ _ _ _ _ _ _ (rel_own _ _ _ _ _ _ HR) (keyring_there _ _ _ _ _ _ HR) Hm) as (kb & _ & Ho).
  exists kb. eapply (Rel_on_disk _ _ _ _ _ _ _ _ a); [done| |exact Ho|done]. eapply disk_inv_persisted; [apply HR|done..].
Qed.

Lemma Rel_attempted T S n a w w' ps M n' root m :
  Rel T S n a w ps → T ⊆ M → attempted M n' root (b_store w) m → on_disk m w w' →
  ∃ a', tried root a a' ∧ ∃ S' n'', Rel T S' n'' a' w' ps.
Proof.
  intros HR HT [->|[Hm|Hm]] Hd.
  - exists a. split; [by left|]. exists S, n. destruct a. eapply Rel_on_disk in HR; [exact HR|done|apply HR..].
  - exists (with_root root a). split; [by right; left|]. exists M, n'. eapply Rel_on_disk; [done|..|done].
    + eapply disk_inv_keyring_written; [apply HR|done..].
    + eapply own_inv_keyring_written; [apply HR|by eapply keyring_there|done].
  - destruct (Rel_persisted _ _ _ _ _ _ _ _ _ _ _ HR HT Hm Hd) as [kb HR'].
    exists (rekeyed root kb a). split; [right; right; eauto|eauto].
Qed.

(** The keyring [k] with the keys [M] is written. *)
Lemma wpE_persist T S n a w ps k M mem Q :
  Rel T S n a w ps → T ⊆ M → keyring_ok (b_keys w) (b_roots w) k M mem → 1 ≤ activeTerm k →
  (∀ kb d w', Rel T M (activeTerm k) (rekeyed mem kb a) w' ps → on_disk d w w' → Q (Some (Ok ())) w') →
  (∀ e d w' a' S' n', tried mem a a' → Rel T S' n' a' w' ps → on_disk d w w' → Q (Some (Err e)) w') →
  (∀ w' a', tried mem a a' → R (restarted a') (mkSys (crash w') []) → Q None w') →
  wpE (persistKeyring k) Q w.
Proof.
  intros HR HT Hk Hp HQ HE HP. eapply wpE_persistKeyring; [by eapply Rel_version|done..| | |].
  - intros d w' Hd Hw'. destruct (Rel_persisted _ _ _ _ _ _ _ _ _ _ _ HR HT Hd Hw') as [kb HR']. by eapply HQ.
  - intros e d w' Hd Hw' _. destruct (Rel_attempted _ _ _ _ _ _ _ _ _ _ _ HR HT Hd Hw') as (a' & Ha' & S' & n' & HR').
    by eapply HE.
  - intros d w' Hd Hw' _. destruct (Rel_attempted _ _ _ _ _ _ _ _ _ _ _ HR HT Hd Hw') as (a' & Ha' & S' & n' & HR').
    apply (HP w' a'); [done|]. by eapply (R_restart _ _ _ _ _ _ []).
Qed.

(** ** Rotation of the encryption key *)

Lemma wpE_GenerateKey Q w :
  (∀ key w', quiet w w' → NewCipher key = true → Q (Some (Ok key)) w') →
  (∀ e w', quiet w w' → Q (Some (Err e)) w') → wpE GenerateKey Q w.
Proof.
  intros HQ HE. unfold GenerateKey. apply wpE_bind. unfold wpE at 1, reader_Read. cbn [fst snd].
  destruct (be_reader (b_tick w) 32) as [read [e|]]; [by apply wpE_throw, HE|].
  apply wpE_ret, HQ; [done|]. apply NewCipher_spec. right; right.
  apply str_take_length. rewrite str_length_app. change (String.length (of_bytes (replicate 32 0%N))) with 32%nat. lia.
Qed.

(** Adding the key of the next term. *)
Lemma sub_next ks rs k T root (t : Z) (v : string) :
  keyring_ok ks rs k T root → t = activeTerm k + 1 → T ⊆ <[t := v]> T.
Proof.
  intros Hk ->. apply insert_subseteq. destruct (T !! _) eqn:HT; [|done].
  assert (is_Some (T !! (activeTerm k + 1))) as Hs by by rewrite HT.
  apply (keyring_seq _ _ _ _ _ _ Hk) in Hs. lia.
Qed.

Hypothesis clock_ok : ∀ n, time_json_ok (be_clock n) = true.

Lemma wpE_next_key {B} T S n a ps w k kv msg (f : t → E B) Q :
  Rel T S n a w ps → keyring_ok (b_keys w) (b_roots w) k T (a_mem a) →
  wf_key kv → Term kv = activeTerm k + 1 →
  (∀ k' w', Rel T S n a w' ps → b_bar w' = b_bar w →
     keyring_ok (b_keys w') (b_roots w') k' (<[Term kv := Value kv]> T) (a_mem a) →
     activeTerm k' = Term kv → wpE (f k') Q w') →
  wpE (l ← new_key kv; k' ← wrapf msg (AddKey k l); f k') Q w.
Proof.
  intros HR Hk Hwf Ht HQ. apply wpE_bind, wpE_new_key.
  apply (Rel_heap _ _ _ _ _ (set_keys (b_keys w ++ [kv]) w)) in HR; [|apply heap_upto_app|by intros ? ?|done..].
  apply wpE_bind, wpE_wrapf.
  eapply (wpE_AddKey clock_ok (b_roots w) k T (a_mem a) _ kv); [|by apply list_lookup_middle|done|done|].
  { eapply keyring_ok_mono; [apply heap_upto_app| |exact Hk]. done. }
  intros k' w' Hheap Hk' _ Hact. apply HQ; [|by rewrite (ho_bar _ _ Hheap)| |done].
  - eapply Rel_heap; [exact HR|apply Hheap| |apply Hheap..]. intros l s. by rewrite (ho_roots _ _ Hheap).
  - by rewrite (ho_roots _ _ Hheap).
Qed.

(** The terms do not wrap around. *)
Lemma next_term (t : Z) : 0 ≤ t < 2 ^ 32 → (uint32 (t + 1) <? t) = false → 1 ≤ t →
  uint32 (t + 1) = t + 1.
Proof.
  unfold uint32. intros Ht Hover%Z.ltb_ge Hp. apply Z.mod_small.
  destruct (decide (t + 1 = 2 ^ 32)) as [Heq|]; [|lia]. rewrite Heq, Z.mod_same in Hover; lia.
Qed.

(** A rotation puts the next key into use, or leaves the keyring in memory. *)
Lemma wpE_Rotate T S n a ps w k Q :
  Rel T S n a w ps → a_sealed a = false → bar_keyring (b_bar w) = Some k →
  (∀ key kb k' w', activeTerm k + 1 < 2 ^ 32 →
     Rel (<[activeTerm k + 1 := key]> T) (<[activeTerm k + 1 := key]> T) (activeTerm k + 1)
       (rekeyed (a_mem a) kb a) w' ps →
     bar_keyring (b_bar w') = Some k' → activeTerm k' = activeTerm k + 1 →
     UnaccountedEncryptions (b_bar w') = 0 → Q (Some (Ok (activeTerm k + 1))) w') →
  (∀ e w' a' S' n', tried (a_mem a) a a' → Rel T S' n' a' w' ps → Q (Some (Err e)) w') →
  (∀ w' a', tried (a_mem a) a a' → R (restarted a') (mkSys (crash w') []) → Q None w') →
  wpE Rotate Q w.
Proof.
  intros HR Ho Hk HQ HE HP. apply wpE_bind, wpE_unsealed; rewrite (rel_sealed _ _ _ _ _ _ HR), Ho; [done|].
  intros _. apply wpE_bind, wpE_wrapf, wpE_GenerateKey.
  2:{ intros e w' Hq. eapply HE; [by left|]. by eapply Rel_quiet. }
  intros key w1 Hq1 Hkey. apply (Rel_quiet _ _ _ _ _ w1) in HR; [|done].
  rewrite <-(q_keyring _ _ Hq1) in Hk. clear Hq1.
  destruct (Rel_open _ _ _ _ _ _ HR Ho) as (k0 & Hk0 & Hok & Hp & Hc).
  rewrite Hk in Hk0. injection Hk0 as <-.
  apply wpE_bind. eapply wpE_the_keyring; [done|]. unfold ActiveTerm. case_match eqn:Hover.
  { apply wpE_throw. eapply HE; [by left|exact HR]. }
  assert (is_Some (T !! activeTerm k)) as [kb Hkb] by (apply (keyring_seq _ _ _ _ _ _ Hok); lia).
  pose proof (next_term _ (Rel_range _ _ _ _ _ _ _ _ HR Hkb) Hover Hp) as Hnew.
  pose proof (uint32_range (activeTerm k + 1)) as Hrange. rewrite Hnew in Hrange |- *.
  eapply wpE_next_key; [exact HR|exact Hok|by split|done|]. cbn [Term Value].
  intros k' w2 HR2 Hb2 Hok2 Hact. pose proof (sub_next _ _ _ _ _ _ key Hok eq_refl) as HT.
  apply wpE_bind. eapply wpE_persist; [exact HR2|exact HT|exact Hok2|lia| |by intros; eapply HE|done].
  intros kb' d w3 HR3 Hd3. apply wpE_bind, wpE_bar_modify, wpE_bind, wpE_bar_modify, wpE_ret.
  pose proof (on_disk_kept T _ _ _ Hd3) as Hk3. eapply (HQ key kb' k'); [lia| |done|done|done].
  set (a1 := rekeyed (a_mem a) kb' a) in *.
  replace a1 with (mkA (a_data a1) false (a_root a1) (a_mem a) (a_puts a1) (a_issued a1) (a_own a1))
    by (unfold a1, rekeyed, with_own, with_root; simpl; by rewrite Ho). rewrite Hact in HR3.
  eapply (Rel_keyring _ _ _ _ _ _ _ _ k' (a_mem a) HR3); [done..|by etrans; [apply HR3|]|done| |lia|].
  - simpl. by rewrite (k_keys _ _ _ Hk3), (k_roots _ _ _ Hk3).
  - simpl. etrans; [|exact HT]. apply (k_cache _ _ _ Hk3). by rewrite Hb2.
Qed.

Lemma sim_Rotate T S n a ps w :
  Rel T S n a w ps → sim (spec ORotate a) ps (run_op ORotate) w.
Proof.
  intros HR. destruct (a_sealed a) eqn:Ho.
  { apply wpE_bind, wpE_bind, wpE_unsealed; [refuse|]. rewrite (rel_sealed _ _ _ _ _ _ HR). congruence. }
  destruct (Rel_open _ _ _ _ _ _ HR Ho) as (k & Hk & _).
  apply wpE_bind. eapply wpE_Rotate; [done..| | |].
  - intros key kb k' w' _ HR' _ _ _. apply wpE_ret. answers (rekeyed (a_mem a) kb a); [left; eauto 10|done].
  - intros e w' a' S' n' Ha' HR'. answers a'; [right; left; eauto|done].
  - intros w' a' Ha' HR'. exists (restarted a'). split; [|done]. apply guarded_ok; [done|]. right; right. eauto.
Qed.

(** ** The root key *)

(** The keyring [k'], with another root key, takes the place of [k], whose
    root key is wiped. *)
Lemma wpE_install_root T S n a ps w k k' key Q :
  Rel T S n a w ps → a_sealed a = false → bar_keyring (b_bar w) = Some k →
  keyring_ok (b_keys w) (b_roots w) k' T key → rootKey k' ≠ rootKey k → 1 ≤ activeTerm k' →
  (∀ w', Rel T S n (with_mem key a) w' ps → Q (Some (Ok ())) w') →
  wpE (_ ← bar_modify (set_keyring (Some k')); Zeroize (Some k) false) Q w.
Proof.
  intros HR Ho Hk Hok' Hne Hp HQ. destruct (Rel_open _ _ _ _ _ _ HR Ho) as (k0 & Hk0 & Hok & _ & Hc).
  rewrite Hk in Hk0. injection Hk0 as <-.
  apply wpE_bind, wpE_bar_modify. eapply wpE_Zeroize_root; [exact Hok|]. intros l Hl. apply HQ.
  replace (with_mem key a) with (mkA (a_data a) false (a_root a) key (a_puts a) (a_issued a) (a_own a))
    by (unfold with_mem; by rewrite Ho).
  eapply (Rel_keyring _ T _ _ _ _ _ _ k' key HR); [done|apply HR|done|done| |done| |done|done].
  - by etrans; [apply HR|].
  - eapply keyring_ok_mono; [reflexivity| |exact Hok']. intros l' s Hl' Hs. simpl.
    rewrite list_lookup_alter_ne; [exact Hs|]. congruence.
Qed.

(** A new root key in a copy of the keyring. *)
Lemma wpE_updateRootKeyCommon T S n a ps w key Q :
  Rel T S n a w ps →
  (a_sealed a = true → Q (Some (Err ErrBarrierSealed)) w) →
  (∀ e, a_sealed a = false → Q (Some (Err e)) w) →
  (∀ k k' w', Rel T S n a w' ps → a_sealed a = false → bar_keyring (b_bar w') = Some k →
     keyring_ok (b_keys w') (b_roots w') k' T key → rootKey k' ≠ rootKey k → 1 ≤ activeTerm k' →
     Q (Some (Ok k')) w') →
  wpE (updateRootKeyCommon key) Q w.
Proof.
  intros HR HS HE HQ. pose proof (rel_sealed _ _ _ _ _ _ HR) as Hs. apply wpE_bind, wpE_unsealed.
  { intros Ho. apply HS. congruence. }
  rewrite Hs. intros Ho. destruct (negb _); [by apply wpE_throw, HE|].
  destruct (Rel_open _ _ _ _ _ _ HR Ho) as (k & Hk & Hok & Hp & _).
  apply wpE_bind. eapply wpE_the_keyring; [done|]. eapply wpE_SetRootKey; [done|].
  intros k' w' -> Hok' Hroot Hact. apply (HQ k); [|done|done|done| |lia].
  - eapply Rel_heap; [exact HR|reflexivity| |done|done]. intros l s. apply lookup_app_l_Some.
  - rewrite Hroot. destruct (ko_root _ _ _ _ _ Hok) as (l & -> & Hl). apply lookup_lt_Some in Hl.
    intros [= <-]. lia.
Qed.

Lemma sim_SetRoot T S n a ps w key :
  Rel T S n a w ps → sim (spec (OSetRoot key) a) ps (run_op (OSetRoot key)) w.
Proof.
  intros HR. apply wpE_bind, wpE_bind. eapply wpE_updateRootKeyCommon; [exact HR|refuse|..].
  - intros e Ho. answers a; [right; eauto|done].
  - intros k k' w' HR' Ho Hk Hok Hne Hp. apply wpE_bind, wpE_get_keyring. rewrite Hk.
    eapply wpE_install_root; [done..|]. intros w2 HR2. apply wpE_ret.
    answers (with_mem key a); [by left|done].
Qed.

Lemma sim_Rekey T S n a ps w key :
  Rel T S n a w ps → sim (spec (ORekey key) a) ps (run_op (ORekey key)) w.
Proof.
  intros HR. apply wpE_bind, wpE_bind. eapply wpE_updateRootKeyCommon; [exact HR|refuse|..].
  { intros e Ho. answers a; [|done]. right; left. exists e. split; [done|by left]. }
  intros k k' w1 HR1 Ho Hk Hok Hne Hp. apply wpE_bind. eapply wpE_persist; [exact HR1|done|exact Hok|done|..].
  - intros kb d w2 HR2 Hd2. pose proof (on_disk_kept T _ _ _ Hd2) as Hk2.
    apply wpE_bind, wpE_get_keyring. rewrite (k_keyring _ _ _ Hk2), Hk.
    eapply wpE_install_root; [exact HR2|done|by rewrite (k_keyring _ _ _ Hk2)| |done|done|].
    + by rewrite (k_keys _ _ _ Hk2), (k_roots _ _ _ Hk2).
    + intros w3 HR3. apply wpE_ret. answers (rekeyed key kb (with_mem key a)); [left; eauto|exact HR3].
  - intros e d w2 a' S' n' Ha' HR2 _. answers a'; [right; left; eauto|done].
  - intros w2 a' Ha' HR2. exists (restarted a'). split; [|done]. apply guarded_ok; [done|]. right; right. eauto.
Qed.

(** ** Reloading *)

Lemma sim_ReloadKeyring T S n a ps w :
  Rel T S n a w ps → authentic (a_root a) (b_store w) keyringPath (a_mem a) →
  sim (spec OReloadKeyring a) ps (run_op OReloadKeyring) w.
Proof.
  intros HR Hauth. pose proof (rel_sealed _ _ _ _ _ _ HR) as Hs.
  destruct (stored_opens _ _ _ _ _ _ _ HR Hauth) as (ct & plain & Hct & Hopen & Hrecover).
  apply wpE_bind, wpE_bind. unfold sim, spec. destruct (a_sealed a) eqn:Ho.
  { destruct (mi_sealed _ _ (rel_mem _ _ _ _ _ _ HR) Hs) as [Hk _].
    apply wpE_bind, wpE_get_keyring. rewrite Hk. apply wpE_panic. exists (restarted a).
    split; [done|by eapply R_restart]. }
  destruct (Rel_open _ _ _ _ _ _ HR Ho) as (k & Hk & Hok & Hp & _).
  assert (∀ e w', quiet w w' → ∃ a', (Some (Err e : result error Val) = Some (Ok VUnit) ∧ a_mem a = a_root a ∧ a' = opened a ∨
    ∃ e', Some (Err e : result error Val) = Some (Err e') ∧ a' = a) ∧
    R a' (after (Some (Err e : result error Val)) w' ps)) as HE.
  { intros e w' Hq. exists a. split; [eauto|]. eapply R_intro; [done|]. by eapply Rel_quiet. }
  eapply wpE_the_keyring; [done|]. apply wpE_bind. eapply wpE_RootKey; [done..|].
  apply wpE_bind, wpE_aeadFromKey; [intros _|by intros; apply HE].
  apply wpE_bind, wpE_wrapf, wpE_disk_Get; [|by intros; apply HE].
  rewrite Hct. intros w1 Hq1. apply wpE_bind, Hopen; [intros Hkey|by intros; apply HE].
  apply wpE_bind, wpE_bar_modify, Hrecover. intros k' w2 Hb2 Hd2 Hk2 Hp2. apply wpE_ret.
  exists (opened a). split; [eauto|]. eapply R_intro; [done|].
  assert (Rel T S n a w1 ps) as HR1 by by eapply Rel_quiet.
  eapply (Rel_keyring _ S _ _ _ _ _ _ k'); [exact HR1|apply HR|done|exact Hd2|by rewrite Hb2| |by rewrite Hb2|done|done|].
  - rewrite Hb2. simpl. rewrite (rel_sealed _ _ _ _ _ _ HR1). done.
  - rewrite Hb2. apply map_empty_subseteq.
Qed.

(** One key opens an entry to one text. *)
Lemma ct_of_text t t' kb path v v' ct : ct_of t kb path v ct → ct_of t' kb path v' ct → v = v'.
Proof.
  intros Hv Hv'. set (w := mkBWorld NewAESGCMBarrier [] [] (Inmem.mk ∅ false false false false 0) 0).
  pose proof (wpE_decrypt_ct t path kb v ct (λ r _, r = Some (Ok v)) w Hv eq_refl) as Hd.
  pose proof (wpE_decrypt_ct t' path kb v' ct (λ r _, r = Some (Ok v')) w Hv' eq_refl) as Hd'.
  unfold wpE in *. congruence.
Qed.

Lemma mem_inv_in_keyring T w t kb :
  mem_inv T w → bar_sealed (b_bar w) = false → T !! t = Some kb →
  ∃ kv, in_keyring w t kv ∧ Value kv = kb.
Proof.
  intros Hm Ho HT. destruct (mi_open _ _ Hm Ho) as (k & root & Hk & Hok & _).
  destruct (ko_dom _ _ _ _ _ Hok t) as [l Hl]; [by rewrite HT|].
  destruct (ko_key _ _ _ _ _ Hok _ _ Hl) as (kv & Hkv & _ & _ & HT'). exists kv.
  split; [by exists k, l|congruence].
Qed.

Lemma in_keyring_kept T w w' t kv : kept T w w' → in_keyring w' t kv → in_keyring w t kv.
Proof.
  intros Hk (k & l & Hb & Hl & Hkv). exists k, l. by rewrite <-(k_keyring _ _ _ Hk), <-(k_keys _ _ _ Hk).
Qed.

(** A read of the root key. *)
Lemma wpE_Get_root T S n a ps w Q :
  Rel T S n a w ps → admissible OReloadRoot a w →
  (∀ e w', Rel T S n a w' ps → Q (Some (Err e)) w') →
  (∀ w', a_sealed a = false → Rel T S n a w' ps → admissible OReloadRoot a w' →
     Q (Some (Ok (Some (root_text (o_master (a_own a)))))) w') →
  wpE (Get rootKeyPath) Q w.
Proof.
  intros HR Hadm HE HQ. pose proof (rel_sealed _ _ _ _ _ _ HR) as Hs.
  destruct (oi_master _ _ _ (rel_own _ _ _ _ _ _ HR)) as (t & ct & Hct & Hof).
  apply (wpE_Get_any T); [apply HR|..].
  - intros e w' Hk Hd. apply HE. by eapply Rel_kept.
  - rewrite Hct. intros [v|] w' Ho Hk Hd He; [|done]. destruct He as (t' & kb & HT & Hv).
    destruct (mem_inv_in_keyring _ _ _ _ (rel_mem _ _ _ _ _ _ HR) Ho HT) as (kv & Hkv & <-).
    destruct (Hadm t' kv Hkv) as [Heq|Hno]; [|by destruct (Hno _ _ _ Hct Hv)]. rewrite Heq in Hv.
    rewrite (ct_of_text _ _ _ _ _ _ _ Hv Hof). apply HQ; [congruence|by eapply Rel_kept|].
    intros t0 kv0 Hkv0. unfold b_store. rewrite Hd. by eapply Hadm, in_keyring_kept.
  - intros ct' w' Hct' Hlen. apply (di_root _ _ _ _ _ _ (rel_disk _ _ _ _ _ _ HR)) in Hct'. lia.
Qed.

Lemma sim_ReloadRoot T S n a ps w :
  Rel T S n a w ps → admissible OReloadRoot a w → sim (spec OReloadRoot a) ps (run_op OReloadRoot) w.
Proof.
  intros HR Hadm. set (master := o_master (a_own a)).
  assert (∀ e w', Rel T S n a w' ps → ∃ a', spec OReloadRoot a (Some (Err e)) a' ∧
    R a' (after (Some (Err e) : reply) w' ps)) as HE.
  { intros e w' HR'. exists a. split; [right; eauto|by eapply R_intro]. }
  assert (∀ w', a_sealed a = false → Rel T S n (with_mem master a) w' ps →
    ∃ a', spec OReloadRoot a (Some (Ok VUnit)) a' ∧ R a' (after (Some (Ok VUnit) : reply) w' ps)) as HN.
  { intros w' Ho HR'. exists (with_mem master a). split; [left; eauto|by eapply R_intro]. }
  apply wpE_bind, wpE_bind, wpE_wrapf. eapply wpE_Get_root; [exact HR|exact Hadm|by intros; apply HE|].
  intros w1 Ho HR1 Hadm1. apply wpE_bind, wpE_wrapf.
  eapply wpE_Get_root; [exact HR1|exact Hadm1|by intros; apply HE|]. intros w2 _ HR2 _. fold master.
  set (kv := mkKey 1 1 master 0 0). assert (key_json kv) as Hjson by done.
  apply wpE_bind, wpE_wrapf, wpE_bind, wpE_wrapf. unfold DecodeJSON_as, root_text.
  rewrite json_Decode_Marshal, dec_enc_key by (done || by apply enc_key_doc).
  apply wpE_ret, wpE_new_key.
  apply (Rel_heap _ _ _ _ _ (set_keys (b_keys w2 ++ [kv]) w2)) in HR2; [|apply heap_upto_app|by intros ? ?|done..].
  apply wpE_bind. eapply wpE_load; [by apply list_lookup_middle|].
  destruct (Rel_open _ _ _ _ _ _ HR2 Ho) as (k & Hk & Hok & Hp & _).
  apply wpE_bind. eapply wpE_the_keyring; [done|]. apply wpE_bind. eapply wpE_RootKey; [done..|].
  case_decide as Hsame.
  { apply wpE_ret, wpE_ret, HN; [done|]. replace (with_mem master a) with a; [done|].
    destruct a. simpl in *. by rewrite Hsame. }
  apply wpE_bind. eapply wpE_SetRootKey; [exact Hok|]. intros k' w3 -> Hok' Hroot Hact.
  eapply wpE_install_root; [|done|exact Hk|exact Hok'| |lia|].
  - eapply Rel_heap; [exact HR2|reflexivity| |done|done]. intros l s. apply lookup_app_l_Some.
  - rewrite Hroot. destruct (ko_root _ _ _ _ _ Hok) as (l & -> & Hl). apply lookup_lt_Some in Hl.
    intros [= Heq]. simpl in *. lia.
  - intros w4 HR4. by apply wpE_ret, HN.
Qed.

(** ** The rotation's configuration and the counts *)

Lemma sim_SetConfig T S n a ps w c :
  Rel T S n a w ps → config_json c → sim (spec (OSetConfig c) a) ps (run_op (OSetConfig c)) w.
Proof.
  intros HR Hc. pose proof (rel_sealed _ _ _ _ _ _ HR) as Hs.
  apply wpE_bind, wpE_bind. unfold sim, spec. destruct (a_sealed a) eqn:Ho.
  { destruct (mi_sealed _ _ (rel_mem _ _ _ _ _ _ HR) Hs) as [Hk _].
    apply wpE_bind, wpE_get_keyring. rewrite Hk. apply wpE_panic. exists (restarted a).
    split; [done|by eapply R_restart]. }
  destruct (Rel_open _ _ _ _ _ _ HR Ho) as (k & Hk & Hok & Hp & Hcache).
  eapply wpE_the_keyring; [done|]. destruct (negb _).
  2:{ apply wpE_ret, wpE_ret. exists a. split; [by right|by eapply R_intro]. }
  set (k' := mk (rootKey k) (keys k) (activeTerm k) (Sanitize c)).
  assert (keyring_ok (b_keys w) (b_roots w) k' T (a_mem a)) as Hok'.
  { destruct Hok. split; try done. by apply Sanitize_json. }
  set (w1 := set_bar (set_keyring (Some k') (b_bar w)) w).
  assert (Rel T S n a w1 ps) as HR1.
  { replace a with (mkA (a_data a) false (a_root a) (a_mem a) (a_puts a) (a_issued a) (a_own a))
      by (rewrite <-Ho; by destruct a).
    eapply (Rel_keyring _ T _ _ _ _ w1 _ k' (a_mem a) HR); [done|apply HR|done..]. }
  apply wpE_bind, wpE_bar_modify. eapply wpE_persist; [exact HR1|done|exact Hok'|done|..].
  - intros kb d w2 HR2 _. apply wpE_ret. exists (rekeyed (a_mem a) kb a).
    split; [left; left; eauto|by eapply R_intro].
  - intros e d w2 a' S' n' Ha' HR2 _. exists a'. split; [left; right; left; eauto|by eapply R_intro].
  - intros w2 a' Ha' HR2. exists (restarted a'). split; [|done]. left. right; right. eauto.
Qed.

Lemma wpE_time_Since t (Q : option (result error Z) → BWorld → Prop) w :
  (∀ age w', quiet w w' → Q (Some (Ok age)) w') → wpE (time_Since t) Q w.
Proof. intros HQ. apply wpE_bind. unfold wpE at 1, time_Now. by apply wpE_ret, HQ. Qed.

Lemma wpE_rotation_reason k T root Q w :
  bar_keyring (b_bar w) = Some k → keyring_ok (b_keys w) (b_roots w) k T root → 1 ≤ activeTerm k →
  (∀ s w', quiet w w' → Q (Some (Ok s)) w') → wpE (rotation_reason k) Q w.
Proof.
  intros Hk Hok Hp HQ. apply wpE_bind, wpE_bind, wpE_get_keyring. rewrite Hk. apply wpE_ret.
  destruct (Disabled _); [by apply wpE_ret, HQ|].
  apply wpE_bind. eapply wpE_ActiveKey; [done..|]. intros kv HT Ht Hwf.
  apply wpE_bind, wpE_bind, wpE_get_keyring. rewrite Hk. apply wpE_bind.
  eapply wpE_ActiveKey; [done..|]. intros kv' _ _ _. apply wpE_bind, wpE_gets, wpE_ret.
  apply wpE_bind. eapply wpE_nonnil; [done|]. apply wpE_bind.
  assert (∀ (old : bool) w', quiet w w' → wpE (if old then mret "legacy rotation"
    else if MaxOperations (config_Clone (rotationConfig k)) <?
              wrap64 ((UnaccountedEncryptions ∘ b_bar) w + wrap64 (Encryptions kv'))
    then mret "reached max operations"
    else if 0 <? Interval (config_Clone (rotationConfig k)) then
      age ← time_Since (InstallTime kv);
      mret (if Interval (config_Clone (rotationConfig k)) <? age then "rotation interval reached" else "")
    else mret "") Q w') as Hrest.
  { intros old w' Hq. destruct old; [by apply wpE_ret, HQ|]. case_match; [by apply wpE_ret, HQ|].
    case_match; [|by apply wpE_ret, HQ]. apply wpE_bind, wpE_time_Since. intros age w2 Hq2.
    apply wpE_ret, HQ. by etrans. }
  destruct ((Encryptions kv =? 0) && _); [|by apply wpE_ret, (Hrest false)].
  apply wpE_bind, wpE_time_Since. intros age w2 Hq2. by apply wpE_ret, (Hrest (oneYear <? age)).
Qed.

Lemma wf_count z kv : wf_key kv → wf_key (set_Encryptions (uint64 z) kv).
Proof.
  intros ((? & ? & ?) & ? & ?). split; [|done]. split; [done|]. split; [done|].
  by apply Z.mod_pos_bound.
Qed.

Lemma Rel_count T S n a w ps l kv z :
  Rel T S n a w ps → b_keys w !! l = Some kv →
  Rel T S n a (set_keys (<[l := set_Encryptions (uint64 z) kv]> (b_keys w)) w) ps.
Proof.
  intros HR Hl. eapply Rel_heap; [exact HR| |by intros ? ?|done|done].
  eapply heap_upto_insert; [done..|]. apply wf_count.
Qed.

(** The active key's place in memory. *)
Lemma active_loc k T root w :
  keyring_ok (b_keys w) (b_roots w) k T root → 1 ≤ activeTerm k →
  ∃ l kv, keys k !! activeTerm k = Some l ∧ b_keys w !! l = Some kv.
Proof.
  intros Hok Hp. destruct (ko_seq _ _ _ _ _ Hok (activeTerm k)) as [_ [l Hl]]; [lia|].
  destruct (ko_key _ _ _ _ _ Hok _ _ Hl) as (kv & Hkv & _). eauto.
Qed.

Lemma wpE_persistEncryptions T S n a ps w Q :
  Rel T S n a w ps →
  (∀ w' a' S' n', a' = a ∨ (∃ kb, a' = rekeyed (a_mem a) kb a) → Rel T S' n' a' w' ps → Q (Some (Ok ())) w') →
  (∀ e w' a' S' n', tried (a_mem a) a a' → Rel T S' n' a' w' ps → Q (Some (Err e)) w') →
  (∀ w' a', tried (a_mem a) a a' → R (restarted a') (mkSys (crash w') []) → Q None w') →
  wpE persistEncryptions Q w.
Proof.
  intros HR HQ HE HP. apply wpE_bind, wpE_gets. simpl. rewrite (rel_sealed _ _ _ _ _ _ HR).
  destruct (a_sealed a) eqn:Ho; [by eapply wpE_ret, HQ; [left|exact HR]|].
  apply wpE_bind, wpE_gets. simpl. destruct (0 <? _); [|by eapply wpE_ret, HQ; [left|exact HR]].
  destruct (Rel_open _ _ _ _ _ _ HR Ho) as (k & Hk & Hok & Hp & _).
  destruct (active_loc _ _ _ _ Hok Hp) as (l & kv & Hl & Hkv).
  apply wpE_bind. eapply wpE_the_keyring; [done|]. apply wpE_bind. eapply wpE_nonnil; [done|].
  apply wpE_bind. eapply wpE_load; [done|]. apply wpE_bind, wpE_store.
  set (kv1 := set_Encryptions _ kv). set (w1 := set_keys _ w).
  assert (Rel T S n a w1 ps) as HR1 by by apply Rel_count.
  apply wpE_bind, wpE_try. change (Clone k) with (mk (rootKey k) (keys k) (activeTerm k) (rotationConfig k)).
  eapply wpE_persist; [exact HR1|done| |exact Hp|..].
  - assert (keyring_ok (b_keys w1) (b_roots w1) k T (a_mem a)) as []; [|by split].
    eapply keyring_ok_mono; [|done|exact Hok]. eapply heap_upto_insert; [done..|]. apply wf_count.
  - intros kb d w2 HR2 _. apply wpE_bar_modify. eapply HQ; [right; eauto|]. by eapply Rel_quiet in HR2.
  - intros e d w2 a' S' n' Ha' HR2 Hd2. pose proof (on_disk_kept T _ _ _ Hd2) as Hk2.
    assert (b_keys w2 !! l = Some kv1) as Hkv1.
    { rewrite (k_keys _ _ _ Hk2). simpl. apply list_lookup_insert_eq. by eapply lookup_lt_Some. }
    apply wpE_bind. eapply wpE_load; [done|]. apply wpE_bind, wpE_store, wpE_throw.
    eapply HE; [done|]. apply Rel_count; [exact HR2|done].
  - exact HP.
Qed.

Lemma sim_AutoRotate T S n a ps w :
  Rel T S n a w ps → sim (spec OAutoRotate a) ps (run_op OAutoRotate) w.
Proof.
  intros HR. pose proof (rel_sealed _ _ _ _ _ _ HR) as Hs.
  assert (∀ s w' a' S' n', a' = a ∨ (∃ kb, a' = rekeyed (a_mem a) kb a) → Rel T S' n' a' w' ps →
    ∃ a', spec OAutoRotate a (Some (Ok (VText s))) a' ∧
      R a' (after (Some (Ok (VText s)) : reply) w' ps)) as HN.
  { intros s w' a' S' n' Ha' HR'. exists a'. split; [|by eapply R_intro].
    destruct Ha' as [-> |[kb ->]]; [by right; eauto|by left; left; eauto 10]. }
  apply wpE_bind, wpE_bind, wpE_get_keyring. destruct (a_sealed a) eqn:Ho.
  { destruct (mi_sealed _ _ (rel_mem _ _ _ _ _ _ HR) Hs) as [Hk _]. rewrite Hk.
    apply wpE_bind, wpE_ret. rewrite decide_True by done. apply wpE_bind, wpE_get_keyring. rewrite Hk.
    apply wpE_ret, wpE_ret. eapply HN; [by left|exact HR]. }
  destruct (Rel_open _ _ _ _ _ _ HR Ho) as (k & Hk & Hok & Hp & _). rewrite Hk.
  apply wpE_bind. eapply wpE_rotation_reason; [done..|]. intros s w1 Hq1.
  apply (Rel_quiet _ _ _ _ _ w1) in HR; [|done].
  case_decide; [|eapply wpE_ret, wpE_ret, HN; [by left|exact HR]].
  apply wpE_bind, wpE_get_keyring. rewrite (q_keyring _ _ Hq1), Hk. apply wpE_bind.
  eapply wpE_persistEncryptions; [exact HR|..].
  - intros w2 a' S' n' Ha' HR2. eapply wpE_ret, wpE_ret, HN; done.
  - intros e w2 a' S' n' Ha' HR2. exists a'. split; [left; right; left; eauto|by eapply R_intro].
  - intros w2 a' Ha' HR2. exists (restarted a'). split; [|done]. left; right; right. eauto.
Qed.

(** ** Refinement *)

Lemma step_sim o a s :
  R a s → admissible o a (s_world s) → ∃ a', spec o a (step o s).1 a' ∧ R a' (step o s).2.
Proof.
  destruct s as [w ps]. intros (T & S & n & HR) Hadm. simpl in HR, Hadm.
  assert (sim (spec o a) ps (run_op o) w → step o (mkSys w ps) =
    (let '(r, w') := run_op o w in (r, after r w' ps)) →
    ∃ a', spec o a (step o (mkSys w ps)).1 a' ∧ R a' (step o (mkSys w ps)).2) as Hrun.
  { unfold sim, wpE. intros Hsim ->. by destruct (run_op o w). }
  destruct o; first [by eapply sim_Begin|by eapply sim_End|apply Hrun; [|done]|idtac].
  - exists (restarted a). split; [done|]. exists T, S, n. by eapply Rel_restart.
  - by eapply sim_Get.
  - by eapply sim_Put.
  - by eapply sim_Delete.
  - by eapply sim_List.
  - by eapply sim_Initialize.
  - by eapply sim_Unseal.
  - by eapply sim_Seal.
  - by eapply sim_Rotate.
  - by eapply sim_Rekey.
  - by eapply sim_SetRoot.
  - by eapply sim_ReloadKeyring.
  - by eapply sim_ReloadRoot.
  - by eapply sim_CreateUpgrade.
  - by eapply sim_DestroyUpgrade.
  - by eapply sim_CheckUpgrade.
  - by eapply sim_SetConfig.
  - by eapply sim_AutoRotate.
  - by eapply sim_AddRemote.
  - by eapply sim_Consume.
  - by eapply sim_Verify.
  - by eapply sim_Encrypt.
  - by eapply sim_Decrypt.
Qed.
End sim_keys.
