(* ===== verification/BarrierTheorems.v ===== *)
(** * What the barrier promises *)

From S2P Require Import Prelude GoLib GoSplit Utf8 Storage StorageFacts Core Scenario AesGcm Encoding BarrierState KeyringOps Barrier BarrierScenario BarrierLogic BarrierCrypt KeyringFacts BarrierInv BarrierOps BarrierRefine BarrierSim BarrierSimKeys.
Import Keyring.

Section initialize.
Context `{AEAD} `{RadixTree} `{BEnv} `{TermRange} `{JsonText}.
Hypothesis clock_ok : ∀ n, time_json_ok (be_clock n) = true.

(** A new store: sealed, empty but for the seal's key, its keyring and its root
    key, which is sealed under the first encryption key [kb]. *)
Definition new_own (key kb : string) : Own := mkOwn {[keyringPath; rootKeyPath]} key kb.
Definition new_state (key sealKey kb : string) : A :=
  mkA (if 0 <? slen sealKey then {[shamirKekPath := sealKey]} else ∅) true key key [] [] (new_own key kb).

(** The disk after the first keyring is written. *)
Lemma disk_inv_new M root m :
  persisted M 1 root ∅ m → disk_inv M M 1 root ∅ m.
Proof.
  intros (m1 & kb & ct & (ct1 & kvs & c & -> & Hrep & Hc & Hroot & Hct1) & HM & Hct & ->).
  assert (∀ k, k ≠ keyringPath → k ≠ rootKeyPath →
    <[rootKeyPath := ct]> (<[keyringPath := ct1]> (∅ : gmap string string)) !! k = None) as Hnone.
  { intros k ? ?. rewrite !lookup_insert_ne by done. apply lookup_empty. }
  split; [|done|..].
  - exists ct1, kvs, c. rewrite lookup_insert_ne, lookup_insert_eq by done. done.
  - intros k Hk. rewrite Hnone, lookup_empty; [done|by intros ->..].
  - intros t ct' _. rewrite Hnone by apply upgrade_not_keyring. done.
  - intros ct'. rewrite lookup_insert_eq. intros [= <-]. apply ct_length in Hct. lia.
Qed.

Lemma own_inv_new M root m :
  persisted M 1 root ∅ m → ∃ kb, own_inv (new_own root kb) ∅ m.
Proof.
  intros (m1 & kb & ct & (ct1 & kvs & c & -> & _) & _ & Hct & ->). exists kb. split; simpl.
  - intros k. rewrite elem_of_union, !elem_of_singleton, !lookup_insert_is_Some, lookup_empty. split.
    + intros [-> | ->]; auto.
    + intros [_ [<-|[_ [<-|[_ [? ?]]]]]]; auto. done.
  - done.
  - exists 1, ct. by rewrite lookup_insert_eq.
Qed.

Lemma empty_not_initialised Q w :
  b_store w = ∅ → bar_initialized (b_bar w) = false →
  (∀ w', quiet w w' → Q (Some (Ok false)) w') →
  (∀ e w', Q (Some (Err e)) w') → wpE Initialized Q w.
Proof.
  intros Hempty Hflag HQ HE. apply wpE_bind, wpE_gets. simpl. rewrite Hflag.
  apply wpE_bind, wpE_wrapf, wpE_disk_List; [|by intros; apply HE].
  intros l w1 Hq1 Hl. rewrite decide_False.
  2:{ intros Hin. apply (list_spec _ _ _ Hl) in Hin as (rest & [v Hv] & _).
      change (Inmem.root (b_disk w)) with (b_store w) in Hv. by rewrite Hempty, lookup_empty in Hv. }
  apply wpE_bind, wpE_wrapf, wpE_disk_Get; [|by intros; apply HE].
  intros w2 Hq2. assert (b_store w1 = ∅) as -> by (unfold b_store; by rewrite (q_disk _ _ Hq1)).
  rewrite lookup_empty. apply wpE_bind, wpE_bar_modify, wpE_ret, HQ. by repeat (etrans; [eassumption|]).
Qed.

(** The state once the first keyring is on disk. *)
Lemma Rel_new M root m w w1 w2 w3 :
  b_bar w = NewAESGCMBarrier → quiet w w1 → b_bar w2 = b_bar w1 → on_disk m w2 w3 →
  persisted M 1 root ∅ m → ∃ kb, Rel M M 1 (mkA ∅ true root root [] [] (new_own root kb)) w3 [].
Proof.
  intros Hw Hq1 Hb Hd Hm. destruct (own_inv_new _ _ _ Hm) as [kb Hown]. exists kb.
  assert (bar_sealed (b_bar w3) = true ∧ bar_keyring (b_bar w3) = None ∧ bar_cache (b_bar w3) = ∅ ∧
    currentAESGCMVersionByte (b_bar w3) = AESGCMVersion2) as (Hs & Hk & Hc & Hv).
  { destruct Hd as [-> -> -> -> _ _ _]. simpl. rewrite Hb. destruct Hq1 as [-> -> -> -> _ _ _].
    by rewrite Hw. }
  split; simpl; try done.
  - rewrite (on_disk_store _ _ _ Hd). by apply disk_inv_new.
  - split; [rewrite Hv; by right|done|congruence].
  - by rewrite (on_disk_store _ _ _ Hd).
Qed.

Lemma wpE_Initialize key sealKey Q w :
  b_store w = ∅ → b_bar w = NewAESGCMBarrier →
  (∀ kb w', R (new_state key sealKey kb) (mkSys w' []) → Q (Some (Ok ())) w') →
  (∀ e w', Q (Some (Err e)) w') → (∀ w', Q None w') →
  wpE (Initialize key sealKey) Q w.
Proof.
  intros Hempty Hbar HQ HE HP. unfold Initialize. destruct (negb _); [by apply wpE_throw|].
  apply wpE_bind, empty_not_initialised; [done|by rewrite Hbar| |done]. intros w1 Hq1.
  apply wpE_bind, wpE_wrapf, wpE_GenerateKey; [|done]. intros kb w2 Hq2 Hkb.
  assert (quiet w w2) as Hq by by etrans. clear w1 Hq1 Hq2.
  apply wpE_bind, wpE_bind, wpE_new_root, wpE_ret, wpE_bind, wpE_new_key.
  set (k0 := mk _ _ _ _). set (w3 := set_keys _ _).
  assert (keyring_ok (b_keys w3) (b_roots w3) k0 ∅ key) as Hk0.
  { split; simpl; try done.
    - intros t. rewrite lookup_empty. split; [by intros [? ?]|lia].
    - intros t. by rewrite lookup_empty.
    - exists (length (b_roots w2)). split; [done|]. by apply list_lookup_middle. }
  apply wpE_bind, wpE_wrapf.
  eapply (wpE_AddKey clock_ok _ _ _ _ _ (mkKey 1 1 kb 0 0)); [exact Hk0|by apply list_lookup_middle|done|done|].
  cbn [Term Value]. intros k w4 Hheap Hk _ Hact. rewrite <-(ho_roots _ _ Hheap) in Hk.
  assert (b_bar w4 = b_bar w2) as Hb4 by by rewrite (ho_bar _ _ Hheap).
  assert (b_store w4 = ∅) as Hs4.
  { unfold b_store. rewrite (ho_disk _ _ Hheap). simpl. by rewrite (q_disk _ _ Hq). }
  apply wpE_bind. eapply wpE_persistKeyring; [|exact Hk|lia| |by intros; apply HE|by intros; apply HP].
  { rewrite Hb4, (q_version _ _ Hq), Hbar. by right. }
  intros m w5. rewrite Hs4, Hact. intros Hm Hd5.
  destruct (Rel_new _ _ _ _ _ _ _ Hbar Hq Hb4 Hd5 Hm) as [kb' HR]. specialize (HQ kb').
  unfold new_state in HQ. destruct (0 <? slen sealKey); [|by apply wpE_ret, HQ; eexists _, _, _].
  apply wpE_bind, wpE_aeadFromKey; [intros _|done]. apply wpE_wrapf, wpE_putInternal; [by eapply Rel_version| |done|done].
  intros ct w6 Hct Hd6. apply HQ. eexists _, _, _.
  eapply (Rel_put _ _ _ (mkA ∅ true key key [] [] (new_own key kb'))); [exact HR|done| |exact Hct|exact Hd6].
  apply lookup_insert_eq.
Qed.

Lemma Initialize_R key sealKey w :
  b_store w = ∅ → b_bar w = NewAESGCMBarrier → (Initialize key sealKey w).1 = Some (Ok ()) →
  ∃ kb, R (new_state key sealKey kb) (mkSys (Initialize key sealKey w).2 []).
Proof.
  intros Hempty Hbar Hok. assert (wpE (Initialize key sealKey) (λ r w', r = Some (Ok ()) →
    ∃ kb, R (new_state key sealKey kb) (mkSys w' [])) w) as Hw by (apply wpE_Initialize; eauto; done).
  by apply Hw.
Qed.
End initialize.

(** ** Refinement *)

Section refinement.
Context `{AEAD} `{RadixTree} `{BEnv} `{TermRange} `{JsonText}.

(** The run of [os] from [s] is one of the store [a]: as long as each
    operation is admissible, each does what it promises, and the system
    stands for the store at the end. *)
Fixpoint refines (os : list Op) (a : A) (s : Sys) : Prop :=
  match os with
  | [] => R a s
  | o :: os =>
      admissible o a (s_world s) →
      ∃ a', spec o a (step o s).1 a' ∧ refines os a' (step o s).2
  end.

Lemma R_refines os a s :
  (∀ n, time_json_ok (be_clock n) = true) → R a s → refines os a s.
Proof.
  intros Hclock. revert a s. induction os as [|o os IH]; intros a s HR; [done|]. intros Hadm.
  destruct (step_sim Hclock _ _ _ HR Hadm) as (a' & Hspec & HR'). eauto.
Qed.

(** C8: a barrier initialised on an empty disk is, for every sequence of
    admissible operations that follows, a store of plain values.  Whatever fails
    on disk, and whether the process stops between operations or panics, every
    read, write, rotation, rekeying, seal, reload, upgrade and ciphertext
    answers as the store's state says; a list names the children of the data
    and of the barrier's own entries; only the root key unseals, and a reload
    of the root key takes the one the barrier stored; a write that reports an
    error has taken effect or not, and nothing else changes.  Admissible are
    reads and writes of paths that are not the barrier's own, and keys that do
    not open an entry sealed under another one. *)
Theorem barrier_refines (key sealKey : string) (w : BWorld) (os : list Op) :
  (∀ n, time_json_ok (be_clock n) = true) →
  b_store w = ∅ → b_bar w = NewAESGCMBarrier →
  (Initialize key sealKey w).1 = Some (Ok ()) →
  ∃ kb, refines os (new_state key sealKey kb) (mkSys (Initialize key sealKey w).2 []).
Proof.
  intros Hclock Hempty Hbar Hok. destruct (Initialize_R Hclock _ _ _ Hempty Hbar Hok) as [kb HR].
  exists kb. by apply R_refines.
Qed.
End refinement.

(** A day in the life of a barrier. *)
Definition day0 : list Op :=
  [OUnseal root0; OPut "a/x" "hello"; OBegin "a/y" "world"; ORotate; OEnd 0; OSeal;
   OUnseal root0; OGet "a/x"; OGet "a/y"; OList "a/"; OStop; OUnseal root0; OReloadRoot; OList ""].

(** The answers of the operations, in order. *)
Fixpoint replies `{AEAD} `{RadixTree} `{BEnv} `{TermRange} `{JsonText} (os : list Op) (s : Sys) : list reply :=
  match os with [] => [] | o :: os => (step o s).1 :: replies os (step o s).2 end.

Example day0_replies :
  replies day0 (mkSys (Initialize root0 "kek" bworld0).2 []) =
  (Some ∘ Ok) <$> [VUnit; VUnit; VUnit; VTerm 2; VUnit; VUnit; VUnit; VEntry (Some "hello");
                   VEntry (Some "world"); VNames ["y"; "x"]; VUnit; VUnit; VUnit; VNames ["core/"; "a/"]].
Proof. vm_compute. reflexivity. Qed.

Lemma clock0_ok n : time_json_ok (be_clock n) = true.
Proof.
  unfold time_json_ok. simpl. pose proof (Z.mod_pos_bound (Z.of_nat n) 1000000).
  rewrite andb_true_iff, Z.leb_le, Z.ltb_lt. 
  assert (t2025 + 1000000 * Second < 3652059 * 24 * Hour) by done.
  assert (0 < t2025) by done. assert (Second = 1000000000) as Hsec by done. 
  assert (0 < Hour) by done. rewrite Hsec in *. lia.
Qed.

Lemma barrier_refines_witness :
  ∃ kb, refines day0 (new_state root0 "kek" kb) (mkSys (Initialize root0 "kek" bworld0).2 []).
Proof.
  apply (barrier_refines root0 "kek" bworld0 day0).
  - exact clock0_ok.
  - reflexivity.
  - reflexivity.
  - vm_compute. reflexivity.
Defined.

(** The barrier of the example once initialised. *)
Definition started0 : Sys := mkSys (Initialize root0 "kek" bworld0).2 [].

Lemma started0_R : ∃ kb, R (new_state root0 "kek" kb) started0.
Proof. apply (Initialize_R clock0_ok); [done|done|]. vm_compute. reflexivity. Qed.

Lemma started0_calm : calm (s_world started0).
Proof.
  split; try (vm_compute; reflexivity).
  intros n k _. split; [done|]. simpl. induction k as [|k IH]; [done|]. simpl. by rewrite IH.
Qed.

(** ** Liveness *)

Section liveness.
Context `{AEAD} `{RadixTree} `{BEnv} `{TermRange} `{JsonText}.
Implicit Types (a : A) (w : BWorld) (ps : list pending).

Lemma calm_kept T w w' : kept T w w' → b_disk w' = b_disk w → calm w → calm w'.
Proof.
  intros Hk Hd Hc. apply (calm_quiet w (mkBWorld (b_bar w) (b_keys w) (b_roots w) (b_disk w) (b_tick w'))) in Hc.
  - destruct Hc. split; simpl in *; rewrite ?Hd; done.
  - split; try done. apply (k_tick _ _ _ Hk).
Qed.

(** The root key unseals, and the keys on disk come into use. *)
Lemma live_Unseal T S n a w ps Q :
  Rel T S n a w ps → a_sealed a = true → calm w →
  (∀ w', Rel S S n (opened a) w' ps → calm w' → Q (Some (Ok ())) w') →
  wpE (Unseal (a_root a)) Q w.
Proof.
  intros HR Ho Hc HQ. apply wpE_bind, wpE_gets. simpl. rewrite (rel_sealed _ _ _ _ _ _ HR), Ho. simpl.
  destruct (di_keyring _ _ _ _ _ _ (rel_disk _ _ _ _ _ _ HR))
    as (ct & kvs & c & Hct & Hrep & Hconf & Hroot & Hof).
  apply wpE_bind, wpE_aeadFromKey; [intros _|congruence].
  apply wpE_bind, wpE_wrapf, wpE_disk_Get; [|done]. rewrite Hct. intros w1 Hq1.
  apply wpE_bind. eapply wpE_open_stored_own; [exact Hof|].
  apply wpE_bind, wpE_wrapf. eapply wpE_recoverKeyring; [done..|]. intros k w2 Hb2 Hd2 Ht2 Hk2 Hp2.
  apply wpE_bar_modify, HQ.
  - eapply (Rel_opened _ _ _ _ w1); [by eapply Rel_quiet|done| |done|done]. simpl. by rewrite Hb2.
  - apply (calm_quiet _ _ Hq1) in Hc. destruct Hc. split; simpl; rewrite ?Hd2, ?Ht2; done.
Qed.

Lemma live_Get T S n a w ps k Q :
  Rel T S n a w ps → a_sealed a = false → calm w → reserved k = false →
  (∀ w', Rel T S n a w' ps → calm w' → Q (Some (Ok (a_data a !! k))) w') →
  wpE (Get k) Q w.
Proof.
  intros HR Ho Hc Hk HQ. pose proof (rel_sealed _ _ _ _ _ _ HR) as Hs.
  apply (wpE_Get_entry T k (a_data a !! k)); [apply HR|by intros; eapply Rel_range|..|done].
  - by apply (di_data _ _ _ _ _ _ (rel_disk _ _ _ _ _ _ HR)).
  - congruence.
  - intros w' _ Hk' Hd'. apply HQ; [by eapply Rel_kept|by eapply calm_kept].
Qed.

Lemma live_Put T S n a w ps k v Q :
  Rel T S n a w ps → a_sealed a = false → calm w → reserved k = false → ¬ oversize v →
  (∀ w', Rel T S n (with_data (<[k := v]> (a_data a)) a) w' ps → calm w' → Q (Some (Ok ())) w') →
  wpE (Put k v) Q w.
Proof.
  intros HR Ho Hc Hk Hv HQ. pose proof (rel_sealed _ _ _ _ _ _ HR) as Hs.
  apply wpE_bind, (wpE_active_aead T); [apply HR|congruence|]. intros t kb w1 _ Hk1 Hd1 HT.
  apply (Rel_kept _ _ _ _ _ w1) in HR; [|done..]. apply (calm_kept _ _ w1) in Hk1 as Hc1; [|done..].
  apply wpE_putInternal; [by eapply Rel_version| |by intros ? ? ? _ [?|?]|done].
  intros ct w2 Hct Hd2. apply HQ; [|by eapply calm_on_disk].
  by eapply Rel_put.
Qed.

(** C9: Whatever happened before, once storage and randomness no longer fail the key that the store was last keyed with unseals the barrier, every value is there, and a write is read back. *)
Theorem barrier_lives a (s : Sys) (k v : string) :
  R a s → calm (s_world s) → a_sealed a = true → reserved k = false → ¬ oversize v →
  ((_ ← Unseal (a_root a); x ← Get k; _ ← Put k v; y ← Get k; mret (x, y)) (s_world s)).1 =
  Some (Ok (a_data a !! k, Some v)).
Proof.
  intros (T & S & n & HR) Hc Ho Hk Hv.
  enough (wpE (_ ← Unseal (a_root a); x ← Get k; _ ← Put k v; y ← Get k; mret (x, y))
    (λ r _, r = Some (Ok (a_data a !! k, Some v))) (s_world s)) by done.
  apply wpE_bind. eapply live_Unseal; [done..|]. intros w1 HR1 Hc1.
  apply wpE_bind. eapply live_Get; [done..|]. intros w2 HR2 Hc2.
  apply wpE_bind. eapply live_Put; [done..|]. intros w3 HR3 Hc3.
  apply wpE_bind. eapply live_Get; [done..|]. intros w4 _ _. apply wpE_ret. simpl.
  by rewrite lookup_insert_eq.
Qed.
End liveness.

Lemma barrier_lives_witness :
  ((_ ← Unseal root0; x ← Get shamirKekPath; _ ← Put shamirKekPath "new"; y ← Get shamirKekPath;
    mret (x, y)) (s_world started0)).1 = Some (Ok (Some "kek", Some "new")).
Proof.
  destruct started0_R as [kb HR].
  apply (barrier_lives (new_state root0 "kek" kb) started0 shamirKekPath "new").
  - exact HR.
  - exact started0_calm.
  - reflexivity.
  - reflexivity.
  - unfold oversize, gcm_limit, slen. simpl. lia.
Defined.

(** ** Safety *)

Section safety.
Context `{AEAD} `{RadixTree} `{BEnv} `{TermRange} `{JsonText}.
Implicit Types (a : A) (w : BWorld).

(** The node [w] on a disk with the entries [m]. *)
Definition tampered (m : gmap string string) w : BWorld :=
  set_disk (Inmem.set_root m (b_disk w)) w.

(** The entry [ct] was sealed under [kb] with the text [v], by version 2 for
    the path [k], or by version 1, which binds no path. *)
Definition sealed_for (t : Z) (kb k v ct : string) : Prop :=
  ∃ nonce, String.length nonce = NonceSize ∧
    (ct = layout t AESGCMVersion2 nonce (gcm_Seal kb nonce v k) ∨
     ct = layout t AESGCMVersion1 nonce (gcm_Seal kb nonce v "")).

Lemma ct_of_sealed t kb k v ct : ct_of t kb k v ct → sealed_for t kb k v ct.
Proof. intros (ver & nonce & [-> | ->] & Hn & ->); exists nonce; split; auto. Qed.

(** C10: against a disk that anyone may have rewritten, a read returns only what
    was sealed under a key of the keyring in memory, at the term the entry
    names.  An entry of version 2 was moreover sealed for that very path; an
    entry of version 1 carries no path, and is read wherever it was moved to.
    The read reports nothing only where there is nothing, everything else is an
    error, and only an entry of 17 to 28 bytes makes it panic. *)
Theorem Get_authentic a (s : Sys) (m : gmap string string) (k : string) :
  R a s →
  match (Get k (tampered m (s_world s))).1 with
  | Some (Ok None) => m !! k = None
  | Some (Ok (Some v)) => ∃ ct t kv, m !! k = Some ct ∧ in_keyring (s_world s) t kv ∧
      sealed_for t (Value kv) k v ct
  | Some (Err _) => True
  | None => ∃ ct, m !! k = Some ct ∧ (17 ≤ String.length ct < 29)%nat
  end.
Proof.
  intros (T & S & n & HR). pose proof (rel_mem _ _ _ _ _ _ HR) as Hm.
  assert (b_store (tampered m (s_world s)) = m) as Hstore by done.
  apply (wpE_Get_any T k (λ r _, match r with
    | Some (Ok None) => m !! k = None
    | Some (Ok (Some v)) => ∃ ct t kv, m !! k = Some ct ∧ in_keyring (s_world s) t kv ∧
        sealed_for t (Value kv) k v ct
    | Some (Err _) => True
    | None => ∃ ct, m !! k = Some ct ∧ (17 ≤ String.length ct < 29)%nat
    end)); [by destruct Hm|done|..|by eauto]; rewrite Hstore.
  intros [v|] w' Ho _ _ He; [|by destruct (m !! k)].
  destruct (m !! k) as [ct|]; [|done]. destruct He as (t & kb & HT & Hct).
  destruct (mem_inv_in_keyring _ _ _ _ Hm Ho HT) as (kv & Hkv & <-). eauto 10 using ct_of_sealed.
Qed.

(** C17: Sealing always succeeds and wipes: the barrier has neither keyring nor ciphers, and the bytes of the root key and of every key that the keyring had are zero in memory. *)
Theorem Seal_wipes a (s : Sys) :
  R a s →
  (Seal (s_world s)).1 = Some (Ok ()) ∧
  bar_sealed (b_bar (Seal (s_world s)).2) = true ∧
  bar_keyring (b_bar (Seal (s_world s)).2) = None ∧
  bar_cache (b_bar (Seal (s_world s)).2) = ∅ ∧
  (∀ k, bar_keyring (b_bar (s_world s)) = Some k →
     (∀ t l, keys k !! t = Some l → wiped (b_keys (Seal (s_world s)).2) l) ∧
     (∀ l, rootKey k = Some l → ∃ r, b_roots (Seal (s_world s)).2 !! l = Some r ∧ memzero r = r)).
Proof.
  intros (T & S & n & HR). set (w := s_world s) in *.
  pose (P (r : option (result error ())) (w' : BWorld) := r = Some (Ok ()) ∧
    bar_sealed (b_bar w') = true ∧ bar_keyring (b_bar w') = None ∧ bar_cache (b_bar w') = ∅ ∧
    (∀ k, bar_keyring (b_bar w) = Some k →
       (∀ t l, keys k !! t = Some l → wiped (b_keys w') l) ∧
       (∀ l, rootKey k = Some l → ∃ r, b_roots w' !! l = Some r ∧ memzero r = r))).
  enough (wpE Seal P w) by done.
  apply wpE_bind, wpE_bar_modify, wpE_bind, wpE_get_keyring, wpE_bind.
  cbn [b_bar set_bar bar_keyring set_cache]. destruct (a_sealed a) eqn:Ho.
  - pose proof (rel_sealed _ _ _ _ _ _ HR) as Hs. rewrite Ho in Hs.
    destruct (mi_sealed _ _ (rel_mem _ _ _ _ _ _ HR) Hs) as [Hk _]. unfold P. rewrite Hk.
    by apply wpE_ret, wpE_bar_modify.
  - destruct (Rel_open _ _ _ _ _ _ HR Ho) as (k & Hk & Hok & _). unfold P. rewrite Hk.
    eapply wpE_Zeroize_all; [exact Hok|]. intros w' Hb _ Hkeys Hroot. apply wpE_bar_modify.
    split; [done|]. split; [done|]. split; [done|]. split; [simpl; by rewrite Hb|].
    intros k' [= <-]. split; [done|]. intros l Hl. eexists. split; [by apply Hroot|].
    apply memzero_twice.
Qed.
End safety.

(** The barrier of the example, unsealed. *)
Definition unsealed0 : Sys := mkSys (Unseal root0 (s_world started0)).2 [].

Lemma unsealed0_R : ∃ kb, R (opened (new_state root0 "kek" kb)) unsealed0.
Proof.
  destruct started0_R as (kb & T & S & n & HR). cbn [started0 s_puts] in HR. exists kb.
  assert (wpE (Unseal root0) (λ _ w', R (opened (new_state root0 "kek" kb)) (mkSys w' [])) (s_world started0)) as Hw.
  { eapply (live_Unseal _ _ _ (new_state root0 "kek" kb)); [exact HR|done|exact started0_calm|].
    intros w' HR' _. exists S, S, n. exact HR'. }
  exact Hw.
Qed.

(** The entry of the seal's key copied to another path is refused. *)
Lemma Get_authentic_witness :
  match (Get "a" (tampered (<["a" := default "" (b_store (s_world unsealed0) !! shamirKekPath)]>
                              (b_store (s_world unsealed0))) (s_world unsealed0))).1 with
  | Some (Ok None) => <["a" := default "" (b_store (s_world unsealed0) !! shamirKekPath)]>
                        (b_store (s_world unsealed0)) !! "a" = None
  | Some (Ok (Some v)) => ∃ ct t kv,
      <["a" := default "" (b_store (s_world unsealed0) !! shamirKekPath)]>
        (b_store (s_world unsealed0)) !! "a" = Some ct ∧
      in_keyring (s_world unsealed0) t kv ∧ sealed_for t (Value kv) "a" v ct
  | Some (Err _) => True
  | None => ∃ ct, <["a" := default "" (b_store (s_world unsealed0) !! shamirKekPath)]>
                    (b_store (s_world unsealed0)) !! "a" = Some ct ∧
                  (17 ≤ String.length ct < 29)%nat
  end.
Proof.
  destruct unsealed0_R as [kb HR]. apply (Get_authentic (opened (new_state root0 "kek" kb)) unsealed0). exact HR.
Defined.

Example copied_entry_refused :
  (Get "a" (tampered (<["a" := default "" (b_store (s_world unsealed0) !! shamirKekPath)]>
                        (b_store (s_world unsealed0))) (s_world unsealed0))).1 =
  Some (Err (Errorf "decryption failed" ErrOpen)).
Proof. vm_compute. reflexivity. Qed.

Lemma Seal_wipes_witness :
  bar_keyring (b_bar (s_world unsealed0)) ≠ None ∧ (Seal (s_world unsealed0)).1 = Some (Ok ()).
Proof.
  split; [by vm_compute|].
  destruct unsealed0_R as [kb HR]. apply (Seal_wipes (opened (new_state root0 "kek" kb)) unsealed0). exact HR.
Defined.

#[global] Opaque started0 unsealed0.
