(* ===== verification/KeyringTheorems.v ===== *)
(** * What the keyring promises

    Rotation, the text of a keyring, the count of encryptions, the standby
    nodes that follow an upgrade. *)

From S2P Require Import Prelude GoLib GoSplit Utf8 Storage StorageFacts Core Scenario AesGcm Encoding BarrierState KeyringOps Barrier BarrierScenario BarrierLogic BarrierCrypt KeyringFacts BarrierInv BarrierOps BarrierRefine BarrierSim BarrierSimKeys BarrierTheorems.
Import Keyring.

(** ** Rotation *)

Section rotation.
Context `{AEAD} `{RadixTree} `{BEnv} `{TermRange} `{JsonText}.
Implicit Types (a : A) (w : BWorld).

Definition unacc w : Z := UnaccountedEncryptions (b_bar w).

(** The keys of [w] are in the keyring of [w'] too. *)
Definition keys_kept w w' : Prop :=
  ∀ t kv, in_keyring w t kv → ∃ kv', in_keyring w' t kv' ∧ Value kv' = Value kv.

Lemma Rel_keys_kept T S n T' S' n' a a' w w' ps ps' :
  Rel T S n a w ps → Rel T' S' n' a' w' ps' → a_sealed a = false → a_sealed a' = false → T ⊆ T' →
  keys_kept w w'.
Proof.
  intros HR HR' Ho Ho' HT t kv (k & l & Hk & Hl & Hkv).
  destruct (Rel_open _ _ _ _ _ _ HR Ho) as (k0 & Hk0 & Hok & _). rewrite Hk in Hk0. injection Hk0 as <-.
  destruct (ko_key _ _ _ _ _ Hok _ _ Hl) as (kv0 & Hkv0 & _ & _ & HTt).
  assert (kv0 = kv) as -> by congruence.
  eapply mem_inv_in_keyring; [apply HR'| |by eapply lookup_weaken].
  by rewrite (rel_sealed _ _ _ _ _ _ HR').
Qed.

Lemma Rel_has_keyring T S n a w ps k :
  Rel T S n a w ps → bar_keyring (b_bar w) = Some k → a_sealed a = false.
Proof.
  intros HR Hk. destruct (a_sealed a) eqn:Ho; [|done]. pose proof (rel_sealed _ _ _ _ _ _ HR) as Hs.
  rewrite Ho in Hs. destruct (mi_sealed _ _ (rel_mem _ _ _ _ _ _ HR) Hs) as [Hn _]. congruence.
Qed.

Lemma Rotate_overflow k w :
  bar_keyring (b_bar w) = Some k → activeTerm k = 2 ^ 32 - 1 → bar_sealed (b_bar w) = false →
  wpE Rotate (λ r w', (∃ e, r = Some (Err e)) ∧ b_store w' = b_store w) w.
Proof.
  intros Hk Ht Ho. apply wpE_bind, wpE_unsealed; [congruence|]. intros _.
  apply wpE_bind, wpE_wrapf, wpE_GenerateKey.
  - intros key w1 Hq1 _. apply wpE_bind. eapply wpE_the_keyring; [by rewrite (q_keyring _ _ Hq1)|].
    unfold ActiveTerm. rewrite Ht. apply wpE_throw. split; [eauto|]. unfold b_store. by rewrite (q_disk _ _ Hq1).
  - intros e w1 Hq1. split; [eauto|]. unfold b_store. by rewrite (q_disk _ _ Hq1).
Qed.

(** The outcome of a rotation of the keyring [k] of [w]. *)
Definition rotated (k : t) w (r : option (result error Z)) w' : Prop :=
  match r with
  | Some (Ok t) => t = activeTerm k + 1 ∧ t < 2 ^ 32 ∧
      (∃ k', bar_keyring (b_bar w') = Some k' ∧ activeTerm k' = t) ∧
      unacc w' = 0 ∧ keys_kept w w'
  | Some (Err _) => keys_kept w w'
  | None => True
  end.

(** C18: A rotation moves to the next term, never past the 32 bits of a term: at the last term it is refused and nothing is written.  Whether it succeeds or fails no key is lost from memory, and a success restarts the count of encryptions. *)
Theorem Rotate_next a (s : Sys) (k : t) :
  (∀ n, time_json_ok (be_clock n) = true) → R a s →
  bar_keyring (b_bar (s_world s)) = Some k →
  rotated k (s_world s) (Rotate (s_world s)).1 (Rotate (s_world s)).2 ∧
  (activeTerm k = 2 ^ 32 - 1 →
     (∃ e, (Rotate (s_world s)).1 = Some (Err e)) ∧
     b_store (Rotate (s_world s)).2 = b_store (s_world s)).
Proof.
  intros Hclock (T & S & n & HR) Hk. set (w := s_world s) in *.
  assert (a_sealed a = false) as Ho by by eapply Rel_has_keyring.
  split.
  - change (wpE Rotate (rotated k w) w).
    eapply (wpE_Rotate Hclock); [exact HR|done|exact Hk|..|done].
    + intros key kb k' w' Hlt HR' Hk' Ht' Hu. destruct (Rel_open _ _ _ _ _ _ HR Ho) as (k0 & Hk0 & Hok & _).
      rewrite Hk in Hk0. injection Hk0 as <-.
      split; [done|]. split; [done|]. split; [eauto|]. split; [done|].
      eapply Rel_keys_kept; [exact HR|exact HR'|done|done|]. by eapply sub_next.
    + intros e w' a' S' n' Ha' HR'. eapply Rel_keys_kept; [exact HR|exact HR'|done| |done].
      by destruct Ha' as [-> |[-> |[kb ->]]].
  - intros Ht. apply (Rotate_overflow k); [done|done|]. by rewrite (rel_sealed _ _ _ _ _ _ HR).
Qed.
End rotation.

(** ** The text of a keyring *)

Section text.
Context `{AEAD} `{RadixTree} `{BEnv} `{TermRange} `{JsonText}.

(** The key of a term and the root key, through the pointers. *)
Definition key_at (ks : list Key) (k : t) (term : Z) : option Key :=
  match keys k !! term with Some l => ks !! l | None => None end.
Definition root_of (rs : list string) (k : t) : option string :=
  match rootKey k with Some l => rs !! l | None => None end.

Lemma same_keys ks rs ks' rs' k k' T root kvs (term : Z) :
  keyring_ok ks rs k T root → keyring_ok ks' rs' k' T root → activeTerm k' = activeTerm k →
  Forall2 (λ p kv, ks !! p.2 = Some kv) (range_terms (keys k)) kvs → represents kvs T (activeTerm k) →
  installed ks' k' kvs →
  key_at ks' k' term = key_at ks k term.
Proof.
  intros Hk Hk' Hact Hls Hrep Hins. unfold key_at. destruct (keys k !! term) as [l|] eqn:Hl; cycle 1.
  { destruct (keys k' !! term) as [l'|] eqn:Hl'; [|done]. exfalso.
    assert (is_Some (keys k' !! term)) as Hs by (exists l'; exact Hl').
    apply (ko_seq _ _ _ _ _ Hk') in Hs. rewrite Hact in Hs. apply (ko_seq _ _ _ _ _ Hk) in Hs as [? ?].
    congruence. }
  destruct (ko_key _ _ _ _ _ Hk _ _ Hl) as (kv & Hkv & Ht & _).
  assert (kv ∈ kvs) as Hin.
  { assert ((term, l) ∈ range_terms (keys k)) as [i Hi]%list_elem_of_lookup
      by (rewrite range_terms_perm; by apply elem_of_map_to_list).
    destruct (Forall2_lookup_l _ _ _ _ _ Hls Hi) as (kv' & Hi' & Hkv'). simpl in Hkv'.
    assert (kv' = kv) as -> by congruence. by eapply list_elem_of_lookup_2. }
  destruct (ins_all _ _ _ Hins _ Hin) as [[l' Hl'] _]. rewrite Ht in Hl'.
  destruct (ins_key _ _ _ Hins _ _ Hl') as (kv' & Hkv' & Ht' & Hin').
  rewrite Hl'. simpl. rewrite Hkv, Hkv'. f_equal.
  apply list_elem_of_lookup in Hin as [i Hi]. apply list_elem_of_lookup in Hin' as [j Hj].
  assert (i = j) as ->; [|congruence].
  eapply (NoDup_lookup (Term <$> kvs)); [apply Hrep|rewrite list_lookup_fmap, Hi; simpl; by rewrite Ht|].
  rewrite list_lookup_fmap, Hj. simpl. congruence.
Qed.

(** C19: The text of a keyring, whatever the order in which its map is walked, is read back as the same keyring: each term has its key with its bytes, its time and its count, and the root key, the active term and the sanitised configuration are there. *)
Theorem keyring_roundtrip (w : BWorld) (k : t) (T : gmap Z string) (root : string) :
  keyring_ok (b_keys w) (b_roots w) k T root → 1 ≤ activeTerm k →
  match (buf ← Serialize k; DeserializeKeyring buf) w with
  | (Some (Ok k'), w') => activeTerm k' = activeTerm k ∧
      rotationConfig k' = Sanitize (rotationConfig k) ∧
      root_of (b_roots w') k' = root_of (b_roots w) k ∧
      ∀ term, key_at (b_keys w') k' term = key_at (b_keys w) k term
  | _ => False
  end.
Proof.
  intros Hk Hp.
  assert (wpE (buf ← Serialize k; DeserializeKeyring buf) (λ r w', match r with
    | Some (Ok k') => activeTerm k' = activeTerm k ∧
        rotationConfig k' = Sanitize (rotationConfig k) ∧
        root_of (b_roots w') k' = root_of (b_roots w) k ∧
      ∀ term, key_at (b_keys w') k' term = key_at (b_keys w) k term
    | _ => False
    end) w) as Hw; [|unfold wpE in Hw; by destruct (Serialize k ≫= _) as [[[]|] ?]].
  destruct (keyring_listed _ _ _ _ _ Hk Hp) as (kvs & Hls & Hrep).
  apply wpE_bind. eapply wpE_Serialize_listed; [exact Hk|exact Hls|exact Hrep|].
  eapply wpE_DeserializeKeyring; [exact Hrep|apply (ko_config _ _ _ _ _ Hk)|].
  intros k' w' Hw' Hk' Hact Hins Hconf. split; [done|]. split; [done|]. split.
  - unfold root_of. destruct (ko_root _ _ _ _ _ Hk) as (l & -> & Hr).
    destruct (ko_root _ _ _ _ _ Hk') as (l' & -> & Hr'). simpl. congruence.
  - intros term. by eapply same_keys.
Qed.
End text.

(** ** The count of encryptions *)

Section counting.
Context `{AEAD} `{RadixTree} `{BEnv} `{TermRange} `{JsonText}.

(** An operation that counts nothing, and one that counts an encryption. *)
Definition still {B} (m : E B) : Prop := ∀ w, unacc (m w).2 = unacc w.
Definition counts {B} (m : E B) : Prop :=
  ∀ w, match m w with
       | (Some (Ok _), w') => unacc w' = wrap64 (unacc w + 1)
       | (_, w') => unacc w' = unacc w ∨ unacc w' = wrap64 (unacc w + 1)
       end.

Lemma still_bind {A B} (m : E A) (f : A → E B) : still m → (∀ x, still (f x)) → still (m ≫= f).
Proof.
  intros Hm Hf w. specialize (Hm w). unfold mbind, E_bind.
  destruct (m w) as [[[x|e]|] w']; simpl in *; [by rewrite Hf|done..].
Qed.

Lemma still_wrapf {B} msg (m : E B) : still m → still (wrapf msg m).
Proof. intros Hm w. specialize (Hm w). unfold wrapf. by destruct (m w) as [[[]|] ?]. Qed.

Lemma counts_bind_l {A B} (m : E A) (f : A → E B) : still m → (∀ x, counts (f x)) → counts (m ≫= f).
Proof.
  intros Hm Hf w. specialize (Hm w). unfold mbind, E_bind.
  destruct (m w) as [[[x|e]|] w']; simpl in *; [|by left..]. rewrite <-Hm. apply Hf.
Qed.

Lemma counts_bind_r {A B} (m : E A) (f : A → E B) : counts m → (∀ x, still (f x)) → counts (m ≫= f).
Proof.
  intros Hm Hf w. specialize (Hm w). unfold mbind, E_bind.
  destruct (m w) as [[[x|e]|] w']; simpl in *; [|done..]. specialize (Hf x w').
  destruct (f x w') as [[[]|] w2]; simpl in *; [congruence|right; congruence..].
Qed.

Lemma counts_wrapf {B} msg (m : E B) : counts m → counts (wrapf msg m).
Proof. intros Hm w. specialize (Hm w). unfold wrapf. by destruct (m w) as [[[]|] ?]. Qed.

Lemma still_nonnil {B} (o : option B) : still (nonnil o).
Proof. by destruct o. Qed.

Lemma still_load l : still (load l).
Proof. apply still_bind; [done|]. intros. apply still_nonnil. Qed.

Lemma still_load_all ls : still (load_all ls).
Proof.
  induction ls as [|[? ?] ls IH]; [done|]. apply still_bind; [apply still_load|].
  intros ?. by apply still_bind.
Qed.

Lemma still_RootKey k : still (RootKey k).
Proof.
  unfold RootKey. destruct (rootKey k); [|done]. apply still_bind; [done|]. intros ?.
  apply still_bind; [apply still_nonnil|done].
Qed.

Lemma still_Marshal times v : still (Marshal times v).
Proof. unfold Marshal. by case_match. Qed.

Lemma still_Serialize k : still (Serialize k).
Proof.
  apply still_bind; [apply still_RootKey|]. intros ?. apply still_bind; [apply still_load_all|].
  intros ?. apply still_Marshal.
Qed.

Lemma still_aeadFromKey key : still (aeadFromKey key).
Proof. unfold aeadFromKey. by case_match. Qed.

Lemma still_encrypt path term gcm plain : still (encrypt path term gcm plain).
Proof.
  unfold encrypt. apply still_bind; [apply still_nonnil|]. intros ?. case_match; [done|].
  apply still_bind; [done|]. intros ?. apply still_bind; [done|]. intros [? []]; [done|].
  by repeat case_match.
Qed.

Lemma still_disk_Put k v : still (disk_Put k v).
Proof. intros w. unfold disk_Put, disk_write. by repeat case_match. Qed.

Lemma still_TermKey k term : still (TermKey k term).
Proof. unfold TermKey. case_match; [|done]. apply still_bind; [apply still_load|done]. Qed.

Lemma counts_encryptTracked path term gcm plain : counts (encryptTracked path term gcm plain).
Proof. apply counts_bind_l; [apply still_encrypt|]. done. Qed.

Lemma counts_persistKeyring k : counts (persistKeyring k).
Proof.
  apply counts_bind_l.
  - apply still_bind; [apply still_wrapf, still_Serialize|]. intros ?.
    apply still_bind; [apply still_RootKey|]. intros ?.
    apply still_bind; [apply still_wrapf, still_aeadFromKey|]. intros ?.
    apply still_bind; [apply still_wrapf, still_encrypt|]. intros ?.
    apply still_wrapf, still_disk_Put.
  - intros _. apply counts_bind_l; [apply still_RootKey|]. intros ?.
    apply counts_bind_l; [apply still_wrapf, still_Marshal|]. intros ?.
    apply counts_bind_l; [apply still_TermKey|]. intros ?.
    apply counts_bind_l; [apply still_nonnil|]. intros ?.
    apply counts_bind_l; [apply still_wrapf, still_aeadFromKey|]. intros ?.
    apply counts_bind_r; [apply counts_wrapf, counts_encryptTracked|]. intros ?.
    apply still_wrapf, still_disk_Put.
Qed.

Lemma wrap64_small z : - 2 ^ 63 ≤ z < 2 ^ 63 → wrap64 z = z.
Proof. intros. unfold wrap64. rewrite Z.mod_small; lia. Qed.

Lemma uint64_small z : 0 ≤ z < 2 ^ 64 → uint64 z = z.
Proof. intros. unfold uint64. by rewrite Z.mod_small. Qed.

(** The outcome of accounting for [n] encryptions, the active key of [k]
    having had [e]. *)
Definition accounted (k : t) (e n : Z) (r : option (result error ())) (w' : BWorld) : Prop :=
  match r with
  | Some (Ok _) => unacc w' = 0 ∧ ∃ kv, key_at (b_keys w') k (activeTerm k) = Some kv ∧
      Encryptions kv = e + n + 1
  | Some (Err _) => (unacc w' = n ∨ unacc w' = n + 1) ∧
      ∃ kv, key_at (b_keys w') k (activeTerm k) = Some kv ∧ Encryptions kv = e
  | None => True
  end.

Lemma wpE_persist_counted k l kv e n w w1 :
  keys k !! activeTerm k = Some l → b_keys w !! l = Some kv → Encryptions kv = e →
  unacc w = n → 0 < n → 0 ≤ e → e + n + 1 < 2 ^ 63 →
  w1 = set_keys (<[l := set_Encryptions (e + n + 1) kv]> (b_keys w)) w →
  wpE (persistKeyring (Clone k)) (λ _ w', b_keys w' = b_keys w1) w1 →
  wpE (r ← try (persistKeyringBestEffort (Clone k));
       match r with
       | Err err =>
           activeKey ← load l;
           _ ← store l (set_Encryptions (uint64 (Encryptions activeKey - (n + 1))) activeKey);
           throw err
       | Ok _ => add_Unaccounted (- (n + 1))
       end) (accounted k e n) w1.
Proof.
  intros Hl Hkv He Hn Hpos Hge Hlt -> Hkeys. set (w1 := set_keys _ w) in *.
  assert (b_keys w1 !! l = Some (set_Encryptions (e + n + 1) kv)) as Hkv1.
  { apply list_lookup_insert_eq. by eapply lookup_lt_Some. }
  pose proof (counts_persistKeyring (Clone k) w1) as Hcount. unfold wpE in Hkeys.
  apply wpE_bind, wpE_try. unfold wpE at 1. change (persistKeyringBestEffort (Clone k)) with (persistKeyring (Clone k)).
  destruct (persistKeyring (Clone k) w1) as [[[]|] w']; simpl in *; [| |done];
    rewrite <-Hkeys in Hkv1; change (unacc w1) with (unacc w) in Hcount; rewrite Hn in Hcount.
  - apply wpE_bar_modify. split.
    + unfold unacc in *. simpl. rewrite Hcount, (wrap64_small (n + 1)), wrap64_small by lia. lia.
    + exists (set_Encryptions (e + n + 1) kv). unfold key_at. by rewrite Hl.
  - apply wpE_bind. eapply wpE_load; [done|]. apply wpE_bind, wpE_store, wpE_throw. split.
    + rewrite wrap64_small in Hcount by lia. exact Hcount.
    + eexists. unfold key_at. rewrite Hl. split; [apply list_lookup_insert_eq; by eapply lookup_lt_Some|].
      simpl. rewrite uint64_small by lia. lia.
Qed.

(** Accounting is exact: writing the keyring moves every unaccounted encryption, and the one that this very write makes, into the count of the active key; if the write fails the key has the count it had and the encryptions stay unaccounted. *)
Theorem persistEncryptions_exact a (s : Sys) (k : t) (kv : Key) :
  R a s → bar_keyring (b_bar (s_world s)) = Some k →
  key_at (b_keys (s_world s)) k (activeTerm k) = Some kv →
  0 < unacc (s_world s) → Encryptions kv + unacc (s_world s) + 1 < 2 ^ 63 →
  accounted k (Encryptions kv) (unacc (s_world s))
    (persistEncryptions (s_world s)).1 (persistEncryptions (s_world s)).2.
Proof.
  intros (T & S & n & HR) Hk Hkv Hpos Hlt. set (w := s_world s) in *.
  assert (a_sealed a = false) as Ho by (by eapply Rel_has_keyring).
  destruct (Rel_open _ _ _ _ _ _ HR Ho) as (k0 & Hk0 & Hok & Hp & _).
  rewrite Hk in Hk0. injection Hk0 as <-.
  unfold key_at in Hkv. destruct (keys k !! activeTerm k) as [l|] eqn:Hl; [|done].
  destruct (ko_key _ _ _ _ _ Hok _ _ Hl) as (kv0 & Hkv0 & _ & Hwf & _).
  assert (kv0 = kv) as -> by congruence. pose proof Hwf as ((_ & _ & Hge) & _).
  change (wpE persistEncryptions (accounted k (Encryptions kv) (unacc w)) w).
  apply wpE_bind, wpE_gets. simpl. rewrite (rel_sealed _ _ _ _ _ _ HR), Ho.
  apply wpE_bind, wpE_gets. simpl. change (UnaccountedEncryptions (b_bar w)) with (unacc w).
  destruct (Z.ltb_spec 0 (unacc w)); [|lia].
  apply wpE_bind. eapply wpE_the_keyring; [done|]. apply wpE_bind. eapply wpE_nonnil; [done|].
  apply wpE_bind. eapply wpE_load; [done|]. apply wpE_bind, wpE_store.
  rewrite (wrap64_small (unacc w + 1)) by lia.
  rewrite (uint64_small (Encryptions kv + (unacc w + 1))) by lia.
  rewrite Z.add_assoc. eapply (wpE_persist_counted k l kv); try first [done|lia].
  eapply (wpE_persistKeyring (Clone k) T (a_mem a)); [exact (Rel_version _ _ _ _ _ _ HR)| |exact Hp|..].
  - assert (keyring_ok (<[l := set_Encryptions (Encryptions kv + unacc w + 1) kv]> (b_keys w)) (b_roots w) k T
      (a_mem a)) as []; [|by split].
    eapply keyring_ok_mono; [|done|exact Hok]. eapply heap_upto_insert; [done..|].
    intros ((? & ? & ?) & ? & ?). split; [|done]. split; [done|]. split; [done|]. simpl. lia.
  - intros m w' _ Hd. apply (k_keys _ _ _ (on_disk_kept ∅ _ _ _ Hd)).
  - intros e m w' _ Hd _. apply (k_keys _ _ _ (on_disk_kept ∅ _ _ _ Hd)).
  - intros m w' _ Hd _. apply (k_keys _ _ _ (on_disk_kept ∅ _ _ _ Hd)).
Qed.
End counting.

(** ** Standby nodes *)

Section standby.
Context `{AEAD} `{RadixTree} `{BEnv} `{TermRange} `{JsonText}.
Implicit Types (w : BWorld).

(** The active node writes the key of a term for the nodes one term behind. *)
Lemma live_CreateUpgrade T w k kb kv Q :
  mem_inv T w → bar_sealed (b_bar w) = false → bar_keyring (b_bar w) = Some k → calm w →
  key_at (b_keys w) k (activeTerm k) = Some kv → ¬ oversize (json_Marshal (enc_key kv)) →
  T !! (activeTerm k - 1) = Some kb →
  (∀ ct w', ct_of (activeTerm k - 1) kb (upgradePath (activeTerm k - 1)) (json_Marshal (enc_key kv)) ct →
     b_disk w' = Inmem.set_root (<[upgradePath (activeTerm k - 1) := ct]> (b_store w)) (b_disk w) →
     Q (Some (Ok ())) w') →
  wpE (CreateUpgrade (activeTerm k)) Q w.
Proof.
  intros Hm Ho Hk Hc Hkv Hsize Hkb HQ. destruct (mi_open _ _ Hm Ho) as (k0 & root & Hk0 & Hok & Hp & _).
  rewrite Hk in Hk0. injection Hk0 as <-. unfold key_at in Hkv.
  destruct (keys k !! activeTerm k) as [l|] eqn:Hl; [|done].
  destruct (ko_key _ _ _ _ _ Hok _ _ Hl) as (kv0 & Hkv0 & Hterm & Hwf & HT).
  assert (kv0 = kv) as -> by congruence. destruct Hwf as ((Hrange & _) & Htime & _).
  assert (1 ≤ activeTerm k - 1 ≤ activeTerm k) as Hprev
    by (apply (keyring_seq _ _ _ _ _ _ Hok); by rewrite Hkb).
  apply wpE_bind, wpE_unsealed; [congruence|]. intros _.
  apply wpE_bind. eapply wpE_the_keyring; [done|]. apply wpE_bind. unfold TermKey. rewrite Hl.
  apply wpE_bind. eapply wpE_load; [done|]. apply wpE_ret, wpE_bind. simpl. unfold Marshal. simpl.
  rewrite Htime. apply wpE_ret. rewrite (uint32_small (activeTerm k - 1)) by lia.
  apply wpE_bind, (wpE_aeadForTerm T); [done..|]. rewrite Hkb. intros w1 Hk1 Hd1.
  assert (calm w1) as Hc1 by by eapply calm_kept.
  apply wpE_bind, wpE_encryptTracked; [rewrite (k_version _ _ _ Hk1); apply Hm| |by intros ? ? _ [?|?]|done].
  intros ct w2 Hq2 Hct. assert (b_disk w2 = b_disk w) as Hd2 by by rewrite (q_disk _ _ Hq2).
  apply wpE_disk_Put; [|intros ? _ []; by eapply calm_quiet].
  intros w3 Hd3. apply (HQ ct); [done|]. rewrite (q_disk _ _ Hd3). simpl. unfold b_store. by rewrite Hd2.
Qed.

Hypothesis clock_ok : ∀ n, time_json_ok (be_clock n) = true.

(** A node takes the key of the next term from the disk. *)
Lemma live_CheckUpgrade T w k kb kv ct Q :
  mem_inv T w → bar_sealed (b_bar w) = false → bar_keyring (b_bar w) = Some k → calm w →
  T !! activeTerm k = Some kb → b_store w !! upgradePath (activeTerm k) = Some ct →
  ct_of (activeTerm k) kb (upgradePath (activeTerm k)) (json_Marshal (enc_key kv)) ct →
  wf_key kv → Term kv = activeTerm k + 1 →
  (∀ w', mem_inv (<[Term kv := Value kv]> T) w' → Q (Some (Ok (true, Term kv))) w') →
  wpE CheckUpgrade Q w.
Proof.
  intros Hm Ho Hk Hc Hkb Hst Hct Hwf Hterm HQ.
  destruct (mi_open _ _ Hm Ho) as (k0 & root & Hk0 & Hok & Hp & Hcache).
  rewrite Hk in Hk0. injection Hk0 as <-.
  assert (∀ t b, T !! t = Some b → 0 ≤ t < 2 ^ 32) as Hrange.
  { intros t b Ht. destruct (ko_dom _ _ _ _ _ Hok t) as [l Hl]; [by rewrite Ht|].
    destruct (ko_key _ _ _ _ _ Hok _ _ Hl) as (kv0 & _ & <- & ((? & _) & _) & _). done. }
  assert (∀ w1 P, mem_inv T w1 → bar_sealed (b_bar w1) = false → calm w1 → b_store w1 = b_store w →
    (∀ w2, kept T w1 w2 → b_disk w2 = b_disk w1 → P (Some (Ok (Some (json_Marshal (enc_key kv))))) w2) →
    wpE (Get (upgradePath (activeTerm k))) P w1) as Hget.
  { intros w1 P Hm1 Ho1 Hc1 Hs1 HP. eapply (wpE_Get_entry T); [done|done| |congruence|by intros; apply HP|done].
    rewrite Hs1, Hst. by exists (activeTerm k), kb. }
  apply wpE_bind, wpE_unsealed; [congruence|]. intros _.
  apply wpE_bind. eapply wpE_the_keyring; [done|]. apply wpE_bind, Hget; [done..|].
  intros w1 Hk1 Hd1. assert (mem_inv T w1) as Hm1 by by eapply mem_inv_kept.
  rewrite <-(k_keyring _ _ _ Hk1) in Hk. rewrite <-(k_sealed _ _ _ Hk1) in Ho.
  apply wpE_bind, wpE_unsealed; [congruence|]. intros _.
  apply wpE_bind. eapply wpE_the_keyring; [done|].
  apply wpE_bind, Hget; [done|done|by eapply calm_kept|unfold b_store; by rewrite Hd1|].
  intros w2 Hk2 Hd2. apply wpE_bind, wpE_bind, wpE_wrapf. unfold DecodeJSON_as.
  rewrite json_Decode_Marshal, dec_enc_key by (try apply enc_key_doc; apply Hwf). apply wpE_ret, wpE_new_key.
  assert (kept T w w2) as Hkk by by etrans.
  apply wpE_bind, wpE_wrapf.
  eapply (wpE_AddKey clock_ok (b_roots w2) k T root _ kv); [|by apply list_lookup_middle|done|done|].
  { eapply keyring_ok_mono; [apply heap_upto_app|done|]. by rewrite (k_keys _ _ _ Hkk), (k_roots _ _ _ Hkk). }
  intros k' w3 Hheap Hok' _ Hact. apply wpE_bind, wpE_bar_modify.
  destruct (ho_keys _ _ Hheap (length (b_keys w2)) kv) as (kv' & Hkv' & Ht' & _); [by apply list_lookup_middle|].
  apply wpE_bind. eapply wpE_load; [done|]. rewrite Ht'. apply wpE_ret, HQ.
  pose proof (ho_bar _ _ Hheap) as Hbar. simpl in Hbar. split; simpl; rewrite ?Hbar.
  - rewrite (k_version _ _ _ Hkk). apply Hm.
  - rewrite (k_sealed _ _ _ Hk2). congruence.
  - intros _. exists k', root. split; [done|]. rewrite (ho_roots _ _ Hheap). split; [done|].
    split; [lia|]. etrans; [by apply (k_cache _ _ _ Hkk)|]. by eapply sub_next.
Qed.

Lemma behind T w kA kB root wB rootB :
  keyring_ok (b_keys w) (b_roots w) kA T root →
  keyring_ok (b_keys wB) (b_roots wB) kB (delete (activeTerm kA) T) rootB →
  1 ≤ activeTerm kB → activeTerm kB + 1 = activeTerm kA.
Proof.
  intros HA HB Hp.
  assert (∀ t, 1 ≤ t ≤ activeTerm kB ↔ 1 ≤ t ≤ activeTerm kA ∧ t ≠ activeTerm kA) as Hseq.
  { intros t. rewrite <-(keyring_seq _ _ _ _ _ _ HB), <-(keyring_seq _ _ _ _ _ _ HA).
    rewrite lookup_delete_is_Some. naive_solver. }
  pose proof (proj1 (Hseq (activeTerm kB))). pose proof (proj2 (Hseq (activeTerm kA - 1))). lia.
Qed.

(** C20: A standby follows a rotation: when the active node has written the upgrade to its newest term, a standby that is one term behind on the same disk finds it, takes the key, reports the term, and from then on holds the keys of the active node. *)
Theorem standby_follows (T : gmap Z string) (w wB : BWorld) (kA kB : t) (kv : Key) :
  mem_inv T w → bar_sealed (b_bar w) = false → bar_keyring (b_bar w) = Some kA → calm w →
  key_at (b_keys w) kA (activeTerm kA) = Some kv → ¬ oversize (json_Marshal (enc_key kv)) →
  mem_inv (delete (activeTerm kA) T) wB → bar_sealed (b_bar wB) = false →
  bar_keyring (b_bar wB) = Some kB → calm wB →
  (CreateUpgrade (activeTerm kA) w).1 = Some (Ok ()) ∧
  let w' := set_disk (b_disk (CreateUpgrade (activeTerm kA) w).2) wB in
  (CheckUpgrade w').1 = Some (Ok (true, activeTerm kA)) ∧ mem_inv T (CheckUpgrade w').2.
Proof.
  intros Hm Ho Hk Hc Hkv Hsize HmB HoB HkB HcB.
  destruct (mi_open _ _ Hm Ho) as (k0 & root & Hk0 & Hok & Hp & _).
  rewrite Hk in Hk0. injection Hk0 as <-.
  destruct (mi_open _ _ HmB HoB) as (k0 & rootB & Hk0 & HokB & HpB & _).
  rewrite HkB in Hk0. injection Hk0 as <-. pose proof (behind _ _ _ _ _ _ _ Hok HokB HpB) as Hbehind.
  assert (is_Some (delete (activeTerm kA) T !! activeTerm kB)) as [kb HkbB]
    by (apply (keyring_seq _ _ _ _ _ _ HokB); lia).
  pose proof HkbB as [_ Hkb]%lookup_delete_Some. pose proof Hkv as Hkv1. unfold key_at in Hkv1.
  destruct (keys kA !! activeTerm kA) as [l|] eqn:Hl; [|done].
  destruct (ko_key _ _ _ _ _ Hok _ _ Hl) as (kv0 & Hkv0 & Hterm & Hwf & HT).
  assert (kv0 = kv) as -> by congruence. rewrite <-Hbehind in Hterm.
  replace (activeTerm kA) with (Term kv) by lia.
  change (wpE (CreateUpgrade (Term kv)) (λ r w1, r = Some (Ok ()) ∧
    (wpE CheckUpgrade (λ r w2, r = Some (Ok (true, Term kv)) ∧ mem_inv T w2) (set_disk (b_disk w1) wB))) w).
  rewrite Hterm, Hbehind. eapply (live_CreateUpgrade T); [done..| |].
  { by replace (activeTerm kA - 1) with (activeTerm kB) by lia. }
  intros ct w1 Hct Hd1. split; [done|]. replace (activeTerm kA - 1) with (activeTerm kB) in * by lia.
  eapply (live_CheckUpgrade (delete (activeTerm kA) T) _ kB kb kv ct);
    [by destruct HmB|done|done| |done| |done|done|done|].
  - destruct HcB, Hc. split; simpl; try done; by rewrite Hd1.
  - unfold b_store. simpl. rewrite Hd1. apply lookup_insert_eq.
  - intros w2. rewrite Hterm, Hbehind, insert_delete_id by done. done.
Qed.
End standby.

(** ** What goes wrong *)

Section wrong.
Context `{AEAD} `{RadixTree} `{BEnv} `{TermRange} `{JsonText}.

(** Switching automatic rotation on or off, with the other settings as they are, is answered with success and changes nothing, in memory or on disk. *)
Theorem SetRotationConfig_ignores_Disabled (w : BWorld) (k : t) (c : KeyRotationConfig) :
  bar_keyring (b_bar w) = Some k →
  MaxOperations (Sanitize c) = MaxOperations (rotationConfig k) →
  Interval (Sanitize c) = Interval (rotationConfig k) →
  SetRotationConfig c w = (Some (Ok ()), w).
Proof.
  intros Hk Hmax Hint. unfold SetRotationConfig, the_keyring, get_keyring, gets, mbind, E_bind. simpl.
  rewrite Hk. simpl. unfold config_Equals. rewrite Hmax, Hint, !Z.eqb_refl. done.
Qed.

Lemma decrypt_short path kb ct w :
  (17 ≤ String.length ct < 29)%nat → (decrypt path kb ct w).1 = None.
Proof.
  intros Hlen. unfold decrypt, NonceSize. destruct (Nat.ltb_spec (String.length ct) (5 + 12)); [lia|].
  assert (String.length (str_drop (5 + 12) ct) < 12)%nat by (rewrite str_drop_length; lia).
  unfold slen. destruct (Z.ltb_spec (Z.of_nat (String.length (str_drop (5 + 12) ct)) - Z.of_nat 12) 0); [done|lia].
Qed.

(** An entry of 17 to 28 bytes that starts with a term of the keyring, such as a truncated one, makes the read panic instead of failing. *)
Theorem Get_short_panics a (s : Sys) (m : gmap string string) (k ct : string) (t : Z) (kv : Key) :
  R a s → calm (s_world s) → in_keyring (s_world s) t kv →
  m !! k = Some ct → (17 ≤ String.length ct < 29)%nat → Uint32 ct = Some t →
  (Get k (tampered m (s_world s))).1 = None.
Proof.
  intros (T & S & n & HR) Hc (kr & l & Hk & Hl & Hkv) Hct Hlen Ht. set (w := s_world s) in *.
  pose proof (Rel_has_keyring _ _ _ _ _ _ _ HR Hk) as Ho.
  destruct (Rel_open _ _ _ _ _ _ HR Ho) as (k0 & Hk0 & Hok & _). rewrite Hk in Hk0. injection Hk0 as <-.
  destruct (ko_key _ _ _ _ _ Hok _ _ Hl) as (kv0 & _ & _ & _ & HT).
  pose proof (rel_sealed _ _ _ _ _ _ HR) as Hs. rewrite Ho in Hs.
  change (wpE (Get k) (λ r _, r = None) (tampered m w)).
  apply wpE_bind, wpE_unsealed; simpl; [congruence|]. intros _.
  apply wpE_bind, wpE_disk_Get; [|intros ? _ []; by destruct Hc; split].
  change (b_store (tampered m w)) with m. rewrite Hct. intros w1 Hq1.
  destruct (Z.ltb_spec (slen ct) 4) as [Hsl|_]; [unfold slen in Hsl; lia|].
  apply wpE_bind. eapply wpE_nonnil; [done|]. apply wpE_bind, (wpE_aeadForTerm T).
  - eapply mem_inv_kept; [by apply quiet_kept|]. by destruct (rel_mem _ _ _ _ _ _ HR).
  - by rewrite (q_sealed _ _ Hq1).
  - intros w2 _ _. rewrite HT. apply wpE_bind, wpE_wrapf. unfold wpE. by rewrite decrypt_short.
Qed.
End wrong.

(** ** Examples *)

Definition kv1 : Key := mkKey 1 1 root0 t2025 0.
Definition kv2 : Key := mkKey 2 1 (of_bytes (replicate 32 9%N)) t2025 5.
Definition keys2 : gmap Z string := <[2 := Value kv2]> {[1 := Value kv1]}.
Definition ring1 : t := mk (Some 0%nat) {[1 := 0%nat]} 1 defaultRotationConfig.
Definition ring2 : t := mk (Some 0%nat) (<[2 := 1%nat]> {[1 := 0%nat]}) 2 defaultRotationConfig.

(** A node with the keyring [k]; two encryptions are unaccounted. *)
Definition node (k : t) : BWorld :=
  mkBWorld (mkBar false (Some k) ∅ AESGCMVersion2 true 2 0 2) [kv1; kv2] [root0] disk0 0.

Lemma ring1_ok : keyring_ok [kv1; kv2] [root0] ring1 {[1 := Value kv1]} root0.
Proof.
  split; simpl; try done.
  - intros t l [<- <-]%lookup_singleton_Some. exists kv1. by rewrite lookup_singleton_eq.
  - intros t. rewrite lookup_singleton_is_Some. lia.
  - intros t. rewrite !lookup_singleton_is_Some. done.
  - by exists 0%nat.
Qed.

Lemma ring2_ok : keyring_ok [kv1; kv2] [root0] ring2 keys2 root0.
Proof. exact (keyring_ok_add _ _ _ _ _ 1%nat kv2 ring1_ok eq_refl ltac:(done) eq_refl). Qed.

Lemma node_mem k T : keyring_ok [kv1; kv2] [root0] k T root0 → 1 ≤ activeTerm k → mem_inv T (node k).
Proof.
  intros Hk Hp. split; [by right|done|]. intros _. exists k, root0. split; [done|]. split; [done|].
  split; [done|]. apply map_empty_subseteq.
Qed.

Lemma calm0 w :
  b_disk w = disk0 → calm w.
Proof.
  intros Hd. split; rewrite ?Hd; try done.
  intros n k _. split; [done|]. simpl. induction k as [|k IH]; [done|]. simpl. by rewrite IH.
Qed.

Lemma keyring_roundtrip_witness :
  match (buf ← Serialize ring2; DeserializeKeyring buf) (node ring2) with
  | (Some (Ok k'), w') => activeTerm k' = 2 ∧ rotationConfig k' = Sanitize defaultRotationConfig ∧
      root_of (b_roots w') k' = root_of [root0] ring2 ∧
      ∀ term, key_at (b_keys w') k' term = key_at [kv1; kv2] ring2 term
  | _ => False
  end.
Proof. apply (keyring_roundtrip (node ring2) ring2 keys2 root0); [exact ring2_ok|done]. Defined.

Lemma standby_follows_witness :
  (CreateUpgrade 2 (node ring2)).1 = Some (Ok ()) ∧
  let w' := set_disk (b_disk (CreateUpgrade 2 (node ring2)).2) (node ring1) in
  (CheckUpgrade w').1 = Some (Ok (true, 2)) ∧ mem_inv keys2 (CheckUpgrade w').2.
Proof.
  apply (standby_follows clock0_ok keys2 (node ring2) (node ring1) ring2 ring1 kv2).
  - apply node_mem; [exact ring2_ok|done].
  - reflexivity.
  - reflexivity.
  - by apply calm0.
  - reflexivity.
  - unfold oversize. apply Z.le_ngt. by vm_compute.
  - apply node_mem; [exact ring1_ok|done].
  - reflexivity.
  - reflexivity.
  - by apply calm0.
Defined.

(** The keyring of the unsealed barrier, and its key. *)
Definition ring0 : t := default NewKeyring (bar_keyring (b_bar (s_world unsealed0))).
Definition key0 : Key := default zero_key (key_at (b_keys (s_world unsealed0)) ring0 1).

Lemma ring0_held : bar_keyring (b_bar (s_world unsealed0)) = Some ring0.
Proof. vm_compute. reflexivity. Qed.

Lemma key0_held : in_keyring (s_world unsealed0) 1 key0.
Proof. exists ring0, 1%nat. split; [exact ring0_held|]. split; vm_compute; reflexivity. Qed.

#[global] Opaque ring0 key0.

Lemma Rotate_next_witness :
  bar_keyring (b_bar (s_world unsealed0)) = Some ring0 ∧
  rotated ring0 (s_world unsealed0) (Rotate (s_world unsealed0)).1 (Rotate (s_world unsealed0)).2.
Proof.
  split; [exact ring0_held|]. destruct unsealed0_R as [kb HR].
  exact (proj1 (Rotate_next (opened (new_state root0 "kek" kb)) unsealed0 ring0 clock0_ok HR ring0_held)).
Defined.

Lemma persistEncryptions_exact_witness :
  accounted ring0 (Encryptions key0) (unacc (s_world unsealed0))
    (persistEncryptions (s_world unsealed0)).1 (persistEncryptions (s_world unsealed0)).2.
Proof.
  destruct unsealed0_R as [kb HR].
  apply (persistEncryptions_exact (opened (new_state root0 "kek" kb)) unsealed0 ring0 key0).
  - exact HR.
  - exact ring0_held.
  - vm_compute. reflexivity.
  - vm_compute. reflexivity.
  - vm_compute. reflexivity.
Defined.

Lemma SetRotationConfig_ignores_Disabled_witness :
  Disabled (rotationConfig ring2) = false ∧
  SetRotationConfig (mkRotation true absoluteOperationMaximum 0) (node ring2) =
    (Some (Ok ()), node ring2).
Proof.
  split; [reflexivity|].
  apply (SetRotationConfig_ignores_Disabled (node ring2) ring2); reflexivity.
Defined.

Definition short_entry : string := of_bytes ([0; 0; 0; 1; 2]%N ++ replicate 15 0%N).

Lemma Get_short_panics_witness :
  (Get "a" (tampered {["a" := short_entry]} (s_world unsealed0))).1 = None.
Proof.
  destruct unsealed0_R as [kb HR].
  apply (Get_short_panics (opened (new_state root0 "kek" kb)) unsealed0 _ "a" short_entry 1 key0).
  - exact HR.
  - split; try (vm_compute; reflexivity). intros n k _. split; [done|].
    simpl. induction k as [|k IH]; [done|]. simpl. by rewrite IH.
  - exact key0_held.
  - reflexivity.
  - vm_compute. lia.
  - reflexivity.
Defined.

(** The unsealed barrier after a write and an account of it, on a disk that
    no longer takes writes. *)
Definition failing0 : BWorld :=
  let w := ((_ ← Put "a/x" "hello"; persistEncryptions) (s_world unsealed0)).2 in
  set_disk (Inmem.mk (b_store w) false true false false 0) w.

(** A rotation that fails to write the keyring keeps the key in use but has set its count of encryptions to zero: the limit on the use of one key starts anew. *)
Theorem Rotate_failure_forgets :
  (encryptions failing0).1 = Some (Ok 4) ∧
  (∃ e, (Rotate failing0).1 = Some (Err e)) ∧
  (∃ k, bar_keyring (b_bar (Rotate failing0).2) = Some k ∧ activeTerm k = 1) ∧
  (encryptions (Rotate failing0).2).1 = Some (Ok 0).
Proof.
  split; [vm_compute; reflexivity|]. split; [eexists; vm_compute; reflexivity|].
  split; [eexists; split; vm_compute; reflexivity|]. vm_compute. reflexivity.
Qed.
