(* ===== verification/RouterFacts.v ===== *)
(** * The routing table stays consistent

    Under the checks the core makes before it mounts or moves a backend, no
    mount lies below another, the indexes by storage prefix, identifier and
    accessor agree with the table, and a path is routed to the one mount it
    lies under. *)

From S2P Require Import Prelude GoLib Storage Router.
Import Router.

(** ** Prefixes *)

Lemma prefix_comparable (s k1 k2 : string) :
  HasPrefix s k1 = true → HasPrefix s k2 = true →
  (String.length k1 ≤ String.length k2)%nat → HasPrefix k2 k1 = true.
Proof.
  rewrite !HasPrefix_spec. intros (r1 & ->) (r2 & Heq) Hlen.
  revert k2 r2 Heq Hlen. induction k1 as [|c k1 IH]; intros k2 r2 Heq Hlen; [by exists k2|].
  destruct k2 as [|c' k2]; simpl in *; [lia|]. injection Heq as -> Heq.
  destruct (IH k2 r2) as (x & ->); [done|lia|]. by exists x.
Qed.

Lemma HasPrefix_refl s : HasPrefix s s = true.
Proof. apply HasPrefix_spec. exists "". by rewrite str_app_nil_r. Qed.

Lemma HasPrefix_trans s k p : HasPrefix s k = true → HasPrefix k p = true → HasPrefix s p = true.
Proof.
  rewrite !HasPrefix_spec. intros (r1 & ->) (r2 & ->). exists (r2 +:+ r1). by rewrite str_app_assoc.
Qed.

(** No key is a proper prefix of another. *)
Definition prefix_free {V} (m : gmap string V) : Prop :=
  ∀ k1 k2, is_Some (m !! k1) → is_Some (m !! k2) → HasPrefix k1 k2 = true → k1 = k2.

Section search.
Context `{RadixSearch}.

(** In a prefix-free map the search finds the one key above a path. *)
Lemma search_free {V} (m : gmap string V) s k v :
  prefix_free m → m !! k = Some v → HasPrefix s k = true → LongestPrefix m s = Some (k, v).
Proof.
  intros Hf Hk Hs. apply LongestPrefix_some. split_and!; [done..|]. intros k' Hk' Hs'.
  destruct (Nat.le_gt_cases (String.length k') (String.length k)) as [|Hlt]; [done|].
  assert (k' = k) as ->; [|lia]. apply Hf; [done|by eexists|]. eapply prefix_comparable; [done..|lia].
Qed.

(** Adding a key neither above nor below the others. *)
Lemma prefix_free_insert {V} (m : gmap string V) k v :
  prefix_free m →
  (∀ k', is_Some (m !! k') → HasPrefix k k' = false ∧ HasPrefix k' k = false) →
  prefix_free (<[k := v]> m).
Proof.
  intros Hf Hk k1 k2. rewrite !lookup_insert_is_Some.
  intros [<-|[? H1]] [<-|[? H2]] Hp; [done| | |by apply Hf].
  - destruct (Hk _ H2). congruence.
  - destruct (Hk _ H1). congruence.
Qed.

Lemma prefix_free_delete {V} (m : gmap string V) k : prefix_free m → prefix_free (delete k m).
Proof. intros Hf k1 k2 [_ ?]%lookup_delete_is_Some [_ ?]%lookup_delete_is_Some. by apply Hf. Qed.
End search.

(** ** The invariant *)

Section invariant.
Context `{GoTables} `{RadixTree} `{RadixSearch}.

(** A location that the table holds, and its entry. *)
Definition mounted (r : t) (k : string) (l : nat) (re : routeEntry) : Prop :=
  root r !! k = Some l ∧ entries r !! l = Some re.

Record wf (r : t) : Prop := {
  wf_free : prefix_free (root r);
  wf_keys : root r !! "" = None;
  wf_entries : ∀ k l, root r !! k = Some l → ∃ re, entries r !! l = Some re;
  wf_index : ∀ k l re, mounted r k l re →
    storagePrefixes r !! storagePrefix re = Some l ∧
    mountUUIDCache r !! UUID (mountEntry re) = Some (mountEntry re) ∧
    mountAccessorCache r !! Accessor (mountEntry re) = Some (mountEntry re);
  wf_ids : ∀ k l re, mounted r k l re → UUID (mountEntry re) ≠ "" ∧ Accessor (mountEntry re) ≠ "";
  wf_storage : ∀ p l, storagePrefixes r !! p = Some l →
    ∃ k re, mounted r k l re ∧ storagePrefix re = p;
  wf_uuid : ∀ u me, mountUUIDCache r !! u = Some me → ∃ k l re, mounted r k l re ∧ UUID (mountEntry re) = u;
  wf_accessor : ∀ a me, mountAccessorCache r !! a = Some me →
    ∃ k l re, mounted r k l re ∧ Accessor (mountEntry re) = a;
  wf_unique : ∀ k1 k2 l1 l2 re1 re2, mounted r k1 l1 re1 → mounted r k2 l2 re2 →
    (l1 = l2 ∨ UUID (mountEntry re1) = UUID (mountEntry re2) ∨
     Accessor (mountEntry re1) = Accessor (mountEntry re2)) → k1 = k2;
}.

Lemma wf_empty h : wf (mk ∅ ∅ ∅ ∅ h).
Proof.
  split; unfold mounted, prefix_free; simpl.
  - by intros k1 k2 [? ?%lookup_empty_Some].
  - apply lookup_empty.
  - by intros k l ?%lookup_empty_Some.
  - by intros k l re [?%lookup_empty_Some _].
  - by intros k l re [?%lookup_empty_Some _].
  - by intros p l ?%lookup_empty_Some.
  - by intros u me ?%lookup_empty_Some.
  - by intros a me ?%lookup_empty_Some.
  - by intros k1 k2 l1 l2 re1 re2 [?%lookup_empty_Some _].
Qed.

Lemma lookup_mounted r k l re path :
  wf r → mounted r k l re → HasPrefix path k = true → lookup r (root r) path = Some (k, re).
Proof.
  intros Hw [Hk Hl] Hp. unfold lookup.
  rewrite (search_free _ _ k l) by (try done; apply (wf_free _ Hw)). simpl. by rewrite Hl.
Qed.

Lemma lookup_none r path :
  wf r → lookup r (root r) path = None → ∀ k, is_Some (root r !! k) → HasPrefix path k = false.
Proof.
  intros Hw. unfold lookup. destruct (LongestPrefix (root r) path) as [[m l]|] eqn:Hl.
  - apply LongestPrefix_some in Hl as (Hm & _ & _). destruct (wf_entries _ Hw _ _ Hm) as [re Hre].
    simpl. by rewrite Hre.
  - intros _. by apply LongestPrefix_none.
Qed.

Lemma no_mount_below r ns path :
  wf r → matchingPrefixInternal r (Some ns) path = "" →
  ∀ k, is_Some (root r !! k) → HasPrefix k (ns +:+ path) = false.
Proof.
  intros Hw Hc k Hk. unfold matchingPrefixInternal in Hc. cbv zeta in Hc.
  destruct (HasPrefix k (ns +:+ path)) eqn:Hp; [|done].
  assert (k ∈ filter (λ k, HasPrefix k (ns +:+ path) = true) (WalkPrefix (root r) (ns +:+ path))) as Hin.
  { apply list_elem_of_filter. split; [done|]. by apply WalkPrefix_elem. }
  destruct (filter _ _) as [|k' ks] eqn:Hf; [by apply elem_of_nil in Hin|].
  simpl in Hc. subst k'. assert ("" ∈ "" :: ks) as Hin' by by left. rewrite <-Hf in Hin'.
  apply list_elem_of_filter in Hin' as [_ Hin']. apply WalkPrefix_elem in Hin' as [[l Hl] _].
  by rewrite (wf_keys _ Hw) in Hl.
Qed.

Lemma no_mount_above r ns path :
  wf r → (matchingMountInternal r (Some ns) path).1 = "" →
  ∀ k, is_Some (root r !! k) → HasPrefix (ns +:+ path) k = false.
Proof.
  intros Hw Hc. unfold matchingMountInternal in Hc.
  destruct (lookup r (root r) (ns +:+ path)) as [[m re]|] eqn:Hl; [|by apply lookup_none].
  simpl in Hc. subst m. unfold lookup in Hl.
  destruct (LongestPrefix (root r) (ns +:+ path)) as [[m' l]|] eqn:Hlp; [|done].
  simpl in Hl. destruct (entries r !! l); [|done]. injection Hl as -> _.
  apply LongestPrefix_some in Hlp as [Hm _]. by rewrite (wf_keys _ Hw) in Hm.
Qed.

(** The check the core makes finds every mount above or below a path. *)
Lemma no_conflict r ns path :
  wf r → MountConflict r (Some ns) path = "" →
  ∀ k, is_Some (root r !! k) →
    HasPrefix (ns +:+ path) k = false ∧ HasPrefix k (ns +:+ path) = false.
Proof.
  intros Hw Hc k Hk. unfold MountConflict in Hc.
  destruct (decide ((matchingMountInternal r (Some ns) path).1 = "")) as [He|]; [|done].
  destruct (decide (matchingPrefixInternal r (Some ns) path = "")) as [He'|]; [|done].
  split; [by eapply no_mount_above|by eapply no_mount_below].
Qed.

(** ** Operations *)

(** The operations that change the table. *)
Variant Op :=
| OMount (be : option Backend) (prefix : string) (me : MountEntry) (view : string)
| OUnmount (ctx : Ctx) (prefix : string)
| ORemount (ctx : Ctx) (src dst : string)
| OTaint (ctx : Ctx) (path : string)
| OUntaint (ctx : Ctx) (path : string)
| OReset.

Definition apply_op (o : Op) (r : t) : t :=
  match o with
  | OMount be prefix me view => (Mount be prefix me view r).2
  | OUnmount ctx prefix => (Unmount ctx prefix r).2
  | ORemount ctx src dst => (Remount ctx src dst r).2
  | OTaint ctx path => (Taint ctx path r).2
  | OUntaint ctx path => (Untaint ctx path r).2
  | OReset => reset r
  end.

(** What the core sees to: it checks for conflicts before it mounts or moves,
    and gives each mount its own storage prefix, identifier and accessor. *)
Definition guarded (o : Op) (r : t) : Prop :=
  match o with
  | OMount be prefix me view =>
      MountConflict r (Some (nsPath me)) prefix = "" ∧
      storagePrefixes r !! view = None ∧ mountUUIDCache r !! UUID me = None ∧
      mountAccessorCache r !! Accessor me = None
  | ORemount (Some ns) src dst => MountConflict r (Some ns) dst = "" ∧ ns +:+ dst ≠ ""
  | _ => True
  end.

Lemma Mount_effect be prefix me view r :
  (Mount be prefix me view r).2 = r ∨
  ∃ re, mountEntry re = me ∧ storagePrefix re = view ∧ nsPath me +:+ prefix ≠ "" ∧
    (UUID me ≠ "" ∧ Accessor me ≠ "") ∧
    let l := fresh (dom (entries r)) in
    (Mount be prefix me view r).2 =
    mk (<[nsPath me +:+ prefix := l]> (root r)) (<[view := l]> (storagePrefixes r))
       (<[UUID me := me]> (mountUUIDCache r)) (<[Accessor me := me]> (mountAccessorCache r))
       (<[l := re]> (entries r)).
Proof.
  unfold Mount. cbv zeta.
  destruct (LongestPrefix (root r) (nsPath me +:+ prefix)) as [[[|c k] l]|]; [|by left|];
    (destruct (parseSpecialPaths _) as [login|]; [|by left];
     destruct (parseSpecialPaths _) as [binary|]; [|by left];
     destruct (parseSpecialPaths _) as [limited|]; [|by left];
     destruct (parseSpecialPaths _) as [snapshot|]; [|by left];
     do 4 (destruct (decide _); [by left|]); right; eexists; split_and!; [..|reflexivity]; done).
Qed.

(** The mounts of a table with one more. *)
Lemma mounted_insert r k0 l re0 sp u a k l' re :
  entries r !! l = None → wf r →
  mounted (mk (<[k0 := l]> (root r)) sp u a (<[l := re0]> (entries r))) k l' re ↔
  (k = k0 ∧ l' = l ∧ re = re0) ∨ (k ≠ k0 ∧ l' ≠ l ∧ mounted r k l' re).
Proof.
  intros Hl Hw. unfold mounted. simpl. rewrite !lookup_insert_Some. split.
  - intros [[[-> ->]|[? Hk]] [[? ->]|[? Hre]]]; [by left|done| |by right].
    subst l'. destruct (wf_entries _ Hw _ _ Hk) as [re' Hre']. congruence.
  - intros [(-> & -> & ->)|(? & ? & ? & ?)]; auto.
Qed.

Lemma wf_mount be prefix me view r :
  wf r → guarded (OMount be prefix me view) r → wf (Mount be prefix me view r).2.
Proof.
  intros Hw (Hc & Hv & Hu & Ha).
  destruct (Mount_effect be prefix me view r) as [->|(re & Hre & Hview & Hne & Hids & ->)]; [done|].
  set (l := fresh (dom (entries r))). set (k0 := nsPath me +:+ prefix).
  assert (entries r !! l = None) as Hl by (apply not_elem_of_dom, is_fresh).
  pose proof (no_conflict r _ _ Hw Hc) as Hnc. fold k0 in Hnc, Hne.
  assert (∀ k l' re', mounted r k l' re' → k ≠ k0) as Hk0.
  { intros k l' re' [Hk _] ->. destruct (Hnc k0) as [Hp _]; [by eexists|]. by rewrite HasPrefix_refl in Hp. }
  assert (∀ k l' re', mounted r k l' re' → l' ≠ l) as Hl0 by (intros k l' re' [_ ?] ->; congruence).
  split; simpl; try setoid_rewrite mounted_insert; try done.
  - by apply prefix_free_insert; [apply Hw|].
  - rewrite lookup_insert_ne by done. apply Hw.
  - intros k l'. rewrite lookup_insert_Some. intros [[_ <-]|[_ Hk]].
    + exists re. apply lookup_insert_eq.
    + destruct (wf_entries _ Hw _ _ Hk) as [re' Hre']. exists re'. rewrite lookup_insert_ne; [done|].
      congruence.
  - intros k l' re' [(_ & -> & ->)|(_ & _ & Hm)].
    + subst me view. by rewrite !lookup_insert_eq.
    + destruct (wf_index _ Hw _ _ _ Hm) as (? & ? & ?).
      rewrite !lookup_insert_ne; [done|intros Heq; congruence..].
  - intros k l' re' [(_ & _ & ->)|(_ & _ & Hm)]; [by rewrite Hre|by apply (wf_ids _ Hw k l')].
  - intros p l'. rewrite lookup_insert_Some. intros [[<- <-]|[_ Hp]].
    + exists k0, re. split; [by left|done].
    + destruct (wf_storage _ Hw _ _ Hp) as (k & re' & Hm & ?). exists k, re'. split; [|done]. right. eauto.
  - intros u me'. rewrite lookup_insert_Some. intros [[<- _]|[_ Hp]].
    + exists k0, l, re. split; [by left|congruence].
    + destruct (wf_uuid _ Hw _ _ Hp) as (k & l' & re' & Hm & ?). exists k, l', re'. split; [|done]. right. eauto.
  - intros a me'. rewrite lookup_insert_Some. intros [[<- _]|[_ Hp]].
    + exists k0, l, re. split; [by left|congruence].
    + destruct (wf_accessor _ Hw _ _ Hp) as (k & l' & re' & Hm & ?). exists k, l', re'. split; [|done]. right. eauto.
  - intros k1 k2 l1 l2 re1 re2 [(-> & -> & ->)|(_ & Hl1 & Hm1)] [(-> & -> & ->)|(_ & Hl2 & Hm2)] Heq; [done|..].
    + destruct (wf_index _ Hw _ _ _ Hm2) as (_ & Hu2 & Ha2). destruct Heq as [?|[Heq|Heq]]; congruence.
    + destruct (wf_index _ Hw _ _ _ Hm1) as (_ & Hu1 & Ha1). destruct Heq as [?|[Heq|Heq]]; congruence.
    + by eapply (wf_unique _ Hw).
Qed.

Lemma wf_unmount ctx prefix r : wf r → wf (Unmount ctx prefix r).2.
Proof.
  intros Hw. unfold Unmount. destruct ctx as [ns|]; [|done]. cbv zeta.
  destruct (root r !! (ns +:+ prefix)) as [l|] eqn:Hk; simpl; [|done].
  destruct (entries r !! l) as [re|] eqn:Hl; simpl; [|done]. set (k0 := ns +:+ prefix) in *.
  assert (mounted r k0 l re) as Hm0 by done.
  destruct (wf_index _ Hw _ _ _ Hm0) as (Hs0 & Hu0 & Ha0).
  assert (∀ k l' re', mounted (mk (delete k0 (root r)) (delete (storagePrefix re) (storagePrefixes r))
    (delete (UUID (mountEntry re)) (mountUUIDCache r))
    (delete (Accessor (mountEntry re)) (mountAccessorCache r)) (entries r)) k l' re' ↔
    k ≠ k0 ∧ mounted r k l' re') as Hm.
  { intros k l' re'. unfold mounted. simpl. rewrite lookup_delete_Some.
    split; [intros [[? ?] ?]|intros (? & ? & ?)]; auto. }
  assert (∀ k re', mounted r k l re' → k = k0 ∧ re' = re) as Hsame.
  { intros k re' Hm'. split; [|by destruct Hm', Hm0; congruence].
    by apply (wf_unique _ Hw k k0 l l re' re); [..|left]. }
  split; simpl; try setoid_rewrite Hm.
  - apply prefix_free_delete, Hw.
  - rewrite lookup_delete_None. right. apply Hw.
  - intros k l' [_ Hk']%lookup_delete_Some. by apply (wf_entries _ Hw k).
  - intros k l' re' (Hne & Hm'). destruct (wf_index _ Hw _ _ _ Hm') as (Hs & Hu & Ha).
    rewrite !lookup_delete_ne; [done|..]; intros Heq; apply Hne.
    + apply (wf_unique _ Hw k k0 l' l re' re); auto.
    + apply (wf_unique _ Hw k k0 l' l re' re); auto.
    + rewrite <-Heq, Hs0 in Hs. injection Hs as <-. by apply (Hsame k re').
  - intros k l' re' (_ & Hm'). by apply (wf_ids _ Hw k l').
  - intros p l' [Hp Hs]%lookup_delete_Some. destruct (wf_storage _ Hw _ _ Hs) as (k & re' & Hm' & Hp').
    exists k, re'. split_and!; [|done|done]. intros ->. apply Hp. rewrite <-Hp'.
    destruct Hm', Hm0. congruence.
  - intros u me [Hp Hu]%lookup_delete_Some. destruct (wf_uuid _ Hw _ _ Hu) as (k & l' & re' & Hm' & Hu').
    exists k, l', re'. split_and!; [|done|done]. intros ->. apply Hp. rewrite <-Hu'.
    destruct Hm', Hm0. congruence.
  - intros a me [Hp Ha]%lookup_delete_Some. destruct (wf_accessor _ Hw _ _ Ha) as (k & l' & re' & Hm' & Ha').
    exists k, l', re'. split_and!; [|done|done]. intros ->. apply Hp. rewrite <-Ha'.
    destruct Hm', Hm0. congruence.
  - intros k1 k2 l1 l2 re1 re2 [_ Hm1] [_ Hm2]. by apply (wf_unique _ Hw k1 k2 l1 l2 re1 re2).
Qed.

Lemma wf_remount ctx src dst r :
  wf r → guarded (ORemount ctx src dst) r → wf (Remount ctx src dst r).2.
Proof.
  intros Hw Hg. unfold Remount. destruct ctx as [ns|]; [|done]. destruct Hg as [Hc Hne]. cbv zeta.
  destruct (root r !! (ns +:+ src)) as [l|] eqn:Hk; simpl; [|done].
  set (k0 := ns +:+ src) in *. set (k1 := ns +:+ dst) in *.
  pose proof (no_conflict r _ _ Hw Hc) as Hnc. fold k1 in Hnc.
  assert (∀ k l', root r !! k = Some l' → k ≠ k1) as Hk1.
  { intros k l' Hk' ->. destruct (Hnc k1) as [Hp _]; [by eexists|]. by rewrite HasPrefix_refl in Hp. }
  set (moved := λ k, if decide (k = k0) then k1 else k).
  assert (∀ k l' re', mounted (mk (<[k1 := l]> (delete k0 (root r))) (storagePrefixes r)
    (mountUUIDCache r) (mountAccessorCache r) (entries r)) k l' re' ↔
    ∃ k', k = moved k' ∧ mounted r k' l' re') as Hm.
  { intros k l' re'. unfold mounted, moved. simpl. rewrite lookup_insert_Some, lookup_delete_Some. split.
    - intros [[[<- <-]|[? [? ?]]] ?].
      + exists k0. by rewrite decide_True.
      + exists k. by rewrite decide_False by done.
    - intros (k' & -> & Hk' & Hre). destruct (decide (k' = k0)) as [->|Hn].
      + split; [|done]. left. split; [done|congruence].
      + split; [|done]. right. split; [|done]. intros <-. by apply (Hk1 _ _ Hk'). }
  split; simpl; try setoid_rewrite Hm.
  - apply prefix_free_insert; [apply prefix_free_delete, Hw|].
    intros k [_ Hk']%lookup_delete_is_Some. by apply Hnc.
  - rewrite lookup_insert_ne by done. rewrite lookup_delete_None. right. apply Hw.
  - intros k l'. rewrite lookup_insert_Some, lookup_delete_Some.
    intros [[_ <-]|[_ [_ Hk']]]; by eapply (wf_entries _ Hw).
  - intros k l' re' (k' & _ & Hm'). by apply (wf_index _ Hw k').
  - intros k l' re' (k' & _ & Hm'). by apply (wf_ids _ Hw k' l').
  - intros p l' Hs. destruct (wf_storage _ Hw _ _ Hs) as (k & re' & Hm' & Hp). eauto 10.
  - intros u me Hu. destruct (wf_uuid _ Hw _ _ Hu) as (k & l' & re' & Hm' & Hp). eauto 10.
  - intros a me Ha. destruct (wf_accessor _ Hw _ _ Ha) as (k & l' & re' & Hm' & Hp). eauto 10.
  - intros k2 k3 l1 l2 re1 re2 (k2' & -> & Hm1) (k3' & -> & Hm2) Heq. f_equal.
    by apply (wf_unique _ Hw k2' k3' l1 l2 re1 re2).
Qed.

Lemma wf_mark b ctx path r : wf r → wf (mark b ctx path r).2.
Proof.
  intros Hw. unfold mark. destruct ctx as [ns|]; [|done].
  destruct (LongestPrefix (root r) (ns +:+ path)) as [[m l0]|]; [|done]. simpl.
  set (r' := mk _ _ _ _ _).
  assert (∀ k l re', mounted r' k l re' → ∃ re, mounted r k l re ∧
    mountEntry re' = mountEntry re ∧ storagePrefix re' = storagePrefix re) as Hm.
  { intros k l re' [Hk Hl]. simpl in *. destruct (decide (l = l0)) as [->|Hne].
    - rewrite lookup_alter_eq in Hl. destruct (entries r !! l0) as [re|] eqn:Hre; [|done].
      injection Hl as <-. by exists re.
    - rewrite lookup_alter_ne in Hl by done. by exists re'. }
  assert (∀ k l re, mounted r k l re → ∃ re', mounted r' k l re' ∧
    mountEntry re' = mountEntry re ∧ storagePrefix re' = storagePrefix re) as Hm'.
  { intros k l re [Hk Hl]. destruct (decide (l = l0)) as [->|Hne].
    - exists (set_tainted b re). split; [|done]. split; [done|]. simpl. by rewrite lookup_alter_eq, Hl.
    - exists re. split; [|done]. split; [done|]. simpl. by rewrite lookup_alter_ne. }
  split; simpl.
  - apply Hw.
  - apply Hw.
  - intros k l Hk. destruct (wf_entries _ Hw _ _ Hk) as [re Hre].
    destruct (Hm' k l re) as (re' & [_ ?] & _); [done|]. by exists re'.
  - intros k l re' (re & Hmr & -> & ->)%Hm. by apply (wf_index _ Hw k).
  - intros k l re' (re & Hmr & -> & _)%Hm. by apply (wf_ids _ Hw k l).
  - intros p l Hs. destruct (wf_storage _ Hw _ _ Hs) as (k & re & (re' & ? & _ & ?)%Hm' & ?).
    exists k, re'. split; [done|congruence].
  - intros u me Hu. destruct (wf_uuid _ Hw _ _ Hu) as (k & l & re & (re' & ? & ? & _)%Hm' & ?).
    exists k, l, re'. split; [done|congruence].
  - intros a me Ha. destruct (wf_accessor _ Hw _ _ Ha) as (k & l & re & (re' & ? & ? & _)%Hm' & ?).
    exists k, l, re'. split; [done|congruence].
  - intros k1 k2 l1 l2 re1 re2 (re1' & Hm1 & -> & _)%Hm (re2' & Hm2 & -> & _)%Hm.
    by apply (wf_unique _ Hw k1 k2 l1 l2 re1' re2').
Qed.

(** The tables that guarded operations lead to. *)
Inductive reachable : t → Prop :=
| reachable_new : reachable NewRouter
| reachable_op o r : reachable r → guarded o r → reachable (apply_op o r).

Lemma reachable_wf r : reachable r → wf r.
Proof.
  induction 1 as [|o r _ IH Hg]; [apply wf_empty|]. destruct o; cbn [apply_op].
  - by apply wf_mount.
  - by apply wf_unmount.
  - by apply wf_remount.
  - by apply wf_mark.
  - by apply wf_mark.
  - apply wf_empty.
Qed.
End invariant.
