(* ===== verification/RouterScenario.v ===== *)
(** * A concrete router

    Implementations of the searches and of the library functions that the
    router is modelled over, and a table with a few mounts. *)

From S2P Require Import Prelude GoLib GoSplit Storage Router Routing RouterFacts Scenario.
Import Router.

(** The prefixes of a string from the one of length [n] down. *)
Fixpoint search_from {V} (m : gmap string V) (s : string) (n : nat) : option (string * V) :=
  match m !! str_take n s with
  | Some v => Some (str_take n s, v)
  | None => match n with O => None | S n => search_from m s n end
  end.

Lemma str_take_prefix n s : HasPrefix s (str_take n s) = true.
Proof. apply HasPrefix_spec. exists (str_drop n s). by rewrite take_drop_str. Qed.

Lemma prefix_take s k : HasPrefix s k = true → str_take (String.length k) s = k.
Proof. intros (r & ->)%HasPrefix_spec. apply str_take_app. Qed.

Lemma prefix_length s k : HasPrefix s k = true → (String.length k ≤ String.length s)%nat.
Proof. intros (r & ->)%HasPrefix_spec. induction k; simpl; lia. Qed.

#[local] Opaque str_take.

Lemma search_from_some {V} (m : gmap string V) s n k v :
  (n ≤ String.length s)%nat → search_from m s n = Some (k, v) →
  m !! k = Some v ∧ HasPrefix s k = true ∧
  ∀ k', is_Some (m !! k') → HasPrefix s k' = true → (String.length k' ≤ n)%nat →
    (String.length k' ≤ String.length k)%nat.
Proof.
  induction n as [|n IH]; intros Hn; cbn [search_from];
    (destruct (m !! str_take _ s) as [v'|] eqn:Hv; try done).
  - intros [= <- <-]. split_and!; [done|apply str_take_prefix|]. intros k' _ _ ?. lia.
  - intros [= <- <-]. split_and!; [done|apply str_take_prefix|].
    intros k' _ _ ?. by rewrite str_take_length.
  - intros Hs. destruct IH as (? & ? & Hmax); [lia|done|]. split_and!; [done..|].
    intros k' Hk' Hp Hle. destruct (decide (String.length k' = S n)) as [He|].
    + rewrite <-He, prefix_take in Hv by done. destruct Hk'. congruence.
    + apply Hmax; [done..|lia].
Qed.

Lemma search_from_none {V} (m : gmap string V) s n :
  search_from m s n = None →
  ∀ k, is_Some (m !! k) → HasPrefix s k = true → (String.length k ≤ n)%nat → False.
Proof.
  induction n as [|n IH]; cbn [search_from]; (destruct (m !! str_take _ s) as [v'|] eqn:Hv; try done).
  - intros _ k Hk Hp Hle. assert (String.length k = 0%nat) as H0 by lia.
    rewrite <-H0, prefix_take in Hv by done. destruct Hk. congruence.
  - intros Hs k Hk Hp Hle. destruct (decide (String.length k = S n)) as [He|].
    + rewrite <-He, prefix_take in Hv by done. destruct Hk. congruence.
    + apply (IH Hs k); [done..|lia].
Qed.

#[local] Transparent str_take.

#[export] Program Instance map_search : RadixSearch := {|
  LongestPrefix V m s := search_from m s (String.length s);
|}.
Next Obligation.
  intros V m s k v. split.
  - intros Hs. apply search_from_some in Hs as (? & ? & Hmax); [|done]. split_and!; [done..|].
    intros k' ? Hp. apply Hmax; [done..|]. by apply prefix_length.
  - intros (Hk & Hp & Hmax). destruct (search_from m s (String.length s)) as [[k' v']|] eqn:Hs.
    + apply search_from_some in Hs as (Hk' & Hp' & Hmax'); [|done].
      assert (String.length k = String.length k') as He.
      { apply Nat.le_antisymm; [apply Hmax'; [by eexists|done|by apply prefix_length]|].
        apply Hmax; [by eexists|done]. }
      assert (k = k') as <- by (rewrite <-(prefix_take s k), <-(prefix_take s k'), He by done; done).
      congruence.
    + exfalso. eapply search_from_none; [done|by eexists|done|by apply prefix_length].
Qed.
Next Obligation.
  intros V m s. split.
  - intros Hs k Hk. destruct (HasPrefix s k) eqn:Hp; [|done]. exfalso.
    eapply search_from_none; [done..|by apply prefix_length].
  - intros Hno. destruct (search_from m s (String.length s)) as [[k v]|] eqn:Hs; [|done].
    apply search_from_some in Hs as (Hk & Hp & _); [|done]. rewrite Hno in Hp; [done|by eexists].
Qed.

#[export] Program Instance list_range : MapRange := {|
  range_keys V m := (map_to_list m).*1;
|}.
Next Obligation.
  intros V m k. simpl. rewrite list_elem_of_fmap. split.
  - intros ([k' v] & -> & Hkv%elem_of_map_to_list). by eexists.
  - intros [v Hv]. exists (k, v). by rewrite elem_of_map_to_list.
Qed.
Next Obligation. intros V m. apply NoDup_fst_map_to_list. Qed.

#[export] Program Instance plain_strutil : Strutil := {|
  Difference a b := filter (λ x, x ∉ ToLower <$> b) (ToLower <$> a);
|}.
Next Obligation.
  intros a b x [_ (y & -> & ?)%list_elem_of_fmap]%list_elem_of_filter. eauto.
Qed.
Next Obligation. by intros a b x [? _]%list_elem_of_filter. Qed.

(** A stand-in for the hash: any function will do for evaluation. *)
#[export] Instance reverse_hash : Crypto := {| SHA1Hash := reverse |}.
