(* ===== verification/SystemPaths.v ===== *)
(** * Special paths against their meaning, and those of the system backend

    [RootPath] and [specialPath] of [vault/router.go] search a radix tree for
    the longest key above a path.  Where no exact entry lies below a prefix
    entry, this decides whether some entry of the backend's list matches the
    path; elsewhere the longer entry hides the shorter one.  The list of the
    system backend ([vault/logical_system.go]) is of the first kind.  With
    [buildLogicalPath] of [http/logical.go], it is shown which requests on the
    approval endpoints need a policy with sudo. *)

From S2P Require Import Prelude GoLib Storage Router Routing RouterFacts Scenario RouterScenario.
Import Router.

(** ** [http/logical.go] *)

(** [strconv.ParseBool]. *)
Definition ParseBool (s : string) : option bool :=
  if decide (s ∈ ["1"; "t"; "T"; "TRUE"; "true"; "True"]) then Some true
  else if decide (s ∈ ["0"; "f"; "F"; "FALSE"; "false"; "False"]) then Some false
  else None.

(** An HTTP request: its method, the path of its URL, and the first value of
    the query parameter [list], empty where there is none. *)
Record HttpRequest := mkHttp { Method : string; URL_Path : string; Query_list : string }.

(** [http.StatusBadRequest]. *)
Definition bad_request : Z := 400.

Definition with_slash (path : string) : string :=
  if HasSuffix path "/" then path else path +:+ "/".

(** [ns] is the path of the namespace of the request's context. *)
Definition buildLogicalPath (ns : Ctx) (r : HttpRequest) : result Z string :=
  match ns with
  | None => Err bad_request
  | Some nsp =>
      let path := TrimPrefix (TrimPrefix (URL_Path r) "/v1/") nsp in
      if decide (Method r = "GET") then
        if decide (Query_list r = "") then Ok path
        else match ParseBool (Query_list r) with
             | None => Err bad_request
             | Some list => Ok (if list then with_slash path else path)
             end
      else if decide (Method r = "LIST") then Ok (with_slash path)
      else Ok path
  end.

(** ** [vault/logical_system.go] *)

(** The field [Root] of the system backend's special paths. *)
Definition system_root_paths : list string := [
  "auth/*"; "remount"; "audit"; "audit/*"; "raw"; "raw/*";
  "replication/primary/secondary-token"; "replication/performance/primary/secondary-token";
  "replication/dr/primary/secondary-token"; "replication/reindex"; "replication/dr/reindex";
  "replication/performance/reindex"; "rotate"; "config/cors"; "config/auditing/*";
  "config/ui/headers/*"; "plugins/catalog/*"; "plugins/runtimes/catalog/*"; "revoke-prefix/*";
  "revoke-force/*"; "leases/revoke-prefix/*"; "leases/revoke-force/*"; "leases/lookup/*";
  "storage/raft/snapshot-auto/config/*"; "leases"; "reporting/scan"; "internal/inspect/*";
  "internal/counters/activity/export"; "seal"; "step-down";
  "activation-flags/oauth-resource-server/activate";
  "activation-flags/oauth-resource-server/deactivate"; "config/oauth-resource-server/*";
  "approvals/config"; "approvals/pending"].

(** ** What the entries mean *)

(** An entry without wildcard segments: its key in the tree, and the paths it
    stands for. *)
Definition entry_key (p : string) : string := if ends_star p then TrimSuffix p "*" else p.
Definition entry_matches (remain p : string) : bool :=
  if ends_star p then HasPrefix remain (TrimSuffix p "*") else bool_decide (p = remain).

(** Any entry. *)
Definition pattern_matches (remain p : string) : bool :=
  if Contains p "+"
  then pathMatchesWildcardPath (split_slash remain) (segments (parse_wildcard p))
         (isPrefix (parse_wildcard p))
  else entry_matches remain p.

(** No exact entry lies at or below the key of a prefix entry. *)
Definition unshadowed (l : list string) : bool :=
  forallb (λ p, forallb (λ q,
    negb (ends_star p && negb (ends_star q) && HasPrefix (entry_key q) (entry_key p))) l) l.

Definition plain (l : list string) : list string := filter (λ p, Contains p "+" = false) l.

Section meaning.
Context `{RadixSearch}.

Lemma unshadowed_spec l p q :
  unshadowed l = true → p ∈ l → q ∈ l → ends_star p = true →
  HasPrefix (entry_key q) (entry_key p) = true → ends_star q = true.
Proof.
  unfold unshadowed. rewrite forallb_forall. intros Hu Hp%list_elem_of_In Hq%list_elem_of_In Hs Hk.
  pose proof (Hu _ Hp) as Hpq. rewrite forallb_forall in Hpq. specialize (Hpq _ Hq). simpl in Hpq.
  rewrite Hs, Hk in Hpq. by destruct (ends_star q).
Qed.

Lemma pathsToRadix_snoc l p :
  pathsToRadix (l ++ [p]) = <[entry_key p := ends_star p]> (pathsToRadix l).
Proof. unfold pathsToRadix, entry_key. rewrite fold_left_app. simpl. by destruct (ends_star p). Qed.

Lemma pathsToRadix_some l k b :
  pathsToRadix l !! k = Some b → ∃ p, p ∈ l ∧ entry_key p = k ∧ ends_star p = b.
Proof.
  induction l as [|p l IH] using rev_ind; [unfold pathsToRadix; simpl; by intros ?%lookup_empty_Some|].
  rewrite pathsToRadix_snoc. setoid_rewrite elem_of_app.
  intros [[<- <-]|[_ (q & ? & ?)%IH]]%lookup_insert_Some; [|by eauto].
  exists p. split_and!; [right; by apply list_elem_of_singleton|done..].
Qed.

Lemma pathsToRadix_has l p : p ∈ l → is_Some (pathsToRadix l !! entry_key p).
Proof.
  induction l as [|q l IH] using rev_ind; [by intros ?%not_elem_of_nil|].
  rewrite pathsToRadix_snoc, elem_of_app, list_elem_of_singleton, lookup_insert_is_Some'.
  intros [?| ->]; auto.
Qed.

Lemma entry_matches_above remain p : entry_matches remain p = true → HasPrefix remain (entry_key p) = true.
Proof.
  unfold entry_matches, entry_key. destruct (ends_star p); [done|].
  intros ->%bool_decide_eq_true. apply HasPrefix_refl.
Qed.

Lemma prefix_same s k : HasPrefix s k = true → (String.length s ≤ String.length k)%nat → k = s.
Proof.
  intros (r & ->)%HasPrefix_spec. induction k as [|c k IH]; simpl; intros Hl.
  - destruct r; [done|simpl in *; lia].
  - change (String c k = String c (k +:+ r)). f_equal. apply IH. lia.
Qed.

Lemma existsb_false {A} (f : A → bool) l : (∀ x, x ∈ l → f x = true → False) → existsb f l = false.
Proof.
  intros Hf. apply not_true_is_false. intros (x & Hx & ?)%existsb_exists. apply (Hf x); [by apply list_elem_of_In|done].
Qed.

(** The search of the tree, where an exact entry is compared and [hidden] is
    what is tried where no entry is found. *)
Lemma tree_match_spec l remain hidden :
  unshadowed l = true →
  match LongestPrefix (pathsToRadix l) remain with
  | None => hidden
  | Some (m, true) => HasPrefix remain m
  | Some (m, false) => if decide (m = remain) then true else hidden
  end = existsb (entry_matches remain) l || hidden.
Proof.
  intros Hu. destruct (LongestPrefix _ _) as [[m []]|] eqn:Hs.
  - apply LongestPrefix_some in Hs as ((p & Hp & <- & Hstar)%pathsToRadix_some & Hm & _). rewrite Hm.
    symmetry. apply orb_true_iff. left. apply existsb_exists. exists p. split; [by apply list_elem_of_In|].
    unfold entry_matches. unfold entry_key in Hm. by rewrite Hstar in *.
  - apply LongestPrefix_some in Hs as ((p & Hp & <- & Hstar)%pathsToRadix_some & Hm & Hmax).
    destruct (decide (entry_key p = remain)) as [He|Hne].
    + symmetry. apply orb_true_iff. left. apply existsb_exists. exists p. split; [by apply list_elem_of_In|].
      unfold entry_matches, entry_key in *. rewrite Hstar in *. by apply bool_decide_eq_true.
    + rewrite existsb_false; [done|]. intros q Hq Hmq.
      pose proof (entry_matches_above _ _ Hmq) as Hab.
      pose proof (Hmax _ (pathsToRadix_has _ _ Hq) Hab) as Hle.
      destruct (ends_star q) eqn:Hsq.
      * assert (ends_star p = true); [|congruence]. apply (unshadowed_spec l q p); [done..|].
        by eapply prefix_comparable.
      * unfold entry_matches in Hmq. unfold entry_key in Hle. rewrite Hsq in *.
        apply bool_decide_eq_true in Hmq as <-. by apply Hne, prefix_same.
  - rewrite existsb_false; [done|]. intros q Hq Hmq. rewrite LongestPrefix_none in Hs.
    specialize (Hs _ (pathsToRadix_has _ _ Hq)). by rewrite entry_matches_above in Hs.
Qed.

(** ** Root paths *)

Lemma root_match l remain :
  unshadowed l = true →
  match LongestPrefix (pathsToRadix l) remain with
  | None => false
  | Some (m, true) => HasPrefix remain m
  | Some (m, false) => bool_decide (m = remain)
  end = existsb (entry_matches remain) l.
Proof.
  intros Hu. rewrite <-orb_false_r, <-(tree_match_spec l remain false Hu).
  destruct (LongestPrefix _ _) as [[m []]|]; [done| |done].
  by destruct (decide (m = remain)); [rewrite bool_decide_eq_true_2|rewrite bool_decide_eq_false_2].
Qed.

(** ** Special paths *)

Lemma parse_loop_spec l tmp wild tmp' wild' :
  parse_loop l tmp wild = Ok (tmp', wild') →
  tmp' = tmp ++ plain l ∧ wild' = wild ++ (parse_wildcard <$> filter (λ p, Contains p "+" = true) l).
Proof.
  revert tmp wild. induction l as [|p l IH]; intros tmp wild; cbn [parse_loop].
  - intros [= <- <-]. unfold plain. by rewrite !app_nil_r.
  - destruct (isValidSpecialPath p); [done|]. unfold plain. rewrite !filter_cons.
    destruct (Contains p "+") eqn:Hc; intros [-> ->]%IH; unfold plain; simpl;
      rewrite <-?app_assoc; done.
Qed.

Lemma existsb_split remain l :
  existsb (pattern_matches remain) l =
  existsb (entry_matches remain) (plain l) ||
  existsb (λ w, pathMatchesWildcardPath (split_slash remain) (segments w) (isPrefix w))
    (parse_wildcard <$> filter (λ p, Contains p "+" = true) l).
Proof.
  unfold plain. induction l as [|p l IH]; [done|]. rewrite !filter_cons. simpl. rewrite IH.
  unfold pattern_matches at 1. destruct (Contains p "+"); simpl; [|by rewrite orb_assoc].
  by rewrite !orb_assoc, (orb_comm _ (existsb (entry_matches remain) _)).
Qed.
End meaning.

(** ** The special paths of a mounted backend *)

Section mounted_paths.
Context `{GoTables} `{RadixTree} `{RadixSearch}.

Lemma special_match_spec l pe remain :
  parseSpecialPaths l = Ok pe → unshadowed (plain l) = true →
  special_match pe remain = existsb (pattern_matches remain) l.
Proof.
  unfold parseSpecialPaths. destruct (parse_loop l [] []) as [[tmp wild]|] eqn:Hp; [|done].
  intros [= <-] Hu. apply parse_loop_spec in Hp as [-> ->]. rewrite existsb_split.
  rewrite <-(tree_match_spec _ _ _ Hu). unfold special_match. simpl.
  destruct (LongestPrefix _ _) as [[m []]|]; [done|done|].
  by destruct (parse_wildcard <$> filter _ l).
Qed.

Lemma Mount_ok be prefix me view r r' :
  Mount be prefix me view r = (None, r') →
  let ps := default (mkPaths [] [] [] [] []) (be ≫= SpecialPaths) in
  ∃ l re, mounted r' (nsPath me +:+ prefix) l re ∧ rootPaths re = pathsToRadix (Root ps) ∧
    parseSpecialPaths (Unauthenticated ps) = Ok (loginPaths re) ∧
    parseSpecialPaths (Binary ps) = Ok (binaryPaths re) ∧
    parseSpecialPaths (Limited ps) = Ok (limitedPaths re) ∧
    parseSpecialPaths (AllowSnapshotRead ps) = Ok (allowSnapshotReadPaths re).
Proof.
  unfold Mount. cbv zeta. set (ps := default _ _). clearbody ps.
  destruct (LongestPrefix (root r) (nsPath me +:+ prefix)) as [[[|c k] l]|]; [|done|];
    (destruct (parseSpecialPaths (Unauthenticated ps)) as [login|]; [|done];
     destruct (parseSpecialPaths (Binary ps)) as [binary|]; [|done];
     destruct (parseSpecialPaths (Limited ps)) as [limited|]; [|done];
     destruct (parseSpecialPaths (AllowSnapshotRead ps)) as [snapshot|]; [|done];
     do 4 (destruct (decide _); [done|]); intros [= <-];
     eexists _, _; split_and!; [split; simpl; by rewrite lookup_insert_eq|..]; done).
Qed.

Lemma special_mounted r k l re ns path remain (pick : routeEntry → specialPathsEntry) ps :
  wf r → mounted r k l re → ns +:+ path = k +:+ remain →
  parseSpecialPaths ps = Ok (pick re) → unshadowed (plain ps) = true →
  specialPath r (Some ns) path pick = existsb (pattern_matches remain) ps.
Proof.
  intros Hw Hm He Hp Hu. unfold specialPath. rewrite He.
  rewrite (lookup_mounted r k l re) by (done || (apply HasPrefix_spec; by eexists)).
  rewrite TrimPrefix_app. by apply special_match_spec.
Qed.

Lemma Mount_reachable r r' be prefix me view :
  reachable r → guarded (OMount be prefix me view) r → Mount be prefix me view r = (None, r') →
  reachable r'.
Proof.
  intros Hr Hg HM. pose proof (reachable_op _ _ Hr Hg) as Hr'. cbn [apply_op] in Hr'. by rewrite HM in Hr'.
Qed.

Lemma root_mounted r k l re ns path remain ps :
  wf r → mounted r k l re → ns +:+ path = k +:+ remain →
  rootPaths re = pathsToRadix ps → unshadowed ps = true →
  RootPath r (Some ns) path = existsb (entry_matches remain) ps.
Proof.
  intros Hw Hm He Hroot Hu. unfold RootPath. rewrite He.
  rewrite (lookup_mounted r k l re) by (done || (apply HasPrefix_spec; by eexists)).
  by rewrite TrimPrefix_app, Hroot, root_match.
Qed.

(** The special paths of a mounted backend mean what its lists say: where
    no exact entry of a list lies below a prefix entry of it, a path below
    the mount needs a root token, no token, binary handling, limiting or
    snapshot reads exactly if some entry of that list matches the rest of the
    path (as a prefix, exactly, or segment by segment). *)
Theorem special_paths_meaning r r' be prefix me view remain :
  reachable r → guarded (OMount be prefix me view) r →
  Mount be prefix me view r = (None, r') →
  let ps := default (mkPaths [] [] [] [] []) (be ≫= SpecialPaths) in
  let path := prefix +:+ remain in
  (unshadowed (Root ps) = true →
     RootPath r' (Some (nsPath me)) path = existsb (entry_matches remain) (Root ps)) ∧
  (unshadowed (plain (Unauthenticated ps)) = true →
     LoginPath r' (Some (nsPath me)) path = existsb (pattern_matches remain) (Unauthenticated ps)) ∧
  (unshadowed (plain (Binary ps)) = true →
     BinaryPath r' (Some (nsPath me)) path = existsb (pattern_matches remain) (Binary ps)) ∧
  (unshadowed (plain (Limited ps)) = true →
     LimitedPath r' (Some (nsPath me)) path = existsb (pattern_matches remain) (Limited ps)) ∧
  (unshadowed (plain (AllowSnapshotRead ps)) = true →
     AllowSnapshotReadPath r' (Some (nsPath me)) path =
       existsb (pattern_matches remain) (AllowSnapshotRead ps)).
Proof.
  intros Hr Hg HM ps path. pose proof (reachable_wf _ (Mount_reachable _ _ _ _ _ _ Hr Hg HM)) as Hw.
  apply Mount_ok in HM as (l & re & Hm & Hroot & Hl & Hb & Hli & Hs). fold ps in Hroot, Hl, Hb, Hli, Hs.
  assert (nsPath me +:+ path = (nsPath me +:+ prefix) +:+ remain) as He by by rewrite str_app_assoc.
  split_and!; [intros; by eapply root_mounted|intros; by eapply special_mounted..].
Qed.

(** Listing the approval rules or the pending requests needs no sudo,
    though the system backend lists both endpoints among those that do: a
    list request always carries a trailing slash, with which the exact
    entries do not match; only the same paths without it, which no listing
    uses, are root paths. *)
Theorem approval_lists_need_no_sudo r r' be ps me view endpoint req path :
  reachable r → guarded (OMount (Some be) mountPathSystem me view) r →
  Mount (Some be) mountPathSystem me view r = (None, r') →
  SpecialPaths be = Some ps → Root ps = system_root_paths → nsPath me = "" →
  endpoint ∈ ["approvals/config"; "approvals/pending"] →
  URL_Path req = "/v1/sys/" +:+ endpoint →
  Method req = "LIST" ∨ (Method req = "GET" ∧ ParseBool (Query_list req) = Some true) →
  buildLogicalPath (Some "") req = Ok path →
  RootPath r' (Some "") path = false ∧
  RootPath r' (Some "") (mountPathSystem +:+ endpoint) = true.
Proof.
  intros Hr Hg HM Hps Hroot Hns Hend Hurl Hlist Hpath.
  assert (∀ remain, RootPath r' (Some "") (mountPathSystem +:+ remain)
    = existsb (entry_matches remain) system_root_paths) as Hmean.
  { intros remain. pose proof (reachable_wf _ (Mount_reachable _ _ _ _ _ _ Hr Hg HM)) as Hw.
    apply Mount_ok in HM as (l & re & Hm & Hrt & _). simpl in Hrt. rewrite Hps in Hrt. simpl in Hrt.
    rewrite Hns in Hm. rewrite Hroot in Hrt. by eapply root_mounted. }
  assert (path = mountPathSystem +:+ (endpoint +:+ "/")) as ->.
  { unfold buildLogicalPath in Hpath. rewrite Hurl in Hpath.
    destruct Hlist as [Hme|[Hme Hq]]; rewrite Hme in Hpath; simpl in Hpath.
    - apply elem_of_cons in Hend as [->|[->|[]%not_elem_of_nil]%elem_of_cons];
        by injection Hpath as <-.
    - destruct (decide (Query_list req = "")) as [He|_]; [by rewrite He in Hq|].
      rewrite Hq in Hpath.
      apply elem_of_cons in Hend as [->|[->|[]%not_elem_of_nil]%elem_of_cons];
        by injection Hpath as <-. }
  rewrite !Hmean.
  apply elem_of_cons in Hend as [->|[->|[]%not_elem_of_nil]%elem_of_cons]; by vm_compute.
Qed.
End mounted_paths.

(** An exact entry hides a prefix entry above it: with the entries a/* and
    a/b, the path a/bc starts with a/ and still matches neither, although the
    prefix is said to come first. *)
Theorem exact_entry_hides_prefix :
  ∃ pe, parseSpecialPaths ["a/*"; "a/b"] = Ok pe ∧
    existsb (pattern_matches "a/bc") ["a/*"; "a/b"] = true ∧ special_match pe "a/bc" = false.
Proof. eexists. split_and!; reflexivity. Qed.

(** ** The system backend, mounted *)

Definition answer_ok (req : Request) : option Response * option err * Request :=
  (Some (mkResp None None VNil), None, req).
Definition check_ok (req : Request) : bool * bool * option err * Request := (true, true, None, req).

Definition sys_backend : Backend :=
  mkBackend (Some (mkPaths system_root_paths ["wrapping/lookup"; "storage/+/read*"] [] [] []))
    answer_ok check_ok.
Definition sys_entry : MountEntry :=
  mkEntry "mounts" "sys/" "system" "uuid-sys" "system_1" false false "" "" "" TokenTypeDefault None None.
Definition sys_mount : Op := OMount (Some sys_backend) "sys/" sys_entry "sys/".
Definition sys_table : t := apply_op sys_mount NewRouter.

Lemma sys_guarded : guarded sys_mount NewRouter.
Proof. repeat split. Qed.

(** The unauthenticated paths below the mount. *)
Lemma special_paths_witness :
  LoginPath sys_table (Some "") "sys/storage/raft/reader" = true ∧
  RootPath sys_table (Some "") "sys/raw/core" = true.
Proof.
  assert (Mount (Some sys_backend) "sys/" sys_entry "sys/" NewRouter = (None, sys_table)) as HM
    by reflexivity.
  split.
  - destruct (special_paths_meaning NewRouter sys_table (Some sys_backend) "sys/" sys_entry "sys/"
      "storage/raft/reader" reachable_new sys_guarded HM) as (_ & Hl & _).
    etransitivity; [exact (Hl eq_refl)|reflexivity].
  - destruct (special_paths_meaning NewRouter sys_table (Some sys_backend) "sys/" sys_entry "sys/"
      "raw/core" reachable_new sys_guarded HM) as (Hl & _).
    etransitivity; [exact (Hl eq_refl)|reflexivity].
Defined.

Lemma approval_lists_witness :
  RootPath sys_table (Some "") "sys/approvals/pending/" = false ∧
  RootPath sys_table (Some "") "sys/approvals/pending" = true.
Proof.
  apply (approval_lists_need_no_sudo NewRouter sys_table sys_backend
    (mkPaths system_root_paths ["wrapping/lookup"; "storage/+/read*"] [] [] []) sys_entry "sys/"
    "approvals/pending" (mkHttp "GET" "/v1/sys/approvals/pending" "true") "sys/approvals/pending/"
    reachable_new sys_guarded);
    [reflexivity..|right; left|reflexivity|right; split; reflexivity|reflexivity].
Defined.
