(* ===== verification/RoutingFacts.v ===== *)
(** * What routing does to a request

    A request reaches the one mount its path lies under; the backend sees
    neither the client's token nor what the core keeps about it, only the
    headers the mount lets through; whatever the backend does to the request,
    the caller gets it back as it was; a tainted mount is closed. *)

From S2P Require Import Prelude GoLib Storage Router Routing RouterFacts Scenario RouterScenario SystemPaths.
Import Router.

Section routing.
Context `{GoTables} `{!Strutil} `{MapRange} `{Crypto} `{RadixTree} `{RadixSearch}.

(** ** The mount of a path *)

Lemma search_self {V} (m : gmap string V) k v : m !! k = Some v → LongestPrefix m k = Some (k, v).
Proof.
  intros Hk. apply LongestPrefix_some. split_and!; [done|apply HasPrefix_refl|].
  intros k' _ (r & ->)%HasPrefix_spec. clear. induction k'; simpl; lia.
Qed.

(** C15: routing is unambiguous: in every table that the guarded operations of
    the core lead to, a path that lies under a mount is routed to that mount
    and to no other, its storage is that mount's, and the mount is found by
    its identifier and by its accessor. *)
Theorem routing_unambiguous r k l re ns path :
  reachable r → mounted r k l re → HasPrefix (ns +:+ path) k = true →
  find_mount r ns path = Some (path, k, re) ∧
  MatchingMount r (Some ns) path = k ∧
  MatchingStorageByAPIPath r (Some ns) path = Some (storagePrefix re) ∧
  MatchingMountByUUID r (UUID (mountEntry re)) = Some (mountEntry re) ∧
  MatchingMountByAccessor r (Accessor (mountEntry re)) = Some (mountEntry re) ∧
  ∀ k', is_Some (root r !! k') → HasPrefix (ns +:+ path) k' = true → k' = k.
Proof.
  intros Hr%reachable_wf Hm Hp. pose proof (lookup_mounted r k l re _ Hr Hm Hp) as Hl.
  destruct (wf_index _ Hr _ _ _ Hm) as (_ & Hu & Ha). destruct (wf_ids _ Hr _ _ _ Hm) as [Hu0 Ha0].
  unfold find_mount, MatchingMount, matchingMountInternal, MatchingStorageByAPIPath, matchingStorage,
    MatchingMountByUUID, MatchingMountByAccessor, cached.
  rewrite !decide_False, (search_self _ _ _ Hu), (search_self _ _ _ Ha) by done.
  simpl. rewrite Hl. split_and!; [done..|].
  intros k' Hk' Hp'. destruct Hm as [Hk _].
  destruct (Nat.le_ge_cases (String.length k') (String.length k)).
  - symmetry. apply (wf_free _ Hr); [by eexists|done|]. by eapply prefix_comparable.
  - apply (wf_free _ Hr); [done|by eexists|]. by eapply prefix_comparable.
Qed.

(** ** What the backend is given *)

(** The call of the backend that a request leads to, if any: the backend, its
    mount, and the request before and after it is prepared. *)
Definition handed (r : t) (salt : result err (string → string)) (ns : string) (req : Request)
    : option (Backend * string * routeEntry * Request * Request) :=
  '(path, mount, re) ← find_mount r ns (rPath req);
  be ← backend re;
  if tainted re && negb (bool_decide (Operation req = RevokeOperation)
                         || bool_decide (Operation req = RollbackOperation))
  then None
  else
    let orig := set_rPath path req in
    let rel := relative ns mount re orig in
    match backend_token salt (UUID (mountEntry re)) path rel with
    | inr _ => None
    | inl token =>
        Some (be, mount, re, orig, sanitized token (passed_headers (mountEntry re) (Headers req)) rel)
    end.

Lemma handed_inv r salt ns req be mount re orig i :
  handed r salt ns req = Some (be, mount, re, orig, i) →
  ∃ path token,
    find_mount r ns (rPath req) = Some (path, mount, re) ∧ backend re = Some be ∧
    tainted re && negb (bool_decide (Operation req = RevokeOperation)
                        || bool_decide (Operation req = RollbackOperation)) = false ∧
    orig = set_rPath path req ∧
    backend_token salt (UUID (mountEntry re)) path (relative ns mount re orig) = inl token ∧
    i = sanitized token (passed_headers (mountEntry re) (Headers req)) (relative ns mount re orig).
Proof.
  unfold handed. destruct (find_mount r ns (rPath req)) as [[[path m] re']|]; simpl; [|done].
  destruct (backend re') as [be'|] eqn:Hbe; simpl; [|done].
  destruct (tainted re' && _) eqn:Ht; [done|].
  destruct (backend_token _ _ _ _) as [token|] eqn:Htok; [|done].
  intros [= <- <- <- <- <-]. by exists path, token.
Qed.

Lemma route_handed r salt ns req ec be mount re orig i :
  handed r salt ns req = Some (be, mount, re, orig, i) →
  routeCommon r salt (Some ns) req ec = call_backend be mount (mountEntry re) ec orig i.
Proof.
  intros (path & token & Hf & Hbe & Ht & -> & Htok & ->)%handed_inv.
  unfold routeCommon. rewrite Hf. unfold route_to. rewrite Hbe. simpl. rewrite Ht. by rewrite Htok.
Qed.

(** The keys that the filter keeps are original names of allowed headers. *)
Lemma lower_keys_spec orig ch key : lower_keys orig !! ch = Some key → ToLower key = ch.
Proof.
  unfold lower_keys. rewrite <-fold_left_rev_right.
  induction (rev (range_keys orig)) as [|k l IH]; simpl; [by intros ?%lookup_empty_Some|].
  intros [[<- <-]|[_ ?]]%lookup_insert_Some; auto.
Qed.

Lemma no_headers key : ¬ is_Some (default ∅ (None : headers) !! key).
Proof. simpl. by intros [? ?%lookup_empty_Some]. Qed.

Lemma filteredHeaders_spec hs cand denied key :
  is_Some (default ∅ (filteredHeaders hs cand denied) !! key) →
  ToLower key ∈ Difference cand denied ∧ ToLower key ∉ ToLower <$> denied.
Proof.
  unfold filteredHeaders. destruct (decide (cand = [])); [by intros ?%no_headers|].
  simpl. set (d := Difference cand denied).
  assert (∀ l (m : gmap string (list string)), (∀ ch, ch ∈ l → ch ∈ d) → (is_Some (m !! key) → ToLower key ∈ d) →
    is_Some (fold_left (λ ret ch, match lower_keys (default ∅ hs) !! ch with
      | Some header => <[header := default [] (default ∅ hs !! header)]> ret
      | None => ret end) l m !! key) → ToLower key ∈ d) as Hfold.
  { induction l as [|ch l IH]; intros m Hl Hm; simpl; [done|]. apply IH.
    - intros ch' Hch. apply Hl. by right.
    - destruct (lower_keys _ !! ch) as [header|] eqn:Hh; [|done].
      rewrite lookup_insert_is_Some. intros [<-|[_ ?]]; [|auto].
      rewrite (lower_keys_spec _ _ _ Hh). apply Hl. by left. }
  intros Hk. assert (ToLower key ∈ d) as Hd.
  { eapply Hfold; [done| |exact Hk]. by intros [? ?%lookup_empty_Some]. }
  split; [done|]. by apply Difference_not_in with cand.
Qed.

(** The mounts whose backends are part of the core. *)
Definition core_path (path : string) : bool :=
  HasPrefix path "auth/token/" || HasPrefix path mountPathSystem
  || HasPrefix path mountPathIdentity || HasPrefix path mountPathCubbyhole.

Lemma backend_token_salted salt uuid path req token :
  backend_token salt uuid path req = inl token → core_path path = false →
  token = SaltID uuid (ClientToken req).
Proof.
  unfold backend_token, core_path. intros Ht Hc. apply orb_false_iff in Hc as [Hc Hcub].
  rewrite Hc, Hcub in Ht. by injection Ht.
Qed.

(** C16: a backend never sees the client's token: the request it is given has
    no token entry, inbound token, remaining uses, multi-factor credentials
    or control group, no X-Vault-Token header under any capitalisation, only
    its own storage, and, outside the core's own mounts, a salted hash of the
    token in the token's place. *)
Theorem backend_isolated r salt ns req ec be mount re orig i :
  handed r salt ns req = Some (be, mount, re, orig, i) →
  routeCommon r salt (Some ns) req ec = call_backend be mount (mountEntry re) ec orig i ∧
  (rTokenEntry i, InboundSSCToken i, ClientTokenRemainingUses i, MFACreds i, ControlGroup i) =
    (None, "", 0, None, None) ∧
  rStorage i = Some (storagePrefix re) ∧ MountPoint i = mount ∧
  (∀ key, is_Some (default ∅ (Headers i) !! key) → ToLower key ≠ "x-vault-token") ∧
  (core_path (rPath orig) = false →
     ClientToken i = SaltID (UUID (mountEntry re)) (ClientToken req)).
Proof.
  intros Hh. split; [by apply route_handed|].
  apply handed_inv in Hh as (path & token & _ & _ & _ & -> & Htok & ->).
  split_and!; [done..| |].
  - intros key. simpl. unfold passed_headers.
    destruct (passthrough_request_headers (mountEntry re)) as [[|h l]|];
      [by intros ?%no_headers| |by intros ?%no_headers].
    intros [_ Hn]%filteredHeaders_spec Heq. apply Hn. rewrite Heq. simpl.
    apply list_elem_of_singleton. vm_compute. reflexivity.
  - intros Hc. by apply (backend_token_salted _ _ _ _ _ Htok) in Hc as ->.
Qed.

(** ** The request afterwards *)

(** What the caller finds unchanged. *)
Definition callers (req : Request) :=
  (ID req, rPath req, RecoverSourcePath req, EntityID req, ClientToken req,
   ClientTokenRemainingUses req, InboundSSCToken req, Headers req, WrapInfo_ req,
   (MFACreds req, ControlGroup req, PolicyOverride req, Connection req)).

Lemma restored_callers mount me orig req req' :
  restored mount me orig req = Some req' →
  callers req' = callers orig ∧ rStorage req' = None ∧
  (te_CubbyholeID <$> rTokenEntry req') = (te_CubbyholeID <$> rTokenEntry orig).
Proof.
  unfold restored. destruct (rTokenEntry req) as [te|].
  - destruct (decide _); [by intros [= <-]|]. destruct (rTokenEntry orig) as [te0|] eqn:Ho; [|done].
    intros [= <-]. done.
  - by intros [= <-].
Qed.

Lemma restored_none mount me orig req : restored mount me orig req = None → rTokenEntry orig = None.
Proof.
  unfold restored. destruct (rTokenEntry req) as [te|]; [|done].
  destruct (decide _); [done|]. by destruct (rTokenEntry orig).
Qed.

(** Whatever a backend does to the request it is given, the caller gets
    its own request back: the path, the identity, the token, the headers and
    what the core keeps are as they were, and the backend's storage is
    detached.  The only call that does not return is one where the backend
    attaches an external identifier to a request without a token. *)
Theorem request_restored r salt ns req ec be mount re orig i :
  handed r salt ns req = Some (be, mount, re, orig, i) →
  (∃ a, routeCommon r salt (Some ns) req ec = Some a ∧
     callers (ans_req a) = callers orig ∧ rStorage (ans_req a) = None ∧
     (te_CubbyholeID <$> rTokenEntry (ans_req a)) = (te_CubbyholeID <$> rTokenEntry req)) ∨
  (routeCommon r salt (Some ns) req ec = None ∧ rTokenEntry req = None).
Proof.
  intros Hh. rewrite (route_handed _ _ _ _ ec _ _ _ _ _ Hh).
  apply handed_inv in Hh as (path & token & _ & _ & _ & -> & _ & _). unfold call_backend.
  destruct ec; [destruct (HandleExistenceCheck be i) as [[[ok ex] e] req']
               |destruct (HandleRequest be i) as [[resp e] req']];
    destruct (restored _ _ _ _) as [req''|] eqn:Hr; simpl;
    [left|right|left|right]; try (split; [done|by apply restored_none in Hr]);
    apply restored_callers in Hr; by eexists.
Qed.

(** ** Taint *)

(** A tainted mount is closed: after it is tainted, every request below it
    that is not a revocation or a rollback is refused as an unsupported path,
    reaches no backend and is returned as it was; removing the taint opens
    the mount again. *)
Theorem tainted_mount_closed r k l re ns path req salt ec :
  reachable r → mounted r k l re → HasPrefix (ns +:+ path) k = true →
  HasPrefix (ns +:+ rPath req) k = true →
  Operation req ≠ RevokeOperation → Operation req ≠ RollbackOperation →
  let closed := (Taint (Some ns) path r).2 in
  handed closed salt ns req = None ∧
  (∃ a, routeCommon closed salt (Some ns) req ec = Some a ∧
     ans_err a = Some ErrUnsupportedPath ∧ callers (ans_req a) = callers req) ∧
  mounted (Untaint (Some ns) path closed).2 k l (set_tainted false re).
Proof.
  intros Hr Hm Hp Hpr Hop1 Hop2 closed.
  assert (reachable closed) as Hc by by apply (reachable_op (OTaint (Some ns) path)).
  assert (∀ b r, reachable r → ∀ re, mounted r k l re →
    mounted (mark b (Some ns) path r).2 k l (set_tainted b re)) as Hmark.
  { intros b r0 Hr0%reachable_wf re0 [Hk Hl]. unfold mark.
    rewrite (search_free _ _ k l) by (try done; apply (wf_free _ Hr0)).
    split; [done|]. simpl. by rewrite lookup_alter_eq, Hl. }
  assert (mounted closed k l (set_tainted true re)) as Hmc by by apply Hmark.
  pose proof (lookup_mounted closed k l _ _ (reachable_wf _ Hc) Hmc Hpr) as Hl.
  split_and!.
  - unfold handed, find_mount. rewrite Hl. simpl. destruct (backend re); simpl; [|done].
    by rewrite !bool_decide_eq_false_2.
  - unfold routeCommon, find_mount. rewrite Hl. unfold route_to. simpl.
    destruct (backend re); [|by eexists]. rewrite !bool_decide_eq_false_2 by done. by eexists.
  - by apply (Hmark false closed Hc (set_tainted true re)).
Qed.
End routing.

(** ** A table with three mounts *)

Definition named_entry (path type id : string) : MountEntry :=
  mkEntry "mounts" path type ("uuid-" +:+ id) (id +:+ "_1") false false "" "" "" TokenTypeDefault
    (Some ["X-Custom"; "X-Vault-Token"]) None.

(** A backend that keeps nothing of the request it is given. *)
Definition hostile (req : Request) : Request :=
  mkReq "" "" "elsewhere" "" "" "" "" "" "" false "" None "" "stolen" 0 "" (rTokenEntry req)
    None None None None true None 0 VNil.
Definition kv_backend : Backend :=
  mkBackend None (λ req, (Some (mkResp None None VNil), None, hostile req))
    (λ req, (true, false, None, hostile req)).

Definition table2 : t :=
  apply_op (OMount (Some sys_backend) "cubbyhole/" (named_entry "cubbyhole/" "cubbyhole" "cubby") "cubby/")
    sys_table.
Definition table3 : t :=
  apply_op (OMount (Some kv_backend) "secret/" (named_entry "secret/" "kv" "kv") "logical/kv/") table2.
Definition kv_route : routeEntry :=
  mkRoute false (Some kv_backend) (named_entry "secret/" "kv" "kv") "logical/kv/" ∅
    (mkSpecial ∅ []) (mkSpecial ∅ []) (mkSpecial ∅ []) (mkSpecial ∅ []).

Lemma table3_reachable : reachable table3.
Proof.
  apply (reachable_op (OMount (Some kv_backend) "secret/" _ "logical/kv/")); [|repeat split; vm_compute; reflexivity].
  apply (reachable_op (OMount (Some sys_backend) "cubbyhole/" _ "cubby/")); [|repeat split; vm_compute; reflexivity].
  apply (reachable_op sys_mount); [apply reachable_new|apply sys_guarded].
Qed.

Lemma kv_mounted : mounted table3 "secret/" 2 kv_route.
Proof. split; vm_compute; reflexivity. Qed.

Definition service_token : TokenEntry := mkTE TokenTypeService "root" "cubby-id" "".
Definition req_at (op path : string) (te : TokenEntry) : Request :=
  mkReq "req-1" op path "" "" "" "" "" "" false "" None "entity-1" "hvs.token" 0 "hvs.inbound"
    (Some te) (Some {["X-VAULT-token" := ["hvs.token"]; "x-custom" := ["v"]]}) None None None false None 0 VNil.

Definition kv_read : Request := req_at "read" "secret/data/a" service_token.
Definition kv_handed : Request :=
  sanitized (SaltID "uuid-kv" "hvs.token") (Some {["x-custom" := ["v"]]})
    (relative "" "secret/" kv_route kv_read).

Lemma kv_read_handed :
  handed table3 (Err ErrSalt) "" kv_read = Some (kv_backend, "secret/", kv_route, kv_read, kv_handed).
Proof. vm_compute. reflexivity. Qed.

Lemma routing_unambiguous_witness : MatchingMount table3 (Some "") "secret/data/a" = "secret/".
Proof.
  destruct (routing_unambiguous table3 "secret/" 2 kv_route "" "secret/data/a"
    table3_reachable kv_mounted eq_refl) as (_ & Hm & _). exact Hm.
Defined.

Lemma backend_isolated_witness : ClientToken kv_handed = SaltID "uuid-kv" "hvs.token".
Proof.
  destruct (backend_isolated table3 (Err ErrSalt) "" kv_read false kv_backend "secret/" kv_route kv_read
    kv_handed kv_read_handed) as (_ & _ & _ & _ & _ & Ht). exact (Ht eq_refl).
Defined.

Lemma request_restored_witness :
  ∃ a, Route table3 (Err ErrSalt) (Some "") kv_read = Some a ∧ callers (ans_req a) = callers kv_read.
Proof.
  destruct (request_restored table3 (Err ErrSalt) "" kv_read false kv_backend "secret/" kv_route kv_read
    kv_handed kv_read_handed) as [(a & Ha & Hc & _)|[_ Hn]];
    [exists a; split; [exact Ha|exact Hc]|discriminate Hn].
Defined.

Lemma tainted_mount_witness :
  handed (Taint (Some "") "secret/" table3).2 (Err ErrSalt) "" kv_read = None.
Proof.
  destruct (tainted_mount_closed table3 "secret/" 2 kv_route "" "secret/" kv_read (Err ErrSalt) false
    table3_reachable kv_mounted eq_refl eq_refl) as (Hn & _); [discriminate..|exact Hn].
Defined.

(** A refusal of the cubbyhole leaves the request as the backend would
    have seen it: after a batch token is turned away, the request's path has
    lost its mount and the storage is still attached, which the restoration
    at the end of the routing would have undone. *)
Theorem refused_request_not_restored :
  ∃ a, Route table3 (Err ErrSalt) (Some "")
         (req_at "read" "cubbyhole/a" (mkTE TokenTypeBatch "root" "" "")) = Some a ∧
    rPath (ans_req a) = "a" ∧ rStorage (ans_req a) = Some "cubby/" ∧ is_Some (ans_resp a).
Proof. eexists. split; [vm_compute; reflexivity|]. split; [|split; [|eexists]]; reflexivity. Qed.
