(* ===== verification/Templating.v ===== *)
(** * [sdk/helper/identitytpl/templating.go]: templates in policy paths

    A policy path may hold directives such as {{identity.entity.name}}, which
    are replaced by what is known about the caller.  [PopulateString] is
    modelled in its mode for policies ([ACLTemplating]); the mode for JSON is
    only used for identity tokens.  Rendering replaces each directive by the
    value it selects and nothing else, and no value brings in a wildcard. *)

From S2P Require Import Prelude GoLib GoSplit.
From Stdlib Require Import Ascii.

(** [parseutil] of go-secure-stdlib: the nanoseconds of a duration. *)
Class Parseutil : Type := { ParseDurationSecond : value → option Z }.

Module Tpl.

Variant err :=
| ErrUnbalancedTemplatingCharacter
| ErrNoEntityAttachedToToken
| ErrNoGroupsAttachedToToken
| ErrTemplateValueNotFound
| ErrTemplatedWildcard
| ErrInvalid (what detail : string).

Record Alias := mkAlias {
  al_ID : string;
  al_Name : string;
  al_MountAccessor : string;
  al_Metadata : gmap string string;
  al_CustomMetadata : gmap string string;
}.

Record Entity := mkEntity {
  e_ID : string;
  e_Name : string;
  e_Aliases : list Alias;
  e_Metadata : gmap string string;
}.

Record Group := mkGroup {
  g_ID : string;
  g_Name : string;
  g_NamespaceID : string;
  g_Metadata : gmap string string;
}.

Record PopulateStringInput := mkInput {
  String_ : string;
  ValidityCheckOnly : bool;
  Entity_ : option Entity;
  Groups : list Group;
  NamespaceID : string;
  (** Nanoseconds since Go's zero time; zero for the current time. *)
  Now : Z;
}.

(** What a directive selects. *)
Variant tval :=
| TString (s : string)
| TStrings (l : list string)
| TMap (m : gmap string string).

Definition aclTemplateHandler (v : tval) (keys : list string) : result err string :=
  match v with
  | TString s => if decide (s = "") then Err ErrTemplateValueNotFound else Ok s
  | TStrings _ => Err ErrTemplateValueNotFound
  | TMap m =>
      match keys with
      | [] => Err ErrTemplateValueNotFound
      | key :: _ =>
          match m !! key with
          | Some val => Ok val
          | None => Err ErrTemplateValueNotFound
          end
      end
  end.

(** The part of a selector after its first dot, [strings.SplitN(s, ".", 2)[1]]. *)
Definition after_dot (s : string) : list string :=
  match SplitN s "." 2 with
  | [_; rest] => [rest]
  | _ => []
  end.

Definition performAliasTemplating (trimmed : string) (alias : Alias) : result err string :=
  if decide (trimmed = "id") then aclTemplateHandler (TString (al_ID alias)) []
  else if decide (trimmed = "name") then aclTemplateHandler (TString (al_Name alias)) []
  else if decide (trimmed = "metadata") then aclTemplateHandler (TMap (al_Metadata alias)) []
  else if HasPrefix trimmed "metadata." then
    aclTemplateHandler (TMap (al_Metadata alias)) (after_dot trimmed)
  else if decide (trimmed = "custom_metadata") then
    aclTemplateHandler (TMap (al_CustomMetadata alias)) []
  else if HasPrefix trimmed "custom_metadata." then
    aclTemplateHandler (TMap (al_CustomMetadata alias)) (after_dot trimmed)
  else Err ErrTemplateValueNotFound.

Definition performEntityTemplating (p : PopulateStringInput) (entity : Entity) (trimmed : string)
    : result err string :=
  if decide (trimmed = "id") then aclTemplateHandler (TString (e_ID entity)) []
  else if decide (trimmed = "name") then aclTemplateHandler (TString (e_Name entity)) []
  else if decide (trimmed = "metadata") then aclTemplateHandler (TMap (e_Metadata entity)) []
  else if HasPrefix trimmed "metadata." then
    aclTemplateHandler (TMap (e_Metadata entity)) (after_dot trimmed)
  else if decide (trimmed = "groups.names") then
    aclTemplateHandler (TStrings (g_Name <$> Groups p)) []
  else if decide (trimmed = "groups.ids") then aclTemplateHandler (TStrings (g_ID <$> Groups p)) []
  else if HasPrefix trimmed "aliases." then
    match SplitN (TrimPrefix trimmed "aliases.") "." 2 with
    | [accessor; rest] =>
        match List.find (λ a, bool_decide (accessor = al_MountAccessor a)) (e_Aliases entity) with
        | None => Err (ErrInvalid "alias not found" "")
        | Some alias => performAliasTemplating rest alias
        end
    | _ => Err (ErrInvalid "invalid alias selector" "")
    end
  else Err ErrTemplateValueNotFound.

Definition group_matches (p : PopulateStringInput) (ids : bool) (name : string) (g : Group) : bool :=
  if ids then bool_decide (g_ID g = name)
  else
    negb (negb (bool_decide (NamespaceID p = ""))
          && negb (bool_decide (g_NamespaceID g = NamespaceID p)))
    && bool_decide (g_Name g = name).

Definition performGroupsTemplating (p : PopulateStringInput) (trimmed : string) : result err string :=
  match SplitN trimmed "." 2 with
  | [selector; rest] =>
      if bool_decide (selector = "ids") || bool_decide (selector = "names") then
        match SplitN rest "." 2 with
        | [accessor; field] =>
            match List.find (group_matches p (bool_decide (selector = "ids")) accessor) (Groups p) with
            | None => Err (ErrInvalid "entity is not a member of group" accessor)
            | Some found =>
                if decide (field = "id") then Ok (g_ID found)
                else if decide (field = "name") then
                  if decide (g_Name found = "") then Err ErrTemplateValueNotFound
                  else Ok (g_Name found)
                else if HasPrefix field "metadata." then
                  match g_Metadata found !! TrimPrefix field "metadata." with
                  | Some val => Ok val
                  | None => Err ErrTemplateValueNotFound
                  end
                else Err ErrTemplateValueNotFound
            end
        | _ => Err (ErrInvalid "invalid groups accessor" "")
        end
      else Err (ErrInvalid "invalid groups selector" "")
  | _ => Err (ErrInvalid "invalid groups selector" "")
  end.

(** Seconds from Go's zero time to the Unix epoch. *)
Definition unixToInternal : Z := 62135596800.
Definition Unix (t : Z) : Z := t / Second - unixToInternal.

Section render.
Context `{Parseutil}.
(** The time of the call, for an input without one. *)
Variable clock : Z.

Definition performTimeTemplating (p : PopulateStringInput) (trimmed : string) : result err string :=
  let now := if IsZero (Now p) then clock else Now p in
  match SplitN trimmed "." 3 with
  | sel :: ops =>
      if decide (sel = "now") then
        match ops with
        | [] => Ok (pretty (Unix now))
        | [_] => Err (ErrInvalid "missing time operand" "")
        | op :: operand :: _ =>
            match ParseDurationSecond (VStr operand) with
            | None => Err (ErrInvalid "invalid duration" operand)
            | Some duration =>
                if decide (op = "plus") then Ok (pretty (Unix (now + duration)))
                else if decide (op = "minus") then Ok (pretty (Unix (now - duration)))
                else Err (ErrInvalid "invalid time operator" op)
            end
        end
      else Err (ErrInvalid "invalid time selector" sel)
  | [] => Err (ErrInvalid "invalid time selector" "")
  end.

Definition performTemplating (input : string) (p : PopulateStringInput) : result err string :=
  if HasPrefix input "identity.entity." then
    match Entity_ p with
    | None => Err ErrNoEntityAttachedToToken
    | Some e => performEntityTemplating p e (TrimPrefix input "identity.entity.")
    end
  else if HasPrefix input "identity.groups." then
    if decide (Groups p = []) then Err ErrNoGroupsAttachedToToken
    else performGroupsTemplating p (TrimPrefix input "identity.groups.")
  else if HasPrefix input "time." then performTimeTemplating p (TrimPrefix input "time.")
  else Err ErrTemplateValueNotFound.

Definition trim_space (s : string) : string := of_bytes (TrimSpace (bytes s)).

(** The loop over the pieces after the first; [b] is what has been written. *)
Fixpoint populate_loop (p : PopulateStringInput) (pieces : list string) (b : string)
    : result err string :=
  match pieces with
  | [] => Ok b
  | str :: pieces =>
      match Split str "}}" with
      | [directive; literal] =>
          if ValidityCheckOnly p then populate_loop p pieces b
          else
            match performTemplating (trim_space directive) p with
            | Err e => Err e
            | Ok tmplStr =>
                if ContainsAny tmplStr "*+" then Err ErrTemplatedWildcard
                else populate_loop p pieces ((b +:+ tmplStr) +:+ literal)
            end
      | _ => Err ErrUnbalancedTemplatingCharacter
      end
  end.

(** Whether there was a directive, and the text. *)
Definition PopulateString (p : PopulateStringInput) : result err (bool * string) :=
  if decide (String_ p = "") then Ok (false, "")
  else
    match Split (String_ p) "{{" with
    | [] => Ok (false, String_ p)
    | first :: rest =>
        if Contains first "}}" then Err ErrUnbalancedTemplatingCharacter
        else
          match rest with
          | [] => Ok (false, String_ p)
          | _ :: _ =>
              match populate_loop p rest (if ValidityCheckOnly p then "" else first) with
              | Err e => Err e
              | Ok b => Ok (true, b)
              end
          end
    end.
End render.

(** ** What rendering does *)

Section facts.
Context `{Parseutil}.
Variable clock : Z.

(** A directive, the value it selects, and the text that follows it. *)
Definition chunk : Type := string * string * string.
Definition source_text (first : string) (cs : list chunk) : string :=
  first +:+ foldr (λ '(d, _, l) s, "{{" +:+ d +:+ "}}" +:+ l +:+ s) "" cs.
Definition rendered_text (first : string) (cs : list chunk) : string :=
  first +:+ foldr (λ '(_, v, l) s, v +:+ l +:+ s) "" cs.

Definition resolves (p : PopulateStringInput) (c : chunk) : Prop :=
  performTemplating clock (trim_space c.1.1) p = Ok c.1.2 ∧ ContainsAny c.1.2 "*+" = false.

Lemma populate_loop_chunks p pieces b out :
  ValidityCheckOnly p = false → populate_loop clock p pieces b = Ok out →
  ∃ cs, pieces = (λ '(d, _, l), d +:+ "}}" +:+ l) <$> cs ∧ out = rendered_text b cs ∧
    Forall (resolves p) cs.
Proof.
  intros Hv. revert b. induction pieces as [|str pieces IH]; intros b; cbn [populate_loop].
  - intros [= <-]. exists []. split_and!; [done|by unfold rendered_text; rewrite str_app_nil_r|done].
  - destruct (Split str "}}") as [|d [|l [|]]] eqn:Hs; [done..| |done]. rewrite Hv.
    destruct (performTemplating _ _ p) as [v|] eqn:Ht; [|done].
    destruct (ContainsAny v "*+") eqn:Hc; [done|].
    intros (cs & -> & -> & Hcs)%IH. exists ((d, v, l) :: cs). split_and!.
    + simpl. f_equal. rewrite <-(Join_Split str "}}"), Hs. done.
    + unfold rendered_text. simpl. by rewrite !str_app_assoc.
    + by constructor.
Qed.

Lemma Join_chunks first (cs : list chunk) :
  Join (first :: ((λ '(d, _, l), d +:+ "}}" +:+ l) <$> cs)) "{{" = source_text first cs.
Proof.
  unfold source_text. revert first. induction cs as [|[[d v] l] cs IH]; intros first.
  - simpl. by rewrite str_app_nil_r.
  - change (first +:+ "{{" +:+ Join ((d +:+ "}}" +:+ l) :: ((λ '(d, _, l), d +:+ "}}" +:+ l) <$> cs)) "{{" =
      first +:+ "{{" +:+ d +:+ "}}" +:+ l +:+ foldr (λ '(d, _, l) s, "{{" +:+ d +:+ "}}" +:+ l +:+ s) "" cs).
    by rewrite IH, !str_app_assoc.
Qed.

Lemma rendered_bytes p c first cs :
  Forall (resolves p) cs → c = "*"%char ∨ c = "+"%char →
  has_byte c (rendered_text first cs) = true → has_byte c (source_text first cs) = true.
Proof.
  unfold rendered_text, source_text. intros Hcs Hc. rewrite !has_byte_app, !orb_true_iff.
  intros [?|Hr]; [by left|right]. revert Hr. induction Hcs as [|[[d v] l] cs [_ Hv] _ IH]; [done|].
  simpl. rewrite !has_byte_app, !orb_true_iff. unfold ContainsAny in Hv. simpl in Hv.
  rewrite orb_false_r, orb_false_iff in Hv. intros [Hb|[?|?%IH]]; [|tauto..].
  destruct Hc as [->| ->]; destruct Hv; simpl in *; congruence.
Qed.

(** Rendering a templated policy path replaces each directive by the
    value it selects and changes nothing else, and never brings in a
    wildcard: a star or a plus of the rendered path is one of the policy's
    own text. *)
Theorem templates_render p subst out :
  ValidityCheckOnly p = false → PopulateString clock p = Ok (subst, out) →
  (∃ first cs, String_ p = source_text first cs ∧ out = rendered_text first cs ∧
     Forall (resolves p) cs ∧ (subst = true ↔ cs ≠ [])) ∧
  ∀ c, c = "*"%char ∨ c = "+"%char → has_byte c out = true → has_byte c (String_ p) = true.
Proof.
  intros Hv HP.
  assert (∃ first cs, String_ p = source_text first cs ∧ out = rendered_text first cs ∧
    Forall (resolves p) cs ∧ (subst = true ↔ cs ≠ [])) as (first & cs & Hs & Ho & Hcs & Hb).
  { unfold PopulateString in HP. rewrite Hv in HP.
    destruct (decide (String_ p = "")) as [He|Hne].
    { injection HP as <- <-. exists "", []. by rewrite He. }
    pose proof (Join_Split (String_ p) "{{") as Hj.
    destruct (Split (String_ p) "{{") as [|first rest]; [by destruct Hne|].
    destruct (Contains first "}}"); [done|]. destruct rest as [|r rest].
    { injection HP as <- <-. exists first, []. simpl in Hj. unfold source_text, rendered_text. simpl.
      by rewrite str_app_nil_r, Hj. }
    destruct (populate_loop _ _ _ _) as [b|] eqn:Hl; [|done]. injection HP as <- <-.
    destruct (populate_loop_chunks _ _ _ _ Hv Hl) as (cs & Hp & -> & Hcs). exists first, cs.
    rewrite Hp, Join_chunks in Hj. split_and!; [done..|]. split; [|done]. intros _ ->. done. }
  split; [by exists first, cs|]. intros c Hc. rewrite Hs, Ho. by eapply rendered_bytes.
Qed.
End facts.

(** A path with the caller's name. *)
Definition name_input : PopulateStringInput :=
  mkInput "secret/{{identity.entity.name}}/*" false (Some (mkEntity "id" "alice" [] ∅)) [] "root" 1.

Lemma templates_render_witness :
  has_byte "*"%char "secret/alice/*" = true ∧ has_byte "*"%char "secret/{{identity.entity.name}}/*" = true.
Proof.
  split; [reflexivity|].
  apply (proj2 (templates_render (H := {| ParseDurationSecond _ := None |}) 0 name_input true
    "secret/alice/*" eq_refl eq_refl)); [left|]; reflexivity.
Defined.
End Tpl.
