(* ===== verification/Policy.v ===== *)
(** * [vault/policy.go]: policies

    The capabilities and their bits, the permissions of a path, and the
    parsing of the paths of a policy ([parsePaths]) from its decoded text.
    The syntax tree and its decoding belong to the HCL library: an item is
    given by the keys of its object and the fields it decodes to. *)

From Stdlib Require Import Ascii.
From S2P Require Import Prelude GoLib GoSplit Storage Router Templating.

Definition DenyCapabilityInt : Z := 1.
Definition CreateCapabilityInt : Z := 2.
Definition ReadCapabilityInt : Z := 4.
Definition UpdateCapabilityInt : Z := 8.
Definition DeleteCapabilityInt : Z := 16.
Definition ListCapabilityInt : Z := 32.
Definition SudoCapabilityInt : Z := 64.
Definition PatchCapabilityInt : Z := 128.
Definition SubscribeCapabilityInt : Z := 256.
Definition RecoverCapabilityInt : Z := 512.

Definition cap2Int : list (string * Z) := [
  ("deny", DenyCapabilityInt); ("create", CreateCapabilityInt); ("read", ReadCapabilityInt);
  ("update", UpdateCapabilityInt); ("delete", DeleteCapabilityInt); ("list", ListCapabilityInt);
  ("sudo", SudoCapabilityInt); ("patch", PatchCapabilityInt);
  ("subscribe", SubscribeCapabilityInt); ("recover", RecoverCapabilityInt)].

(** [b & c > 0] on uint32. *)
Definition has_cap (b c : Z) : bool := 0 <? Z.land b c.

Variant PolicyType := PolicyTypeACL | PolicyTypeRGP | PolicyTypeEGP | PolicyTypeToken.
#[export] Instance PolicyType_eq_dec : EqDecision PolicyType.
Proof. solve_decision. Defined.

Record Namespace := mkNS { ns_ID : string; ns_Path : string }.

Record PolicyInfo := mkInfo {
  pi_Name : string;
  pi_NamespaceId : string;
  pi_NamespacePath : string;
  pi_Type : string;
}.

Record IdentityFactor := mkIdFactor {
  GroupIDs : list string;
  GroupNames : list string;
  ApprovalsRequired : Z;
}.
Record ControlGroupFactor := mkFactor {
  f_Name : string;
  f_Identity : option IdentityFactor;
  ControlledCapabilities : list string;
}.
Record ControlGroup := mkCG { cg_TTL : Z; Factors : list ControlGroupFactor }.

Definition params := option (gmap string (list value)).

Record ACLPermissions := mkPerms {
  CapabilitiesBitmap : Z;
  MinWrappingTTL : Z;
  MaxWrappingTTL : Z;
  AllowedParameters : params;
  DeniedParameters : params;
  RequiredParameters : list string;
  MFAMethods : option (list string);
  ControlGroup_ : option ControlGroup;
  GrantingPoliciesMap : gmap Z (list PolicyInfo);
  SubscribeEventTypes : list string;
}.

(** [ACLPermissions.Clone]: a deep copy, which as a value is what it copies. *)
Definition permissions_Clone (p : ACLPermissions) : ACLPermissions := p.

(** A path's rules: the decoded fields, and what the parser computes. *)
Record ControlGroupHCL := mkCGHCL { h_TTL : option value; h_Factors : option (gmap string ControlGroupFactor) }.
Record PathHCL := mkHCL {
  h_Policy : string;
  h_Capabilities : list string;
  MinWrappingTTLHCL : option value;
  MaxWrappingTTLHCL : option value;
  AllowedParametersHCL : params;
  DeniedParametersHCL : params;
  RequiredParametersHCL : list string;
  MFAMethodsHCL : option (list string);
  ControlGroupHCL_ : option ControlGroupHCL;
  SubscribeEventTypesHCL : list string;
}.
Record PathRules := mkRules {
  Path : string;
  Permissions : ACLPermissions;
  IsPrefix : bool;
  HasSegmentWildcards : bool;
  Capabilities : list string;
}.

Record Policy := mkPolicy {
  Name : string;
  Paths : list PathRules;
  Type_ : PolicyType;
  Templated : bool;
  namespace : Namespace;
  Raw : string;
}.

(** An item of the policy's text: its path, the keys of its object, and the
    fields, where they decode. *)
Record Item := mkItem { Keys : list string; ObjKeys : option (list string); decoded : result string PathHCL }.

(** The HCL library: the top-level keys of a text, the name it sets, its path
    items, and whether it gives an attribute twice. *)
Record HclFile := mkFile { file_keys : list string; file_name : string; file_paths : list Item; file_dup : bool }.
Class HCL : Type := { ParseHCL : string → result string HclFile }.

Inductive perr :=
| ErrHCL (what : string)
| ErrKeys (invalid : list string)
| ErrPath (path : string) (e : perr)
| ErrTemplating (e : Tpl.err)
| ErrWildcards (path : string)
| ErrPolicy (path policy : string)
| ErrCapability (path cap : string)
| ErrTTL (what : string)
| ErrFactor (what : string).

Section policy.
Context `{GoTables} `{MapRange} `{Parseutil}.

Definition addGrantingPoliciesToMap (m : gmap Z (list PolicyInfo)) (policy : Policy) (bitmap : Z)
    : gmap Z (list PolicyInfo) :=
  fold_left (λ m '(_, capability),
    if Z.land bitmap capability =? 0 then m
    else <[capability := default [] (m !! capability) ++
           [mkInfo (Name policy) (ns_ID (namespace policy)) (ns_Path (namespace policy)) "acl"]]> m)
    cap2Int m.

(** [hclutil.CheckHCLKeys] on the keys of a node, [None] where the node is
    not an object. *)
Definition CheckHCLKeys (keys : option (list string)) (valid : list string) : option perr :=
  match keys with
  | None => Some (ErrHCL "cannot check HCL keys")
  | Some keys =>
      match filter (λ k, k ∉ valid) keys with
      | [] => None
      | invalid => Some (ErrKeys invalid)
      end
  end.

Definition valid_path_keys : list string :=
  ["comment"; "policy"; "capabilities"; "allowed_parameters"; "denied_parameters";
   "required_parameters"; "min_wrapping_ttl"; "max_wrapping_ttl"; "mfa_methods"; "control_group";
   "subscribe_event_types"].

(** The full path: without a leading slash, below the namespace. *)
Definition full_path (ns : Namespace) (key : string) : string :=
  ns_Path ns +:+ (if HasPrefix key "/" then str_drop 1 key else key).

(** Whether the path has segment wildcards, its key and whether it is a
    prefix. *)
Definition classify (path : string) : string * bool * bool :=
  let wild := bool_decide (path = "+") || Contains path "/+" || HasPrefix path "+/" in
  if HasSuffix path "*" && negb wild then (TrimSuffix path "*", true, wild) else (path, false, wild).

(** Old-style policies, as capabilities. *)
Definition old_capabilities (policy : string) (caps : list string) : option (list string) :=
  if decide (policy = "") then Some caps
  else if decide (policy = "deny") then Some ["deny"]
  else if decide (policy = "read") then Some (caps ++ ["read"; "list"])
  else if decide (policy = "write") then Some (caps ++ ["create"; "read"; "update"; "delete"; "list"])
  else if decide (policy = "sudo") then
    Some (caps ++ ["create"; "read"; "update"; "delete"; "list"; "sudo"])
  else None.

Definition cap_int (cap : string) : option Z :=
  snd <$> List.find (λ '(c, _), bool_decide (c = cap)) cap2Int.

(** The loop over the capabilities: the bits, or [deny] alone. *)
Fixpoint cap_loop (key : string) (caps : list string) (bitmap : Z) : result perr (bool * Z) :=
  match caps with
  | [] => Ok (false, bitmap)
  | cap :: caps =>
      if decide (cap = "deny") then Ok (true, DenyCapabilityInt)
      else
        match cap_int cap with
        | Some b => cap_loop key caps (Z.lor bitmap b)
        | None => Err (ErrCapability key cap)
        end
  end.

Definition lowered (m : params) : params :=
  (λ m, fold_left (λ acc k, <[ToLower k := default [] (m !! k)]> acc) (range_keys m) ∅) <$> m.

Definition parse_ttl (what : string) (v : option value) : result perr Z :=
  match v with
  | None => Ok 0
  | Some v => match ParseDurationSecond v with Some d => Ok d | None => Err (ErrTTL what) end
  end.

Definition check_factor (caps : list string) (f : ControlGroupFactor) : option perr :=
  match f_Identity f with
  | None => Some (ErrFactor "no control_group factor provided")
  | Some i =>
      if (ApprovalsRequired i <=? 0) || (bool_decide (GroupIDs i = []) && bool_decide (GroupNames i = []))
      then Some (ErrFactor "must provide more than one identity group and approvals > 0")
      else if forallb (λ c, bool_decide (c ∈ caps)) (ControlledCapabilities f) then None
      else Some (ErrFactor "control group factor capabilities must be a subset of the policy's capabilities")
  end.

Fixpoint parse_factors (caps : list string) (m : gmap string ControlGroupFactor) (keys : list string)
    : result perr (list ControlGroupFactor) :=
  match keys with
  | [] => Ok []
  | key :: keys =>
      match m !! key with
      | None => parse_factors caps m keys
      | Some f =>
          match check_factor caps f with
          | Some e => Err e
          | None =>
              fs ← parse_factors caps m keys;
              Ok (mkFactor key (f_Identity f) (ControlledCapabilities f) :: fs)
          end
      end
  end.

Definition parse_control_group (caps : list string) (h : option ControlGroupHCL)
    : result perr (option ControlGroup) :=
  match h with
  | None => Ok None
  | Some h =>
      ttl ← parse_ttl "error parsing control group max ttl" (h_TTL h);
      factors ← match h_Factors h with
                | None => Ok []
                | Some m => parse_factors caps m (range_keys m)
                end;
      if decide (factors = []) then Err (ErrFactor "no control group factors provided")
      else Ok (Some (mkCG ttl factors))
  end.

(** The permissions of a path that does not deny. *)
Definition parse_permissions (h : PathHCL) (caps : list string) (bitmap : Z)
    : result perr ACLPermissions :=
  min ← parse_ttl "error parsing min_wrapping_ttl" (MinWrappingTTLHCL h);
  max ← parse_ttl "error parsing max_wrapping_ttl" (MaxWrappingTTLHCL h);
  cg ← parse_control_group caps (ControlGroupHCL_ h);
  if negb (min =? 0) && negb (max =? 0) && (max <? min) then
    Err (ErrTTL "max_wrapping_ttl cannot be less than min_wrapping_ttl")
  else
    Ok (mkPerms bitmap min max (lowered (AllowedParametersHCL h)) (lowered (DeniedParametersHCL h))
          (RequiredParametersHCL h) (MFAMethodsHCL h) cg ∅ (SubscribeEventTypesHCL h)).

Definition deny_only : ACLPermissions := mkPerms DenyCapabilityInt 0 0 None None [] None None ∅ [].

(** An item, from its key on. *)
Definition parse_item (ns : Namespace) (key : string) (item : Item) : result perr PathRules :=
  match CheckHCLKeys (ObjKeys item) valid_path_keys with
  | Some e => Err (ErrPath key e)
  | None =>
      match decoded item with
      | Err e => Err (ErrPath key (ErrHCL e))
      | Ok h =>
          let path := full_path ns key in
          if Contains path "+*" then Err (ErrWildcards path)
          else
            let '(path, prefix, wild) := classify path in
            match old_capabilities (h_Policy h) (h_Capabilities h) with
            | None => Err (ErrPolicy key (h_Policy h))
            | Some caps =>
                '(deny, bitmap) ← cap_loop key caps 0;
                if (deny : bool) then Ok (mkRules path deny_only prefix wild ["deny"])
                else
                  perms ← parse_permissions h caps bitmap;
                  Ok (mkRules path perms prefix wild caps)
            end
      end
  end.

(** The identities that templates refer to, where they are to be filled in. *)
Record Subject := mkSubject { s_Entity : option Tpl.Entity; s_Groups : list Tpl.Group }.

Definition item_key (item : Item) : string :=
  match Keys item with [] => "path" | k :: _ => k end.

(** The loop over the items: the rules, and whether a path is templated.
    With a subject, a path that cannot be filled in is left out. *)
Fixpoint parsePaths (clock : Z) (ns : Namespace) (subject : option Subject) (items : list Item)
    : result perr (list PathRules * bool) :=
  match items with
  | [] => Ok ([], false)
  | item :: items =>
      match subject with
      | Some s =>
          match Tpl.PopulateString clock
                  (Tpl.mkInput (item_key item) false (s_Entity s) (s_Groups s) (ns_ID ns) 0) with
          | Err _ => parsePaths clock ns subject items
          | Ok (_, key) =>
              pc ← parse_item ns key item;
              '(paths, templated) ← parsePaths clock ns subject items;
              Ok (pc :: paths, templated)
          end
      | None =>
          match Tpl.PopulateString clock (Tpl.mkInput (item_key item) true None [] "" 0) with
          | Err e => Err (ErrTemplating e)
          | Ok (hasTemplating, _) =>
              pc ← parse_item ns (item_key item) item;
              '(paths, templated) ← parsePaths clock ns subject items;
              Ok (pc :: paths, hasTemplating || templated)
          end
      end
  end.

(** With a subject the templates are filled in, without one they are looked
    for. *)
Definition parseACLPolicyWithTemplating `{HCL} (clock : Z) (ns : Namespace) (rules : string)
    (subject : option Subject) : result perr Policy :=
  match ParseHCL rules with
  | Err e => Err (ErrHCL e)
  | Ok file =>
      match CheckHCLKeys (Some (file_keys file)) ["name"; "path"] with
      | Some e => Err e
      | None =>
          '(paths, templated) ← parsePaths clock ns subject (file_paths file);
          Ok (mkPolicy (file_name file) paths PolicyTypeACL templated ns rules)
      end
  end.
Definition ParseACLPolicyCheckDuplicates `{HCL} (clock : Z) (ns : Namespace) (rules : string)
    : result perr Policy :=
  parseACLPolicyWithTemplating clock ns rules None.
End policy.
