(* ===== verification/Acl.v ===== *)
(** * [vault/acl.go]: access control

    The compilation of a token's policies ([NewACL]), the choice of the rule
    that applies to a path ([CheckAllowedFromNonExactPaths]), the decision on
    a request ([AllowOperation]) and the checks of the core
    ([performPolicyChecks]).  The hooks of the enterprise edition
    ([acl_ce.go], [acl_util.go]) do nothing. *)

From Stdlib Require Import Ascii.
From S2P Require Import Prelude GoLib GoSplit Storage Core Router Routing Templating Policy.

(** [strutil] and [parseutil] of go-secure-stdlib. *)
Class Globbing : Type := {
  (** Whether a string matches a pattern with stars at its ends. *)
  GlobbedStringsMatch : string → string → bool;
  (** The elements of a comma-separated list, or of a JSON list. *)
  ParseCommaStringSlice : string → option (list string);
  (** The elements without the white space around them, if any is left. *)
  RemoveDuplicates : list string → list string;
  RemoveDuplicates_elem : ∀ l x,
    x ∈ RemoveDuplicates l ↔ x ≠ "" ∧ ∃ y, y ∈ l ∧ x = of_bytes (TrimSpace (bytes y));
  StrListContains : list string → string → bool;
  StrListContains_spec : ∀ l x, StrListContains l x = true ↔ x ∈ l;
}.

Definition PatchOperation : string := "patch".
Definition HelpOperation : string := "help".
Definition RecoverOperation : string := "recover".

Record ACL := mkACL {
  exactRules : gmap string ACLPermissions;
  prefixRules : gmap string ACLPermissions;
  segmentWildcardPaths : gmap string ACLPermissions;
  root : bool;
  rgpPolicies : list Policy;
}.

Variant aclerr := ErrNoNamespace | ErrWrongType | ErrRootNamespace | ErrRootNotAlone.

Record ACLResults := mkResults {
  Allowed : bool;
  RootPrivs : bool;
  IsRoot : bool;
  r_MFAMethods : option (list string);
  r_ControlGroup : option ControlGroup;
  r_CapabilitiesBitmap : Z;
  GrantingPolicies : list PolicyInfo;
  r_SubscribeEventTypes : list string;
}.
Definition no_results : ACLResults := mkResults false false false None None 0 [] [].

Section acl.
Context `{GoTables} `{MapRange} `{Globbing} `{RadixSearch}.

(** ** [NewACL] *)

Definition merge_params (existing new : params) : params :=
  if decide (default ∅ new = ∅) then existing
  else
    match existing with
    | None => new
    | Some m =>
        Some (fold_left (λ acc key,
          let value := default [] (default ∅ new !! key) in
          if bool_decide (value = []) || match acc !! key with Some [] => true | _ => false end
          then <[key := []]> acc
          else <[key := value ++ default [] (acc !! key)]> acc) (range_keys (default ∅ new)) m)
    end.

Definition merge_required (existing new : list string) : list string :=
  if decide (existing = []) then new
  else fold_left (λ acc v, if StrListContains acc v then acc else acc ++ [v]) new existing.

Definition merge_mfa (existing new : option (list string)) : option (list string) :=
  match new with
  | None | Some [] => existing
  | Some l => Some (RemoveDuplicates (match existing with None => l | Some k => k ++ l end))
  end.

Definition merge_control_group (existing new : option ControlGroup) : option ControlGroup :=
  match new with
  | None => existing
  | Some cg =>
      if decide (Factors cg = []) then existing
      else match existing with
           | None => Some cg
           | Some e => Some (mkCG (cg_TTL e) (Factors e ++ Factors cg))
           end
  end.

Definition merge_events (existing new : list string) : list string :=
  if decide (new = []) then existing
  else if decide (existing = []) then existing
  else RemoveDuplicates (existing ++ new).

(** The lesser of two limits, where zero is none. *)
Definition merge_ttl (existing new : Z) : Z :=
  if (0 <? new) && ((existing =? 0) || (new <? existing)) then new else existing.

(** The permissions of a path that an earlier policy has rules for. *)
Definition merge (policy : Policy) (existing new : ACLPermissions) : ACLPermissions :=
  if has_cap (CapabilitiesBitmap existing) DenyCapabilityInt then existing
  else if has_cap (CapabilitiesBitmap new) DenyCapabilityInt then
    mkPerms DenyCapabilityInt (MinWrappingTTL existing) (MaxWrappingTTL existing) None None
      (RequiredParameters existing) (MFAMethods existing) (ControlGroup_ existing)
      (GrantingPoliciesMap existing) (SubscribeEventTypes existing)
  else
    mkPerms (Z.lor (CapabilitiesBitmap existing) (CapabilitiesBitmap new))
      (merge_ttl (MinWrappingTTL existing) (MinWrappingTTL new))
      (merge_ttl (MaxWrappingTTL existing) (MaxWrappingTTL new))
      (merge_params (AllowedParameters existing) (AllowedParameters new))
      (merge_params (DeniedParameters existing) (DeniedParameters new))
      (merge_required (RequiredParameters existing) (RequiredParameters new))
      (merge_mfa (MFAMethods existing) (MFAMethods new))
      (merge_control_group (ControlGroup_ existing) (ControlGroup_ new))
      (addGrantingPoliciesToMap (GrantingPoliciesMap existing) policy (CapabilitiesBitmap new))
      (merge_events (SubscribeEventTypes existing) (SubscribeEventTypes new)).

Definition first_perms (policy : Policy) (p : ACLPermissions) : ACLPermissions :=
  let c := permissions_Clone p in
  mkPerms (CapabilitiesBitmap c) (MinWrappingTTL c) (MaxWrappingTTL c) (AllowedParameters c)
    (DeniedParameters c) (RequiredParameters c) (MFAMethods c) (ControlGroup_ c)
    (addGrantingPoliciesToMap ∅ policy (CapabilitiesBitmap c)) (SubscribeEventTypes c).

Definition add_to (policy : Policy) (pc : PathRules) (tree : gmap string ACLPermissions)
    : gmap string ACLPermissions :=
  <[Path pc := match tree !! Path pc with
               | None => first_perms policy (Permissions pc)
               | Some existing => merge policy existing (Permissions pc)
               end]> tree.

Definition add_path (policy : Policy) (a : ACL) (pc : PathRules) : ACL :=
  if HasSegmentWildcards pc then
    mkACL (exactRules a) (prefixRules a) (add_to policy pc (segmentWildcardPaths a)) (root a) (rgpPolicies a)
  else if IsPrefix pc then
    mkACL (exactRules a) (add_to policy pc (prefixRules a)) (segmentWildcardPaths a) (root a) (rgpPolicies a)
  else
    mkACL (add_to policy pc (exactRules a)) (prefixRules a) (segmentWildcardPaths a) (root a) (rgpPolicies a).

(** The loop over the policies; [n] is how many there are. *)
Fixpoint inject (ns : Namespace) (n : nat) (policies : list (option Policy)) (a : ACL)
    : result aclerr ACL :=
  match policies with
  | [] => Ok a
  | None :: policies => inject ns n policies a
  | Some policy :: policies =>
      match Type_ policy with
      | PolicyTypeRGP =>
          inject ns n policies
            (mkACL (exactRules a) (prefixRules a) (segmentWildcardPaths a) (root a)
               (rgpPolicies a ++ [policy]))
      | PolicyTypeACL =>
          if bool_decide (Name policy = "root") && negb (bool_decide (ns_ID ns = "root")) then
            Err ErrRootNamespace
          else if bool_decide (Name policy = "root") && negb (n =? 1)%nat then Err ErrRootNotAlone
          else
            let a := if bool_decide (Name policy = "root")
                     then mkACL (exactRules a) (prefixRules a) (segmentWildcardPaths a) true (rgpPolicies a)
                     else a in
            inject ns n policies (fold_left (add_path policy) (Paths policy) a)
      | _ => Err ErrWrongType
      end
  end.

Definition empty_acl : ACL := mkACL ∅ ∅ ∅ false [].
Definition NewACL (ns : option Namespace) (policies : list (option Policy)) : result aclerr ACL :=
  match ns with
  | None => Err ErrNoNamespace
  | Some ns => inject ns (length policies) policies empty_acl
  end.

(** ** The rule of a path *)

Record wcPathDescr := mkDescr {
  firstWCOrGlob : Z;
  wildcards : Z;
  isPrefix : bool;
  wcPath : string;
  perms : ACLPermissions;
}.

(** [pdi] has lower priority than [pdj]. *)
Definition less (pdi pdj : wcPathDescr) : bool :=
  if firstWCOrGlob pdi <? firstWCOrGlob pdj then true
  else if firstWCOrGlob pdj <? firstWCOrGlob pdi then false
  else if isPrefix pdi && negb (isPrefix pdj) then true
  else if negb (isPrefix pdi) && isPrefix pdj then false
  else if wildcards pdj <? wildcards pdi then true
  else if wildcards pdi <? wildcards pdj then false
  else if (String.length (wcPath pdi) <? String.length (wcPath pdj))%nat then true
  else if (String.length (wcPath pdj) <? String.length (wcPath pdi))%nat then false
  else String.ltb (wcPath pdi) (wcPath pdj).

(** [sort.Slice]: the order is total on what is sorted, so that every
    algorithm gives the same list. *)
Fixpoint insert_sorted (x : wcPathDescr) (l : list wcPathDescr) : list wcPathDescr :=
  match l with
  | [] => [x]
  | y :: l => if less x y then x :: y :: l else y :: insert_sorted x l
  end.
Definition sort_Slice (l : list wcPathDescr) : list wcPathDescr := foldr insert_sorted [] l.

(** What the loop over the segments of a pattern ends in. *)
Variant seg_outcome :=
| SegPanic
| SegMismatch
| SegMount
| SegMatch (wildcards : Z).

(** [acl] and [parts] are the segments from the [i]th on; [nparts] is how
    many the path has. *)
Fixpoint seg_loop (bareMount prefix : bool) (path : string) (nparts i : nat) (acl parts : list string)
    (wc : Z) (segments : list string) : seg_outcome :=
  match acl, parts with
  | [], _ => SegMatch wc
  | _ :: _, [] => SegPanic
  | aclPart :: acl, part :: parts =>
      let continue wc segments :=
        if bareMount && (S (S i) =? nparts)%nat then
          if HasPrefix (Join segments "/" +:+ "/") path then SegMount else SegMismatch
        else seg_loop bareMount prefix path nparts (S i) acl parts wc segments in
      if decide (aclPart = "+") then continue (wc + 1) (segments ++ [part])
      else if decide (aclPart = part) then continue wc (segments ++ [part])
      else if prefix && bool_decide (acl = []) && HasPrefix part aclPart then
        continue wc (segments ++ part :: parts)
      else if bareMount then continue wc segments
      else SegMismatch
  end.

(** A pattern against the path. *)
Definition match_pattern (bareMount : bool) (path fullWCPath : string) (ps : ACLPermissions)
    : seg_outcome * wcPathDescr :=
  let pathParts := Router.split_slash path in
  let prefix := HasSuffix fullWCPath "*" in
  let currWCPath := TrimSuffix fullWCPath "*" in
  let splitCurrWCPath := Router.split_slash currWCPath in
  let pd wc := mkDescr (match Index fullWCPath "+" with Some i => Z.of_nat i | None => -1 end)
                 wc prefix currWCPath ps in
  if negb bareMount && (length pathParts <? length splitCurrWCPath)%nat then (SegMismatch, pd 0)
  else if negb bareMount && negb prefix && negb (length splitCurrWCPath =? length pathParts)%nat
  then (SegMismatch, pd 0)
  else
    let o := seg_loop bareMount prefix path (length pathParts) 0 splitCurrWCPath pathParts 0 [] in
    (o, pd (match o with SegMatch wc => wc | _ => 0 end)).

(** The loop over the patterns. *)
Fixpoint wc_loop (a : ACL) (bareMount : bool) (path : string) (patterns : list string)
    (wcPathDescrs : list wcPathDescr) : option (list wcPathDescr + ACLPermissions) :=
  match patterns with
  | [] => Some (inl wcPathDescrs)
  | fullWCPath :: patterns =>
      if decide (fullWCPath = "") then wc_loop a bareMount path patterns wcPathDescrs
      else
        match segmentWildcardPaths a !! fullWCPath with
        | None => wc_loop a bareMount path patterns wcPathDescrs
        | Some ps =>
            match match_pattern bareMount path fullWCPath ps with
            | (SegPanic, _) => None
            | (SegMismatch, _) => wc_loop a bareMount path patterns wcPathDescrs
            | (SegMount, _) =>
                if negb (has_cap (CapabilitiesBitmap ps) DenyCapabilityInt)
                   && (0 <? CapabilitiesBitmap ps)
                then Some (inr ps)
                else wc_loop a bareMount path patterns wcPathDescrs
            | (SegMatch _, pd) => wc_loop a bareMount path patterns (wcPathDescrs ++ [pd])
            end
        end
  end.

(** [None] stands for an index out of range. *)
Definition CheckAllowedFromNonExactPaths (a : ACL) (path : string) (bareMount : bool)
    : option (option ACLPermissions) :=
  let prefix := LongestPrefix (prefixRules a) path in
  if decide (segmentWildcardPaths a = ∅) then Some (snd <$> prefix)
  else
    let wcPathDescrs :=
      match prefix with
      | Some (prefix, ps) => [mkDescr (Z.of_nat (String.length prefix)) 0 true prefix ps]
      | None => []
      end in
    match wc_loop a bareMount path (range_keys (segmentWildcardPaths a)) wcPathDescrs with
    | None => None
    | Some (inr ps) => Some (Some ps)
    | Some (inl wcPathDescrs) =>
        if bareMount then Some None else Some (perms <$> last (sort_Slice wcPathDescrs))
    end.

(** ** Parameters *)

Definition valueInParameterList (v : value) (list : list value) : bool :=
  existsb (λ el,
    match el, v with
    | VNil, VNil => true
    | VNil, _ | _, VNil => false
    | VStr elStr, VStr vStr => GlobbedStringsMatch elStr vStr
    | VStr _, _ => false
    | _, _ => DeepEqual el v
    end) list.

(** The elements of a list, or of a string that stands for one. *)
Definition elements (v : value) : option (list value) :=
  match v with
  | VArr l => Some l
  | VStr s => l ← ParseCommaStringSlice s; Some (VStr <$> (l : list string))
  | _ => None
  end.

Definition valueInAllowedParameterList (v : value) (list : list value) (useLegacyMatching : bool) : bool :=
  if decide (list = []) then true
  else if valueInParameterList v list then true
  else if useLegacyMatching then false
  else match elements v with
       | Some vSlice => forallb (λ v, valueInParameterList v list) vSlice
       | None => false
       end.

Definition valueInDeniedParameterList (v : value) (list : list value) (useLegacyMatching : bool) : bool :=
  if decide (list = []) then true
  else if valueInParameterList v list then true
  else if useLegacyMatching then false
  else match elements v with
       | Some vSlice => existsb (λ v, valueInParameterList v list) vSlice
       | None => false
       end.

(** ** [AllowOperation] *)

(** The loop that drops leading slashes. *)
Fixpoint drop_slashes (path : string) : string :=
  match path with
  | String c rest => if Ascii.eqb c "/"%char then drop_slashes rest else path
  | "" => ""
  end.

(** The permissions that apply to a path: the exact rule, for a list the
    exact rule without the slash, else the best of the others. *)
Definition find_permissions (a : ACL) (op path : string) : option (option ACLPermissions) :=
  let bare := TrimSuffix path "/" in
  match exactRules a !! path with
  | Some ps => Some (Some ps)
  | None =>
      match (if decide (op = ListOperation) then exactRules a !! bare else None) with
      | Some ps => Some (Some ps)
      | None =>
          match (if bool_decide (op = ListOperation) && HasSuffix path "/"
                 then CheckAllowedFromNonExactPaths a bare false else Some None) with
          | None => None
          | Some (Some ps) => Some (Some ps)
          | Some None => CheckAllowedFromNonExactPaths a path false
          end
      end
  end.

(** The capability that an operation needs. *)
Definition op_capability (op : string) : option Z :=
  if decide (op = ReadOperation) then Some ReadCapabilityInt
  else if decide (op = ListOperation) then Some ListCapabilityInt
  else if decide (op = UpdateOperation) then Some UpdateCapabilityInt
  else if decide (op = DeleteOperation) then Some DeleteCapabilityInt
  else if decide (op = CreateOperation) then Some CreateCapabilityInt
  else if decide (op = PatchOperation) then Some PatchCapabilityInt
  else if decide (op = RecoverOperation) then Some RecoverCapabilityInt
  else if decide (op ∈ [RevokeOperation; RenewOperation; RollbackOperation]) then Some UpdateCapabilityInt
  else None.

(** The limits on response wrapping. *)
Definition wrapping_ok (ps : ACLPermissions) (wrap : option RequestWrapInfo) : bool :=
  (if 0 <? MaxWrappingTTL ps then
     match wrap with None => false | Some w => rw_TTL w <=? MaxWrappingTTL ps end
   else true)
  && (if 0 <? MinWrappingTTL ps then
        match wrap with None => false | Some w => MinWrappingTTL ps <=? rw_TTL w end
      else true)
  && negb (negb (MinWrappingTTL ps =? 0) && negb (MaxWrappingTTL ps =? 0)
           && (MaxWrappingTTL ps <? MinWrappingTTL ps)).

Definition checks_parameters (op : string) : bool :=
  bool_decide (op ∈ [ReadOperation; UpdateOperation; CreateOperation; PatchOperation; RecoverOperation]).

(** The limits on parameters. *)
Definition parameters_ok (legacy : bool) (ps : ACLPermissions) (data : gmap string value) : bool :=
  let denied := default ∅ (DeniedParameters ps) in
  let allowed := default ∅ (AllowedParameters ps) in
  let value key := default VNil (data !! key) in
  forallb (λ parameter, bool_decide (is_Some (data !! ToLower parameter))) (RequiredParameters ps)
  && (bool_decide (data = ∅)
      || (bool_decide (denied !! "*" = None)
          && forallb (λ parameter,
               match denied !! ToLower parameter with
               | Some l => negb (valueInDeniedParameterList (value parameter) l legacy)
               | None => true
               end) (range_keys data)
          && (bool_decide (allowed = ∅)
              || (bool_decide (is_Some (allowed !! "*")) && (size allowed =? 1)%nat)
              || forallb (λ parameter,
                   match allowed !! ToLower parameter with
                   | Some l => valueInAllowedParameterList (value parameter) l legacy
                   | None => bool_decide (is_Some (allowed !! "*"))
                   end) (range_keys data)))).

Definition root_results : ACLResults :=
  mkResults true true true None None 0 [mkInfo "root" "root" "" "acl"] ["*"].

(** From the label CHECK on. *)
Definition check (legacy capCheckOnly : bool) (req : Request) (ps : ACLPermissions) : ACLResults :=
  let capabilities := CapabilitiesBitmap ps in
  let rootPrivs := has_cap capabilities SudoCapabilityInt in
  let ret allowed granting :=
    mkResults allowed rootPrivs false (MFAMethods ps) (ControlGroup_ ps) 0 granting [] in
  if capCheckOnly then
    mkResults false rootPrivs false None None capabilities [] (SubscribeEventTypes ps)
  else
    match op_capability (req_Operation req) with
    | None => ret false []
    | Some c =>
        if has_cap capabilities c then
          ret (wrapping_ok ps (req_WrapInfo req)
               && (negb (checks_parameters (req_Operation req))
                   || parameters_ok legacy ps (default ∅ (req_Data req))))
            (default [] (GrantingPoliciesMap ps !! c))
        else ret false []
    end.

(** [legacy] is whether VAULT_LEGACY_EXACT_MATCHING_ON_LIST is set; [ns] the
    path of the context's namespace. *)
Definition AllowOperation (a : ACL) (legacy : bool) (ns : Router.Ctx) (req : Request) (capCheckOnly : bool)
    : option ACLResults :=
  if root a then Some root_results
  else if decide (req_Operation req = HelpOperation) then
    Some (mkResults true false false None None 0 [] [])
  else
    match ns with
    | None => Some no_results
    | Some nsp =>
        match find_permissions a (req_Operation req) (drop_slashes (nsp +:+ req_Path req)) with
        | None => None
        | Some None => Some no_results
        | Some (Some ps) => Some (check legacy capCheckOnly req ps)
        end
    end.

Definition capability_names : list (string * Z) := [
  ("sudo", SudoCapabilityInt); ("read", ReadCapabilityInt); ("list", ListCapabilityInt);
  ("update", UpdateCapabilityInt); ("delete", DeleteCapabilityInt); ("create", CreateCapabilityInt);
  ("patch", PatchCapabilityInt); ("subscribe", SubscribeCapabilityInt);
  ("recover", RecoverCapabilityInt)].

Definition CapabilitiesAndSubscribeEventTypes (a : ACL) (legacy : bool) (ns : Router.Ctx) (path : string)
    : option (list string * list string) :=
  res ← AllowOperation a legacy ns
          (mkRequest "" ListOperation path None None "" "" "" "" None "") true;
  Some (if IsRoot res then (["root"], ["*"])
        else
          let capabilities := r_CapabilitiesBitmap res in
          let names := fst <$> filter (λ '(_, c), has_cap capabilities c = true) capability_names in
          (if has_cap capabilities DenyCapabilityInt || bool_decide (names = []) then ["deny"] else names,
           r_SubscribeEventTypes res)).

(** ** The checks of the core *)

Record PolicyCheckOpts := mkOpts { RootPrivsRequired : bool; Unauth : bool }.
Record AuthResults := mkAuthResults {
  ACLResults_ : option ACLResults;
  au_Allowed : bool;
  au_RootPrivs : bool;
}.

Definition performPolicyChecks (acl : option ACL) (legacy : bool) (ns : Router.Ctx) (req : Request)
    (opts : PolicyCheckOpts) : option AuthResults :=
  match acl with
  | Some acl =>
      if Unauth opts then Some (mkAuthResults None true false)
      else
        res ← AllowOperation acl legacy ns req false;
        Some (mkAuthResults (Some res)
          (IsRoot res
           || (Allowed res
               && negb (negb (RootPrivs res) && RootPrivsRequired opts
                        && negb (bool_decide (req_Operation req = HelpOperation)))))
          (RootPrivs res))
  | None => Some (mkAuthResults None true false)
  end.
End acl.
