(* ===== verification/AclFacts.v ===== *)
(** * How policies combine, and which rule applies

    Compiling policies takes, for each path, the union of what the policies
    grant and lets a denial win; the rule that applies to a path is the one
    of highest priority, whatever the order the patterns are visited in. *)

From Stdlib Require Import Ascii.
From S2P Require Import Prelude GoLib GoSplit Storage Core Router Routing RouterFacts Scenario RouterScenario.
From S2P Require Import Templating Policy Acl.

Section compile.
Context `{GoTables} `{MapRange} `{Globbing}.

(** ** Bits *)

Lemma has_cap_lor e b c : 0 ≤ e → 0 ≤ b → 0 ≤ c → has_cap (Z.lor e b) c = has_cap e c || has_cap b c.
Proof.
  intros He Hb Hc. unfold has_cap. rewrite Z.land_lor_distr_l.
  assert (0 ≤ Z.land e c) by (apply Z.land_nonneg; lia).
  assert (0 ≤ Z.land b c) by (apply Z.land_nonneg; lia).
  assert (0 ≤ Z.lor (Z.land e c) (Z.land b c)) by (apply Z.lor_nonneg; lia).
  pose proof (Z.lor_eq_0_iff (Z.land e c) (Z.land b c)) as Hz.
  apply eq_bool_prop_intro. rewrite orb_True, !Is_true_true, !Z.ltb_lt. lia.
Qed.

(** ** The stanzas of a key *)

Variant kind := Exact | Prefix | Segments.
#[local] Instance kind_eq_dec : EqDecision kind.
Proof. solve_decision. Defined.

Definition kind_of (pc : PathRules) : kind :=
  if HasSegmentWildcards pc then Segments else if IsPrefix pc then Prefix else Exact.
Definition rules (k : kind) (a : ACL) : gmap string ACLPermissions :=
  match k with Exact => exactRules a | Prefix => prefixRules a | Segments => segmentWildcardPaths a end.

(** Every path of every policy, in order. *)
Definition stanzas (policies : list (option Policy)) : list (Policy * PathRules) :=
  concat ((λ o, match o with
                | Some p => match Type_ p with PolicyTypeACL => (p,.) <$> Paths p | _ => [] end
                | None => []
                end) <$> policies).

Definition bitmap (x : Policy * PathRules) : Z := CapabilitiesBitmap (Permissions x.2).
Definition denies (b : Z) : bool := has_cap b DenyCapabilityInt.

(** A denial is alone, as the parser makes it. *)
Definition wf_bitmap (b : Z) : Prop := 0 ≤ b ∧ (denies b = true → b = DenyCapabilityInt).

Definition for_key (k : kind) (key : string) (l : list (Policy * PathRules)) : list (Policy * PathRules) :=
  filter (λ x, kind_of x.2 = k ∧ Path x.2 = key) l.

(** What the policies together grant: a denial wins over everything, else the
    union. *)
Definition granted (bs : list Z) (c : Z) : bool :=
  if existsb denies bs then has_cap DenyCapabilityInt c else existsb (λ b, has_cap b c) bs.

Definition add_stanza (k : kind) (t : gmap string ACLPermissions) (x : Policy * PathRules)
    : gmap string ACLPermissions :=
  if decide (kind_of x.2 = k) then add_to x.1 x.2 t else t.

Lemma rules_add k p a pc : rules k (add_path p a pc) = add_stanza k (rules k a) (p, pc).
Proof.
  unfold add_path, add_stanza, kind_of. simpl.
  destruct (HasSegmentWildcards pc), (IsPrefix pc), k; reflexivity.
Qed.

Lemma rules_fold k p pcs a :
  rules k (fold_left (add_path p) pcs a) = fold_left (add_stanza k) ((p,.) <$> pcs) (rules k a).
Proof. revert a. induction pcs as [|pc pcs IH]; intros a; [done|]. simpl. by rewrite IH, rules_add. Qed.

Lemma inject_rules ns n pols a a' k :
  inject ns n pols a = Ok a' → rules k a' = fold_left (add_stanza k) (stanzas pols) (rules k a).
Proof.
  revert a. induction pols as [|[p|] pols IH]; intros a; cbn [inject].
  - by intros [= <-].
  - unfold stanzas. rewrite fmap_cons. simpl. rewrite fold_left_app.
    destruct (Type_ p) eqn:Ht; [|by intros ->%IH; destruct k|done..].
    destruct (_ && _); [done|]. destruct (_ && _); [done|]. intros ->%IH.
    rewrite rules_fold. f_equal. f_equal. by case_bool_decide; destruct k.
  - apply IH.
Qed.

(** ** The bits of a key *)

Definition join (o : option Z) (b : Z) : Z :=
  match o with
  | None => b
  | Some e => if denies e then e else if denies b then DenyCapabilityInt else Z.lor e b
  end.

Lemma add_to_bitmap p pc t key :
  CapabilitiesBitmap <$> add_to p pc t !! key =
  if decide (Path pc = key)
  then Some (join (CapabilitiesBitmap <$> t !! key) (CapabilitiesBitmap (Permissions pc)))
  else CapabilitiesBitmap <$> t !! key.
Proof.
  unfold add_to. destruct (decide (Path pc = key)) as [<-|Hne].
  - rewrite lookup_insert_eq. simpl. destruct (t !! Path pc) as [e|]; simpl; [|done].
    unfold merge, join, denies. by repeat case_match.
  - by rewrite lookup_insert_ne.
Qed.

Lemma fold_bitmap k key l t :
  CapabilitiesBitmap <$> fold_left (add_stanza k) l t !! key =
  fold_left (λ o b, Some (join o b)) (bitmap <$> for_key k key l) (CapabilitiesBitmap <$> t !! key).
Proof.
  revert t. induction l as [|[p pc] l IH]; intros t; [done|]. simpl. rewrite IH.
  unfold for_key. rewrite filter_cons. unfold add_stanza. simpl.
  destruct (decide (kind_of pc = k)) as [Hk|Hk], (decide (Path pc = key)) as [Hp|Hp];
    destruct (decide (_ ∧ _)) as [[? ?]|?]; try (by exfalso; tauto).
  - simpl. by rewrite add_to_bitmap, decide_True.
  - by rewrite add_to_bitmap, decide_False.
  - done.
  - done.
Qed.

Lemma fold_join bs :
  Forall wf_bitmap bs → bs ≠ [] →
  ∃ e, fold_left (λ o b, Some (join o b)) bs None = Some e ∧ wf_bitmap e ∧
    denies e = existsb denies bs ∧ ∀ c, 0 ≤ c → has_cap e c = granted bs c.
Proof.
  intros Hbs. induction bs as [|b bs IH] using rev_ind; [done|]. intros _.
  apply Forall_app in Hbs as [Hbs Hb]. apply Forall_cons in Hb as [Hb _].
  rewrite fold_left_app. unfold granted. simpl. rewrite existsb_app. simpl. rewrite orb_false_r.
  destruct (decide (bs = [])) as [->|Hne].
  { exists b. split; [done|split; [done|split; [done|]]]. intros c _. simpl. destruct (denies b) eqn:Hd; [|by rewrite orb_false_r].
    by rewrite (proj2 Hb Hd). }
  destruct (IH Hbs Hne) as (e & -> & He & Hde & Hc). simpl. eexists. split; [done|].
  rewrite <-Hde. unfold granted in Hc. rewrite <-Hde in Hc.
  destruct (denies e) eqn:Hd; [done|]. destruct (denies b) eqn:Hdb; simpl.
  { split; [split; [unfold DenyCapabilityInt; lia|done]|done]. }
  destruct He as [He _], Hb as [Hb _]. split; [|split].
  - split; [apply Z.lor_nonneg; lia|]. unfold denies. rewrite has_cap_lor by (unfold DenyCapabilityInt; lia).
    unfold denies in Hd, Hdb. by rewrite Hd, Hdb.
  - unfold denies. rewrite has_cap_lor by (unfold DenyCapabilityInt; lia).
    unfold denies in Hd, Hdb. by rewrite Hd, Hdb.
  - intros c Hc0. rewrite existsb_app, has_cap_lor, Hc by done. simpl. by rewrite orb_false_r.
Qed.

(** The rule of a key, after compilation. *)
Lemma compiled_rule ns pols a k key :
  NewACL (Some ns) pols = Ok a → Forall (λ x, wf_bitmap (bitmap x)) (stanzas pols) →
  let bs := bitmap <$> for_key k key (stanzas pols) in
  match rules k a !! key with
  | None => bs = []
  | Some e => bs ≠ [] ∧ wf_bitmap (CapabilitiesBitmap e) ∧
      ∀ c, 0 ≤ c → has_cap (CapabilitiesBitmap e) c = granted bs c
  end.
Proof.
  intros HN Hwf bs. unfold NewACL in HN.
  pose proof (inject_rules _ _ _ _ _ k HN) as Hr.
  assert (CapabilitiesBitmap <$> rules k a !! key = fold_left (λ o b, Some (join o b)) bs None) as Hf.
  { rewrite Hr, fold_bitmap. f_equal. unfold empty_acl. by destruct k. }
  assert (Forall wf_bitmap bs) as Hbs.
  { apply Forall_fmap, Forall_forall. rewrite Forall_forall in Hwf.
    intros x [_ Hx]%list_elem_of_filter. by apply Hwf. }
  destruct (decide (bs = [])) as [He|Hne].
  - rewrite He in Hf. by destruct (rules k a !! key).
  - destruct (fold_join bs Hbs Hne) as (e & He & ? & _ & ?). rewrite He in Hf.
    destruct (rules k a !! key); [|done]. simpl in Hf. injection Hf as ->. done.
Qed.
End compile.

(** ** Priorities *)

Lemma ltb_cons c d s t :
  String.ltb (String c s) (String d t) = true ↔
  (N_of_ascii c < N_of_ascii d)%N ∨ (c = d ∧ String.ltb s t = true).
Proof.
  unfold String.ltb. cbn [String.compare]. unfold Ascii.compare.
  destruct (N.compare_spec (N_of_ascii c) (N_of_ascii d)) as [He|Hl|Hg].
  - assert (c = d) as -> by (rewrite <-(ascii_N_embedding c), He; apply ascii_N_embedding).
    split; [by right|]. intros [?|[_ ?]]; [lia|done].
  - split; [by left|done].
  - split; [done|]. intros [?|[-> _]]; lia.
Qed.

Lemma ltb_trans s t u : String.ltb s t = true → String.ltb t u = true → String.ltb s u = true.
Proof.
  revert t u. induction s as [|c s IH]; intros [|d t] [|e u]; try discriminate; [reflexivity|].
  rewrite !ltb_cons. intros [?|[-> ?]] [?|[-> ?]]; eauto with lia.
Qed.

Lemma ltb_total s t : String.ltb s t = false → String.ltb t s = false → s = t.
Proof.
  unfold String.ltb. rewrite (String.compare_antisym t s). intros Hst Hts.
  destruct (String.compare s t) eqn:Hc; simpl in *; [by apply String.compare_eq_iff|discriminate..].
Qed.

Lemma ltb_irrefl s : String.ltb s s = false.
Proof. induction s as [|c s IH]; [done|]. apply not_true_is_false. rewrite ltb_cons, IH. intros [?|[_ ?]]; [lia|done]. Qed.

(** The order of [less], as a lexicographic one. *)
Lemma less_spec x y :
  less x y = true ↔
  firstWCOrGlob x < firstWCOrGlob y ∨ firstWCOrGlob x = firstWCOrGlob y ∧
  (Z.b2z (isPrefix y) < Z.b2z (isPrefix x) ∨ Z.b2z (isPrefix x) = Z.b2z (isPrefix y) ∧
   (wildcards y < wildcards x ∨ wildcards x = wildcards y ∧
    (Z.of_nat (String.length (wcPath x)) < Z.of_nat (String.length (wcPath y)) ∨
     Z.of_nat (String.length (wcPath x)) = Z.of_nat (String.length (wcPath y)) ∧
     String.ltb (wcPath x) (wcPath y) = true))).
Proof.
  unfold less.
  destruct (Z.ltb_spec (firstWCOrGlob x) (firstWCOrGlob y)); [by split; [left|]|].
  destruct (Z.ltb_spec (firstWCOrGlob y) (firstWCOrGlob x)); [split; [done|lia]|].
  destruct (isPrefix x), (isPrefix y); simpl; try (split; [intros; right; lia|done]);
    try (split; [done|lia]);
    (destruct (Z.ltb_spec (wildcards y) (wildcards x)); [split; [intros; right; lia|done]|];
     destruct (Z.ltb_spec (wildcards x) (wildcards y)); [split; [done|lia]|];
     destruct (Nat.ltb_spec (String.length (wcPath x)) (String.length (wcPath y)));
       [split; [intros; right; lia|done]|];
     destruct (Nat.ltb_spec (String.length (wcPath y)) (String.length (wcPath x))); [split; [done|lia]|];
     split; [intros Hl; rewrite Hl; lia|];
     intros [?|[? [?|[? [?|[? [?|[? Hl]]]]]]]]; [lia..|done]).
Qed.

Lemma less_trans x y z : less x y = true → less y z = true → less x z = true.
Proof.
  rewrite !less_spec.
  intros [?|[? [?|[? [?|[? [?|[? Hl]]]]]]]] [?|[? [?|[? [?|[? [?|[? Hl']]]]]]]]; try lia.
  right. split; [lia|]. right. split; [lia|]. right. split; [lia|]. right. split; [lia|].
  by eapply ltb_trans.
Qed.

Lemma less_irrefl x : less x x = false.
Proof. apply not_true_is_false. rewrite less_spec, ltb_irrefl. lia. Qed.

Lemma less_total x y :
  less x y = false → less y x = false →
  firstWCOrGlob x = firstWCOrGlob y ∧ isPrefix x = isPrefix y ∧ wcPath x = wcPath y.
Proof.
  intros Hx Hy. apply not_true_iff_false in Hx, Hy. rewrite less_spec in Hx, Hy.
  assert (firstWCOrGlob x = firstWCOrGlob y) as Hf by lia.
  assert (Z.b2z (isPrefix x) = Z.b2z (isPrefix y)) as Hp by lia.
  assert (wildcards x = wildcards y) as Hw by lia.
  assert (Z.of_nat (String.length (wcPath x)) = Z.of_nat (String.length (wcPath y))) as Hl by lia.
  split_and!; [done|by destruct (isPrefix x), (isPrefix y)|].
  apply ltb_total; apply not_true_iff_false; intros ?; [apply Hx|apply Hy];
    do 4 (right; split; [lia|]); done.
Qed.

(** ** Sorting *)

Lemma less_le_trans x y z : less x y = true → less z y = false → less x z = true.
Proof.
  intros Hxy Hyz. destruct (less y z) eqn:Hl; [by eapply less_trans|].
  destruct (less x z) eqn:Hxz; [done|]. destruct (less z x) eqn:Hzx.
  - by rewrite (less_trans z x y) in Hyz.
  - destruct (less_total _ _ Hxz Hzx) as (Hf1 & Hp1 & Hw1), (less_total _ _ Hl Hyz) as (Hf2 & Hp2 & Hw2).
    rewrite less_spec, Hw1, Hw2, ltb_irrefl, Hp1, Hp2 in Hxy.
    assert (wildcards y = wildcards z).
    { apply not_true_iff_false in Hl, Hyz. rewrite less_spec, Hp2, Hw2, ltb_irrefl in Hl, Hyz. lia. }
    assert (wildcards x = wildcards z).
    { apply not_true_iff_false in Hxz, Hzx. rewrite less_spec, Hp1, Hw1, ltb_irrefl in Hxz, Hzx. lia. }
    lia.
Qed.

Lemma less_asym x y : less x y = true → less y x = false.
Proof.
  intros Hxy. apply not_true_is_false. intros Hyx.
  pose proof (less_trans _ _ _ Hxy Hyx) as Hxx. by rewrite less_irrefl in Hxx.
Qed.

(** Nothing comes after the last element. *)
Definition topped (l : list wcPathDescr) : Prop := ∀ m y, last l = Some m → y ∈ l → less m y = false.

Lemma elem_of_insert x y l : y ∈ insert_sorted x l ↔ y = x ∨ y ∈ l.
Proof.
  induction l as [|z l IH]; cbn [insert_sorted]; [by rewrite list_elem_of_singleton; set_solver|].
  destruct (less x z); [set_solver|]. rewrite !elem_of_cons, IH. tauto.
Qed.

Lemma last_insert x l : last (insert_sorted x l) = Some x ∨ last (insert_sorted x l) = last l.
Proof.
  induction l as [|z l IH]; cbn [insert_sorted]; [by left|]. destruct (less x z); [by right|].
  rewrite !(last_cons z). by destruct IH as [->| ->]; [left|right].
Qed.

Lemma topped_insert x l : topped l → topped (insert_sorted x l).
Proof.
  induction l as [|z l IH]; intros Ht m y; cbn [insert_sorted].
  { simpl. intros [= ->] ->%list_elem_of_singleton. apply less_irrefl. }
  destruct (less x z) eqn:Hxz.
  - intros Hm [->|Hy]%elem_of_cons; [|by apply Ht]. apply less_asym.
    apply (less_le_trans _ z); [done|]. apply Ht; [done|left].
  - assert (topped l) as Htl.
    { intros m' y' Hm' Hy'. apply Ht; [by rewrite last_cons, Hm'|by right]. }
    rewrite last_cons. destruct (last (insert_sorted x l)) as [m'|] eqn:Hl.
    + intros [= ->] [->|Hy]%elem_of_cons; [|by apply (IH Htl)].
      destruct (last_insert x l) as [He|He]; rewrite Hl in He; [by injection He as ->|].
      apply Ht; [by rewrite last_cons, <-He|left].
    + apply last_None in Hl. assert (x ∈ insert_sorted x l) as Hx by (apply elem_of_insert; by left).
      rewrite Hl in Hx. by apply not_elem_of_nil in Hx.
Qed.

Lemma sort_topped l : topped (sort_Slice l).
Proof. induction l as [|x l IH]; [by intros m y|]. by apply topped_insert. Qed.

Lemma elem_of_sort l y : y ∈ sort_Slice l ↔ y ∈ l.
Proof. induction l as [|x l IH]; [done|]. cbn [sort_Slice foldr]. by rewrite elem_of_insert, IH, elem_of_cons. Qed.

(** ** The rule that applies *)

Section choice.
Context `{MapRange} `{RadixSearch}.

Definition plus_count (l : list string) : Z := len (filter (λ s, s = "+") l).

(** The descriptions of a rule with a star and of a rule with wildcards. *)
Definition prefix_descr (k : string) (ps : ACLPermissions) : wcPathDescr :=
  mkDescr (Z.of_nat (String.length k)) 0 true k ps.
Definition pattern_descr (full : string) (ps : ACLPermissions) : wcPathDescr :=
  mkDescr (match Index full "+" with Some i => Z.of_nat i | None => -1 end)
    (plus_count (Router.split_slash (TrimSuffix full "*"))) (HasSuffix full "*")
    (TrimSuffix full "*") ps.

(** A pattern matches a path, by the reference of the router. *)
Definition pattern_applies (path full : string) : bool :=
  Router.pathMatchesWildcardPath (Router.split_slash path) (Router.split_slash (TrimSuffix full "*"))
    (HasSuffix full "*").

(** The rules that match a path. *)
Definition candidate (a : ACL) (path : string) (pd : wcPathDescr) : Prop :=
  (∃ k ps, prefixRules a !! k = Some ps ∧ HasPrefix path k = true ∧ pd = prefix_descr k ps) ∨
  (∃ full ps, full ≠ "" ∧ segmentWildcardPaths a !! full = Some ps ∧
     pattern_applies path full = true ∧ pd = pattern_descr full ps).

Lemma seg_loop_reference prefix path n i acl parts wc segs :
  (length acl ≤ length parts)%nat →
  seg_loop false prefix path n i acl parts wc segs =
  if Router.segments_match parts acl prefix then SegMatch (wc + plus_count acl) else SegMismatch.
Proof.
  unfold plus_count, len.
  revert i parts wc segs. induction acl as [|w acl IH]; intros i [|p parts] wc segs Hl;
    cbn [seg_loop Router.segments_match] in *; [by rewrite Z.add_0_r..|simpl in Hl; lia|].
  simpl in Hl. rewrite filter_cons. destruct (decide (w = "+")) as [->|Hw]; simpl.
  { rewrite IH by lia. destruct (Router.segments_match _ _ _); [|done]. f_equal. lia. }
  rewrite (bool_decide_eq_false_2 _ Hw).
  destruct (decide (w = p)) as [->|Hp]; [rewrite bool_decide_eq_true_2 by done; by rewrite IH by lia|].
  rewrite (bool_decide_eq_false_2 _ Hp). simpl.
  destruct (prefix && _ && _); [|done]. by rewrite IH by lia.
Qed.

Lemma split_slash_cons s : Router.split_slash s ≠ [].
Proof. destruct s as [|c s]; [done|]. simpl. destruct (Ascii.eqb c "/"); [done|]. by destruct (Router.split_slash s). Qed.

Lemma match_pattern_reference path full ps :
  match match_pattern false path full ps with
  | (SegMatch _, pd) => pattern_applies path full = true ∧ pd = pattern_descr full ps
  | (SegMismatch, _) => pattern_applies path full = false
  | _ => False
  end.
Proof.
  unfold match_pattern, pattern_applies, Router.pathMatchesWildcardPath.
  rewrite decide_False by apply split_slash_cons. simpl.
  destruct (Nat.ltb_spec (length (Router.split_slash path))
    (length (Router.split_slash (TrimSuffix full "*")))) as [|Hl]; [done|].
  destruct (negb (HasSuffix full "*") && _); [done|].
  rewrite seg_loop_reference by done. by destruct (Router.segments_match _ _ _).
Qed.

(** The description of a pattern that matches. *)
Definition descr_of (a : ACL) (path full : string) : option wcPathDescr :=
  if decide (full = "") then None
  else
    ps ← segmentWildcardPaths a !! full;
    if pattern_applies path full then Some (pattern_descr full ps) else None.

Lemma wc_loop_descrs a path patterns ds :
  wc_loop a false path patterns ds = Some (inl (ds ++ omap (descr_of a path) patterns)).
Proof.
  revert ds. induction patterns as [|full patterns IH]; intros ds; cbn [wc_loop].
  { by rewrite app_nil_r. }
  simpl. unfold descr_of at 1. destruct (decide (full = "")); [apply IH|].
  destruct (segmentWildcardPaths a !! full) as [ps|]; simpl; [|apply IH].
  pose proof (match_pattern_reference path full ps) as Hm.
  destruct (match_pattern false path full ps) as [[] pd]; try done.
  - rewrite Hm. apply IH.
  - destruct Hm as [-> ->]. rewrite IH. by rewrite <-app_assoc.
Qed.

Lemma full_pattern full : full = TrimSuffix full "*" +:+ (if HasSuffix full "*" then "*" else "").
Proof.
  destruct (HasSuffix full "*") eqn:Hs.
  - apply HasSuffix_spec in Hs as (r & ->). by rewrite TrimSuffix_app.
  - unfold TrimSuffix, HasSuffix in *. apply bool_decide_eq_false in Hs.
    destruct (strip_suffix "*" full); [by destruct Hs|]. simpl. by rewrite str_app_nil_r.
Qed.

(** Two rules that match have different priorities. *)
Lemma candidates_differ a path x y :
  candidate a path x → candidate a path y → less x y = false → less y x = false → x = y.
Proof.
  assert (∀ k ps full ps', less (prefix_descr k ps) (pattern_descr full ps') = false →
    less (pattern_descr full ps') (prefix_descr k ps) = false → False) as Hmixed.
  { intros k ps full ps' Hl Hr. destruct (less_total _ _ Hl Hr) as (Hf & Hp & Hw). simpl in *.
    destruct (Index full "+") as [i|] eqn:Hi; [|lia].
    pose proof (full_pattern full) as Hfull. rewrite <-Hp, <-Hw in Hfull.
    apply Index_Some in Hi. assert (i = String.length k) as -> by lia.
    rewrite Hfull in Hi at 1. rewrite Hfull, str_take_app in Hi at 1.
    by apply str_app_inj_l in Hi. }
  intros [(k & ps & Hk & _ & ->)|(full & ps & _ & Hk & _ & ->)]
    [(k' & ps' & Hk' & _ & ->)|(full' & ps' & _ & Hk' & _ & ->)] Hl Hr.
  - destruct (less_total _ _ Hl Hr) as (_ & _ & Hw). simpl in Hw. subst k'. by simplify_eq.
  - by destruct (Hmixed _ _ _ _ Hl Hr).
  - by destruct (Hmixed _ _ _ _ Hr Hl).
  - destruct (less_total _ _ Hl Hr) as (_ & Hp & Hw). simpl in *.
    assert (full = full') as <- by by rewrite (full_pattern full), (full_pattern full'), Hp, Hw.
    by simplify_eq.
Qed.

(** What is sorted: the longest prefix rule, and the patterns that match. *)
Definition shortlist (a : ACL) (path : string) : list wcPathDescr :=
  match LongestPrefix (prefixRules a) path with
  | Some (k, ps) => [prefix_descr k ps]
  | None => []
  end ++ omap (descr_of a path) (range_keys (segmentWildcardPaths a)).

Lemma shortlist_candidate a path x : x ∈ shortlist a path → candidate a path x.
Proof.
  unfold shortlist. rewrite elem_of_app, list_elem_of_omap. intros [Hx|(full & Hf & Hx)].
  - left. destruct (LongestPrefix _ _) as [[k ps]|] eqn:Hl; [|by apply not_elem_of_nil in Hx].
    apply list_elem_of_singleton in Hx as ->. apply LongestPrefix_some in Hl as (? & ? & _). by exists k, ps.
  - right. unfold descr_of in Hx. destruct (decide (full = "")); [done|].
    destruct (segmentWildcardPaths a !! full) as [ps|] eqn:Hs; [|done]. simpl in Hx.
    destruct (pattern_applies path full) eqn:Hp; [|done]. injection Hx as <-. by exists full, ps.
Qed.

Lemma candidate_shortlist a path x :
  candidate a path x → ∃ y, y ∈ shortlist a path ∧ (x = y ∨ less x y = true).
Proof.
  intros [(k & ps & Hk & Hp & ->)|(full & ps & Hne & Hk & Hp & ->)].
  - unfold shortlist. destruct (LongestPrefix (prefixRules a) path) as [[k' ps']|] eqn:Hl.
    + exists (prefix_descr k' ps'). split; [by left|].
      apply LongestPrefix_some in Hl as (Hk' & Hp' & Hmax).
      specialize (Hmax k ltac:(by eexists) Hp).
      destruct (Nat.lt_ge_cases (String.length k) (String.length k')) as [|Hge].
      * right. apply less_spec. left. simpl. lia.
      * left. assert (k = k') as ->; [|by simplify_eq].
        pose proof (prefix_comparable _ _ _ Hp Hp' Hmax) as Hc. apply HasPrefix_spec in Hc as (r & ->).
        rewrite str_length_app in Hge. destruct r; [by rewrite str_app_nil_r|simpl in Hge; lia].
    + rewrite LongestPrefix_none in Hl. rewrite (Hl k) in Hp; [done|by eexists].
  - exists (pattern_descr full ps). split; [|by left]. unfold shortlist. rewrite elem_of_app. right.
    apply list_elem_of_omap. exists full. split; [by apply range_keys_elem; eexists|].
    unfold descr_of. by rewrite decide_False, Hk by done; simpl; rewrite Hp.
Qed.

Lemma best_of_shortlist a path :
  match last (sort_Slice (shortlist a path)) with
  | None => ∀ x, ¬ candidate a path x
  | Some m => candidate a path m ∧ ∀ x, candidate a path x → x = m ∨ less x m = true
  end.
Proof.
  destruct (last _) as [m|] eqn:Hl.
  - assert (candidate a path m) as Hm.
    { apply shortlist_candidate, elem_of_sort. by apply last_Some_elem_of. }
    split; [done|]. intros x Hx. destruct (candidate_shortlist _ _ _ Hx) as (y & Hy & Hxy).
    pose proof (sort_topped _ m y Hl (proj2 (elem_of_sort _ _) Hy)) as Hmy.
    destruct Hxy as [->|Hxy]; [|right; by eapply less_le_trans].
    destruct (less y m) eqn:Hym; [by right|left]. by eapply candidates_differ; [|done|..].
  - apply last_None in Hl. intros x (y & Hy & _)%candidate_shortlist.
    apply elem_of_sort in Hy. rewrite Hl in Hy. by apply not_elem_of_nil in Hy.
Qed.

Lemma nonexact_shortlist a path :
  CheckAllowedFromNonExactPaths a path false = Some (perms <$> last (sort_Slice (shortlist a path))).
Proof.
  unfold CheckAllowedFromNonExactPaths, shortlist. destruct (decide (segmentWildcardPaths a = ∅)) as [Hs|].
  - assert (omap (descr_of a path) (range_keys (segmentWildcardPaths a)) = []) as ->.
    { apply elem_of_nil_inv. intros x (full & Hf & _)%list_elem_of_omap.
      apply range_keys_elem in Hf as [ps Hf]. rewrite Hs in Hf. by apply lookup_empty_Some in Hf. }
    rewrite app_nil_r. by destruct (LongestPrefix _ _) as [[k ps]|].
  - rewrite wc_loop_descrs. by destruct (LongestPrefix _ _) as [[k ps]|].
Qed.

(** The priority of the rules that match a path: a later first wildcard or
    star comes first; then a rule without a star at its end; then fewer
    wildcard segments; then a longer rule; then the one that is lexically
    greater. *)
Definition outranks (y x : wcPathDescr) : Prop :=
  firstWCOrGlob x < firstWCOrGlob y ∨ firstWCOrGlob x = firstWCOrGlob y ∧
  (isPrefix x = true ∧ isPrefix y = false ∨ isPrefix x = isPrefix y ∧
   (wildcards y < wildcards x ∨ wildcards x = wildcards y ∧
    ((String.length (wcPath x) < String.length (wcPath y))%nat ∨
     String.length (wcPath x) = String.length (wcPath y) ∧ String.ltb (wcPath x) (wcPath y) = true))).

Lemma less_outranks x y : less x y = true ↔ outranks y x.
Proof.
  rewrite less_spec. unfold outranks.
  assert (Z.b2z (isPrefix y) < Z.b2z (isPrefix x) ↔ isPrefix x = true ∧ isPrefix y = false) as ->
    by (destruct (isPrefix x), (isPrefix y); simpl; split; intuition (lia || done)).
  assert (Z.b2z (isPrefix x) = Z.b2z (isPrefix y) ↔ isPrefix x = isPrefix y) as ->
    by (destruct (isPrefix x), (isPrefix y); done).
  by rewrite <-Nat2Z.inj_lt, Nat2Z.inj_iff.
Qed.

(** C26: the rule that applies to a path without an exact one outranks all the
    others that match it, with a star or with wildcard segments, in the order
    [outranks] spells out; it is unique, so that the outcome does not depend on
    the order the patterns are visited in, no index is out of range, and there
    is none exactly if no rule matches.  The comment on the order prefers the
    lexically lesser of two rules that are otherwise alike; the code prefers
    the greater. *)
Theorem best_rule_applies a path :
  match CheckAllowedFromNonExactPaths a path false with
  | None => False
  | Some None => ∀ x, ¬ candidate a path x
  | Some (Some ps) => ∃ m, candidate a path m ∧ perms m = ps ∧
      ∀ x, candidate a path x → x = m ∨ outranks m x
  end.
Proof.
  pose proof (best_of_shortlist a path) as Hb. rewrite nonexact_shortlist.
  destruct (last _) as [m|]; simpl; [|done]. destruct Hb as [Hm Hbest]. exists m. split_and!; [done..|].
  intros x [->|Hx%less_outranks]%Hbest; [by left|by right].
Qed.
End choice.
