(* ===== verification/AclSound.v ===== *)
(** * Access control is sound

    A policy that parses is well formed; a request is allowed only if some
    policy grants it; an explicit denial wins; a path that needs root
    privileges is open only with sudo. *)

From Stdlib Require Import Ascii.
From S2P Require Import Prelude GoLib GoSplit Storage Core Router Routing RouterFacts Scenario RouterScenario.
From S2P Require Import SystemPaths Templating Policy Acl AclFacts.

(** ** The decision *)

Section decision.
Context `{GoTables} `{MapRange} `{Parseutil} `{Globbing} `{RadixSearch}.

(** A rule matches a path, and applies to a request on it: a list is also
    matched without its trailing slash. *)
Definition key_matches (k : kind) (key path : string) : bool :=
  match k with
  | Exact => bool_decide (key = path)
  | Prefix => HasPrefix path key
  | Segments => pattern_applies path key
  end.
Definition key_applies (k : kind) (key op path : string) : bool :=
  key_matches k key path ||
  (bool_decide (op = ListOperation) && key_matches k key (TrimSuffix path "/")).

Lemma candidate_rule a path m :
  candidate a path m → ∃ k key, rules k a !! key = Some (perms m) ∧ key_matches k key path = true.
Proof.
  intros [(key & ps & Hk & Hp & ->)|(full & ps & _ & Hk & Hp & ->)]; [by exists Prefix, key|by exists Segments, full].
Qed.

Lemma nonexact_rule a path r :
  CheckAllowedFromNonExactPaths a path false = Some r →
  match r with
  | None => True
  | Some ps => ∃ k key, rules k a !! key = Some ps ∧ key_matches k key path = true
  end.
Proof.
  rewrite nonexact_shortlist. pose proof (best_of_shortlist a path) as Hb.
  destruct (last _) as [m|]; simpl; intros [= <-]; [|done]. by apply candidate_rule, Hb.
Qed.

Lemma find_permissions_rule a op path :
  match find_permissions a op path with
  | None => False
  | Some None => True
  | Some (Some ps) => ∃ k key, rules k a !! key = Some ps ∧ key_applies k key op path = true
  end.
Proof.
  unfold find_permissions, key_applies.
  destruct (exactRules a !! path) as [ps|] eqn:Hx.
  { exists Exact, path. split; [done|]. simpl. by rewrite bool_decide_eq_true_2. }
  destruct (decide (op = ListOperation)) as [->|Hop].
  2: { rewrite (bool_decide_eq_false_2 _ Hop). simpl.
    destruct (CheckAllowedFromNonExactPaths a path false) as [r|] eqn:Hr;
      [|by rewrite nonexact_shortlist in Hr].
    apply nonexact_rule in Hr. destruct r as [ps|]; [|done]. destruct Hr as (k & key & ? & Hm).
    exists k, key. by rewrite Hm. }
  rewrite bool_decide_eq_true_2 by done. simpl.
  destruct (exactRules a !! TrimSuffix path "/") as [ps|] eqn:Hx'.
  { exists Exact, (TrimSuffix path "/"). split; [done|]. simpl. by rewrite (bool_decide_eq_true_2 _ eq_refl), orb_true_r. }
  destruct (if HasSuffix path "/" then CheckAllowedFromNonExactPaths a (TrimSuffix path "/") false else Some None)
    as [[ps|]|] eqn:Hr.
  - destruct (HasSuffix path "/"); [|done]. apply nonexact_rule in Hr as (k & key & ? & Hm).
    exists k, key. by rewrite Hm, orb_true_r.
  - clear Hr. destruct (CheckAllowedFromNonExactPaths a path false) as [r|] eqn:Hr;
      [|by rewrite nonexact_shortlist in Hr].
    apply nonexact_rule in Hr. destruct r as [ps|]; [|done]. destruct Hr as (k & key & ? & Hm).
    exists k, key. by rewrite Hm.
  - destruct (HasSuffix path "/"); [by rewrite nonexact_shortlist in Hr|done].
Qed.

Lemma inject_root ns n pols a a' :
  inject ns n pols a = Ok a' → root a' = true →
  root a = true ∨ ∃ p, Some p ∈ pols ∧ Name p = "root" ∧ ns_ID ns = "root" ∧ n = 1%nat.
Proof.
  assert (∀ p pcs a, root (fold_left (add_path p) pcs a) = root a) as Hfold.
  { intros p pcs. induction pcs as [|pc pcs IH]; intros b; [done|]. simpl. rewrite IH.
    unfold add_path. by destruct (HasSegmentWildcards pc), (IsPrefix pc). }
  revert a. induction pols as [|[p|] pols IH]; intros a; cbn [inject].
  - intros [= <-]. by left.
  - destruct (Type_ p); [|intros Hi Hr; destruct (IH _ Hi Hr) as [?|(q & ? & ?)]; [by left|]..|done|done].
    + destruct (bool_decide (Name p = "root")) eqn:Hn; simpl.
      * apply bool_decide_eq_true in Hn. destruct (bool_decide (ns_ID ns = "root")) eqn:Hns; simpl; [|done].
        apply bool_decide_eq_true in Hns. destruct (Nat.eqb_spec n 1); simpl; [|done].
        intros _ _. right. exists p. split_and!; [by left|done..].
      * intros Hi Hr. destruct (IH _ Hi Hr) as [Hra|(q & ? & ?)].
        -- rewrite Hfold in Hra. by left.
        -- right. exists q. split; [by right|done].
    + right. exists q. split; [by right|done].
  - intros Hi Hr. destruct (IH _ Hi Hr) as [?|(q & ? & ?)]; [by left|right]. exists q. split; [by right|done].
Qed.

Lemma op_capability_bit op c : op_capability op = Some c → 0 ≤ c ∧ has_cap DenyCapabilityInt c = false.
Proof. unfold op_capability. repeat case_decide; intros [= <-]; by vm_compute. Qed.

Lemma granted_some bs c :
  has_cap DenyCapabilityInt c = false → granted bs c = true →
  existsb denies bs = false ∧ existsb (λ b, has_cap b c) bs = true.
Proof. unfold granted. destruct (existsb denies bs); [congruence|done]. Qed.

Lemma check_allowed legacy req ps :
  Allowed (check legacy false req ps) = true →
  ∃ c, op_capability (req_Operation req) = Some c ∧ has_cap (CapabilitiesBitmap ps) c = true.
Proof.
  unfold check. destruct (op_capability _) as [c|]; [|done].
  destruct (has_cap _ c) eqn:Hc; [|done]. by exists c.
Qed.

(** ** Policies from text *)

(** The capabilities in the order of their bits. *)
Definition cap_names : list string :=
  ["deny"; "create"; "read"; "update"; "delete"; "list"; "sudo"; "patch"; "subscribe"; "recover"].

(** The bits of [b] that are set are those of [caps]. *)
Definition bits_of (caps : list string) (b : Z) : Prop :=
  ∀ n, Z.testbit b (Z.of_nat n) = true ↔ ∃ cap, cap_names !! n = Some cap ∧ cap ∈ caps.

(** What the parser makes of a path: the bits are those of the capabilities,
    all of them known, a denial grants nothing and limits nothing else, the
    limits on wrapping are consistent, and a rule with segment wildcards is no
    prefix rule. *)
Definition wf_rules (pc : PathRules) : Prop :=
  let ps := Permissions pc in
  wf_bitmap (CapabilitiesBitmap ps) ∧ CapabilitiesBitmap ps < 1024 ∧
  bits_of (Capabilities pc) (CapabilitiesBitmap ps) ∧ Forall (.∈ cap_names) (Capabilities pc) ∧
  (denies (CapabilitiesBitmap ps) = true → ps = deny_only ∧ Capabilities pc = ["deny"]) ∧
  (MinWrappingTTL ps = 0 ∨ MaxWrappingTTL ps = 0 ∨ MinWrappingTTL ps ≤ MaxWrappingTTL ps) ∧
  (HasSegmentWildcards pc = true → IsPrefix pc = false).

(** The capabilities of a path are those its text states, by name or by one of
    the old shorthands; a denial among them is all that is left. *)
Definition stated (items : list Item) (pc : PathRules) : Prop :=
  ∃ item h caps, item ∈ items ∧ decoded item = Ok h ∧
    old_capabilities (h_Policy h) (h_Capabilities h) = Some caps ∧
    Capabilities pc = if decide ("deny" ∈ caps) then ["deny"] else caps.

Definition from_text (p : Policy) : Prop :=
  ∃ clock ns subject items templated, parsePaths clock ns subject items = Ok (Paths p, templated).

Lemma cap_int_bit cap b : cap_int cap = Some b → cap ≠ "deny" → 0 ≤ b < 1024 ∧ denies b = false.
Proof.
  unfold cap_int. intros (x & Hx & ->)%fmap_Some Hd. apply List.find_some in Hx as [Hin Hx].
  destruct x as [c b]. simpl in *. apply bool_decide_eq_true in Hx as <-.
  repeat destruct Hin as [[= <- <-]|Hin]; try done.
Qed.

Lemma cap_int_name cap c :
  cap_int cap = Some c → ∃ n, cap_names !! n = Some cap ∧ c = 2 ^ Z.of_nat n.
Proof.
  unfold cap_int. intros (x & Hx & ->)%fmap_Some. apply List.find_some in Hx as [Hin Hx].
  apply list_elem_of_In, list_elem_of_lookup in Hin as [n Hn].
  destruct x as [c b]. apply bool_decide_eq_true in Hx as <-. exists n.
  do 10 (destruct n as [|n]; [by injection Hn as <- <-|]). done.
Qed.

Lemma cap_loop_names key caps b deny b' :
  cap_loop key caps b = Ok (deny, b') →
  (deny = true ∧ "deny" ∈ caps) ∨
  (deny = false ∧ ("deny" ∉ caps) ∧ Forall (.∈ cap_names) caps ∧
   ∀ n, Z.testbit b' (Z.of_nat n) = true ↔
     Z.testbit b (Z.of_nat n) = true ∨ ∃ cap, cap_names !! n = Some cap ∧ cap ∈ caps).
Proof.
  revert b. induction caps as [|cap caps IH]; intros b; cbn [cap_loop].
  { intros [= <- <-]. right. split_and!; [done|apply not_elem_of_nil|done|]. set_solver. }
  destruct (decide (cap = "deny")) as [->|Hd]; [intros [= <- <-]; left; set_solver|].
  destruct (cap_int cap) as [c|] eqn:Hc; [|done]. apply cap_int_name in Hc as (m & Hm & ->).
  intros [(-> & Hin)|(-> & Hnin & Hk & Hb)]%IH; [left; set_solver|]. right. split_and!; [done|set_solver| |].
  { constructor; [by eapply list_elem_of_lookup_2|done]. }
  intros n. rewrite Hb, Z.lor_spec, Z.pow2_bits_eqb, orb_true_iff, Z.eqb_eq by lia. split.
  - intros [[?|Hn]|(x & ? & ?)]; [by left| |right; exists x; set_solver].
    right. exists cap. replace n with m by lia. split; [done|set_solver].
  - intros [?|(x & Hx & Hin)]; [by left; left|]. apply elem_of_cons in Hin as [->|Hin]; [|by right; exists x].
    left. right. f_equal. eapply (NoDup_lookup cap_names); [by apply (bool_decide_unpack _)|done..].
Qed.

Lemma lor_bound x y : 0 ≤ x < 1024 → 0 ≤ y < 1024 → 0 ≤ Z.lor x y < 1024.
Proof.
  intros [Hx0 Hx] [Hy0 Hy]. split; [apply Z.lor_nonneg; lia|].
  destruct (decide (x = 0)) as [->|]; [by rewrite Z.lor_0_l|].
  destruct (decide (y = 0)) as [->|]; [by rewrite Z.lor_0_r|].
  assert (0 ≤ Z.lor x y) by (apply Z.lor_nonneg; lia).
  destruct (decide (Z.lor x y = 0)) as [->|]; [lia|].
  change 1024 with (2 ^ 10) in *. apply Z.log2_lt_pow2; [lia|]. rewrite Z.log2_lor by lia.
  apply Z.max_lub_lt; apply Z.log2_lt_pow2; lia.
Qed.

Lemma cap_loop_bits key caps b deny b' :
  cap_loop key caps b = Ok (deny, b') → 0 ≤ b < 1024 → denies b = false →
  (deny = true ∧ b' = DenyCapabilityInt) ∨ (deny = false ∧ 0 ≤ b' < 1024 ∧ denies b' = false).
Proof.
  revert b. induction caps as [|cap caps IH]; intros b; cbn [cap_loop].
  { intros [= <- <-] ? ?. by right. }
  destruct (decide (cap = "deny")) as [|Hd]; [intros [= <- <-] _ _; by left|].
  destruct (cap_int cap) as [c|] eqn:Hc; [|done]. intros Hl Hb Hn.
  apply cap_int_bit in Hc as [Hc Hcn]; [|done]. apply (IH _ Hl); [by apply lor_bound|].
  unfold denies in *. rewrite has_cap_lor by (unfold DenyCapabilityInt; lia). by rewrite Hn, Hcn.
Qed.

Lemma parse_permissions_spec h caps b ps :
  parse_permissions h caps b = Ok ps →
  CapabilitiesBitmap ps = b ∧
  (MinWrappingTTL ps = 0 ∨ MaxWrappingTTL ps = 0 ∨ MinWrappingTTL ps ≤ MaxWrappingTTL ps).
Proof.
  unfold parse_permissions. destruct (parse_ttl _ (MinWrappingTTLHCL h)) as [mn|]; simpl; [|done].
  destruct (parse_ttl _ (MaxWrappingTTLHCL h)) as [mx|]; simpl; [|done].
  destruct (parse_control_group _ _); simpl; [|done].
  destruct (negb (mn =? 0) && negb (mx =? 0) && (mx <? mn)) eqn:Ht; [done|].
  intros [= <-]. simpl. split; [done|].
  destruct (Z.eqb_spec mn 0); [by left|]. destruct (Z.eqb_spec mx 0); [by right; left|].
  simpl in Ht. apply Z.ltb_ge in Ht. by right; right.
Qed.

(** The bits that the loop leaves, and the capabilities they stand for. *)
Lemma cap_loop_wf key caps deny b :
  cap_loop key caps 0 = Ok (deny, b) →
  let caps' := if (deny : bool) then ["deny"] else caps in
  bits_of caps' b ∧ Forall (.∈ cap_names) caps' ∧ caps' = if decide ("deny" ∈ caps) then ["deny"] else caps.
Proof.
  intros Hl. pose proof (cap_loop_bits _ _ _ _ _ Hl) as Hb.
  apply cap_loop_names in Hl as [(-> & Hin)|(-> & Hnin & Hk & Hn)].
  - destruct Hb as [[_ ->]|[? _]]; [lia|done| |done]. rewrite decide_True by done. split_and!; [|repeat constructor|done].
    intros [|n]; [split; [intros _; exists "deny"; set_solver|done]|]. split.
    + rewrite (Z.bits_above_log2 DenyCapabilityInt); [done|done|]. change (Z.log2 _) with 0. lia.
    + intros (cap & Hc & ->%list_elem_of_singleton).
      assert (0%nat = S n) as [=]. eapply (NoDup_lookup cap_names); [by apply (bool_decide_unpack _)|done..].
  - rewrite decide_False by done. split_and!; [|done..]. intros n. rewrite Hn, Z.bits_0. naive_solver.
Qed.

Lemma parse_item_wf ns key item pc :
  parse_item ns key item = Ok pc → wf_rules pc ∧ stated [item] pc.
Proof.
  unfold parse_item. destruct (CheckHCLKeys _ _); [done|]. destruct (decoded item) as [h|] eqn:Hh; [|done].
  destruct (Contains _ _); [done|]. destruct (classify _) as [[path prefix] wild] eqn:Hcl.
  destruct (old_capabilities _ _) as [caps|] eqn:Hcaps; [|done].
  destruct (cap_loop key caps 0) as [[deny b]|] eqn:Hl; simpl; [|done].
  assert (wild = true → prefix = false) as Hwp.
  { unfold classify in Hcl. destruct (_ && _) eqn:Hb in Hcl; injection Hcl as <- <- <-; [|done].
    apply andb_true_iff in Hb as [_ Hb]. by apply negb_true_iff in Hb as ->. }
  destruct (cap_loop_wf _ _ _ _ Hl) as (Hbits & Hknown & Hst).
  apply cap_loop_bits in Hl as [[-> ->]|(-> & Hb & Hn)]; [| |lia|done].
  - intros [= <-]. split; [|by exists item, h, caps; rewrite list_elem_of_singleton].
    unfold wf_rules, wf_bitmap. simpl. by split_and!; try done; left.
  - destruct (parse_permissions _ _ _) as [ps|] eqn:Hp; simpl; [|done]. intros [= <-].
    split; [|by exists item, h, caps; rewrite list_elem_of_singleton].
    apply parse_permissions_spec in Hp as [<- ?]. unfold wf_rules, wf_bitmap. simpl.
    rewrite Hn. split_and!; try done; lia.
Qed.

Lemma stated_incl items items' pc : items ⊆ items' → stated items pc → stated items' pc.
Proof. intros Hi (item & h & caps & Hin & Hrest). exists item, h, caps. split; [by apply Hi|done]. Qed.

Lemma parsePaths_wf clock ns subject items paths templated :
  parsePaths clock ns subject items = Ok (paths, templated) →
  Forall (λ pc, wf_rules pc ∧ stated items pc) paths.
Proof.
  revert paths templated. induction items as [|item items IH]; intros paths templated; cbn [parsePaths].
  { intros [= <- _]. constructor. }
  assert (∀ paths, Forall (λ pc, wf_rules pc ∧ stated items pc) paths →
    Forall (λ pc, wf_rules pc ∧ stated (item :: items) pc) paths) as Hmore.
  { intros l Hl. eapply Forall_impl; [exact Hl|]. intros pc [? Hs]. split; [done|].
    eapply stated_incl; [|exact Hs]. set_solver. }
  destruct subject as [s|]; (destruct (Tpl.PopulateString _ _) as [[b key]|];
    [|try done; try (intros Hi; by apply Hmore, (IH _ templated))]);
    (destruct (parse_item _ _ _) as [pc|] eqn:Hp; simpl; [|done];
     destruct (parsePaths _ _ _ items) as [[paths' templated']|] eqn:Hr; simpl; [|done];
     intros [= <- _]; constructor; [|by apply Hmore, (IH _ templated')]);
    (apply parse_item_wf in Hp as [? Hs]; split; [done|]; eapply stated_incl; [|exact Hs]; set_solver).
Qed.

Lemma stanzas_elem pols x :
  x ∈ stanzas pols → Some x.1 ∈ pols ∧ x.2 ∈ Paths x.1.
Proof.
  unfold stanzas. rewrite list_elem_of_In, in_concat. intros (l & Hl & Hx).
  apply list_elem_of_In, list_elem_of_fmap in Hl as ([p|] & -> & Hp); [|done].
  apply list_elem_of_In in Hx. destruct (Type_ p); try (by apply not_elem_of_nil in Hx).
  apply list_elem_of_fmap in Hx as (pc & -> & ?). done.
Qed.

Lemma stanzas_wf pols :
  (∀ p, Some p ∈ pols → from_text p) → Forall (λ x, wf_bitmap (bitmap x)) (stanzas pols).
Proof.
  intros Hp. apply Forall_forall. intros x [Hx Hpc]%stanzas_elem.
  destruct (Hp _ Hx) as (clock & ns & subject & items & templated & Hparse).
  apply parsePaths_wf in Hparse. rewrite Forall_forall in Hparse. apply (Hparse _ Hpc).
Qed.

(** ** Theorems *)


(** C25: the policies of a token combine path by path: there is a rule for a
    path exactly if some policy has one, and it grants a capability exactly
    if no policy denies the path and some policy grants the capability. *)
Theorem policies_combine ns pols a k key :
  NewACL (Some ns) pols = Ok a → (∀ p, Some p ∈ pols → from_text p) →
  let xs := for_key k key (stanzas pols) in
  match rules k a !! key with
  | None => xs = []
  | Some e => xs ≠ [] ∧ ∀ op c, op_capability op = Some c →
      (has_cap (CapabilitiesBitmap e) c = true ↔
       (∀ x, x ∈ xs → denies (bitmap x) = false) ∧ ∃ x, x ∈ xs ∧ has_cap (bitmap x) c = true)
  end.
Proof.
  intros HN Hp xs. pose proof (compiled_rule ns pols a k key HN (stanzas_wf _ Hp)) as Hr. fold xs in Hr.
  destruct (rules k a !! key) as [e|]; [|by apply fmap_nil_inv in Hr].
  destruct Hr as (Hne & _ & Hg). split; [by intros He; rewrite He in Hne|].
  intros op c [Hc0 Hc]%op_capability_bit. rewrite (Hg c Hc0). unfold granted. split.
  - destruct (existsb denies (bitmap <$> xs)) eqn:Hd; [congruence|]. intros Hs. split.
    + intros x Hx. destruct (denies (bitmap x)) eqn:Hdx; [|done]. exfalso.
      assert (existsb denies (bitmap <$> xs) = true) as Ht; [|congruence].
      apply existsb_exists. exists (bitmap x). split; [by apply list_elem_of_In, list_elem_of_fmap_2|done].
    + apply existsb_exists in Hs as (b & Hb & ?). apply list_elem_of_In, list_elem_of_fmap in Hb as (x & -> & ?).
      by exists x.
  - intros [Hd (x & Hx & Hcx)]. destruct (existsb denies (bitmap <$> xs)) eqn:Hdx.
    + apply existsb_exists in Hdx as (b & Hb & Hbd).
      apply list_elem_of_In, list_elem_of_fmap in Hb as (y & -> & Hy). by rewrite Hd in Hbd.
    + apply existsb_exists. exists (bitmap x). split; [by apply list_elem_of_In, list_elem_of_fmap_2|done].
Qed.

(** A stanza of the policies grants a capability to a request, and none for
    the same path denies. *)
Definition grants (pols : list (option Policy)) (op path : string) (c : Z) : Prop :=
  ∃ x, x ∈ stanzas pols ∧ key_applies (kind_of x.2) (Path x.2) op path = true ∧
    has_cap (bitmap x) c = true ∧
    ∀ y, y ∈ stanzas pols → kind_of y.2 = kind_of x.2 → Path y.2 = Path x.2 → denies (bitmap y) = false.

Lemma rule_grants ns pols a k key ps op path c :
  NewACL (Some ns) pols = Ok a → (∀ p, Some p ∈ pols → from_text p) →
  rules k a !! key = Some ps → key_applies k key op path = true →
  0 ≤ c → has_cap DenyCapabilityInt c = false → has_cap (CapabilitiesBitmap ps) c = true →
  grants pols op path c.
Proof.
  intros HN Hp Hk Ha Hc0 Hc Hps. pose proof (compiled_rule ns pols a k key HN (stanzas_wf _ Hp)) as Hr.
  simpl in Hr. rewrite Hk in Hr. destruct Hr as (_ & _ & Hg). rewrite (Hg c Hc0) in Hps.
  apply granted_some in Hps as [Hd Hs]; [|done].
  apply existsb_exists in Hs as (b & Hb & Hbc). apply list_elem_of_In, list_elem_of_fmap in Hb as (x & -> & Hx).
  apply list_elem_of_filter in Hx as [[<- <-] Hx]. exists x. split_and!; [done..|].
  intros y Hy Hky Hpy. destruct (denies (bitmap y)) eqn:Hdy; [|done].
  assert (existsb denies (bitmap <$> for_key (kind_of x.2) (Path x.2) (stanzas pols)) = true) as Ht; [|congruence].
  apply existsb_exists. exists (bitmap y). split; [|done]. apply list_elem_of_In, list_elem_of_fmap_2.
  by apply list_elem_of_filter.
Qed.

(** The only way to a decision that is not the one of root or of help. *)
Lemma decided a legacy ctx req res :
  AllowOperation a legacy ctx req false = Some res → root a = false → req_Operation req ≠ HelpOperation →
  Allowed res = true →
  ∃ nsp k key ps, ctx = Some nsp ∧ rules k a !! key = Some ps ∧
    key_applies k key (req_Operation req) (drop_slashes (nsp +:+ req_Path req)) = true ∧
    res = check legacy false req ps.
Proof.
  unfold AllowOperation. intros HA Hr Hh Hal. rewrite Hr, decide_False in HA by done.
  destruct ctx as [nsp|]; [|by injection HA as <-].
  pose proof (find_permissions_rule a (req_Operation req) (drop_slashes (nsp +:+ req_Path req))) as Hf.
  destruct (find_permissions _ _ _) as [[ps|]|]; [|by injection HA as <-|done].
  destruct Hf as (k & key & Hk & Ha). injection HA as <-. by exists nsp, k, key, ps.
Qed.

Lemma root_only ns pols a :
  NewACL (Some ns) pols = Ok a → root a = true →
  ∃ p, pols = [Some p] ∧ Name p = "root" ∧ ns_ID ns = "root".
Proof.
  intros HN Hr. unfold NewACL in HN. apply inject_root in HN as [?|(p & Hp & Hn & Hns & Hl)]; [done| |done].
  destruct pols as [|o [|]]; [done| |done]. apply list_elem_of_singleton in Hp as <-. by exists p.
Qed.

(** C4: access control always decides, and it is sound: a request is allowed
    only to the root policy alone, for help, or if some policy has a rule
    that matches the path and grants the capability of the operation, and no
    policy denies the path of that rule. *)
Theorem access_control_sound ns pols a legacy ctx req :
  NewACL (Some ns) pols = Ok a → (∀ p, Some p ∈ pols → from_text p) →
  ∃ res, AllowOperation a legacy ctx req false = Some res ∧
    (Allowed res = true →
       (∃ p, pols = [Some p] ∧ Name p = "root" ∧ ns_ID ns = "root") ∨
       req_Operation req = HelpOperation ∨
       ∃ nsp c, ctx = Some nsp ∧ op_capability (req_Operation req) = Some c ∧
         grants pols (req_Operation req) (drop_slashes (nsp +:+ req_Path req)) c).
Proof.
  intros HN Hp. destruct (AllowOperation a legacy ctx req false) as [res|] eqn:HA.
  - exists res. split; [done|]. intros Hal. destruct (root a) eqn:Hr; [left; by eapply root_only|right].
    destruct (decide (req_Operation req = HelpOperation)) as [|Hh]; [by left|right].
    destruct (decided _ _ _ _ _ HA Hr Hh Hal) as (nsp & k & key & ps & -> & Hk & Ha & ->).
    apply check_allowed in Hal as (c & Hop & Hc). pose proof (op_capability_bit _ _ Hop) as [? ?].
    exists nsp, c. split_and!; [done..|]. by eapply rule_grants.
  - exfalso. unfold AllowOperation in HA. destruct (root a); [done|]. destruct (decide _); [done|].
    destruct ctx as [nsp|]; [|done].
    pose proof (find_permissions_rule a (req_Operation req) (drop_slashes (nsp +:+ req_Path req))) as Hf.
    by destruct (find_permissions _ _ _) as [[ps|]|].
Qed.

(** An explicit denial of a path wins over every other policy: no request
    on that very path is allowed, except for help. *)
Theorem explicit_deny_wins ns pols a legacy nsp req res x :
  NewACL (Some ns) pols = Ok a → (∀ p, Some p ∈ pols → from_text p) → root a = false →
  x ∈ stanzas pols → kind_of x.2 = Exact → denies (bitmap x) = true →
  drop_slashes (nsp +:+ req_Path req) = Path x.2 → req_Operation req ≠ HelpOperation →
  AllowOperation a legacy (Some nsp) req false = Some res → Allowed res = false.
Proof.
  intros HN Hp Hr Hx Hk Hd Hpath Hh HA. unfold AllowOperation in HA. rewrite Hr, decide_False, Hpath in HA by done.
  pose proof (compiled_rule ns pols a Exact (Path x.2) HN (stanzas_wf _ Hp)) as Hrule. simpl in Hrule.
  assert (bitmap x ∈ bitmap <$> for_key Exact (Path x.2) (stanzas pols)) as Hin.
  { apply list_elem_of_fmap_2, list_elem_of_filter. done. }
  unfold find_permissions in HA. destruct (exactRules a !! Path x.2) as [ps|].
  2: { rewrite Hrule in Hin. by apply not_elem_of_nil in Hin. }
  injection HA as <-. destruct (Allowed _) eqn:Hal; [|done].
  apply check_allowed in Hal as (c & [Hc0 Hc]%op_capability_bit & Hps).
  destruct Hrule as (_ & _ & Hg). rewrite (Hg c Hc0) in Hps. apply granted_some in Hps as [Hnd _]; [|done].
  assert (existsb denies (bitmap <$> for_key Exact (Path x.2) (stanzas pols)) = true) as Ht; [|congruence].
  apply existsb_exists. exists (bitmap x). split; [by apply list_elem_of_In|done].
Qed.

(** What the checks of the core allow, where they may require root
    privileges. *)
Lemma checks_sound ns pols a legacy ctx req b r :
  NewACL (Some ns) pols = Ok a → (∀ p, Some p ∈ pols → from_text p) →
  performPolicyChecks (Some a) legacy ctx req (mkOpts b false) = Some r → au_Allowed r = true →
  (∃ p, pols = [Some p] ∧ Name p = "root" ∧ ns_ID ns = "root") ∨
  req_Operation req = HelpOperation ∨
  ∃ nsp c, ctx = Some nsp ∧ op_capability (req_Operation req) = Some c ∧
    grants pols (req_Operation req) (drop_slashes (nsp +:+ req_Path req)) c ∧
    (b = true → grants pols (req_Operation req) (drop_slashes (nsp +:+ req_Path req)) SudoCapabilityInt).
Proof.
  intros HN Hp HP Hal. unfold performPolicyChecks in HP. simpl in HP.
  destruct (AllowOperation a legacy ctx req false) as [res|] eqn:HA; simpl in HP; [|done].
  injection HP as <-. simpl in Hal.
  destruct (root a) eqn:Hr; [left; by eapply root_only|right].
  destruct (decide (req_Operation req = HelpOperation)) as [|Hh]; [by left|right].
  rewrite (bool_decide_eq_false_2 _ Hh) in Hal. simpl in Hal.
  assert (IsRoot res = false) as Hir.
  { unfold AllowOperation in HA. rewrite Hr, decide_False in HA by done.
    destruct ctx; [|by injection HA as <-]. destruct (find_permissions _ _ _) as [[ps|]|]; [|by injection HA as <-|done].
    injection HA as <-. unfold check. destruct (op_capability _); [|done]. by destruct (has_cap _ _). }
  rewrite Hir in Hal. simpl in Hal. apply andb_true_iff in Hal as [Hal Hsudo].
  destruct (decided _ _ _ _ _ HA Hr Hh Hal) as (nsp & k & key & ps & -> & Hk & Ha & ->).
  assert (RootPrivs (check legacy false req ps) = has_cap (CapabilitiesBitmap ps) SudoCapabilityInt) as Hrp.
  { unfold check. destruct (op_capability _); [|done]. by destruct (has_cap _ _). }
  rewrite Hrp in Hsudo.
  apply check_allowed in Hal as (c & Hop & Hc). pose proof (op_capability_bit _ _ Hop) as [? ?].
  exists nsp, c. split_and!; [done..|by eapply rule_grants|]. intros ->.
  rewrite !andb_true_r, negb_involutive in Hsudo. by eapply rule_grants.
Qed.
End decision.

(** ** Three policies *)

Definition strip_star (p s : string) : bool :=
  if HasSuffix p "*" then HasPrefix s (TrimSuffix p "*") else bool_decide (p = s).

#[export] Program Instance plain_globbing : Globbing := {|
  GlobbedStringsMatch := strip_star;
  ParseCommaStringSlice s := Some (Split s ",");
  RemoveDuplicates l := remove_dups (filter (λ x, x ≠ "") ((λ y, of_bytes (TrimSpace (bytes y))) <$> l));
  StrListContains l x := bool_decide (x ∈ l);
|}.
Next Obligation.
  intros l x. rewrite elem_of_remove_dups, list_elem_of_filter, list_elem_of_fmap. naive_solver.
Qed.
Next Obligation. intros l x. apply bool_decide_eq_true. Qed.

#[export] Instance no_durations : Parseutil := {| ParseDurationSecond _ := None |}.

Definition root_ns : Namespace := mkNS "root" "".
Definition item (path : string) (caps events : list string) : Item :=
  mkItem [path] (Some ["capabilities"]) (Ok (mkHCL "" caps None None None None [] None None events)).

Definition reader_items : list Item := [item "sys/approvals/*" ["read"; "list"] []; item "secret/+/a" ["read"] []].
Definition denier_items : list Item := [item "sys/approvals/history" ["deny"] []].
Definition auditor_items : list Item := [item "sys/audit" ["read"; "sudo"] []].
Definition plain_items : list Item := [item "secret/*" ["read"] []].
Definition event_items : list Item := [item "secret/*" ["subscribe"] ["kv*"]].

(** A text is the name of its items. *)
Definition known_texts : list (string * list Item) :=
  [("reader", reader_items); ("denier", denier_items); ("auditor", auditor_items);
   ("plain", plain_items); ("events", event_items)].
#[export] Instance known_hcl : HCL := {|
  ParseHCL rules := match List.find (λ t, bool_decide (t.1 = rules)) known_texts with
                    | Some (_, items) => Ok (mkFile ["path"] rules items false)
                    | None => Err "unknown text"
                    end;
|}.
Definition policy_of (rules : string) : Policy :=
  match ParseACLPolicyCheckDuplicates 0 root_ns rules with
  | Ok p => p
  | Err _ => mkPolicy rules [] PolicyTypeEGP false root_ns rules
  end.
Definition reader : Policy := policy_of "reader".
Definition denier : Policy := policy_of "denier".
Definition auditor : Policy := policy_of "auditor".

Definition pols : list (option Policy) := [Some reader; Some denier; Some auditor].
Definition acl_of (ps : list (option Policy)) : ACL :=
  match NewACL (Some root_ns) ps with Ok a => a | Err _ => empty_acl end.

Lemma pols_from_text p : Some p ∈ pols → from_text p.
Proof.
  unfold pols. rewrite !elem_of_cons. intros [[= ->]|[[= ->]|[[= ->]|[]%not_elem_of_nil]]].
  - by exists 0, root_ns, None, reader_items, false.
  - by exists 0, root_ns, None, denier_items, false.
  - by exists 0, root_ns, None, auditor_items, false.
Qed.

Definition get (op path : string) : Request := mkRequest "" op path None None "" "" "" "" None "".


Lemma policies_combine_witness :
  rules Exact (acl_of pols) !! "sys/approvals/history" ≠ None.
Proof.
  pose proof (policies_combine root_ns pols (acl_of pols) Exact "sys/approvals/history" eq_refl
    pols_from_text) as Hc.
  intros He. cbv zeta in Hc. rewrite He in Hc. vm_compute in Hc. discriminate Hc.
Defined.

Lemma access_control_witness :
  ∃ res, AllowOperation (acl_of pols) false (Some "") (get "read" "sys/approvals/pending/x") false = Some res ∧
    Allowed res = true ∧
    grants pols "read" "sys/approvals/pending/x" ReadCapabilityInt.
Proof.
  destruct (access_control_sound root_ns pols (acl_of pols) false (Some "")
    (get "read" "sys/approvals/pending/x") eq_refl pols_from_text) as (res & HA & Hs).
  exists res. assert (Allowed res = true) as Hal by (vm_compute in HA; injection HA as <-; reflexivity).
  split; [exact HA|split; [exact Hal|]].
  destruct (Hs Hal) as [(p & Hp & _)|[Hh|(nsp & c & Hn & Hc & Hg)]]; [discriminate Hp|discriminate Hh|].
  injection Hn as <-. vm_compute in Hc. injection Hc as <-. exact Hg.
Defined.

Lemma explicit_deny_witness :
  ∃ res, AllowOperation (acl_of pols) false (Some "") (get "read" "sys/approvals/history") false = Some res ∧
    Allowed res = false.
Proof.
  eexists. split; [vm_compute; reflexivity|].
  eapply (explicit_deny_wins root_ns pols (acl_of pols) false "" (get "read" "sys/approvals/history") _
    (denier, default (mkRules "" deny_only false false []) (Paths denier !! 0%nat)) eq_refl pols_from_text eq_refl);
    [|reflexivity|reflexivity|reflexivity|discriminate|vm_compute; reflexivity].
  vm_compute. right. right. left.
Defined.

(** ** What the rules miss *)


(** The order of a token's policies decides which events it may subscribe
    to: the event types of a policy are lost if a policy before it has a rule
    for the same path without any, and kept if it comes after. *)
Theorem event_types_depend_on_order :
  let p := policy_of "plain" in
  let q := policy_of "events" in
  (SubscribeEventTypes <$> rules Prefix (acl_of [Some p; Some q]) !! "secret/",
   SubscribeEventTypes <$> rules Prefix (acl_of [Some q; Some p]) !! "secret/") =
  (Some [], Some ["kv*"]).
Proof. vm_compute. reflexivity. Qed.

(** A token whose only policy grants read and list below sys/approvals,
    without sudo, may list the pending requests, although the system backend
    says that the listing needs sudo; the same path without the trailing
    slash would be refused. *)
Theorem pending_listed_without_sudo :
  let a := acl_of [Some reader] in
  let passes op path := au_Allowed <$> performPolicyChecks (Some a) false (Some "") (get op path)
    (mkOpts (Router.RootPath sys_table (Some "") path) false) in
  buildLogicalPath (Some "") (mkHttp "LIST" "/v1/sys/approvals/pending" "") = Ok "sys/approvals/pending/" ∧
  passes "list" "sys/approvals/pending/" = Some true ∧ passes "list" "sys/approvals/pending" = Some false.
Proof. vm_compute. done. Qed.
