(* ===== verification/Tokens.v ===== *)
(** * Tokens

    The entry of a token ([sdk/logical/token.go]) with its JSON encoding, the
    shapes of identifiers ([vault/version_store.go],
    [helper/namespace/namespace.go]) and the lists of policy names
    ([sdk/helper/policyutil]). *)

From S2P Require Import Prelude GoLib GoSplit Storage Core ApprovalTypes Router Routing Policy.

(** go-sockaddr: an address is its printed form. *)
Class Sockaddr : Type := {
  NewSockAddr : string → option string;
  Contains_addr : string → string → bool;
  NewSockAddr_idemp : ∀ s a, NewSockAddr s = Some a → NewSockAddr a = Some a;
}.

(** [strutil.RemoveDuplicates] of go-secure-stdlib: the elements trimmed and
    lowercased or only trimmed, without the empty ones, each once. *)
Definition trimmed (s : string) : string := of_bytes (TrimSpace (bytes s)).
Class Strsets `{GoTables} : Type := {
  RemoveDuplicates_lower : list string → list string;
  RemoveDuplicates_lower_elem : ∀ l x,
    x ∈ RemoveDuplicates_lower l ↔ x ≠ "" ∧ ∃ y, y ∈ l ∧ x = ToLower (trimmed y);
  RemoveDuplicates_lower_NoDup : ∀ l, NoDup (RemoveDuplicates_lower l);
}.

Module Token.
(** ** The entry *)

(** [TokenType], a byte. *)
Definition TokenTypeDefault : Z := 0.
Definition TokenTypeService : Z := 1.
Definition TokenTypeBatch : Z := 2.
Definition TokenTypeDefaultService : Z := 3.
Definition TokenTypeDefaultBatch : Z := 4.
Definition TokenTypeEnt : Z := 5.

Record TokenEntry := mk {
  Type_ : Z;
  ID : string;
  ExternalID : string;
  Accessor : string;
  Parent : string;
  Policies : list string;
  InlinePolicy : string;
  Path : string;
  Meta : option (gmap string string);
  InternalMeta : option (gmap string string);
  DisplayName : string;
  NumUses : Z;
  CreationTime : Z;
  TTL : Z;
  ExplicitMaxTTL : Z;
  Role : string;
  Period : Z;
  DisplayNameDeprecated : string;
  NumUsesDeprecated : Z;
  CreationTimeDeprecated : Z;
  ExplicitMaxTTLDeprecated : Z;
  EntityID : string;
  NoIdentityPolicies : bool;
  BoundCIDRs : list string;
  NamespaceID : string;
  CubbyholeID : string;
}.

Definition IsRoot (te : TokenEntry) : bool := bool_decide (Policies te = ["root"]).

(** ** Changes of one field *)

Definition set_NumUses (n : Z) (te : TokenEntry) : TokenEntry :=
  {| Type_ := Type_ te; ID := ID te; ExternalID := ExternalID te; Accessor := Accessor te;
     Parent := Parent te; Policies := Policies te; InlinePolicy := InlinePolicy te; Path := Path te;
     Meta := Meta te; InternalMeta := InternalMeta te; DisplayName := DisplayName te; NumUses := n;
     CreationTime := CreationTime te; TTL := TTL te; ExplicitMaxTTL := ExplicitMaxTTL te;
     Role := Role te; Period := Period te; DisplayNameDeprecated := DisplayNameDeprecated te;
     NumUsesDeprecated := NumUsesDeprecated te; CreationTimeDeprecated := CreationTimeDeprecated te;
     ExplicitMaxTTLDeprecated := ExplicitMaxTTLDeprecated te; EntityID := EntityID te;
     NoIdentityPolicies := NoIdentityPolicies te; BoundCIDRs := BoundCIDRs te;
     NamespaceID := NamespaceID te; CubbyholeID := CubbyholeID te |}.

Definition set_Parent (p : string) (te : TokenEntry) : TokenEntry :=
  {| Type_ := Type_ te; ID := ID te; ExternalID := ExternalID te; Accessor := Accessor te;
     Parent := p; Policies := Policies te; InlinePolicy := InlinePolicy te; Path := Path te;
     Meta := Meta te; InternalMeta := InternalMeta te; DisplayName := DisplayName te; NumUses := NumUses te;
     CreationTime := CreationTime te; TTL := TTL te; ExplicitMaxTTL := ExplicitMaxTTL te;
     Role := Role te; Period := Period te; DisplayNameDeprecated := DisplayNameDeprecated te;
     NumUsesDeprecated := NumUsesDeprecated te; CreationTimeDeprecated := CreationTimeDeprecated te;
     ExplicitMaxTTLDeprecated := ExplicitMaxTTLDeprecated te; EntityID := EntityID te;
     NoIdentityPolicies := NoIdentityPolicies te; BoundCIDRs := BoundCIDRs te;
     NamespaceID := NamespaceID te; CubbyholeID := CubbyholeID te |}.

(** The fields that the creation of a token fills in. *)
Definition set_identity (type_ : Z) (id external accessor cubbyhole : string) (te : TokenEntry)
    : TokenEntry :=
  {| Type_ := type_; ID := id; ExternalID := external; Accessor := accessor;
     Parent := Parent te; Policies := Policies te; InlinePolicy := InlinePolicy te; Path := Path te;
     Meta := Meta te; InternalMeta := InternalMeta te; DisplayName := DisplayName te; NumUses := NumUses te;
     CreationTime := CreationTime te; TTL := TTL te; ExplicitMaxTTL := ExplicitMaxTTL te;
     Role := Role te; Period := Period te; DisplayNameDeprecated := DisplayNameDeprecated te;
     NumUsesDeprecated := NumUsesDeprecated te; CreationTimeDeprecated := CreationTimeDeprecated te;
     ExplicitMaxTTLDeprecated := ExplicitMaxTTLDeprecated te; EntityID := EntityID te;
     NoIdentityPolicies := NoIdentityPolicies te; BoundCIDRs := BoundCIDRs te;
     NamespaceID := NamespaceID te; CubbyholeID := cubbyhole |}.
Definition set_Policies (l : list string) (te : TokenEntry) : TokenEntry :=
  {| Type_ := Type_ te; ID := ID te; ExternalID := ExternalID te; Accessor := Accessor te;
     Parent := Parent te; Policies := l; InlinePolicy := InlinePolicy te; Path := Path te;
     Meta := Meta te; InternalMeta := InternalMeta te; DisplayName := DisplayName te; NumUses := NumUses te;
     CreationTime := CreationTime te; TTL := TTL te; ExplicitMaxTTL := ExplicitMaxTTL te;
     Role := Role te; Period := Period te; DisplayNameDeprecated := DisplayNameDeprecated te;
     NumUsesDeprecated := NumUsesDeprecated te; CreationTimeDeprecated := CreationTimeDeprecated te;
     ExplicitMaxTTLDeprecated := ExplicitMaxTTLDeprecated te; EntityID := EntityID te;
     NoIdentityPolicies := NoIdentityPolicies te; BoundCIDRs := BoundCIDRs te;
     NamespaceID := NamespaceID te; CubbyholeID := CubbyholeID te |}.

(** ** JSON *)

Definition enc_strmap (m : option (gmap string string)) : value :=
  match m with
  | None => VNil
  | Some m => VObj (prod_map valid_utf8 enc_str <$> map_to_list m)
  end.

Definition enc_token (te : TokenEntry) : value :=
  VObj [("type", VNum (Type_ te)); ("id", enc_str (ID te)); ("accessor", enc_str (Accessor te));
        ("parent", enc_str (Parent te)); ("policies", enc_strs (Policies te));
        ("inline_policy", enc_str (InlinePolicy te)); ("path", enc_str (Path te));
        ("meta", enc_strmap (Meta te)); ("internal_meta", enc_strmap (InternalMeta te));
        ("display_name", enc_str (DisplayName te)); ("num_uses", VNum (NumUses te));
        ("creation_time", VNum (CreationTime te)); ("ttl", VNum (TTL te));
        ("explicit_max_ttl", VNum (ExplicitMaxTTL te)); ("role", enc_str (Role te));
        ("period", VNum (Period te)); ("DisplayName", enc_str (DisplayNameDeprecated te));
        ("NumUses", VNum (NumUsesDeprecated te)); ("CreationTime", VNum (CreationTimeDeprecated te));
        ("ExplicitMaxTTL", VNum (ExplicitMaxTTLDeprecated te)); ("entity_id", enc_str (EntityID te));
        ("no_identity_policies", VBool (NoIdentityPolicies te)); ("bound_cidrs", enc_strs (BoundCIDRs te));
        ("namespace_id", enc_str (NamespaceID te)); ("cubbyhole_id", enc_str (CubbyholeID te))].

(** [TokenType.UnmarshalJSON]: a digit, or a name. *)
Definition dec_TokenType (o : list (string * value)) (k : string) : res Z :=
  match assoc k o with
  | None => Ok TokenTypeDefault
  | Some (VNum z) => if (0 <=? z) && (z <=? 9) then Ok z else Err ErrDecode
  | Some (VStr s) =>
      if bool_decide (s = "default") || bool_decide (s = "") then Ok TokenTypeDefault
      else if decide (s = "service") then Ok TokenTypeService
      else if decide (s = "batch") then Ok TokenTypeBatch
      else if decide (s = "default-service") then Ok TokenTypeDefaultService
      else if decide (s = "default-batch") then Ok TokenTypeDefaultBatch
      else if decide (s = "ent") then Ok TokenTypeEnt
      else Err ErrDecode
  | _ => Err ErrDecode
  end.

(** [SockAddrMarshaler.UnmarshalJSON]. *)
Definition dec_addr `{Sockaddr} (v : value) : res string :=
  match v with
  | VStr s => match NewSockAddr s with Some a => Ok a | None => Err ErrDecode end
  | _ => Err ErrDecode
  end.

Definition dec_token `{Sockaddr} (v : value) : res TokenEntry :=
  match v with
  | VObj o =>
      type_ ← dec_TokenType o "type";
      id ← dec_string o "id";
      accessor ← dec_string o "accessor";
      parent ← dec_string o "parent";
      policies ← dec_list dec_str_elem o "policies";
      inline ← dec_string o "inline_policy";
      path ← dec_string o "path";
      meta ← dec_map dec_str_elem o "meta";
      internal ← dec_map dec_str_elem o "internal_meta";
      name ← dec_string o "display_name";
      uses ← dec_int o "num_uses";
      created ← dec_int o "creation_time";
      ttl ← dec_int o "ttl";
      maxttl ← dec_int o "explicit_max_ttl";
      role ← dec_string o "role";
      period ← dec_int o "period";
      old_name ← dec_string o "DisplayName";
      old_uses ← dec_int o "NumUses";
      old_created ← dec_int o "CreationTime";
      old_maxttl ← dec_int o "ExplicitMaxTTL";
      entity ← dec_string o "entity_id";
      noident ← dec_bool o "no_identity_policies";
      cidrs ← dec_list dec_addr o "bound_cidrs";
      ns ← dec_string o "namespace_id";
      cubby ← dec_string o "cubbyhole_id";
      Ok (mk type_ id "" accessor parent policies inline path meta internal name uses created ttl maxttl
            role period old_name old_uses old_created old_maxttl entity noident cidrs ns cubby)
  | VNil => Ok (mk 0 "" "" "" "" [] "" "" None None "" 0 0 0 0 "" 0 "" 0 0 0 "" false [] "" "")
  | _ => Err ErrDecode
  end.

(** ** Identifiers *)

Definition TokenLength : nat := 24.
Definition MaxNsIdLength : nat := 6.
Definition TokenPrefixLength : nat := 4.
Definition BatchTokenPrefix : string := "hvb.".
Definition LegacyBatchTokenPrefix : string := "b.".
(** [consts.GetEnterpriseTokenPrefix] of the community edition. *)
Definition EnterpriseTokenPrefix : string := "unimplemented".

Definition IsSSCToken (token : string) : bool :=
  (MaxNsIdLength + TokenLength + TokenPrefixLength <? String.length token)%nat
  && HasPrefix token ServiceTokenPrefix.
Definition IsServiceToken (token : string) : bool :=
  HasPrefix token ServiceTokenPrefix || HasPrefix token LegacyServiceTokenPrefix.
Definition IsBatchToken (token : string) : bool :=
  HasPrefix token LegacyBatchTokenPrefix || HasPrefix token BatchTokenPrefix.

(** What is before and after the last occurrence of a one-byte separator. *)
Fixpoint cut_last (sep s : string) (fuel : nat) : option (string * string) :=
  match fuel, Index s sep with
  | S fuel, Some i =>
      let rest := str_drop (S i) s in
      match cut_last sep rest fuel with
      | Some (a, b) => Some (str_take (S i) s +:+ a, b)
      | None => Some (str_take i s, rest)
      end
  | _, _ => None
  end.
Definition LastCut (sep s : string) : option (string * string) := cut_last sep s (String.length s).

(** [namespace.SplitIDFromString]: the identifier and the namespace at its
    end. *)
Definition split_dot (prefix input : string) : string * string :=
  match LastCut "." input with
  | None | Some (_, "") => (prefix +:+ input, "")
  | Some (id, ns) => (prefix +:+ id, ns)
  end.

Definition SplitIDFromString (input : string) : string * string :=
  if HasPrefix input LegacyBatchTokenPrefix then split_dot LegacyBatchTokenPrefix (str_drop 2 input)
  else if HasPrefix input LegacyServiceTokenPrefix then split_dot LegacyServiceTokenPrefix (str_drop 2 input)
  else if HasPrefix input BatchTokenPrefix then split_dot BatchTokenPrefix (str_drop 4 input)
  else if HasPrefix input ServiceTokenPrefix then split_dot ServiceTokenPrefix (str_drop 4 input)
  else
    match LastCut "/" input with
    | None | Some ("", _) => split_dot "" input
    | Some (_, "") => (input, "")
    | Some (a, b) => split_dot (a +:+ "/") b
    end.

Definition RootNamespace : Namespace := mkNS RootNamespaceID "".

(** [NamespaceByID] of the community edition: the root is the only one. *)
Definition NamespaceByID (id : string) : res Namespace :=
  if decide (id = RootNamespaceID) then Ok RootNamespace else Err ErrNamespace.

(** ** Lists of policy names *)

Section policies.
Context `{GoTables} `{!Strsets}.

Definition lower_trim (p : string) : string := ToLower (trimmed p).

(** [policyutil.SanitizePolicies]: [root] alone if it is there. *)
Definition SanitizePolicies (policies : list string) (addDefault : bool) : list string :=
  let ps := lower_trim <$> policies in
  let root := bool_decide ("root" ∈ ps) in
  let ps := if root then ["root"] else ps in
  let defaultFound := root || bool_decide ("default" ∈ ps) in
  RemoveDuplicates_lower (if addDefault && negb defaultFound then ps ++ ["default"] else ps).
End policies.
End Token.
