(* ===== verification/Server.v ===== *)
(** * The server: effects, memory and locks

    What the policy store, the token store and the handling of a request
    share.  A section of code under a lock is one effect, so that no other
    thread acts within it; outside of locks every access to the storage or to
    the shared memory is an effect of its own. *)

From S2P Require Import Prelude GoLib GoSplit Storage Core Lease ApprovalTypes ApprovalCore Router Routing Templating Policy Acl Tokens.

(** ** Sections under a lock *)

Variant lockE (E : Type → Type) (X : Type) : Type := Atomic (p : prog E X).
Arguments Atomic {_ _} _.

#[export] Instance lock_handler E W `{Handler E W} : Handler (lockE E) W :=
  λ X e w, match e with Atomic p => run p w end.

Definition locked {E A} (p : prog E A) : prog (lockE E) A := trigger (Atomic p).

(** Code without a lock: a step per effect. *)
Fixpoint steps {E A} (p : prog E A) : prog (lockE E) A :=
  match p with
  | Ret a => Ret a
  | Vis e k => Vis (Atomic (trigger e)) (λ x, steps (k x))
  end.

Section locks.
Context {E : Type → Type} {W : Type} {H : Handler E W}.

Lemma run_locked {A} (p : prog E A) w : run (locked p) w = run p w.
Proof. unfold locked. by rewrite run_trigger. Qed.

Lemma run_steps {A} (p : prog E A) w : run (steps p) w = run p w.
Proof. revert w. induction p as [a|X e k IH]; intros w; [done|]. simpl. apply IH. Qed.
End locks.

(** ** Effects *)

(** The memory of the policy store: the two caches of parsed policies and the
    map of the policies' types. *)
Variant lru := tokenPoliciesLRU | egpLRU.

Variant polE : Type → Type :=
| CacheGet (c : lru) (key : string) : polE (option Policy)
| CacheAdd (c : lru) (key : string) (p : Policy) : polE ()
| CacheRemove (c : lru) (key : string) : polE ()
| TypeLoad (key : string) : polE (option PolicyType)
| TypeStore (key : string) (t : PolicyType) : polE ()
| TypeDelete (key : string) : polE ().

(** The memory of the token store, random identifiers, and what it asks of
    the expiration manager, of the cubbyhole and of the encryption of batch
    tokens. *)
Variant tokE : Type → Type :=
| PendingLoadOrStore (saltedID : string) : tokE (option bool)
| PendingStore (key : string) (b : bool) : tokE ()
| PendingDelete (key : string) : tokE ()
| RandomID : tokE (res string)
| EncryptBatch (te : Token.TokenEntry) : tokE (res string)
| DecryptBatch (text : string) : tokE (res (option Token.TokenEntry))
| SignToken (inner : string) : tokE (option string)
| FetchLeaseTimesByToken (te : Token.TokenEntry) : tokE (res (option Z))
| RevocationLeaseByToken (te : Token.TokenEntry) : tokE (res string)
| ExpirationRevoke (leaseID : string) : tokE (option goerr)
| LazyRevoke (leaseID : string) : tokE (option goerr)
| RevokeByToken (te : Token.TokenEntry) : tokE (option goerr)
| DestroyCubbyhole (te : Token.TokenEntry) : tokE (option goerr).

(** Locks for readers and writers, by number. *)
Variant lokE : Type → Type :=
| RLock (i : nat) : lokE ()
| RUnlock (i : nat) : lokE ()
| Lock (i : nat) : lokE ()
| Unlock (i : nat) : lokE ().

(** An entity of the identity store. *)
Record Identity := mkIdentity {
  i_Entity : Tpl.Entity;
  i_Policies : list string;
  i_NamespaceID : string;
  i_Disabled : bool;
}.
Definition i_ID (i : Identity) : string := Tpl.e_ID (i_Entity i).

(** What the handling of a request asks of the identity store, of the
    backends, of the audit broker and of the activity log. *)
Variant reqE : Type → Type :=
| FetchEntity (id : string) : reqE (res (option Identity))
| GroupPoliciesByEntityID (id : string) : reqE (res (gmap string (list string)))
| GroupsByEntityID (id : string) : reqE (res (list Tpl.Group))
| GroupPolicyApplicationMode : reqE (res string)
| RouteExistenceCheck (req : Core.Request) : reqE (option Core.Response * bool * bool * option goerr)
| LogRequest (req : Core.Request) (err : option goerr) : reqE (option goerr)
| HandleTokenUsage (te : Token.TokenEntry) (clientID : string) (isTWE : bool) : reqE (option goerr).

Variant srvE (X : Type) : Type :=
| OnCore (e : coreE X)
| OnPol (e : polE X)
| OnTok (e : tokE X)
| OnLok (e : lokE X)
| OnReq (e : reqE X).
Arguments OnCore {_} _.
Arguments OnPol {_} _.
Arguments OnTok {_} _.
Arguments OnLok {_} _.
Arguments OnReq {_} _.

(** What the server is configured with and does not change while a request is
    handled. *)
Record Conf := mkConf {
  conf_core : Core;
  CachingDisabled : bool;
  perfStandby : bool;
  DisableSSCTokens : bool;
  conf_router : Router.t;
  (** The salt of the token store. *)
  token_salt : string;
  (** The expiration manager is not set up yet. *)
  expiration_nil : bool;
  IsDRSecondary : bool;
  (** The server has run no version later than 1.10; finding out may fail. *)
  before_1_10 : res bool;
  Sealed : bool;
  standby : bool;
  tokenStore_nil : bool;
  identityStore_nil : bool;
  activityLog_nil : bool;
  (** The key that tokens are signed with, once it is known. *)
  headerHMACKey : option (list N);
  (** VAULT_LEGACY_EXACT_MATCHING_ON_LIST. *)
  legacy_lists : bool;
}.

(** ** Memory and environment *)

(** Who holds a lock: some readers, or a writer. *)
Variant holder := Readers (n : nat) | Writer.

(** [s_audit] holds the requests logged, newest first, and [s_lazy] the
    leases handed over for revocation. *)
Record Server := mkServer {
  s_core : World;
  s_tokenPolicies : gmap string Policy;
  s_egps : gmap string Policy;
  s_types : gmap string PolicyType;
  s_pending : gmap string bool;
  s_audit : list Core.Request;
  s_lazy : list string;
  s_locks : gmap nat holder;
}.

(** Beside the answers of the core's environment: which keys the caches evict
    at an insertion, and what the other parts answer.  The expiration manager
    may delete tokens when it is asked to revoke one; [exp_deleted] are their
    salted identifiers. *)
Record SEnv := mkSEnv {
  on_core : Env;
  evicted : nat → gset string;
  random_id : nat → res string;
  encrypt_batch : nat → Token.TokenEntry → res string;
  batch_text : string → res (option Token.TokenEntry);
  sign_token : nat → string → option string;
  lease_times : nat → Token.TokenEntry → res (option Z);
  revocation_lease : nat → Token.TokenEntry → res string;
  exp_revoke : nat → string → option goerr;
  exp_deleted : nat → list string;
  lazy_revoke : nat → string → option goerr;
  revoke_by_token : nat → Token.TokenEntry → option goerr;
  destroy_cubbyhole : nat → Token.TokenEntry → option goerr;
  entities : nat → string → res (option Identity);
  group_policies : nat → string → res (gmap string (list string));
  groups_of : nat → string → res (list Tpl.Group);
  group_mode : nat → res string;
  existence : nat → Core.Request → option Core.Response * bool * bool * option goerr;
  log_request : nat → Core.Request → option goerr → option goerr;
  token_usage : nat → Token.TokenEntry → option goerr;
}.

Definition set_core (w : World) (s : Server) : Server :=
  mkServer w (s_tokenPolicies s) (s_egps s) (s_types s) (s_pending s) (s_audit s) (s_lazy s) (s_locks s).
Definition cache_of (c : lru) (s : Server) : gmap string Policy :=
  match c with tokenPoliciesLRU => s_tokenPolicies s | egpLRU => s_egps s end.
Definition set_cache (c : lru) (m : gmap string Policy) (s : Server) : Server :=
  match c with
  | tokenPoliciesLRU => mkServer (s_core s) m (s_egps s) (s_types s) (s_pending s) (s_audit s) (s_lazy s) (s_locks s)
  | egpLRU => mkServer (s_core s) (s_tokenPolicies s) m (s_types s) (s_pending s) (s_audit s) (s_lazy s) (s_locks s)
  end.
Definition set_types (m : gmap string PolicyType) (s : Server) : Server :=
  mkServer (s_core s) (s_tokenPolicies s) (s_egps s) m (s_pending s) (s_audit s) (s_lazy s) (s_locks s).
Definition set_pending (m : gmap string bool) (s : Server) : Server :=
  mkServer (s_core s) (s_tokenPolicies s) (s_egps s) (s_types s) m (s_audit s) (s_lazy s) (s_locks s).
Definition add_audit (r : Core.Request) (s : Server) : Server :=
  mkServer (s_core s) (s_tokenPolicies s) (s_egps s) (s_types s) (s_pending s) (r :: s_audit s) (s_lazy s) (s_locks s).
Definition add_lazy (l : string) (s : Server) : Server :=
  mkServer (s_core s) (s_tokenPolicies s) (s_egps s) (s_types s) (s_pending s) (s_audit s) (l :: s_lazy s) (s_locks s).
Definition set_locks (m : gmap nat holder) (s : Server) : Server :=
  mkServer (s_core s) (s_tokenPolicies s) (s_egps s) (s_types s) (s_pending s) (s_audit s) (s_lazy s) m.
Definition s_tick (s : Server) : Server := set_core (tick (s_core s)) s.

(** The stored entries. *)
Definition s_store (s : Server) : gmap string blob := w_store (s_core s).
Definition set_store (m : gmap string blob) (s : Server) : Server :=
  set_core (set_phys (Inmem.set_root m (w_phys (s_core s))) (s_core s)) s.

(** The tokens' part of the storage. *)
Definition tokenSubPath : string := "token/".
Definition idPrefix : string := "id/".
Definition id_key (saltedID : string) : string :=
  systemBarrierPrefix +:+ tokenSubPath +:+ idPrefix +:+ saltedID.

Section semantics.
Context `{RadixTree} (env : SEnv).

Definition pol_handle X (e : polE X) (s : Server) : X * Server :=
  let n := w_tick (s_core s) in
  match e in polE X return X * Server with
  | CacheGet c k => (cache_of c s !! k, s_tick s)
  | CacheAdd c k p =>
      (tt, s_tick (set_cache c (filter (λ x, x.1 ∉ evicted env n) (<[k:=p]> (cache_of c s))) s))
  | CacheRemove c k => (tt, s_tick (set_cache c (delete k (cache_of c s)) s))
  | TypeLoad k => (s_types s !! k, s_tick s)
  | TypeStore k t => (tt, s_tick (set_types (<[k:=t]> (s_types s)) s))
  | TypeDelete k => (tt, s_tick (set_types (delete k (s_types s)) s))
  end.

Definition tok_handle X (e : tokE X) (s : Server) : X * Server :=
  let n := w_tick (s_core s) in
  match e in tokE X return X * Server with
  | PendingLoadOrStore k =>
      (s_pending s !! k,
       s_tick (match s_pending s !! k with
               | Some _ => s
               | None => set_pending (<[k:=true]> (s_pending s)) s
               end))
  | PendingStore k b => (tt, s_tick (set_pending (<[k:=b]> (s_pending s)) s))
  | PendingDelete k => (tt, s_tick (set_pending (delete k (s_pending s)) s))
  | RandomID => (random_id env n, s_tick s)
  | EncryptBatch te => (encrypt_batch env n te, s_tick s)
  | DecryptBatch text => (batch_text env text, s_tick s)
  | SignToken inner => (sign_token env n inner, s_tick s)
  | FetchLeaseTimesByToken te => (lease_times env n te, s_tick s)
  | RevocationLeaseByToken te => (revocation_lease env n te, s_tick s)
  | ExpirationRevoke l =>
      (exp_revoke env n l,
       s_tick (set_store (foldr (λ k, delete (id_key k)) (s_store s) (exp_deleted env n)) s))
  | LazyRevoke l =>
      (lazy_revoke env n l,
       s_tick (match lazy_revoke env n l with None => add_lazy l s | Some _ => s end))
  | RevokeByToken te => (revoke_by_token env n te, s_tick s)
  | DestroyCubbyhole te => (destroy_cubbyhole env n te, s_tick s)
  end.

(** A lock is taken and given back; see [ready] for when it can be taken. To
    give back a lock that is not held is fatal in Go; it has no effect
    here. *)
Definition lok_handle X (e : lokE X) (s : Server) : X * Server :=
  match e in lokE X return X * Server with
  | RLock i =>
      (tt, s_tick (set_locks (<[i := match s_locks s !! i with
                                     | Some (Readers n) => Readers (S n)
                                     | _ => Readers 1
                                     end]> (s_locks s)) s))
  | RUnlock i =>
      (tt, s_tick (set_locks (match s_locks s !! i with
                              | Some (Readers (S (S n))) => <[i := Readers (S n)]> (s_locks s)
                              | Some (Readers _) => delete i (s_locks s)
                              | _ => s_locks s
                              end) s))
  | Lock i => (tt, s_tick (set_locks (<[i := Writer]> (s_locks s)) s))
  | Unlock i =>
      (tt, s_tick (set_locks (match s_locks s !! i with
                              | Some Writer => delete i (s_locks s)
                              | _ => s_locks s
                              end) s))
  end.

Definition req_handle X (e : reqE X) (s : Server) : X * Server :=
  let n := w_tick (s_core s) in
  match e in reqE X return X * Server with
  | FetchEntity id => (entities env n id, s_tick s)
  | GroupPoliciesByEntityID id => (group_policies env n id, s_tick s)
  | GroupsByEntityID id => (groups_of env n id, s_tick s)
  | GroupPolicyApplicationMode => (group_mode env n, s_tick s)
  | RouteExistenceCheck req => (existence env n req, s_tick s)
  | LogRequest req err =>
      (log_request env n req err,
       s_tick (match log_request env n req err with None => add_audit req s | Some _ => s end))
  | HandleTokenUsage te _ _ => (token_usage env n te, s_tick s)
  end.

Definition srv_handle X (e : srvE X) (s : Server) : X * Server :=
  match e with
  | OnCore e => let r := core_handle (on_core env) X e (s_core s) in (r.1, set_core r.2 s)
  | OnPol e => pol_handle X e s
  | OnTok e => tok_handle X e s
  | OnLok e => lok_handle X e s
  | OnReq e => req_handle X e s
  end.
#[export] Instance srv_handler : Handler srvE Server := srv_handle.
End semantics.

(** ** Threads that wait for locks *)

(** The effect can be performed now. *)
Definition ready {X} (e : srvE X) (s : Server) : bool :=
  match e with
  | OnLok (Lock i) => match s_locks s !! i with None => true | Some _ => false end
  | OnLok (RLock i) => match s_locks s !! i with Some Writer => false | _ => true end
  | _ => true
  end.

(** [pool_step] for threads that wait until they get a lock. *)
Inductive thread_step `{RadixTree} (env : SEnv) {A}
    : list (prog srvE A) * Server → list (prog srvE A) * Server → Prop :=
| thread_sched ts s (i : nat) X (e : srvE X) k :
    ts !! i = Some (Vis e k) → ready e s = true →
    thread_step env (ts, s) (<[i := k (srv_handle env X e s).1]> ts, (srv_handle env X e s).2).

(** A schedule, executed; a thread that waits is skipped. *)
Definition thread_sched_step `{RadixTree} (env : SEnv) {A} (c : list (prog srvE A) * Server) (i : nat)
    : list (prog srvE A) * Server :=
  match c.1 !! i with
  | Some (Vis e k) =>
      if ready e c.2 then
        let r := srv_handle env _ e c.2 in (<[i := k r.1]> c.1, r.2)
      else c
  | _ => c
  end.
Definition thread_schedule `{RadixTree} (env : SEnv) {A} (sch : list nat) (c : list (prog srvE A) * Server) :=
  fold_left (thread_sched_step env) sch c.

Lemma thread_schedule_steps `{RadixTree} (env : SEnv) {A} sch (c : list (prog srvE A) * Server) :
  rtc (thread_step env) c (thread_schedule env sch c).
Proof.
  revert c. induction sch as [|i sch IH]; intros [ts s]; [done|]. simpl. etrans; [|apply IH].
  unfold thread_sched_step. simpl. destruct (ts !! i) as [[a|X e k]|] eqn:Ht; [done| |done].
  destruct (ready e s) eqn:Hr; [|done]. apply rtc_once. by apply thread_sched.
Qed.

(** ** Programs of the core *)

Fixpoint of_core {A} (p : prog coreE A) : prog srvE A :=
  match p with
  | Ret a => Ret a
  | Vis e k => Vis (OnCore e) (λ x, of_core (k x))
  end.

(** A storage of the core as one of the server. *)
Definition server_storage (s : Storage coreE blob) : Storage srvE blob := {|
  List p := of_core (List s p);
  Get k := of_core (Get s k);
  Put e := of_core (Put s e);
  Delete k := of_core (Delete s k);
|}.

Lemma run_of_core `{RadixTree} (env : SEnv) {A} (p : prog coreE A) s :
  run (H:=srv_handler env) (of_core p) s
  = ((exec (on_core env) p (s_core s)).1, set_core (exec (on_core env) p (s_core s)).2 s).
Proof.
  revert s. induction p as [a|X e k IH]; intros s; [by destruct s|].
  simpl. rewrite IH. simpl. unfold exec. simpl. by destruct s.
Qed.

(** ** Go's error handling *)

(** [if err != nil { return err }]. *)
Definition try {E A B} (p : prog E (res A)) (k : A → prog E (res B)) : prog E (res B) :=
  r ← p; match r with Ok a => k a | Err err => Ret (Err err) end.
Notation "x ←? p ; k" := (try p (λ x, k))
  (at level 20, p at level 100, k at level 200, right associativity).

(** The error as a result. *)
Definition checked {E} (p : prog E (option goerr)) : prog E (res ()) :=
  err ← p; Ret (match err with None => Ok tt | Some err => Err err end).
Definition wrapped {E A} (msg : string) (p : prog E (res A)) : prog E (res A) :=
  r ← p; Ret (match r with Ok a => Ok a | Err err => Err (ErrWrap msg err) end).
