(* ===== verification/PolicyStore.v ===== *)
(** * [vault/policy_store.go]

    Policies are stored by name as text; parsed policies are cached, and a map
    holds the type of every policy.  Writers hold [modifyLock]; a reader looks
    at the type map and the cache first and takes the lock only to load.  The
    hooks of the enterprise edition ([policy_store_util.go]) do nothing, and
    every namespace has the same views; the observations recorded after a
    change are left out. *)

From S2P Require Import Prelude GoLib GoSplit Encoding Storage ScanView Core ApprovalTypes ApprovalCore Router Routing Templating Policy Acl Tokens Server.

Definition policyACLSubPath : string := "policy/".
Definition policyRGPSubPath : string := "policy-rgp/".
Definition policyEGPSubPath : string := "policy-egp/".
Definition defaultPolicyName : string := "default".
Definition defaultCeilingPolicyName : string := "default-ceiling".
Definition responseWrappingPolicyName : string := "response-wrapping".
Definition controlGroupPolicyName : string := "control-group".
Definition immutablePolicies : list string :=
  ["root"; responseWrappingPolicyName; controlGroupPolicyName].
Definition nonAssignablePolicies : list string :=
  [responseWrappingPolicyName; controlGroupPolicyName].

(** ** The stored entry *)

Record PolicyEntry := mkPolicyEntry {
  pe_Version : Z;
  pe_Raw : string;
  pe_Templated : bool;
  pe_Type : Z;
}.

(** [PolicyType], 32 bits. *)
Definition type_number (t : PolicyType) : Z :=
  match t with PolicyTypeACL => 0 | PolicyTypeRGP => 1 | PolicyTypeEGP => 2 | PolicyTypeToken => 3 end.
Definition number_type (z : Z) : option PolicyType :=
  match z with
  | 0 => Some PolicyTypeACL
  | 1 => Some PolicyTypeRGP
  | 2 => Some PolicyTypeEGP
  | 3 => Some PolicyTypeToken
  | _ => None
  end.

Definition enc_policy_entry (pe : PolicyEntry) : value :=
  VObj [("Version", VNum (pe_Version pe)); ("Raw", enc_str (pe_Raw pe));
        ("Templated", VBool (pe_Templated pe)); ("Type", VNum (pe_Type pe))].

Definition dec_uint32 (o : list (string * value)) (k : string) : res Z :=
  z ← dec_int o k; if (0 <=? z) && (z <? 2 ^ 32) then Ok z else Err ErrDecode.

Definition dec_policy_entry (v : value) : res PolicyEntry :=
  match v with
  | VObj o =>
      version ← dec_int o "Version";
      raw ← dec_string o "Raw";
      templated ← dec_bool o "Templated";
      type_ ← dec_uint32 o "Type";
      Ok (mkPolicyEntry version raw templated type_)
  | VNil => Ok (mkPolicyEntry 0 "" false 0)
  | _ => Err ErrDecode
  end.

(** ** Errors of the endpoints *)

(** The text of an error: its format, and what it wraps. *)
Fixpoint err_text (e : goerr) : value :=
  match e with
  | ErrReadOnly => VStr "cannot write to readonly storage"
  | ErrRelativePath => VStr "relative paths not supported"
  | ErrPermissionDenied => VStr "permission denied"
  | ErrBackend what | ErrUser what => VStr what
  | ErrWrap msg e => VSprintf msg [err_text e]
  | ErrMulti l => VArr (err_text <$> l)
  | _ => VStr "error"
  end.

Definition is_ReadOnly (e : goerr) : bool := match e with ErrReadOnly => true | _ => false end.

Definition handleError (err : goerr) : Resp :=
  (Some (data_response [("error", err_text err)]),
   Some (if err_has is_ReadOnly err then err else ErrInvalidRequest)).

Section store.
Context `{GoTables} `{MapRange} `{Globbing} `{Parseutil} `{HCL} (c : Conf).

(** ** Names, views and the cache *)

Definition sanitizeName (name : string) : string := Token.lower_trim name.
Definition cacheKey (ns : Namespace) (name : string) : string := path_Join (ns_ID ns) name.

Definition policy_view (sub : string) : BarrierView coreE blob :=
  barrier_SubView (systemBarrierView (conf_core c)) sub.
Definition aclView : Storage srvE blob := server_storage (barrier_storage (policy_view policyACLSubPath)).
Definition rgpView : Storage srvE blob := server_storage (barrier_storage (policy_view policyRGPSubPath)).
Definition egpView : Storage srvE blob := server_storage (barrier_storage (policy_view policyEGPSubPath)).
Definition getBarrierView (_ : Namespace) (_ : PolicyType) : Storage srvE blob := aclView.

Definition on_pol {X} (e : polE X) : prog srvE X := trigger (OnPol e).
Definition cache_Get (l : lru) (index : string) : prog srvE (option Policy) :=
  if CachingDisabled c then Ret None else on_pol (CacheGet l index).
Definition cache_Add (l : lru) (index : string) (p : Policy) : prog srvE () :=
  if CachingDisabled c then Ret () else on_pol (CacheAdd l index p).
Definition cache_Remove (l : lru) (index : string) : prog srvE () :=
  if CachingDisabled c then Ret () else on_pol (CacheRemove l index).

(** ** Reading *)

Definition root_policy : Policy := mkPolicy "root" [] PolicyTypeACL false Token.RootNamespace "".

(** What a policy type is looked up in. *)
Definition cache_for (t : PolicyType) : lru :=
  match t with PolicyTypeEGP => egpLRU | _ => tokenPoliciesLRU end.
Definition view_for (t : PolicyType) : Storage srvE blob :=
  match t with PolicyTypeRGP => rgpView | PolicyTypeEGP => egpView | _ => aclView end.

(** The part of [switchedGetPolicy] before the lock: an answer, or the type
    of the policy to load. *)
Definition probe_cache (ns : Namespace) (name : string) (t : PolicyType)
    : prog srvE (res (option Policy) + PolicyType) :=
  let index := cacheKey ns name in
  raw ← cache_Get (cache_for t) index;
  match raw with
  | Some p => Ret (inl (Ok (Some p)))
  | None =>
      if bool_decide (t = PolicyTypeACL) && bool_decide (name = "root")
         && bool_decide (ns_ID ns = RootNamespaceID)
      then _ ← cache_Add (cache_for t) index root_policy; Ret (inl (Ok (Some root_policy)))
      else Ret (inr t)
  end.

Definition probe_policy (ns : Namespace) (name : string) (policyType : PolicyType)
    : prog srvE (res (option Policy) + PolicyType) :=
  let name := sanitizeName name in
  match policyType with
  | PolicyTypeToken =>
      val ← on_pol (TypeLoad (cacheKey ns name));
      match val with
      | None => Ret (inl (Ok None))
      | Some PolicyTypeACL => probe_cache ns name PolicyTypeACL
      | Some PolicyTypeRGP => probe_cache ns name PolicyTypeRGP
      | Some _ => Ret (inl (Err (ErrBackend "invalid type of policy in type map: %q")))
      end
  | t => probe_cache ns name t
  end.

(** The part under the lock: what is stored is parsed, typed and cached. *)
Definition read_stored (ns : Namespace) (name : string) (t : PolicyType)
    : prog srvE (res (option Policy)) :=
  let index := cacheKey ns name in
  out ← Get (view_for t) name;
  match out with
  | Err err => Ret (Err (ErrWrap "failed to read policy: %w" err))
  | Ok None => Ret (Ok None)
  | Ok (Some out) =>
      match DecodeJSON dec_policy_entry out with
      | Err err => Ret (Err (ErrWrap "failed to parse policy: %w" err))
      | Ok pe =>
          match number_type (pe_Type pe) with
          | Some PolicyTypeACL =>
              clock ← trigger (OnCore Now);
              match ParseACLPolicyCheckDuplicates clock ns (pe_Raw pe) with
              | Err _ => Ret (Err (ErrBackend "failed to parse policy: %w"))
              | Ok p =>
                  let policy := mkPolicy name (Paths p) PolicyTypeACL (pe_Templated pe) ns (pe_Raw pe) in
                  _ ← on_pol (TypeStore index PolicyTypeACL);
                  _ ← cache_Add (cache_for t) index policy;
                  Ret (Ok (Some policy))
              end
          | Some PolicyTypeRGP =>
              let policy := mkPolicy name [] PolicyTypeRGP (pe_Templated pe) ns (pe_Raw pe) in
              _ ← on_pol (TypeStore index PolicyTypeRGP);
              _ ← cache_Add (cache_for t) index policy;
              Ret (Ok (Some policy))
          | Some PolicyTypeEGP =>
              let policy := mkPolicy name [] PolicyTypeEGP (pe_Templated pe) ns (pe_Raw pe) in
              _ ← cache_Add (cache_for t) index policy;
              Ret (Ok (Some policy))
          | _ => Ret (Err (ErrBackend "unknown policy type %q"))
          end
      end
  end.

Definition load_policy (ns : Namespace) (name : string) (t : PolicyType)
    : prog srvE (res (option Policy)) :=
  let name := sanitizeName name in
  raw ← cache_Get (cache_for t) (cacheKey ns name);
  match raw with
  | Some p => Ret (Ok (Some p))
  | None => read_stored ns name t
  end.

Definition GetPolicy (ns : Namespace) (name : string) (policyType : PolicyType)
    : prog (lockE srvE) (res (option Policy)) :=
  r ← steps (probe_policy ns name policyType);
  match r with
  | inl answer => Ret answer
  | inr t => locked (load_policy ns name t)
  end.

(** [switchedGetPolicy] for a caller that has the lock. *)
Definition get_policy_locked (ns : Namespace) (name : string) (policyType : PolicyType)
    : prog srvE (res (option Policy)) :=
  r ← probe_policy ns name policyType;
  match r with
  | inl answer => Ret answer
  | inr t => load_policy ns name t
  end.

(** [GetNonEGPPolicyType]; the namespace is given by its identifier. *)
Definition GetNonEGPPolicyType (nsID name : string) : prog srvE (option PolicyType) :=
  on_pol (TypeLoad (path_Join nsID (sanitizeName name))).

(** ** Writing *)

(** [setPolicyInternal], under the lock. *)
Definition setPolicyInternal (p : Policy) : prog srvE (option goerr) :=
  let key := Name p in
  let entry := mkPolicyEntry 2 (Raw p) (Templated p) (type_number (Type_ p)) in
  let index := cacheKey (namespace p) (Name p) in
  match Type_ p with
  | PolicyTypeACL =>
      rgp ← Get rgpView key;
      match rgp with
      | Err err => Ret (Some (ErrWrap "failed looking up conflicting policy: %w" err))
      | Ok (Some _) => Ret (Some (ErrBackend "cannot reuse policy names between ACLs and RGPs"))
      | Ok None =>
          err ← Put (getBarrierView (namespace p) (Type_ p)) (Some (mkEntry key (Doc (enc_policy_entry entry))));
          match err with
          | Some err => Ret (Some (ErrWrap "failed to persist policy: %w" err))
          | None =>
              _ ← on_pol (TypeStore index PolicyTypeACL);
              _ ← cache_Add tokenPoliciesLRU index p;
              Ret None
          end
      end
  | PolicyTypeRGP =>
      acl ← Get aclView key;
      match acl with
      | Err err => Ret (Some (ErrWrap "failed looking up conflicting policy: %w" err))
      | Ok (Some _) => Ret (Some (ErrBackend "cannot reuse policy names between ACLs and RGPs"))
      | Ok None =>
          _ ← on_pol (TypeStore index PolicyTypeRGP);
          _ ← cache_Add tokenPoliciesLRU index p;
          Ret None
      end
  | PolicyTypeEGP => _ ← cache_Add egpLRU index p; Ret None
  | PolicyTypeToken => Ret (Some (ErrBackend "unknown policy type, cannot set"))
  end.

Definition set_Name (name : string) (p : Policy) : Policy :=
  mkPolicy name (Paths p) (Type_ p) (Templated p) (namespace p) (Raw p).

Definition SetPolicy (p : Policy) : prog (lockE srvE) (option goerr) :=
  if decide (Name p = "") then Ret (Some (ErrBackend "policy name missing"))
  else
    let p := set_Name (sanitizeName (Name p)) p in
    if bool_decide (Name p ∈ immutablePolicies) then Ret (Some (ErrBackend "cannot update %q policy"))
    else locked (setPolicyInternal p).

(** [switchedDeletePolicy]; without [physicalDeletion] it leaves the storage
    alone. *)
Definition delete_policy (ns : Namespace) (name : string) (policyType : PolicyType)
    (physicalDeletion force : bool) : prog srvE (option goerr) :=
  let name := sanitizeName name in
  let index := cacheKey ns name in
  let view := getBarrierView ns policyType in
  let physical : prog srvE (option goerr) :=
    if physicalDeletion then
      err ← Delete view name;
      Ret (ErrWrap "failed to delete policy: %w" <$> (err : option goerr))
    else Ret None in
  match policyType with
  | PolicyTypeACL =>
      if negb force && bool_decide (name ∈ immutablePolicies) then
        Ret (Some (ErrBackend "cannot delete %q policy"))
      else if negb force && (bool_decide (name = defaultPolicyName)
                             || bool_decide (name = defaultCeilingPolicyName)) then
        Ret (Some (ErrBackend "cannot delete %s policy"))
      else
        err ← physical;
        match err with
        | Some err => Ret (Some err)
        | None => _ ← cache_Remove tokenPoliciesLRU index; _ ← on_pol (TypeDelete index); Ret None
        end
  | PolicyTypeRGP =>
      err ← physical;
      match err with
      | Some err => Ret (Some err)
      | None => _ ← cache_Remove tokenPoliciesLRU index; _ ← on_pol (TypeDelete index); Ret None
      end
  | PolicyTypeEGP =>
      err ← physical;
      match err with
      | Some err => Ret (Some err)
      | None => _ ← cache_Remove egpLRU index; Ret None
      end
  | PolicyTypeToken => Ret None
  end.

Definition DeletePolicy (ns : Namespace) (name : string) (policyType : PolicyType)
    : prog (lockE srvE) (option goerr) :=
  locked (delete_policy ns name policyType true false).
Definition deletePolicyForce (ns : Namespace) (name : string) (policyType : PolicyType)
    : prog (lockE srvE) (option goerr) :=
  locked (delete_policy ns name policyType true true).

(** [invalidate], under the lock: the name may begin with a slash. *)
Definition invalidate (ns : Namespace) (name : string) (policyType : PolicyType)
    : prog (lockE srvE) () :=
  let index := cacheKey ns (TrimPrefix name "/") in
  match policyType with
  | PolicyTypeToken => Ret ()
  | _ =>
      locked (
        _ ← cache_Remove (cache_for policyType) index;
        out ← get_policy_locked ns name policyType;
        match out with
        | Ok (Some _) => Ret ()
        | _ => _ ← delete_policy ns name policyType false true; Ret ()
        end)
  end.

(** ** Listing and start-up *)

(** The walks over a view stop if the context is done; [fuel] bounds the
    folders they list. *)
Variable ctx_Err : prog coreE (option goerr).

Definition acl_keys (fuel : nat) : prog srvE (option (res (list string))) :=
  of_core (CollectKeys ctx_Err fuel (clearable (policy_view policyACLSubPath))).

Fixpoint remove_first (x : string) (l : list string) : list string :=
  match l with
  | [] => []
  | y :: l => if decide (y = x) then l else y :: remove_first x l
  end.

Definition ListPolicies (fuel : nat) (policyType : PolicyType)
    : prog srvE (option (res (list string))) :=
  match policyType with
  | PolicyTypeACL =>
      keys ← acl_keys fuel;
      Ret (match keys with
           | Some (Ok keys) => Some (Ok (fold_left (λ l x, remove_first x l) nonAssignablePolicies keys))
           | r => r
           end)
  | PolicyTypeRGP | PolicyTypeEGP => acl_keys fuel
  | PolicyTypeToken => Ret (Some (Err (ErrBackend "unknown policy type %q")))
  end.

(** [NewPolicyStore] on empty memory: every stored policy gets its type, and
    [root], which is not stored, too. *)
Definition NewPolicyStore (fuel : nat) : prog srvE (option (option goerr)) :=
  keys ← acl_keys fuel;
  match keys with
  | None => Ret None
  | Some (Err err) => Ret (Some (Some err))
  | Some (Ok keys) =>
      _ ← range keys () (λ key _,
            _ ← on_pol (TypeStore (cacheKey Token.RootNamespace (sanitizeName key)) PolicyTypeACL);
            Ret (inl () : () + ()));
      _ ← on_pol (TypeStore (cacheKey Token.RootNamespace "root") PolicyTypeACL);
      Ret (Some None)
  end.

(** [loadACLPolicyInternal]: a missing policy is created, an immutable one is
    brought back to its text. *)
Definition loadACLPolicyInternal (ns : Namespace) (policyName policyText : string)
    : prog (lockE srvE) (option goerr) :=
  policy ← GetPolicy ns policyName PolicyTypeACL;
  let set_new :=
    clock ← steps (trigger (OnCore Now));
    match ParseACLPolicyCheckDuplicates clock ns policyText with
    | Err _ => Ret (Some (ErrBackend "error parsing %s policy: %w"))
    | Ok p => locked (setPolicyInternal
                (mkPolicy policyName (Paths p) PolicyTypeACL (Templated p) ns policyText))
    end in
  match policy with
  | Err err => Ret (Some (ErrWrap "error fetching %s policy from store: %w" err))
  | Ok (Some policy) =>
      if negb (bool_decide (policyName ∈ immutablePolicies)) || bool_decide (policyText = Raw policy)
      then Ret None
      else set_new
  | Ok None => set_new
  end.

(** ** Compiling the policies of a token *)

(** The policies of the given names, by namespace. *)
Definition fetch_named (policyNames : gmap string (list string))
    : prog (lockE srvE) (list Policy + goerr) :=
  range (range_keys policyNames) [] (λ nsID all,
    match Token.NamespaceByID nsID with
    | Err err => Ret (inr err)
    | Ok policyNS =>
        range (default [] (policyNames !! nsID)) all (λ name all,
          p ← GetPolicy policyNS name PolicyTypeToken;
          Ret (match p with
               | Err err => inr (ErrWrap "failed to get policy: %w" err)
               | Ok (Some p) => inl (all ++ [p])
               | Ok None => inl all
               end))
    end).

(** Filling in the templates; the groups are fetched at the first template. *)
Definition fill_templates (entity : option Identity) (policies : list Policy)
    : prog srvE ((list Policy * option (list Tpl.Group)) + goerr) :=
  range policies ([], None) (λ policy st,
    let '(done, fetched) := (st : list Policy * option (list Tpl.Group)) in
    if bool_decide (Type_ policy = PolicyTypeACL) && Templated policy then
      groups ← match fetched, entity with
               | Some groups, _ => Ret (Ok groups)
               | None, None => Ret (Ok [])
               | None, Some e => trigger (OnReq (GroupsByEntityID (i_ID e)))
               end;
      match groups with
      | Err err => Ret (inr (ErrWrap "failed to fetch group memberships: %w" err))
      | Ok groups =>
          clock ← trigger (OnCore Now);
          Ret (match parseACLPolicyWithTemplating clock (namespace policy) (Raw policy)
                       (Some (mkSubject (i_Entity <$> entity) groups)) with
               | Err _ => inr (ErrBackend "error parsing templated policy %q: %w")
               | Ok p => inl (done ++ [set_Name (Name policy) p], Some groups)
               end)
      end
    else Ret (inl (done ++ [policy], fetched))).

Definition ACL_ (ns : Namespace) (entity : option Identity) (policyNames : gmap string (list string))
    (additionalPolicies : list Policy) : prog (lockE srvE) (res ACL) :=
  named ← fetch_named policyNames;
  match named with
  | inr err => Ret (Err err)
  | inl named =>
      filled ← steps (fill_templates entity (named ++ additionalPolicies));
      Ret (match filled with
           | inr err => Err err
           | inl (policies, _) =>
               match NewACL (Some ns) (Some <$> policies) with
               | Err _ => Err (ErrBackend "failed to construct ACL: %w")
               | Ok acl => Ok acl
               end
           end)
  end.

(** ** The endpoints below sys/policies/acl and sys/policy

    The parameters of a request are given by their fields; [path] is the
    request's. *)

Definition handlePoliciesList (fuel : nat) (path : string) : prog srvE (option Resp) :=
  policies ← ListPolicies fuel PolicyTypeACL;
  Ret (match policies with
       | None => None
       | Some (Err err) => Some (None, Some err)
       | Some (Ok policies) =>
           let keys := VArr (VStr <$> (policies ++ ["root"])) in
           Some (Some (data_response (("keys", keys)
                   :: if HasPrefix path "policy" then [("policies", keys)] else [])), None)
       end).

Definition handlePoliciesRead (path name : string) : prog (lockE srvE) Resp :=
  policy ← GetPolicy Token.RootNamespace name PolicyTypeACL;
  Ret (match policy with
       | Err err => handleError err
       | Ok None => (None, None)
       | Ok (Some policy) =>
           (Some (data_response
              [("name", VStr (Name policy));
               (if HasPrefix path "policy" then "rules" else "policy", VStr (Raw policy))]), None)
       end).

(** The text of the policy: from the older parameter, and from base64 where it
    decodes. *)
Definition policy_text (path policy rules : string) : string * list value :=
  let '(raw, warnings) :=
    if bool_decide (policy = "") && HasPrefix path "policy"
    then (rules, [VStr "'rules' is deprecated, please use 'policy' instead"])
    else (policy, []) in
  (match b64_decode raw with Some bytes => bytes | None => raw end, warnings).

(** A text that gives an attribute twice is accepted with a warning. *)
Definition duplicates (raw : string) : list value :=
  match ParseHCL raw with
  | Ok file => if file_dup file
               then [VStr "policy contains duplicate attributes, which will no longer be supported in a future version"]
               else []
  | Err _ => []
  end.

Definition handlePoliciesSet (path name policy rules : string) : prog (lockE srvE) Resp :=
  let lower := ToLower name in
  let renamed := if decide (name = lower) then []
                 else [VSprintf "policy name was converted to %s" [VStr lower]] in
  if decide (lower = "") then Ret (Some (ErrorResponse "policy name must be provided in the URL" []), None)
  else
    let '(raw, deprecated) := policy_text path policy rules in
    if decide ((if bool_decide (policy = "") && HasPrefix path "policy" then rules else policy) = "") then
      Ret (Some (ErrorResponse "'policy' parameter not supplied or empty" []), None)
    else
      clock ← steps (trigger (OnCore Now));
      match ParseACLPolicyCheckDuplicates clock Token.RootNamespace raw with
      | Err _ => Ret (handleError (ErrBackend "failed to parse policy: %w"))
      | Ok p =>
          err ← SetPolicy (mkPolicy lower (Paths p) PolicyTypeACL (Templated p) Token.RootNamespace raw);
          Ret (match err with
               | Some err => handleError err
               | None =>
                   (match renamed ++ deprecated ++ duplicates raw with
                    | [] => None
                    | warnings => Some (mkResponse ∅ warnings None None "")
                    end, None)
               end)
      end.

Definition handlePoliciesDelete (name : string) : prog (lockE srvE) Resp :=
  err ← DeletePolicy Token.RootNamespace name PolicyTypeACL;
  Ret (match err with Some err => handleError err | None => (None, None) end).
End store.
