(* ===== verification/TokenStore.v ===== *)
(** * [vault/token_store.go]

    Tokens are stored by the hash of their identifier, with an index of the
    children of each token and one of the accessors.  Lookups and uses of a
    token hold one of 256 locks, chosen by its identifier; revocations do not,
    and are kept apart by a map of the deletions under way.  The namespace of
    a context is the root, the only one of the community edition; the
    identifiers of enterprise tokens are left alone ([token_store_ce.go]). *)

From S2P Require Import Prelude GoLib GoSplit Encoding Storage Core Lease ApprovalTypes ApprovalCore Router Routing Templating Policy Acl Tokens Server PolicyStore.
Import Token.

(** HMAC-SHA256 by key, SHA-256, Blake2b, and the two protocol buffers of a
    token that carries an index: what is signed with its signature, and the
    random part of it. *)
Class TokenCrypto : Type := {
  HMAC_SHA256 : list N → list N → list N;
  SHA256 : list N → list N;
  Blake2b256Hash : string → list N;
  proto_SignedToken : string → option (string * string);
  proto_Token : string → option string;
}.

Definition accessorPrefix : string := "accessor/".
Definition parentPrefix : string := "parent/".

(** The count of a token that must not be used any more. *)
Definition tokenRevocationPending : Z := -1.

(** ** Changes of an entry *)

Definition set_ID (id : string) (te : TokenEntry) : TokenEntry :=
  set_identity (Type_ te) id (ExternalID te) (Accessor te) (CubbyholeID te) te.

(** What [lookupInternal] makes of a stored entry: defaults for the fields
    that older versions did not write, and the values of deprecated fields. *)
Definition upgrade (te : TokenEntry) : TokenEntry :=
  {| Type_ := if decide (Type_ te = TokenTypeDefault) then TokenTypeService else Type_ te;
     ID := ID te; ExternalID := ExternalID te; Accessor := Accessor te;
     Parent := Parent te; Policies := Policies te; InlinePolicy := InlinePolicy te; Path := Path te;
     Meta := Meta te; InternalMeta := InternalMeta te;
     DisplayName := if negb (bool_decide (DisplayNameDeprecated te = "")) && bool_decide (DisplayName te = "")
                    then DisplayNameDeprecated te else DisplayName te;
     NumUses := if negb (NumUsesDeprecated te =? 0)
                   && ((NumUses te =? 0) || (NumUsesDeprecated te <? NumUses te))
                then NumUsesDeprecated te else NumUses te;
     CreationTime := if negb (CreationTimeDeprecated te =? 0) && (CreationTime te =? 0)
                     then CreationTimeDeprecated te else CreationTime te;
     TTL := TTL te;
     ExplicitMaxTTL := if negb (ExplicitMaxTTLDeprecated te =? 0) && (ExplicitMaxTTL te =? 0)
                       then ExplicitMaxTTLDeprecated te else ExplicitMaxTTL te;
     Role := Role te; Period := Period te; DisplayNameDeprecated := ""; NumUsesDeprecated := 0;
     CreationTimeDeprecated := 0; ExplicitMaxTTLDeprecated := 0; EntityID := EntityID te;
     NoIdentityPolicies := NoIdentityPolicies te; BoundCIDRs := BoundCIDRs te;
     NamespaceID := if decide (NamespaceID te = "") then RootNamespaceID else NamespaceID te;
     CubbyholeID := CubbyholeID te |}.

(** A deprecated field was in use, and the entry is stored again. *)
Definition persistNeeded (te : TokenEntry) : bool :=
  negb (bool_decide (DisplayNameDeprecated te = "")) || negb (CreationTimeDeprecated te =? 0)
  || negb (ExplicitMaxTTLDeprecated te =? 0) || negb (NumUsesDeprecated te =? 0).

Section store.
Context `{GoTables} `{MapRange} `{Globbing} `{Parseutil} `{HCL} `{!Strsets} `{Sockaddr} `{Crypto} `{TokenCrypto} (c : Conf).

(** ** Identifiers, views and locks *)

Definition GetHMAC (salt data : string) : string :=
  hex_EncodeToString (HMAC_SHA256 (bytes salt) (bytes data)).

(** [TokenStore.SaltID] *)
Definition token_SaltID (id : string) : string :=
  if negb (Contains id ".") then SaltID (token_salt c) id
  else "h" +:+ GetHMAC (token_salt c) id.

Definition token_view (prefix : string) : Storage srvE blob :=
  server_storage (barrier_storage
    (barrier_SubView (barrier_SubView (systemBarrierView (conf_core c)) tokenSubPath) prefix)).
Definition idView : Storage srvE blob := token_view idPrefix.
Definition accessorView : Storage srvE blob := token_view accessorPrefix.
Definition parentView : Storage srvE blob := token_view parentPrefix.

Definition LockIndexForKey (key : string) : nat :=
  N.to_nat (hd 0%N (Blake2b256Hash key) mod 256).

Definition on_tok {X} (e : tokE X) : prog srvE X := trigger (OnTok e).
Definition on_lok {X} (e : lokE X) : prog srvE X := trigger (OnLok e).
Definition with_RLock {A} (key : string) (p : prog srvE A) : prog srvE A :=
  _ ← on_lok (RLock (LockIndexForKey key)); r ← p; _ ← on_lok (RUnlock (LockIndexForKey key)); Ret r.
Definition with_Lock {A} (key : string) (p : prog srvE A) : prog srvE A :=
  _ ← on_lok (Lock (LockIndexForKey key)); r ← p; _ ← on_lok (Unlock (LockIndexForKey key)); Ret r.

Definition DecodeSSCTokenInternal (token : string) : res string :=
  if negb (HasPrefix token ServiceTokenPrefix) then Err (ErrBackend "not service token")
  else
    match rawurl_decode (str_drop 4 token) with
    | None => Err (ErrBackend "can't decode token")
    | Some tokenBytes =>
        match proto_SignedToken tokenBytes with
        | None => Err ErrDecode
        | Some (signed, _) => match proto_Token signed with None => Err ErrDecode | Some random => Ok random end
        end
    end.

Definition DecodeSSCToken (token : string) : res string :=
  if negb (IsSSCToken token) then Ok token else DecodeSSCTokenInternal token.

(** ** Storing *)

(** The entry under its identifier. *)
Definition store_primary (entry : TokenEntry) : prog srvE (res ()) :=
  wrapped "failed to persist entry: %w"
    (checked (Put idView (Some (mkEntry (token_SaltID (ID entry)) (Doc (enc_token entry)))))).

Definition store (entry : TokenEntry) : prog srvE (res ()) :=
  match NamespaceByID (NamespaceID entry) with
  | Err err => Ret (Err err)
  | Ok _ => store_primary entry
  end.

(** ** Looking up *)

(** What becomes of a stored entry: a token without a lease is revoked, one
    whose lease is over is not there. *)
Definition live_entry (entry : TokenEntry) (tainted : bool) : prog srvE (res (option TokenEntry)) :=
  let persist := if persistNeeded entry
                 then wrapped "failed to persist token upgrade: %w" (store (upgrade entry))
                 else Ret (Ok tt) in
  let entry := upgrade entry in
  if bool_decide (Policies entry = ["root"]) && (TTL entry =? 0) then
    _ ←? persist; Ret (Ok (Some entry))
  else if IsRoot entry then Ret (Ok (Some entry))
  else if expiration_nil c then
    Ret (if IsDRSecondary c then Ok None else Err (ErrBackend "expiration manager is nil on tokenstore"))
  else if decide (Type_ entry = TokenTypeEnt) then Ret (Ok (Some entry))
  else
    le ←? wrapped "failed to fetch lease times: %w" (on_tok (FetchLeaseTimesByToken entry));
    match le with
    | None =>
        if perfStandby c then
          Ret (Err (ErrBackend "no lease entry found for token that ought to have one, possible eventual consistency issue"))
        else
          match NamespaceByID (NamespaceID entry) with
          | Err err => Ret (Err err)
          | Ok _ =>
              leaseID ←? on_tok (RevocationLeaseByToken entry);
              _ ←? checked (on_tok (ExpirationRevoke leaseID));
              _ ←? persist; Ret (Ok None)
          end
    | Some ExpireTime =>
        now ← trigger (OnCore Now);
        _ ←? persist;
        Ret (Ok (if negb (ExpireTime <? now) || tainted then Some entry else None))
    end.

(** The key of an identifier in [idView]; the identifier's namespace must be
    known. *)
Definition lookup_key (id : string) (salted : bool) : res string :=
  if salted then Ok id
  else
    let nsID := (SplitIDFromString id).2 in
    if negb (bool_decide (nsID = "")) || HasPrefix id EnterpriseTokenPrefix then
      match NamespaceByID nsID with
      | Err err => Err (ErrWrap "failed to look up namespace from the token: %w" err)
      | Ok _ => Ok (token_SaltID id)
      end
    else Ok (token_SaltID id).

(** The identifier inside of one that carries an index. *)
Definition inner_id (id : string) : string :=
  if IsSSCToken id then
    match DecodeSSCToken id with
    | Ok internalID => if decide (internalID = "") then id else internalID
    | Err _ => id
    end
  else id.

(** [lookupInternal], given how batch tokens are looked up. *)
Definition lookup_with (lookupBatch : string → prog srvE (res (option TokenEntry)))
    (id : string) (salted tainted : bool) : prog srvE (res (option TokenEntry)) :=
  if IsBatchToken id then lookupBatch id
  else
    lookupID ←? Ret (lookup_key (inner_id id) salted);
    raw ←? wrapped "failed to read entry: %w" (Get idView lookupID);
    match raw with
    | None => Ret (Ok None)
    | Some raw =>
        match DecodeJSON dec_token raw with
        | Err err => Ret (Err (ErrWrap "failed to decode entry: %w" err))
        | Ok entry =>
            if (NumUses entry <? 0) && negb tainted then Ret (Ok None) else live_entry entry tainted
        end
    end.

Definition stripBatchPrefix (id : string) : string :=
  if HasPrefix id LegacyBatchTokenPrefix then str_drop 2 id
  else if HasPrefix id BatchTokenPrefix then str_drop 4 id
  else "".

(** [lookupBatchToken], given how the parent is looked up. *)
Definition batch_with (lookup : string → prog srvE (res (option TokenEntry))) (id : string)
    : prog srvE (res (option TokenEntry)) :=
  te ←? on_tok (DecryptBatch (SplitIDFromString (stripBatchPrefix id)).1);
  match te with
  | None => Ret (Ok None)
  | Some te =>
      now ← trigger (OnCore Now);
      if (CreationTime te + Tpl.unixToInternal) * Second + TTL te <? now then Ret (Ok None)
      else if decide (Parent te = "") then Ret (Ok (Some (set_ID id te)))
      else
        pte ←? lookup (Parent te);
        Ret (Ok (match pte with None => None | Some _ => Some (set_ID id te) end))
  end.

(** [Lookup]; [fuel] bounds the chain of batch tokens that are each other's
    parents, beyond which the stack of Go overflows. *)
Fixpoint Lookup_chain (fuel : nat) (id : string) : prog srvE (res (option TokenEntry)) :=
  match fuel with
  | O => Ret (Err (ErrBackend "stack overflow"))
  | S fuel =>
      if decide (id = "") then Ret (Err (ErrBackend "cannot lookup blank token"))
      else if IsBatchToken id then batch_with (Lookup_chain fuel) id
      else with_RLock id (lookup_with (batch_with (Lookup_chain fuel)) id false false)
  end.

(** A batch token holds its parent's identifier, so that the parent's is the
    shorter one. *)
Definition Lookup (id : string) : prog srvE (res (option TokenEntry)) :=
  Lookup_chain (S (String.length id)) id.
Definition lookupBatchToken (id : string) : prog srvE (res (option TokenEntry)) :=
  batch_with (Lookup_chain (String.length id)) id.
Definition lookupInternal (id : string) (salted tainted : bool) : prog srvE (res (option TokenEntry)) :=
  lookup_with lookupBatchToken id salted tainted.

Definition lookupTainted (id : string) : prog srvE (res (option TokenEntry)) :=
  if decide (id = "") then Ret (Err (ErrBackend "cannot lookup blank token"))
  else with_RLock id (lookupInternal id false true).

(** ** Using *)

Definition UseToken (te : option TokenEntry) : prog srvE (res TokenEntry) :=
  match te with
  | None => Ret (Err (ErrBackend "invalid token entry provided for use count decrementing"))
  | Some te =>
      if NumUses te =? 0 then Ret (Ok te)
      else if bool_decide (Policies te = [controlGroupPolicyName]) then Ret (Ok te)
      else
        with_Lock (ID te) (
          te ←? wrapped "failed to refresh entry: %w" (lookupInternal (ID te) false false);
          match te with
          | None => Ret (Err (ErrBackend "token not found or fully used already"))
          | Some te =>
              let te := set_NumUses (if NumUses te =? 1 then tokenRevocationPending
                                     else NumUses te - 1) te in
              _ ←? store te; Ret (Ok te)
          end)
  end.

Definition UseTokenByID (id : string) : prog srvE (res TokenEntry) :=
  te ←? Lookup id; UseToken te.

(** ** Creating *)

(** [storeCommon] with the index of children, which is written first. *)
Definition store_with_index (entry : TokenEntry) : prog srvE (res ()) :=
  match NamespaceByID (NamespaceID entry) with
  | Err err => Ret (Err err)
  | Ok _ =>
      _ ←? (if decide (Parent entry = "") then Ret (Ok tt)
            else
              parent ←? wrapped "failed to lookup parent: %w" (Lookup (Parent entry));
              match parent with
              | None => Ret (Err (ErrBackend "parent token not found"))
              | Some parent =>
                  match NamespaceByID (NamespaceID parent) with
                  | Err err => Ret (Err err)
                  | Ok _ =>
                      wrapped "failed to persist entry: %w" (checked (Put parentView (Some (mkEntry
                        (token_SaltID (Parent entry) +:+ "/" +:+ token_SaltID (ID entry)) NotJSON))))
                  end
              end);
      store_primary entry
  end.

Definition enc_accessor (token accessor ns : string) : value :=
  VObj [("token_id", enc_str token); ("accessor_id", enc_str accessor); ("namespace_id", enc_str ns)].

Definition createAccessor (entry : TokenEntry) : prog srvE (res TokenEntry) :=
  accessor ←? on_tok RandomID;
  match NamespaceByID (NamespaceID entry) with
  | Err err => Ret (Err err)
  | Ok _ =>
      _ ←? wrapped "failed to persist accessor index entry: %w"
             (checked (Put accessorView (Some (mkEntry (token_SaltID accessor)
                (Doc (enc_accessor (ID entry) accessor (NamespaceID entry)))))));
      Ret (Ok (set_identity (Type_ entry) (ID entry) (ExternalID entry) accessor (CubbyholeID entry) entry))
  end.

(** [GenerateSSCTokenID]; what is signed and encoded is given by an effect,
    and is nothing if that fails. *)
Definition GenerateSSCTokenID (innerToken : string) (te : TokenEntry) : prog srvE string :=
  let prepend t := if HasPrefix t ServiceTokenPrefix then t else ServiceTokenPrefix +:+ t in
  if DisableSSCTokens c || IsRoot te then Ret (prepend innerToken)
  else
    signed ← on_tok (SignToken innerToken);
    Ret (prepend (default innerToken signed)).

Definition custom_id_error (id : string) : option goerr :=
  if HasPrefix id ServiceTokenPrefix then Some (ErrBackend "custom token ID cannot have the 'hvs.' prefix")
  else if HasPrefix id LegacyServiceTokenPrefix then
    Some (ErrBackend "custom token ID cannot have the 's.' prefix")
  else if Contains id "." then Some (ErrBackend "custom token ID cannot have a '.' in the value")
  else None.

Definition create_service (entry : TokenEntry) : prog srvE (res TokenEntry) :=
  let type_ := if decide (Type_ entry = TokenTypeDefault) then TokenTypeService else Type_ entry in
  let userSelectedID := negb (bool_decide (ID entry = "")) in
  id ←? (if userSelectedID then
           Ret (match (if decide (type_ = TokenTypeEnt) then None else custom_id_error (ID entry)) with
                | Some err => Err err
                | None => Ok (ID entry)
                end)
         else
           id ←? on_tok RandomID;
           Ret (Ok ((if DisableSSCTokens c then LegacyServiceTokenPrefix else ServiceTokenPrefix) +:+ id)));
  cubbyhole ←? (if (IsServiceToken id || HasPrefix id EnterpriseTokenPrefix)
                   && bool_decide (CubbyholeID entry = "")
                then on_tok RandomID else Ret (Ok (CubbyholeID entry)));
  let entry := set_identity type_ id (ExternalID entry) (Accessor entry) cubbyhole entry in
  exist ← (if userSelectedID || bool_decide (type_ = TokenTypeEnt)
           then lookupInternal id false true else Ret (Ok None));
  match exist with
  | Ok (Some _) => Ret (Err (ErrBackend "cannot create a token with a duplicate ID"))
  | _ =>
      entry ←? createAccessor entry;
      _ ←? store_with_index entry;
      external ← (if negb userSelectedID && negb (DisableSSCTokens c)
                  then GenerateSSCTokenID id entry else Ret id);
      Ret (Ok (set_identity type_ id external (Accessor entry) cubbyhole entry))
  end.

Definition create_batch (entry : TokenEntry) : prog srvE (res TokenEntry) :=
  bEntry ←? on_tok (EncryptBatch (set_ID "" entry));
  old ←? Ret (before_1_10 c);
  let prefix := if DisableSSCTokens c || old then LegacyBatchTokenPrefix else BatchTokenPrefix in
  Ret (Ok (set_ID (prefix +:+ bEntry) entry)).

Definition create (entry : TokenEntry) : prog srvE (res TokenEntry) :=
  match NamespaceByID (NamespaceID entry) with
  | Err err => Ret (Err err)
  | Ok tokenNS =>
      let entry := set_Policies (SanitizePolicies (Policies entry) false) entry in
      _ ←? (if decide (InlinePolicy entry = "") then Ret (Ok tt)
            else
              clock ← trigger (OnCore Now);
              Ret (match ParseACLPolicyCheckDuplicates clock tokenNS (InlinePolicy entry) with
                   | Ok _ => Ok tt
                   | Err _ => Err (ErrBackend "failed to parse inline policy for token entry: %v")
                   end));
      if bool_decide (Type_ entry ∈ [TokenTypeDefault; TokenTypeService; TokenTypeEnt]) then
        create_service entry
      else if decide (Type_ entry = TokenTypeBatch) then create_batch entry
      else Ret (Err (ErrBackend "cannot create a token of type %d"))
  end.

Definition rootToken : prog srvE (res TokenEntry) :=
  now ← trigger (OnCore Now);
  create (mk TokenTypeService "" "" "" "" ["root"] "" "auth/token/root" None None "root" 0 (Tpl.Unix now)
            0 0 "" 0 "" 0 0 0 "" false [] RootNamespaceID "").

(** ** Revoking *)

(** The token's entry in the index of its parent's children. *)
Definition clear_parent (saltedID : string) (entry : TokenEntry) : prog srvE (res ()) :=
  if decide (Parent entry = "") then Ret (Ok tt)
  else
    let parentNSID := (SplitIDFromString (Parent entry)).2 in
    match (if bool_decide (parentNSID = RootNamespaceID) || bool_decide (parentNSID = "")
           then Ok RootNamespace else NamespaceByID parentNSID) with
    | Err err => Ret (Err (ErrWrap "failed to get parent namespace: %w" err))
    | Ok _ =>
        wrapped "failed to delete entry: %w"
          (checked (Delete parentView (token_SaltID (Parent entry) +:+ "/" +:+ saltedID)))
    end.

Definition clear_accessor (entry : TokenEntry) : prog srvE (res ()) :=
  if decide (Accessor entry = "") then Ret (Ok tt)
  else wrapped "failed to delete entry: %w" (checked (Delete accessorView (token_SaltID (Accessor entry)))).

(** The children keep their entries, without a parent. *)
Definition orphan_child (child : string) : prog srvE (res ()) :=
  let '(child, childNSID) := SplitIDFromString child in
  match (if decide (childNSID = "") then Ok RootNamespace else NamespaceByID childNSID) with
  | Err err => Ret (Err (ErrWrap "failed to get child token: %w" err))
  | Ok _ =>
      entry ←? wrapped "failed to get child token: %w" (lookupInternal child true true);
      _ ←? match entry with
           | None => Ret (Ok tt)
           | Some entry =>
               with_Lock (ID entry)
                 (wrapped "failed to update child token: %w" (store (set_Parent "" entry)))
           end;
      wrapped "failed to delete child entry: %w" (checked (Delete parentView child))
  end.

Definition orphan_children (saltedID : string) : prog srvE (res ()) :=
  children ←? wrapped "failed to scan for children: %w" (List parentView (saltedID +:+ "/"));
  r ← range children () (λ child _,
        r ← orphan_child child;
        Ret (match r with Ok _ => inl () | Err err => inr err end));
  Ret (match r with inl _ => Ok tt | inr err => Err err end).

(** What is revoked with a token, before its entry. *)
Definition revoke_parts (saltedID : string) (entry : TokenEntry) (skipOrphan : bool) : prog srvE (res ()) :=
  _ ←? checked (on_tok (DestroyCubbyhole entry));
  _ ←? checked (on_tok (RevokeByToken entry));
  _ ←? clear_parent saltedID entry;
  _ ←? clear_accessor entry;
  if skipOrphan then Ret (Ok tt) else orphan_children saltedID.

(** The mark that keeps the token from being used. *)
Definition mark_revoked (entry : TokenEntry) : prog srvE (res ()) :=
  if NumUses entry =? tokenRevocationPending then Ret (Ok tt)
  else
    r ← store (set_NumUses tokenRevocationPending entry);
    match r with
    | Ok _ => Ret (Ok tt)
    | Err err => _ ← on_tok (PendingStore (ID entry) false); Ret (Err err)
    end.

Definition revokeInternal (saltedID : string) (skipOrphan : bool) : prog srvE (res ()) :=
  state ← on_tok (PendingLoadOrStore saltedID);
  if bool_decide (state = Some true) then Ret (Ok tt)
  else
    entry ←? lookupInternal saltedID true true;
    match entry with
    | None => Ret (Ok tt)
    | Some entry =>
        _ ←? mark_revoked entry;
        match NamespaceByID (NamespaceID entry) with
        | Err err => Ret (Err err)
        | Ok _ =>
            let entry := set_NumUses tokenRevocationPending entry in
            ret ← (_ ←? revoke_parts saltedID entry skipOrphan;
                   wrapped "failed to delete entry: %w" (checked (Delete idView saltedID)));
            _ ← match ret with
                | Ok _ => on_tok (PendingDelete saltedID)
                | Err _ => on_tok (PendingStore saltedID false)
                end;
            Ret ret
        end
    end.

Definition revokeOrphan (id : string) : prog srvE (res ()) :=
  if decide (id = "") then Ret (Err (ErrBackend "cannot revoke blank token"))
  else revokeInternal (token_SaltID id) false.

(** The children not visited yet; the index entries of the others are
    deleted. *)
Definition unseen_children (saltedID : string) (seen : gset string) (raw : list string)
    : prog srvE (res (list string)) :=
  r ← range raw [] (λ child children,
        if decide (child ∈ seen) then
          err ← Delete parentView (saltedID +:+ "/" +:+ child);
          Ret (match (err : option goerr) with
               | Some err => inr (ErrWrap "failed to delete entry: %w" err)
               | None => inl children
               end)
        else Ret (inl (children ++ [child])));
  Ret (match r with inl children => Ok children | inr err => Err err end).

(** The loop of [revokeTreeInternal]; the top of the stack is the head of the
    list.  [None] is out of fuel. *)
Fixpoint revoke_loop (fuel : nat) (dfs : list string) (seen : gset string)
    : prog srvE (option (res ())) :=
  match dfs, fuel with
  | [], _ => Ret (Some (Ok tt))
  | _, O => Ret None
  | id :: rest, S fuel =>
      let seen := {[id]} ∪ seen in
      let '(saltedID, saltedNSID) := SplitIDFromString id in
      match (if decide (saltedNSID = "") then Ok RootNamespace else NamespaceByID saltedNSID) with
      | Err err => Ret (Some (Err (ErrWrap "failed to find namespace for token revocation: %w" err)))
      | Ok _ =>
          children ← (raw ←? wrapped "failed to scan for children: %w" (List parentView (saltedID +:+ "/"));
                      unseen_children saltedID seen raw);
          match children with
          | Err err => Ret (Some (Err err))
          | Ok [] =>
              r ← wrapped "failed to revoke entry: %w" (revokeInternal saltedID true);
              match r with
              | Err err => Ret (Some (Err err))
              | Ok _ => revoke_loop fuel rest seen
              end
          | Ok children => revoke_loop fuel (rev children ++ id :: rest) seen
          end
      end
  end.

Definition revokeTreeInternal (fuel : nat) (id : string) : prog srvE (option (res ())) :=
  te ← lookupInternal id true true;
  match te with
  | Err err => Ret (Some (Err err))
  | Ok te =>
      match match te with Some te => NamespaceByID (NamespaceID te) | None => Ok RootNamespace end with
      | Err err => Ret (Some (Err err))
      | Ok _ => revoke_loop fuel [id] ∅
      end
  end.

(** [revokeTree], given the token of the lease. *)
Definition revokeTree (fuel : nat) (ClientToken : string) : prog srvE (option (res ())) :=
  if decide (ClientToken = "") then Ret (Some (Err (ErrBackend "cannot tree-revoke blank token")))
  else revokeTreeInternal fuel (token_SaltID ClientToken).

(** ** The endpoints below auth/token *)

Definition revokeCommon (id : string) : prog srvE Resp :=
  te ← Lookup id;
  match te with
  | Err err => Ret (None, Some err)
  | Ok None => Ret (None, None)
  | Ok (Some te) =>
      if decide (Type_ te = TokenTypeBatch) then
        Ret (Some (ErrorResponse "batch tokens cannot be revoked" []), None)
      else
        match NamespaceByID (NamespaceID te) with
        | Err err => Ret (None, Some err)
        | Ok _ =>
            r ← (leaseID ←? on_tok (RevocationLeaseByToken te);
                 checked (on_tok (ExpirationRevoke leaseID)));
            Ret (None, match r with Ok _ => None | Err err => Some err end)
        end
  end.

Definition handleRevokeSelf (ClientToken : string) : prog srvE Resp := revokeCommon ClientToken.

Definition handleRevokeTree (id : string) : prog srvE Resp :=
  if decide (id = "") then Ret (Some (ErrorResponse "missing token ID" []), Some ErrInvalidRequest)
  else revokeCommon id.

Definition handleRevokeOrphan (id : string) : prog srvE Resp :=
  if decide (id = "") then Ret (Some (ErrorResponse "missing token ID" []), Some ErrInvalidRequest)
  else
    te ← Lookup id;
    match te with
    | Err err => Ret (None, Some (ErrWrap "error when looking up token to revoke: %w" err))
    | Ok None => Ret (Some (ErrorResponse "token to revoke not found" []), Some ErrInvalidRequest)
    | Ok (Some te) =>
        if decide (Type_ te = TokenTypeBatch) then
          Ret (Some (ErrorResponse "batch tokens cannot be revoked" []), None)
        else
          r ← revokeOrphan id;
          Ret (match r with
               | Ok _ => (None, None)
               | Err err => (Some (data_response [("error", err_text err)]), Some ErrInvalidRequest)
               end)
    end.
End store.
