(* ===== verification/ServerLogic.v ===== *)
(** * Reasoning about the server

    [wpr p Q w]: the program [p], run alone from [w], ends with a value and a
    state that satisfy [Q].  The rules for the storage below a view hold for
    every environment; with [clean_faults] a storage operation that reports an
    error has had no effect. *)

From S2P Require Import Prelude GoLib GoSplit Storage Core ApprovalTypes ApprovalCore CoreLogic Policy Tokens Server.

Section wpr.
Context {E : Type → Type} {W : Type} {H : Handler E W}.

Definition wpr {A} (p : prog E A) (Q : A → W → Prop) (w : W) : Prop := Q (run p w).1 (run p w).2.

Lemma wpr_ret {A} (a : A) Q w : Q a w → wpr (Ret a) Q w.
Proof. done. Qed.

Lemma wpr_bind {A B} (p : prog E A) (f : A → prog E B) Q w :
  wpr p (λ a w', wpr (f a) Q w') w → wpr (p ≫= f) Q w.
Proof. unfold wpr. by rewrite run_bind. Qed.

Lemma wpr_mono {A} (p : prog E A) (Q Q' : A → W → Prop) w :
  (∀ a w', Q a w' → Q' a w') → wpr p Q w → wpr p Q' w.
Proof. unfold wpr. auto. Qed.

Lemma wpr_trigger {X} (e : E X) Q w : Q (handle e w).1 (handle e w).2 → wpr (trigger e) Q w.
Proof. unfold wpr. by rewrite run_trigger. Qed.

(** The loop rule: an invariant of what is left, the loop state and the
    world. *)
Lemma wpr_range {A S R} (I : list A → S → W → Prop) (Q : S + R → W → Prop)
    (l : list A) s (body : A → S → prog E (S + R)) w :
  I l s w → (∀ s w, I [] s w → Q (inl s) w) →
  (∀ x l s w, I (x :: l) s w →
     wpr (body x s) (λ r w', match r with inl s' => I l s' w' | inr r' => Q (inr r') w' end) w) →
  wpr (range l s body) Q w.
Proof.
  intros Hw Hend Hbody. revert s w Hw. induction l as [|x l IH]; intros s w Hw; [by apply Hend|].
  simpl. apply wpr_bind. eapply wpr_mono; [|by apply Hbody]. intros [s'|r'] w'; [apply IH|done].
Qed.
End wpr.

(** Go's error handling. *)
Lemma wpr_try {E W} {H : Handler E W} {A B} (p : prog E (res A)) (k : A → prog E (res B)) Q w :
  wpr p (λ r w', match r with Ok a => wpr (k a) Q w' | Err err => Q (Err err) w' end) w →
  wpr (try p k) Q w.
Proof. intros Hp. apply wpr_bind. eapply wpr_mono; [|exact Hp]. by intros [a|err] w'. Qed.

Lemma wpr_wrapped {E W} {H : Handler E W} {A} msg (p : prog E (res A)) Q w :
  wpr p (λ r w', Q (match r with Ok a => Ok a | Err err => Err (ErrWrap msg err) end) w') w →
  wpr (wrapped msg p) Q w.
Proof. intros Hp. by apply wpr_bind. Qed.

Lemma wpr_checked {E W} {H : Handler E W} (p : prog E (option goerr)) Q w :
  wpr p (λ r w', Q (match r with None => Ok tt | Some err => Err err end) w') w →
  wpr (checked p) Q w.
Proof. intros Hp. by apply wpr_bind. Qed.

Lemma wpr_lock {E W} {H : Handler E W} {A} (p : prog E A) Q w : wpr p Q w → wpr (locked p) Q w.
Proof. unfold wpr. by rewrite run_locked. Qed.
Lemma wpr_steps {E W} {H : Handler E W} {A} (p : prog E A) Q w : wpr p Q w → wpr (steps p) Q w.
Proof. unfold wpr. by rewrite run_steps. Qed.

(** ** Invariants of interleaved programs

    [safe Inv p Q]: every section of [p] keeps the invariant, whatever the
    other threads did before, and the value returned satisfies [Q]. *)

Section safe.
Context {E : Type → Type} {W : Type} {H : Handler E W} (Inv : W → Prop).

Definition keeps {X} (e : lockE E X) : Prop := ∀ w, Inv w → Inv (handle e w).2.
Definition answer {X} (e : lockE E X) (x : X) : Prop := ∃ w, Inv w ∧ x = (handle e w).1.

Definition safe {A} (p : prog (lockE E) A) (Q : A → Prop) : Prop :=
  obeys (@keeps) (@answer) p Q.

Lemma safe_ret {A} (a : A) Q : Q a → safe (Ret a) Q.
Proof. done. Qed.

Lemma safe_bind {A B} (p : prog (lockE E) A) (f : A → prog (lockE E) B) Q :
  safe p (λ a, safe (f a) Q) → safe (p ≫= f) Q.
Proof. apply obeys_bind. Qed.

Lemma safe_mono {A} (p : prog (lockE E) A) (Q Q' : A → Prop) :
  safe p Q → (∀ a, Q a → Q' a) → safe p Q'.
Proof. apply obeys_mono. Qed.

Lemma safe_locked {A} (p : prog E A) (Q : A → Prop) :
  (∀ w, Inv w → wpr p (λ a w', Inv w' ∧ Q a) w) → safe (locked p) Q.
Proof.
  intros Hp. apply obeys_trigger.
  - intros w Hw. by destruct (Hp w Hw).
  - intros x (w & Hw & ->). by destruct (Hp w Hw).
Qed.

Lemma safe_steps_bind {A B} (p : prog E A) (f : A → prog E B) Q :
  safe (steps p) (λ a, safe (steps (f a)) Q) → safe (steps (p ≫= f)) Q.
Proof.
  unfold safe. induction p as [a|X e k IH]; [done|]. simpl. intros [Hpre Hk].
  split; [done|]. intros x Hx. by apply IH, Hk.
Qed.

Lemma safe_step {X} (e : E X) (Q : X → Prop) :
  (∀ w, Inv w → Inv (handle e w).2 ∧ Q (handle e w).1) → safe (steps (trigger e)) Q.
Proof.
  intros He. apply (safe_locked (trigger e)). intros w Hw. apply wpr_trigger.
  by destruct (He w Hw).
Qed.

Lemma safe_pool {A} (Q : A → Prop) ts w ts' w' :
  rtc pool_step (ts, w) (ts', w') → Forall (λ p, safe p Q) ts → Inv w →
  Forall (λ p, safe p Q) ts' ∧ Inv w'.
Proof. apply obeys_pool. intros X e w0 Hk Hw. split; [by apply Hk|by exists w0]. Qed.

Lemma safe_range {A S R} (I : S → Prop) (Q : R → Prop) (l : list A) s
    (body : A → S → prog (lockE E) (S + R)) :
  I s →
  (∀ x s, x ∈ l → I s → safe (body x s) (λ r, match r with inl s' => I s' | inr r' => Q r' end)) →
  safe (range l s body) (λ r, match r with inl s' => I s' | inr r' => Q r' end).
Proof. apply obeys_range. Qed.
End safe.

(** ** What a program leaves alone *)

Section fixes.
Context {E : Type → Type} {W : Type} {H : Handler E W} {T : Type} (f : W → T).

Definition fixes {A} (p : prog E A) : Prop := ∀ w, f (run p w).2 = f w.

Lemma fixes_wpr {A} (p : prog E A) : (∀ w, wpr p (λ _ w', f w' = f w) w) → fixes p.
Proof. done. Qed.
Lemma wpr_fixes {A} (p : prog E A) Q w : fixes p → wpr p Q w → wpr p (λ a w', f w' = f w ∧ Q a w') w.
Proof. intros Hp HQ. split; [apply Hp|done]. Qed.
Lemma fixes_ret {A} (a : A) : fixes (Ret a).
Proof. done. Qed.
Lemma fixes_bind {A B} (p : prog E A) (k : A → prog E B) :
  fixes p → (∀ a, fixes (k a)) → fixes (p ≫= k).
Proof. intros Hp Hk w. rewrite run_bind. by rewrite Hk, Hp. Qed.
Lemma fixes_try {A B} (p : prog E (res A)) (k : A → prog E (res B)) :
  fixes p → (∀ a, fixes (k a)) → fixes (try p k).
Proof. intros Hp Hk. apply fixes_bind; [done|]. by intros [a|err]. Qed.
Lemma fixes_wrapped {A} msg (p : prog E (res A)) : fixes p → fixes (wrapped msg p).
Proof. intros Hp. by apply fixes_bind. Qed.
Lemma fixes_checked (p : prog E (option goerr)) : fixes p → fixes (checked p).
Proof. intros Hp. by apply fixes_bind. Qed.
Lemma fixes_trigger {X} (e : E X) : (∀ w, f (handle e w).2 = f w) → fixes (trigger e).
Proof. intros He w. by rewrite run_trigger. Qed.
Lemma fixes_range {A S R} (l : list A) s (body : A → S → prog E (S + R)) :
  (∀ x s, fixes (body x s)) → fixes (range l s body).
Proof.
  intros Hb. revert s. induction l as [|x l IH]; intros s; [done|]. cbn [range].
  apply fixes_bind; [done|]. by intros [s'|r].
Qed.
End fixes.

Lemma fixes_steps {E W} {H : Handler E W} {T} (f : W → T) {A} (p : prog E A) : fixes f p → fixes f (steps p).
Proof. intros Hp w. rewrite run_steps. apply Hp. Qed.
Lemma fixes_locked {E W} {H : Handler E W} {T} (f : W → T) {A} (p : prog E A) : fixes f p → fixes f (locked p).
Proof. intros Hp w. rewrite run_locked. apply Hp. Qed.

(** ** The storage below a view of the system *)

Lemma set_core_id s : set_core (s_core s) s = s.
Proof. by destruct s. Qed.

Definition sys_key (sub k : string) : string := systemBarrierPrefix +:+ sub +:+ k.

Lemma sys_key_inj sub k1 k2 : sys_key sub k1 = sys_key sub k2 → k1 = k2.
Proof. intros Hk. by do 2 apply str_app_inj_l in Hk. Qed.

Definition sys_view (c : Core) (sub : string) : Storage coreE blob :=
  barrier_storage (barrier_SubView (systemBarrierView c) sub).

(** [s'] is [s] but for the number of effects. *)
Definition same (s s' : Server) : Prop := ∃ w, ro (s_core s) w ∧ s' = set_core w s.

#[export] Instance same_preorder : PreOrder same.
Proof.
  split.
  - intros s. exists (s_core s). by rewrite set_core_id.
  - intros s1 s2 s3 (w1 & H1 & ->) (w2 & H2 & ->). exists w2. split; [by etrans|]. by destruct s1.
Qed.

(** The physical backend below the barrier. *)
Definition disk (s : Server) : Inmem.t blob := w_phys (s_core s).

Lemma disk_store s s' : disk s' = disk s → s_store s' = s_store s.
Proof. unfold disk, s_store, w_store. by intros ->. Qed.
Lemma same_disk s s' : same s s' → disk s' = disk s.
Proof. by intros (w & [Hw _ _ _] & ->). Qed.
Lemma same_store s s' : same s s' → s_store s' = s_store s.
Proof. intros Hs. by apply disk_store, same_disk. Qed.
Lemma same_tokenPolicies s s' : same s s' → s_tokenPolicies s' = s_tokenPolicies s.
Proof. by intros (w & Hw & ->). Qed.
Lemma same_types s s' : same s s' → s_types s' = s_types s.
Proof. by intros (w & Hw & ->). Qed.
Lemma same_pending s s' : same s s' → s_pending s' = s_pending s.
Proof. by intros (w & Hw & ->). Qed.
Lemma same_audit s s' : same s s' → s_audit s' = s_audit s.
Proof. by intros (w & Hw & ->). Qed.
Lemma same_tick s : same s (s_tick s).
Proof. exists (tick (s_core s)). by split. Qed.
Lemma same_ro s w : ro (s_core s) w → same s (set_core w s).
Proof. intros Hw. by exists w. Qed.
#[export] Hint Resolve same_tick same_ro : core.

(** [s'] is [s] with the entries [m] stored. *)
Definition with_store (m : gmap string blob) (s s' : Server) : Prop := same (set_store m s) s'.

Lemma with_store_store m s s' : with_store m s s' → s_store s' = m.
Proof. intros Hs. by rewrite (same_store _ _ Hs). Qed.

Definition clean_faults (env : SEnv) : Prop := ∀ n, env_fault (on_core env) n ≠ FailedApplied.

Section storage.
Context `{RadixTree} (env : SEnv) (c : Core) (sub : string).
#[local] Instance storage_handler : Handler srvE Server := srv_handler env.
Implicit Types (s : Server).

Lemma wpr_of_core {A} (p : prog coreE A) Q s :
  wp (on_core env) p (λ a w, Q a (set_core w s)) (s_core s) → wpr (of_core p) Q s.
Proof. unfold wpr, wp, storage_handler. by rewrite run_of_core. Qed.

Lemma expand k : ExpandKey (bstorage (barrier_SubView (systemBarrierView c) sub)) k = sys_key sub k.
Proof. done. Qed.

Lemma truncate k : TruncateKey (bstorage (barrier_SubView (systemBarrierView c) sub)) (sys_key sub k) = k.
Proof. rewrite <-expand. apply TrimPrefix_app. Qed.

(** A read answers what is stored, or fails if the storage may. *)
Definition readable k s : Prop :=
  SanityCheck k = None ∧ (∀ n, env_fault (on_core env) n = Done) ∧ Inmem.failGet (disk s) = false.

Lemma wpr_Get k Q s :
  (∀ r s', same s s' →
     match r with
     | Ok o => o = mkEntry k <$> s_store s !! sys_key sub k
     | Err _ => ¬ readable k s
     end → Q r s') →
  wpr (Get (server_storage (sys_view c sub)) k) Q s.
Proof.
  intros HQ. apply wpr_of_core. simpl. unfold view_Get.
  destruct (SanityCheck k) as [err|] eqn:Hk.
  { apply wp_ret, HQ; [by apply same_ro|]. intros [? _]. congruence. }
  rewrite expand. apply wp_bind. unfold wp at 1. simpl. unfold Inmem.GetInternal.
  assert (same s (set_core (tick (s_core s)) s)) as Hs by (by apply same_ro).
  destruct (env_fault (on_core env) (w_tick (s_core s))) eqn:Hf.
  2,3: apply HQ; [done|]; intros (_ & Hd & _); by rewrite Hd in Hf.
  destruct (Inmem.failGet (w_phys (s_core s))) eqn:Hg.
  { apply HQ; [done|]. intros (_ & _ & Hr). unfold disk in Hr. congruence. }
  simpl. unfold s_store, w_store in HQ.
  destruct (Inmem.root (w_phys (s_core s)) !! sys_key sub k) as [b|]; simpl; apply wp_ret, HQ; try done.
  simpl. by rewrite truncate.
Qed.

(** A write that takes effect or does not; see [wrote]. *)
Definition written (err : option goerr) (m : gmap string blob) s s' : Prop :=
  match err with
  | None => with_store m s s'
  | Some _ => same s s' ∨ (¬ clean_faults env ∧ with_store m s s')
  end.

Lemma written_result o (r : option Inmem.err * Inmem.t blob) m Q s :
  (o = FailedApplied → ¬ clean_faults env) →
  (r.1 = None → r.2 = Inmem.set_root m (w_phys (s_core s))) → (is_Some r.1 → r.2 = w_phys (s_core s)) →
  (∀ err s', written err m s s' → Q err s') →
  Q (write_result o r (s_core s)).1 (set_core (write_result o r (s_core s)).2 s).
Proof.
  intros Ho Hok Herr HQ.
  assert (same s (set_core (tick (s_core s)) s)) as Hs by (by apply same_ro).
  assert (same s (set_core (set_phys (w_phys (s_core s)) (tick (s_core s))) s)) as Hs'
    by (apply same_ro; by split).
  assert (with_store m s (set_core (set_phys (Inmem.set_root m (w_phys (s_core s))) (tick (s_core s))) s)) as Hw
    by (eexists; split; [|by destruct s]; by split).
  destruct r as [[e|] i]; simpl in *.
  - rewrite Herr by done. destruct o; apply HQ; by left.
  - rewrite Hok by done. destruct o; apply HQ; [done|by left|right; auto].
Qed.

Lemma wpr_Put k b Q s :
  (∀ err s', written err (<[sys_key sub k := b]> (s_store s)) s s' → Q err s') →
  wpr (Put (server_storage (sys_view c sub)) (Some (mkEntry k b))) Q s.
Proof.
  intros HQ. apply wpr_of_core. simpl. unfold barrier_Put.
  assert (same s (set_core (s_core s) s)) as Hs by (by apply same_ro).
  destruct (core_readOnly c) as [e|]; [apply wp_ret, HQ; by left|].
  unfold view_Put. cbn [Key Value]. destruct (SanityCheck k) as [err|]; [apply wp_ret, HQ; by left|].
  rewrite expand. apply wp_trigger. simpl. refine (written_result _ _ _ Q s _ _ _ HQ).
  - intros Hf Hc. by apply (Hc (w_tick (s_core s))).
  - unfold Inmem.PutInternal. by repeat case_match.
  - unfold Inmem.PutInternal. repeat case_match; simpl; intros [? ?]; done.
Qed.

Lemma wpr_Delete k Q s :
  (∀ err s', written err (delete (sys_key sub k) (s_store s)) s s' → Q err s') →
  wpr (Delete (server_storage (sys_view c sub)) k) Q s.
Proof.
  intros HQ. apply wpr_of_core. simpl. unfold barrier_Delete. simpl readOnlyErr.
  assert (same s (set_core (s_core s) s)) as Hs by (by apply same_ro).
  destruct (core_readOnly c) as [e|]; [apply wp_ret, HQ; by left|].
  unfold view_Delete. destruct (SanityCheck k) as [err|]; [apply wp_ret, HQ; by left|].
  rewrite expand. apply wp_trigger. simpl. refine (written_result _ _ _ Q s _ _ _ HQ).
  - intros Hf Hc. by apply (Hc (w_tick (s_core s))).
  - unfold Inmem.DeleteInternal. by repeat case_match.
  - unfold Inmem.DeleteInternal. repeat case_match; simpl; intros [? ?]; done.
Qed.

(** A deletion on storage that works. *)
Definition deletable k s : Prop :=
  SanityCheck k = None ∧ (∀ n, env_fault (on_core env) n = Done) ∧
  Inmem.failDelete (disk s) = false ∧ core_readOnly c = None.

Lemma wpr_Delete_works k Q s :
  deletable k s →
  (∀ s', with_store (delete (sys_key sub k) (s_store s)) s s' → Q None s') →
  wpr (Delete (server_storage (sys_view c sub)) k) Q s.
Proof.
  intros (Hk & Hf & Hd & Hro) HQ. apply wpr_of_core. simpl. unfold barrier_Delete. simpl readOnlyErr.
  rewrite Hro. unfold view_Delete. rewrite Hk, expand. apply wp_trigger. simpl.
  unfold Inmem.DeleteInternal. unfold disk in Hd. rewrite Hf, Hd. apply HQ.
  eexists. split; [|by destruct s]. by split.
Qed.

Lemma wpr_now Q s :
  (∀ s', same s s' → Q (env_clock (on_core env) (w_tick (s_core s))) s') → wpr (trigger (OnCore Now)) Q s.
Proof. intros HQ. apply wpr_trigger, HQ. by apply same_ro. Qed.
End storage.
