(* ===== verification/TokenFacts.v ===== *)
(** * The entries of tokens

    The round trip of an entry through its encoding, and the rules of the
    token store's effects. *)

From S2P Require Import Prelude GoLib GoSplit Utf8 Storage StorageFacts Core ApprovalTypes ApprovalJson ApprovalCore CoreLogic Router Routing Templating Policy Acl Tokens Server PolicyStore TokenStore ServerLogic.
Import Token.

(** ** Encoding *)

Definition utf8 (s : string) : Prop := valid_utf8 s = s.
Definition utf8_map (m : option (gmap string string)) : Prop :=
  ∀ m', m = Some m' → map_Forall (λ k v, utf8 k ∧ utf8 v) m'.

(** An entry that the encoding gives back. *)
Record wf_token `{Sockaddr} (te : TokenEntry) : Prop := {
  wf_type : 0 ≤ Type_ te ≤ 9;
  wf_external : ExternalID te = "";
  wf_strings : Forall utf8 [ID te; Accessor te; Parent te; InlinePolicy te; Path te; DisplayName te; Role te;
                            DisplayNameDeprecated te; EntityID te; NamespaceID te; CubbyholeID te];
  wf_policies : Forall utf8 (Policies te);
  wf_cidrs : Forall (λ a, utf8 a ∧ NewSockAddr a = Some a) (BoundCIDRs te);
  wf_meta : utf8_map (Meta te) ∧ utf8_map (InternalMeta te);
  wf_ints : Forall (λ z, int64_ok z = true)
              [NumUses te; CreationTime te; TTL te; ExplicitMaxTTL te; Period te; NumUsesDeprecated te;
               CreationTimeDeprecated te; ExplicitMaxTTLDeprecated te];
}.

Lemma utf8_list l : Forall utf8 l → valid_utf8 <$> l = l.
Proof. induction 1 as [|s l Hs _ IH]; [done|]. by rewrite fmap_cons, Hs, IH. Qed.

Lemma dec_strs_member o k l : Forall utf8 l → assoc k o = Some (enc_strs l) → dec_list dec_str_elem o k = Ok l.
Proof.
  intros Hl Ho. etrans; [by apply (dec_list_member _ _ dec_str_elem enc_str valid_utf8)|].
  by rewrite utf8_list.
Qed.

Lemma dec_strmap_member o k m :
  utf8_map m → assoc k o = Some (enc_strmap m) → dec_map dec_str_elem o k = Ok m.
Proof.
  intros Hm Ho. unfold dec_map. rewrite Ho. destruct m as [m|]; [|done]. simpl.
  specialize (Hm m eq_refl).
  assert (prod_map valid_utf8 enc_str <$> map_to_list m = prod_map id VStr <$> map_to_list m) as ->.
  { apply list_fmap_ext. intros i [k' v'] Hi. apply list_elem_of_lookup_2, elem_of_map_to_list in Hi.
    destruct (Hm k' v' Hi) as [Hk Hv]. unfold prod_map, enc_str. simpl in *. by rewrite Hk, Hv. }
  rewrite (mapR_pairs dec_str_elem VStr) by done. simpl. by rewrite list_to_map_to_list.
Qed.

Section encoding.
Context `{Sockaddr}.

Lemma dec_addr_member o k l :
  Forall (λ a, utf8 a ∧ NewSockAddr a = Some a) l → assoc k o = Some (enc_strs l) →
  dec_list dec_addr o k = Ok l.
Proof.
  intros Hl Ho. unfold dec_list. rewrite Ho. clear Ho. unfold enc_strs.
  induction Hl as [|a l [Ha Hn] _ IH]; [done|]. rewrite fmap_cons. cbn [mapR].
  assert (dec_addr (enc_str a) = Ok a) as ->; [|simpl; by rewrite IH].
  unfold enc_str. rewrite Ha. simpl. by rewrite Hn.
Qed.

Lemma dec_bool_member o k b : assoc k o = Some (VBool b) → dec_bool o k = Ok b.
Proof. unfold dec_bool. by intros ->. Qed.

Lemma dec_string_utf8 o k s : utf8 s → assoc k o = Some (enc_str s) → dec_string o k = Ok s.
Proof. intros Hs Ho. rewrite (dec_string_member _ _ s Ho). by rewrite Hs. Qed.

Ltac token_field :=
  eapply bind_ok;
  [ first [ eapply dec_string_utf8; [|reflexivity]; done
          | apply dec_int_member; [reflexivity|done]
          | apply dec_bool_member; reflexivity
          | eapply dec_strmap_member; [|reflexivity]; done
          | eapply dec_strs_member; [|reflexivity]; done
          | eapply dec_addr_member; [|reflexivity]; done ]
  | cbv beta ].

(** What is stored of a token is read back. *)
Lemma dec_enc_token te : wf_token te → dec_token (enc_token te) = Ok te.
Proof.
  intros [Ht He Hs Hp Hc [Hm Him] Hz]. rewrite !Forall_cons in Hs. rewrite !Forall_cons in Hz.
  destruct Hs as (?&?&?&?&?&?&?&?&?&?&?&_). destruct Hz as (?&?&?&?&?&?&?&?&_).
  unfold enc_token, dec_token. eapply bind_ok.
  { unfold dec_TokenType. cbn [assoc]. rewrite decide_True by done.
    rewrite (proj2 (andb_true_iff _ _)); [done|]. rewrite !Z.leb_le. lia. }
  cbv beta. do 24 token_field. destruct te; simpl in *; by subst.
Qed.

(** The identifier survives in any case, if it is valid. *)
Lemma dec_enc_ID te te' : dec_token (enc_token te) = Ok te' → ID te' = valid_utf8 (ID te).
Proof.
  intros Hd. unfold enc_token, dec_token in Hd. apply bind_inv in Hd as (ty & _ & Hd).
  eapply eq_trans; [|reflexivity]. revert Hd.
  set (o := ("type", _) :: _). assert (dec_string o "id" = Ok (valid_utf8 (ID te))) as -> by reflexivity.
  clearbody o. simpl. intros Hd. do 23 apply bind_inv in Hd as (? & _ & Hd). by injection Hd as <-.
Qed.
End encoding.

(** ** Salted identifiers *)

(** Neither a dot nor a slash. *)
Definition plain (s : string) : Prop := Index s "." = None ∧ Index s "/" = None.

Lemma plain_app s t : plain s → plain t → plain (s +:+ t).
Proof. intros [? ?] [? ?]. split; by apply Index_char_app. Qed.

Lemma plain_hex bs : plain (hex_EncodeToString bs).
Proof.
  assert (∀ n, plain (hex_digit n)) as Hd.
  { intros n. unfold hex_digit. set (l := [_; _; _; _; _; _; _; _; _; _; _; _; _; _; _; _]).
    assert (Forall plain l) as Hl by (by repeat constructor). destruct (l !! N.to_nat n) as [d|] eqn:Hn; [|done].
    by apply (Forall_lookup_1 _ _ _ _ Hl Hn). }
  induction bs as [|b bs IH]; [done|]. simpl. by repeat apply plain_app.
Qed.

Lemma plain_salted `{Crypto} `{TokenCrypto} c id : plain (token_SaltID c id).
Proof.
  unfold token_SaltID. destruct (negb _); [apply plain_hex|]. apply plain_app; [done|apply plain_hex].
Qed.

Lemma plain_prefix s p : plain s → Index p "." ≠ None → HasPrefix s p = false.
Proof.
  intros [Hs _] Hp. destruct (HasPrefix s p) eqn:Hh; [|done]. apply HasPrefix_spec in Hh as [r ->].
  by apply Index_char_app in Hs as [? _].
Qed.

Lemma no_dot_sane s : Index s "." = None → SanityCheck s = None.
Proof.
  intros Hd. unfold SanityCheck, Contains. rewrite bool_decide_eq_false_2; [done|].
  intros [n Hn%Index_Some]. rewrite Hn in Hd. apply Index_char_app in Hd as [_ Hd].
  by apply Index_char_app in Hd as [? _].
Qed.

Lemma plain_key_sane s : plain s → SanityCheck s = None.
Proof. intros [? _]. by apply no_dot_sane. Qed.

Lemma plain_path_sane x y : plain x → plain y → SanityCheck (x +:+ "/" +:+ y) = None.
Proof. intros [? _] [? _]. apply no_dot_sane. rewrite !Index_char_app. done. Qed.

Lemma plain_not_batch s : plain s → IsBatchToken s = false.
Proof. intros Hs. unfold IsBatchToken. by rewrite !plain_prefix. Qed.

Lemma plain_split s : plain s → SplitIDFromString s = (s, "").
Proof.
  intros Hs. unfold SplitIDFromString. rewrite !plain_prefix by done. destruct Hs as [Hd Hl].
  assert (∀ sep, Index s sep = None → LastCut sep s = None) as Hcut.
  { intros sep He. unfold LastCut. destruct (String.length s); [done|]. cbn [cut_last]. by rewrite He. }
  rewrite Hcut by done. unfold split_dot. by rewrite Hcut.
Qed.

(** The names below a token in the index of children. *)
Definition index_key (key : string) : Prop := ∃ x y, key = x +:+ "/" +:+ y ∧ plain x ∧ plain y.

Lemma str_cut_unique x x' t t' :
  Index x "/" = None → Index x' "/" = None → x +:+ "/" +:+ t = x' +:+ "/" +:+ t' → x = x' ∧ t = t'.
Proof.
  revert x'. induction x as [|a x IH]; intros [|b x'] Hx Hx' He.
  - injection He as He. by split.
  - injection He as <- _. by rewrite Index_char_cons, decide_True in Hx'.
  - injection He as -> _. by rewrite Index_char_cons, decide_True in Hx.
  - injection He as -> He. rewrite Index_char_cons in Hx, Hx'. case_decide; [done|].
    apply fmap_None in Hx, Hx'. by destruct (IH x' Hx Hx' He) as [-> ->].
Qed.

Lemma child_plain s : Index s "/" = None → child s = s.
Proof. unfold child. by intros ->. Qed.

Lemma index_child x rest :
  plain x → index_key ((x +:+ "/") +:+ rest) → plain rest ∧ child rest = rest.
Proof.
  intros Hx (x' & y & He & Hx' & Hy). rewrite str_app_assoc in He.
  apply str_cut_unique in He as [-> ->]; [|by apply Hx|by apply Hx'].
  split; [done|]. by apply child_plain, Hy.
Qed.
