(* ===== verification/TokenUses.v ===== *)
(** * A token is not used more often than it may be

    The judgement [J g p Q] says what a thread does to the count of one token:
    [g] tells whether the thread holds the token's lock, what count it has
    seen under it, and whether it has spent a use.  Only a thread that holds
    the lock may spend one. *)

From S2P Require Import Prelude GoLib GoSplit Utf8 Storage StorageFacts Core ApprovalTypes ApprovalJson ApprovalCore CoreLogic Router Routing Templating Policy Acl Tokens Server PolicyStore TokenStore ServerLogic TokenFacts.
Import Token.

Variant ghost := Out (spent : bool) | Held (spent : bool) (seen : option Z).
Definition spent (g : ghost) : bool := match g with Out sp | Held sp _ => sp end.
Definition held (g : ghost) : bool := match g with Out _ => false | Held _ _ => true end.
Definition with_seen (m : option Z) (g : ghost) : ghost :=
  match g with Out sp => Out sp | Held sp _ => Held sp m end.

Section uses.
Context `{RadixTree} `{GoTables} `{MapRange} `{Globbing} `{Parseutil} `{HCL} `{!Strsets} `{Sockaddr}
  `{Crypto} `{TokenCrypto} (env : SEnv) (c : Conf) (i0 : string).

Notation "'k0'" := (token_SaltID c i0).
Notation "'L0'" := (LockIndexForKey i0).

(** ** The invariant *)

(** An entry where it belongs. *)
Definition placed (key : string) (te : TokenEntry) : Prop :=
  token_SaltID c (ID te) = key ∧ utf8 (ID te) ∧ IsSSCToken (ID te) = false ∧ IsBatchToken (ID te) = false.

(** The entry of the token, with a count. *)
Definition limited (te : TokenEntry) : Prop :=
  ID te = i0 ∧ wf_token te ∧ persistNeeded te = false ∧ Policies te ≠ [controlGroupPolicyName] ∧ NumUses te ≠ 0.

(** [a] more uses are allowed. *)
Record Inv (a : Z) (s : Server) : Prop := {
  inv_pos : 0 ≤ a;
  inv_placed : ∀ key v te, s_store s !! id_key key = Some (Doc v) → dec_token v = Ok te → placed key te;
  inv_count : ∀ v te, s_store s !! id_key k0 = Some (Doc v) → dec_token v = Ok te → limited te ∧ NumUses te ≤ a;
  inv_index : ∀ key, is_Some (s_store s !! sys_key "token/parent/" key) → index_key key;
}.

Lemma Inv_sub a s s' : s_store s' ⊆ s_store s → Inv a s → Inv a s'.
Proof.
  intros Hs [Hp Hpl Hc Hix]. split; [done|..].
  - intros key v te Hv. by apply (Hpl key v te), (lookup_weaken _ _ _ _ Hv).
  - intros v te Hv. by apply (Hc v te), (lookup_weaken _ _ _ _ Hv).
  - intros key Hk. apply Hix. by eapply lookup_weaken_is_Some.
Qed.

Lemma id_key_inj k1 k2 : id_key k1 = id_key k2 → k1 = k2.
Proof. unfold id_key. intros Hk. by do 3 apply str_app_inj_l in Hk. Qed.

Lemma index_insert m key b key' :
  (<[id_key key := b]> m : gmap string blob) !! sys_key "token/parent/" key' = m !! sys_key "token/parent/" key'.
Proof. by apply lookup_insert_ne. Qed.

Lemma Inv_other a s s' te :
  utf8 (ID te) → IsSSCToken (ID te) = false → IsBatchToken (ID te) = false → token_SaltID c (ID te) ≠ k0 →
  s_store s' = <[id_key (token_SaltID c (ID te)) := Doc (enc_token te)]> (s_store s) → Inv a s → Inv a s'.
Proof.
  intros Hu Hss Hb Hne Hs [Hp Hpl Hc Hix]. split; [done|..]; rewrite Hs.
  - intros key v te'. rewrite lookup_insert_Some. intros [[Hk [= <-]]|[_ Hv]] Hd; [|by eapply Hpl].
    apply id_key_inj in Hk as <-. apply dec_enc_ID in Hd. unfold placed. by rewrite Hd, Hu.
  - intros v te'. rewrite lookup_insert_ne; [apply Hc|]. by intros ?%id_key_inj.
  - intros key. rewrite index_insert. apply Hix.
Qed.

Lemma Inv_here a a' s s' te :
  limited te → IsSSCToken i0 = false → IsBatchToken i0 = false → NumUses te ≤ a' → 0 ≤ a' →
  s_store s' = <[id_key k0 := Doc (enc_token te)]> (s_store s) → Inv a s → Inv a' s'.
Proof.
  intros Hl Hss Hb Hn Ha Hs [Hp Hpl Hc Hix]. pose proof Hl as (Hi & Hw & _).
  split; [done|..]; rewrite Hs.
  - intros key v te'. rewrite lookup_insert_Some. intros [[Hk [= <-]]|[_ Hv]] Hd; [|by eapply Hpl].
    apply id_key_inj in Hk as <-. rewrite dec_enc_token in Hd by done. injection Hd as <-.
    destruct Hw as [_ _ Hst _ _ _ _]. apply Forall_cons in Hst as [Hu _]. unfold placed. by rewrite Hi in *.
  - intros v te'. rewrite lookup_insert_eq. intros [= <-] Hd. rewrite dec_enc_token in Hd by done.
    by injection Hd as <-.
  - intros key. rewrite index_insert. apply Hix.
Qed.

(** ** The judgement *)

(** What a thread may rely on. *)
Definition ok (g : ghost) (a : Z) (s : Server) : Prop :=
  match g with
  | Out _ => True
  | Held _ m => s_locks s !! L0 = Some Writer ∧ ∀ n, m = Some n → n ≤ a
  end.

(** What it may do in a step. *)
Definition moves (g : ghost) (a : Z) (s : Server) (g' : ghost) (a' : Z) (s' : Server) : Prop :=
  match g, g' with
  | Out sp, Out sp' => sp' = sp ∧ a' = a ∧ (s_locks s' !! L0 = Some Writer ↔ s_locks s !! L0 = Some Writer)
  | Out sp, Held sp' m =>
      sp' = sp ∧ m = None ∧ a' = a ∧ s_locks s !! L0 = None ∧ s_locks s' !! L0 = Some Writer
  | Held sp _, Out sp' => sp' = sp ∧ a' = a ∧ s_locks s' !! L0 = None
  | Held sp _, Held sp' m' =>
      s_locks s' !! L0 = Some Writer ∧ (∀ n, m' = Some n → n ≤ a') ∧
      ((sp' = sp ∧ a' = a) ∨ (sp = false ∧ sp' = true ∧ a' = a - 1))
  end.

Fixpoint J {A} (g : ghost) (p : prog srvE A) (Q : ghost → A → Prop) : Prop :=
  match p with
  | Ret r => Q g r
  | Vis e k => ∀ a s, Inv a s → ok g a s → ready e s = true →
      ∃ g' a', moves g a s g' a' (srv_handle env _ e s).2 ∧ Inv a' (srv_handle env _ e s).2 ∧
               J g' (k (srv_handle env _ e s).1) Q
  end.

Lemma J_mono {A} g (p : prog srvE A) (Q Q' : ghost → A → Prop) :
  (∀ g r, Q g r → Q' g r) → J g p Q → J g p Q'.
Proof.
  intros HQ. revert g. induction p as [a|X e k IH]; intros g; [apply HQ|]. simpl.
  intros Hp a s Ha Hok Hr. destruct (Hp a s Ha Hok Hr) as (g' & a' & Hm & Hi & Hk).
  exists g', a'. split_and!; [done..|]. by apply IH.
Qed.

Lemma J_bind {A B} g (p : prog srvE A) (f : A → prog srvE B) Q :
  J g p (λ g' x, J g' (f x) Q) → J g (p ≫= f) Q.
Proof.
  revert g. induction p as [a|X e k IH]; intros g; [done|]. simpl.
  intros Hp a s Ha Hok Hr. destruct (Hp a s Ha Hok Hr) as (g' & a' & Hm & Hi & Hk).
  exists g', a'. split_and!; [done..|]. by apply IH.
Qed.

Lemma J_try {A B} g (p : prog srvE (res A)) (f : A → prog srvE (res B)) Q :
  J g p (λ g' r, match r with Ok x => J g' (f x) Q | Err err => Q g' (Err err) end) → J g (try p f) Q.
Proof. intros Hp. apply J_bind. eapply J_mono; [|exact Hp]. by intros g' [x|err]. Qed.

Lemma J_wrapped {A} g msg (p : prog srvE (res A)) Q :
  J g p (λ g' r, Q g' (match r with Ok a => Ok a | Err err => Err (ErrWrap msg err) end)) →
  J g (wrapped msg p) Q.
Proof. intros Hp. by apply J_bind. Qed.

Lemma J_checked g (p : prog srvE (option goerr)) Q :
  J g p (λ g' r, Q g' (match r with None => Ok tt | Some err => Err err end)) → J g (checked p) Q.
Proof. intros Hp. by apply J_bind. Qed.

(** ** Effects *)

Lemma moves_refl g a s s' : ok g a s → s_locks s' !! L0 = s_locks s !! L0 → moves g a s g a s'.
Proof. intros Hok Hl. destruct g as [sp|sp m]; simpl in *; rewrite Hl; [done|]. destruct Hok. auto. Qed.

(** An effect that takes no lock and removes entries at most. *)
Lemma J_frame {X} g (e : srvE X) Q :
  (∀ s, s_locks (srv_handle env X e s).2 = s_locks s ∧ s_store (srv_handle env X e s).2 ⊆ s_store s) →
  (∀ s, Q g (srv_handle env X e s).1) → J g (trigger e) Q.
Proof.
  intros He HQ a s Ha Hok Hr. destruct (He s) as [Hl Hs]. exists g, a.
  split_and!; [apply moves_refl; [done|by rewrite Hl]|by eapply Inv_sub|apply HQ].
Qed.

Lemma J_once {A} g (p : prog srvE A) Q :
  match p with Ret _ => True | Vis _ k => ∀ x, ∃ r, k x = Ret r end →
  (∀ r, p = Ret r → Q g r) →
  (∀ a s, Inv a s → ok g a s →
     wpr (H:=srv_handler env) p (λ r s', ∃ g' a', moves g a s g' a' s' ∧ Inv a' s' ∧ Q g' r) s) →
  J g p Q.
Proof.
  destruct p as [r|X e k]; [intros _ HQ _; by apply HQ|]. intros Hk _ Hp a s Ha Hok Hr.
  specialize (Hp a s Ha Hok). unfold wpr in Hp. simpl in Hp.
  destruct (Hk (srv_handle env X e s).1) as [r Hret]. simpl. unfold srv_handler, handle in Hp.
  rewrite Hret in Hp |- *. destruct Hp as (g' & a' & Hm & Hi & HQ). by exists g', a'.
Qed.

Lemma same_locks s s' : same s s' → s_locks s' = s_locks s.
Proof. by intros (w & Hw & ->). Qed.

Lemma moves_locks g a s g' a' s1 s2 :
  s_locks s2 !! L0 = s_locks s1 !! L0 → moves g a s g' a' s1 → moves g a s g' a' s2.
Proof. intros Hl. destruct g, g'; simpl; by rewrite Hl. Qed.

Lemma J_Get g sub key Q :
  (∀ err, Q g (Err err)) →
  (∀ a s, Inv a s → ok g a s →
     ∃ g', moves g a s g' a s ∧ Q g' (Ok (mkEntry key <$> s_store s !! sys_key sub key))) →
  J g (Get (server_storage (sys_view (conf_core c) sub)) key) Q.
Proof.
  intros Herr HQ. apply J_once.
  - simpl. unfold view_Get. destruct (SanityCheck key); [done|]. simpl. intros [o|]; simpl; eauto.
  - intros r. simpl. unfold view_Get. destruct (SanityCheck key); [|done]. intros [= <-]. apply Herr.
  - intros a s Ha Hok. apply wpr_Get. intros r s' Hs Hr.
    assert (Inv a s') by (eapply Inv_sub; [|done]; by rewrite (same_store _ _ Hs)).
    pose proof (same_locks _ _ Hs) as Hl. destruct r as [o|err].
    + destruct (HQ a s Ha Hok) as (g' & Hm & HQ'). subst o. exists g', a.
      split_and!; [eapply moves_locks; [|done]; by rewrite Hl|done..].
    + exists g, a. split_and!; [apply moves_refl; [done|by rewrite Hl]|done|apply Herr].
Qed.

Lemma J_Put g sub key b Q :
  (∀ err, Q g (Some err)) →
  (∀ a s s', Inv a s → ok g a s → s_locks s' = s_locks s →
     s_store s' = <[sys_key sub key := b]> (s_store s) →
     ∃ g' a', moves g a s g' a' s' ∧ Inv a' s' ∧ ∀ r, Q g' r) →
  J g (Put (server_storage (sys_view (conf_core c) sub)) (Some (mkEntry key b))) Q.
Proof.
  intros Herr HQ. apply J_once.
  - simpl. unfold barrier_Put, view_Put. simpl. destruct (core_readOnly (conf_core c)); [done|].
    destruct (SanityCheck key); [done|]. simpl. eauto.
  - intros r. simpl. unfold barrier_Put, view_Put. simpl.
    destruct (core_readOnly (conf_core c)); [intros [= <-]; apply Herr|].
    destruct (SanityCheck key); [intros [= <-]; apply Herr|done].
  - intros a s Ha Hok. apply wpr_Put. intros err s' Hw.
    assert (with_store (<[sys_key sub key:=b]> (s_store s)) s s' →
      ∃ g' a', moves g a s g' a' s' ∧ Inv a' s' ∧ Q g' err) as Hdone.
    { intros Hs. destruct (HQ a s s' Ha Hok) as (g' & a' & ? & ? & ?); [|by eapply with_store_store|eauto].
      by apply same_locks in Hs. }
    destruct err as [err|]; [|by apply Hdone]. destruct Hw as [Hs|[_ Hs]]; [|by apply Hdone].
    exists g, a. split_and!; [apply moves_refl; [done|by rewrite (same_locks _ _ Hs)]| |apply Herr].
    eapply Inv_sub; [|done]. by rewrite (same_store _ _ Hs).
Qed.

Lemma J_Delete g sub key Q :
  (∀ r, Q g r) → J g (Delete (server_storage (sys_view (conf_core c) sub)) key) Q.
Proof.
  intros HQ. apply J_once.
  - simpl. unfold barrier_Delete, view_Delete. simpl. destruct (core_readOnly (conf_core c)); [done|].
    destruct (SanityCheck key); [done|]. simpl. eauto.
  - done.
  - intros a s Ha Hok. apply wpr_Delete. intros err s' Hw. exists g, a.
    assert (s_locks s' = s_locks s ∧ s_store s' ⊆ s_store s) as [Hl Hs].
    { assert (same s s' ∨ with_store (delete (sys_key sub key) (s_store s)) s s') as [Hs|Hs].
      { destruct err; [|by right]. destruct Hw as [?|[_ ?]]; auto. }
      - split; [by apply same_locks|]. by rewrite (same_store _ _ Hs).
      - split; [by apply same_locks in Hs|]. rewrite (with_store_store _ _ _ Hs). apply delete_subseteq. }
    split_and!; [apply moves_refl; [done|by rewrite Hl]|by eapply Inv_sub|done].
Qed.

(** The children of a token. *)
Lemma J_children g x Q :
  plain x → (∀ r, (∀ l, r = Ok l → Forall plain l) → Q g r) →
  J g (List (parentView c) (x +:+ "/")) Q.
Proof.
  intros Hx HQ. simpl. unfold view_List. destruct (SanityCheck _); [by apply HQ|].
  intros a s Ha Hok _. exists g, a. split_and!; [by apply moves_refl|by apply (Inv_sub a s)|].
  apply HQ. intros l. simpl. destruct (env_fault _ _); [|done..].
  destruct (Inmem.ListInternal _ _) as [l'|e] eqn:Hl; [|done]. intros [= <-].
  apply list_spec in Hl as [_ Hl]. apply Forall_forall. intros ch (rest & Hr & ->)%Hl.
  destruct (index_child x rest Hx) as [Hp ->]; [|done]. apply (inv_index _ _ Ha).
  exact Hr.
Qed.

Lemma J_now g Q : (∀ t, Q g t) → J g (trigger (OnCore Now)) Q.
Proof. intros HQ. by apply J_frame. Qed.

Lemma J_tok {X} g (e : tokE X) Q : (∀ s, Q g (tok_handle env X e s).1) → J g (on_tok e) Q.
Proof.
  intros HQ. apply J_frame; [|done]. intros s.
  assert (∀ l (m : gmap string blob), foldr (λ k, delete (id_key k)) m l ⊆ m) as Hdel.
  { induction l as [|k l IH]; intros m; [done|]. simpl. etrans; [apply delete_subseteq|apply IH]. }
  destruct e; simpl; try (by split); try (by case_match). split; [done|apply Hdel].
Qed.

(** Locks for readers leave the writers' alone. *)
Lemma J_RLock g j Q : Q g tt → J g (on_lok (RLock j)) Q.
Proof.
  intros HQ a s Ha Hok Hr. exists g, a. split_and!; [|by apply (Inv_sub a s)|done].
  simpl in *. destruct (decide (j = L0)) as [->|Hj].
  - destruct g as [sp|sp m]; [|destruct Hok as [Hw _]; by rewrite Hw in Hr].
    simpl. rewrite lookup_insert_eq. split_and!; [done..|]. by destruct (s_locks s !! L0) as [[]|].
  - apply moves_refl; [done|]. simpl. by rewrite lookup_insert_ne.
Qed.

Lemma J_RUnlock g j Q : Q g tt → J g (on_lok (RUnlock j)) Q.
Proof.
  intros HQ a s Ha Hok Hr. exists g, a. split_and!; [|by apply (Inv_sub a s)|done].
  simpl in *. destruct (decide (j = L0)) as [->|Hj].
  - destruct g as [sp|sp m].
    + simpl. split_and!; [done..|].
      destruct (s_locks s !! L0) as [[[|[|n]]|]|] eqn:Hl; rewrite ?lookup_delete_eq, ?lookup_insert_eq, ?Hl; done.
    + apply moves_refl; [done|]. destruct Hok as [Hw _]. simpl. by rewrite Hw.
  - apply moves_refl; [done|]. simpl.
    destruct (s_locks s !! j) as [[[|[|n]]|]|]; rewrite ?lookup_delete_ne, ?lookup_insert_ne by done; done.
Qed.

Lemma J_with_RLock {A} g key (p : prog srvE A) Q : J g p Q → J g (with_RLock key p) Q.
Proof.
  intros Hp. apply J_bind, J_RLock, J_bind. eapply J_mono; [|exact Hp].
  intros g' r Hr. by apply J_bind, J_RUnlock.
Qed.

Lemma J_with_Lock {A} sp key (p : prog srvE A) Q :
  (LockIndexForKey key = L0 →
     J (Held sp None) p (λ g r, ∃ sp' m, g = Held sp' m ∧ Q (Out sp') r)) →
  (LockIndexForKey key ≠ L0 → J (Out sp) p (λ g r, ∃ sp', g = Out sp' ∧ Q (Out sp') r)) →
  J (Out sp) (with_Lock key p) Q.
Proof.
  intros Hin Hout. destruct (decide (LockIndexForKey key = L0)) as [Hk|Hk].
  - apply J_bind. intros a s Ha _ Hr. exists (Held sp None), a. simpl in Hr. rewrite Hk in Hr.
    split_and!; [|by apply (Inv_sub a s)|].
    { simpl. rewrite Hk, lookup_insert_eq. by destruct (s_locks s !! L0). }
    apply J_bind. eapply J_mono; [|by apply Hin]. intros g r (sp' & m & -> & HQ).
    apply J_bind. intros a2 s2 Ha2 [Hw _] _. exists (Out sp'), a2.
    split_and!; [|by apply (Inv_sub a2 s2)|done]. simpl. rewrite Hk, Hw. simpl. by rewrite lookup_delete_eq.
  - apply J_bind. intros a s Ha _ Hr. exists (Out sp), a. split_and!; [|by apply (Inv_sub a s)|].
    { simpl. by rewrite lookup_insert_ne. }
    apply J_bind. eapply J_mono; [|by apply Hout]. intros g r (sp' & -> & HQ).
    apply J_bind. intros a2 s2 Ha2 _ _. exists (Out sp'), a2. split_and!; [|by apply (Inv_sub a2 s2)|done].
    simpl. destruct (s_locks s2 !! _) as [[]|]; rewrite ?lookup_delete_ne by done; done.
Qed.

(** ** Lookups *)

(** What a lookup finds: a batch token, which has no count, or a stored one. *)
Definition batch (te : TokenEntry) : Prop := NumUses te = 0 ∧ IsBatchToken (ID te) = true.
Definition service (te : TokenEntry) : Prop :=
  placed (token_SaltID c (ID te)) te ∧ (token_SaltID c (ID te) = k0 → limited te).

Context (Hss0 : IsSSCToken i0 = false) (Hb0 : IsBatchToken i0 = false)
  (Hunlimited : ∀ t te, batch_text env t = Ok (Some te) → NumUses te = 0).

Lemma limited_upgrade te : limited te → limited (upgrade te) ∧ NumUses (upgrade te) = NumUses te.
Proof.
  intros (Hi & [Ht He Hs Hp Hc Hm Hz] & Hpn & Hcg & Hn). unfold persistNeeded in Hpn.
  rewrite !orb_false_iff, !negb_false_iff, bool_decide_eq_true, !Z.eqb_eq in Hpn.
  destruct Hpn as [[[Hd Hct] Hmt] Hnu]. destruct te; simpl in *. subst.
  unfold limited, persistNeeded, upgrade. simpl. split_and!; try done.
  split; simpl; try done.
  - case_decide; [done|lia].
  - rewrite !Forall_cons in Hs |- *. destruct Hs as (?&?&?&?&?&?&?&?&?&?&?&_).
    split_and!; try done. by case_decide.
Qed.

Lemma limited_set_NumUses n te :
  limited te → n ≠ 0 → int64_ok n = true → limited (set_NumUses n te).
Proof.
  intros (Hi & [Ht He Hs Hp Hc Hm Hz] & Hpn & Hcg & _) Hn Hok. split_and!; try done.
  split; try done. simpl. rewrite !Forall_cons in Hz |- *. destruct Hz as (?&?&?&?&?&?&?&?&_). done.
Qed.

(** Storing the entry of another token. *)
Lemma J_store_other g te Q :
  placed (token_SaltID c (ID te)) te → token_SaltID c (ID te) ≠ k0 → (∀ r, Q g r) → J g (store c te) Q.
Proof.
  intros (_ & Hu & Hss & Hb) Hne HQ. unfold store. destruct (NamespaceByID _) as [ns|err]; [|apply HQ].
  apply J_wrapped, J_checked, J_Put; [intros err; apply HQ|]. intros a s s' Ha Hok Hl Hs. exists g, a.
  split_and!; [apply moves_refl; [done|by rewrite Hl]| |intros r; apply HQ].
  by apply (Inv_other a s s' te).
Qed.

(** The entry of the token marked, which spends nothing. *)
Lemma J_store_mark g te Q :
  limited te → NumUses te < 0 → (∀ r, Q g r) → J g (store c te) Q.
Proof.
  intros Hl Hn HQ. pose proof Hl as (Hi & _). unfold store.
  destruct (NamespaceByID _) as [ns|err]; [|apply HQ].
  apply J_wrapped, J_checked. unfold store_primary. rewrite Hi.
  apply J_Put; [intros err; apply HQ|]. intros a s s' Ha Hok Hlk Hs. exists g, a.
  split_and!; [apply moves_refl; [done|by rewrite Hlk]| |intros r; apply HQ].
  pose proof (inv_pos _ _ Ha). apply (Inv_here a a s s' te); try done. lia.
Qed.

Lemma J_persist g key entry Q :
  placed key entry → (key = k0 → limited entry) → Q g (Ok tt) → (∀ err, Q g (Err err)) →
  J g (if persistNeeded entry
       then wrapped "failed to persist token upgrade: %w" (store c (upgrade entry)) else Ret (Ok tt)) Q.
Proof.
  intros Hp Hl Hok Herr. destruct (persistNeeded entry) eqn:Hn; [|done].
  pose proof Hp as (Hk & Hrest). apply J_wrapped, J_store_other; simpl; [by rewrite Hk| |].
  - rewrite Hk. intros He. destruct (Hl He) as (_ & _ & Hn' & _). congruence.
  - intros [[]|]; auto.
Qed.

Lemma J_live g key entry tainted :
  placed key entry → (key = k0 → limited entry) →
  J g (live_entry c entry tainted) (λ g' r, g' = g ∧ ∀ te, r = Ok (Some te) → te = upgrade entry).
Proof.
  intros Hp Hl. unfold live_entry.
  destruct (_ && _); [apply J_try, (J_persist _ key); try done; simpl; split; [done|]; by intros te [= <-]|].
  destruct (IsRoot _); [split; [done|]; by intros te [= <-]|].
  destruct (expiration_nil c); [split; [done|]; intros te; by destruct (IsDRSecondary c)|].
  destruct (decide _); [split; [done|]; by intros te [= <-]|].
  apply J_try, J_wrapped, J_tok. intros s. destruct (tok_handle _ _ _ _).1 as [[exp|]|err]; [..|done].
  - apply J_bind, J_now. intros now. apply J_try, (J_persist _ key); try done.
    split; [done|]. intros te. destruct (_ || _); [|done]. by intros [= <-].
  - destruct (perfStandby c); [done|]. destruct (NamespaceByID _); [|done].
    apply J_try, J_tok. intros s'. destruct (tok_handle _ _ _ _).1 as [lease|]; [|done].
    apply J_try, J_checked, J_tok. intros s2. destruct (tok_handle _ _ _ _).1; [done|].
    by apply J_try, (J_persist _ key).
Qed.

Definition seen_count (key : string) (o : option (StorageEntry blob)) : option Z :=
  match o with
  | Some raw => match DecodeJSON dec_token raw with
                | Ok te => if decide (key = k0) then Some (NumUses te) else None
                | Err _ => None
                end
  | None => None
  end.

Lemma with_seen_moves m g a s :
  ok g a s → (∀ n, m = Some n → n ≤ a) → moves g a s (with_seen m g) a s.
Proof. intros Hok Hm. destruct g as [sp|sp m']; [done|]. destruct Hok. simpl. auto. Qed.

(** A stored token: what is found is where it belongs, and its count is the
    one seen. *)
Lemma J_lookup_service g lb id salted tainted :
  IsBatchToken id = false →
  J g (lookup_with c lb id salted tainted) (λ g' r,
    (∃ m, g' = with_seen m g) ∧
    ∀ te, r = Ok (Some te) →
      service te ∧ lookup_key c (inner_id id) salted = Ok (token_SaltID c (ID te)) ∧
      (token_SaltID c (ID te) = k0 → g' = with_seen (Some (NumUses te)) g ∧ (tainted = false → 0 < NumUses te))).
Proof.
  intros Hb. unfold lookup_with. rewrite Hb. apply J_try.
  assert (∃ m, g = with_seen m g) as Hg.
  { destruct g as [sp|sp m]; [by exists None|by exists m]. }
  destruct (lookup_key c (inner_id id) salted) as [key|err]; [|done].
  apply J_try, J_wrapped, (J_Get g "token/id/" key); [done|]. intros a s Ha Hok.
  set (o := mkEntry key <$> _). exists (with_seen (seen_count key o) g).
  assert (∀ entry raw, o = Some raw → DecodeJSON dec_token raw = Ok entry →
    placed key entry ∧ (key = k0 → limited entry ∧ NumUses entry ≤ a)) as Hentry.
  { intros entry raw Ho Hd. unfold o in Ho.
    destruct (s_store s !! sys_key "token/id/" key) as [[v|]|] eqn:Hv;
      [injection Ho as <-|injection Ho as <-; done|done].
    split; [by apply (inv_placed _ _ Ha key v)|]. intros ->. by apply (inv_count _ _ Ha v). }
  split.
  { apply with_seen_moves; [done|]. intros n. unfold seen_count. destruct o as [raw|]; [|done].
    destruct (DecodeJSON dec_token raw) as [te|] eqn:Hd; [|done]. case_decide; [|done].
    intros [= <-]. by apply (Hentry te raw). }
  clearbody o. destruct o as [raw|]; [|by split; [eauto|]].
  destruct (DecodeJSON dec_token raw) as [entry|] eqn:Hd; [|by split; [eauto|]].
  destruct (Hentry entry raw eq_refl Hd) as [Hpl Hlim].
  destruct (NumUses entry <? 0) eqn:Hn; [destruct tainted; [|by split; [eauto|]]|]; cbn [andb negb].
  all: eapply J_mono; [|apply (J_live _ key); [done|by intros ?; apply Hlim]];
    intros g' r [-> Hr]; split; [by eauto|]; intros te Hte; specialize (Hr te Hte) as ->;
    pose proof Hpl as (Hk & Hrest); unfold service; change (ID (upgrade entry)) with (ID entry); rewrite Hk;
    (split_and!; [done| |done|]); [intros Hk0; by apply limited_upgrade, Hlim|];
    intros Hk0; destruct (Hlim Hk0) as [Hl _]; destruct (limited_upgrade entry Hl) as [_ ->];
    (split; [unfold seen_count; rewrite Hd; by rewrite decide_True|]).
  - done.
  - apply Z.ltb_ge in Hn. destruct Hl as (_ & _ & _ & _ & ?). lia.
Qed.

Lemma with_seen_trans m m' g : with_seen m (with_seen m' g) = with_seen m g.
Proof. by destruct g. Qed.

Lemma J_batch g lookup id :
  IsBatchToken id = true →
  (∀ g id, J g (lookup id) (λ g' _, ∃ m, g' = with_seen m g)) →
  J g (batch_with lookup id) (λ g' r, (∃ m, g' = with_seen m g) ∧ ∀ te, r = Ok (Some te) → batch te).
Proof.
  intros Hb Hl. unfold batch_with.
  assert (∃ m, g = with_seen m g) as Hg.
  { destruct g as [sp|sp m]; [by exists None|by exists m]. }
  apply J_try, J_tok. intros s. cbn [tok_handle fst].
  destruct (batch_text env _) as [[te|]|] eqn:Ht; [|by split..].
  assert (batch (set_ID id te)) as Hte by (split; [exact (Hunlimited _ te Ht)|done]).
  apply J_bind, J_now. intros now. destruct (_ <? _); [by split|].
  destruct (decide _); [split; [done|]; by intros te' [= <-]|].
  apply J_try. eapply J_mono; [|apply Hl]. intros g' [[pte|]|] Hg'; [|by split..].
  split; [done|]. by intros te' [= <-].
Qed.

(** Lookups change nothing but what a holder of the lock has seen. *)
Lemma J_Lookup_chain fuel g id :
  J g (Lookup_chain c fuel id) (λ g' r,
    (∃ m, g' = with_seen m g) ∧ ∀ te, r = Ok (Some te) → batch te ∨ service te).
Proof.
  revert g id. induction fuel as [|fuel IH]; intros g id; cbn [Lookup_chain];
    assert (∃ m, g = with_seen m g) as Hg by (destruct g as [sp|sp m]; [by exists None|by exists m]); [done|].
  destruct (decide _); [done|].
  assert (∀ g id, J g (Lookup_chain c fuel id) (λ g' _, ∃ m, g' = with_seen m g)) as Hl.
  { intros g' id'. eapply J_mono; [|apply IH]. by intros ? ? [? _]. }
  destruct (IsBatchToken id) eqn:Hb.
  - eapply J_mono; [|by apply J_batch]. intros g' r [? Hr]. split; [done|]. auto.
  - apply J_with_RLock. eapply J_mono; [|by apply J_lookup_service]. intros g' r [? Hr]. split; [done|].
    intros te Hte. right. by apply Hr.
Qed.

Lemma J_Lookup g id :
  J g (Lookup c id) (λ g' r, (∃ m, g' = with_seen m g) ∧ ∀ te, r = Ok (Some te) → batch te ∨ service te).
Proof. apply J_Lookup_chain. Qed.

Lemma J_lookupInternal g id salted tainted :
  J g (lookupInternal c id salted tainted) (λ g' r,
    (∃ m, g' = with_seen m g) ∧ ∀ te, r = Ok (Some te) → batch te ∨ service te).
Proof.
  unfold lookupInternal. destruct (IsBatchToken id) eqn:Hb.
  - unfold lookup_with. rewrite Hb. eapply J_mono; [|apply J_batch; [done|]].
    + intros g' r [? Hr]. split; [done|]. auto.
    + intros g' id'. eapply J_mono; [|apply J_Lookup_chain]. by intros ? ? [? _].
  - eapply J_mono; [|by apply J_lookup_service]. intros g' r [? Hr]. split; [done|].
    intros te Hte. right. by apply Hr.
Qed.

(** ** Uses *)

Definition used (r : res TokenEntry) : Prop := ∃ te, r = Ok te ∧ ID te = i0.

Lemma lookup_key_unsalted id key : lookup_key c id false = Ok key → key = token_SaltID c id.
Proof.
  unfold lookup_key. destruct (_ || _); [|by intros [= <-]].
  destruct (NamespaceByID _); [|done]. by intros [= <-].
Qed.

(** The use of the token under its lock. *)
Lemma J_decrement te n :
  limited te → n = NumUses te → 0 < n →
  J (Held false (Some n))
    (let te := set_NumUses (if NumUses te =? 1 then tokenRevocationPending else NumUses te - 1) te in
     _ ←? store c te; Ret (Ok te))
    (λ g r, ∃ sp m, g = Held sp m ∧ (used r → sp = true)).
Proof.
  intros Hl -> Hn. cbv zeta. set (n' := if NumUses te =? 1 then tokenRevocationPending else NumUses te - 1).
  assert (n' ≠ 0 ∧ n' ≤ NumUses te - 1 ∧ int64_ok n' = true) as (Hn0 & Hle & Hok).
  { pose proof Hl as (_ & [_ _ _ _ _ _ Hz] & _). apply Forall_cons in Hz as [Hz _].
    unfold int64_ok in *. unfold n', tokenRevocationPending. destruct (Z.eqb_spec (NumUses te) 1); lia. }
  pose proof (limited_set_NumUses n' te Hl Hn0 Hok) as Hl'. pose proof Hl' as (Hi & _).
  apply J_try. unfold store. destruct (NamespaceByID _) as [ns|err].
  2: { exists false, (Some (NumUses te)). split; [done|]. by intros (? & ? & _). }
  apply J_wrapped, J_checked. rewrite Hi. apply (J_Put _ "token/id/").
  { intros err. exists false, (Some (NumUses te)). split; [done|]. by intros (? & ? & _). }
  intros a s s' Ha [Hw Ha'] Hlk Hs. specialize (Ha' _ eq_refl).
  exists (Held true None), (a - 1). split_and!.
  - simpl. rewrite Hlk. split_and!; [done|done|by right].
  - apply (Inv_here a (a - 1) s s' (set_NumUses n' te)); try done; [simpl; lia|lia].
  - intros [err|]; simpl; by exists true, None.
Qed.

Lemma J_UseToken te :
  batch te ∨ service te →
  J (Out false) (UseToken c (Some te)) (λ g r, ∃ sp, g = Out sp ∧ (used r → sp = true)).
Proof.
  intros Hte. unfold UseToken.
  assert (NumUses te = 0 ∨ Policies te = [controlGroupPolicyName] → ID te ≠ i0) as Hfree.
  { intros Hf Hi. destruct Hte as [[_ Hb]|[_ Hl]]; [congruence|]. rewrite Hi in Hl.
    destruct (Hl eq_refl) as (_ & _ & _ & ? & ?). by destruct Hf. }
  destruct (NumUses te =? 0) eqn:Hn.
  { exists false. split; [done|]. intros (te' & [= <-] & Hi). apply Z.eqb_eq in Hn. destruct Hfree; auto. }
  apply Z.eqb_neq in Hn. destruct Hte as [[? _]|[(_ & _ & Hss & Hb) Hl]]; [done|].
  destruct (bool_decide _) eqn:Hcg.
  { apply bool_decide_eq_true in Hcg. exists false. split; [done|].
    intros (te' & [= <-] & Hi). destruct Hfree; auto. }
  assert (inner_id (ID te) = ID te) as Hin by (unfold inner_id; by rewrite Hss).
  apply J_with_Lock; intros HL; apply J_try, J_wrapped;
    (eapply J_mono; [|by apply J_lookup_service]); rewrite Hin; intros g [[te'|]|err] [[m ->] Hr].
  all: try (by eexists _, _; split; [done|]; eexists; split; [done|]; intros (? & ? & _)).
  all: try (by eexists; split; [done|]; eexists; split; [done|]; intros (? & ? & _)).
  all: destruct (Hr te' eq_refl) as ([Hpl' Hl'] & Hkey & Hseen); apply lookup_key_unsalted in Hkey.
  - destruct (decide (token_SaltID c (ID te') = k0)) as [Hk|Hk].
    + destruct (Hseen Hk) as [Hm Hpos]. simpl in Hm |- *. rewrite Hm. eapply J_mono; [|apply J_decrement; auto].
      intros g r (sp & m' & -> & Hu). exists sp, m'. split; [done|]. by exists sp.
    + apply J_try, J_store_other; [done..|]. intros [[]|err]; simpl; eexists _, _; (split; [done|]); exists false;
        (split; [done|]); [|by intros (? & ? & _)]. intros (te2 & [= <-] & Hi). simpl in Hi. by rewrite Hi in Hk.
  - destruct (decide (token_SaltID c (ID te') = k0)) as [Hk|Hk].
    { rewrite Hk in Hkey. destruct (Hl (eq_sym Hkey)) as [Hi _]. by rewrite Hi in HL. }
    apply J_try, J_store_other; [done..|]. intros [[]|err]; simpl; exists false; (split; [done|]); exists false;
      (split; [done|]); [|by intros (? & ? & _)]. intros (te2 & [= <-] & Hi). simpl in Hi. by rewrite Hi in Hk.
Qed.

Lemma J_UseTokenByID id :
  J (Out false) (UseTokenByID c id) (λ g r, ∃ sp, g = Out sp ∧ (used r → sp = true)).
Proof.
  apply J_try. eapply J_mono; [|apply J_Lookup]. intros g [[te|]|err] [[m ->] Hr].
  - apply J_UseToken. by apply Hr.
  - exists false. split; [done|]. by intros (? & ? & _).
  - exists false. split; [done|]. by intros (? & ? & _).
Qed.

(** ** Revocation *)

Lemma J_mark g entry Q : service entry → (∀ r, Q g r) → J g (mark_revoked c entry) Q.
Proof.
  intros [Hpl Hl] HQ. unfold mark_revoked. destruct (_ =? _); [apply HQ|]. apply J_bind.
  assert (∀ r : res (), J g (match r with
                    | Ok _ => Ret (Ok tt)
                    | Err err => _ ← on_tok (PendingStore (ID entry) false); Ret (Err err)
                    end) Q) as Hrest.
  { intros [[]|err]; [apply HQ|]. apply J_bind, J_tok. intros s. apply HQ. }
  destruct (decide (token_SaltID c (ID entry) = k0)) as [Hk|Hk].
  - apply J_store_mark; [by apply limited_set_NumUses; [apply Hl|..]|done|exact Hrest].
  - by apply J_store_other.
Qed.

Lemma J_clear_parent g saltedID entry Q : (∀ r, Q g r) → J g (clear_parent c saltedID entry) Q.
Proof.
  intros HQ. unfold clear_parent. destruct (decide _); [apply HQ|].
  destruct (_ || _); [|destruct (NamespaceByID _); [|apply HQ]].
  all: apply J_wrapped, J_checked, (J_Delete g "token/parent/"); intros [err|]; apply HQ.
Qed.

Lemma J_clear_accessor g entry Q : (∀ r, Q g r) → J g (clear_accessor c entry) Q.
Proof.
  intros HQ. unfold clear_accessor. destruct (decide _); [apply HQ|].
  apply J_wrapped, J_checked, (J_Delete g "token/accessor/"). intros [err|]; apply HQ.
Qed.

Lemma J_revoke_parts g saltedID entry Q : (∀ r, Q g r) → J g (revoke_parts c saltedID entry true) Q.
Proof.
  intros HQ. unfold revoke_parts.
  apply J_try, J_checked, J_tok. intros s1. destruct (tok_handle _ _ _ _).1; [apply HQ|].
  apply J_try, J_checked, J_tok. intros s2. destruct (tok_handle _ _ _ _).1; [apply HQ|].
  apply J_try, J_clear_parent. intros [[]|err]; [|apply HQ].
  apply J_try, J_clear_accessor. intros [[]|err]; apply HQ.
Qed.

Lemma J_revokeInternal sp saltedID Q :
  plain saltedID → (∀ r, Q (Out sp) r) → J (Out sp) (revokeInternal c saltedID true) Q.
Proof.
  intros Hx HQ. unfold revokeInternal. apply J_bind, J_tok. intros s. destruct (bool_decide _); [apply HQ|].
  apply J_try. eapply J_mono; [|by apply J_lookup_service, plain_not_batch].
  intros g [[entry|]|err] [[m ->] Hr]; [|apply HQ..]. destruct (Hr entry eq_refl) as [Hentry _].
  apply J_try, J_mark; [done|]. intros [[]|err]; [|apply HQ].
  destruct (NamespaceByID _); [|apply HQ]. apply J_bind, J_try, J_revoke_parts. intros [[]|err].
  - apply J_wrapped, J_checked, (J_Delete _ "token/id/"). intros [err|]; apply J_bind, J_tok; intros ?; apply HQ.
  - apply J_bind, J_tok. intros ?. apply HQ.
Qed.

Lemma J_unseen sp saltedID seen raw Q :
  Forall plain raw → (∀ l, Forall plain l → Q (Out sp) (Ok l)) → (∀ err, Q (Out sp) (Err err)) →
  J (Out sp) (unseen_children c saltedID seen raw) Q.
Proof.
  intros Hraw Hok Herr. unfold unseen_children. apply J_bind.
  assert (∀ acc, Forall plain acc →
    J (Out sp) (range raw acc (λ child children,
        if decide (child ∈ seen) then
          err ← Delete (parentView c) (saltedID +:+ "/" +:+ child);
          Ret (match (err : option goerr) with
               | Some err => inr (ErrWrap "failed to delete entry: %w" err)
               | None => inl children
               end)
        else Ret (inl (children ++ [child]))))
      (λ g' r, g' = Out sp ∧ match r with inl l => Forall plain l | inr _ => True end)) as Hloop.
  { induction Hraw as [|child raw Hc _ IH]; intros acc Hacc; [done|]. cbn [range]. apply J_bind.
    destruct (decide (child ∈ seen)).
    - apply J_bind, (J_Delete _ "token/parent/"). intros [err|]; [done|]. by apply IH.
    - apply IH, Forall_app. auto. }
  eapply J_mono; [|apply Hloop, Forall_nil_2]. intros g [l|err] [-> Hl]; [by apply Hok|apply Herr].
Qed.

Lemma J_revoke_loop sp fuel dfs seen Q :
  Forall plain dfs → (∀ r, Q (Out sp) r) → J (Out sp) (revoke_loop c fuel dfs seen) Q.
Proof.
  intros Hdfs HQ. revert dfs seen Hdfs. induction fuel as [|fuel IH]; intros [|x dfs] seen Hdfs; try apply HQ.
  apply Forall_cons in Hdfs as [Hx Hdfs]. cbn [revoke_loop]. rewrite (plain_split x Hx).
  rewrite decide_True by done. apply J_bind, J_try, J_wrapped, J_children; [done|].
  intros [raw|err] Hraw; [|apply HQ]. apply J_unseen; [by apply Hraw| |intros err; apply HQ].
  intros [|y l] Hl.
  - apply J_bind, J_wrapped, J_revokeInternal; [done|]. intros [[]|err]; [by apply IH|apply HQ].
  - apply IH, Forall_app. split; [by apply Forall_rev|by constructor].
Qed.

Lemma J_revokeTree sp fuel token Q : (∀ r, Q (Out sp) r) → J (Out sp) (revokeTree c fuel token) Q.
Proof.
  intros HQ. unfold revokeTree. destruct (decide _); [apply HQ|]. unfold revokeTreeInternal.
  apply J_bind. eapply J_mono; [|apply J_lookup_service, plain_not_batch, plain_salted].
  intros g [te|err] [[m ->] _]; [|apply HQ]. destruct (match te with Some te => _ | None => _ end); [|apply HQ].
  apply J_revoke_loop; [|done]. apply Forall_singleton, plain_salted.
Qed.

(** ** All threads together *)

Definition spends (gs : list ghost) : nat := length (filter (λ g, spent g = true) gs).

Lemma spends_insert gs i g g' :
  gs !! i = Some g →
  (spends (<[i:=g']> gs) + Nat.b2n (spent g) = spends gs + Nat.b2n (spent g'))%nat.
Proof.
  unfold spends. revert i. induction gs as [|g0 gs IH]; intros [|i]; simpl; [done..| |].
  - intros [= ->]. rewrite !filter_cons. destruct (spent g), (spent g'); simpl; lia.
  - intros Hi. specialize (IH i Hi). rewrite !filter_cons. destruct (spent g0); simpl; lia.
Qed.

(** At most one thread holds the lock; what is allowed and what is spent make
    up at most [n]. *)
Record Pool {A} (Q : ghost → A → Prop) (n : Z) (gs : list ghost) (a : Z) (ts : list (prog srvE A)) (s : Server)
    : Prop := {
  po_threads : Forall2 (λ g p, J g p Q) gs ts;
  po_inv : Inv a s;
  po_sum : a + Z.of_nat (spends gs) ≤ n;
  po_ok : ∀ i g, gs !! i = Some g → ok g a s;
  po_one : ∀ i j g g', gs !! i = Some g → gs !! j = Some g' → held g = true → held g' = true → i = j;
}.

Lemma held_writer g a s : ok g a s → held g = true → s_locks s !! L0 = Some Writer.
Proof. destruct g; [done|]. by intros [? _]. Qed.

Lemma moves_ok g a s g' a' s' : moves g a s g' a' s' → ok g' a' s'.
Proof. destruct g, g'; simpl; [done| |done|by intros (? & ? & _)]. intros (_ & -> & _ & _ & ?). by split. Qed.

(** The other threads keep what they rely on. *)
Lemma moves_others g a s g' a' s' h :
  moves g a s g' a' s' → ok h a s → (held g = true → held h = false) →
  ok h a' s' ∧ (held g' = true → held h = false).
Proof.
  intros Hm Hh Hone. destruct h as [sp|sp m]; [done|]. destruct g as [spg|spg mg]; [|by specialize (Hone eq_refl)].
  destruct Hh as [Hw Ha]. destruct g' as [sp'|sp' m']; simpl in Hm.
  - destruct Hm as (_ & -> & Hiff). split; [|done]. split; [by apply Hiff|done].
  - destruct Hm as (_ & _ & _ & Hn & _). congruence.
Qed.

Lemma moves_sum g a s g' a' s' :
  moves g a s g' a' s' → a' + Z.of_nat (Nat.b2n (spent g')) = a + Z.of_nat (Nat.b2n (spent g)).
Proof.
  destruct g as [sp|sp m], g' as [sp'|sp' m']; simpl.
  - by intros (-> & -> & _).
  - by intros (-> & _ & -> & _).
  - by intros (-> & -> & _).
  - intros (_ & _ & [[-> ->]|(-> & -> & ->)]); simpl; lia.
Qed.

Lemma Pool_step {A} (Q : ghost → A → Prop) n gs a ts s ts' s' :
  Pool Q n gs a ts s → thread_step env (ts, s) (ts', s') → ∃ gs' a', Pool Q n gs' a' ts' s'.
Proof.
  intros [Hth Hinv Hsum Hok Hone] Hst. inversion Hst as [ts1 s1 i X e k Hi Hr]; subst.
  destruct (Forall2_lookup_r _ _ _ _ _ Hth Hi) as (g & Hg & HJ).
  destruct (HJ a s Hinv (Hok i g Hg) Hr) as (g' & a' & Hm & Hinv' & HJ').
  exists (<[i:=g']> gs), a'. pose proof (lookup_lt_Some _ _ _ Hg) as Hlt.
  assert (∀ j h, gs !! j = Some h → j ≠ i → held g = true → held h = false) as Hfree.
  { intros j h Hj Hne Hhg. destruct (held h) eqn:Hh; [|done]. destruct Hne. by apply (Hone j i h g). }
  split; [by apply Forall2_insert|done|..].
  - pose proof (spends_insert gs i g g' Hg). pose proof (moves_sum _ _ _ _ _ _ Hm). lia.
  - intros j h. destruct (decide (i = j)) as [<-|Hne].
    + rewrite list_lookup_insert_eq by done. intros [= <-]. by eapply moves_ok.
    + rewrite list_lookup_insert_ne by done. intros Hj. eapply moves_others; [done|by eapply Hok|by eapply Hfree].
  - intros j1 j2 h1 h2 H1' H2' Hh1 Hh2.
    assert (∀ j h, (<[i:=g']> gs) !! j = Some h → held h = true → held g' = true → j = i) as Hnew.
    { intros j h Hj Hh Hg'. destruct (decide (i = j)) as [|Hne]; [done|].
      rewrite list_lookup_insert_ne in Hj by done.
      destruct (moves_others _ _ _ _ _ _ h Hm) as [_ Hf]; [by eapply Hok|by eapply Hfree|].
      rewrite Hf in Hh by done. done. }
    destruct (decide (i = j1)) as [<-|Hne1].
    { rewrite list_lookup_insert_eq in H1' by done. injection H1' as <-. symmetry. by eapply Hnew. }
    destruct (decide (i = j2)) as [<-|Hne2].
    { rewrite list_lookup_insert_eq in H2' by done. injection H2' as <-. by eapply Hnew. }
    rewrite list_lookup_insert_ne in H1', H2' by done. by eapply Hone.
Qed.

Lemma Pool_steps {A} (Q : ghost → A → Prop) n ts s ts' s' :
  rtc (thread_step env) (ts, s) (ts', s') →
  (∃ gs a, Pool Q n gs a ts s) → ∃ gs' a', Pool Q n gs' a' ts' s'.
Proof.
  remember (ts, s) as x eqn:Hx. remember (ts', s') as y eqn:Hy. intros Hst. revert ts s Hx.
  induction Hst as [x|x [ts1 s1] z Hstep _ IH]; intros ts s -> (gs & a & Hp).
  - injection Hy as -> ->. eauto.
  - eapply IH; [done..|]. by eapply Pool_step.
Qed.
End uses.
