(* ===== verification/TokenRevoke.v ===== *)
(** * Revocation of tokens, one call at a time

    The rules of the token store on storage that works, what revoking one
    token does to the storage, and the walk over its descendants. *)

From S2P Require Import Prelude GoLib GoSplit Utf8 Storage StorageFacts Core ApprovalTypes ApprovalJson ApprovalCore CoreLogic Router Routing Templating Policy Acl Tokens Server PolicyStore TokenStore ServerLogic TokenFacts TokenUses.
Import Token.

Section revoke.
Context `{RadixTree} `{GoTables} `{MapRange} `{Globbing} `{Parseutil} `{HCL} `{!Strsets} `{Sockaddr}
  `{Crypto} `{TokenCrypto} (env : SEnv) (c : Conf).
#[local] Instance revoke_handler : Handler srvE Server := srv_handler env.

(** ** Storage that works *)

Definition sound_disk (d : Inmem.t blob) : Prop :=
  Inmem.failGet d = false ∧ Inmem.failPut d = false ∧ Inmem.failDelete d = false ∧
  Inmem.failList d = false ∧ Inmem.maxValueSize d ≤ 0.

(** Nothing fails. *)
Definition fault_free : Prop :=
  (∀ n, env_fault (on_core env) n = Done) ∧ core_readOnly (conf_core c) = None.

(** The state, as far as revocation goes: what is stored, and the deletions
    under way. *)
Definition at_ (m : gmap string blob) (p : gmap string bool) (s : Server) : Prop :=
  sound_disk (disk s) ∧ s_store s = m ∧ s_pending s = p.

Context (Hclean : fault_free).

Lemma at_same m p s s' : same s s' → at_ m p s → at_ m p s'.
Proof.
  intros Hs (Hd & Hst & Hp). unfold at_.
  by rewrite (same_disk _ _ Hs), (same_store _ _ Hs), (same_pending _ _ Hs).
Qed.

Lemma at_with_store m m' p s s' : with_store m' s s' → at_ m p s → at_ m' p s'.
Proof. intros Hs (Hd & _ & Hp). apply (at_same _ _ _ _ Hs). by split_and!. Qed.

Lemma at_Get sub k Q m p s :
  at_ m p s → SanityCheck k = None →
  (∀ s', at_ m p s' → Q (Ok (mkEntry k <$> m !! sys_key sub k)) s') →
  wpr (Get (server_storage (sys_view (conf_core c) sub)) k) Q s.
Proof.
  intros Hs Hk HQ. apply wpr_Get. intros r s' Hs' Hr. apply (at_same _ _ _ _ Hs') in Hs as Hat.
  destruct Hs as ((Hg & _) & <- & _). destruct r as [o|err]; [subst o; by apply HQ|].
  destruct Hr. by split_and!; [|apply Hclean|].
Qed.

Lemma at_Put sub k b Q m p s :
  at_ m p s → SanityCheck k = None →
  (∀ s', at_ (<[sys_key sub k := b]> m) p s' → Q None s') →
  wpr (Put (server_storage (sys_view (conf_core c) sub)) (Some (mkEntry k b))) Q s.
Proof.
  intros Hs Hk HQ. destruct Hclean as [Hf Hro]. apply wpr_of_core. simpl. unfold barrier_Put. simpl readOnlyErr.
  rewrite Hro. unfold view_Put. cbn [Key Value]. rewrite Hk.
  apply wp_trigger. simpl.
  pose proof Hs as ((_ & Hp & _ & _ & Hm) & Hst & _). unfold disk in *. unfold Inmem.PutInternal.
  rewrite Hf, Hp, (proj2 (Z.ltb_ge 0 _) Hm). simpl. apply HQ. rewrite <-Hst.
  eapply at_with_store; [|exact Hs]. eexists. split; [|by destruct s]. by split.
Qed.

Lemma at_Delete sub k Q m p s :
  at_ m p s → SanityCheck k = None →
  (∀ s', at_ (delete (sys_key sub k) m) p s' → Q None s') →
  wpr (Delete (server_storage (sys_view (conf_core c) sub)) k) Q s.
Proof.
  intros Hs Hk HQ. apply wpr_Delete_works.
  - destruct Hclean, Hs as ((_ & _ & ? & _) & _). by split_and!.
  - intros s' Hs'. apply HQ. pose proof Hs as (_ & <- & _). by eapply at_with_store.
Qed.

Lemma at_List sub k Q m p s :
  at_ m p s → SanityCheck k = None →
  (∀ l s', NoDup l ∧ (∀ ch, ch ∈ l ↔ ∃ rest, is_Some (m !! (sys_key sub k +:+ rest)) ∧ ch = child rest) →
     at_ m p s' → Q (Ok l) s') →
  wpr (List (server_storage (sys_view (conf_core c) sub)) k) Q s.
Proof.
  intros Hs Hk HQ. destruct Hclean as [Hf _]. apply wpr_of_core. simpl. unfold view_List. rewrite Hk.
  apply wp_trigger. simpl. rewrite Hf. pose proof Hs as ((_ & _ & _ & Hl & _) & Hst & _).
  destruct (Inmem.ListInternal _ _) as [l|e] eqn:He.
  - apply list_spec in He as [Hnd Hl']. apply HQ.
    + split; [done|]. intros ch. rewrite Hl', <-Hst. done.
    + eapply at_same; [|exact Hs]. by apply same_ro.
  - unfold Inmem.ListInternal, disk in *. by rewrite Hl in He.
Qed.

Lemma at_now Q m p s : at_ m p s → (∀ t s', at_ m p s' → Q t s') → wpr (trigger (OnCore Now)) Q s.
Proof. intros Hs HQ. apply wpr_now. intros s' Hs'. eapply HQ, at_same; eauto. Qed.

Lemma at_tick m p s : at_ m p s → at_ m p (s_tick s).
Proof. intros Hs. by apply (at_same _ _ s). Qed.

(** ** One token *)

(** The other parts do as they are asked; every token has a lease. *)
Definition parts_answer : Prop :=
  expiration_nil c = false ∧ (∀ n te, ∃ t, lease_times env n te = Ok (Some t)) ∧
  (∀ n te, destroy_cubbyhole env n te = None) ∧ (∀ n te, revoke_by_token env n te = None).

Definition root_ns (id : string) : Prop := id = "" ∨ id = RootNamespaceID.

(** The entry of a token of the root namespace, in the form of today. *)
Definition current (x : string) (te : TokenEntry) : Prop :=
  token_SaltID c (ID te) = x ∧ persistNeeded te = false ∧ root_ns (NamespaceID te) ∧
  root_ns (SplitIDFromString (Parent te)).2.

(** What is stored by identifier are such entries. *)
Definition tidy (m : gmap string blob) : Prop :=
  ∀ x b, plain x → m !! id_key x = Some b → ∃ v te, b = Doc v ∧ dec_token v = Ok te ∧ current x te.

Context (Hparts : parts_answer).

Lemma root_ns_known id : root_ns id → NamespaceByID (if decide (id = "") then RootNamespaceID else id) = Ok RootNamespace.
Proof. by intros [-> | ->]. Qed.

Lemma at_live te tainted Q m p s :
  at_ m p s → persistNeeded te = false →
  (∀ o s', at_ m p s' → (o = Some (upgrade te) ∨ o = None ∧ tainted = false) → Q (Ok o) s') →
  wpr (live_entry c te tainted) Q s.
Proof.
  intros Hs Hn HQ. destruct Hparts as (He & Hl & _). unfold live_entry. rewrite Hn, He.
  destruct (_ && _); [by apply wpr_try, wpr_ret, HQ; [|left]|]. destruct (IsRoot _); [by apply HQ; [|left]|].
  destruct (decide _); [by apply HQ; [|left]|]. apply wpr_try, wpr_wrapped, wpr_trigger.
  cbn [handle srv_handler srv_handle tok_handle fst snd revoke_handler].
  destruct (Hl (w_tick (s_core s)) (upgrade te)) as [t ->].
  apply wpr_bind, (at_now _ m p); [by apply at_tick|]. intros now s' Hs'. apply wpr_try, wpr_ret, HQ; [done|].
  destruct tainted; [rewrite orb_true_r; by left|]. destruct (_ || _); auto.
Qed.

Lemma at_lookup x Q m p s :
  at_ m p s → plain x → tidy m →
  (∀ s', at_ m p s' → m !! id_key x = None → Q (Ok None) s') →
  (∀ te s', at_ m p s' → is_Some (m !! id_key x) → current x te → Q (Ok (Some (upgrade te))) s') →
  wpr (lookupInternal c x true true) Q s.
Proof.
  intros Hs Hx Hm HQn HQs. unfold lookupInternal, lookup_with. rewrite plain_not_batch by done.
  unfold inner_id, IsSSCToken. rewrite (plain_prefix x ServiceTokenPrefix), andb_false_r by done.
  apply wpr_try, wpr_ret. apply wpr_try, wpr_wrapped, (at_Get "token/id/" x _ m p); [done|by apply plain_key_sane|].
  intros s' Hs'. change (sys_key "token/id/" x) with (id_key x). destruct (m !! id_key x) as [b|] eqn:Hb.
  - destruct (Hm x b Hx Hb) as (v & te & -> & Hd & Hc). cbn [fmap option_fmap option_map DecodeJSON Value].
    rewrite Hd, andb_false_r. pose proof Hc as (_ & Hn & _). eapply at_live; [done..|]. intros o s2 Hs2 [-> |[_ [=]]]. apply HQs; [done|by eexists|done].
  - by apply HQn.
Qed.

Definition idx_key (key : string) : string := sys_key "token/parent/" key.

(** The entry of [x] is gone, with entries of the indexes that lead to it. *)
Definition revoked (x : string) (m m' : gmap string blob) : Prop :=
  m' !! id_key x = None ∧ (∀ y, y ≠ x → m' !! id_key y = m !! id_key y) ∧
  ∀ k, m' !! idx_key k = m !! idx_key k ∨
       (m' !! idx_key k = None ∧ ∃ q, plain q ∧ k = q +:+ "/" +:+ x).

Lemma idx_key_inj k1 k2 : idx_key k1 = idx_key k2 → k1 = k2.
Proof. apply sys_key_inj. Qed.

(** The indexes of the token. *)
Lemma at_clear_parent x te Q m p s :
  at_ m p s → plain x → root_ns (SplitIDFromString (Parent te)).2 →
  (∀ m' s', at_ m' p s' →
     (m' = m ∨ m' = delete (idx_key (token_SaltID c (Parent te) +:+ "/" +:+ x)) m) → Q (Ok tt) s') →
  wpr (clear_parent c x te) Q s.
Proof.
  intros Hs Hx Hns HQ. unfold clear_parent. destruct (decide _); [by eapply HQ; [done|left]|].
  assert (bool_decide ((SplitIDFromString (Parent te)).2 = RootNamespaceID)
    || bool_decide ((SplitIDFromString (Parent te)).2 = "") = true) as ->.
  { destruct Hns as [-> | ->]; done. }
  apply wpr_wrapped, wpr_checked, (at_Delete "token/parent/" _ _ m p); [done| |].
  - apply plain_path_sane; [apply plain_salted|done].
  - intros s' Hs'. eapply HQ; [done|]. by right.
Qed.

Lemma at_clear_accessor te Q m p s :
  at_ m p s →
  (∀ m' s', at_ m' p s' →
     (m' = m ∨ ∃ k, m' = delete (sys_key "token/accessor/" k) m) → Q (Ok tt) s') →
  wpr (clear_accessor c te) Q s.
Proof.
  intros Hs HQ. unfold clear_accessor. destruct (decide _); [by eapply HQ; [done|left]|].
  apply wpr_wrapped, wpr_checked, (at_Delete "token/accessor/" _ _ m p); [done|apply plain_key_sane, plain_salted|].
  intros s' Hs'. eapply HQ; [done|]. right. eauto.
Qed.

Lemma at_revoke_parts x te Q m p s :
  at_ m p s → plain x → root_ns (SplitIDFromString (Parent te)).2 →
  (∀ m' s', at_ m' p s' → (∀ y, m' !! id_key y = m !! id_key y) →
     (∀ k, m' !! idx_key k = m !! idx_key k ∨
           (m' !! idx_key k = None ∧ ∃ q, plain q ∧ k = q +:+ "/" +:+ x)) → Q (Ok tt) s') →
  wpr (revoke_parts c x te true) Q s.
Proof.
  intros Hs Hx Hns HQ. destruct Hparts as (_ & _ & Hd & Hr). unfold revoke_parts.
  apply wpr_try, wpr_checked, wpr_trigger. cbn [handle revoke_handler srv_handler srv_handle tok_handle fst snd].
  rewrite Hd. apply wpr_try, wpr_checked, wpr_trigger.
  cbn [handle revoke_handler srv_handler srv_handle tok_handle fst snd]. rewrite Hr.
  apply wpr_try, (at_clear_parent x te _ m p); [by do 2 apply at_tick|done..|]. intros m1 s1 Hs1 Hm1.
  apply wpr_try, (at_clear_accessor te _ m1 p); [done|]. intros m2 s2 Hs2 Hm2. apply wpr_ret, (HQ m2); [done|..].
  - intros y. transitivity (m1 !! id_key y).
    + destruct Hm2 as [-> |[k ->]]; [done|]. apply lookup_delete_ne. done.
    + destruct Hm1 as [-> | ->]; [done|]. apply lookup_delete_ne. done.
  - intros k. assert (m2 !! idx_key k = m1 !! idx_key k) as ->.
    { destruct Hm2 as [-> |[k' ->]]; [done|]. apply lookup_delete_ne. done. }
    destruct Hm1 as [-> | ->]; [by left|].
    destruct (decide (k = token_SaltID c (Parent te) +:+ "/" +:+ x)) as [-> |Hk].
    + right. split; [apply lookup_delete_eq|]. eexists. split; [apply plain_salted|done].
    + left. apply lookup_delete_ne. intros ?%idx_key_inj. done.
Qed.

Lemma at_mark x te Q m p s :
  at_ m p s → plain x → current x te →
  (∀ m' s', at_ m' p s' → (m' = m ∨ ∃ b, m' = <[id_key x := b]> m) → Q (Ok tt) s') →
  wpr (mark_revoked c (upgrade te)) Q s.
Proof.
  intros Hs Hx (Hid & _ & Hns & _) HQ. unfold mark_revoked. destruct (_ =? _); [by eapply HQ; [done|left]|].
  apply wpr_bind. unfold store. cbn [NamespaceID set_NumUses upgrade]. rewrite root_ns_known by done.
  unfold store_primary. cbn [ID set_NumUses upgrade]. rewrite Hid.
  apply wpr_wrapped, wpr_checked, (at_Put "token/id/" x _ _ m p); [done|by apply plain_key_sane|].
  intros s' Hs'. apply wpr_ret. eapply HQ; [done|]. right. eauto.
Qed.

Lemma at_revoke x Q m p s :
  at_ m p s → plain x → tidy m → (p !! x = Some true → m !! id_key x = None) →
  (∀ m' p' s', at_ m' p' s' → revoked x m m' → (∀ y, y ≠ x → p' !! y = p !! y) → Q (Ok tt) s') →
  wpr (revokeInternal c x true) Q s.
Proof.
  intros Hs Hx Hm Hp HQ. unfold revokeInternal. apply wpr_bind, wpr_trigger.
  cbn [handle revoke_handler srv_handler srv_handle tok_handle fst snd]. pose proof Hs as (_ & _ & Hpp). rewrite Hpp.
  assert (m !! id_key x = None → revoked x m m) as Habsent.
  { intros Hn. split_and!; [done..|]. intros k. by left. }
  destruct (bool_decide _) eqn:Hb.
  { apply bool_decide_eq_true in Hb. rewrite Hb. apply (HQ m p); [by apply at_tick|by apply Habsent, Hp|done]. }
  set (p1 := match p !! x with Some _ => p | None => <[x:=true]> p end).
  assert (∀ y, y ≠ x → p1 !! y = p !! y) as Hp1.
  { intros y Hy. unfold p1. destruct (p !! x); [done|]. by apply lookup_insert_ne. }
  set (s1 := s_tick _). assert (at_ m p1 s1) as Hs1.
  { unfold s1, p1. apply at_tick. destruct Hs as (Hd & Hst & _). destruct (p !! x); by split_and!. }
  clearbody s1 p1. apply wpr_try, (at_lookup x _ m p1); [done..| |].
  { intros s2 Hs2 Hn. apply wpr_ret, (HQ m p1); [done|by apply Habsent|done]. }
  intros te s2 Hs2 _ Hte. pose proof Hte as (_ & _ & Hns & Hpar).
  apply wpr_try, (at_mark x te _ m p1); [done..|]. intros m3 s3 Hs3 Hm3.
  cbn [NamespaceID upgrade]. rewrite root_ns_known by done. apply wpr_bind, wpr_try.
  apply (at_revoke_parts x _ _ m3 p1); [done..|]. intros m4 s4 Hs4 Hid4 Hix4.
  apply wpr_wrapped, wpr_checked, (at_Delete "token/id/" x _ m4 p1); [done|by apply plain_key_sane|].
  intros s5 Hs5. apply wpr_bind, wpr_trigger, wpr_ret.
  cbn [handle revoke_handler srv_handler srv_handle tok_handle fst snd].
  apply (HQ (delete (id_key x) m4) (delete x p1)).
  - apply at_tick. destruct Hs5 as (Hd & Hst & Hp5). unfold at_. by rewrite <-Hp5.
  - split_and!; [apply lookup_delete_eq|..].
    + intros y Hy. rewrite lookup_delete_ne by (by intros ?%id_key_inj). rewrite Hid4.
      destruct Hm3 as [-> |[b ->]]; [done|]. apply lookup_insert_ne. by intros ?%id_key_inj.
    + intros k. rewrite lookup_delete_ne by done. destruct (Hix4 k) as [-> |]; [|by right]. left.
      destruct Hm3 as [-> |[b ->]]; [done|]. by apply lookup_insert_ne.
  - intros y Hy. rewrite lookup_delete_ne by done. by apply Hp1.
Qed.

(** ** The tree of a token *)

Definition edge (m : gmap string blob) (x y : string) : Prop :=
  plain x ∧ plain y ∧ is_Some (m !! idx_key (x +:+ "/" +:+ y)).

(** The keys of the index, and the child of a key. *)
Definition edges (m : gmap string blob) : list string :=
  filter (λ k, HasPrefix k (idx_key "") = true) (map_to_list m).*1.
Definition target (key : string) : string :=
  let k := TrimPrefix key (idx_key "") in
  match Index k "/" with Some i => str_drop (S i) k | None => k end.

Lemma edges_elem m x y : edge m x y → idx_key (x +:+ "/" +:+ y) ∈ edges m.
Proof.
  intros (_ & _ & b & Hb). apply list_elem_of_filter. split.
  - apply HasPrefix_spec. by exists (x +:+ "/" +:+ y).
  - apply list_elem_of_fmap. exists (idx_key (x +:+ "/" +:+ y), b). by rewrite elem_of_map_to_list.
Qed.

Lemma target_edge x y : plain x → target (idx_key (x +:+ "/" +:+ y)) = y.
Proof.
  intros [_ Hx]. unfold target. change (idx_key (x +:+ "/" +:+ y)) with (idx_key "" +:+ (x +:+ "/" +:+ y)).
  rewrite TrimPrefix_app.
  assert (Index (x +:+ "/" +:+ y) "/" = Some (String.length x)) as ->.
  { induction x as [|a x IH]; [done|]. change (String a x +:+ "/" +:+ y) with (String a (x +:+ "/" +:+ y)).
    rewrite Index_char_cons in Hx |- *. case_decide; [done|]. apply fmap_None in Hx. by rewrite IH. }
  rewrite <-str_app_assoc. replace (S (String.length x)) with (String.length (x +:+ "/")).
  - apply str_drop_app.
  - clear Hx. induction x as [|a x IH]; [done|]. simpl. by f_equal.
Qed.

(** What a step of the walk removes: entries of tokens of [G], and entries of
    the index for children of [D]. *)
Definition cut (G D : string → Prop) (m m' : gmap string blob) : Prop :=
  (∀ y, m' !! id_key y = m !! id_key y ∨ (m' !! id_key y = None ∧ G y)) ∧
  ∀ k, m' !! idx_key k = m !! idx_key k ∨
       (m' !! idx_key k = None ∧ ∃ q y, plain q ∧ plain y ∧ k = q +:+ "/" +:+ y ∧ D y).

Lemma revoked_cut x m m' : plain x → revoked x m m' → cut (λ y, y = x) (λ y, y = x) m m'.
Proof.
  intros Hx (Hid & Hids & Hix). split.
  - intros y. destruct (decide (y = x)) as [-> |Hy]; [by right|left; by apply Hids].
  - intros k. destruct (Hix k) as [?|(? & q & ? & ->)]; [by left|right]. split; [done|]. by exists q, x.
Qed.

Lemma cut_tidy G D m m' : cut G D m m' → tidy m → tidy m'.
Proof.
  intros [Hc _] Hm x b Hx Hb. apply (Hm x b Hx). destruct (Hc x) as [He|[He _]]; [by rewrite <-He|].
  by rewrite He in Hb.
Qed.

Lemma cut_edge G D m m' x y : cut G D m m' → edge m x y → edge m' x y ∨ D y.
Proof.
  intros [_ Hc] (Hx & Hy & He). destruct (Hc (x +:+ "/" +:+ y)) as [Hk|(_ & q & y' & Hq & Hy' & Hk & HD)].
  - left. split_and!; [done..|]. by rewrite Hk.
  - right. apply str_cut_unique in Hk as [_ ->]; [done|apply Hx|apply Hq].
Qed.

Lemma cut_sub G D m m' k : cut G D m m' → is_Some (m' !! idx_key k) → is_Some (m !! idx_key k).
Proof. intros [_ Hc] Hk. destruct (Hc k) as [<-|[Hn _]]; [done|]. rewrite Hn in Hk. by destruct Hk. Qed.

(** The children that were visited before lose their entries in the index. *)
Lemma at_unseen x seen raw Q m p s :
  at_ m p s → plain x → Forall plain raw →
  (∀ m' s', at_ m' p s' → cut (λ _, False) (λ y, y ∈ seen) m m' → Q (Ok (filter (λ y, y ∉ seen) raw)) s') →
  wpr (unseen_children c x seen raw) Q s.
Proof.
  intros Hs Hx Hraw HQ. unfold unseen_children. apply wpr_bind.
  apply (wpr_range (λ l acc s', ∃ m', at_ m' p s' ∧ cut (λ _, False) (λ y, y ∈ seen) m m' ∧ Forall plain l ∧
     acc ++ filter (λ y, y ∉ seen) l = filter (λ y, y ∉ seen) raw)).
  - exists m. split_and!; [done| |done|done]. split; intros ?; by left.
  - intros acc s' (m' & Hs' & Hc & _ & He). rewrite filter_nil, app_nil_r in He. subst acc. by apply wpr_ret, (HQ m').
  - intros y l acc s' (m' & Hs' & Hc & [Hy Hl]%Forall_cons & Hacc). rewrite filter_cons in Hacc.
    destruct (decide (y ∈ seen)) as [Hin|Hin].
    + rewrite decide_False in Hacc by (intros Hn; by apply Hn).
      apply wpr_bind, (at_Delete "token/parent/" _ _ m' p); [done|by apply plain_path_sane|].
      intros s2 Hs2. apply wpr_ret. exists (delete (idx_key (x +:+ "/" +:+ y)) m'). split_and!; [done| |done|done].
      destruct Hc as [Hi Hk]. split.
      * intros y'. rewrite lookup_delete_ne by done. apply Hi.
      * intros k. destruct (decide (k = x +:+ "/" +:+ y)) as [-> |Hne].
        -- right. split; [apply lookup_delete_eq|]. by exists x, y.
        -- rewrite lookup_delete_ne by (by intros ?%idx_key_inj). apply Hk.
    + rewrite decide_True in Hacc by done. apply wpr_ret. exists m'. split_and!; [done..|].
      by rewrite <-app_assoc.
Qed.

(** ** The walk *)

Section walk.
Context (m0 : gmap string blob) (r0 : string).

(** What can be on the stack. *)
Definition node (x : string) : Prop := plain x ∧ (x = r0 ∨ ∃ q, edge m0 q x).

(** How many nodes have not been visited, counted by the entries of the index
    that lead to them. *)
Definition unseen (seen : gset string) : nat :=
  (if decide (r0 ∈ seen) then 0 else 1) + length (filter (λ k, target k ∉ seen) (edges m0)).

Lemma filter_refine (P P' : string → Prop) `{∀ x, Decision (P x), ∀ x, Decision (P' x)} (l : list string) :
  (∀ x, P' x → P x) → filter P' l = filter P' (filter P l).
Proof. intros HP. rewrite list_filter_filter. apply list_filter_iff. intros x. specialize (HP x). tauto. Qed.

Lemma unseen_le x seen : (unseen ({[x]} ∪ seen) ≤ unseen seen)%nat.
Proof.
  unfold unseen. rewrite (filter_refine (λ k, target k ∉ seen) (λ k, target k ∉ {[x]} ∪ seen)) by set_solver.
  pose proof (length_filter (λ k, target k ∉ {[x]} ∪ seen) (filter (λ k, target k ∉ seen) (edges m0))).
  destruct (decide (r0 ∈ seen)); destruct (decide (r0 ∈ {[x]} ∪ seen)); try lia. set_solver.
Qed.

Lemma unseen_lt x seen : x ∉ seen → node x → (unseen ({[x]} ∪ seen) < unseen seen)%nat.
Proof.
  intros Hx [_ Hn]. unfold unseen.
  rewrite (filter_refine (λ k, target k ∉ seen) (λ k, target k ∉ {[x]} ∪ seen)) by set_solver.
  set (l := filter (λ k, target k ∉ seen) (edges m0)).
  pose proof (length_filter (λ k, target k ∉ {[x]} ∪ seen) l) as Hle. destruct Hn as [-> |[q Hq]].
  - rewrite decide_True by set_solver. rewrite decide_False by done. lia.
  - assert (length (filter (λ k, target k ∉ {[x]} ∪ seen) l) < length l)%nat as Hlt.
    { apply (length_filter_lt _ _ (idx_key (q +:+ "/" +:+ x))).
      - apply list_elem_of_filter. split; [|by apply edges_elem]. rewrite target_edge; [done|apply Hq].
      - rewrite target_edge by apply Hq. set_solver. }
    destruct (decide (r0 ∈ seen)); destruct (decide (r0 ∈ {[x]} ∪ seen)); try lia. set_solver.
Qed.

(** A bound on the steps that are left: a node that is visited for the first
    time pays for its children. *)
Definition steps_left (dfs : list string) (seen : gset string) : nat :=
  length dfs + (2 * length (edges m0) + 3) * unseen seen
  + match dfs with
    | x :: _ => if decide (x ∈ seen) then S (length (edges m0)) else 0
    | [] => 0
    end.

Record walk_inv (dfs : list string) (seen : gset string) (m : gmap string blob) (p : gmap string bool) : Prop := {
  wi_tidy : tidy m;
  wi_index : ∀ k, is_Some (m !! idx_key k) → is_Some (m0 !! idx_key k) ∧ index_key k;
  wi_nodes : Forall node dfs;
  wi_root : r0 ∈ seen ∨ r0 ∈ dfs;
  wi_gone : ∀ x, x ∈ seen → x ∈ dfs ∨ m !! id_key x = None;
  wi_edges : ∀ x y, edge m0 x y → edge m x y ∨ y ∈ seen;
  wi_closed : ∀ x y, x ∈ seen → x ∉ dfs → edge m0 x y → y ∈ seen;
  wi_pending : ∀ x, p !! x = Some true → m !! id_key x = None;
}.

(** The children of a node, as they are listed. *)
Lemma children_plain dfs seen m p x (l : list string) :
  walk_inv dfs seen m p → plain x →
  (∀ ch, ch ∈ l ↔ ∃ rest, is_Some (m !! (sys_key "token/parent/" (x +:+ "/") +:+ rest)) ∧ ch = child rest) →
  ∀ y, y ∈ l ↔ edge m x y.
Proof.
  intros Hw Hx Hl y. rewrite Hl.
  assert (∀ rest, sys_key "token/parent/" (x +:+ "/") +:+ rest = idx_key (x +:+ "/" +:+ rest)) as Hk.
  { intros rest. unfold idx_key, sys_key. by rewrite !str_app_assoc. }
  split.
  - intros (rest & Hr & ->). rewrite Hk in Hr. destruct (wi_index _ _ _ _ Hw _ Hr) as [_ Hi].
    rewrite <-str_app_assoc in Hi. destruct (index_child x rest Hx Hi) as [Hp ->]. done.
  - intros (_ & Hy & He). exists y. rewrite Hk, child_plain by apply Hy. done.
Qed.

Lemma children_few m x (l : list string) :
  (∀ k, is_Some (m !! idx_key k) → is_Some (m0 !! idx_key k)) → NoDup l → (∀ y, y ∈ l → edge m x y) →
  (length l ≤ length (edges m0))%nat.
Proof.
  intros Hsub Hnd Hl. rewrite <-(length_fmap (λ y, idx_key (x +:+ "/" +:+ y)) l).
  apply submseteq_length, NoDup_submseteq.
  - apply NoDup_fmap_2; [|done]. intros y y' He%idx_key_inj. by do 2 apply str_app_inj_l in He.
  - intros k (y & -> & Hy)%list_elem_of_fmap. destruct (Hl y Hy) as (Hx & Hpy & He).
    apply edges_elem. split_and!; [done..|]. by apply Hsub.
Qed.

(** One more node visited, and what leads to visited nodes removed. *)
Lemma walk_visit x dfs seen m m' p :
  walk_inv (x :: dfs) seen m p → cut (λ _, False) (λ y, y ∈ {[x]} ∪ seen) m m' →
  walk_inv (x :: dfs) ({[x]} ∪ seen) m' p.
Proof.
  intros [Ht Hi Hn Hr Hg He Hc Hp] Hcut.
  assert (∀ y, m !! id_key y = None → m' !! id_key y = None) as Hnone.
  { intros y Hy. destruct Hcut as [Hid _]. destruct (Hid y) as [->|[_ []]]. done. }
  split.
  - by eapply cut_tidy.
  - intros k Hk. apply Hi. by eapply cut_sub.
  - done.
  - destruct Hr; [left; set_solver|by right].
  - intros y [->%elem_of_singleton|Hy]%elem_of_union; [left; by left|]. destruct (Hg y Hy); auto.
  - intros y z Hyz. destruct (He y z Hyz) as [Hm|]; [|set_solver].
    by destruct (cut_edge _ _ _ _ _ _ Hcut Hm); auto.
  - intros y z Hy Hnd. assert (y ∈ seen) by set_solver. intros Hyz. apply elem_of_union_r. by eapply Hc.
  - auto.
Qed.

(** The node on top is revoked. *)
Lemma walk_pop x dfs seen m m' p p' :
  walk_inv (x :: dfs) seen m p → x ∈ seen → (∀ y, edge m x y → y ∈ seen) →
  revoked x m m' → (∀ y, y ≠ x → p' !! y = p !! y) → walk_inv dfs seen m' p'.
Proof.
  intros [Ht Hi Hn Hr Hg He Hc Hp] Hx Hch Hrev Hpp.
  apply Forall_cons in Hn as [[Hpx _] Hn]. pose proof (revoked_cut x m m' Hpx Hrev) as Hcut.
  assert (∀ y, m !! id_key y = None → m' !! id_key y = None) as Hnone.
  { intros y Hy. destruct Hcut as [Hid _]. by destruct (Hid y) as [->|[? _]]. }
  split.
  - by eapply cut_tidy.
  - intros k Hk. apply Hi. by eapply cut_sub.
  - done.
  - destruct Hr as [|[->|]%elem_of_cons]; auto.
  - intros y Hy. destruct (decide (y = x)) as [->|Hyx]; [right; apply Hrev|].
    destruct (Hg y Hy) as [[?|?]%elem_of_cons|?]; [done|by left|right; auto].
  - intros y z Hyz. destruct (He y z Hyz) as [Hm|]; [|by right].
    destruct (cut_edge _ _ _ _ _ _ Hcut Hm) as [| ->]; auto.
  - intros y z Hy Hnd Hyz. destruct (decide (y = x)) as [->|Hyx].
    + destruct (He x z Hyz); auto.
    + apply (Hc y z); [done|set_solver|done].
  - intros y Hy. destruct (decide (y = x)) as [->|Hyx]; [apply Hrev|]. rewrite Hpp in Hy by done. auto.
Qed.

(** Nodes are pushed. *)
Lemma walk_push l dfs seen m p : walk_inv dfs seen m p → Forall node l → walk_inv (l ++ dfs) seen m p.
Proof.
  intros [Ht Hi Hn Hr Hg He Hc Hp] Hl. split; try done.
  - by apply Forall_app.
  - destruct Hr; [by left|right; set_solver].
  - intros x Hx. destruct (Hg x Hx); [left; set_solver|by right].
  - intros x y Hx Hnd. apply Hc; set_solver.
Qed.

(** Reachable through the index. *)
Definition descendant : string → string → Prop := rtc (edge m0).

Lemma walk_end seen m p : walk_inv [] seen m p → ∀ x, descendant r0 x → m !! id_key x = None.
Proof.
  intros [Ht Hi Hn Hr Hg He Hc Hp] x Hx.
  assert (∀ y, y ∈ seen → m !! id_key y = None) as Hgone by (intros y Hy; by destruct (Hg y Hy) as [[]%not_elem_of_nil|]).
  assert (∀ a b, descendant a b → a ∈ seen → b ∈ seen) as Hall.
  { induction 1 as [a|a b d Hab _ IH]; [done|]. intros Ha. apply IH. by eapply Hc; [|apply not_elem_of_nil|]. }
  destruct Hr as [Hr|[]%not_elem_of_nil]. eauto.
Qed.

Lemma in_rev_elem (z : string) l : z ∈ rev l → z ∈ l.
Proof. by rewrite !list_elem_of_In, <-in_rev. Qed.

Lemma steps_left_visit x dfs seen fuel :
  node x → (steps_left (x :: dfs) seen ≤ S fuel)%nat →
  (length dfs + (2 * length (edges m0) + 3) * unseen ({[x]} ∪ seen) + S (length (edges m0)) ≤ fuel)%nat.
Proof.
  intros Hx. unfold steps_left. cbn [length]. pose proof (unseen_le x seen) as Hle.
  case_decide as Hin; [|pose proof (unseen_lt x seen Hin Hx)]; nia.
Qed.

Lemma at_revoke_loop fuel dfs seen m p s :
  at_ m p s → walk_inv dfs seen m p → (steps_left dfs seen ≤ fuel)%nat →
  wpr (revoke_loop c fuel dfs seen)
    (λ r s', r = Some (Ok tt) ∧ ∃ m' p', at_ m' p' s' ∧ ∀ x, descendant r0 x → m' !! id_key x = None) s.
Proof.
  revert dfs seen m p s. induction fuel as [|fuel IH]; intros [|x dfs] seen m p s Hs Hw Hf.
  1,3: apply wpr_ret; split; [done|]; exists m, p; split; [done|]; by eapply walk_end.
  { unfold steps_left in Hf. simpl in Hf. lia. }
  pose proof (wi_nodes _ _ _ _ Hw) as [Hx Hdfs]%Forall_cons. pose proof Hx as [Hpx _].
  cbn [revoke_loop]. rewrite (plain_split x Hpx), decide_True by done.
  apply wpr_bind, wpr_try, wpr_wrapped, (at_List "token/parent/" _ _ m p); [done| |].
  { apply (plain_path_sane x ""); [done|by split]. }
  intros raw s1 [Hnd Hraw] Hs1. pose proof (children_plain _ _ _ _ x raw Hw Hpx Hraw) as Hch.
  assert (Forall plain raw) as Hpl by (apply Forall_forall; intros y Hy; by apply Hch in Hy as (_ & ? & _)).
  apply (at_unseen x _ raw _ m p); [done..|]. intros m1 s2 Hs2 Hcut.
  pose proof (walk_visit _ _ _ _ _ _ Hw Hcut) as Hw1. set (seen1 := {[x]} ∪ seen) in *.
  set (l := filter (λ y, y ∉ seen1) raw).
  assert (∀ y, y ∈ l ↔ edge m x y ∧ y ∉ seen1) as Hl.
  { intros y. unfold l. rewrite list_elem_of_filter, Hch. tauto. }
  assert (NoDup l) as Hndl by (by apply NoDup_filter).
  clearbody l. destruct l as [|y l].
  - apply wpr_bind, wpr_wrapped, (at_revoke x _ m1 p); [done..|by eapply wi_tidy|by eapply wi_pending|].
    intros m2 p2 s3 Hs3 Hrev Hp2. apply (IH _ _ m2 p2); [done| |].
    + eapply walk_pop; [done|set_solver| |done..]. intros z Hz.
      destruct (decide (z ∈ seen1)); [done|]. destruct (not_elem_of_nil z). apply Hl. split; [|done].
      destruct Hz as (? & ? & ?). split_and!; [done..|]. by eapply cut_sub.
    + pose proof (steps_left_visit x dfs seen fuel Hx Hf) as Hv. unfold steps_left. fold seen1 in Hv.
      assert (match dfs with x :: _ => if decide (x ∈ seen1) then S (length (edges m0)) else 0 | [] => 0 end
              ≤ S (length (edges m0)))%nat by (repeat case_match; lia). lia.
  - apply (IH _ _ m1 p); [done| |].
    + apply walk_push; [done|]. apply Forall_rev, Forall_forall. intros z [Hz _]%Hl. split; [apply Hz|].
      right. exists x. destruct Hz as (? & ? & Hz). split_and!; [done..|]. by apply (wi_index _ _ _ _ Hw).
    + pose proof (steps_left_visit x dfs seen fuel Hx Hf) as Hv. fold seen1 in Hv.
      assert (length (y :: l) ≤ length (edges m0))%nat as Hfew.
      { apply (children_few m x); [intros k Hk; by apply (wi_index _ _ _ _ Hw)|done|]. intros z Hz. by apply Hl. }
      assert (∀ z, z ∈ rev (y :: l) → z ∉ seen1) as Htop by (intros z Hz%in_rev_elem; by apply Hl in Hz as [_ ?]).
      rewrite <-length_rev in Hfew. unfold steps_left. rewrite length_app. cbn [length].
      destruct (rev (y :: l)) as [|z l'] eqn:Hrev'; [by apply (f_equal length) in Hrev'; rewrite length_rev in Hrev'|].
      cbn [app]. rewrite decide_False by (apply Htop; by left). lia.
Qed.
End walk.
End revoke.
