(* ===== verification/TokenLookup.v ===== *)
(** * Which tokens a lookup returns

    Only those that are live: stored and not marked as revoked, with a lease
    that is not over, or sealed into a batch token that is not over and whose
    parent is live. *)

From S2P Require Import Prelude GoLib GoSplit Storage Core ApprovalTypes ApprovalJson ApprovalCore CoreLogic Router Routing Templating Policy Acl Tokens Server PolicyStore TokenStore ServerLogic TokenFacts TokenUses.
Import Token.

Section lookup.
Context `{RadixTree} `{GoTables} `{MapRange} `{Globbing} `{Parseutil} `{HCL} `{!Strsets} `{Sockaddr}
  `{Crypto} `{TokenCrypto} (env : SEnv) (c : Conf).
#[local] Instance lookup_handler : Handler srvE Server := srv_handler env.

(** The entry is exempt from the check of leases, as every root token and
    every token of the type kept for Enterprise is, or it has one that is not over at the moment
    [n] or later. *)
Definition unexpired (n : nat) (te : TokenEntry) : Prop :=
  (Policies te = ["root"] ∧ TTL te = 0) ∨ IsRoot te = true ∨ Type_ te = TokenTypeEnt ∨
  ∃ n1 n2 t, (n ≤ n1 < n2)%nat ∧ lease_times env n1 te = Ok (Some t) ∧ env_clock (on_core env) n2 ≤ t.

(** The live tokens of a storage at the moment [n]. *)
Inductive live (m : gmap string blob) (n : nat) : string → TokenEntry → Prop :=
| live_service id x v te :
    IsBatchToken id = false → lookup_key c (inner_id id) false = Ok x →
    m !! id_key x = Some (Doc v) → dec_token v = Ok te → 0 ≤ NumUses te →
    unexpired n (upgrade te) → live m n id (upgrade te)
| live_batch id te n1 :
    IsBatchToken id = true → batch_text env (SplitIDFromString (stripBatchPrefix id)).1 = Ok (Some te) →
    (n ≤ n1)%nat → env_clock (on_core env) n1 ≤ (CreationTime te + Tpl.unixToInternal) * Second + TTL te →
    Parent te = "" → live m n id (set_ID id te)
| live_child id te n1 pte :
    IsBatchToken id = true → batch_text env (SplitIDFromString (stripBatchPrefix id)).1 = Ok (Some te) →
    (n ≤ n1)%nat → env_clock (on_core env) n1 ≤ (CreationTime te + Tpl.unixToInternal) * Second + TTL te →
    live m n (Parent te) pte → live m n id (set_ID id te).

Definition tick_of (s : Server) : nat := w_tick (s_core s).

Lemma handle_tick {X} (e : srvE X) s : tick_of (handle e s).2 = S (tick_of s).
Proof.
  unfold tick_of. destruct e as [e|e|e|e|e].
  - destruct e; try done; simpl; unfold write_result; by repeat case_match.
  - destruct e; try done; by destruct c0.
  - destruct e; try done; simpl; by repeat case_match.
  - by destruct e.
  - destruct e; try done; simpl; by repeat case_match.
Qed.

Lemma run_tick {A} (p : prog srvE A) s : (tick_of s ≤ tick_of (run p s).2)%nat.
Proof.
  revert s. induction p as [a|X e k IH]; intros s; [done|]. simpl.
  eapply Nat.le_trans; [|apply IH]. rewrite handle_tick. lia.
Qed.

Lemma wpr_tick {A} (p : prog srvE A) Q s :
  wpr p (λ a s', (tick_of s ≤ tick_of s')%nat → Q a s') s → wpr p Q s.
Proof. intros Hp. apply Hp, run_tick. Qed.

(** What a lookup that begins with the storage [m] at [n] or later returns. *)
Definition returns_live (m : gmap string blob) (n : nat) (id : string) (p : prog srvE (res (option TokenEntry))) : Prop :=
  ∀ s, s_store s = m → (n ≤ tick_of s)%nat → wpr p (λ r _, ∀ te, r = Ok (Some te) → live m n id te) s.

Lemma persisted (p : prog srvE (res ())) (o : option TokenEntry) (Q : TokenEntry → Prop) s :
  (∀ te, o = Some te → Q te) →
  wpr (_ ←? p; Ret (Ok o)) (λ r _, ∀ te, r = Ok (Some te) → Q te) s.
Proof.
  intros Ho. apply wpr_try. unfold wpr. destruct (run p s).1; [|done]. simpl. intros te [= Hte]. auto.
Qed.

Lemma live_entry_unexpired te n s :
  (n ≤ tick_of s)%nat →
  wpr (live_entry c te false) (λ r _, ∀ te', r = Ok (Some te') → te' = upgrade te ∧ unexpired n te') s.
Proof.
  intros Hn. unfold live_entry. set (persist := if persistNeeded te then _ else _). clearbody persist.
  destruct (_ && _) eqn:Hr.
  { apply persisted. intros te' [= <-]. apply andb_prop in Hr as [?%bool_decide_eq_true ?%Z.eqb_eq].
    split; [done|]. by left. }
  destruct (IsRoot _) eqn:Hroot; [intros te' [= <-]; split; [done|]; right; by left|].
  destruct (expiration_nil c); [by destruct (IsDRSecondary c)|].
  destruct (decide _) as [Hent|]; [intros te' [= <-]; split; [done|]; do 2 right; by left|].
  apply wpr_try, wpr_wrapped, wpr_trigger. cbn [handle lookup_handler srv_handler srv_handle tok_handle fst snd].
  destruct (lease_times _ _ _) as [[t|]|err] eqn:Hl; [| |done].
  - apply wpr_bind, wpr_trigger. apply persisted. intros te'.
    cbn [handle lookup_handler srv_handler srv_handle core_handle fst snd]. rewrite orb_false_r.
    destruct (Z.ltb_spec t (env_clock (on_core env) (w_tick (s_core (s_tick s))))) as [|Ht]; [done|].
    intros [= <-]. split; [done|]. do 3 right. exists (tick_of s), (tick_of (s_tick s)), t.
    split; [|done]. unfold tick_of in *. simpl. lia.
  - destruct (perfStandby c); [done|]. destruct (NamespaceByID _); [|done].
    apply wpr_try. unfold wpr at 1. destruct (run _ _).1; [|done]. apply wpr_try. unfold wpr at 1.
    destruct (run _ _).1; [|done]. by apply persisted.
Qed.

Lemma lookup_returns m n lb id :
  (IsBatchToken id = true → returns_live m n id (lb id)) → returns_live m n id (lookup_with c lb id false false).
Proof.
  intros Hlb s Hs Hn. unfold lookup_with. destruct (IsBatchToken id) eqn:Hb; [by apply Hlb|].
  apply wpr_try, wpr_ret. destruct (lookup_key _ _ _) as [x|] eqn:Hx; [|done].
  apply wpr_try, wpr_wrapped, wpr_tick, (wpr_Get _ _ "token/id/").
  intros [raw|err] s1 Hs1 Hraw Ht1; [|done]. subst raw.
  change (sys_key "token/id/" x) with (id_key x). destruct (s_store s !! id_key x) as [b|] eqn:He; [|done].
  cbn [fmap option_fmap option_map]. unfold DecodeJSON. cbn [Value]. destruct b as [v|]; [|done].
  destruct (dec_token v) as [te|] eqn:Hd; [|done]. rewrite andb_true_r.
  destruct (Z.ltb_spec (NumUses te) 0) as [|Hu]; [done|].
  eapply wpr_mono; [|apply (live_entry_unexpired te n); lia].
  intros r s2 Hr te' ->. destruct (Hr te' eq_refl) as [-> Hun]. subst m. by eapply live_service.
Qed.

Lemma batch_returns m n lookup id :
  IsBatchToken id = true → (∀ id', returns_live m n id' (lookup id')) → returns_live m n id (batch_with lookup id).
Proof.
  intros Hb Hl s Hs Hn. unfold batch_with.
  apply wpr_try, wpr_trigger. cbn [handle lookup_handler srv_handler srv_handle tok_handle fst snd].
  destruct (batch_text _ _) as [[te|]|] eqn:Ht; [|done..].
  apply wpr_bind, wpr_trigger. cbn [handle lookup_handler srv_handler srv_handle core_handle fst snd].
  destruct (Z.ltb_spec ((CreationTime te + Tpl.unixToInternal) * Second + TTL te) (env_clock (on_core env) (w_tick (s_core (s_tick s)))))
    as [|Hc]; [done|].
  assert (n ≤ w_tick (s_core (s_tick s)))%nat as Hn1 by (unfold tick_of in Hn; simpl; lia).
  destruct (decide _) as [Hp|Hp].
  { intros te' [= <-]. eapply live_batch; eauto. }
  apply wpr_try. eapply wpr_mono; [|apply (Hl (Parent te)); [done|unfold tick_of in *; simpl in *; lia]].
  intros [[pte|]|] s2 Hr; [|done..]. intros te' [= <-]. eapply live_child; eauto.
Qed.

Lemma chain_returns m n fuel id : returns_live m n id (Lookup_chain c fuel id).
Proof.
  revert id. induction fuel as [|fuel IH]; intros id s Hs Hn; [done|]. cbn [Lookup_chain].
  destruct (decide _); [done|]. destruct (IsBatchToken id) eqn:Hb; [by apply batch_returns|].
  apply wpr_bind, wpr_tick, wpr_trigger. intros Ht. apply wpr_bind.
  eapply wpr_mono; [|apply (lookup_returns m n)].
  - intros r s' Hr. apply wpr_bind, wpr_trigger. exact Hr.
  - by rewrite Hb.
  - done.
  - lia.
Qed.

(** C24: a lookup returns only a token that is live: stored under the key of its
    identifier, not marked as revoked, and, unless it is a root token or of
    the type kept for Enterprise, with a lease that is not over when the
    lookup asks; or a batch token that is not over then, and whose parent, if
    it has one, is live.  Root tokens, also those with a time to live, and
    Enterprise tokens are returned without a look at their lease.  This holds
    whatever the storage and the expiration manager answer. *)
Theorem lookup_live id te s :
  (run (Lookup c id) s).1 = Ok (Some te) → live (s_store s) (tick_of s) id te.
Proof. intros Hr. by apply (chain_returns _ _ (S (String.length id)) id s eq_refl (le_n _)). Qed.
End lookup.
