(* ===== verification/Pipeline.v ===== *)
(** * [vault/request_handling.go]: from the token to the backend

    The token of a request is looked up and checked: its addresses, its
    entity, the policies of both compiled and applied to the request, sudo
    where the path needs it.  Then the token is used, the request logged, and
    what is left is [dispatch] ([RequestHandling]).  The stubs of the
    community edition do nothing ([request_handling_util.go],
    [core_util.go]): no token is an enterprise token, none needs a control
    group, requests are not forwarded and quotas on leases allow everything. *)

From Stdlib Require Import Ascii.
From S2P Require Import Prelude GoLib GoSplit Encoding Storage Core Lease ApprovalTypes ApprovalCore RequestHandling Router Routing Templating Policy Acl Tokens Server PolicyStore TokenStore.
Import Token.

(** ** Requests *)

Variant ClientTokenSource :=
| NoClientToken | ClientTokenFromVaultHeader | ClientTokenFromAuthzHeader | ClientTokenFromInternalAuth.

(** A request with what is known of its token; [rq_RemoteAddr] is the address
    of its connection, if it has one. *)
Record Req := mkReq {
  rq : Core.Request;
  rq_TokenEntry : option TokenEntry;
  rq_RemoteAddr : option string;
  rq_ClientTokenSource : ClientTokenSource;
  rq_InboundSSCToken : string;
  rq_ClientTokenAccessor : string;
  rq_ClientTokenRemainingUses : Z;
  rq_ClientID : string;
  rq_RecoverSourcePath : string;
  rq_ControlGroup : bool;
}.

Definition set_rq (r : Core.Request) (req : Req) : Req :=
  mkReq r (rq_TokenEntry req) (rq_RemoteAddr req) (rq_ClientTokenSource req) (rq_InboundSSCToken req)
    (rq_ClientTokenAccessor req) (rq_ClientTokenRemainingUses req) (rq_ClientID req) (rq_RecoverSourcePath req)
    (rq_ControlGroup req).
Definition SetTokenEntry (te : option TokenEntry) (req : Req) : Req :=
  mkReq (rq req) te (rq_RemoteAddr req) (rq_ClientTokenSource req) (rq_InboundSSCToken req)
    (rq_ClientTokenAccessor req) (rq_ClientTokenRemainingUses req) (rq_ClientID req) (rq_RecoverSourcePath req)
    (rq_ControlGroup req).
Definition set_InboundSSCToken (token : string) (req : Req) : Req :=
  mkReq (rq req) (rq_TokenEntry req) (rq_RemoteAddr req) (rq_ClientTokenSource req) token
    (rq_ClientTokenAccessor req) (rq_ClientTokenRemainingUses req) (rq_ClientID req) (rq_RecoverSourcePath req)
    (rq_ControlGroup req).
Definition set_token_info (accessor : string) (uses : Z) (te : TokenEntry) (req : Req) : Req :=
  mkReq (rq req) (Some te) (rq_RemoteAddr req) (rq_ClientTokenSource req) (rq_InboundSSCToken req)
    accessor uses (rq_ClientID req) (rq_RecoverSourcePath req) (rq_ControlGroup req).
Definition set_ClientID (id : string) (req : Req) : Req :=
  mkReq (rq req) (rq_TokenEntry req) (rq_RemoteAddr req) (rq_ClientTokenSource req) (rq_InboundSSCToken req)
    (rq_ClientTokenAccessor req) (rq_ClientTokenRemainingUses req) id (rq_RecoverSourcePath req)
    (rq_ControlGroup req).

Definition set_Operation (op : string) (r : Core.Request) : Core.Request :=
  mkRequest (req_ID r) op (req_Path r) (req_Data r) (req_Headers r) (req_EntityID r) (req_DisplayName r)
    (req_MountPoint r) (req_ClientToken r) (req_WrapInfo r) (req_RequiresSnapshotID r).
Definition set_Path (path : string) (r : Core.Request) : Core.Request :=
  mkRequest (req_ID r) (req_Operation r) path (req_Data r) (req_Headers r) (req_EntityID r) (req_DisplayName r)
    (req_MountPoint r) (req_ClientToken r) (req_WrapInfo r) (req_RequiresSnapshotID r).
Definition set_Data (data : option (gmap string value)) (r : Core.Request) : Core.Request :=
  mkRequest (req_ID r) (req_Operation r) (req_Path r) data (req_Headers r) (req_EntityID r) (req_DisplayName r)
    (req_MountPoint r) (req_ClientToken r) (req_WrapInfo r) (req_RequiresSnapshotID r).
Definition set_Headers (hs : option (gmap string (list string))) (r : Core.Request) : Core.Request :=
  mkRequest (req_ID r) (req_Operation r) (req_Path r) (req_Data r) hs (req_EntityID r) (req_DisplayName r)
    (req_MountPoint r) (req_ClientToken r) (req_WrapInfo r) (req_RequiresSnapshotID r).
Definition set_EntityID (id : string) (r : Core.Request) : Core.Request :=
  mkRequest (req_ID r) (req_Operation r) (req_Path r) (req_Data r) (req_Headers r) id (req_DisplayName r)
    (req_MountPoint r) (req_ClientToken r) (req_WrapInfo r) (req_RequiresSnapshotID r).
Definition set_DisplayName (name : string) (r : Core.Request) : Core.Request :=
  mkRequest (req_ID r) (req_Operation r) (req_Path r) (req_Data r) (req_Headers r) (req_EntityID r) name
    (req_MountPoint r) (req_ClientToken r) (req_WrapInfo r) (req_RequiresSnapshotID r).
Definition set_ClientToken (token : string) (r : Core.Request) : Core.Request :=
  mkRequest (req_ID r) (req_Operation r) (req_Path r) (req_Data r) (req_Headers r) (req_EntityID r)
    (req_DisplayName r) (req_MountPoint r) token (req_WrapInfo r) (req_RequiresSnapshotID r).

(** What is known of the caller afterwards. *)
Record ReqAuth := mkReqAuth {
  ra_ClientToken : string;
  ra_Accessor : string;
  ra_IdentityPolicies : list string;
  ra_TokenPolicies : list string;
  ra_Policies : list string;
  ra_Metadata : option (gmap string string);
  ra_DisplayName : string;
  ra_EntityID : string;
  ra_ExternalNamespacePolicies : gmap string (list string);
  ra_TokenType : Z;
  ra_TTL : Z;
  ra_IssueTime : option Z;
  (** [NeverDrop], for a path that needs sudo. *)
  ra_priority : bool;
  ra_Allowed : bool;
  ra_GrantingPolicies : list PolicyInfo;
}.

(** ** Errors *)

Definition append_err (e : option goerr) (e' : goerr) : goerr :=
  match e with
  | None => ErrMulti [e']
  | Some (ErrMulti l) => ErrMulti (l ++ [e'])
  | Some e => ErrMulti [e; e']
  end.
Definition is_RelativePath (e : goerr) : bool := match e with ErrRelativePath => true | _ => false end.
Definition is_PleaseForward (e : goerr) : bool := match e with ErrPleaseForward => true | _ => false end.
Definition is_InternalError (e : goerr) : bool := match e with ErrInternalError => true | _ => false end.
Definition is_PermissionDenied (e : goerr) : bool := match e with ErrPermissionDenied => true | _ => false end.

Definition IsError (r : Response) : bool :=
  let present k := match resp_Data r !! k with None | Some VNil => false | _ => true end in
  present "error" && ((size (resp_Data r) =? 1)%nat || (present "data" && (size (resp_Data r) =? 2)%nat)).

(** ** Client identifiers *)

(** [sort.Strings]. *)
Fixpoint insert_string (x : string) (l : list string) : list string :=
  match l with
  | [] => [x]
  | y :: l => if String.ltb y x then y :: insert_string x l else x :: y :: l
  end.
Definition sort_Strings (l : list string) : list string := foldr insert_string [] l.

Definition SortedPoliciesTWEDelimiter : string := String "127"%char "".
Definition ClientIDTWEDelimiter : string := String "000"%char "".

Section pipeline.
Context `{RadixTree} `{RadixSearch} `{GoTables} `{MapRange} `{Globbing} `{Parseutil} `{HCL} `{!Strsets} `{Sockaddr}
  `{Crypto} `{TokenCrypto} (c : Conf).

Definition CreateClientID (te : TokenEntry) : string * bool :=
  if decide (EntityID te = "") then
    let input := foldr (λ pol acc, SortedPoliciesTWEDelimiter +:+ pol +:+ acc)
                   (ClientIDTWEDelimiter +:+ NamespaceID te) (sort_Strings (Policies te)) in
    (b64_encode (of_bytes (SHA256 (bytes (str_drop 1 input)))), true)
  else (EntityID te, false).

(** ** The token of a request *)

Definition isLoginRequest (req : Req) : bool :=
  Router.LoginPath (conf_router c) (Some "") (req_Path (rq req)).

Definition IsJWT (token : string) : bool :=
  (3 <? String.length token)%nat && (Router.count_byte "."%char token =? 2)%nat
  && negb (bool_decide (String.get 3 token = Some "."%char))
  && negb (bool_decide (String.get 1 token = Some "."%char)).

Definition CalculateSignedTokenHMAC (marshalledToken : string) : res (list N) :=
  match headerHMACKey c with
  | None => Err (ErrBackend "token hmac key has not been initialized or has not been replicated yet to the active node")
  | Some key => Ok (HMAC_SHA256 key (bytes marshalledToken))
  end.

(** A token that is not one of ours is left as it is.  The storage of the
    community edition always has the state that a token asks for. *)
Definition checkSSCTokenInternal (token : string) : res string :=
  if negb (HasPrefix token ServiceTokenPrefix) || negb (IsSSCToken token) then Ok token
  else
    match rawurl_decode (str_drop 4 token) with
    | None => Ok token
    | Some tokenBytes =>
        match proto_SignedToken tokenBytes with
        | None => Ok token
        | Some (signed, mac) =>
            let hm := match CalculateSignedTokenHMAC signed with Ok hm => hm | Err _ => [] end in
            if negb (bool_decide (hm = bytes mac)) then Ok token
            else match proto_Token signed with None => Err ErrDecode | Some random => Ok random end
        end
    end.

Definition CheckSSCToken (token : string) (unauth : bool) : res string :=
  if unauth && negb (bool_decide (token = "")) then
    Ok (match DecodeSSCToken token with
        | Ok tok => if decide (tok = "") then token else tok
        | Err _ => token
        end)
  else checkSSCTokenInternal token.

Definition LookupToken (token : string) : prog srvE (res (option TokenEntry)) :=
  if Sealed c then Ret (Err (ErrBackend "Vault is sealed"))
  else if standby c && negb (perfStandby c) then Ret (Err (ErrBackend "Vault is in standby mode"))
  else if tokenStore_nil c || expiration_nil c then Ret (Ok None)
  else Lookup c token.

Definition PopulateTokenEntry (req : Req) : prog srvE (res Req) :=
  let token := req_ClientToken (rq req) in
  if decide (token = "") then Ret (Ok req)
  else
    let req := set_InboundSSCToken token req in
    match (if IsSSCToken token then CheckSSCToken token (isLoginRequest req) else Ok token) with
    | Err err => Ret (Err (if err_has is_PleaseForward err then err else ErrPermissionDenied))
    | Ok decodedToken =>
        let req := set_rq (set_ClientToken decodedToken (rq req)) req in
        te ← LookupToken token;
        Ret (match te with
             | Err err =>
                 if err_has is_PleaseForward err then Err err
                 else if IsJWT token then Ok req
                 else Err (ErrWrap "error performing token check: %w" err)
             | Ok None => Ok req
             | Ok (Some te) => Ok (set_token_info (Accessor te) (NumUses te) te req)
             end)
    end.

(** ** The policies of an entity *)

Definition HasParent (n possibleParent : Namespace) : bool :=
  bool_decide (ns_Path possibleParent = "")
  || (negb (bool_decide (ns_Path n = "")) && HasPrefix (ns_Path n) (ns_Path possibleParent)).

Definition groupPolicyApplicationModeWithinNamespaceHierarchy : string := "within_namespace_hierarchy".

(** The policies that apply, or an error; none at all is no error to the
    caller. *)
Definition getApplicableGroupPolicies (tokenNS : Namespace) (nsID : string) (nsPolicies : list string)
    (policyApplicationMode : string) : prog srvE (res (list string)) :=
  match NamespaceByID nsID with
  | Err err => Ret (Err err)
  | Ok policyNS =>
      if decide (ns_Path tokenNS = ns_Path policyNS) then Ret (Ok nsPolicies)
      else
        r ← range nsPolicies [] (λ policyName filtered,
              t ← GetNonEGPPolicyType (ns_ID policyNS) policyName;
              Ret (match t with
                   | None => inl filtered
                   | Some PolicyTypeRGP =>
                       inl (if HasParent tokenNS policyNS then filtered ++ [policyName] else filtered)
                   | Some PolicyTypeACL =>
                       inl (if negb (bool_decide (policyApplicationMode
                                       = groupPolicyApplicationModeWithinNamespaceHierarchy))
                               || HasParent policyNS tokenNS
                            then filtered ++ [policyName] else filtered)
                   | Some _ => inr (ErrBackend "unexpected policy type: %v")
                   end));
        Ret (match r with inl filtered => Ok filtered | inr err => Err err end)
  end.

Definition filterGroupPoliciesByNS (tokenNS : Namespace) (groupPolicies : gmap string (list string))
    : prog srvE (res (gmap string (list string))) :=
  mode ←? trigger (OnReq GroupPolicyApplicationMode);
  r ← range (range_keys groupPolicies) ∅ (λ nsID policies,
        filtered ← getApplicableGroupPolicies tokenNS nsID (default [] (groupPolicies !! nsID)) mode;
        Ret (match filtered with
             | Err err => inr err
             | Ok filtered =>
                 let filtered := RemoveDuplicates filtered in
                 inl (if decide (filtered = []) then policies
                      else <[nsID := default [] (policies !! nsID) ++ filtered]> policies)
             end));
  Ret (match r with inl policies => Ok policies | inr err => Err err end).

Definition fetchEntityAndDerivedPolicies (tokenNS : Namespace) (entityID : string)
    (skipDeriveEntityPolicies : bool)
    : prog srvE (res (option Identity * gmap string (list string))) :=
  if bool_decide (entityID = "") || identityStore_nil c then Ret (Ok (None, ∅))
  else
    entity ←? trigger (OnReq (FetchEntity entityID));
    match entity with
    | None => Ret (Ok (None, ∅))
    | Some entity =>
        if skipDeriveEntityPolicies then Ret (Ok (Some entity, ∅))
        else
          let policies := if decide (i_Policies entity = []) then ∅
                          else {[i_NamespaceID entity := i_Policies entity]} in
          groupPolicies ←? trigger (OnReq (GroupPoliciesByEntityID (i_ID entity)));
          policiesByNS ←? filterGroupPoliciesByNS tokenNS groupPolicies;
          Ret (Ok (Some entity,
                   fold_left (λ m nsID, <[nsID := default [] (m !! nsID) ++ default [] (policiesByNS !! nsID)]> m)
                     (range_keys policiesByNS) policies))
    end.

(** ** Access control for a token *)

(** Whether the token may be used from the address. *)
Definition bound_cidrs_ok (te : TokenEntry) (remote : option string) : bool :=
  if negb (TTL te =? 0) && negb (bool_decide (BoundCIDRs te = [])) then
    match remote with
    | None | Some "" => false
    | Some addr =>
        match NewSockAddr addr with
        | None => false
        | Some addr => existsb (λ cidr, Contains_addr cidr addr) (BoundCIDRs te)
        end
    end
  else true.

(** The names of the policies, by namespace. *)
Definition policy_names (te : TokenEntry) (identityPolicies : gmap string (list string))
    : gmap string (list string) :=
  fold_left (λ m nsID,
      <[nsID := SanitizePolicies (default [] (m !! nsID) ++ default [] (identityPolicies !! nsID)) false]> m)
    (range_keys identityPolicies) {[NamespaceID te := Policies te]}.

(** A wrapping token is used in the namespace of the request. *)
Definition wrapping_only (te : TokenEntry) (names : gmap string (list string)) (path : string) : bool :=
  (size names =? 1)%nat
  && match names !! NamespaceID te with
     | Some [name] => bool_decide (name = responseWrappingPolicyName)
                      || bool_decide (name = controlGroupPolicyName)
     | _ => false
     end
  && (HasSuffix path "sys/wrapping/unwrap" || HasSuffix path "sys/wrapping/lookup"
      || HasSuffix path "sys/wrapping/rewrap").

Record Grant := mkGrant {
  g_acl : ACL;
  g_te : TokenEntry;
  g_entity : option Identity;
  g_identityPolicies : gmap string (list string);
}.

(** The policy inside of the token. *)
Definition inline_policies (tokenNS : Namespace) (te : TokenEntry) : prog srvE (res (list Policy)) :=
  if decide (InlinePolicy te = "") then Ret (Ok [])
  else
    clock ← trigger (OnCore Now);
    Ret (match ParseACLPolicyCheckDuplicates clock tokenNS (InlinePolicy te) with
         | Ok p => Ok [p]
         | Err _ => Err ErrInternalError
         end).

(** The access control list of a token. *)
Definition token_acl (ns : Namespace) (path : string) (te : TokenEntry) : prog (lockE srvE) (res Grant) :=
  match NamespaceByID (NamespaceID te) with
  | Err _ => Ret (Err ErrInternalError)
  | Ok tokenNS =>
      identity ← steps (fetchEntityAndDerivedPolicies tokenNS (EntityID te) (NoIdentityPolicies te));
      match identity with
      | Err _ => Ret (Err ErrInternalError)
      | Ok (entity, identityPolicies) =>
          let names := policy_names te identityPolicies in
          inline ← steps (inline_policies tokenNS te);
          match inline with
          | Err err => Ret (Err err)
          | Ok inline =>
              acl ← ACL_ c (if wrapping_only te names path then ns else tokenNS) entity names inline;
              Ret (match acl with
                   | Err _ => Err ErrInternalError
                   | Ok acl => Ok (mkGrant acl te entity identityPolicies)
                   end)
          end
      end
  end.

(** The request comes back with the entry of its token. *)
Definition fetchACLTokenEntryAndEntity (ns : Namespace) (req : Req) : prog (lockE srvE) (Req * res Grant) :=
  if decide (req_ClientToken (rq req) = "") then Ret (req, Err ErrPermissionDenied)
  else if tokenStore_nil c then Ret (req, Err ErrInternalError)
  else
    te ← match rq_TokenEntry req with
         | Some te => Ret (Ok (Some te))
         | None => steps (Lookup c (req_ClientToken (rq req)))
         end;
    match te with
    | Err _ => Ret (req, Err ErrInternalError)
    | Ok te =>
        let req := SetTokenEntry te req in
        match te with
        | None => Ret (req, Err (ErrMulti [ErrPermissionDenied; ErrInvalidToken]))
        | Some te =>
            if bound_cidrs_ok te (rq_RemoteAddr req) then
              g ← token_acl ns (req_Path (rq req)) te; Ret (req, g)
            else Ret (req, Err ErrPermissionDenied)
        end
    end.

(** ** [CheckToken] *)

(** [existenceCheck]: whether a write creates or updates. *)
Definition core_existenceCheck (req : Req) : prog srvE (res string) :=
  r ← trigger (OnReq (RouteExistenceCheck (rq req)));
  let '(existsResp, checkExists, resourceExists, err) := r in
  let op := if checkExists && negb resourceExists then CreateOperation else UpdateOperation in
  Ret (match err with
       | Some ErrUnsupportedPath => Ok UpdateOperation
       | Some ErrRelativePath => Err (ErrUser "relative paths not supported")
       | Some (ErrUser what) => Err (ErrUser what)
       | Some _ => Err ErrInternalError
       | None =>
           match existsResp with
           | Some resp =>
               if IsError resp then
                 (* without a text there is no error, and the operation is a nil pointer *)
                 match resp_Data resp !! "error" with
                 | Some (VStr text | VSprintf text _) => Err (ErrBackend text)
                 | _ => Err (ErrBackend "invalid memory address or nil pointer dereference")
                 end
               else Ok op
           | None => Ok op
           end
       end).

(** The headers without the token. *)
Definition strip_token_headers (unauth : bool) (te : option TokenEntry) (req : Req) : Req :=
  let hs := req_Headers (rq req) in
  match rq_ClientTokenSource req with
  | ClientTokenFromVaultHeader => set_rq (set_Headers (delete "X-Vault-Token" <$> hs) (rq req)) req
  | ClientTokenFromAuthzHeader =>
      if negb unauth || bool_decide (is_Some te) then
        match default ∅ hs !! "Authorization" with
        | Some vs =>
            set_rq (set_Headers (<["Authorization" := filter (λ v, HasPrefix v "Bearer " = false) vs]> <$> hs)
                      (rq req)) req
        | None => req
        end
      else req
  | _ => req
  end.

(** A write gets the operation that the backend says it is. *)
Definition actual_operation (req : Req) : prog srvE (res Req) :=
  if bool_decide (req_Operation (rq req) = CreateOperation)
     || bool_decide (req_Operation (rq req) = UpdateOperation) then
    op ←? core_existenceCheck req; Ret (Ok (set_rq (set_Operation op (rq req)) req))
  else Ret (Ok req).

(** The existence check of a recovery from another path. *)
Definition recover_check (req : Req) : prog srvE (res ()) :=
  if bool_decide (req_Operation (rq req) = RecoverOperation)
     && negb (bool_decide (rq_RecoverSourcePath req = ""))
     && negb (bool_decide (rq_RecoverSourcePath req = req_Path (rq req))) then
    _ ←? core_existenceCheck (set_rq (set_Operation CreateOperation (rq req)) req); Ret (Ok tt)
  else Ret (Ok tt).

(** What is known of the caller, before the policies are checked. *)
Definition caller (g : option Grant) (rootPath : bool) (req : Req) : ReqAuth :=
  match g with
  | None =>
      mkReqAuth (req_ClientToken (rq req)) (rq_ClientTokenAccessor req) [] [] [] None "" "" ∅ 0 0 None rootPath false []
  | Some g =>
      let te := g_te g in
      let identity := default [] (g_identityPolicies g !! NamespaceID te) in
      mkReqAuth (req_ClientToken (rq req)) (rq_ClientTokenAccessor req) identity (Policies te)
        (SanitizePolicies (Policies te ++ identity) false) (Meta te) (DisplayName te) (EntityID te)
        (delete (NamespaceID te) (g_identityPolicies g)) (Type_ te) (TTL te)
        (if 0 <? CreationTime te then Some ((CreationTime te + Tpl.unixToInternal) * Second) else None)
        rootPath false []
  end.
Definition set_decision (allowed : bool) (granting : list PolicyInfo) (a : ReqAuth) : ReqAuth :=
  mkReqAuth (ra_ClientToken a) (ra_Accessor a) (ra_IdentityPolicies a) (ra_TokenPolicies a) (ra_Policies a)
    (ra_Metadata a) (ra_DisplayName a) (ra_EntityID a) (ra_ExternalNamespacePolicies a) (ra_TokenType a)
    (ra_TTL a) (ra_IssueTime a) (ra_priority a) allowed granting.

Record Checked := mkChecked {
  ck_req : Req;
  ck_auth : option ReqAuth;
  ck_te : option TokenEntry;
  ck_err : option goerr;
}.

(** The decision of the policies, and the count of clients. *)
Definition decide_request (ns : Namespace) (unauth rootPath : bool) (g : option Grant) (req : Req)
    : prog srvE Checked :=
  let te := g_te <$> g in
  let auth := caller g rootPath req in
  let '(clientID, isTWE) := match te with Some te => CreateClientID te | None => ("", false) end in
  let req := match te with
             | Some te => set_ClientID clientID (set_rq (set_EntityID (EntityID te) (rq req)) req)
             | None => req
             end in
  rc ← recover_check req;
  match rc with
  | Err err => Ret (mkChecked req None te (Some err))
  | Ok _ =>
      match performPolicyChecks (g_acl <$> g) (legacy_lists c) (Some (ns_Path ns)) (rq req)
              (mkOpts rootPath unauth) with
      | None => Ret (mkChecked req None te (Some (ErrBackend "index out of range")))
      | Some results =>
          if au_Allowed results then
            let auth := set_decision true (from_option GrantingPolicies [] (ACLResults_ results)) auth in
            match te with
            | Some entry =>
                if negb unauth && negb (activityLog_nil c) then
                  err ← trigger (OnReq (HandleTokenUsage entry clientID isTWE));
                  Ret (mkChecked req (Some auth) te err)
                else Ret (mkChecked req (Some auth) te None)
            | None => Ret (mkChecked req (Some auth) te None)
            end
          else Ret (mkChecked req (Some (set_decision false [] auth)) te (Some (ErrMulti [ErrPermissionDenied])))
      end
  end.

(** [CheckToken] after the token was looked up. *)
Definition check_found (ns : Namespace) (unauth : bool) (g : option Grant) (req : Req)
    : prog (lockE srvE) Checked :=
  let te := g_te <$> g in
  let entity := g ≫= g_entity in
  if from_option i_Disabled false entity then Ret (mkChecked req None te (Some ErrPermissionDenied))
  else if from_option (λ te, negb (bool_decide (EntityID te = ""))) false te && bool_decide (entity = None) then
    Ret (if perfStandby c then mkChecked req None None (Some ErrPleaseForward)
         else mkChecked req None te (Some ErrPermissionDenied))
  else
    let rootPath := Router.RootPath (conf_router c) (Some (ns_Path ns)) (req_Path (rq req)) in
    if rootPath && unauth then
      Ret (mkChecked req None None (Some (ErrBackend "cannot access root path in unauthenticated request")))
    else
      let req := strip_token_headers unauth te req in
      r ← steps (actual_operation req);
      match r with
      | Err err => Ret (mkChecked req None te (Some err))
      | Ok req => steps (decide_request ns unauth rootPath g req)
      end.

Definition CheckToken (ns : Namespace) (req : Req) (unauth : bool) : prog (lockE srvE) Checked :=
  fetched ← (if negb unauth || negb (bool_decide (req_ClientToken (rq req) = ""))
             then r ← fetchACLTokenEntryAndEntity ns req; Ret (r.1, Some r.2)
             else Ret (req, None));
  let '(req, r) := (fetched : Req * option (res Grant)) in
  match r with
  | Some (Err err) =>
      if negb unauth then Ret (mkChecked req None None (Some err)) else check_found ns unauth None req
  | Some (Ok g) => check_found ns unauth (Some g) req
  | None => check_found ns unauth None req
  end.

(** ** [handleRequest] *)

(** The token had its last use: it is revoked afterwards. *)
Definition revoke_used (te : TokenEntry) (r : Resp) : prog srvE Resp :=
  lease ← on_tok (RevocationLeaseByToken te);
  err ← match lease with
        | Ok leaseID => on_tok (LazyRevoke leaseID)
        | Err err => Ret (Some err)
        end;
  Ret (match err with
       | Some _ => (None, Some (append_err r.2 ErrInternalError))
       | None =>
           match r.1 with
           | Some resp =>
               if from_option (λ s, negb (bool_decide (LeaseID s = ""))) false (resp_Secret resp) then
                 (Some (ErrorResponse "Secret cannot be returned; token had one use left, so leased credentials were immediately revoked." []), r.2)
               else r
           | None => r
           end
       end).

(** A request that was refused. *)
Definition refuse_request (req : Req) (ctErr : goerr) : prog srvE Resp :=
  let retErr :=
    if err_has is_InternalError ctErr || err_has is_PermissionDenied ctErr then
      match ctErr with ErrMulti _ => ctErr | _ => ErrMulti [ctErr] end
    else ErrMulti [ErrInvalidRequest] in
  _ ← (if rq_ControlGroup req then Ret None else trigger (OnReq (LogRequest (rq req) (Some ctErr))));
  Ret (if err_has is_InternalError retErr then (None, Some retErr)
       else (Some (data_response [("error", err_text ctErr)]), Some retErr)).

(** The data that a recovery writes is read first, from the snapshot. *)
Definition recover_data (req : Req) : prog srvE (Resp + Req) :=
  if decide (req_Operation (rq req) = RecoverOperation) then
    let source := if decide (rq_RecoverSourcePath req = "") then req_Path (rq req) else rq_RecoverSourcePath req in
    r ← trigger (OnCore (Core.Route (set_Path source (set_Operation ReadOperation (rq req)))));
    Ret (match r with
         | (_, Some err) => inl (None, Some err)
         | (None, None) => inl (Some (ErrorResponse "no data in the snapshot" []), None)
         | (Some resp, None) =>
             if IsError resp then inl (Some resp, None)
             else inr (set_rq (set_Data (Some (resp_Data resp)) (rq req)) req)
         end)
  else Ret (inr req).

(** A request that was allowed: it is logged, and then it is on its way. *)
Definition allowed_request (ctx : ApprovalCore.Ctx) (entry : option Core.MountEntry) (auth : ReqAuth) (req : Req)
    : prog srvE Resp :=
  let req := set_rq (set_DisplayName (ra_DisplayName auth) (rq req)) req in
  err ← (if rq_ControlGroup req then Ret None else trigger (OnReq (LogRequest (rq req) None)));
  match (err : option goerr) with
  | Some _ => Ret (None, Some (ErrMulti [ErrInternalError]))
  | None =>
      r ← recover_data req;
      match r with
      | inl resp => Ret resp
      | inr req =>
          of_core (dispatch (conf_core c) ctx entry (rq req) (Some (Core.mkAuth (ra_Policies auth))))
      end
  end.

(** The token is used, whatever was decided. *)
Definition use_and_serve (ctx : ApprovalCore.Ctx) (entry : option Core.MountEntry) (ck : Checked) : prog srvE Resp :=
  let serve := match ck_err ck, ck_auth ck with
               | Some err, _ => refuse_request (ck_req ck) err
               | None, Some auth => allowed_request ctx entry auth (ck_req ck)
               | None, None => Ret (None, Some (ErrBackend "invalid memory address or nil pointer dereference"))
               end in
  match ck_te ck with
  | Some te =>
      if rq_ControlGroup (ck_req ck) then serve
      else
        used ← UseToken c (Some te);
        match used with
        | Err _ => Ret (None, Some (ErrMulti [ErrInternalError]))
        | Ok te =>
            if NumUses te =? tokenRevocationPending then r ← serve; revoke_used te r else serve
        end
  | None => serve
  end.

(** The response and the error; what [handleRequest] returns of the caller is
    only logged with the response. *)
Definition handleRequest (ctx : ApprovalCore.Ctx) (ns : Namespace) (req : Req) : prog (lockE srvE) Resp :=
  entry ← steps (trigger (OnCore (Core.MatchingMountEntry (req_Path (rq req)))));
  ck ← CheckToken ns req false;
  match ck_err ck with
  | Some err =>
      if err_has is_RelativePath err then Ret (Some (data_response [("error", err_text err)]), Some err)
      else if err_has is_PleaseForward err then Ret (None, Some err)
      else steps (use_and_serve ctx entry ck)
  | None => steps (use_and_serve ctx entry ck)
  end.

(** [handleCancelableRequest] from the token on, for a request to a path that
    is neither a login nor treated specially. *)
Definition handle_with_token (ctx : ApprovalCore.Ctx) (ns : Namespace) (req : Req) : prog (lockE srvE) Resp :=
  populated ← steps (PopulateTokenEntry req);
  match populated with
  | Err err => Ret (None, Some (if err_has is_PermissionDenied err then append_err (Some err) ErrInvalidToken else err))
  | Ok req =>
      if perfStandby c && (0 <? rq_ClientTokenRemainingUses req) then Ret (None, Some ErrPleaseForward)
      else handleRequest ctx ns req
  end.
End pipeline.
