(* ===== verification/Quiet.v ===== *)
(** * What lookups leave alone

    What a lookup or a use of a token may change is its entry, the locks and
    the number of effects.  Looking up tokens and policies neither routes a
    request nor logs one, and starts no deletion. *)

From S2P Require Import Prelude GoLib GoSplit Storage Core ApprovalTypes ApprovalCore CoreLogic Router Routing Templating Policy Acl Tokens Server PolicyStore TokenStore ServerLogic.
Import Token.

(** ** Tokens *)

(** A view of the server in which the entries of tokens do not show. *)
Class TokenBlind {T} (f : Server → T) : Prop := {
  blind_same : ∀ s s', same s s' → f s' = f s;
  blind_locks : ∀ m s, f (set_locks m s) = f s;
  blind_ids : ∀ m s, (∀ k, (∀ x, k ≠ id_key x) → m !! k = s_store s !! k) → f (set_store m s) = f s;
}.

Section tokens.
Context `{RadixTree} `{GoTables} `{MapRange} `{Globbing} `{Parseutil} `{HCL} `{!Strsets} `{Sockaddr}
  `{Crypto} `{TokenCrypto} (env : SEnv) (c : Conf).
#[local] Instance blind_handler : Handler srvE Server := srv_handler env.
Context {T : Type} (f : Server → T) `{!TokenBlind f}.

Lemma blind_lok {X} (e : lokE X) : fixes f (trigger (OnLok e)).
Proof.
  apply fixes_trigger. intros s. destruct e; cbn [handle blind_handler srv_handler srv_handle lok_handle snd];
    (etrans; [apply blind_same, same_tick|]); apply blind_locks.
Qed.

Lemma blind_now : fixes f (trigger (OnCore Now)).
Proof. apply fixes_wpr. intros s. apply wpr_now. intros s'. apply blind_same. Qed.

(** What the token store asks of others, revocations apart. *)
Definition asks {X} (e : tokE X) : Prop :=
  match e with
  | PendingLoadOrStore _ | PendingStore _ _ | PendingDelete _ | LazyRevoke _ => False
  | _ => True
  end.

Lemma blind_tok {X} (e : tokE X) : asks e → fixes f (trigger (OnTok e)).
Proof.
  intros He. apply fixes_trigger. intros s.
  destruct e; try done; cbn [handle blind_handler srv_handler srv_handle tok_handle snd];
    (etrans; [apply blind_same, same_tick|]); [done..| |done|done].
  apply blind_ids. intros k Hk. induction (exp_deleted env _) as [|x l IH]; [done|]. simpl.
  rewrite lookup_delete_ne; [done|]. by intros <-; apply (Hk x).
Qed.

(** What is asked of the identity store, of backends and of the activity log. *)
Lemma blind_req {X} (e : reqE X) :
  match e with LogRequest _ _ => False | _ => True end → fixes f (trigger (OnReq e)).
Proof. intros He. apply fixes_trigger. intros s. by destruct e; try done; apply blind_same, same_tick. Qed.

Lemma blind_Get k : fixes f (Get (idView c) k).
Proof. apply fixes_wpr. intros s. apply (wpr_Get env _ "token/id/"). intros r s' Hs _. by apply blind_same. Qed.

Lemma blind_Put k b : fixes f (Put (idView c) (Some (mkEntry k b))).
Proof.
  apply fixes_wpr. intros s. apply (wpr_Put env _ "token/id/"). intros err s' Hs.
  assert (∀ s', with_store (<[sys_key "token/id/" k := b]> (s_store s)) s s' → f s' = f s) as Hw.
  { intros s2 Hs2. etrans; [by apply blind_same|]. apply blind_ids. intros k' Hk'. apply lookup_insert_ne.
    by intros <-; apply (Hk' k). }
  destruct err as [err|]; [destruct Hs as [Hs|[_ Hs]]|]; [by apply blind_same|by apply Hw..].
Qed.
#[local] Hint Resolve fixes_ret blind_Get blind_Put blind_now : core.

Lemma blind_store te : fixes f (store c te).
Proof. unfold store. destruct (NamespaceByID _); [|done]. by apply fixes_wrapped, fixes_checked. Qed.

Lemma blind_live te tainted : fixes f (live_entry c te tainted).
Proof.
  unfold live_entry.
  assert (fixes f (if persistNeeded te then wrapped "failed to persist token upgrade: %w" (store c (upgrade te))
                   else Ret (Ok tt))) as Hp by (case_match; [apply fixes_wrapped, blind_store|done]).
  destruct (_ && _); [by apply fixes_try|]. destruct (IsRoot _); [done|]. destruct (expiration_nil c); [done|].
  destruct (decide _); [done|]. apply fixes_try; [by apply fixes_wrapped, blind_tok|]. intros [exp|].
  - apply fixes_bind; [done|]. intros now. by apply fixes_try.
  - destruct (perfStandby c); [done|]. destruct (NamespaceByID _); [|done].
    apply fixes_try; [by apply blind_tok|]. intros lease. apply fixes_try; [by apply fixes_checked, blind_tok|].
    intros _. by apply fixes_try.
Qed.

Lemma blind_lookup_with lb id salted tainted :
  (∀ id, fixes f (lb id)) → fixes f (lookup_with c lb id salted tainted).
Proof.
  intros Hlb. unfold lookup_with. destruct (IsBatchToken id); [done|]. apply fixes_try; [done|]. intros key.
  apply fixes_try; [by apply fixes_wrapped|]. intros [raw|]; [|done].
  destruct (DecodeJSON _ _); [|done]. destruct (_ && _); [done|apply blind_live].
Qed.

Lemma blind_batch lookup id : (∀ id, fixes f (lookup id)) → fixes f (batch_with lookup id).
Proof.
  intros Hl. apply fixes_try; [by apply blind_tok|]. intros [te|]; [|done].
  apply fixes_bind; [done|]. intros now. destruct (_ <? _); [done|].
  destruct (decide _); [done|]. by apply fixes_try.
Qed.

Lemma blind_Lookup_chain fuel id : fixes f (Lookup_chain c fuel id).
Proof.
  revert id. induction fuel as [|fuel IH]; intros id; [done|]. cbn [Lookup_chain].
  destruct (decide _); [done|]. destruct (IsBatchToken id); [by apply blind_batch|].
  apply fixes_bind; [apply blind_lok|]. intros _.
  apply fixes_bind; [apply blind_lookup_with; intros ?; by apply blind_batch|]. intros r.
  apply fixes_bind; [apply blind_lok|done].
Qed.

Lemma blind_Lookup id : fixes f (Lookup c id).
Proof. apply blind_Lookup_chain. Qed.

Lemma blind_lookupInternal id salted tainted : fixes f (lookupInternal c id salted tainted).
Proof. apply blind_lookup_with. intros ?. apply blind_batch. intros ?. apply blind_Lookup_chain. Qed.

Lemma blind_UseToken te : fixes f (UseToken c te).
Proof.
  unfold UseToken. destruct te as [te|]; [|done]. destruct (_ =? _); [done|]. destruct (bool_decide _); [done|].
  apply fixes_bind; [apply blind_lok|]. intros _. apply fixes_bind.
  - apply fixes_try; [apply fixes_wrapped, blind_lookupInternal|]. intros [te'|]; [|done].
    apply fixes_try; [apply blind_store|done].
  - intros r. apply fixes_bind; [apply blind_lok|done].
Qed.
End tokens.

(** ** Routing, logging and deletions *)

(** What is routed, leased, logged and under way for deletion. *)
Definition outside (s : Server) : list Core.Request * list (Core.Request * Secret) * list Core.Request * gmap string bool :=
  (w_routed (s_core s), w_leases (s_core s), s_audit s, s_pending s).

Lemma same_outside s s' : same s s' → outside s' = outside s.
Proof.
  intros Hs. unfold outside. rewrite (same_audit _ _ Hs), (same_pending _ _ Hs).
  destruct Hs as (w & [_ Hr _ Hl] & ->). simpl. by rewrite Hr, Hl.
Qed.

#[export] Instance outside_blind : TokenBlind outside.
Proof. split; [exact same_outside|done..]. Qed.

Section quiet.
Context `{RadixTree} `{GoTables} `{MapRange} `{Globbing} `{Parseutil} `{HCL} `{!Strsets} `{Sockaddr}
  `{Crypto} `{TokenCrypto} (env : SEnv) (c : Conf).
#[local] Instance quiet_handler : Handler srvE Server := srv_handler env.

Abbreviation quiet := (fixes outside).

Lemma quiet_pol {X} (e : polE X) : quiet (trigger (OnPol e)).
Proof. apply fixes_trigger. intros s. destruct e; try done; by destruct c0. Qed.

Lemma quiet_now : quiet (trigger (OnCore Now)).
Proof. apply (blind_now env outside). Qed.

Lemma quiet_Get sub k : quiet (Get (server_storage (sys_view (conf_core c) sub)) k).
Proof. apply fixes_wpr. intros s. apply wpr_Get. intros r s' Hs _. by apply same_outside. Qed.
#[local] Hint Resolve fixes_ret quiet_pol quiet_now quiet_Get : core.

(** ** Policies *)

Lemma quiet_cache_Get l i : quiet (cache_Get c l i).
Proof. unfold cache_Get. destruct (CachingDisabled c); [done|by apply quiet_pol]. Qed.
Lemma quiet_cache_Add l i p : quiet (cache_Add c l i p).
Proof. unfold cache_Add. destruct (CachingDisabled c); [done|by apply quiet_pol]. Qed.
#[local] Hint Resolve quiet_cache_Get quiet_cache_Add : core.

Lemma quiet_probe_cache ns name t : quiet (probe_cache c ns name t).
Proof.
  apply fixes_bind; [done|]. intros [p|]; [done|]. destruct (_ && _); [|done]. by apply fixes_bind.
Qed.

Lemma quiet_probe ns name t : quiet (probe_policy c ns name t).
Proof.
  unfold probe_policy. destruct t; try apply quiet_probe_cache.
  apply fixes_bind; [done|]. intros [[]|]; try done; apply quiet_probe_cache.
Qed.

Lemma quiet_read ns name t : quiet (read_stored c ns name t).
Proof.
  apply fixes_bind; [by destruct t; apply quiet_Get|]. intros [[out|]|]; [|done..].
  destruct (DecodeJSON _ _) as [pe|]; [|done]. destruct (number_type _) as [[]|]; try done.
  - apply fixes_bind; [done|]. intros clock.
    destruct (ParseACLPolicyCheckDuplicates _ _ _); [|done]. apply fixes_bind; [done|].
    intros _. by apply fixes_bind.
  - apply fixes_bind; [done|]. intros _. by apply fixes_bind.
  - by apply fixes_bind.
Qed.

Lemma quiet_GetPolicy ns name t : quiet (GetPolicy c ns name t).
Proof.
  apply fixes_bind; [apply fixes_steps, quiet_probe|]. intros [r|t']; [done|].
  apply fixes_locked. apply fixes_bind; [done|]. intros [p|]; [done|apply quiet_read].
Qed.

Lemma quiet_ACL ns entity names additional : quiet (ACL_ c ns entity names additional).
Proof.
  apply fixes_bind.
  - apply fixes_range. intros nsID all. destruct (NamespaceByID nsID); [|done].
    apply fixes_range. intros name l. apply fixes_bind; [apply quiet_GetPolicy|done].
  - intros [named|]; [|done]. apply fixes_bind; [|done]. apply fixes_steps, fixes_range.
    intros p [l fetched]. destruct (_ && _); [|done]. apply fixes_bind.
    + by destruct fetched, entity.
    + intros [groups|]; [|done]. apply fixes_bind; [done|]. intros clock. done.
Qed.
End quiet.
