(* ===== verification/ServerScenario.v ===== *)
(** * A concrete server

    Implementations of the library functions that tokens are modelled over, an
    environment in which nothing fails, and a server that has just started. *)

From S2P Require Import Prelude GoLib GoSplit Storage Core ApprovalTypes ApprovalCore Scenario Router Routing RouterScenario Templating Policy Acl Tokens Server PolicyStore TokenStore ServerLogic TokenFacts.

(** Every text is an address, and an address contains itself. *)
#[export] Program Instance plain_addresses : Sockaddr := {|
  NewSockAddr s := Some s;
  Contains_addr a b := bool_decide (a = b);
|}.
Next Obligation. by intros s a [= ->]. Qed.

#[export] Program Instance plain_sets : Strsets := {|
  RemoveDuplicates_lower l := remove_dups (filter (λ x, x ≠ "") (Token.lower_trim <$> l));
|}.
Next Obligation.
  intros l x. rewrite elem_of_remove_dups, list_elem_of_filter, list_elem_of_fmap. naive_solver.
Qed.
Next Obligation. intros l. apply NoDup_remove_dups. Qed.

(** Stand-ins for the hashes and the encodings. *)
#[export] Instance plain_crypto : TokenCrypto := {|
  HMAC_SHA256 _ data := data;
  SHA256 data := data;
  Blake2b256Hash key := bytes key;
  proto_SignedToken s := Some (s, s);
  proto_Token s := Some s;
|}.

(** No cache evicts, no entity is known, every lease lasts for a day, and
    every part answers. *)
Definition senv0 : SEnv := {|
  on_core := env0;
  evicted _ := ∅;
  random_id n := Ok ("id-" +:+ pretty n);
  encrypt_batch _ te := Ok (Token.DisplayName te);
  batch_text _ := Ok None;
  sign_token _ inner := Some inner;
  lease_times _ _ := Ok (Some (t2025 + 24 * Hour));
  revocation_lease _ te := Ok ("auth/token/create/" +:+ Token.ID te);
  exp_revoke _ _ := None;
  exp_deleted _ := [];
  lazy_revoke _ _ := None;
  revoke_by_token _ _ := None;
  destroy_cubbyhole _ _ := None;
  entities _ _ := Ok None;
  group_policies _ _ := Ok ∅;
  groups_of _ _ := Ok [];
  group_mode _ := Ok "";
  existence _ _ := (None, false, false, None);
  log_request _ _ _ := None;
  token_usage _ _ := None;
|}.

Definition conf0 : Conf :=
  mkConf core0 false false false Router.NewRouter "salt" false false (Ok false) false false false false false
    (Some []) false.

(** A server with the given entries, whose policy store knows the root
    policy. *)
Definition server0 (m : gmap string blob) : Server :=
  mkServer (world0 m) {["root/root" := root_policy]} ∅ {["root/root" := PolicyTypeACL]} ∅ [] [] ∅.

(** A token that may be used once, and its parent. *)
Definition child_token : Token.TokenEntry :=
  Token.mk Token.TokenTypeService "child" "" "acc" "parent" ["default"] "" "auth/token/create" None None
    "token" 1 1735689600 3600 0 "" 0 "" 0 0 0 "" false [] RootNamespaceID "".
Definition parent_token : Token.TokenEntry :=
  Token.mk Token.TokenTypeService "parent" "" "acc2" "" ["default"] "" "auth/token/create" None None
    "token" 0 1735689600 3600 0 "" 0 "" 0 0 0 "" false [] RootNamespaceID "".

Definition put_token (te : Token.TokenEntry) : gmap string blob → gmap string blob :=
  <[id_key (token_SaltID conf0 (Token.ID te)) := Doc (Token.enc_token te)]>.
Definition put_child (parent child : string) : gmap string blob → gmap string blob :=
  <[sys_key "token/parent/" (token_SaltID conf0 parent +:+ "/" +:+ token_SaltID conf0 child) := NotJSON]>.

(** The two tokens stored. *)
Definition family : gmap string blob :=
  put_child "parent" "child" (put_token child_token (put_token parent_token ∅)).

Lemma wf_child : wf_token child_token.
Proof. by repeat constructor. Qed.
Lemma wf_parent : wf_token parent_token.
Proof. by repeat constructor. Qed.
