(* ===== verification/TokenTheorems.v ===== *)
(** * What the token store promises, and where it does not *)

From S2P Require Import Prelude GoLib GoSplit Utf8 Storage StorageFacts Core ApprovalTypes ApprovalJson ApprovalCore CoreLogic Scenario Router Routing RouterScenario Templating Policy Acl AclSound Tokens Server PolicyStore TokenStore ServerLogic TokenFacts TokenUses TokenRevoke TokenLookup Quiet ServerScenario.
Import Token.

(** ** The count of a token *)

Inductive TokenOp :=
| OpUse (id : string)
| OpLookup (id : string)
| OpLookupTainted (id : string)
| OpRevoke (id : string)
| OpRevokeTree (fuel : nat) (token : string).

Section uses.
Context `{RadixTree} `{GoTables} `{MapRange} `{Globbing} `{Parseutil} `{HCL} `{!Strsets} `{Sockaddr}
  `{Crypto} `{TokenCrypto} (env : SEnv) (c : Conf).

(** A use returns the entry it was given. *)
Definition token_op (op : TokenOp) : prog srvE (option TokenEntry) :=
  match op with
  | OpUse id => r ← UseTokenByID c id; Ret (match r with Ok te => Some te | Err _ => None end)
  | OpLookup id => _ ← Lookup c id; Ret None
  | OpLookupTainted id => _ ← lookupTainted c id; Ret None
  | OpRevoke id => _ ← handleRevokeTree c id; Ret None
  | OpRevokeTree fuel token => _ ← revokeTree c fuel token; Ret None
  end.

(** The thread has used the token. *)
Definition uses (i0 : string) (t : prog srvE (option TokenEntry)) : bool :=
  match t with Ret (Some te) => bool_decide (ID te = i0) | _ => false end.

(** Entries are stored under their own identifiers, and the index of children
    has the keys that are written to it. *)
Record well_kept (s : Server) : Prop := {
  wk_placed : ∀ key v te, s_store s !! id_key key = Some (Doc v) → dec_token v = Ok te → placed c key te;
  wk_index : ∀ key, is_Some (s_store s !! sys_key "token/parent/" key) → index_key key;
}.

(** What the creation of a batch token encrypts has no count. *)
Definition batch_unlimited : Prop := ∀ t te, batch_text env t = Ok (Some te) → NumUses te = 0.

Lemma J_op i0 op :
  IsSSCToken i0 = false → IsBatchToken i0 = false → batch_unlimited →
  J env c i0 (Out false) (token_op op)
    (λ g r, ∃ sp, g = Out sp ∧ ((∃ te, r = Some te ∧ ID te = i0) → sp = true)).
Proof.
  intros Hss Hb Hu.
  assert (∃ sp, Out false = Out sp ∧ ((∃ te, None = Some te ∧ ID te = i0) → sp = true)) as Hno.
  { exists false. split; [done|]. by intros (? & ? & _). }
  destruct op as [id|id|id|id|fuel token]; apply J_bind.
  - eapply J_mono; [|by apply J_UseTokenByID]. intros g r (sp & -> & Hr). exists sp. split; [done|].
    destruct r as [te|err]; [|by intros (? & ? & _)]. intros (te' & [= <-] & Hi). apply Hr. by exists te.
  - eapply J_mono; [|by apply J_Lookup]. by intros g r [[m ->] _].
  - unfold lookupTainted. destruct (decide _); [done|]. apply J_with_RLock.
    eapply J_mono; [|by apply J_lookupInternal]. by intros g r [[m ->] _].
  - unfold handleRevokeTree. destruct (decide _); [done|]. unfold revokeCommon. apply J_bind.
    eapply J_mono; [|by apply J_Lookup]. intros g [[te|]|] [[m ->] _]; [|done..].
    destruct (decide _); [done|]. destruct (NamespaceByID _); [|done].
    apply J_bind, J_try, J_tok. intros s. destruct (tok_handle _ _ _ _).1; [|done].
    apply J_checked, J_tok. intros s'. by destruct (tok_handle _ _ _ _).1.
  - by apply J_revokeTree.
Qed.

Lemma uses_spent i0 gs ts :
  Forall2 (λ g p, J env c i0 g p (λ g r, ∃ sp, g = Out sp ∧ ((∃ te, r = Some te ∧ ID te = i0) → sp = true))) gs ts →
  (length (filter (λ t, uses i0 t = true) ts) ≤ spends gs)%nat.
Proof.
  unfold spends. induction 1 as [|g p gs ts Hg _ IH]; [done|]. rewrite !filter_cons.
  destruct (uses i0 p) eqn:Hu; simpl; [|destruct (spent g); simpl; lia].
  destruct p as [[te|]|]; [|done..]. apply bool_decide_eq_true in Hu. destruct Hg as (sp & -> & Hsp).
  rewrite Hsp by eauto. simpl. lia.
Qed.

(** C22: a service token with a count, stored in today's form and not that
    of a control group, is not used more often than that: in every
    interleaving of uses, lookups (also of tainted tokens), revocations and
    revocations of a tree, of any tokens, at most as many uses succeed as the
    count allows, whatever the storage and the expiration manager answer.
    The revocation that makes orphans of a token's children is not among
    these operations: it writes the children's entries back from a copy read
    before their locks are taken, and so can give a use back
    ([orphaning_gives_use_back]). *)
Theorem uses_bounded i0 te0 ops ts s s' :
  IsSSCToken i0 = false → IsBatchToken i0 = false → batch_unlimited → well_kept s →
  s_store s !! id_key (token_SaltID c i0) = Some (Doc (enc_token te0)) → limited i0 te0 → 0 < NumUses te0 →
  rtc (thread_step env) (token_op <$> ops, s) (ts, s') →
  Z.of_nat (length (filter (λ t, uses i0 t = true) ts)) ≤ NumUses te0.
Proof.
  intros Hss Hb Hu [Hpl Hix] Hst Hl Hn Hsteps.
  eapply (Pool_steps env c i0 _ (NumUses te0)) in Hsteps as (gs & a & [Hth Hinv Hsum _ _]).
  { apply uses_spent in Hth. pose proof (inv_pos _ _ _ _ Hinv). lia. }
  exists (replicate (length ops) (Out false)), (NumUses te0). split.
  - apply Forall2_fmap_r, Forall2_replicate_l; [done|]. apply Forall_forall. intros op _. by apply J_op.
  - split; [lia|done| |done]. intros v te. rewrite Hst. intros [= <-].
    pose proof Hl as (_ & Hw & _). rewrite dec_enc_token by done. intros [= <-]. split; [done|lia].
  - assert (spends (replicate (length ops) (Out false)) = 0%nat) as ->; [|lia].
    induction (length ops) as [|m IH]; [done|]. simpl. unfold spends. by rewrite filter_cons.
  - intros i g [-> _]%lookup_replicate. done.
  - intros i j g g' [-> _]%lookup_replicate _ [=].
Qed.
End uses.

(** ** Revocation *)

Section revocation.
Context `{RadixTree} `{GoTables} `{MapRange} `{Globbing} `{Parseutil} `{HCL} `{!Strsets} `{Sockaddr}
  `{Crypto} `{TokenCrypto} (env : SEnv) (c : Conf).
#[local] Instance theorem_handler : Handler srvE Server := srv_handler env.

(** Nothing fails, every entry is in today's form, and no deletion is under
    way for a token that is still there. *)
Record orderly (s : Server) : Prop := {
  or_disk : sound_disk (disk s);
  or_tidy : tidy c (s_store s);
  or_index : ∀ k, is_Some (s_store s !! idx_key k) → index_key k;
  or_pending : ∀ x, s_pending s !! x = Some true → s_store s !! id_key x = None;
}.

(** Steps that are enough for the walk over the tree. *)
Definition tree_fuel (m : gmap string blob) : nat :=
  1 + (2 * length (edges m) + 3) * (1 + length (edges m)).

(** C23: revoking a token with its descendants ends, with success when nothing
    fails, and leaves the entry of none of them, however the index of
    children is linked, cycles included. *)
Theorem tree_revoked fuel token s :
  fault_free env c → parts_answer env c → orderly s → token ≠ "" → (tree_fuel (s_store s) ≤ fuel)%nat →
  let r := run (revokeTree c fuel token) s in
  r.1 = Some (Ok tt) ∧
  ∀ x, descendant (s_store s) (token_SaltID c token) x → s_store r.2 !! id_key x = None.
Proof.
  intros Hf Hp [Hd Ht Hi Hpe] Hn Hfuel. set (m := s_store s) in *. set (r0 := token_SaltID c token).
  enough (wpr (revokeTree c fuel token) (λ r s', r = Some (Ok tt) ∧
    ∃ m' p', at_ m' p' s' ∧ ∀ x, descendant m r0 x → m' !! id_key x = None) s) as (Hr & m' & p' & (_ & Hst & _) & Hg).
  { split; [exact Hr|]. intros x Hx. rewrite Hst. by apply Hg. }
  unfold revokeTree. rewrite decide_False by done. unfold revokeTreeInternal. apply wpr_bind.
  assert (∀ s1, at_ m (s_pending s) s1 → wpr (revoke_loop c fuel [r0] ∅) (λ r s', r = Some (Ok tt) ∧
    ∃ m' p', at_ m' p' s' ∧ ∀ x, descendant m r0 x → m' !! id_key x = None) s1) as Hloop.
  { intros s1 Hs1. apply (at_revoke_loop env c Hf Hp m r0 fuel _ _ m (s_pending s)); [done|split|].
    - done.
    - intros k Hk. split; [done|by apply Hi].
    - apply Forall_singleton. split; [apply plain_salted|by left].
    - right. by left.
    - set_solver.
    - by left.
    - set_solver.
    - done.
    - unfold steps_left, unseen. rewrite !decide_False by set_solver. cbn [length].
      unfold tree_fuel in Hfuel. fold m in Hfuel. eapply Nat.le_trans; [|exact Hfuel].
      rewrite Nat.add_0_r. apply Nat.add_le_mono_l, Nat.mul_le_mono_l, Nat.add_le_mono_l, length_filter. }
  apply (at_lookup env c Hf Hp r0 _ m (s_pending s)); [done|apply plain_salted|done|..].
  - intros s1 Hs1 _. by apply Hloop.
  - intros te s1 Hs1 _ (_ & _ & Hns & _). cbn [NamespaceID upgrade]. rewrite root_ns_known by done. by apply Hloop.
Qed.

(** ** Deletions under way *)

(** The state in which a revocation begins its work. *)
Definition begun (saltedID : string) (s : Server) : Server :=
  (run (on_tok (PendingLoadOrStore saltedID)) s).2.

(** The revocation stops early: the entry cannot be read, or is not there, or
    cannot be marked. *)
Definition stops_early (saltedID : string) (s : Server) : Prop :=
  let r := run (lookupInternal c saltedID true true) (begun saltedID s) in
  match r.1 with
  | Err _ | Ok None => True
  | Ok (Some entry) => ID entry ≠ saltedID ∧ is_ok (run (mark_revoked c entry) r.2).1 = false
  end.

Lemma mark_fails entry saltedID s :
  ID entry ≠ saltedID → is_ok (run (mark_revoked c entry) s).1 = false →
  s_pending (run (mark_revoked c entry) s).2 !! saltedID = s_pending s !! saltedID.
Proof.
  intros Hne. unfold mark_revoked. destruct (_ =? _); [done|]. rewrite run_bind.
  pose proof (blind_store env c outside (set_NumUses tokenRevocationPending entry) s) as [= _ _ _ Hk].
  destruct (run (store _ _) s) as [[[]|err] s1]; [done|]. intros _. simpl in Hk. rewrite <-Hk.
  cbn [fst snd]. unfold on_tok. rewrite run_bind, run_trigger. simpl. by apply lookup_insert_ne.
Qed.

Lemma stopped saltedID skip s :
  s_pending s !! saltedID = None → stops_early saltedID s →
  s_pending (run (revokeInternal c saltedID skip) s).2 !! saltedID = Some true.
Proof.
  intros Hn Hst. unfold revokeInternal. rewrite run_bind.
  assert (s_pending (begun saltedID s) !! saltedID = Some true) as Hb.
  { unfold begun, on_tok. rewrite run_trigger. simpl. rewrite Hn. apply lookup_insert_eq. }
  unfold stops_early in Hst. fold (begun saltedID s).
  assert ((run (on_tok (PendingLoadOrStore saltedID)) s).1 = None) as ->.
  { unfold on_tok. rewrite run_trigger. exact Hn. }
  rewrite bool_decide_eq_false_2 by done. unfold try. rewrite run_bind.
  pose proof (blind_lookupInternal env c outside saltedID true true (begun saltedID s)) as [= _ _ _ Hk].
  destruct (run (lookupInternal _ _ _ _) _) as [[[entry|]|err] s1]; simpl in Hk, Hst |- *; [|by rewrite Hk..].
  destruct Hst as [Hne Hm]. rewrite run_bind. pose proof (mark_fails entry saltedID s1 Hne Hm) as Hp.
  destruct (run (mark_revoked _ _) _) as [[[]|err] s2]; [done|]. simpl in Hp |- *. by rewrite Hp, Hk.
Qed.
End revocation.

Section retry.
Context `{RadixTree} `{GoTables} `{MapRange} `{Globbing} `{Parseutil} `{HCL} `{!Strsets} `{Sockaddr}
  `{Crypto} `{TokenCrypto} (c : Conf).

(** C38: a revocation that stops early is never taken up again: the deletion
    stays under way in the map, and each later revocation of the same token,
    whatever is stored by then and whatever works again, reports success
    without doing anything. *)
Theorem revocation_not_retried env env' saltedID skip skip' s s' :
  s_pending s !! saltedID = None → stops_early env c saltedID s →
  s_pending s' = s_pending (run (H:=srv_handler env) (revokeInternal c saltedID skip) s).2 →
  run (H:=srv_handler env') (revokeInternal c saltedID skip') s' = (Ok tt, s_tick s').
Proof.
  intros Hn Hst Hs'. apply stopped with (skip := skip) in Hst; [|done]. unfold theorem_handler in Hst.
  rewrite <-Hs' in Hst. unfold revokeInternal, on_tok. rewrite run_bind, run_trigger.
  cbn [handle srv_handler srv_handle tok_handle fst snd]. by rewrite Hst.
Qed.
End retry.

(** ** On the concrete server *)

Lemma family_kept : well_kept conf0 (server0 family).
Proof.
  split.
  - intros key v te. change (s_store (server0 family)) with family.
    unfold family, put_child, put_token. rewrite lookup_insert_ne by done. rewrite lookup_insert_Some.
    intros [[Hk [= <-]]|[_ Hv]].
    { apply id_key_inj in Hk as <-. rewrite dec_enc_token by apply wf_child. intros [= <-]. by repeat split. }
    apply lookup_insert_Some in Hv as [[Hk [= <-]]|[_ Hv]]; [|by apply lookup_empty_Some in Hv].
    apply id_key_inj in Hk as <-. rewrite dec_enc_token by apply wf_parent. intros [= <-]. by repeat split.
  - intros key. change (s_store (server0 family)) with family.
    unfold family, put_child, put_token. rewrite lookup_insert_is_Some. intros [Hk|[_ Hk]].
    + apply sys_key_inj in Hk as <-. eexists _, _. split; [done|]. split; apply plain_salted.
    + rewrite !lookup_insert_ne in Hk by done. by destruct Hk as [b ?%lookup_empty_Some].
Qed.

Definition use_ops : list TokenOp := [OpUse "child"; OpUse "child"; OpRevokeTree 10 "child"; OpLookup "parent"].
Definition use_run : list (prog srvE (option TokenEntry)) * Server :=
  thread_schedule senv0 ([0; 1; 0; 1; 0; 1; 0; 0; 0; 1; 1; 1; 2; 2; 2; 0; 0; 0; 0; 0; 1; 1; 1; 1; 1; 1; 1])%nat
    (token_op conf0 <$> use_ops, server0 family).

Lemma uses_bounded_witness :
  Z.of_nat (length (filter (λ t, uses "child" t = true) use_run.1)) ≤ 1.
Proof.
  apply (uses_bounded senv0 conf0 "child" child_token use_ops use_run.1 (server0 family) use_run.2).
  - done.
  - done.
  - by intros t te.
  - apply family_kept.
  - vm_compute. reflexivity.
  - split_and!; [done|apply wf_child|done|done|done].
  - done.
  - rewrite <-surjective_pairing. apply thread_schedule_steps.
Defined.

(** One of the two uses succeeds in this schedule. *)
Lemma use_run_one : (uses "child" <$> use_run.1) = [false; true; false; false].
Proof. vm_compute. reflexivity. Qed.

Lemma senv0_fault_free : fault_free senv0 conf0.
Proof. done. Qed.
Lemma senv0_answers : parts_answer senv0 conf0.
Proof. split_and!; [done| |done..]. by eexists. Qed.

Lemma tidy_put te m :
  wf_token te → persistNeeded te = false → root_ns (NamespaceID te) → root_ns (SplitIDFromString (Parent te)).2 →
  tidy conf0 m → tidy conf0 (put_token te m).
Proof.
  unfold put_token. intros Hw Hn Hns Hp Hm x b Hx [[Hk <-]|[_ Hb]]%lookup_insert_Some; [|by eapply Hm].
  apply id_key_inj in Hk as <-. eexists _, te. split; [done|]. split; [by apply dec_enc_token|done].
Qed.

Lemma tidy_empty : tidy conf0 ∅.
Proof. intros x b _ Hb. by apply lookup_empty_Some in Hb. Qed.

Lemma orderly_server0 m :
  tidy conf0 m → (∀ k, is_Some (m !! idx_key k) → index_key k) → orderly conf0 (server0 m).
Proof. by intros Ht Hi; split. Qed.

Lemma family_orderly : orderly conf0 (server0 family).
Proof.
  apply orderly_server0; [|exact (wk_index _ _ family_kept)].
  intros x b Hx. unfold family, put_child. rewrite lookup_insert_ne by done. revert x b Hx.
  apply (tidy_put child_token); [apply wf_child|done|by right|by left|].
  apply (tidy_put parent_token); [apply wf_parent|done|by right|by left|apply tidy_empty].
Qed.

Lemma lookup_live_witness : live senv0 conf0 family 0 "parent" parent_token.
Proof. apply (lookup_live senv0 conf0 "parent" parent_token (server0 family)). vm_compute. reflexivity. Defined.

Lemma tree_revoked_witness :
  s_store (run (H:=srv_handler senv0) (revokeTree conf0 11 "parent") (server0 family)).2
    !! id_key (token_SaltID conf0 "child") = None.
Proof.
  apply (tree_revoked senv0 conf0 11 "parent" (server0 family)).
  - apply senv0_fault_free.
  - apply senv0_answers.
  - apply family_orderly.
  - done.
  - vm_compute. lia.
  - apply rtc_once. split_and!; [apply plain_salted..|]. apply lookup_insert_is_Some. by left.
Defined.

(** The token is revoked before there is one, and stored later. *)
Lemma revocation_not_retried_witness :
  let s' := set_store family
    (run (H:=srv_handler senv0) (revokeInternal conf0 (token_SaltID conf0 "child") true) (server0 ∅)).2 in
  run (H:=srv_handler senv0) (revokeInternal conf0 (token_SaltID conf0 "child") false) s' = (Ok tt, s_tick s').
Proof.
  intros s'.
  apply (revocation_not_retried conf0 senv0 senv0 _ true false (server0 ∅) s'); [done|vm_compute; exact I|done].
Defined.

(** Two uses of the child, and the revocation of its parent. *)
Definition orphan_threads : list (prog srvE (option TokenEntry)) :=
  [token_op conf0 (OpUse "child"); _ ← handleRevokeOrphan conf0 "parent"; Ret None;
   token_op conf0 (OpUse "child")].
Definition orphan_schedule : list nat :=
  repeat 1%nat 17 ++ repeat 0%nat 20 ++ repeat 1%nat 20 ++ repeat 2%nat 20.

(** A run in which making a token's children orphans gives them their uses
    back: the child's entry is read before its lock is taken, so that a use
    in between is undone when the entry is written, and a token for one use
    is used twice. *)
Example orphaning_gives_use_back :
  NumUses child_token = 1 ∧
  ∃ ts s', rtc (thread_step senv0) (orphan_threads, server0 family) (ts, s') ∧
    length (filter (λ t, uses "child" t = true) ts) = 2%nat.
Proof.
  split; [done|]. eexists _, _. split.
  - rewrite (surjective_pairing (orphan_threads, server0 family)).
    etrans; [apply (thread_schedule_steps senv0 orphan_schedule)|]. rewrite (surjective_pairing (thread_schedule _ _ _)).
    reflexivity.
  - vm_compute. reflexivity.
Qed.
