(* ===== verification/PolicyStoreFacts.v ===== *)
(** * What the policy store guarantees

    As long as names are in the form that the cache's key leaves alone, the
    cache never disagrees with the storage, in every interleaving of reads,
    writes and deletions.  A name in another form is refused by nothing, and
    shares its key with the name it is cleaned to. *)

From S2P Require Import Prelude GoLib GoSplit Utf8 Storage Core ApprovalTypes ApprovalJson ApprovalCore CoreLogic Router Routing Templating Policy Acl Tokens Server PolicyStore ServerLogic.

(** ** The stored policy *)

Section facts.
Context `{RadixTree} `{GoTables} `{MapRange} `{Globbing} `{Parseutil} `{HCL} (env : SEnv) (c : Conf).
#[local] Instance policy_handler : Handler srvE Server := srv_handler env.

Definition policy_key (name : string) : string := sys_key policyACLSubPath name.
Definition root_index (name : string) : string := "root/" +:+ name.

(** A name that is stored, cached and typed under itself. *)
Definition canonical (name : string) : Prop :=
  cacheKey Token.RootNamespace name = root_index name ∧ sanitizeName name = name.

(** What the storage holds for a name. *)
Definition read_policy (st : gmap string blob) (name : string) : res (option Policy) :=
  match st !! policy_key name with
  | None => Ok None
  | Some b =>
      match DecodeJSON dec_policy_entry (mkEntry name b) with
      | Err err => Err err
      | Ok pe =>
          match ParseACLPolicyCheckDuplicates 0 Token.RootNamespace (pe_Raw pe) with
          | Err _ => Err (ErrBackend "failed to parse policy: %w")
          | Ok p => Ok (Some (mkPolicy name (Paths p) PolicyTypeACL (pe_Templated pe)
                                Token.RootNamespace (pe_Raw pe)))
          end
      end
  end.

Definition policy_at (st : gmap string blob) (name : string) : res (option Policy) :=
  if decide (name = "root") then Ok (Some root_policy) else read_policy st name.

Record coherent (s : Server) : Prop := {
  co_cache : CachingDisabled c = false → ∀ n p, canonical n →
    s_tokenPolicies s !! root_index n = Some p → policy_at (s_store s) n = Ok (Some p);
  co_types : ∀ n t, canonical n → s_types s !! root_index n = Some t → t = PolicyTypeACL;
  co_known : ∀ n, canonical n → n = "root" ∨ is_Some (s_store s !! policy_key n) →
    is_Some (s_types s !! root_index n);
  co_acl : ∀ n v pe, s_store s !! policy_key n = Some (Doc v) → dec_policy_entry v = Ok pe → pe_Type pe = 0;
}.

Lemma root_index_inj n1 n2 : root_index n1 = root_index n2 → n1 = n2.
Proof. apply str_app_inj_l. Qed.

Lemma canonical_root : canonical "root".
Proof. by split. Qed.

(** ** Parsing does not depend on the time *)

Lemma populate_clock (c1 c2 : Z) (p : Tpl.PopulateStringInput) :
  Tpl.ValidityCheckOnly p = true → Tpl.PopulateString c1 p = Tpl.PopulateString c2 p.
Proof.
  intros Hv. unfold Tpl.PopulateString. rewrite Hv.
  assert (∀ l b, Tpl.populate_loop c1 p l b = Tpl.populate_loop c2 p l b) as Hl.
  { induction l as [|x l IH]; intros b; [done|]. simpl. rewrite Hv. by repeat case_match. }
  by repeat case_match; rewrite ?Hl in *; congruence.
Qed.

Lemma parse_clock c1 c2 ns rules :
  ParseACLPolicyCheckDuplicates c1 ns rules = ParseACLPolicyCheckDuplicates c2 ns rules.
Proof.
  unfold ParseACLPolicyCheckDuplicates, parseACLPolicyWithTemplating.
  destruct (ParseHCL rules) as [file|]; [|done]. destruct (CheckHCLKeys _ _); [done|].
  assert (parsePaths c1 ns None (file_paths file) = parsePaths c2 ns None (file_paths file)) as ->; [|done].
  induction (file_paths file) as [|item items IH]; [done|]. simpl.
  rewrite (populate_clock c1 c2) by done. destruct (Tpl.PopulateString c2 _) as [[b k]|]; [|done].
  by rewrite IH.
Qed.

(** ** How coherence moves *)

Lemma coherent_same s s' : coherent s → same s s' → coherent s'.
Proof.
  intros [] Hs. pose proof (same_store _ _ Hs) as Hst. destruct Hs as (w & Hw & ->).
  by split; rewrite ?Hst.
Qed.

Lemma coherent_cache s m :
  coherent s →
  (CachingDisabled c = false → ∀ n p, canonical n → m !! root_index n = Some p → policy_at (s_store s) n = Ok (Some p)) →
  coherent (set_cache tokenPoliciesLRU m s).
Proof. intros [] Hm. by split. Qed.

Lemma coherent_type s n :
  coherent s → coherent (set_types (<[root_index n := PolicyTypeACL]> (s_types s)) s).
Proof.
  intros []. split; simpl; [done| |intros m Hm Hk|done].
  - intros m t Hm. rewrite lookup_insert. case_decide; [by intros [= <-]|by apply co_types0].
  - rewrite lookup_insert. case_decide; [done|by apply co_known0].
Qed.

Lemma filter_insert_Some (m : gmap string Policy) (ev : gset string) k p k' q :
  filter (λ x, x.1 ∉ ev) (<[k:=p]> m) !! k' = Some q → k = k' ∧ p = q ∨ m !! k' = Some q.
Proof. intros [Hl _]%map_lookup_filter_Some. rewrite lookup_insert_Some in Hl. naive_solver. Qed.

Lemma wpr_pol {X} (e : polE X) Q s :
  Q (pol_handle env X e s).1 (pol_handle env X e s).2 → wpr (on_pol e) Q s.
Proof. intros HQ. by apply wpr_trigger. Qed.

(** Adding what is stored. *)
Lemma add_coherent n p s :
  canonical n → coherent s → policy_at (s_store s) n = Ok (Some p) →
  wpr (cache_Add c tokenPoliciesLRU (root_index n) p) (λ _ s', coherent s' ∧ disk s' = disk s) s.
Proof.
  intros Hn Hs Hp. unfold cache_Add. destruct (CachingDisabled c) eqn:Hc; [done|]. apply wpr_pol. simpl.
  split; [|done]. eapply coherent_same; [|apply same_tick]. apply coherent_cache; [done|].
  intros _ m q Hm [[<-%root_index_inj <-]|Hq]%filter_insert_Some; [done|]. by apply (co_cache _ Hs Hc).
Qed.

Lemma get_coherent n Q s :
  canonical n → coherent s →
  (∀ r s', same s s' → (∀ p, r = Some p → policy_at (s_store s) n = Ok (Some p)) → Q r s') →
  wpr (cache_Get c tokenPoliciesLRU (root_index n)) Q s.
Proof.
  intros Hn Hs HQ. unfold cache_Get. destruct (CachingDisabled c) eqn:Hc; [by apply HQ|]. apply wpr_pol. simpl.
  apply HQ; [apply same_tick|]. intros p Hp. by apply (co_cache _ Hs Hc).
Qed.

(** ** Reading *)

Definition token_type (ty : PolicyType) : Prop := ty = PolicyTypeACL ∨ ty = PolicyTypeToken.

(** An answer is what the storage holds; there is none if that is not a
    policy or cannot be read. *)
Definition answers (s : Server) (n : string) (r : res (option Policy)) : Prop :=
  match r with
  | Ok o => policy_at (s_store s) n = Ok o
  | Err _ => is_ok (policy_at (s_store s) n) = false ∨ ¬ readable env n s
  end.

Lemma answers_disk s s' n r : disk s' = disk s → answers s' n r → answers s n r.
Proof. intros Hs. unfold answers, readable. by rewrite (disk_store _ _ Hs), Hs. Qed.

Lemma policy_at_absent st n : n ≠ "root" → st !! policy_key n = None → policy_at st n = Ok None.
Proof. intros Hn Hst. unfold policy_at, read_policy. by rewrite decide_False, Hst. Qed.

Lemma unknown_absent n s :
  canonical n → coherent s → s_types s !! root_index n = None → policy_at (s_store s) n = Ok None.
Proof.
  intros Hn Hs Ht. pose proof (co_known _ Hs n Hn) as Hk. rewrite Ht in Hk.
  apply policy_at_absent.
  - intros ->. destruct Hk as [? ?]; [by left|done].
  - destruct (s_store s !! policy_key n); [|done]. destruct Hk as [? ?]; [by right|done].
Qed.

(** What the part of a lookup before the lock may return. *)
Definition probed (st : gmap string blob) (n : string) (r : res (option Policy) + PolicyType) : Prop :=
  match r with
  | inl (Ok o) => policy_at st n = Ok o
  | inl (Err _) => False
  | inr t => t = PolicyTypeACL ∧ n ≠ "root"
  end.

Lemma wpr_probe_cache n s :
  canonical n → coherent s →
  wpr (probe_cache c Token.RootNamespace n PolicyTypeACL)
    (λ r s', coherent s' ∧ disk s' = disk s ∧ probed (s_store s) n r) s.
Proof.
  intros Hn Hs. unfold probe_cache. rewrite (proj1 Hn). apply wpr_bind.
  apply get_coherent; [done..|]. intros r s1 He1 Hr.
  pose proof (same_disk _ _ He1) as Hd. pose proof (coherent_same _ _ Hs He1) as Hs1.
  destruct r as [p|]; [apply wpr_ret; split_and!; [done..|by apply Hr]|]. simpl.
  case_bool_decide as Hroot; simpl; [|by apply wpr_ret].
  subst n. apply wpr_bind. eapply wpr_mono; [|by apply add_coherent].
  intros _ s2 [Hs2 Hd2]. apply wpr_ret. by rewrite Hd2, Hd.
Qed.

Lemma wpr_probe name ty s :
  canonical (sanitizeName name) → token_type ty → coherent s →
  wpr (probe_policy c Token.RootNamespace name ty)
    (λ r s', coherent s' ∧ disk s' = disk s ∧ probed (s_store s) (sanitizeName name) r) s.
Proof.
  intros Hn Hty Hs. unfold probe_policy. destruct Hty as [-> | ->]; [by apply wpr_probe_cache|].
  rewrite (proj1 Hn). apply wpr_bind, wpr_pol. simpl. pose proof (same_tick s) as Ht.
  pose proof (coherent_same _ _ Hs Ht) as Hs1.
  destruct (s_types s !! root_index (sanitizeName name)) as [t|] eqn:Hl.
  - apply (co_types _ Hs) in Hl as ->; [|done]. by apply (wpr_probe_cache _ (s_tick s)).
  - apply wpr_ret. split_and!; [done..|]. by apply unknown_absent.
Qed.

Lemma type_number_acl z : z = 0 → number_type z = Some PolicyTypeACL.
Proof. by intros ->. Qed.

(** Parsing and caching what was read. *)
Lemma wpr_parse n v pe s :
  canonical n → n ≠ "root" → coherent s →
  s_store s !! policy_key n = Some (Doc v) → dec_policy_entry v = Ok pe →
  wpr (clock ← trigger (OnCore Now);
       match ParseACLPolicyCheckDuplicates clock Token.RootNamespace (pe_Raw pe) with
       | Err _ => Ret (Err (ErrBackend "failed to parse policy: %w"))
       | Ok p =>
           let policy := mkPolicy n (Paths p) PolicyTypeACL (pe_Templated pe) Token.RootNamespace (pe_Raw pe) in
           _ ← on_pol (TypeStore (root_index n) PolicyTypeACL);
           _ ← cache_Add c tokenPoliciesLRU (root_index n) policy;
           Ret (Ok (Some policy) : res (option Policy))
       end)
    (λ r s', coherent s' ∧ disk s' = disk s ∧ answers s n r) s.
Proof.
  intros Hn Hroot Hs Hv Hd. apply wpr_bind, wpr_now. intros s1 He1.
  pose proof (same_disk _ _ He1) as Hd1. pose proof (coherent_same _ _ Hs He1) as Hs1.
  rewrite (parse_clock _ 0). destruct (ParseACLPolicyCheckDuplicates 0 _ _) as [p|err] eqn:Hp.
  2: { apply wpr_ret. split_and!; [done..|]. left. unfold policy_at, read_policy, DecodeJSON.
       rewrite decide_False, Hv by done. cbn [Value]. by rewrite Hd, Hp. }
  set (policy := mkPolicy _ _ _ _ _ _).
  assert (policy_at (s_store s) n = Ok (Some policy)) as Hat.
  { unfold policy_at, read_policy, DecodeJSON. rewrite decide_False, Hv by done. cbn [Value].
    by rewrite Hd, Hp. }
  apply wpr_bind, wpr_pol. simpl. apply wpr_bind.
  eapply wpr_mono; [|apply add_coherent; [done| |]].
  - intros _ s2 [Hs2 Hd2]. apply wpr_ret. split_and!; [done| |done]. rewrite Hd2. apply Hd1.
  - eapply coherent_same; [|apply same_tick]. by apply coherent_type.
  - change (policy_at (s_store s1) n = Ok (Some policy)). by rewrite (disk_store _ _ Hd1).
Qed.

Lemma wpr_read_stored n s :
  canonical n → n ≠ "root" → coherent s →
  wpr (read_stored c Token.RootNamespace n PolicyTypeACL)
    (λ r s', coherent s' ∧ disk s' = disk s ∧ answers s n r) s.
Proof.
  intros Hn Hroot Hs. unfold read_stored. rewrite (proj1 Hn). apply wpr_bind.
  change (view_for c PolicyTypeACL) with (server_storage (sys_view (conf_core c) policyACLSubPath)).
  apply wpr_Get. intros out s2 He2 Hout.
  pose proof (same_disk _ _ He2) as Hd2. pose proof (coherent_same _ _ Hs He2) as Hs2.
  change (sys_key policyACLSubPath n) with (policy_key n) in Hout.
  destruct out as [[e|]|err].
  - destruct (s_store s !! policy_key n) as [b|] eqn:Hb; [|done]. injection Hout as ->.
    destruct b as [v|]; cbn [DecodeJSON Value].
    2: { apply wpr_ret. split_and!; [done..|]. left. unfold policy_at, read_policy. by rewrite decide_False, Hb. }
    destruct (dec_policy_entry v) as [pe|err] eqn:Hd.
    2: { apply wpr_ret. split_and!; [done..|]. left. unfold policy_at, read_policy, DecodeJSON.
         rewrite decide_False, Hb by done. cbn [Value]. by rewrite Hd. }
    rewrite type_number_acl by (by apply (co_acl _ Hs n v pe)).
    rewrite <-(disk_store _ _ Hd2) in Hb.
    eapply wpr_mono; [|by apply (wpr_parse n v pe)]. intros r s' (? & Hd' & Ha). rewrite Hd'.
    split_and!; [done..|]. by apply (answers_disk s s2).
  - apply wpr_ret. split_and!; [done..|]. apply policy_at_absent; [done|].
    by destruct (s_store s !! policy_key n).
  - apply wpr_ret. split_and!; [done..|]. by right.
Qed.

Lemma wpr_load name s :
  canonical (sanitizeName name) → sanitizeName name ≠ "root" → coherent s →
  wpr (load_policy c Token.RootNamespace name PolicyTypeACL)
    (λ r s', coherent s' ∧ disk s' = disk s ∧ answers s (sanitizeName name) r) s.
Proof.
  intros Hn Hroot Hs. unfold load_policy. rewrite (proj1 Hn).
  apply wpr_bind. apply get_coherent; [done..|]. intros r s1 He1 Hr.
  pose proof (same_disk _ _ He1) as Hd1. pose proof (coherent_same _ _ Hs He1) as Hs1.
  destruct r as [p|]; [apply wpr_ret; split_and!; [done..|by apply Hr]|].
  eapply wpr_mono; [|by apply wpr_read_stored]. intros r s' (? & Hd & Ha). rewrite Hd.
  split_and!; [done..|]. by apply (answers_disk s s1).
Qed.

(** A lookup answers what is stored and leaves the store coherent. *)
Lemma wpr_GetPolicy name ty s :
  canonical (sanitizeName name) → token_type ty → coherent s →
  wpr (GetPolicy c Token.RootNamespace name ty)
    (λ r s', coherent s' ∧ disk s' = disk s ∧ answers s (sanitizeName name) r) s.
Proof.
  intros Hn Hty Hs. unfold GetPolicy. apply wpr_bind, wpr_steps.
  eapply wpr_mono; [|by apply wpr_probe]. intros [r|t] s1 (Hs1 & Hd & Hr).
  - apply wpr_ret. by destruct r.
  - destruct Hr as [-> Hroot]. apply wpr_lock. eapply wpr_mono; [|by apply wpr_load].
    intros r s' (? & Hd' & Ha). rewrite Hd'. split_and!; [done..|]. by apply (answers_disk s s1).
Qed.

(** ** Writing *)

(** A policy that says what its text says. *)
Record faithful (p : Policy) : Prop := {
  fa_type : Type_ p = PolicyTypeACL;
  fa_namespace : namespace p = Token.RootNamespace;
  fa_text : valid_utf8 (Raw p) = Raw p;
  fa_paths : ∃ p0, ParseACLPolicyCheckDuplicates 0 Token.RootNamespace (Raw p) = Ok p0 ∧ Paths p = Paths p0;
}.

Lemma dec_enc_policy_entry raw templated :
  valid_utf8 raw = raw →
  dec_policy_entry (enc_policy_entry (mkPolicyEntry 2 raw templated 0)) = Ok (mkPolicyEntry 2 raw templated 0).
Proof. intros Hr. unfold enc_policy_entry, enc_str. cbn [pe_Raw]. by rewrite Hr. Qed.

Definition entry_of (p : Policy) : blob :=
  Doc (enc_policy_entry (mkPolicyEntry 2 (Raw p) (Templated p) (type_number (Type_ p)))).

Lemma read_written st p :
  faithful p → Name p ≠ "root" →
  policy_at (<[policy_key (Name p) := entry_of p]> st) (Name p) = Ok (Some p).
Proof.
  intros [Ht Hns Hr (p0 & Hp & Hpaths)] Hn. unfold policy_at, read_policy.
  rewrite decide_False, lookup_insert_eq by done. unfold entry_of, DecodeJSON. cbn [Value].
  rewrite Ht, dec_enc_policy_entry by done. cbn [pe_Raw pe_Templated]. rewrite Hp, <-Hpaths.
  destruct p; simpl in *. by subst.
Qed.

Lemma policy_key_inj n m : policy_key n = policy_key m → n = m.
Proof. apply sys_key_inj. Qed.

Lemma policy_at_other st st' n m :
  m ≠ n → st' !! policy_key m = st !! policy_key m → policy_at st' m = policy_at st m.
Proof. intros Hm Hst. unfold policy_at, read_policy. by rewrite Hst. Qed.

(** The memory after a write: the type is known, and the cache holds nothing
    else for the name. *)
Lemma coherent_written s p s' :
  canonical (Name p) → Name p ≠ "root" → faithful p → coherent s →
  s_store s' = <[policy_key (Name p) := entry_of p]> (s_store s) →
  s_types s' = <[root_index (Name p) := PolicyTypeACL]> (s_types s) →
  (CachingDisabled c = false → ∀ k q, s_tokenPolicies s' !! k = Some q →
     k = root_index (Name p) ∧ q = p ∨ k ≠ root_index (Name p) ∧ s_tokenPolicies s !! k = Some q) →
  coherent s'.
Proof.
  intros Hn Hroot Hf Hs Hst Hty Hca. split.
  - intros Hc n q Hcn Hq. rewrite Hst. destruct (Hca Hc _ _ Hq) as [[->%root_index_inj ->]|[Hne Hold]].
    + by apply read_written.
    + rewrite (policy_at_other (s_store s) _ (Name p)); [by apply (co_cache _ Hs Hc)|by intros ->|].
      rewrite lookup_insert_ne; [done|]. intros <-%policy_key_inj. done.
  - intros n t Hcn. rewrite Hty, lookup_insert. case_decide; [by intros [= <-]|by apply (co_types _ Hs)].
  - intros n Hcn Hk. rewrite Hty, lookup_insert. case_decide as Hd; [done|]. apply (co_known _ Hs); [done|].
    destruct Hk as [?|Hk]; [by left|right]. rewrite Hst, lookup_insert_ne in Hk; [done|].
    by intros <-%policy_key_inj.
  - intros n v pe. rewrite Hst, lookup_insert. case_decide as Hd; [|by apply (co_acl _ Hs)].
    intros [= <-]. rewrite (fa_type _ Hf). cbn [type_number]. rewrite dec_enc_policy_entry by apply Hf. by intros [= <-].
Qed.

Lemma wpr_set p s :
  clean_faults env → canonical (Name p) → Name p ≠ "root" → faithful p → coherent s →
  wpr (setPolicyInternal c p) (λ err s', coherent s' ∧
    s_store s' = match err with
                 | None => <[policy_key (Name p) := entry_of p]> (s_store s)
                 | Some _ => s_store s
                 end) s.
Proof.
  intros Hclean Hn Hroot Hf Hs. unfold setPolicyInternal. rewrite (fa_type _ Hf), (fa_namespace _ Hf), (proj1 Hn).
  apply wpr_bind. change (rgpView c) with (server_storage (sys_view (conf_core c) policyRGPSubPath)).
  apply wpr_Get. intros r s1 He1 _.
  pose proof (same_store _ _ He1) as Hst1. pose proof (coherent_same _ _ Hs He1) as Hs1.
  destruct r as [[e|]|err]; [by apply wpr_ret| |by apply wpr_ret].
  apply wpr_bind. unfold getBarrierView.
  change (aclView c) with (server_storage (sys_view (conf_core c) policyACLSubPath)).
  apply wpr_Put. intros err s2 He2. destruct err as [err|].
  { destruct He2 as [He2|[Hc _]]; [|done]. apply wpr_ret. split; [by eapply coherent_same|].
    rewrite (same_store _ _ He2). done. }
  pose proof (with_store_store _ _ _ He2) as Hst2. destruct He2 as (w2 & _ & ->).
  apply wpr_bind, wpr_pol. simpl. apply wpr_bind.
  assert (∀ s', s_store s' = <[policy_key (Name p) := entry_of p]> (s_store s1) →
    s_types s' = <[root_index (Name p) := PolicyTypeACL]> (s_types s1) →
    (CachingDisabled c = false → ∀ k q, s_tokenPolicies s' !! k = Some q →
       k = root_index (Name p) ∧ q = p ∨
       k ≠ root_index (Name p) ∧ s_tokenPolicies s1 !! k = Some q) →
    wpr (Ret None : prog srvE (option goerr)) (λ err s', coherent s' ∧ s_store s' = match err with
      | None => <[policy_key (Name p) := entry_of p]> (s_store s) | Some _ => s_store s end) s') as Hend.
  { intros s' Hst' Hty' Hca'. apply wpr_ret. rewrite Hst', Hst1. split; [|done].
    by apply (coherent_written s1 p). }
  assert (entry_of p = Doc (enc_policy_entry (mkPolicyEntry 2 (Raw p) (Templated p) 0))) as Hentry
    by (unfold entry_of; by rewrite (fa_type _ Hf)).
  unfold cache_Add. destruct (CachingDisabled c) eqn:Hc.
  { apply wpr_ret, Hend; [by rewrite Hentry|done|done]. }
  apply wpr_pol. simpl. apply Hend; [by rewrite Hentry|done|]. intros _ k q. simpl.
  intros [Hq _]%map_lookup_filter_Some. apply lookup_insert_Some in Hq. naive_solver.
Qed.

(** The memory after a deletion: neither the type nor the policy is left. *)
Lemma coherent_deleted s n s' :
  canonical n → n ≠ "root" → coherent s →
  s_store s' = delete (policy_key n) (s_store s) →
  s_types s' = delete (root_index n) (s_types s) →
  (CachingDisabled c = false → s_tokenPolicies s' = delete (root_index n) (s_tokenPolicies s)) →
  coherent s'.
Proof.
  intros Hn Hroot Hs Hst Hty Hca. split.
  - intros Hc m q Hm. rewrite (Hca Hc). intros [Hne Hq]%lookup_delete_Some.
    assert (n ≠ m) as Hnm by (by intros ->). rewrite Hst, (policy_at_other (s_store s) _ n); [|done|].
    + by apply (co_cache _ Hs Hc).
    + apply lookup_delete_ne. by intros ?%policy_key_inj.
  - intros m t Hm. rewrite Hty. intros [_ Ht]%lookup_delete_Some. by apply (co_types _ Hs m).
  - intros m Hm Hk. rewrite Hty, lookup_delete_ne.
    + apply (co_known _ Hs); [done|]. destruct Hk as [?|[b Hb]]; [by left|right].
      rewrite Hst in Hb. apply lookup_delete_Some in Hb as [_ ?]. eauto.
    + intros <-%root_index_inj. destruct Hk as [?|[b Hb]]; [done|].
      by rewrite Hst, lookup_delete_eq in Hb.
  - intros m v pe. rewrite Hst. intros [_ Hv]%lookup_delete_Some. by apply (co_acl _ Hs m).
Qed.

Lemma wpr_delete name s :
  clean_faults env → canonical (sanitizeName name) → coherent s →
  wpr (delete_policy c Token.RootNamespace name PolicyTypeACL true false) (λ err s', coherent s' ∧
    match err with
    | None => (sanitizeName name ∉ immutablePolicies) ∧
              s_store s' = delete (policy_key (sanitizeName name)) (s_store s)
    | Some _ => s_store s' = s_store s
    end) s.
Proof.
  intros Hclean Hn Hs. unfold delete_policy. cbn [negb]. rewrite (proj1 Hn), !andb_true_l.
  case_bool_decide as Him; [by apply wpr_ret|].
  destruct (_ || _); [by apply wpr_ret|]. apply wpr_bind, wpr_bind. unfold getBarrierView.
  change (aclView c) with (server_storage (sys_view (conf_core c) policyACLSubPath)).
  apply wpr_Delete. intros err s1 He1. apply wpr_ret. destruct err as [err|]; cbn [fmap option_fmap option_map].
  { destruct He1 as [He1|[? _]]; [|done]. apply wpr_ret. rewrite (same_store _ _ He1).
    split; [by eapply coherent_same|done]. }
  pose proof (with_store_store _ _ _ He1) as Hst1. destruct He1 as (w1 & _ & ->).
  assert (∀ s', s_store s' = delete (policy_key (sanitizeName name)) (s_store s) →
    s_types s' = delete (root_index (sanitizeName name)) (s_types s) →
    (CachingDisabled c = false → s_tokenPolicies s' = delete (root_index (sanitizeName name)) (s_tokenPolicies s)) →
    coherent s' ∧ (sanitizeName name ∉ immutablePolicies) ∧
    s_store s' = delete (policy_key (sanitizeName name)) (s_store s)) as Hend.
  { intros s' ? ? ?. split_and!; [|done..]. eapply (coherent_deleted s (sanitizeName name)); try done.
    intros Hr. apply Him. rewrite Hr. set_solver. }
  apply wpr_bind. unfold cache_Remove. destruct (CachingDisabled c) eqn:Hc.
  - apply wpr_ret. apply wpr_bind, wpr_pol. apply wpr_ret. apply Hend; done.
  - apply wpr_pol. apply wpr_bind, wpr_pol. apply wpr_ret. apply Hend; done.
Qed.

(** ** Interleaving *)

Lemma safe_pol {X} (e : polE X) (Q : X → Prop) :
  (∀ s, coherent s → coherent (pol_handle env X e s).2 ∧ Q (pol_handle env X e s).1) →
  safe coherent (steps (on_pol e)) Q.
Proof. intros He. by apply safe_step. Qed.

Lemma safe_probe_cache n :
  canonical n →
  safe coherent (steps (probe_cache c Token.RootNamespace n PolicyTypeACL))
    (λ r, match r with inl _ => True | inr t => t = PolicyTypeACL ∧ n ≠ "root" end).
Proof.
  intros Hn. unfold probe_cache. rewrite (proj1 Hn). apply safe_steps_bind.
  apply (safe_mono _ _ (λ _, True)).
  { unfold cache_Get. destruct (CachingDisabled c); [done|]. apply safe_pol. intros s Hs.
    split; [|done]. by eapply coherent_same. }
  intros [p|] _; [done|]. simpl. case_bool_decide as Hr; simpl; [|done]. subst n.
  apply safe_steps_bind. apply (safe_mono _ _ (λ _, True)); [|done].
  unfold cache_Add. destruct (CachingDisabled c) eqn:Hc; [done|]. apply safe_pol. intros s Hs.
  split; [|done]. pose proof (add_coherent "root" root_policy s Hn Hs eq_refl) as Ha.
  unfold cache_Add in Ha. rewrite Hc in Ha. by destruct Ha.
Qed.

Lemma safe_GetPolicy name ty :
  canonical (sanitizeName name) → token_type ty →
  safe coherent (GetPolicy c Token.RootNamespace name ty) (λ _, True).
Proof.
  intros Hn Hty. apply safe_bind.
  apply (safe_mono _ _ (λ r, match r with
    | inl _ => True | inr t => t = PolicyTypeACL ∧ sanitizeName name ≠ "root" end)).
  - unfold probe_policy. destruct Hty as [-> | ->]; [by apply safe_probe_cache|].
    rewrite (proj1 Hn). apply safe_steps_bind.
    apply (safe_mono _ _ (λ o, ∀ t, o = Some t → t = PolicyTypeACL)).
    + apply safe_pol. intros s Hs. split; [by eapply coherent_same|]. intros t Ht. by apply (co_types _ Hs _ t) in Ht.
    + intros [t|] Ht; [|done]. rewrite (Ht t eq_refl). by apply safe_probe_cache.
  - intros [r|t] Ht; [done|]. destruct Ht as [-> Hr]. apply safe_locked. intros s Hs.
    eapply wpr_mono; [|by apply wpr_load]. by intros ? ? [? _].
Qed.
End facts.
