(* ===== verification/PolicyStoreTheorems.v ===== *)
(** * What the policy store promises, and where it does not *)

From S2P Require Import Prelude GoLib GoSplit Utf8 Storage Core ApprovalTypes ApprovalCore CoreLogic Scenario Router Routing RouterScenario Templating Policy Acl AclFacts AclSound Tokens Server PolicyStore ServerLogic ServerScenario PolicyStoreFacts.

(** ** The operations on policies *)

Inductive PolicyOp :=
| OpSet (path name policy rules : string)
| OpRead (path name : string)
| OpDelete (name : string)
| OpLookup (name : string).

Section theorems.
Context `{RadixTree} `{GoTables} `{MapRange} `{Globbing} `{Parseutil} `{HCL} (env : SEnv) (c : Conf).
#[local] Instance theorem_handler : Handler srvE Server := srv_handler env.

(** The endpoints, and the lookup of a token's policy. *)
Definition op_prog (op : PolicyOp) : prog (lockE srvE) () :=
  match op with
  | OpSet path name policy rules => _ ← handlePoliciesSet c path name policy rules; Ret ()
  | OpRead path name => _ ← handlePoliciesRead c path name; Ret ()
  | OpDelete name => _ ← handlePoliciesDelete c name; Ret ()
  | OpLookup name => _ ← GetPolicy c Token.RootNamespace name PolicyTypeToken; Ret ()
  end.

Definition op_ok (op : PolicyOp) : Prop :=
  match op with
  | OpSet path name policy rules =>
      canonical (sanitizeName (ToLower name)) ∧
      valid_utf8 (policy_text path policy rules).1 = (policy_text path policy rules).1
  | OpRead _ name | OpDelete name | OpLookup name => canonical (sanitizeName name)
  end.

Lemma safe_Set path name policy rules :
  clean_faults env → op_ok (OpSet path name policy rules) →
  safe (coherent c) (handlePoliciesSet c path name policy rules) (λ _, True).
Proof.
  intros Hclean [Hn Hu]. unfold handlePoliciesSet. destruct (decide _); [done|].
  destruct (policy_text path policy rules) as [raw deprecated]. simpl in Hu.
  destruct (decide _); [done|]. apply safe_bind. apply (safe_mono _ _ (λ _, True)).
  { apply safe_step. intros s Hs. split; [|done]. eapply coherent_same; [done|]. by apply same_ro. }
  intros clock _. rewrite (parse_clock clock 0).
  destruct (ParseACLPolicyCheckDuplicates 0 _ raw) as [p|] eqn:Hp; [|done].
  apply safe_bind. apply (safe_mono _ _ (λ _, True)); [|by intros [?|]].
  unfold SetPolicy. destruct (decide _); [exact I|]. cbn [Name set_Name].
  set (nm := sanitizeName (ToLower name)) in *. clearbody nm. destruct (bool_decide (nm ∈ immutablePolicies)) eqn:Him; [exact I|].
  apply bool_decide_eq_false in Him.
  apply safe_locked. intros s Hs. eapply wpr_mono; [|apply (wpr_set env c _ s Hclean); [done| | |done]].
  - by intros ? ? [? _].
  - intros Hr. apply Him. simpl in Hr. rewrite Hr. apply elem_of_cons. by left.
  - split; simpl; [done..|]. eauto.
Qed.

Lemma safe_op op : clean_faults env → op_ok op → safe (coherent c) (op_prog op) (λ _, True).
Proof.
  intros Hclean Hop. destruct op as [path name policy rules|path name|name|name]; apply safe_bind.
  - by apply (safe_mono _ _ (λ _, True)); [apply safe_Set|].
  - apply (safe_mono _ _ (λ _, True)); [|done]. apply safe_bind.
    apply (safe_mono _ _ (λ _, True)); [by apply safe_GetPolicy; [|left]|by intros [[?|]|]].
  - apply (safe_mono _ _ (λ _, True)); [|done]. apply safe_bind.
    apply (safe_mono _ _ (λ _, True)); [|by intros [?|]]. apply safe_locked. intros s Hs.
    eapply wpr_mono; [|by apply wpr_delete]. by intros ? ? [? _].
  - apply (safe_mono _ _ (λ _, True)); [by apply safe_GetPolicy; [|right]|done].
Qed.

(** C21: the cache of policies agrees with the storage, provided that the
    storage applies no write for which it reports an error (such a write
    changes the storage and not the cache): after any interleaving of writes,
    reads, deletions and lookups of policies whose names are their own cache
    keys and whose texts are UTF-8, a lookup answers exactly what is stored
    for the name, and no answer at all only where nothing usable is stored or
    the storage cannot be read. *)
Theorem policy_store_coherent ops ts s s' name ty :
  clean_faults env → coherent c s → Forall op_ok ops →
  rtc pool_step (op_prog <$> ops, s) (ts, s') →
  canonical (sanitizeName name) → token_type ty →
  coherent c s' ∧
  answers env s' (sanitizeName name) (run (GetPolicy c Token.RootNamespace name ty) s').1.
Proof.
  intros Hclean Hs Hops Hsteps Hn Hty.
  assert (Forall (λ p, safe (coherent c) p (λ _, True)) (op_prog <$> ops)) as Hsafe.
  { apply Forall_fmap. eapply Forall_impl; [exact Hops|]. intros op. by apply safe_op. }
  destruct (safe_pool _ _ _ _ _ _ Hsteps Hsafe Hs) as [_ Hs']. split; [done|].
  by destruct (wpr_GetPolicy env c name ty s' Hn Hty Hs') as (_ & _ & Ha).
Qed.

(** ** Names that share a key *)

Lemma alias_lookup index s :
  s_types s !! index = None →
  ∀ name, cacheKey Token.RootNamespace (sanitizeName name) = index →
  (run (GetPolicy c Token.RootNamespace name PolicyTypeToken) s).1 = Ok None.
Proof.
  intros Ht name Hi. enough (wpr (GetPolicy c Token.RootNamespace name PolicyTypeToken) (λ r _, r = Ok None) s)
    as Hr by exact Hr.
  unfold GetPolicy. apply wpr_bind, wpr_steps. unfold probe_policy. rewrite Hi.
  apply wpr_bind, wpr_pol. simpl. rewrite Ht. by apply wpr_ret, wpr_ret.
Qed.

Lemma wpr_delete_alias name s :
  sanitizeName name ∉ immutablePolicies →
  sanitizeName name ≠ defaultPolicyName → sanitizeName name ≠ defaultCeilingPolicyName →
  deletable env (conf_core c) (sanitizeName name) s →
  wpr (handlePoliciesDelete c name)
    (λ r s', r = (None, None) ∧ s_store s' = delete (policy_key (sanitizeName name)) (s_store s) ∧
             s_types s' = delete (cacheKey Token.RootNamespace (sanitizeName name)) (s_types s)) s.
Proof.
  intros Him Hd Hc Hw. apply wpr_bind, wpr_lock. unfold delete_policy. cbn [negb]. rewrite !andb_true_l.
  rewrite (bool_decide_eq_false_2 _ Him), (bool_decide_eq_false_2 _ Hd), (bool_decide_eq_false_2 _ Hc).
  simpl orb. apply wpr_bind, wpr_bind. unfold getBarrierView.
  change (aclView c) with (server_storage (sys_view (conf_core c) policyACLSubPath)).
  apply wpr_Delete_works; [done|]. intros s1 He1. apply wpr_ret. cbn [fmap option_fmap option_map].
  pose proof (with_store_store _ _ _ He1) as Hst1. destruct He1 as (w1 & _ & ->).
  apply wpr_bind. unfold cache_Remove. destruct (CachingDisabled c).
  - apply wpr_ret. apply wpr_bind, wpr_pol. by apply wpr_ret, wpr_ret.
  - apply wpr_pol. apply wpr_bind, wpr_pol. by apply wpr_ret, wpr_ret.
Qed.

(** The policies that cannot be deleted. *)
Definition protected : list string :=
  immutablePolicies ++ [defaultPolicyName; defaultCeilingPolicyName].

(** C35: a policy that cannot be deleted can be switched off: the request to
    delete its name with a slash at the end is accepted, deletes nothing of
    the policy, and makes every token lose the policy, root included. *)
Theorem trailing_slash_disables name s :
  name ∈ protected → deletable env (conf_core c) (name +:+ "/") s →
  let r := run (handlePoliciesDelete c (name +:+ "/")) s in
  r.1 = (None, None) ∧
  s_store r.2 !! policy_key name = s_store s !! policy_key name ∧
  (run (GetPolicy c Token.RootNamespace name PolicyTypeToken) r.2).1 = Ok None.
Proof.
  intros Hn Hw r.
  assert (sanitizeName name = name ∧ sanitizeName (name +:+ "/") = name +:+ "/" ∧
    (name +:+ "/" ∉ protected) ∧ name ≠ name +:+ "/" ∧
    cacheKey Token.RootNamespace (name +:+ "/") = cacheKey Token.RootNamespace name) as (Hs & Hs' & Hp & Hne & Hk).
  { unfold protected, immutablePolicies in Hn. simpl in Hn. rewrite !elem_of_cons in Hn.
    destruct Hn as [-> |[-> |[-> |[-> |[-> |[]%not_elem_of_nil]]]]]; split_and!; try reflexivity;
      by (apply (bool_decide_eq_false_1 _); vm_compute). }
  unfold protected in Hp. rewrite elem_of_app, !elem_of_cons in Hp.
  destruct (wpr_delete_alias (name +:+ "/") s) as (Hr & Hst & Hty); rewrite ?Hs'; [tauto..|done|].
  fold r in Hr, Hst, Hty. rewrite Hs' in Hst, Hty. split_and!; [done| |].
  - rewrite Hst, lookup_delete_ne; [done|]. intros Heq%policy_key_inj. by symmetry in Heq.
  - eapply alias_lookup; [|reflexivity]. rewrite Hty, Hs, Hk. apply lookup_delete_eq.
Qed.

(** The root policy is in the cache, as it is after its first lookup. *)
Definition root_cached (s : Server) : Prop :=
  CachingDisabled c = false ∧
  s_tokenPolicies s !! root_index "root" = Some root_policy ∧
  s_types s !! root_index "root" = Some PolicyTypeACL.

Lemma wpr_cached_root name s Q :
  cacheKey Token.RootNamespace (sanitizeName name) = root_index "root" → root_cached s →
  (∀ s', Q (Ok (Some root_policy)) s') →
  wpr (GetPolicy c Token.RootNamespace name PolicyTypeToken) Q s.
Proof.
  intros Hk (Hc & Hp & Ht) HQ. unfold GetPolicy. apply wpr_bind, wpr_steps. unfold probe_policy.
  rewrite Hk. apply wpr_bind, wpr_pol. cbn [pol_handle fst snd]. rewrite Ht. unfold probe_cache. rewrite Hk.
  apply wpr_bind. unfold cache_Get. rewrite Hc. apply wpr_pol.
  cbn [pol_handle fst snd cache_for cache_of s_tick set_core s_tokenPolicies]. rewrite Hp.
  apply wpr_ret, wpr_ret, HQ.
Qed.

Lemma range_keys_singleton {V} (k : string) (v : V) : range_keys {[k := v]} = [k].
Proof.
  apply NoDup_only; [apply range_keys_NoDup|]. intros x.
  by rewrite range_keys_elem, lookup_singleton_is_Some.
Qed.

(** C34: a name that the cleaning of paths turns into that of the root policy is
    the root policy under another name, [./root] or [root/] for instance.  Let
    the policy cache be in use and hold the root policy, as it does from its
    first lookup on.  Then such a name passes the sanitizing of a list of
    policies as it is, so that root is not in the list the checks search for it,
    and the access control built from it alone is that of root, whoever the
    entity is. *)
Theorem dotted_name_is_root `{!Strsets} name entity s :
  sanitizeName name = name → name ≠ "root" →
  cacheKey Token.RootNamespace name = cacheKey Token.RootNamespace "root" → root_cached s →
  let ps := Token.SanitizePolicies [name] false in
  ps = [name] ∧
  ∃ acl, (run (ACL_ c Token.RootNamespace entity {["root" := ps]} []) s).1 = Ok acl ∧
         root acl = true.
Proof.
  intros Hn Hne Hk Hs ps. assert (ps = [name]) as Hps.
  { apply NoDup_only; [apply RemoveDuplicates_lower_NoDup|]. intros x. subst ps. unfold Token.SanitizePolicies.
    change (Token.lower_trim <$> [name]) with [sanitizeName name]. rewrite Hn.
    rewrite bool_decide_eq_false_2 by (rewrite list_elem_of_singleton; congruence). simpl.
    rewrite RemoveDuplicates_lower_elem. setoid_rewrite list_elem_of_singleton.
    change Token.lower_trim with sanitizeName. split; [by intros (_ & ? & -> & ->)|].
    intros ->. split; [|by exists name]. by intros ->. }
  rewrite Hps. split; [done|].
  enough (wpr (ACL_ c Token.RootNamespace entity {["root" := [name]]} [])
    (λ r _, ∃ acl, r = Ok acl ∧ root acl = true) s) as Hr by exact Hr.
  unfold ACL_. apply wpr_bind. unfold fetch_named. rewrite range_keys_singleton. cbn [range].
  change (Token.NamespaceByID "root") with (Ok (Er:=goerr) Token.RootNamespace).
  rewrite lookup_singleton_eq. cbn [range default from_option id]. apply wpr_bind, wpr_bind, wpr_bind.
  apply wpr_cached_root; [by rewrite Hn|done|]. intros s1. repeat apply wpr_ret.
  eexists. by split.
Qed.
End theorems.

(** ** On the concrete server *)

Definition policy_ops : list PolicyOp :=
  [OpSet "policies/acl/dev" "dev" "reader" ""; OpLookup "dev"; OpDelete "ops"].
Definition policy_threads : list (prog (lockE srvE) ()) := op_prog conf0 <$> policy_ops.
Definition policy_run : list (prog (lockE srvE) ()) * Server :=
  run_schedule (H:=lock_handler srvE Server (H:=srv_handler senv0)) [0; 1; 0; 2; 1]%nat
    (policy_threads, server0 ∅).

Lemma no_policies_coherent m : (∀ n, m !! policy_key n = None) → coherent conf0 (server0 m).
Proof.
  intros Hm. split.
  - intros _ n p _. simpl. intros [Hn <-]%lookup_singleton_Some. apply (root_index_inj "root") in Hn. by subst n.
  - intros n t _. simpl. by intros [_ <-]%lookup_singleton_Some.
  - intros n _ [-> |[b Hb]]; [by eexists|]. change (m !! policy_key n = Some b) in Hb. congruence.
  - intros n v pe Hb. change (m !! policy_key n = Some (Doc v)) in Hb. congruence.
Qed.

Lemma policy_store_coherent_witness :
  coherent conf0 policy_run.2 ∧
  answers senv0 policy_run.2 "dev"
    (run (H:=lock_handler srvE Server (H:=srv_handler senv0))
       (GetPolicy conf0 Token.RootNamespace "dev" PolicyTypeToken) policy_run.2).1.
Proof.
  apply (policy_store_coherent senv0 conf0 policy_ops policy_run.1 (server0 ∅) policy_run.2 "dev" PolicyTypeToken).
  - by intros n.
  - by apply no_policies_coherent.
  - repeat constructor.
  - rewrite <-surjective_pairing. apply run_schedule_steps.
  - by split.
  - by right.
Defined.

(** The lookup of the second thread finds what the first one wrote. *)
Lemma policy_run_found :
  Name <$> (s_tokenPolicies policy_run.2 !! root_index "dev") = Some "dev".
Proof. vm_compute. reflexivity. Qed.

Lemma trailing_slash_witness :
  (run (H:=lock_handler srvE Server (H:=srv_handler senv0))
     (GetPolicy conf0 Token.RootNamespace "root" PolicyTypeToken) (server0 ∅)).1 = Ok (Some root_policy) ∧
  (run (H:=lock_handler srvE Server (H:=srv_handler senv0))
     (GetPolicy conf0 Token.RootNamespace "root" PolicyTypeToken)
     (run (H:=lock_handler srvE Server (H:=srv_handler senv0))
        (handlePoliciesDelete conf0 "root/") (server0 ∅)).2).1 = Ok None.
Proof.
  split; [vm_compute; reflexivity|].
  apply (trailing_slash_disables senv0 conf0 "root" (server0 ∅)).
  - by left.
  - by repeat split.
Defined.

Lemma dotted_name_witness :
  Token.SanitizePolicies ["./root"] false = ["./root"] ∧
  ∃ acl, (run (H:=lock_handler srvE Server (H:=srv_handler senv0))
    (ACL_ conf0 Token.RootNamespace None {["root" := Token.SanitizePolicies ["./root"] false]} [])
    (server0 ∅)).1 = Ok acl ∧ root acl = true.
Proof.
  apply (dotted_name_is_root senv0 conf0 "./root" None (server0 ∅)); [reflexivity|done|reflexivity|].
  by repeat split.
Defined.
