(* ===== verification/Reliable.v ===== *)
(** * Handlers on storage that works

    With no storage fault, no failing switch set and the node not read-only,
    reads return what is stored and writes take effect; the rules of [wp]
    then determine results and not only what they may be. *)

From S2P Require Import Prelude GoLib Storage Core ApprovalTypes ApprovalCore CoreLogic ApprovalHandlers ApprovalLogic StorageFacts.

Record reliable (env : Env) (c : Core) (w : World) : Prop := {
  rel_fault : ∀ n, env_fault env n = Done;
  rel_get : Inmem.failGet (w_phys w) = false;
  rel_put : Inmem.failPut (w_phys w) = false;
  rel_delete : Inmem.failDelete (w_phys w) = false;
  rel_list : Inmem.failList (w_phys w) = false;
  rel_size : Inmem.maxValueSize (w_phys w) = 0;
  rel_writable : core_readOnly c = None;
}.

Section reliable.
Context `{GoTables} `{RadixTree} (env : Env) (c : Core).

Lemma reliable_ro w w' : reliable env c w → ro w w' → reliable env c w'.
Proof. intros [] [Hp _ _ _]. by split; rewrite ?Hp. Qed.

Lemma reliable_stored m w w' : reliable env c w → stored m w w' → reliable env c w'.
Proof. intros Hr Hs. eapply reliable_ro; [|exact Hs]. by destruct Hr. Qed.

Lemma wp_Get_r k Q w :
  reliable env c w → SanityCheck k = None →
  (∀ w', ro w w' → Q (Ok (mkEntry k <$> w_store w !! akey k)) w') →
  wp env (Get (approvalStorage c) k) Q w.
Proof.
  intros Hr Hk HQ. change (Get (approvalStorage c) k) with (view_Get aview k).
  unfold view_Get. rewrite Hk, view_key. apply wp_bind. unfold wp at 1. simpl.
  unfold Inmem.GetInternal. rewrite (rel_fault _ _ _ Hr), (rel_get _ _ _ Hr). simpl.
  unfold w_store in HQ. apply wp_ret.
  destruct (Inmem.root (w_phys w) !! akey k) as [b|] eqn:Hb; simpl.
  - assert (TruncateKey aview (akey k) = k) as -> by apply TrimPrefix_app. by apply HQ.
  - by apply HQ.
Qed.

Lemma wp_List_r p Q w :
  reliable env c w → SanityCheck p = None →
  (∀ l w', ro w w' → Inmem.ListInternal (akey p) (w_phys w) = Ok l → Q (Ok l) w') →
  wp env (List (approvalStorage c) p) Q w.
Proof.
  intros Hr Hp HQ. change (List (approvalStorage c) p) with (view_List aview p).
  unfold view_List. rewrite Hp, view_key. apply wp_trigger. simpl.
  rewrite (rel_fault _ _ _ Hr).
  destruct (Inmem.ListInternal (akey p) (w_phys w)) as [l|e] eqn:Hl.
  - by apply HQ.
  - unfold Inmem.ListInternal in Hl. by rewrite (rel_list _ _ _ Hr) in Hl.
Qed.

Lemma wp_Put_r k b Q w :
  reliable env c w → SanityCheck k = None →
  (∀ w', stored (<[akey k := b]> (w_store w)) w w' → Q None w') →
  wp env (Put (approvalStorage c) (Some (mkEntry k b))) Q w.
Proof.
  intros Hr Hk HQ. change (Put (approvalStorage c) (Some (mkEntry k b)))
    with (barrier_Put (mkBarrier aview (core_readOnly c)) (Some (mkEntry k b))).
  unfold barrier_Put. cbn [readOnlyErr bstorage]. rewrite (rel_writable _ _ _ Hr).
  unfold view_Put. cbn [Key Value]. rewrite Hk, view_key. apply wp_trigger. simpl.
  rewrite (rel_fault _ _ _ Hr). unfold Inmem.PutInternal.
  rewrite (rel_put _ _ _ Hr), (rel_size _ _ _ Hr). simpl. by apply HQ.
Qed.

Lemma wp_Delete_r k Q w :
  reliable env c w → SanityCheck k = None →
  (∀ w', stored (delete (akey k) (w_store w)) w w' → Q None w') →
  wp env (Delete (approvalStorage c) k) Q w.
Proof.
  intros Hr Hk HQ. change (Delete (approvalStorage c) k)
    with (barrier_Delete (mkBarrier aview (core_readOnly c)) k).
  unfold barrier_Delete. cbn [readOnlyErr bstorage]. rewrite (rel_writable _ _ _ Hr).
  unfold view_Delete. rewrite Hk, view_key. apply wp_trigger. simpl.
  rewrite (rel_fault _ _ _ Hr). unfold Inmem.DeleteInternal.
  rewrite (rel_delete _ _ _ Hr). simpl. by apply HQ.
Qed.

(** A typed read of an entry that is there and decodes. *)
Lemma wp_get_entry_r {A} (dec : value → res A) k a Q w :
  reliable env c w → SanityCheck k = None → entry_at dec (w_store w) k a →
  (∀ w', ro w w' → Q (Ok (Some a)) w') →
  wp env (get_entry dec c k) Q w.
Proof.
  intros Hr Hk (v & Hv & Hd) HQ. apply wp_bind, wp_Get_r; [done..|]. intros w' Hro.
  rewrite Hv. simpl. unfold DecodeJSON. simpl. rewrite Hd. by apply wp_ret, HQ.
Qed.

Lemma wp_read_listed_r {A} (dec : value → res A) k a Q w :
  reliable env c w → SanityCheck k = None → entry_at dec (w_store w) k a →
  (∀ w', ro w w' → Q (Some a) w') →
  wp env (read_listed dec c k) Q w.
Proof.
  intros Hr Hk (v & Hv & Hd) HQ. apply wp_bind, wp_Get_r; [done..|]. intros w' Hro.
  rewrite Hv. simpl. unfold DecodeJSON. simpl. rewrite Hd. by apply wp_ret, HQ.
Qed.

(** The read of a loop determines the entry. *)
Lemma wp_read_listed_iff {A} (dec : value → res A) k Q w :
  reliable env c w → SanityCheck k = None →
  (∀ r w', ro w w' → (∀ a, r = Some a ↔ entry_at dec (w_store w) k a) → Q r w') →
  wp env (read_listed dec c k) Q w.
Proof.
  intros Hr Hk HQ. apply wp_bind, wp_Get_r; [done..|]. intros w' Hro. apply wp_ret.
  unfold entry_at in HQ. destruct (w_store w !! akey k) as [b|]; simpl.
  - unfold DecodeJSON. simpl. destruct b as [v|].
    + destruct (dec v) as [a|] eqn:Hd; apply HQ; try done.
      * intros a'. split; [intros [= <-]; eauto|]. intros (v' & [= <-] & Hd'). congruence.
      * intros a'. split; [done|]. intros (v' & [= <-] & Hd'). congruence.
    + apply HQ; [done|]. intros a. split; [done|]. by intros (v' & [=] & _).
  - apply HQ; [done|]. intros a. split; [done|]. by intros (v' & [=] & _).
Qed.

Lemma wp_put_json_r k times v Q w :
  reliable env c w → SanityCheck k = None → forallb time_json_ok times = true →
  (∀ w', stored (<[akey k := Doc v]> (w_store w)) w w' → Q None w') →
  wp env (put_entry c (StorageEntryJSON k times v)) Q w.
Proof.
  intros Hr Hk Ht HQ. unfold StorageEntryJSON. rewrite Ht. by apply wp_Put_r.
Qed.

(** An entry whose name has no slash is listed under its directory. *)
Lemma listed_entry dir id l w b :
  Inmem.ListInternal (akey dir) (w_phys w) = Ok l → Index id "/" = None →
  w_store w !! akey (dir +:+ id) = Some b → id ∈ l.
Proof.
  intros Hl Hid Hb. apply list_spec in Hl as [_ Hl]. apply Hl. exists id. split.
  - unfold akey in *. rewrite str_app_assoc. by eexists.
  - unfold child. by rewrite Hid.
Qed.
End reliable.
