(* ===== verification/ScanViewFacts.v ===== *)
(** * What walking and clearing a view guarantee

    Whatever the storage does, [ClearView] removes nothing outside the view
    and reports success only if the view is empty; on storage that works it
    succeeds.  The walk meets each key of the view once: listing a folder
    splits the keys below it into its leaves and its sub-folders. *)

From S2P Require Import Prelude GoLib GoSplit Storage Core ApprovalTypes ApprovalCore CoreLogic StorageFacts ScanView Scenario.

(** ** Strings *)

Lemma Index_slash_app s t n : Index s "/" = Some n → Index (s +:+ t) "/" = Some n.
Proof.
  revert n. induction s as [|c s IH]; intros n; [done|].
  change (String c s +:+ t) with (String c (s +:+ t)). rewrite !Index_slash_cons.
  case_decide; [done|]. destruct (Index s "/") as [m|] eqn:Hm; [|done].
  by rewrite (IH m).
Qed.

Lemma SanityCheck_prefix s t : SanityCheck (s +:+ t) = None → SanityCheck s = None.
Proof.
  unfold SanityCheck, Contains. case_bool_decide as Ht; [done|]. intros _.
  case_bool_decide as Hs; [|done]. destruct Ht, Hs as [n Hn].
  rewrite (Index_Some _ _ _ Hn), !str_app_assoc. apply Index_is_Some.
Qed.

Lemma Index_slash_end s : is_Some (Index (s +:+ "/") "/").
Proof.
  induction s as [|c s [n IH]]; [done|].
  change (String c s +:+ "/") with (String c (s +:+ "/")). rewrite Index_slash_cons, IH.
  by case_decide.
Qed.

Lemma Index_slash_cut s n :
  Index s "/" = Some n → ∃ x t, s = (x +:+ "/") +:+ t ∧ S n = String.length (x +:+ "/").
Proof.
  revert n. induction s as [|c s IH]; intros n; [done|]. rewrite Index_slash_cons.
  case_decide as Hc.
  - intros [= <-]. exists "", s. by subst.
  - destruct (Index s "/") as [m|]; [|done]. intros [= <-].
    destruct (IH m) as (x & t & -> & Ht); [done|]. exists (String c x), t. split; [done|].
    change (S (S m) = S (String.length (x +:+ "/"))). by rewrite Ht.
Qed.

Lemma child_dir s n :
  Index s "/" = Some n → ∃ x t, s = (x +:+ "/") +:+ t ∧ child s = x +:+ "/".
Proof.
  intros Hn. destruct (Index_slash_cut _ _ Hn) as (x & t & -> & Hl). exists x, t.
  split; [done|]. unfold child. by rewrite Hn, Hl, str_take_app.
Qed.

Lemma child_folder r r' :
  is_Some (Index r "/") → child r' = child r ↔ HasPrefix r' (child r) = true.
Proof.
  intros [n Hn]. split.
  - intros <-. apply HasPrefix_spec. destruct (Index r' "/") as [n'|] eqn:Hn'.
    + destruct (child_dir _ _ Hn') as (x' & t' & ? & ->). eauto.
    + exists "". unfold child. by rewrite Hn', str_app_nil_r.
  - intros [t' ->]%HasPrefix_spec. pose proof (Index_child _ _ Hn) as Hi.
    destruct (Index_slash_cut _ _ Hn) as (x & t & -> & Hl). rewrite Hl, str_take_app in Hi.
    unfold child. rewrite Hn, Hl, str_take_app, (Index_slash_app _ _ _ Hi), Hl.
    apply str_take_app.
Qed.

(** A child is a folder if the path has a slash, and then the paths with that
    child are those below the folder; otherwise it is the path itself. *)
Lemma child_cases r :
  (HasSuffix (child r) "/" = false ∧ child r = r ∧ ∀ r', child r' = r ↔ r' = r) ∨
  (HasSuffix (child r) "/" = true ∧ (0 < String.length (child r))%nat ∧
   ∀ r', child r' = child r ↔ HasPrefix r' (child r) = true).
Proof.
  destruct (Index r "/") as [n|] eqn:Hn.
  - right. destruct (child_dir _ _ Hn) as (x & t & Hr & Hd). split_and!.
    + apply HasSuffix_spec. eauto.
    + rewrite Hd, str_length_app. simpl. lia.
    + intros r'. apply child_folder. by rewrite Hn.
  - left. assert (child r = r) as Hr by (unfold child; by rewrite Hn). rewrite Hr. split_and!.
    + apply not_true_iff_false. intros [x ->]%HasSuffix_spec.
      destruct (Index_slash_end x). congruence.
    + done.
    + intros r'. split; [by apply child_leaf|]. by intros ->.
Qed.

(** ** Listing a folder splits the keys below it *)

Section folders.
Context `{RadixTree} {V : Type} (m : gmap string V).

(** The keys an entry [c] of the listing of [q] stands for. *)
Definition entry_keys (q c : string) : list string :=
  if HasSuffix c "/" then WalkPrefix m (q +:+ c) else [q +:+ c].

Definition folders (l : list string) : list string := filter (λ c, HasSuffix c "/" = true) l.
Definition leaves (l : list string) : list string := filter (λ c, HasSuffix c "/" = false) l.

Definition lists (q : string) (l : list string) : Prop :=
  NoDup l ∧ ∀ c, c ∈ l ↔ ∃ rest, is_Some (m !! (q +:+ rest)) ∧ c = child rest.

Lemma entry_keys_elem q rest k :
  is_Some (m !! (q +:+ rest)) →
  k ∈ entry_keys q (child rest) ↔
  ∃ r, k = q +:+ r ∧ is_Some (m !! k) ∧ child r = child rest.
Proof.
  intros Hrest. unfold entry_keys. destruct (child_cases rest) as [(-> & -> & Hc)|(-> & _ & Hc)].
  - rewrite list_elem_of_singleton. split.
    + intros ->. exists rest. by rewrite Hc.
    + intros (r & -> & _ & ->%Hc). done.
  - rewrite WalkPrefix_elem. split.
    + intros [Hk [t ->]%HasPrefix_spec]. rewrite str_app_assoc in *.
      eexists. split_and!; [done..|]. apply Hc, HasPrefix_spec. eauto.
    + intros (r & -> & Hk & [t ->]%Hc%HasPrefix_spec). split; [done|].
      apply HasPrefix_spec. exists t. by rewrite str_app_assoc.
Qed.

Lemma folder_split q l : lists q l → WalkPrefix m q ≡ₚ l ≫= entry_keys q.
Proof.
  intros [Hnd Hl]. apply NoDup_Permutation.
  - apply WalkPrefix_NoDup.
  - apply NoDup_bind; [| |done].
    + intros c1 c2 k (r1 & H1 & ->)%Hl (r2 & H2 & ->)%Hl.
      intros (r & -> & _ & <-)%entry_keys_elem; [|done].
      intros (r' & Hr%str_app_inj_l & _ & <-)%entry_keys_elem; [|done]. by subst.
    + intros c _. unfold entry_keys. destruct (HasSuffix c "/"); [apply WalkPrefix_NoDup|].
      apply NoDup_singleton.
  - intros k. rewrite WalkPrefix_elem, list_elem_of_bind. split.
    + intros [Hk [r ->]%HasPrefix_spec]. exists (child r). split.
      * apply entry_keys_elem; eauto.
      * apply Hl. eauto.
    + intros (c & Hk & (rest & Hr & ->)%Hl). apply entry_keys_elem in Hk as (r & -> & ? & _); [|done].
      split; [done|]. apply HasPrefix_spec. eauto.
Qed.

Lemma entries_split q l :
  l ≫= entry_keys q ≡ₚ
  ((λ c, q +:+ c) <$> leaves l) ++ (folders l ≫= λ c, WalkPrefix m (q +:+ c)).
Proof.
  unfold leaves, folders. induction l as [|c l IH]; [done|].
  rewrite !filter_cons. csimpl. unfold entry_keys at 1.
  destruct (HasSuffix c "/"); simpl; rewrite IH; [|done].
  apply Permutation_app_swap_app.
Qed.

(** Listing a folder takes one step of this measure, so it bounds the number
    of folders listed. *)
Definition depth (q k : string) : nat := String.length k - String.length q.
Definition weight (q : string) : nat := S (sum_list_with (depth q) (WalkPrefix m q)).

Lemma sum_depth_lt q c ks :
  (0 < String.length c)%nat → ks ≠ [] → (∀ k, k ∈ ks → HasPrefix k (q +:+ c) = true) →
  (sum_list_with (depth (q +:+ c)) ks < sum_list_with (depth q) ks)%nat.
Proof.
  intros Hc Hne Hks. destruct ks as [|k ks]; [done|]. clear Hne.
  assert (∀ k, HasPrefix k (q +:+ c) = true → (depth (q +:+ c) k < depth q k)%nat) as Hlt.
  { intros k' [t ->]%HasPrefix_spec. unfold depth. rewrite !str_length_app. lia. }
  simpl. apply Nat.add_lt_le_mono; [apply Hlt, Hks; set_solver|].
  assert (∀ k, k ∈ ks → HasPrefix k (q +:+ c) = true) as Hr by set_solver. clear Hks.
  induction ks as [|k' ks IH]; [done|]. simpl.
  pose proof (Hlt k' (Hr k' ltac:(set_solver))). specialize (IH ltac:(set_solver)). lia.
Qed.

Lemma weight_folders q l :
  lists q l → (sum_list_with weight ((λ c, q +:+ c) <$> folders l) < weight q)%nat.
Proof.
  intros Hl. unfold weight at 2. rewrite (folder_split _ _ Hl), entries_split, sum_list_with_app.
  assert (∀ c, c ∈ folders l →
    (weight (q +:+ c) ≤ sum_list_with (depth q) (WalkPrefix m (q +:+ c)))%nat) as Hc.
  { unfold folders. intros c [Hs Hc]%list_elem_of_filter. apply (proj2 Hl) in Hc as (rest & Hr & ->).
    destruct (child_cases rest) as [(Hf & _ & _)|(_ & Hlen & Hc)]; [congruence|].
    apply sum_depth_lt; [done| |by intros k [_ ?]%WalkPrefix_elem].
    apply (elem_of_not_nil (q +:+ rest)), WalkPrefix_elem. split; [done|].
    pose proof (proj1 (Hc rest) eq_refl) as [t Ht]%HasPrefix_spec.
    apply HasPrefix_spec. exists t. by rewrite str_app_assoc, <-Ht. }
  induction (folders l) as [|c cs IH]; csimpl; [lia|]. rewrite sum_list_with_app.
  pose proof (Hc c ltac:(set_solver)) as Hw. unfold weight at 1 in Hw.
  specialize (IH ltac:(set_solver)). lia.
Qed.
End folders.

(** ** The walk *)

Section walk.
Context `{RadixTree} (env : Env) (P : string) (roErr : option goerr).
Context (ctx_Err : handler (option goerr)).

Definition view : BarrierView coreE blob := setReadOnlyErr (NewBarrierView barrier P) roErr.

(** A context changes nothing when asked, and once it is cancelled it stays
    cancelled. *)
Record context_ok : Prop := {
  ctx_ro : ∀ w, ro w (exec env ctx_Err w).2;
  ctx_sticky : ∀ w, is_Some (exec env ctx_Err w).1 →
    is_Some (exec env ctx_Err (exec env ctx_Err w).2).1;
}.

(** Nothing goes wrong: the context is not cancelled, the storage works, the
    view is writable, and no key of the view has two dots in a row, which the
    view refuses to store. *)
Record healthy (w : World) : Prop := {
  h_ctx : ∀ w, (exec env ctx_Err w).1 = None;
  h_fault : ∀ n, env_fault env n = Done;
  h_list : Inmem.failList (w_phys w) = false;
  h_delete : Inmem.failDelete (w_phys w) = false;
  h_writable : roErr = None;
  h_sane : ∀ k, is_Some (w_store w !! (P +:+ k)) → SanityCheck k = None;
}.

Lemma healthy_stored m w w' : stored m w w' → m ⊆ w_store w → healthy w → healthy w'.
Proof.
  intros Hs Hm []. pose proof (ro_phys _ _ Hs) as Hp. simpl in Hp.
  split; rewrite ?Hp; try done. intros k. rewrite (stored_store _ _ _ Hs). intros [b Hb].
  apply h_sane0. exists b. by eapply lookup_weaken.
Qed.

Lemma healthy_ro w w' : ro w w' → healthy w → healthy w'.
Proof. intros Hr. by eapply healthy_stored; [apply stored_self|]. Qed.

Context (Hctx : context_ok).

Lemma wp_ctx Q w :
  (∀ w', ro w w' → Q None w') →
  (∀ e w', ro w w' → ¬ healthy w → is_Some (exec env ctx_Err w').1 → Q (Some e) w') →
  wp env ctx_Err Q w.
Proof.
  intros Hn Hs. unfold wp. pose proof (ctx_ro Hctx w) as Hr. pose proof (ctx_sticky Hctx w) as Hst.
  destruct (exec env ctx_Err w) as [[e|] w'] eqn:Hx; simpl in *; [|by apply Hn].
  apply Hs; [done| |by apply Hst]. intros Hh. pose proof (h_ctx _ Hh w) as Hc. by rewrite Hx in Hc.
Qed.

(** The two calls of a loop that finds its context cancelled. *)
Lemma wp_ctx_return {A} (f : option goerr → A) Q w :
  is_Some (exec env ctx_Err w).1 →
  (∀ err w', ro w w' → is_Some err → Q (f err) w') →
  wp env (err ← ctx_Err; Ret (f err)) Q w.
Proof. intros Hs HQ. apply wp_bind. apply HQ; [apply (ctx_ro Hctx)|done]. Qed.

Lemma wp_view_List p Q w :
  (∀ l w', ro w w' → lists (w_store w) (P +:+ p) l → Q (Ok l) w') →
  (∀ e w', ro w w' → ¬ (healthy w ∧ SanityCheck p = None) → Q (Err e) w') →
  wp env (cv_List (clearable view) p) Q w.
Proof.
  intros Hl He. change (cv_List (clearable view) p) with (view_List (mkView barrier P) p).
  unfold view_List. destruct (SanityCheck p); [by apply He; [|intros [_ ?]]|].
  apply wp_trigger. simpl. unfold ExpandKey. simpl.
  destruct (env_fault env (w_tick w)) eqn:Hf;
    [|apply He; [done|]; intros [Hh _]; by rewrite (h_fault _ Hh) in Hf..].
  destruct (Inmem.ListInternal (P +:+ p) (w_phys w)) as [l|e] eqn:Hi.
  - apply Hl; [done|]. by apply list_spec.
  - apply He; [done|]. intros [Hh _]. unfold Inmem.ListInternal in Hi.
    by rewrite (h_list _ Hh) in Hi.
Qed.

Lemma wp_view_Delete k Q w :
  (∀ w', stored (delete (P +:+ k) (w_store w)) w w' → Q None w') →
  (∀ e w', ro w w' ∨ stored (delete (P +:+ k) (w_store w)) w w' →
     ¬ (healthy w ∧ SanityCheck k = None) → Q (Some e) w') →
  wp env (cv_Delete (clearable view) k) Q w.
Proof.
  intros Hok He. change (cv_Delete (clearable view) k) with (barrier_Delete view k).
  unfold barrier_Delete. cbn [view setReadOnlyErr readOnlyErr].
  destruct roErr as [e|] eqn:Hro.
  { apply He; [by left|]. intros [Hh _]. pose proof (h_writable _ Hh). congruence. }
  unfold view_Delete. destruct (SanityCheck k) as [e|]; [by apply He; [left|intros [_ ?]]|].
  apply wp_trigger. unfold core_handle, Inmem.DeleteInternal, write_result.
  destruct (Inmem.failDelete (w_phys w)) eqn:Hd, (env_fault env (w_tick w)) eqn:Hf; simpl;
    first [by apply Hok|apply He; [first [by left|by right]|]].
  all: intros [Hh _]; pose proof (h_delete _ Hh); pose proof (h_fault _ Hh (w_tick w)); congruence.
Qed.

(** One folder: its sub-folders go on the stack, its leaves to the callback. *)
Lemma wp_scan_folder {S} (f : S → string → S) p l fr s w :
  wp env (range l (fr, s) (scan_entry ctx_Err (λ path s, Ret (f s path, true)) p))
    (λ r w', ro w w' ∧
       match r with
       | inl st => st = (reverse ((λ c, p +:+ c) <$> folders l) ++ fr,
                         foldl f s ((λ c, p +:+ c) <$> leaves l))
       | inr (_, err) => is_Some err ∧ ¬ healthy w
       end) w.
Proof.
  revert fr s w. induction l as [|c l IH]; intros fr s w; [by apply wp_ret|].
  unfold folders, leaves in *. rewrite !filter_cons. simpl. apply wp_bind, wp_bind, wp_ctx.
  - intros w' Hr. destruct (HasSuffix c "/"); apply wp_ret;
      (eapply wp_mono; [|apply IH]); intros r w'' [Hr' Hp]; (split; [by etrans|]);
      (destruct r as [st|[s' err]]; [|split; [by apply Hp|]; intros Hh; by apply Hp, (healthy_ro w)]).
    + rewrite Hp. csimpl. by rewrite reverse_cons, <-(assoc_L (++)).
    + done.
  - intros e w' Hr Hh Hst. apply (wp_ctx_return (λ err, inr (s, err))); [done|].
    intros err w'' Hr' He. apply wp_ret. split; [by etrans|done].
Qed.

(** The keys still to be met from a stack of folders. *)
Definition below (m : gmap string blob) (fr : list string) : list string :=
  fr ≫= λ p, WalkPrefix m (P +:+ p).
Definition stack_weight (m : gmap string blob) (fr : list string) : nat :=
  sum_list_with (λ p, weight m (P +:+ p)) fr.

Lemma below_folder m p l fr :
  lists m (P +:+ p) l →
  below m (p :: fr) ≡ₚ ((λ c, P +:+ (p +:+ c)) <$> leaves l) ++
    below m (reverse ((λ c, p +:+ c) <$> folders l) ++ fr).
Proof.
  intros Hl. unfold below. csimpl. rewrite (folder_split m _ _ Hl), entries_split.
  rewrite bind_app, reverse_Permutation, (assoc_L (++)), list_fmap_bind. f_equiv.
  apply Permutation_app; apply reflexive_eq.
  - apply list_fmap_ext. intros _ c _. apply str_app_assoc.
  - apply list_bind_ext; [|done]. intros c. simpl. by rewrite str_app_assoc.
Qed.

Lemma stack_weight_folder m p l fr :
  lists m (P +:+ p) l →
  (stack_weight m (reverse ((λ c, p +:+ c) <$> folders l) ++ fr) < stack_weight m (p :: fr))%nat.
Proof.
  intros Hl%weight_folders. unfold stack_weight. rewrite sum_list_with_app, sum_list_with_reverse.
  cbn [sum_list_with]. apply Nat.add_lt_mono_r. eapply Nat.le_lt_trans; [|exact Hl]. apply Nat.eq_le_incl.
  clear Hl. induction (folders l) as [|c cs IH]; [done|]. rewrite !fmap_cons. cbn [sum_list_with].
  by rewrite IH, str_app_assoc.
Qed.

(** A folder on the stack is the view's root or has a key below it. *)
Definition on_stack (m : gmap string blob) (p : string) : Prop :=
  p = "" ∨ ∃ t, is_Some (m !! (P +:+ (p +:+ t))).

Lemma on_stack_sane w p : healthy w → on_stack (w_store w) p → SanityCheck p = None.
Proof. intros Hh [->|[t Ht]]; [done|]. by eapply SanityCheck_prefix, (h_sane _ Hh). Qed.

Lemma on_stack_folder m p l c : lists m (P +:+ p) l → c ∈ l → on_stack m (p +:+ c).
Proof.
  intros [_ Hl] (rest & Hr & ->)%Hl. right. rewrite str_app_assoc in Hr.
  destruct (child_cases rest) as [(_ & -> & _)|(_ & _ & Hc)].
  - exists "". by rewrite str_app_nil_r.
  - pose proof (proj1 (Hc rest) eq_refl) as [t Ht]%HasPrefix_spec. exists t.
    by rewrite str_app_assoc, <-Ht.
Qed.

(** The walk from a stack of folders: it runs out of fuel only if there was
    less than the stack's weight, it fails only if something goes wrong, and
    otherwise the callback has met every key below the stack once. *)
Lemma wp_scan_loop {S} (f : S → string → S) fuel fr s w :
  Forall (on_stack (w_store w)) fr →
  wp env (scan_loop ctx_Err fuel (clearable view) (λ path s, Ret (f s path, true)) fr s)
    (λ r w', ro w w' ∧
       match r with
       | None => (fuel < stack_weight (w_store w) fr)%nat
       | Some (_, Some _) => ¬ healthy w
       | Some (s', None) =>
           ∃ vs, ((λ k, P +:+ k) <$> vs) ≡ₚ below (w_store w) fr ∧ s' = foldl f s vs
       end) w.
Proof.
  revert fr s w. induction fuel as [|fuel IH]; intros [|p fr] s w Hfr;
    [apply wp_ret; split; [done|by exists []]| |apply wp_ret; split; [done|by exists []]|].
  { apply wp_ret. split; [done|]. unfold stack_weight, weight. simpl. lia. }
  apply Forall_cons in Hfr as [Hp Hfr]. apply wp_bind, wp_view_List.
  - intros l w1 Hr1 Hl. apply wp_bind. eapply wp_mono; [|apply wp_scan_folder].
    intros [st|[s' err]] w2 [Hr2 Hst].
    + subst st. assert (ro w w2) as Hr by by etrans. eapply wp_mono; [|apply IH].
      * rewrite (ro_store _ _ Hr). intros r w3 [Hr3 Hpost]. split; [by etrans|].
        pose proof (stack_weight_folder _ _ _ fr Hl).
        destruct r as [[s' [e|]]|]; [by intros ?%(healthy_ro w w2)| |lia].
        destruct Hpost as (vs & Hvs & ->). exists (((λ c, p +:+ c) <$> leaves l) ++ vs).
        rewrite fmap_app, Hvs, below_folder, <-list_fmap_compose, foldl_app by done. done.
      * rewrite (ro_store _ _ Hr). apply Forall_app. split; [|done].
        apply Forall_reverse, Forall_fmap, Forall_forall. unfold folders.
        intros c [_ Hc]%list_elem_of_filter. by eapply on_stack_folder.
    + apply wp_ret. split; [by etrans|]. destruct Hst as [[e ->] Hh].
      intros ?%(healthy_ro w w1); done.
  - intros e w1 Hr1 Hh. apply wp_ret. split; [done|]. intros Hw. apply Hh. split; [done|].
    by eapply on_stack_sane.
Qed.

Lemma wp_CollectKeysWithPrefix fuel prefix w :
  wp env (CollectKeysWithPrefix ctx_Err fuel (clearable view) prefix)
    (λ r w', ro w w' ∧
       match r with
       | None => (fuel < weight (w_store w) P)%nat
       | Some (Err _) => ¬ healthy w
       | Some (Ok keys) => NoDup keys ∧
           ∀ k, k ∈ keys ↔ HasPrefix k prefix = true ∧ is_Some (w_store w !! (P +:+ k))
       end) w.
Proof.
  apply wp_bind. eapply wp_mono;
    [|apply (wp_scan_loop (λ keys path, if HasPrefix path prefix then keys ++ [path] else keys));
      constructor; [by left|done]].
  intros r w' [Hr Hpost]. apply wp_ret. split; [done|].
  assert (P +:+ "" = P) as HP by apply str_app_nil_r.
  destruct r as [[keys [e|]]|];
    [done| |unfold stack_weight in Hpost; cbn [sum_list_with] in Hpost; rewrite HP in Hpost; lia].
  destruct Hpost as (vs & Hvs & ->). unfold below in Hvs. csimpl in Hvs.
  rewrite HP, app_nil_r in Hvs.
  assert (∀ l, foldl (λ keys path, if HasPrefix path prefix then keys ++ [path] else keys) l vs
               = l ++ filter (λ k, HasPrefix k prefix = true) vs) as ->.
  { clear Hvs. induction vs as [|k vs IH]; intros l; simpl; [by rewrite app_nil_r|].
    rewrite IH, filter_cons. destruct (HasPrefix k prefix); simpl; [|done].
    by rewrite <-(assoc_L (++)). }
  simpl. split.
  - apply NoDup_filter, (NoDup_fmap_1 (λ k, P +:+ k)). rewrite Hvs. apply WalkPrefix_NoDup.
  - intros k. rewrite list_elem_of_filter. f_equiv.
    assert (Inj (=) (=) (λ k, P +:+ k)) as Hinj by (intros ??; apply str_app_inj_l).
    rewrite <-(list_elem_of_fmap_inj (λ k, P +:+ k)), Hvs, WalkPrefix_elem.
    rewrite HasPrefix_spec. naive_solver.
Qed.

(** Part of the view's keys are gone and nothing else has changed. *)
Definition shrunk (m m' : gmap string blob) : Prop :=
  m' ⊆ m ∧ ∀ k, HasPrefix k P = false → m' !! k = m !! k.

Lemma shrunk_delete m k : shrunk m (delete (P +:+ k) m).
Proof.
  split; [apply delete_subseteq|]. intros k' Hk'. apply lookup_delete_ne. intros <-.
  apply not_true_iff_false in Hk'. apply Hk', HasPrefix_spec. eauto.
Qed.

#[local] Instance shrunk_preorder : PreOrder shrunk.
Proof.
  split; [done|]. intros m1 m2 m3 [H1 H1'] [H2 H2']. split; [by etrans|].
  intros k Hk. by rewrite H2', H1'.
Qed.

Lemma wp_clear_keys keys w :
  wp env (range keys () (clear_entry ctx_Err (clearable view)))
    (λ r w', ∃ m, stored m w w' ∧ shrunk (w_store w) m ∧
       match r with
       | inl _ => ∀ k, k ∈ keys → m !! (P +:+ k) = None
       | inr err => is_Some err ∧ ¬ (healthy w ∧ ∀ k, k ∈ keys → SanityCheck k = None)
       end) w.
Proof.
  revert w. induction keys as [|k keys IH]; intros w.
  { apply wp_ret. exists (w_store w). split_and!; [by apply stored_self|done|set_solver]. }
  apply wp_bind, wp_bind, wp_ctx.
  - intros w1 Hr1. apply wp_bind, wp_view_Delete.
    + intros w2 Hs2. apply wp_ret. rewrite (ro_store _ _ Hr1) in Hs2.
      assert (stored (delete (P +:+ k) (w_store w)) w w2) as Hs by by eapply stored_ro_l.
      eapply wp_mono; [|apply IH]. rewrite (stored_store _ _ _ Hs).
      intros r w3 (m & Hm & Hsh & Hpost). exists m. split_and!.
      * by eapply stored_trans.
      * etrans; [apply shrunk_delete|done].
      * destruct r as [[]|err].
        -- intros k' [->|?]%elem_of_cons; [|by apply Hpost].
           eapply lookup_weaken_None; [|apply Hsh]. apply lookup_delete_eq.
        -- destruct Hpost as [He Hh]. split; [done|]. intros [Hw Hk]. apply Hh. split; [|set_solver].
           eapply healthy_stored; [exact Hs|apply delete_subseteq|done].
    + intros e w2 Hs2 Hh. apply wp_ret. rewrite (ro_store _ _ Hr1) in Hs2.
      assert (∃ m, stored m w w2 ∧ shrunk (w_store w) m) as (m & Hm & Hsh).
      { destruct Hs2 as [Hr2|Hs2].
        - exists (w_store w). split; [|done]. apply stored_self. by etrans.
        - eexists. split; [by eapply stored_ro_l|apply shrunk_delete]. }
      exists m. split; [done|]. split; [done|]. split; [done|]. intros [Hw Hk]. apply Hh.
      split; [by eapply healthy_ro|]. apply Hk. set_solver.
  - intros e w1 Hr1 Hh Hst. apply (wp_ctx_return inr); [done|]. intros err w2 Hr2 He.
    apply wp_ret. exists (w_store w). split; [apply stored_self; by etrans|].
    split; [done|]. split; [done|]. by intros [? _].
Qed.

(** C31: clearing a view, whatever the storage and the context do during it,
    removes keys of the view and changes nothing else; if it reports success
    no key of the view is left; and it terminates with success if the context
    is not cancelled, the storage works, the view is writable and no key has
    two dots in a row, within as many listings as the keys of the view have
    characters, and one. *)
Theorem ClearView_clears fuel w :
  wp env (ClearView ctx_Err fuel (Some (clearable view)))
    (λ r w', ∃ m, stored m w w' ∧ shrunk (w_store w) m ∧
       (r = Some None → ∀ k, HasPrefix k P = true → m !! k = None) ∧
       (healthy w → (weight (w_store w) P ≤ fuel)%nat → r = Some None)) w.
Proof.
  apply wp_bind. eapply wp_mono; [|apply wp_CollectKeysWithPrefix].
  intros [[keys|e]|] w1 [Hr1 Hpost].
  - destruct Hpost as [_ Hkeys]. apply wp_bind. eapply wp_mono; [|apply wp_clear_keys].
    rewrite (ro_store _ _ Hr1). intros r w2 (m & Hs & Hsh & Hpost). apply wp_ret.
    exists m. split_and!; [by eapply stored_ro_l|done|..].
    + intros Hr k [t ->]%HasPrefix_spec. destruct r as [_|err].
      * destruct (w_store w !! (P +:+ t)) as [b|] eqn:Hb.
        -- apply Hpost, Hkeys. split; [by apply HasPrefix_spec; exists t|by rewrite Hb].
        -- by eapply lookup_weaken_None; [|apply Hsh].
      * destruct Hpost as [[e ->] _]. done.
    + intros Hh _. destruct r as [_|err]; [done|]. destruct Hpost as [_ []].
      split; [by eapply healthy_ro|]. intros k [_ Hk]%Hkeys. by apply (h_sane _ Hh).
  - apply wp_ret. exists (w_store w). by split_and!; [apply stored_self|..].
  - apply wp_ret. exists (w_store w). split_and!; [by apply stored_self|done..|lia].
Qed.
End walk.

(** ** A mount's data, cleared *)

Definition mount_prefix : string := "logical/5b1f/".

Definition mount_data : gmap string blob :=
  <["logical/5b1f/config" := NotJSON]> (<["logical/5b1f/role/" := NotJSON]>
  (<["logical/5b1f/role/a" := NotJSON]> (<["logical/5b1f/role/b/c" := NotJSON]>
  (<["logical/77aa/config" := NotJSON]> (<["logical/5b1f" := NotJSON]> ∅))))).

(** A context with a deadline. *)
Definition deadline_Err (deadline : Z) : handler (option goerr) :=
  t ← trigger Now;
  Ret (if deadline <? t then Some (ErrBackend "context deadline exceeded") else None).

Lemma deadline_context deadline : context_ok env0 (deadline_Err deadline).
Proof.
  split.
  - intros w. by split.
  - intros w. unfold deadline_Err. cbn -[Z.mul Z.ltb Z.add t2025 Second].
    destruct (Z.ltb_spec deadline (t2025 + Z.of_nat (w_tick w) * Second)); [|by intros []].
    destruct (Z.ltb_spec deadline (t2025 + Z.of_nat (S (w_tick w)) * Second)); [done|].
    unfold Second in *. lia.
Qed.

Lemma background_context : context_ok env0 (Ret None).
Proof. by split; [|intros w []]. Qed.

Lemma mount_healthy : healthy env0 mount_prefix None (Ret None) (world0 mount_data).
Proof.
  split; try done. intros k [b Hb].
  assert (map_Forall (λ key _, SanityCheck (TrimPrefix key mount_prefix) = None) mount_data) as Hall.
  { apply (bool_decide_unpack _). vm_compute. exact I. }
  specialize (Hall _ _ Hb). cbv beta in Hall. by rewrite TrimPrefix_app in Hall.
Qed.

(** The mount cleared under a context. *)
Definition mount_cleared (ctx_Err : handler (option goerr)) : option (option goerr) * World :=
  exec env0 (ClearView ctx_Err 26 (Some (clearable (view mount_prefix None)))) (world0 mount_data).

(** Without a deadline the mount's data is gone; with one that passes during
    the deletions the error is reported and other data is untouched. *)
Lemma ClearView_clears_witness :
  ((mount_cleared (Ret None)).1 = Some None ∧
   ∀ k, HasPrefix k mount_prefix = true → w_store (mount_cleared (Ret None)).2 !! k = None) ∧
  (let r := mount_cleared (deadline_Err (t2025 + 12 * Second)) in
   r.1 = Some (Some (ErrBackend "context deadline exceeded")) ∧
   size (w_store r.2) = 4%nat ∧ shrunk mount_prefix mount_data (w_store r.2)).
Proof.
  split.
  - destruct (ClearView_clears env0 mount_prefix None (Ret None) background_context 26
      (world0 mount_data)) as (m & Hs & _ & He & Hok).
    assert ((mount_cleared (Ret None)).1 = Some None) as Hr.
    { apply Hok; [exact mount_healthy|]. apply Nat.leb_le. vm_compute. reflexivity. }
    split; [exact Hr|]. change (mount_cleared (Ret None)) with
      (exec env0 (ClearView (Ret None) 26 (Some (clearable (view mount_prefix None)))) (world0 mount_data)).
    rewrite (stored_store _ _ _ Hs). exact (He Hr).
  - destruct (ClearView_clears env0 mount_prefix None (deadline_Err (t2025 + 12 * Second))
      (deadline_context _) 26 (world0 mount_data)) as (m & Hs & Hsh & _ & _).
    split; [vm_compute; reflexivity|]. split; [vm_compute; reflexivity|].
    rewrite <-(stored_store _ _ _ Hs) in Hsh. exact Hsh.
Defined.
