(* ===== verification/Interception.v ===== *)
(** * Interception: a guarded path is not reached without approval

    The interceptor of [vault/request_handling.go] on working storage: a
    request a stored rule matches is parked or refused, never routed. *)

From S2P Require Import Prelude GoLib Utf8 Storage Core Lease ApprovalTypes ApprovalCore ApprovalHandlers ApprovalPaths RequestHandling CoreLogic ApprovalLogic StorageFacts Reliable Scenario.

(** ** Identifiers the endpoints accept *)

Lemma bytes_app s t : bytes (s +:+ t) = bytes s ++ bytes t.
Proof. induction s as [|c s IH]; [done|]. simpl. f_equal. apply IH. Qed.

Lemma Index_bytes s sub n : Index s sub = Some n → ∃ r, bytes s = take n (bytes s) ++ bytes sub ++ r.
Proof.
  revert n. induction s as [|c s IH]; intros n; cbn [Index]; case_match eqn:Hp.
  - intros [= <-]. apply HasPrefix_spec in Hp as [r Hr]. exists (bytes r).
    by rewrite Hr, bytes_app.
  - done.
  - intros [= <-]. apply HasPrefix_spec in Hp as [r Hr]. exists (bytes r).
    by rewrite Hr, bytes_app.
  - destruct (Index s sub) as [m|]; [|done]. intros [= <-].
    destruct (IH m eq_refl) as [r Hr]. exists r. simpl. by rewrite Hr at 1.
Qed.

(** A text without a given byte contains nothing with that byte. *)
Lemma Index_None s sub b : b ∈ bytes sub → b ∉ bytes s → Index s sub = None.
Proof.
  intros Hb Hs. destruct (Index s sub) as [n|] eqn:Hn; [|done].
  destruct (Index_bytes _ _ _ Hn) as [r Hr]. destruct Hs. rewrite Hr. set_solver.
Qed.

Definition dot : N := 0x2E.

Lemma SanityCheck_no_dot k : dot ∉ bytes k → SanityCheck k = None.
Proof.
  intros Hk. unfold SanityCheck, Contains. rewrite (Index_None k ".." dot); [done|set_solver|done].
Qed.

(** A name that can be listed and read back: no slash and no dot. *)
Definition plain (id : string) : Prop := (0x2F%N ∉ bytes id) ∧ (dot ∉ bytes id).

Lemma plain_index id : plain id → Index id "/" = None.
Proof. intros [Hs _]. apply (Index_None _ _ 0x2F%N); [set_solver|done]. Qed.

Lemma plain_sane dir id : dot ∉ bytes dir → plain id → SanityCheck (dir +:+ id) = None.
Proof. intros Hd [_ Hid]. apply SanityCheck_no_dot. rewrite bytes_app. set_solver. Qed.

Lemma plain_forallb (f : N → bool) id :
  f 0x2F%N = false → f dot = false → forallb f (bytes id) = true → plain id.
Proof.
  intros H1 H2 Hf. rewrite forallb_forall in Hf.
  split; intros Hin; apply list_elem_of_In, Hf in Hin; congruence.
Qed.

Lemma ruleIDPattern_plain id : ruleIDPattern id = true → plain id.
Proof.
  intros [_ Hid]%andb_true_iff. by apply (plain_forallb rule_id_byte).
Qed.

Lemma eat_forallb f n bs r g :
  eat f n bs = Some r → (∀ b, f b = true → g b = true) → forallb g r = true → forallb g bs = true.
Proof.
  intros He Hfg Hr. revert n He. induction bs as [|b bs IH]; intros [|n] He; simpl in *; try done.
  - by injection He as <-.
  - destruct (f b) eqn:Hb; [|done]. rewrite (Hfg b Hb). by eapply IH.
Qed.

Lemma eat_all_forallb (g : N → bool) gs bs :
  fold_left (λ o f, o ≫= eat f.1 f.2) gs (Some bs) = Some [] →
  Forall (λ f, ∀ b, f.1 b = true → g b = true) gs → forallb g bs = true.
Proof.
  intros Hf Hg. revert bs Hf. induction Hg as [|[f n] gs Hfg _ IH]; intros bs Hf; simpl in Hf.
  { by injection Hf as ->. }
  destruct (eat f n bs) as [r|] eqn:He.
  - eapply eat_forallb; [exact He|exact Hfg|]. by apply IH.
  - exfalso. clear -Hf. induction gs as [|[f' n'] gs IH]; simpl in Hf; [done|by apply IH].
Qed.

Lemma uuidPattern_bytes id :
  uuidPattern id = true → forallb (λ b, lower_hex b || dash b) (bytes id) = true.
Proof.
  unfold uuidPattern. rewrite bool_decide_eq_true. intros Hid.
  eapply eat_all_forallb; [exact Hid|].
  repeat constructor; intros b Hb; cbn [fst] in Hb; rewrite Hb; by rewrite ?orb_true_r.
Qed.

Lemma uuidPattern_plain id : uuidPattern id = true → plain id.
Proof. intros Hid%uuidPattern_bytes. by apply (plain_forallb _ _) in Hid. Qed.

Lemma uuidPattern_utf8 id : uuidPattern id = true → valid_utf8 id = id.
Proof.
  intros Hid%uuidPattern_bytes. apply valid_utf8_id, Forall_forall. intros b Hb.
  rewrite forallb_forall in Hid. apply list_elem_of_In, Hid in Hb.
  unfold lower_hex, is_digit, byte_in, dash in Hb.
  rewrite !orb_true_iff, !andb_true_iff, !N.leb_le, N.eqb_eq in Hb. lia.
Qed.

Section interception.
Context `{GoTables} `{RadixTree} (env : Env) (c : Core).

(** ** The rule that guards a path *)

(** A stored rule, under a name that can be listed, that matches the path. *)
Record guards (w : World) (path id : string) (rule : ApprovalRule) : Prop := {
  guards_plain : plain id;
  guards_rule : rule_at (w_store w) id rule;
  guards_match : approvalRuleMatchesPath rule path = true;
}.

Lemma guards_ro w w' path id rule : guards w path id rule → ro w w' → guards w' path id rule.
Proof. intros [] Hro. split; [done| |done]. by rewrite (ro_store _ _ Hro). Qed.

(** The search returns a stored matching rule, and finds one if there is
    one among the keys. *)
Lemma wp_matching_rule keys path Q w :
  reliable env c w →
  (∀ r w', ro w w' →
     (∀ rule, r = Some rule → ∃ id, id ∈ keys ∧ rule_at (w_store w) id rule ∧
                                approvalRuleMatchesPath rule path = true) →
     (r = None → ∀ id rule, id ∈ keys → guards w path id rule → False) → Q r w') →
  wp env (matching_rule c keys path) Q w.
Proof.
  intros Hr HQ. apply wp_bind. revert w Hr HQ.
  induction keys as [|key keys IH]; intros w Hr HQ; cbn [range].
  { apply wp_ret, wp_ret, HQ; [done..|]. intros _ id rule Hid. by apply elem_of_nil in Hid. }
  apply wp_bind, wp_bind.
  assert (∀ w1, ro w w1 → (∀ rule, ¬ guards w path key rule) →
    wp env (range keys () (λ key _,
      rule ← read_listed dec_rule c ("config/" +:+ key);
      Ret (match rule with
           | Some rule => if approvalRuleMatchesPath rule path then inr rule else inl ()
           | None => inl ()
           end)))
      (λ r w', wp env (Ret (match r with inl _ => None | inr rule => Some rule end)) Q w') w1)
    as Hrest.
  { intros w1 H1 Hno. apply IH; [by eapply reliable_ro|]. intros r w2 H2 Hsome Hnone.
    rewrite (ro_store _ _ H1) in Hsome. apply HQ; [by etrans| |].
    - intros rule Heq. destruct (Hsome rule Heq) as (id & Hid & Hmatch). exists id.
      split; [by right|done].
    - intros Heq id rule [->|Hid]%elem_of_cons Hg; [by eapply Hno|].
      eapply Hnone; [done..|]. by eapply guards_ro. }
  assert (∀ rule w1, ro w w1 → rule_at (w_store w) key rule →
    approvalRuleMatchesPath rule path = true → Q (Some rule) w1) as Hfound.
  { intros rule w1 H1 Hrule Hm. apply HQ; [done| |done]. intros rule' [= <-]. exists key.
    split; [apply list_elem_of_here|done]. }
  destruct (SanityCheck ("config/" +:+ key)) as [err|] eqn:Hsane.
  - assert (∀ rule, ¬ guards w path key rule) as Hno.
    { intros rule [Hp _ _]. rewrite plain_sane in Hsane; [done|by apply (bool_decide_unpack _)|done]. }
    apply wp_read_listed. intros [rule|] w1 H1 Hrule; apply wp_ret; [|by apply Hrest].
    destruct (approvalRuleMatchesPath rule path) eqn:Hm; [|by apply Hrest].
    apply wp_ret, wp_ret, Hfound; auto.
  - apply wp_read_listed_iff; [done..|]. intros [rule|] w1 H1 Hrule; apply wp_ret.
    + assert (rule_at (w_store w) key rule) as Hat by by apply Hrule.
      destruct (approvalRuleMatchesPath rule path) eqn:Hm; [by apply wp_ret, wp_ret, Hfound|].
      apply Hrest; [done|]. intros rule' [_ Hat' Hm'].
      rewrite (entry_at_fun _ _ _ _ _ Hat Hat') in Hm. congruence.
    + apply Hrest; [done|]. intros rule [_ Hat _]. by apply Hrule in Hat.
Qed.

(** ** The guard against duplicate requests *)

(** The world after a step that may have removed the entry [key]. *)
Definition may_drop (key : string) (w w' : World) : Prop :=
  ro w w' ∨ stored (delete (akey key) (w_store w)) w w'.

Lemma may_drop_ro key w w' w'' : ro w w' → may_drop key w' w'' → may_drop key w w''.
Proof.
  intros H1 [H2|H2]; [left; by etrans|right]. rewrite (ro_store _ _ H1) in H2.
  by eapply stored_ro_l.
Qed.

Lemma may_drop_reliable key w w' : reliable env c w → may_drop key w w' → reliable env c w'.
Proof. intros Hr [H1|H1]; [by eapply reliable_ro|by eapply reliable_stored]. Qed.

Lemma may_drop_lookup key key' w w' :
  may_drop key w w' → key' ≠ akey key → w_store w' !! key' = w_store w !! key'.
Proof.
  intros [H1|H1] Hne; [by rewrite (ro_store _ _ H1)|].
  by rewrite (stored_store _ _ _ H1), lookup_delete_ne.
Qed.

(** The response of the guard. *)
Definition refusal (req : Request) (r : Resp) : Prop :=
  ∃ text args, r = RespondWithStatusCode (Some (ErrorResponse text args)) req StatusBadRequest.

Lemma wp_drop_then {A} key (a : A) (Q : A → World → Prop) w w1 :
  ro w w1 → (∀ w', may_drop key w w' → Q a w') →
  wp env (_ ← Delete (approvalStorage c) key; Ret a) Q w1.
Proof.
  intros H1 HQ. apply wp_bind, wp_Delete. intros err w2 H2. apply wp_ret, HQ.
  eapply may_drop_ro; [exact H1|]. destruct H2 as [H2|[H2 _]]; [by right|by left].
Qed.

Lemma wp_dedup_body req key Q w :
  (∀ w', may_drop ("pending/" +:+ key) w w' → Q (inl ()) w') →
  (∀ r w', ro w w' → refusal req r → Q (inr r) w') →
  wp env (dedup_body c req key ()) Q w.
Proof.
  intros Hgo Hstop. apply wp_bind, wp_read_listed. intros [p|] w1 H1 _.
  2: { apply wp_ret, Hgo. by left. }
  destruct (_ || _); [apply wp_ret, Hgo; by left|].
  destruct (decide (Status p = "pending")).
  { apply wp_bind, wp_now. intros w2 H2. assert (ro w w2) by by etrans.
    destruct (Before _ _); [apply wp_ret, Hstop; [done|by eexists _, _]|].
    by apply (wp_drop_then _ _ _ w). }
  destruct (decide (Status p = "approved")); [|apply wp_ret, Hgo; by left].
  apply wp_bind. eapply (wp_mono _ _ (λ _ w2, ro w w2)).
  - intros since w2 H2. destruct (from_option _ _ _); [|by apply (wp_drop_then _ _ _ w)].
    apply wp_bind, wp_time_Since. intros w3 H3. apply wp_ret, Hstop; [by etrans|by eexists _, _].
  - destruct (CredentialData p); [|done]. destruct (IsZero _); [done|].
    apply wp_bind, wp_time_Since. intros w2 H2. apply wp_ret. by etrans.
Qed.

(** [w'] has the same routed requests and leases as [w], and no entry that
    [w] does not have. *)
Record shrunk (w w' : World) : Prop := {
  shrunk_routed : w_routed w' = w_routed w;
  shrunk_leases : w_leases w' = w_leases w;
  shrunk_store : w_store w' ⊆ w_store w;
  shrunk_reliable : reliable env c w → reliable env c w';
}.

#[export] Instance shrunk_preorder : PreOrder shrunk.
Proof. split; [done|]. intros w1 w2 w3 [] []. split; [congruence..|by etrans|auto]. Qed.

Lemma shrunk_ro w w' : ro w w' → shrunk w w'.
Proof.
  intros Hr. split; [by destruct Hr..| |intros; by eapply reliable_ro]. by rewrite (ro_store _ _ Hr).
Qed.

Lemma shrunk_drop key w w' : may_drop key w w' → shrunk w w'.
Proof.
  intros [Hr|Hs]; [by apply shrunk_ro|]. split.
  - by eapply stored_routed.
  - by eapply stored_leases.
  - rewrite (stored_store _ _ _ Hs). apply delete_subseteq.
  - intros. by eapply reliable_stored.
Qed.

Lemma wp_checkActive req Q w :
  (∀ w', shrunk w w' → Q (None, None) w') →
  (∀ r w', shrunk w w' → refusal req r → Q r w') →
  wp env (checkActiveApprovalRequest c req) Q w.
Proof.
  intros Hgo Hstop. apply wp_bind, wp_List. intros [keys|err] w1 H1 _.
  2: { by apply wp_ret, Hgo, shrunk_ro. }
  apply wp_bind. apply (wp_range _ (λ _ w', shrunk w w')).
  - by apply shrunk_ro.
  - intros key [] w2 _ H2. apply wp_dedup_body.
    + intros w3 H3. etrans; [exact H2|by eapply shrunk_drop].
    + intros r w3 H3 Hr. apply wp_ret, Hstop; [|done]. etrans; [exact H2|by apply shrunk_ro].
  - intros [] w2 H2. by apply wp_ret, Hgo.
Qed.

(** ** Parking *)

Lemma wp_approver_names ids Q w :
  (∀ r w', ro w w' → Q r w') → wp env (approver_names c ids) Q w.
Proof.
  revert Q w. induction ids as [|id ids IH]; intros Q w HQ; [by apply wp_ret, HQ|].
  cbn [approver_names]. apply wp_bind. eapply (wp_mono _ _ (λ _ w1, ro w w1)).
  - intros name w1 H1. apply wp_bind, IH. intros r w2 H2. apply wp_ret, HQ. by etrans.
  - destruct (identityStore c); [|done]. by apply wp_bind, wp_trigger.
Qed.

(** Same routed requests and leases; anything may have been stored. *)
Definition unrouted (w w' : World) : Prop :=
  w_routed w' = w_routed w ∧ w_leases w' = w_leases w.

Lemma shrunk_unrouted w w' : shrunk w w' → unrouted w w'.
Proof. by intros []. Qed.
Lemma ro_unrouted w w' : ro w w' → unrouted w w'.
Proof. by intros []. Qed.
Lemma wrote_unrouted err m w w' : wrote err m w w' → unrouted w w'.
Proof.
  intros [Hs|[Hr _]]; [|by apply ro_unrouted].
  split; [by eapply stored_routed|by eapply stored_leases].
Qed.

#[export] Instance unrouted_preorder : PreOrder unrouted.
Proof. split; [done|]. intros w1 w2 w3 [] []. split; congruence. Qed.

Lemma wp_slack rule p names Q w :
  (∀ w', unrouted w w' ∧ w_phys w' = w_phys w → Q () w') →
  wp env (sendApprovalSlackNotification rule p names (redirectAddr c)) Q w.
Proof. intros HQ. apply wp_trigger. simpl. by apply HQ. Qed.

(** Parking never lets the request through. *)
Lemma wp_park_request req rule Q w :
  (∀ r w', unrouted w w' → r.1.2 = true ∨ is_Some r.2 → Q r w') →
  wp env (park_request c req rule) Q w.
Proof.
  intros HQ. apply wp_bind, wp_uuid. intros w1 H1.
  destruct (env_uuid env (w_tick w)) as [id|err].
  2: { apply wp_ret, HQ; [by apply ro_unrouted|]. right. by eexists. }
  apply wp_bind, wp_now. intros w2 H2. cbv zeta. apply wp_bind, wp_put_json. intros err w3 H3.
  assert (unrouted w w3) as Hu.
  { etrans; [by apply ro_unrouted|]. etrans; [by apply ro_unrouted|by eapply wrote_unrouted]. }
  destruct err as [err|].
  { apply wp_ret, HQ; [done|]. right. by eexists. }
  apply wp_bind. eapply (wp_mono _ _ (λ _ w4, unrouted w w4)).
  - intros [] w4 H4. apply wp_ret, HQ; [done|]. by left.
  - destruct (decide _); [done|]. apply wp_bind, wp_approver_names. intros names w4 H4.
    apply wp_slack. intros w5 [H5 _]. etrans; [exact Hu|]. etrans; [by apply ro_unrouted|done].
Qed.

(** ** The interceptor on a guarded path *)

(** A request the interceptor looks at: not below an exempt prefix, a read,
    create or update, and not made with a root token. *)
Record interceptable (req : Request) (auth : option Auth) : Prop := {
  int_path : exempt_path (req_Path req) = false;
  int_op : intercepted_op (req_Operation req) = true;
  int_auth : from_option (λ a, has_root (auth_Policies a)) false auth = false;
}.

Definition park_or_block (req : Request) (rule : ApprovalRule)
    : handler (option Response * bool * option goerr) :=
  block ← (if decide (req_EntityID req = "") then Ret (None, None)
           else checkActiveApprovalRequest c req);
  match block with
  | (None, None) => park_request c req rule
  | (blockResp, blockErr) => Ret (blockResp, true, blockErr)
  end.

Lemma wp_guarded req auth id rule Q w :
  reliable env c w → guards w (req_Path req) id rule → interceptable req auth →
  (∀ id' rule' w1, ro w w1 → (w_tick w ≤ w_tick w1)%nat → rule_at (w_store w) id' rule' →
     approvalRuleMatchesPath rule' (req_Path req) = true →
     wp env (park_or_block req rule') Q w1) →
  wp env (checkNeedsApproval c req auth) Q w.
Proof.
  intros Hr Hg [Hp Ho Ha] HQ. unfold checkNeedsApproval. rewrite Hp, Ho, Ha. csimplb.
  apply wp_bind, wp_tick, wp_List_r; [done..|]. intros keys w1 H1 Hl Ht1.
  assert (id ∈ keys) as Hid.
  { destruct Hg as [Hpl (v & Hv & _) _]. eapply listed_entry; [exact Hl|by apply plain_index|exact Hv]. }
  destruct keys as [|key keys]; [by apply elem_of_nil in Hid|].
  apply wp_bind, wp_tick, wp_matching_rule; [by eapply reliable_ro|].
  intros [rule'|] w2 H2 Hsome Hnone Ht2.
  - destruct (Hsome _ eq_refl) as (id' & _ & Hat & Hm). rewrite (ro_store _ _ H1) in Hat.
    apply (HQ id' rule'); [by etrans|lia|done..].
  - exfalso. eapply Hnone; [done|exact Hid|]. by eapply guards_ro.
Qed.

Lemma wp_park_or_block req rule Q w :
  (∀ r w', unrouted w w' → r.1.2 = true ∨ is_Some r.2 → Q r w') →
  wp env (park_or_block req rule) Q w.
Proof.
  intros HQ. apply wp_bind. destruct (decide (req_EntityID req = "")).
  { apply wp_ret. by apply wp_park_request. }
  apply wp_checkActive.
  - intros w1 H1. apply wp_park_request. intros r w2 H2 Hr. apply HQ; [|done].
    etrans; [by apply shrunk_unrouted|done].
  - intros r w1 H1 (text & args & ->). apply wp_ret, HQ; [by apply shrunk_unrouted|by left].
Qed.

(** On working storage, a request for a path that a stored rule matches
    reaches no backend and gets no lease, whatever the interceptor does with
    it, unless the path or operation is exempt or the caller holds a root
    token. *)
Lemma wp_dispatch_guarded ctx entry req auth id rule w :
  reliable env c w → isApprovalBypass ctx = false → interceptable req auth →
  guards w (req_Path req) id rule →
  wp env (dispatch c ctx entry req auth) (λ _ w', unrouted w w') w.
Proof.
  intros Hr Hctx Hint Hg. unfold dispatch. rewrite Hctx. apply wp_bind. eapply wp_guarded; [done..|].
  intros id' rule' w1 H1 _ Hat Hm. apply wp_park_or_block. intros [[resp b] err] w2 H2 Hb.
  assert (b || bool_decide (is_Some err) = true) as Hstop.
  { destruct Hb as [Hb|Hb]; simpl in Hb; [by rewrite Hb|].
    rewrite (bool_decide_eq_true_2 _ Hb). apply orb_true_r. }
  rewrite Hstop. apply wp_ret. etrans; [by apply ro_unrouted|done].
Qed.

(** ** One active request per requester and path *)

(** A stored request that is pending and does not expire while the call
    runs, of the same requester and path. *)
Record active_duplicate (w : World) (req : Request) (id : string) (p : PendingRequest) : Prop := {
  ad_plain : plain id;
  ad_stored : pending_at (w_store w) id p;
  ad_status : Status p = "pending";
  ad_entity : RequesterEntityID p = req_EntityID req;
  ad_path : OriginalPath p = req_Path req;
  ad_alive : ∀ n, env_clock env n < ExpiresAt p;
}.

Lemma wp_dedup_active req id p Q w :
  reliable env c w → active_duplicate w req id p →
  (∀ r w', ro w w' → refusal req r → Q (inr r) w') →
  wp env (dedup_body c req id ()) Q w.
Proof.
  intros Hr [Hpl Hat Hst He Hpa Hal] HQ. apply wp_bind.
  apply (wp_read_listed_r _ _ _ _ p); [done| |done|].
  { apply plain_sane; [by apply (bool_decide_unpack _)|done]. }
  intros w1 H1. rewrite !bool_decide_eq_true_2 by done. csimplb.
  rewrite decide_True by done. apply wp_bind, wp_now. intros w2 H2. unfold Before.
  rewrite (proj2 (Z.ltb_lt _ _) (Hal _)). apply wp_ret, HQ; [by etrans|by eexists _, _].
Qed.

(** The loop stops at the active duplicate at the latest. *)
Lemma wp_dedup_loop req id p keys Q w :
  reliable env c w → active_duplicate w req id p → id ∈ keys →
  (∀ r w', shrunk w w' → refusal req r → Q (inr r) w') →
  wp env (range keys () (dedup_body c req)) Q w.
Proof.
  revert w. induction keys as [|key keys IH]; intros w Hr Hd Hid HQ; [by apply elem_of_nil in Hid|].
  cbn [range]. apply wp_bind. destruct (decide (key = id)) as [->|Hne].
  { apply (wp_dedup_active req id p); [done..|]. intros r w1 H1 Hf.
    apply wp_ret, HQ; [by apply shrunk_ro|done]. }
  apply wp_dedup_body.
  - intros w1 H1. apply (IH w1).
    + by eapply may_drop_reliable.
    + destruct Hd as [? (v & Hv & Hdec) ? ? ? ?]. split; try done. exists v.
      split; [|done]. rewrite (may_drop_lookup _ _ _ _ H1); [done|].
      intros Heq%akey_inj%str_app_inj_l. congruence.
    + by apply elem_of_cons in Hid as [?|?].
    + intros r w2 H2 Hf. apply HQ; [|done]. etrans; [by eapply shrunk_drop|done].
  - intros r w1 H1 Hf. apply wp_ret, HQ; [by apply shrunk_ro|done].
Qed.

(** While a requester has a pending request for a path, a second request
    for the same path on working storage is refused with status 400: it is
    not routed, and no new entry is stored. *)
Theorem active_request_blocks_duplicate ctx entry req auth rid rule id p w :
  reliable env c w → isApprovalBypass ctx = false → interceptable req auth →
  guards w (req_Path req) rid rule → req_EntityID req ≠ "" → active_duplicate w req id p →
  let r := exec env (dispatch c ctx entry req auth) w in
  refusal req r.1 ∧ w_routed r.2 = w_routed w ∧ w_store r.2 ⊆ w_store w.
Proof.
  intros Hr Hctx Hint Hg Hent Hd.
  enough (wp env (dispatch c ctx entry req auth) (λ r w',
    refusal req r ∧ w_routed w' = w_routed w ∧ w_store w' ⊆ w_store w) w) as Hwp by exact Hwp.
  unfold dispatch. rewrite Hctx. apply wp_bind. eapply wp_guarded; [done..|].
  intros id' rule' w1 H1 _ _ _. apply wp_bind. rewrite decide_False by done.
  assert (reliable env c w1) as Hr1 by by eapply reliable_ro.
  assert (active_duplicate w1 req id p) as Hd1.
  { destruct Hd. split; try done. by rewrite (ro_store _ _ H1). }
  apply wp_bind, wp_List_r; [done..|]. intros keys w2 H2 Hl.
  apply wp_bind. apply (wp_dedup_loop req id p).
  - by eapply reliable_ro.
  - destruct Hd1. split; try done. by rewrite (ro_store _ _ H2).
  - destruct Hd1 as [Hpl (v & Hv & _) _ _ _ _].
    eapply listed_entry; [exact Hl|by apply plain_index|exact Hv].
  - intros r w3 H3 (text & args & ->). apply wp_ret, wp_ret. csimplb. apply wp_ret.
    assert (shrunk w w3) as [? ? ? ?].
    { etrans; [by apply shrunk_ro|]. etrans; [by apply shrunk_ro|done]. }
    split_and!; [by eexists _, _|done..].
Qed.

(** ** What is parked *)

(** The requester has no stored request for the path. *)
Definition no_request_of (w : World) (req : Request) : Prop :=
  ∀ id p, pending_at (w_store w) id p →
    RequesterEntityID p ≠ req_EntityID req ∨ OriginalPath p ≠ req_Path req.

Lemma wp_dedup_none req keys Q w :
  no_request_of w req → (∀ w', ro w w' → Q (inl ()) w') →
  wp env (range keys () (dedup_body c req)) Q w.
Proof.
  intros Hno HQ. apply (wp_range _ (λ _ w', ro w w')); [done| |by intros []].
  intros key [] w1 _ H1. apply wp_bind, wp_read_listed. intros [p|] w2 H2 Hp.
  2: { apply wp_ret. by etrans. }
  specialize (Hp _ eq_refl). rewrite (ro_store _ _ H1) in Hp.
  assert (negb (bool_decide (RequesterEntityID p = req_EntityID req))
          || negb (bool_decide (OriginalPath p = req_Path req)) = true) as ->.
  { apply orb_true_iff. rewrite !negb_true_iff, !bool_decide_eq_false. by eapply Hno. }
  apply wp_ret. by etrans.
Qed.

(** Identifiers and clock of the environment can be stored. *)
Record storable_answers : Prop := {
  sa_uuid : ∀ n, ∃ u, env_uuid env n = Ok u ∧ plain u;
  sa_clock : ∀ n, time_json_ok (env_clock env n) = true ∧
                  time_json_ok (env_clock env n + approvalRequestTTL) = true;
}.

Definition accepted (id : string) (req : Request) : Resp :=
  RespondWithStatusCode
    (Some (data_response [("status", VStr "pending"); ("request_id", VStr id);
                          ("message", VStr "Request is pending approval")])) req StatusAccepted.

(** No identifier that is drawn from now on is in use. *)
Definition fresh_ids (w : World) : Prop :=
  ∀ n u, (w_tick w ≤ n)%nat → env_uuid env n = Ok u → w_store w !! akey ("pending/" +:+ u) = None.

(** The identifier is drawn, and the clock read, between [w] and [w']. *)
Definition drawn (w w' : World) (u : string) : Prop :=
  ∃ n, (w_tick w ≤ n < w_tick w')%nat ∧ env_uuid env n = Ok u.
Definition clock_read (w w' : World) (now : Z) : Prop :=
  ∃ n, (w_tick w ≤ n < w_tick w')%nat ∧ env_clock env n = now.

Lemma wp_park_request_r req rule Q w :
  reliable env c w → storable_answers →
  (∀ u now w', unrouted w w' → drawn w w' u → clock_read w w' now →
     w_store w' = <[akey ("pending/" +:+ u) := Doc (enc_pending (parked u rule req now))]>
                    (w_store w) →
     Q ((accepted u req).1, true, None) w') →
  wp env (park_request c req rule) Q w.
Proof.
  intros Hr [Hu Hc] HQ. apply wp_bind, wp_trigger. cbn [core_handle fst snd].
  set (w1 := tick w). assert (ro w w1) as H1 by done.
  destruct (Hu (w_tick w)) as (u & Hdraw & Hpl). rewrite Hdraw.
  apply wp_bind, wp_trigger. cbn [core_handle fst snd]. set (w2 := tick w1). assert (ro w1 w2) as H2 by done.
  cbv zeta. set (p := parked _ _ _ _). apply wp_bind, wp_tick, wp_put_json_r.
  { eapply reliable_ro; [exact Hr|by etrans]. }
  { apply plain_sane; [by apply (bool_decide_unpack _)|done]. }
  { subst p. simpl. destruct (Hc (w_tick w1)) as [Ha Hb]. simpl in Ha, Hb. by rewrite Ha, Hb. }
  intros w3 H3 Ht3. apply wp_bind, wp_tick.
  eapply (wp_mono _ _ (λ _ w4, unrouted w3 w4 ∧ w_store w4 = w_store w3)).
  - intros [] w4 [H4 Hs4] Ht4. simpl in Ht3. apply wp_ret, (HQ u (env_clock env (w_tick w1))).
    2: { exists (w_tick w). split; [lia|done]. }
    2: { exists (w_tick w1). split; [simpl; lia|done]. }
    + do 2 (etrans; [by apply ro_unrouted|]). etrans; [|exact H4].
      split; [by eapply stored_routed|by eapply stored_leases].
    + rewrite Hs4, (stored_store _ _ _ H3), (ro_store _ _ H2), (ro_store _ _ H1). done.
  - destruct (decide _); [done|]. apply wp_bind, wp_approver_names. intros names w4 H4.
    apply wp_slack. intros w5 [H5 Hp5]. split; [etrans; [by apply ro_unrouted|done]|].
    unfold w_store. by rewrite Hp5, (ro_phys _ _ H4).
Qed.

(** C29: on working storage, a guarded request of a requester who has none for
    the path is answered with status 202 and stored, with its headers
    stripped, under an identifier that was drawn for it and, provided that the
    generator repeats none that is in use, overwrites nothing; the rule it is
    stored with is a stored one that matches its path, its times are counted
    from a reading of the clock during the call; nothing else is stored and
    nothing is routed. *)
Theorem guarded_request_parked ctx entry req auth id rule w :
  reliable env c w → storable_answers → fresh_ids w → isApprovalBypass ctx = false →
  interceptable req auth → guards w (req_Path req) id rule → no_request_of w req →
  let r := exec env (dispatch c ctx entry req auth) w in
  ∃ u id' rule' now,
    r.1 = accepted u req ∧ drawn w r.2 u ∧ w_store w !! akey ("pending/" +:+ u) = None ∧
    rule_at (w_store w) id' rule' ∧ approvalRuleMatchesPath rule' (req_Path req) = true ∧
    clock_read w r.2 now ∧ w_routed r.2 = w_routed w ∧
    w_store r.2 = <[akey ("pending/" +:+ u) := Doc (enc_pending (parked u rule' req now))]>
                    (w_store w).
Proof.
  intros Hr Hsa Hfresh Hctx Hint Hg Hno.
  enough (wp env (dispatch c ctx entry req auth) (λ r w', ∃ u id' rule' now,
    r = accepted u req ∧ drawn w w' u ∧ w_store w !! akey ("pending/" +:+ u) = None ∧
    rule_at (w_store w) id' rule' ∧ approvalRuleMatchesPath rule' (req_Path req) = true ∧
    clock_read w w' now ∧ w_routed w' = w_routed w ∧
    w_store w' = <[akey ("pending/" +:+ u) := Doc (enc_pending (parked u rule' req now))]>
                    (w_store w)) w) as Hwp by exact Hwp.
  unfold dispatch. rewrite Hctx. apply wp_bind. eapply wp_guarded; [done..|].
  intros id' rule' w1 H1 Ht1 Hat Hm. apply wp_bind, wp_tick.
  eapply (wp_mono _ _ (λ b w2, b = (None, None) ∧ ro w w2)).
  - intros b w2 [-> H2] Ht2. apply wp_park_request_r; [by eapply reliable_ro|done|].
    intros u now w3 [Hro _] (n & Hn & Hu) (n' & Hn' & Hnow) Hs. csimplb. apply wp_ret. exists u, id', rule', now.
    rewrite Hs, (ro_store _ _ H2), Hro, (ro_routed _ _ H2).
    split_and!; [done|exists n; split; [lia|done]|apply (Hfresh n); [lia|done]|done|done| |done|done].
    exists n'. split; [lia|done].
  - destruct (decide _); [done|]. apply wp_bind, wp_List. intros [keys|err] w2 H2 _.
    2: { apply wp_ret. split; [done|by etrans]. }
    assert (ro w w2) as H02 by by etrans.
    apply wp_bind, wp_dedup_none.
    + intros id0 p Hp. rewrite (ro_store _ _ H02) in Hp. by eapply Hno.
    + intros w3 H3. apply wp_ret. split; [done|by etrans].
Qed.

(** ** The hint for the user interface *)

(** On working storage, the requires-approval endpoint answers true when a
    stored rule matches the path, with the identifier of a matching stored
    rule, and false only if none does: it agrees with the interceptor. *)
Theorem requires_approval_hint path req w :
  reliable env c w → path ≠ "" →
  let r := exec env (handleApprovalRequiresApproval c path req) w in
  (∃ id rule, rule_at (w_store w) id rule ∧ approvalRuleMatchesPath rule path = true ∧
     r.1 = ok_resp [("requires_approval", VBool true); ("rule_id", VStr (RuleID rule))]) ∨
  ((∀ id rule, ¬ guards w path id rule) ∧ r.1 = ok_resp [("requires_approval", VBool false)]).
Proof.
  intros Hr Hp. enough (wp env (handleApprovalRequiresApproval c path req) (λ r _,
    (∃ id rule, rule_at (w_store w) id rule ∧ approvalRuleMatchesPath rule path = true ∧
       r = ok_resp [("requires_approval", VBool true); ("rule_id", VStr (RuleID rule))]) ∨
    ((∀ id rule, ¬ guards w path id rule) ∧
     r = ok_resp [("requires_approval", VBool false)])) w) as Hwp by exact Hwp.
  unfold handleApprovalRequiresApproval. rewrite decide_False by done.
  apply wp_bind, wp_List_r; [done..|]. intros keys w1 H1 Hl.
  apply wp_bind, wp_matching_rule; [by eapply reliable_ro|].
  intros [rule|] w2 H2 Hsome Hnone; apply wp_ret.
  - left. destruct (Hsome _ eq_refl) as (id & _ & Hat & Hm). exists id, rule.
    by rewrite <-(ro_store _ _ H1).
  - right. split; [|done]. intros id rule Hg. eapply Hnone; [done| |by eapply guards_ro].
    destruct Hg as [Hpl (v & Hv & _) _]. eapply listed_entry; [exact Hl|by apply plain_index|done].
Qed.
End interception.

(** ** Witnesses *)

Definition world_guarded : World := world0 (put_rule rule_db ∅).

Lemma reliable0 m : reliable env0 core0 (world0 m).
Proof. by split. Qed.

Lemma plain_check id : bool_decide (plain id) = true → plain id.
Proof. apply bool_decide_eq_true. Qed.

Lemma guards_db m : m !! akey ("config/" +:+ "db") = Some (Doc (enc_rule rule_db)) →
  guards (world0 m) "database/creds/readonly" "db" rule_db.
Proof.
  intros Hm. split.
  - by apply plain_check.
  - exists (enc_rule rule_db). split; [done|]. vm_compute. reflexivity.
  - vm_compute. reflexivity.
Qed.

Lemma alice_interceptable : interceptable alice_read None.
Proof. split; vm_compute; reflexivity. Qed.

(** The clock of the scenario starts a minute after the parked request, and
    a call takes far less than an hour: the clock stops at its start. *)
Definition env_frozen : Env := mkEnv (env_fault env0) (env_size env0) (λ _, t2025)
  (λ _, Ok "uuid-1") (env_token env0) (env_entity env0) (env_backend env0) (env_mount env0)
  (env_mount_backend env0) (env_sysview env0) (env_register env0).

Lemma active_request_blocks_witness :
  let r := exec env_frozen (dispatch core0 (mkCtx None) None alice_read None) world_pending in
  refusal alice_read r.1 ∧ w_routed r.2 = w_routed world_pending ∧
  w_store r.2 ⊆ w_store world_pending.
Proof.
  apply (active_request_blocks_duplicate env_frozen core0 (mkCtx None) None alice_read None
           "db" rule_db rid pending0).
  - by split.
  - reflexivity.
  - apply alice_interceptable.
  - apply guards_db. vm_compute. reflexivity.
  - done.
  - split; try done.
    + by apply plain_check.
    + exists (enc_pending pending0). split; vm_compute; reflexivity.
Defined.

Lemma no_request_of_guarded : no_request_of world_guarded alice_read.
Proof.
  intros id p (v & Hv & _). exfalso. unfold world_guarded, world0, w_store, put_rule in Hv.
  simpl in Hv. apply lookup_insert_Some in Hv as [[Heq _]|[_ Hv]]; [done|].
  by rewrite lookup_empty in Hv.
Qed.

Lemma guarded_request_parked_witness :
  let r := exec env_frozen (dispatch core0 (mkCtx None) None alice_read None) world_guarded in
  ∃ u id' rule' now,
    r.1 = accepted u alice_read ∧ drawn env_frozen world_guarded r.2 u ∧
    w_store world_guarded !! akey ("pending/" +:+ u) = None ∧
    rule_at (w_store world_guarded) id' rule' ∧
    approvalRuleMatchesPath rule' (req_Path alice_read) = true ∧
    clock_read env_frozen world_guarded r.2 now ∧ w_routed r.2 = w_routed world_guarded ∧
    w_store r.2 = <[akey ("pending/" +:+ u) := Doc (enc_pending (parked u rule' alice_read now))]>
                    (w_store world_guarded).
Proof.
  apply (guarded_request_parked env_frozen core0 (mkCtx None) None alice_read None "db" rule_db).
  - by split.
  - split; [|by vm_compute]. intros n. exists "uuid-1". split; [done|]. by apply plain_check.
  - intros n u _ [= <-]. vm_compute. reflexivity.
  - reflexivity.
  - apply alice_interceptable.
  - apply guards_db. vm_compute. reflexivity.
  - apply no_request_of_guarded.
Defined.

Lemma requires_approval_hint_witness :
  let r := exec env0 (handleApprovalRequiresApproval core0 "database/creds/readonly" alice_req)
             world_guarded in
  (∃ id rule, rule_at (w_store world_guarded) id rule ∧
     approvalRuleMatchesPath rule "database/creds/readonly" = true ∧
     r.1 = ok_resp [("requires_approval", VBool true); ("rule_id", VStr (RuleID rule))]) ∨
  ((∀ id rule, ¬ guards world_guarded "database/creds/readonly" id rule) ∧
   r.1 = ok_resp [("requires_approval", VBool false)]).
Proof.
  apply (requires_approval_hint env0 core0 "database/creds/readonly" alice_req world_guarded).
  - apply reliable0.
  - done.
Defined.
