(* ===== verification/Effects.v ===== *)
(** * The effects of the handlers

    Rules of [obeys] for the parts of the handlers that neither write nor
    route: they hold for every discipline on effects that admits the quiet
    ones. The invariant of [ApprovalInvariant] is one such discipline; that a
    handler never writes, or never routes, are two others. *)

From S2P Require Import Prelude GoLib Storage Core Lease ApprovalTypes ApprovalCore ApprovalHandlers ApprovalPaths RequestHandling CoreLogic.

(** An effect that neither writes an entry, nor reaches a backend, nor
    registers a lease, nor deletes an entry outside the approval view. *)
Definition is_quiet {X} (e : coreE X) : bool :=
  match e with
  | SPut _ _ | Route _ | Register _ _ => false
  | SDelete key => HasPrefix key (akey "")
  | _ => true
  end.

Definition is_read {X} (e : coreE X) : bool :=
  match e with SDelete _ => false | _ => is_quiet e end.

(** A discipline that admits the effects that only read; one that admits the
    quiet effects; one that also admits every
    write through the approval view, routing, or the registration of leases. *)
Class Reads (pre : ∀ X, coreE X → Prop) : Prop :=
  reads_ok : ∀ X (e : coreE X), is_read e = true → pre X e.
Class Quiet (pre : ∀ X, coreE X → Prop) : Prop :=
  quiet_ok : ∀ X (e : coreE X), is_quiet e = true → pre X e.
Class Writes (pre : ∀ X, coreE X → Prop) : Prop :=
  writes_ok : ∀ key b, pre _ (SPut (akey key) b).
Class Routes (pre : ∀ X, coreE X → Prop) : Prop :=
  routes_ok : ∀ req, pre _ (Route req).
Class Registers (pre : ∀ X, coreE X → Prop) : Prop :=
  registers_ok : ∀ req s, pre _ (Register req s).

#[export] Instance quiet_reads pre : Quiet pre → Reads pre.
Proof. intros Hq X e He. apply Hq. by destruct e. Qed.

Section reads.
Context `{GoTables} {pre : ∀ X, coreE X → Prop} {post : ∀ X, coreE X → X → Prop} `{!Reads pre}.

Abbreviation ob := (obeys pre post).

Lemma ob_read {X} (e : coreE X) (Q : X → Prop) :
  is_read e = true → (∀ x, Q x) → ob (trigger e) Q.
Proof. intros He HQ. apply obeys_trigger; [by apply reads_ok|]. intros x _. apply HQ. Qed.

(** ** Storage *)

Lemma ob_Get_any c key (Q : res (option (StorageEntry blob)) → Prop) :
  (∀ r, Q r) → ob (Get (approvalStorage c) key) Q.
Proof.
  intros HQ. change (Get (approvalStorage c) key) with (view_Get aview key).
  unfold view_Get. destruct (SanityCheck key); [by apply HQ|].
  apply obeys_bind, ob_read; [done|]. intros r. apply HQ.
Qed.

Lemma ob_get_entry {A} (dec : value → res A) c key (Q : res (option A) → Prop) :
  (∀ r, Q r) → ob (get_entry dec c key) Q.
Proof. intros HQ. apply obeys_bind, ob_Get_any. intros r. apply HQ. Qed.

Lemma ob_List c p (Q : res (list string) → Prop) :
  (∀ r, Q r) → ob (List (approvalStorage c) p) Q.
Proof.
  intros HQ. change (List (approvalStorage c) p) with (view_List aview p).
  unfold view_List. destruct (SanityCheck p); [by apply HQ|].
  by apply ob_read.
Qed.

Lemma ob_read_listed {A} (dec : value → res A) c key (Q : option A → Prop) :
  (∀ r, Q r) → ob (read_listed dec c key) Q.
Proof. intros HQ. apply obeys_bind, ob_Get_any. intros r. by apply HQ. Qed.

Lemma ob_any {A} (p : handler A) (Q : A → Prop) : ob p (λ _, True) → (∀ r, Q r) → ob p Q.
Proof. intros Hp HQ. eapply obeys_mono; [exact Hp|]. auto. Qed.

(** A call whose answer may be anything, then the rest. *)
Lemma ob_then {A B} (p : handler A) (f : A → handler B) (Q : B → Prop) :
  ob p (λ _, True) → (∀ a, ob (f a) Q) → ob (p ≫= f) Q.
Proof. intros Hp Hf. eapply obeys_call; [exact Hp|]. auto. Qed.

Lemma ob_range_any {A S R} (l : list A) (s : S) (body : A → S → handler (S + R)) Q :
  (∀ x s, ob (body x s) (λ _, True)) → (∀ r, Q r) → ob (range l s body) Q.
Proof.
  intros Hb HQ. apply ob_any; [|done].
  eapply obeys_mono; [apply (obeys_range _ _ (λ _, True) (λ _, True))|done]; [done|].
  intros x s' _ _. eapply obeys_mono; [apply Hb|]. by intros [].
Qed.

(** ** Helpers of the handlers *)

Lemma ob_callerIsRoot req (Q : bool → Prop) : (∀ b, Q b) → ob (callerIsRoot req) Q.
Proof.
  intros HQ. unfold callerIsRoot. case_decide; [by apply HQ|].
  apply obeys_bind, ob_read; [done|]. intros te. apply HQ.
Qed.

Lemma ob_entity_name c id (Q : string → Prop) : (∀ s, Q s) → ob (entity_name c id) Q.
Proof.
  intros HQ. unfold entity_name. case_decide; [by apply HQ|].
  destruct (identityStore c); [|by apply HQ].
  apply obeys_bind, ob_read; [done|]. intros e. apply HQ.
Qed.

Lemma ob_last_approver c p (Q : string * string → Prop) :
  (∀ r, Q r) → ob (last_approver c p) Q.
Proof.
  intros HQ. unfold last_approver. destruct (last (Approvals p)); [|by apply HQ].
  apply obeys_bind, ob_entity_name. intros s. apply HQ.
Qed.

Lemma ob_now (Q : Z → Prop) : (∀ t, Q t) → ob (trigger Now) Q.
Proof. intros HQ. by apply ob_read. Qed.

Lemma ob_time_Since t (Q : Z → Prop) : (∀ s, Q s) → ob (time_Since t) Q.
Proof. intros HQ. apply obeys_bind, ob_now. intros n. apply HQ. Qed.

Lemma ob_matching_rule c keys path (Q : option ApprovalRule → Prop) :
  (∀ r, Q r) → ob (matching_rule c keys path) Q.
Proof.
  intros HQ. apply obeys_bind, ob_range_any; [|intros r; apply HQ].
  intros key []. apply obeys_bind, ob_read_listed. done.
Qed.

Lemma ob_is_approver c id keys (Q : bool → Prop) :
  (∀ b, Q b) → ob (is_approver c id keys) Q.
Proof.
  intros HQ. apply obeys_bind, ob_range_any; [|intros r; apply HQ].
  intros key []. apply obeys_bind, ob_read_listed. done.
Qed.

Lemma ob_root_or_approver c req (Q : option Resp → Prop) :
  (∀ r, Q r) → ob (root_or_approver c req) Q.
Proof.
  intros HQ. apply obeys_bind, ob_callerIsRoot. intros []; [apply HQ|].
  case_decide; [apply HQ|]. apply obeys_bind, ob_List. intros [keys|err]; [|apply HQ].
  apply obeys_bind, ob_is_approver. intros b. apply HQ.
Qed.

Lemma ob_list_keys c prefix (Q : Resp → Prop) : (∀ r, Q r) → ob (list_keys c prefix) Q.
Proof. intros HQ. apply obeys_bind, ob_List. intros r. apply HQ. Qed.

Lemma ob_approver_names c ids (Q : list string → Prop) :
  (∀ r, Q r) → ob (approver_names c ids) Q.
Proof.
  revert Q. induction ids as [|id ids IH]; intros Q HQ; [apply HQ|].
  cbn [approver_names]. apply obeys_bind. destruct (identityStore c).
  - apply obeys_bind, ob_read; [done|]. intros e. apply obeys_bind, IH. intros r. apply HQ.
  - apply obeys_bind, IH. intros r. apply HQ.
Qed.
End reads.

Section quiet.
Context `{GoTables} {pre : ∀ X, coreE X → Prop} {post : ∀ X, coreE X → X → Prop} `{!Quiet pre}.

Abbreviation ob := (obeys pre post).

Lemma ob_quiet {X} (e : coreE X) (Q : X → Prop) :
  is_quiet e = true → (∀ x, Q x) → ob (trigger e) Q.
Proof. intros He HQ. apply obeys_trigger; [by apply quiet_ok|]. intros x _. apply HQ. Qed.

Lemma ob_Delete c key (Q : option goerr → Prop) :
  (∀ r, Q r) → ob (Delete (approvalStorage c) key) Q.
Proof.
  intros HQ. change (Delete (approvalStorage c) key)
    with (barrier_Delete (mkBarrier aview (core_readOnly c)) key).
  unfold barrier_Delete. cbn [readOnlyErr bstorage]. destruct (core_readOnly c); [by apply HQ|].
  unfold view_Delete. destruct (SanityCheck key); [by apply HQ|].
  rewrite view_key. apply ob_quiet; [|done]. apply HasPrefix_spec. exists key.
  reflexivity.
Qed.

Lemma ob_drop_pending c id (Q : () → Prop) : Q () → ob (drop_pending c id) Q.
Proof. intros HQ. apply obeys_bind, ob_Delete. by intros r. Qed.

Lemma ob_dedup c req key (Q : () + Resp → Prop) : (∀ r, Q r) → ob (dedup_body c req key ()) Q.
Proof.
  intros HQ. apply obeys_bind, ob_read_listed. intros [p|]; [|apply HQ].
  destruct (_ || _); [apply HQ|]. destruct (decide _).
  { apply obeys_bind, ob_now. intros now. destruct (Before _ _); [apply HQ|].
    apply obeys_bind, ob_Delete. intros r. apply HQ. }
  destruct (decide _); [|apply HQ]. apply ob_then.
  { destruct (CredentialData p); [|done]. destruct (IsZero _); [done|].
    by apply obeys_bind, ob_time_Since. }
  intros since. destruct (from_option _ _ _).
  - apply obeys_bind, ob_time_Since. intros s. apply HQ.
  - apply obeys_bind, ob_Delete. intros r. apply HQ.
Qed.

(** ** Handlers that only read and delete *)

Lemma ob_rule_delete c id req : ob (handleApprovalRuleDelete c id req) (λ _, True).
Proof.
  apply ob_then; [|by intros r; apply obeys_bind, ob_Delete].
  apply obeys_bind, ob_List. intros [keys|err]; [|done].
  apply obeys_bind, ob_range_any; [|done].
  intros key []. apply obeys_bind, ob_read_listed. intros [p|]; [|done].
  case_decide; [|done]. by apply obeys_bind, ob_Delete.
Qed.

Lemma ob_history_list c (Q : res (list ApprovalHistoryEntry) → Prop) :
  (∀ r, Q r) → ob (listAllHistoryEntries c) Q.
Proof.
  intros HQ. apply obeys_bind, ob_List. intros [keys|err]; [|apply HQ].
  apply obeys_bind, ob_now. intros now. apply obeys_bind, ob_range_any; [|intros r; apply HQ].
  intros key l. apply obeys_bind, ob_read_listed. intros [h|]; [|done].
  destruct (After _ _); [|done]. by apply obeys_bind, ob_Delete.
Qed.

Lemma ob_approvable c req : ob (handleApprovalApprovable c req) (λ _, True).
Proof.
  apply obeys_bind, ob_callerIsRoot. intros root. destruct (_ && _); [done|].
  apply obeys_bind, ob_List. intros [keys|err]; [|done].
  apply obeys_bind, ob_range_any; [|done]. intros key l.
  apply obeys_bind, ob_read_listed. intros [p|]; [|done].
  destruct (negb _); [done|]. apply obeys_bind, ob_now. intros now.
  destruct (After _ _); [by apply obeys_bind, ob_drop_pending|]. destruct root; [done|].
  by apply obeys_bind, ob_get_entry.
Qed.

Lemma ob_my_requests c req : ob (handleApprovalMyRequests c req) (λ _, True).
Proof.
  unfold handleApprovalMyRequests. case_decide; [done|].
  apply obeys_bind, ob_List. intros [keys|err]; [|done].
  apply obeys_bind, ob_range_any; [|by intros; apply obeys_bind, obeys_bind, ob_history_list].
  intros key l. apply obeys_bind, ob_read_listed. intros [p|]; [|done].
  destruct (negb _); [done|].
  apply ob_then; [|intros []; [by apply obeys_bind, ob_drop_pending|done]].
  unfold my_stale. destruct (decide _); [by apply obeys_bind, ob_now|].
  destruct (decide _); [|done]. destruct (IsZero _); [done|].
  by apply obeys_bind, ob_time_Since.
Qed.

Lemma ob_pending_read c id req : ob (handleApprovalPendingRead c id req) (λ _, True).
Proof.
  apply obeys_bind, ob_get_entry. intros r. destruct r as [[p|]|err]; [|done..].
  apply ob_then.
  - apply obeys_bind, ob_callerIsRoot. intros []; [done|]. destruct (_ && _); [done|].
    by apply obeys_bind, ob_get_entry.
  - intros []; csimplb; [|done]. apply ob_then.
    + destruct (decide _); [by apply obeys_bind, ob_now|done].
    + intros []; [by apply obeys_bind, ob_drop_pending|done].
Qed.

End quiet.

(** ** Handlers that also write *)

Section writes.
Context `{GoTables} {pre : ∀ X, coreE X → Prop} {post : ∀ X, coreE X → X → Prop}.
Context `{!Quiet pre, !Writes pre}.

Abbreviation ob := (obeys pre post).

Lemma ob_put_any c e (Q : option goerr → Prop) : (∀ r, Q r) → ob (put_entry c e) Q.
Proof.
  intros HQ. destruct e as [e|err]; [|by apply HQ]. cbn [put_entry].
  change (Put (approvalStorage c) (Some e))
    with (barrier_Put (mkBarrier aview (core_readOnly c)) (Some e)).
  unfold barrier_Put. cbn [readOnlyErr bstorage]. destruct (core_readOnly c); [by apply HQ|].
  unfold view_Put. destruct (SanityCheck (Key e)); [by apply HQ|]. rewrite view_key.
  apply obeys_trigger; [apply writes_ok|]. intros r _. apply HQ.
Qed.

Lemma ob_rule_write_any c id f req : ob (handleApprovalRuleWrite c id f req) (λ _, True).
Proof.
  unfold handleApprovalRuleWrite. case_decide; [done|].
  apply obeys_bind, ob_get_entry. intros [r|err]; [|done]. cbv zeta.
  destruct (update_rule f _) as [r1|]; [|done]. destruct (update_rule_url f r1) as [r2|]; [|done].
  unfold check_and_put_rule. do 2 (case_decide; [done|]). by apply obeys_bind, ob_put_any.
Qed.

Lemma ob_deny_any c id req : ob (handleApprovalDeny c id req) (λ _, True).
Proof.
  apply ob_then.
  - apply obeys_bind, ob_get_entry. intros [[p|]|err]; [|done..].
    destruct (negb _); [done|]. apply obeys_bind, ob_now. intros now.
    destruct (After _ _); [by apply obeys_bind, ob_drop_pending|].
    apply obeys_bind, ob_get_entry. intros [[rule|]|err]; [done| |done].
    by apply obeys_bind, ob_drop_pending.
  - intros [[p rule]|resp]; [|done]. cbv zeta. apply obeys_bind, ob_callerIsRoot. intros root.
    destruct (_ && _); [done|]. apply obeys_bind, ob_put_any. intros [err|]; [done|].
    apply obeys_bind, ob_now. intros now. apply obeys_bind, ob_entity_name. intros name.
    by apply obeys_bind, ob_put_any.
Qed.

Lemma ob_fetch_any c id req : ob (handleApprovalFetch c id req) (λ _, True).
Proof.
  apply obeys_bind, ob_get_entry. intros [[p|]|err]; [|done..].
  apply ob_then; [destruct (decide _); [by apply ob_callerIsRoot|done]|].
  intros []; csimplb; [|done]. destruct (decide _); [|destruct (decide _); [done|]].
  { apply obeys_bind, ob_now. intros now. destruct (After _ _); [|done].
    apply obeys_bind, ob_drop_pending, obeys_bind, ob_now. intros now'.
    by apply obeys_bind, ob_put_any. }
  destruct (decide _); [|done]. unfold fetch_approved. destruct (CredentialData p) as [cred|]; [|done].
  apply ob_then; [destruct (IsZero _); [done|]; by apply obeys_bind, ob_time_Since|].
  intros [].
  - apply obeys_bind, ob_drop_pending, obeys_bind, ob_last_approver. intros by_.
    apply obeys_bind, ob_now. intros now. by apply obeys_bind, ob_put_any.
  - apply obeys_bind, ob_put_any. intros _. apply obeys_bind, ob_Delete. intros [err|]; [done|].
    apply obeys_bind, ob_last_approver. intros by_. apply obeys_bind, ob_now. intros now.
    by apply obeys_bind, ob_put_any.
Qed.

Lemma ob_park_any c req rule (Q : option Response * bool * option goerr → Prop) :
  (∀ r, Q r) → ob (park_request c req rule) Q.
Proof.
  intros HQ. apply obeys_bind, ob_quiet; [done|]. intros [id|err]; [|apply HQ].
  apply obeys_bind, ob_now. intros now. apply obeys_bind, ob_put_any.
  intros [err|]; [apply HQ|]. apply obeys_bind. case_decide; [apply HQ|].
  apply obeys_bind, ob_approver_names. intros names. apply ob_quiet; [done|].
  intros _. apply HQ.
Qed.

Lemma ob_checkNeedsApproval_any c req auth (Q : option Response * bool * option goerr → Prop) :
  (∀ r, Q r) → ob (checkNeedsApproval c req auth) Q.
Proof.
  intros HQ. unfold checkNeedsApproval. do 3 (case_match; [apply HQ|]).
  apply obeys_bind, ob_List. intros [[|key keys]|err]; [apply HQ| |apply HQ].
  apply obeys_bind, ob_matching_rule. intros [rule|]; [|apply HQ].
  apply ob_then; [|intros [[|] [|]]; [apply HQ..|by apply ob_park_any]].
  case_decide; [done|]. apply obeys_bind, ob_List. intros [keys'|err]; [|done].
  apply obeys_bind, ob_range_any; [|done]. intros key' []. by apply ob_dedup.
Qed.
End writes.

Lemma ob_handle_secret `{GoTables} {pre post} `{!Reads pre, !Registers pre} req resp :
  obeys pre post (handle_secret req resp) (λ _, True).
Proof.
  unfold handle_secret. destruct (resp_Secret _) as [s|]; [|done].
  case_match; [done|]. apply obeys_bind, ob_read; [done|]. intros [m|]; [|done].
  apply ob_then.
  - unfold registers_lease. destruct (_ || _); [by apply obeys_bind, ob_read|].
    by destruct (decide _).
  - intros [[]|e]; [|done..]. unfold register_secret. case_match; [done|].
    apply obeys_bind, ob_read; [done|]. intros [sv|]; [|done].
    apply obeys_bind, ob_now. intros now. destruct (CalculateTTL _ _ _ _ _ _ _ _) as [[ttl ws]|]; [|done].
    apply obeys_bind, obeys_trigger; [apply registers_ok|]. by intros [] _.
Qed.

(** ** Handlers that route *)

Section routes.
Context `{GoTables} {pre : ∀ X, coreE X → Prop} {post : ∀ X, coreE X → X → Prop}.
Context `{!Routes pre}.

Abbreviation ob := (obeys pre post).

Lemma ob_route_request `{!Reads pre, !Registers pre} entry req : ob (route_request entry req) (λ _, True).
Proof.
  apply obeys_bind, obeys_trigger; [apply routes_ok|]. intros [[resp|] err] _; [|done].
  apply ob_then; [apply ob_handle_secret|done].
Qed.

Lemma ob_approve_any `{!Quiet pre, !Writes pre} c id req : ob (handleApprovalApprove c id req) (λ _, True).
Proof.
  apply ob_then.
  - apply obeys_bind, ob_get_entry. intros [[p|]|err]; [|done..].
    destruct (negb _); [done|]. apply obeys_bind, ob_now. intros now.
    destruct (After _ _); [by apply obeys_bind, ob_drop_pending|].
    apply obeys_bind, ob_get_entry. intros [[rule|]|err]; [done| |done].
    by apply obeys_bind, ob_drop_pending.
  - intros [[p rule]|resp]; [|done]. apply ob_then.
    { apply obeys_bind, ob_callerIsRoot. intros root. destruct (_ && _); [done|].
      apply obeys_bind, ob_callerIsRoot. intros root'. by repeat case_match. }
    intros [resp|]; [done|]. apply obeys_bind, ob_now. intros now. cbv zeta.
    destruct (ApprovalsRequired rule <=? _); [|by apply obeys_bind, ob_put_any].
    apply obeys_bind, ob_put_any. intros [err|]; [done|].
    apply obeys_bind, ob_get_entry. intros r.
    match goal with |- context [executeApprovedRequest c ?q] =>
      assert (ob (executeApprovedRequest c q) (λ _, True)) as Hexec end.
    { apply obeys_bind, ob_quiet; [done|]. intros [x|err]; [|done].
      apply obeys_bind, obeys_trigger; [apply routes_ok|]. intros [resp [err|]] _; [done|].
      apply obeys_bind, ob_now. intros now'. by apply obeys_bind, ob_put_any. }
    assert (∀ q : option goerr * PendingRequest, ob match q with
       | (Some err, pending) =>
           let pending := set_Status "pending" pending in
           let pending := set_Approvals
             (take (length (Approvals pending) - 1) (Approvals pending)) pending in
           _ ← storePendingRequest c pending;
           Ret (go_err (ErrWrap "approval execution failed" err))
       | (None, pending) => Ret (approve_response id pending rule true)
       end (λ _, True)) as Htail.
    { intros [[err|] q]; [by apply obeys_bind, ob_put_any|done]. }
    destruct r as [[p'|]|err]; [|by eapply ob_then|done].
    destruct p' as [? ? ? ? ? ? ? ? ? ? ? ? ? [cred|] ? ? ? ?]; [done|by eapply ob_then].
Qed.
End routes.

(** ** Endpoints *)

(** The endpoints that only read and delete, and those that also write. *)
Definition reads_only (e : Endpoint) (op : string) : bool :=
  match e with
  | EConfig _ => bool_decide (op = ReadOperation) || bool_decide (op = DeleteOperation)
  | EApprove _ | EDeny _ | EFetch _ => false
  | _ => true
  end.

Lemma ob_reads_only `{GoTables} {pre post} `{!Quiet pre} c e op f req h :
  reads_only e op = true → callback c e op f req = Some h → obeys pre post h (λ _, True).
Proof.
  intros He Hc. unfold callback in Hc.
  destruct e; repeat case_decide; try discriminate Hc; injection Hc as <-; subst;
    try discriminate He.
  - by apply obeys_bind, ob_get_entry.
  - apply ob_rule_delete.
  - by apply ob_list_keys.
  - apply ob_pending_read.
  - apply obeys_bind, ob_root_or_approver. intros [r|]; [done|]. by apply ob_list_keys.
  - apply ob_my_requests.
  - apply ob_approvable.
  - unfold handleApprovalRequiresApproval. case_decide; [done|].
    apply obeys_bind, ob_List. intros [keys|err]; [|done]. by apply obeys_bind, ob_matching_rule.
  - apply obeys_bind, ob_root_or_approver. intros [r|]; [done|].
    by apply obeys_bind, ob_history_list.
Qed.

(** Every endpoint but approve. *)
Lemma ob_not_approve `{GoTables} {pre post} `{!Quiet pre, !Writes pre} c e op f req h :
  (∀ id, e ≠ EApprove id) → callback c e op f req = Some h → obeys pre post h (λ _, True).
Proof.
  intros He Hc. destruct (reads_only e op) eqn:Hro; [by eapply ob_reads_only|].
  unfold callback in Hc.
  destruct e; try discriminate Hro; repeat case_decide; try discriminate Hc;
    try (injection Hc as <-); subst; try discriminate Hro.
  - apply ob_rule_write_any.
  - apply ob_rule_write_any.
  - by destruct (He id).
  - apply ob_deny_any.
  - apply ob_fetch_any.
Qed.

(** ** Four disciplines *)

Definition no_put X (e : coreE X) : Prop := match e with SPut _ _ => False | _ => True end.
Definition no_write X (e : coreE X) : Prop :=
  match e with SPut _ _ | SDelete _ => False | _ => True end.
Definition no_route X (e : coreE X) : Prop :=
  match e with Route _ | Register _ _ => False | _ => True end.
Definition no_lease X (e : coreE X) : Prop := match e with Register _ _ => False | _ => True end.
Definition any_answer X (e : coreE X) (x : X) : Prop := True.

#[export] Instance no_put_quiet : Quiet no_put.
Proof. by intros X []. Qed.
#[export] Instance no_write_reads : Reads no_write.
Proof. by intros X []. Qed.
#[export] Instance no_write_routes : Routes no_write.
Proof. done. Qed.
#[export] Instance no_write_registers : Registers no_write.
Proof. done. Qed.
#[export] Instance no_route_quiet : Quiet no_route.
Proof. by intros X []. Qed.
#[export] Instance no_route_writes : Writes no_route.
Proof. done. Qed.
#[export] Instance no_lease_quiet : Quiet no_lease.
Proof. by intros X []. Qed.
#[export] Instance no_lease_writes : Writes no_lease.
Proof. done. Qed.
#[export] Instance no_lease_routes : Routes no_lease.
Proof. done. Qed.

(** A handler that never writes leaves no entry that was not there. *)
Lemma no_put_store `{RadixTree} env {A} (p : handler A) w :
  obeys no_put any_answer p (λ _, True) → w_store (exec env p w).2 ⊆ w_store w.
Proof.
  intros Hp. apply (obeys_run no_put any_answer (H := core_handler env)
    (λ w', w_store w' ⊆ w_store w)) with (Q := λ _, True); [|done|done].
  intros X e w' Hpre Hw. split; [|done]. destruct e; try done.
  - cbn. unfold write_result, Inmem.DeleteInternal. destruct (Inmem.failDelete (w_phys w')); simpl.
    + by destruct (env_fault env (w_tick w')).
    + destruct (env_fault env (w_tick w')); simpl; [|done|];
        (etrans; [apply delete_subseteq|done]).
  - cbn. by destruct (env_register env (w_tick w') req s).
Qed.

(** A handler that neither writes nor deletes leaves the storage alone. *)
Lemma no_write_store `{RadixTree} env {A} (p : handler A) w :
  obeys no_write any_answer p (λ _, True) → w_store (exec env p w).2 = w_store w.
Proof.
  intros Hp. apply (obeys_run no_write any_answer (H := core_handler env)
    (λ w', w_store w' = w_store w)) with (Q := λ _, True); [|done|done].
  intros X e w' Hpre Hw. split; [|done]. destruct e; try done.
  cbn. by destruct (env_register env (w_tick w') req s).
Qed.

(** A handler that never routes changes neither the routed requests nor the
    leases, and a pool of such handlers neither. *)
Lemma no_route_keeps `{RadixTree} env {A} (p : handler A) w :
  obeys no_route any_answer p (λ _, True) →
  w_routed (exec env p w).2 = w_routed w ∧ w_leases (exec env p w).2 = w_leases w.
Proof.
  intros Hp. apply (obeys_run no_route any_answer (H := core_handler env)
    (λ w', w_routed w' = w_routed w ∧ w_leases w' = w_leases w)) with (Q := λ _, True);
    [|done|done].
  intros X e w' Hpre Hw. split; [|done]. destruct e; try done; cbn; unfold write_result;
    by destruct (env_fault env (w_tick w')).
Qed.

(** A handler that registers no lease. *)
Lemma no_lease_keeps `{RadixTree} env {A} (p : handler A) w :
  obeys no_lease any_answer p (λ _, True) → w_leases (exec env p w).2 = w_leases w.
Proof.
  intros Hp. apply (obeys_run no_lease any_answer (H := core_handler env)
    (λ w', w_leases w' = w_leases w)) with (Q := λ _, True); [|done|done].
  intros X e w' Hpre Hw. split; [|done]. destruct e; try done; cbn; unfold write_result;
    by destruct (env_fault env (w_tick w')).
Qed.
