(* ===== verification/PipelineFacts.v ===== *)
(** * What the stages before routing do and return *)

From S2P Require Import Prelude GoLib GoSplit Storage Core ApprovalTypes ApprovalCore CoreLogic RequestHandling Router Routing Templating Policy Acl AclFacts AclSound Tokens Server PolicyStore TokenStore ServerLogic TokenFacts TokenUses TokenLookup Pipeline Quiet PolicyStoreFacts.
Import Token.

(** ** What is carried from stage to stage *)

(** The storage without the entries of tokens. *)
Definition rest (s : Server) : Inmem.t blob :=
  Inmem.set_root (filter (λ kv : string * blob, HasPrefix kv.1 (id_key "") = false) (s_store s)) (disk s).
Definition policy_memory (s : Server) : gmap string Policy * gmap string PolicyType :=
  (s_tokenPolicies s, s_types s).

#[export] Instance rest_blind : TokenBlind rest.
Proof.
  split.
  - intros s s' Hs. unfold rest. by rewrite (same_store _ _ Hs), (same_disk _ _ Hs).
  - done.
  - intros m s Hm. unfold rest. change (s_store (set_store m s)) with m.
    assert (filter (λ kv : string * blob, HasPrefix kv.1 (id_key "") = false) m
            = filter (λ kv : string * blob, HasPrefix kv.1 (id_key "") = false) (s_store s)) as ->; [|done].
    apply map_filter_strong_ext. intros k b. simpl.
    assert (HasPrefix k (id_key "") = false → m !! k = s_store s !! k) as Hk.
    { intros Hp. apply Hm. intros x ->. apply not_true_iff_false in Hp. apply Hp, HasPrefix_spec. by exists x. }
    split; intros [Hp Hb]; (split; [done|]); [by rewrite <-Hk|by rewrite Hk].
Qed.

#[export] Instance memory_blind : TokenBlind policy_memory.
Proof.
  split; [|done..]. intros s s' Hs. unfold policy_memory.
  by rewrite (same_tokenPolicies _ _ Hs), (same_types _ _ Hs).
Qed.

Lemma rest_lookup s s' k :
  rest s' = rest s → HasPrefix k (id_key "") = false → s_store s' !! k = s_store s !! k.
Proof.
  intros Hr Hk. apply (f_equal Inmem.root) in Hr. simpl in Hr. apply (f_equal (lookup k)) in Hr.
  apply option_eq. intros b.
  assert (∀ m : gmap string blob,
    filter (λ kv : string * blob, HasPrefix kv.1 (id_key "") = false) m !! k = Some b ↔ m !! k = Some b) as Hf.
  { intros m. rewrite map_lookup_filter_Some. naive_solver. }
  by rewrite <-(Hf (s_store s')), <-(Hf (s_store s)), Hr.
Qed.

Section facts.
Context `{RadixTree} `{RadixSearch} `{GoTables} `{MapRange} `{Globbing} `{Parseutil} `{HCL} `{!Strsets} `{Sockaddr}
  `{Crypto} `{TokenCrypto} (env : SEnv) (c : Conf).
#[local] Instance pipeline_handler : Handler srvE Server := srv_handler env.

Record carried (s s' : Server) : Prop := {
  ca_rest : rest s' = rest s;
  ca_outside : outside s' = outside s;
  ca_coherent : coherent c s → coherent c s';
}.

#[export] Instance carried_preorder : PreOrder carried.
Proof.
  split; [by split|]. intros s1 s2 s3 [Hr1 Ho1 Hc1] [Hr2 Ho2 Hc2]. split; [congruence|congruence|auto].
Qed.

Lemma carried_same s s' : same s s' → carried s s'.
Proof.
  intros Hs. split; [by apply rest_blind|by apply same_outside|]. intros Hc. by eapply coherent_same.
Qed.

Lemma coherent_rest s s' :
  rest s' = rest s → policy_memory s' = policy_memory s → coherent c s → coherent c s'.
Proof.
  intros Hr [= Hp Ht] [Hca Hty Hkn Hac].
  assert (∀ n, s_store s' !! policy_key n = s_store s !! policy_key n) as Hs by (intros n; by apply rest_lookup).
  split.
  - intros Hc n p Hn. rewrite Hp. unfold policy_at, read_policy. rewrite Hs. by apply Hca.
  - intros n t. rewrite Ht. apply Hty.
  - intros n. rewrite Hs, Ht. apply Hkn.
  - intros n v pe. rewrite Hs. apply Hac.
Qed.

Lemma carried_fixes {A} (p : prog srvE A) s :
  fixes rest p → fixes outside p → fixes policy_memory p → carried s (run p s).2.
Proof. intros Hr Ho Hm. split; [done..|]. by apply coherent_rest. Qed.

Lemma carried_policy_at s s' n :
  carried s s' → policy_at (s_store s') n = policy_at (s_store s) n.
Proof.
  intros [Hr _ _]. unfold policy_at, read_policy. by rewrite (rest_lookup s s').
Qed.

(** ** Looking up and using the token *)

Lemma wpr_Lookup id n s Q :
  (n ≤ tick_of s)%nat →
  (∀ r s', carried s s' → (∀ te, r = Ok (Some te) → live env c (s_store s) n id te) → Q r s') →
  wpr (Lookup c id) Q s.
Proof.
  intros Hn HQ. unfold wpr. apply HQ.
  - apply carried_fixes; apply blind_Lookup; apply _.
  - exact (chain_returns env c (s_store s) n (S (String.length id)) id s eq_refl Hn).
Qed.

Lemma wpr_UseToken te s Q :
  (∀ r s', carried s s' → Q r s') → wpr (UseToken c te) Q s.
Proof. intros HQ. unfold wpr. apply HQ, carried_fixes; apply blind_UseToken; apply _. Qed.

Lemma wpr_req {X} (e : reqE X) s Q :
  match e with LogRequest _ _ => False | _ => True end →
  (∀ s', same s s' → Q (req_handle env X e s).1 s') → wpr (trigger (OnReq e)) Q s.
Proof. intros He HQ. apply wpr_trigger. destruct e; try done; apply HQ, same_tick. Qed.

(** ** The policies a token is entitled to *)

(** The names that the entity of a token has, by itself or by a group. *)
Definition identity_name (entityID y : string) : Prop :=
  ∃ k e, entities env k entityID = Ok (Some e) ∧
    (y ∈ i_Policies e ∨
     ∃ k' m ns l z, group_policies env k' (i_ID e) = Ok m ∧ m !! ns = Some l ∧ z ∈ l ∧ y = trimmed z).
Definition entitled (te : TokenEntry) (y : string) : Prop :=
  y ∈ Policies te ∨ NoIdentityPolicies te = false ∧ identity_name (EntityID te) y.

(** All names in a map by namespace. *)
Definition names_in (m : gmap string (list string)) (P : string → Prop) : Prop :=
  ∀ ns y, y ∈ default [] (m !! ns) → P y.

Lemma names_in_insert m ns l P :
  names_in m P → (∀ y, y ∈ l → P y) → names_in (<[ns := l]> m) P.
Proof. intros Hm Hl ns' y. rewrite lookup_insert. case_decide; [apply Hl|apply Hm]. Qed.

Lemma names_in_fold (f : gmap string (list string) → string → list string) keys m P :
  (∀ m ns y, names_in m P → y ∈ f m ns → P y) → names_in m P →
  names_in (fold_left (λ m ns, <[ns := f m ns]> m) keys m) P.
Proof.
  intros Hf. revert m. induction keys as [|k keys IH]; intros m Hm; [done|]. simpl.
  apply IH, names_in_insert; [done|]. intros y. by apply Hf.
Qed.

(** A name with [P] is in the map. *)
Definition has_name (P : string → Prop) (m : gmap string (list string)) : Prop :=
  ∃ ns y, y ∈ default [] (m !! ns) ∧ P y.

Lemma has_name_insert P m ns l :
  (∀ y, y ∈ default [] (m !! ns) → P y → ∃ y', y' ∈ l ∧ P y') → has_name P m → has_name P (<[ns := l]> m).
Proof.
  intros Hl (ns' & y & Hy & HP). destruct (decide (ns = ns')) as [<-|Hne].
  - destruct (Hl y Hy HP) as (y' & ? & ?). exists ns, y'. by rewrite lookup_insert_eq.
  - exists ns', y. by rewrite lookup_insert_ne.
Qed.

(** A name is kept by what is done for each key, or comes in with its key. *)
Lemma has_name_fold (f : gmap string (list string) → string → list string) (I P : string → Prop) keys m :
  (∀ m ns y, names_in m I → y ∈ f m ns → I y) →
  (∀ m ns y, names_in m I → y ∈ default [] (m !! ns) → P y → ∃ y', y' ∈ f m ns ∧ P y') →
  names_in m I → has_name P m ∨ (∃ ns, ns ∈ keys ∧ ∀ m, names_in m I → ∃ y', y' ∈ f m ns ∧ P y') →
  has_name P (fold_left (λ m ns, <[ns := f m ns]> m) keys m).
Proof.
  intros Hf Hkeep. revert m. induction keys as [|k keys IH]; intros m Hm Hin.
  { destruct Hin as [?|(ns & []%not_elem_of_nil & _)]. done. }
  simpl. apply IH.
  - apply names_in_insert; [done|]. intros y. by apply Hf.
  - destruct Hin as [Hin|(ns & [->|Hns]%elem_of_cons & Hnew)]; [left|left|right].
    + apply has_name_insert; [|done]. intros y. by apply Hkeep.
    + destruct (Hnew m Hm) as (y' & ? & ?). exists k, y'. by rewrite lookup_insert_eq.
    + by exists ns.
Qed.

Lemma wpr_filterGroup groupPolicies s :
  wpr (filterGroupPoliciesByNS RootNamespace groupPolicies)
    (λ r s', same s s' ∧ ∀ m, r = Ok m →
       names_in m (λ y, ∃ ns z, z ∈ default [] (groupPolicies !! ns) ∧ y = trimmed z) ∧
       ∀ ns z, z ∈ default [] (groupPolicies !! ns) → trimmed z ≠ "" → has_name (eq (trimmed z)) m) s.
Proof.
  apply wpr_try, wpr_req; [done|]. intros s1 Hs1. destruct (req_handle _ _ _ _).1 as [mode|err]; [|done].
  apply wpr_bind. set (P := λ y, ∃ ns z, z ∈ default [] (groupPolicies !! ns) ∧ y = trimmed z).
  apply (wpr_range (λ keys m s', same s s' ∧ names_in m P ∧ ∀ ns z, z ∈ default [] (groupPolicies !! ns) →
    trimmed z ≠ "" → ns ∈ keys ∨ has_name (eq (trimmed z)) m)).
  - split_and!; [done| |].
    + intros ns y. rewrite lookup_empty. by intros ?%not_elem_of_nil.
    + intros ns z Hz _. left. apply range_keys_elem. destruct (groupPolicies !! ns); [done|]. by apply not_elem_of_nil in Hz.
  - intros m s2 (Hs2 & Hm & Hall). apply wpr_ret. split; [done|]. intros m' [= <-]. split; [done|].
    intros ns z Hz Hne. destruct (Hall ns z Hz Hne) as [?%not_elem_of_nil|?]; done.
  - intros ns l m s2 (Hs2 & Hm & Hall). apply wpr_bind. unfold getApplicableGroupPolicies.
    unfold NamespaceByID. destruct (decide (ns = RootNamespaceID)); [|by apply wpr_ret, wpr_ret].
    rewrite decide_True by done. apply wpr_ret, wpr_ret. set (l' := RemoveDuplicates _).
    assert (∀ y, y ∈ l' ↔ y ≠ "" ∧ ∃ z, z ∈ default [] (groupPolicies !! ns) ∧ y = trimmed z) as Hl'
      by (intros y; apply RemoveDuplicates_elem).
    destruct (decide (l' = [])) as [Hnil|_]; (split; [done|split; [try done|]]).
    + intros ns' z Hz Hne. destruct (Hall ns' z Hz Hne) as [[->|?]%elem_of_cons|?]; [|by left|by right].
      exfalso. apply (not_elem_of_nil (trimmed z)). rewrite <-Hnil. apply Hl'. eauto.
    + apply names_in_insert; [done|].
      intros y [Hy|[_ (z & Hz & ->)]%Hl']%elem_of_app; [by eapply Hm|]. by exists ns, z.
    + intros ns' z Hz Hne. destruct (Hall ns' z Hz Hne) as [[->|?]%elem_of_cons|Hin]; [right|by left|right].
      * exists ns, (trimmed z). rewrite lookup_insert_eq. split; [|done]. apply elem_of_app. right. apply Hl'. eauto.
      * apply has_name_insert; [|done]. intros y Hy ->. exists y. split; [|done]. apply elem_of_app. by left.
Qed.

(** What the identity store said of the token's entity: the names [P] holds of
    are all of them. *)
Definition identity_seen (entityID : string) (P : string → Prop) : Prop :=
  ∃ k e k' m, entities env k entityID = Ok (Some e) ∧ group_policies env k' (i_ID e) = Ok m ∧
    (∀ y, y ∈ i_Policies e → P y) ∧
    (∀ ns l z, m !! ns = Some l → z ∈ l → trimmed z ≠ "" → P (trimmed z)).

Lemma wpr_fetchEntity id skip s :
  wpr (fetchEntityAndDerivedPolicies c RootNamespace id skip)
    (λ r s', same s s' ∧ ∀ e m, r = Ok (e, m) →
       (∀ e', e = Some e' → ∃ k, entities env k id = Ok (Some e')) ∧
       names_in m (λ y, skip = false ∧ identity_name id y) ∧
       (is_Some e → skip = false → identity_seen id (λ y, has_name (eq y) m))) s.
Proof.
  assert (∀ P, names_in ∅ P) as Hempty by (intros P ns y; rewrite lookup_empty; by intros ?%not_elem_of_nil).
  unfold fetchEntityAndDerivedPolicies. destruct (_ || _).
  { split; [done|]. intros e m [= <- <-]. split_and!; [done|apply Hempty|by intros []]. }
  apply wpr_try, wpr_req; [done|]. intros s1 Hs1. cbn [req_handle fst].
  destruct (entities _ _ _) as [[e|]|err] eqn:He; [| |done].
  2: { split; [done|]. intros e m [= <- <-]. split_and!; [done|apply Hempty|by intros []]. }
  destruct skip.
  { split; [done|]. intros e' m [= <- <-]. split_and!; [|apply Hempty|done]. intros e' [= <-]. eauto. }
  apply wpr_try, wpr_req; [done|]. intros s2 Hs2. cbn [req_handle fst].
  destruct (group_policies _ _ _) as [gp|err] eqn:Hg; [|by split; [etrans|]].
  apply wpr_try. eapply wpr_mono; [|apply wpr_filterGroup]. intros r s3 [Hs3 Hr].
  assert (same s s3) as Hs by (by do 2 (etrans; [done|])).
  destruct r as [m|err]; [|done]. destruct (Hr m eq_refl) as [Hin Hall].
  split; [done|]. intros e' m' [= <- <-]. set (f := λ (m0 : gmap string (list string)) (ns : string), default [] (m0 !! ns) ++ default [] (m !! ns)).
  split_and!; [intros e' [= <-]; eauto| |intros _ _].
  - apply (names_in_fold f).
    + intros m0 ns y Hm0 [Hy|Hy]%elem_of_app; [by eapply Hm0|].
      destruct (Hin _ _ Hy) as (ns' & z & Hz & ->). split; [done|]. eexists _, e. split; [exact He|]. right.
      destruct (gp !! ns') as [l|] eqn:Hl; [|by apply not_elem_of_nil in Hz]. by eexists _, gp, ns', l, z.
    + destruct (decide _) as [|Hne]; [apply Hempty|]. intros ns y Hy.
      destruct (_ !! ns) as [l|] eqn:Hl; [|by apply not_elem_of_nil in Hy].
      apply lookup_singleton_Some in Hl as [_ <-]. split; [done|]. eexists _, e. split; [exact He|by left].
  - eexists _, e, _, gp. split; [exact He|]. split; [exact Hg|].
    assert (∀ P m0, has_name P m0 ∨ has_name P m → has_name P (fold_left (λ m ns, <[ns := f m ns]> m) (range_keys m) m0)) as Hfold.
    { intros P m0 Hin0. apply (has_name_fold f (λ _, True)); [done| |done|].
      - intros m1 ns y _ Hy HP. exists y. split; [|done]. apply elem_of_app. by left.
      - destruct Hin0 as [?|(ns & y & Hy & HP)]; [by left|right]. exists ns. split.
        + apply range_keys_elem. destruct (m !! ns); [done|]. by apply not_elem_of_nil in Hy.
        + intros m1 _. exists y. split; [|done]. apply elem_of_app. by right. }
    split.
    + intros y Hy. apply Hfold. left. rewrite decide_False by (intros Hn; rewrite Hn in Hy; by apply not_elem_of_nil in Hy).
      exists (i_NamespaceID e), y. by rewrite lookup_singleton_eq.
    + intros ns l z Hl Hz Hne. apply Hfold. right. apply (Hall ns); [|done]. by rewrite Hl.
Qed.

Lemma sanitize_elem l x : x ∈ SanitizePolicies l false → ∃ z, z ∈ l ∧ x = lower_trim (lower_trim z).
Proof.
  unfold SanitizePolicies. simpl. intros (_ & w & Hw & ->)%RemoveDuplicates_lower_elem.
  case_bool_decide as Hr.
  - apply list_elem_of_singleton in Hw as ->. apply list_elem_of_fmap in Hr as (z & Hz & Hin).
    exists z. split; [done|]. unfold lower_trim at 1. by rewrite <-Hz.
  - apply list_elem_of_fmap in Hw as (z & -> & Hin). by exists z.
Qed.

Lemma sanitize_keeps l z :
  z ∈ l → "root" ∉ lower_trim <$> l → lower_trim (lower_trim z) ≠ "" →
  lower_trim (lower_trim z) ∈ SanitizePolicies l false.
Proof.
  intros Hz Hr Hne. unfold SanitizePolicies. rewrite (bool_decide_eq_false_2 ("root" ∈ _)) by done. simpl.
  apply RemoveDuplicates_lower_elem. split; [done|]. exists (lower_trim z). split; [|done].
  by apply list_elem_of_fmap_2.
Qed.

Section token.
Context (te : TokenEntry) (Htame : ∀ y, entitled te y → canonical (sanitizeName y)).

(** A name in the form in which it is looked up. *)
Definition named (x : string) : Prop := ∃ y, entitled te y ∧ sanitizeName x = sanitizeName y.

Lemma named_sanitize l x : (∀ z, z ∈ l → named z) → x ∈ SanitizePolicies l false → named x.
Proof.
  intros Hl (z & Hz & ->)%sanitize_elem. destruct (Hl z Hz) as (y & Hy & He). exists y. split; [done|].
  destruct (Htame y Hy) as [_ Hc]. unfold sanitizeName in *. by rewrite He, !Hc.
Qed.

Lemma policy_names_named m :
  names_in m (λ y, NoIdentityPolicies te = false ∧ identity_name (EntityID te) y) →
  names_in (policy_names te m) named.
Proof.
  intros Hm. apply (names_in_fold (λ m0 ns, SanitizePolicies (default [] (m0 !! ns) ++ default [] (m !! ns)) false)).
  - intros m0 ns y Hm0. apply named_sanitize. intros z [Hz|Hz]%elem_of_app; [by eapply Hm0|].
    exists z. split; [|done]. right. by eapply Hm.
  - intros ns y Hy. destruct (_ !! ns) as [l|] eqn:Hl; [|by apply not_elem_of_nil in Hy].
    apply lookup_singleton_Some in Hl as [_ <-]. exists y. split; [by left|done].
Qed.

Lemma named_canonical x : named x → canonical (sanitizeName x) ∧ sanitizeName x ≠ "".
Proof.
  intros (y & Hy & ->). pose proof (Htame y Hy) as Hc. split; [done|]. intros Hn. rewrite Hn in Hc.
  destruct Hc as [Hc _]. by vm_compute in Hc.
Qed.

(** The name [y] is among the names, in the form in which it is looked up. *)
Abbreviation looked_up y := (λ y', sanitizeName y' = sanitizeName y).

(** Unless root is among them, which takes the place of all others, no name is
    lost. *)
Lemma policy_names_complete m y :
  names_in m (λ y, NoIdentityPolicies te = false ∧ identity_name (EntityID te) y) →
  (∀ x, x ∈ Policies te ∨ has_name (eq x) m → sanitizeName x ≠ "root") →
  y ∈ Policies te ∨ has_name (eq y) m → has_name (looked_up y) (policy_names te m).
Proof.
  intros Hm Hnr Hy. set (I := λ x, named x ∧ sanitizeName x ≠ "root").
  assert (∀ ns x, x ∈ default [] (m !! ns) → I x) as HI.
  { intros ns x Hx. split; [|apply Hnr; right; by exists ns, x].
    exists x. split; [|done]. right. by eapply Hm. }
  assert (∀ m0 ns x, names_in m0 I → x ∈ default [] (m0 !! ns) ++ default [] (m !! ns) →
    ∃ y', y' ∈ SanitizePolicies (default [] (m0 !! ns) ++ default [] (m !! ns)) false ∧
      sanitizeName y' = sanitizeName x) as Hkeep.
  { intros m0 ns x Hm0 Hx. assert (∀ z, z ∈ default [] (m0 !! ns) ++ default [] (m !! ns) → I z) as Hz
      by (intros z [?|?]%elem_of_app; [by eapply Hm0|by eapply HI]).
    destruct (named_canonical x) as [[_ Hc] Hne]; [by apply Hz|]. unfold sanitizeName in *.
    exists (lower_trim (lower_trim x)). split; [|by rewrite !Hc].
    apply sanitize_keeps; [done| |by rewrite Hc].
    intros (z & Hroot & Hin)%list_elem_of_fmap. by destruct (Hz z Hin) as [_ []]. }
  apply (has_name_fold (λ m0 ns, SanitizePolicies (default [] (m0 !! ns) ++ default [] (m !! ns)) false) I).
  - intros m0 ns x Hm0 Hx. destruct (sanitize_elem _ _ Hx) as (z & Hz & ->).
    assert (I z) as [Hn Hroot] by (apply elem_of_app in Hz as [?|?]; [by eapply Hm0|by eapply HI]).
    destruct (named_canonical z Hn) as [[_ Hc] _]. destruct Hn as (y' & Hy' & He). unfold I, named, sanitizeName in *.
    rewrite !Hc. split; [by exists y'|done].
  - intros m0 ns x Hm0 Hx Hxy. destruct (Hkeep m0 ns x Hm0) as (y' & ? & ?); [apply elem_of_app; by left|].
    exists y'. split; [done|]. by etrans.
  - intros ns x Hx. destruct (_ !! ns) as [l|] eqn:Hl; [|by apply not_elem_of_nil in Hx].
    apply lookup_singleton_Some in Hl as [_ <-]. split; [|apply Hnr; by left]. exists x. split; [by left|done].
  - destruct Hy as [Hy|(ns & y' & Hy & ->)].
    + left. exists (NamespaceID te), y. by rewrite lookup_singleton_eq.
    + right. exists ns. split.
      * apply range_keys_elem. destruct (m !! ns); [done|]. by apply not_elem_of_nil in Hy.
      * intros m0 Hm0. apply (Hkeep m0 ns y' Hm0). apply elem_of_app. by right.
Qed.

(** ** The policies that are compiled *)

(** A policy with its templates filled in. *)
Definition derived (p0 p : Policy) : Prop :=
  p = p0 ∨
  Templated p0 = true ∧ ∃ clock subject q,
    parseACLPolicyWithTemplating clock (namespace p0) (Raw p0) (Some subject) = Ok q ∧ p = set_Name (Name p0) q.

(** The policy comes from the token, or is stored under a name that the
    token is entitled to. *)
Definition policy_source (st : gmap string blob) (p0 : Policy) : Prop :=
  (InlinePolicy te ≠ "" ∧ ParseACLPolicyCheckDuplicates 0 RootNamespace (InlinePolicy te) = Ok p0) ∨
  ∃ y, entitled te y ∧ policy_at st (sanitizeName y) = Ok (Some p0).
Definition policy_given (st : gmap string blob) (p : Policy) : Prop :=
  ∃ p0, policy_source st p0 ∧ derived p0 p.

(** Whatever is stored under the name is among the policies. *)
Definition found_at (st : gmap string blob) (l : list Policy) (x : string) : Prop :=
  policy_at st (sanitizeName x) = Ok None ∨
  ∃ p0, policy_at st (sanitizeName x) = Ok (Some p0) ∧ p0 ∈ l.

Lemma found_app st l l' x : found_at st l x → found_at st (l ++ l') x.
Proof.
  intros [?|(p0 & ? & ?)]; [by left|right]. exists p0. split; [done|]. apply elem_of_app. by left.
Qed.

(** The policies [pols] are all that the token is entitled to: with their
    templates filled in, the one inside of the token and those stored under its
    names and the names [P] of its entity; or root is among the names. *)
Definition complete (st : gmap string blob) (P : string → Prop) (pols : list Policy) : Prop :=
  (InlinePolicy te ≠ "" → ∃ p0 p, ParseACLPolicyCheckDuplicates 0 RootNamespace (InlinePolicy te) = Ok p0 ∧
     derived p0 p ∧ p ∈ pols) ∧
  ((∃ y, (y ∈ Policies te ∨ P y) ∧ sanitizeName y = "root") ∨
   ∀ y, y ∈ Policies te ∨ P y → policy_at st (sanitizeName y) = Ok None ∨
     ∃ p0 p, policy_at st (sanitizeName y) = Ok (Some p0) ∧ derived p0 p ∧ p ∈ pols).

Lemma wpr_fetch_named names s :
  coherent c s → names_in names named →
  wpr (fetch_named c names)
    (λ r s', carried s s' ∧ match r with
       | inl l => Forall (policy_source (s_store s)) l ∧
           ∀ ns x, x ∈ default [] (names !! ns) → found_at (s_store s) l x
       | inr _ => True
       end) s.
Proof.
  intros Hc Hn. apply (wpr_range (λ keys all s', carried s s' ∧ Forall (policy_source (s_store s)) all ∧
    ∀ ns x, x ∈ default [] (names !! ns) → ns ∈ keys ∨ found_at (s_store s) all x)).
  { split_and!; [done..|]. intros ns x Hx. left. apply range_keys_elem.
    destruct (names !! ns); [done|]. by apply not_elem_of_nil in Hx. }
  { intros all s1 (Hs1 & Hall & Hf). split_and!; [done..|]. intros ns x Hx.
    destruct (Hf ns x Hx) as [?%not_elem_of_nil|?]; done. }
  intros ns l all s1 (Hs1 & Hall & Hf). unfold NamespaceByID. destruct (decide (ns = _)); [|by apply wpr_ret].
  eapply wpr_mono; [|apply (wpr_range (λ l' all s', carried s s' ∧ Forall (policy_source (s_store s)) all ∧
    (∀ x, x ∈ l' → named x) ∧ (∀ x, x ∈ default [] (names !! ns) → x ∈ l' ∨ found_at (s_store s) all x) ∧
    (∀ ns' x, x ∈ default [] (names !! ns') → ns' ∈ ns :: l ∨ found_at (s_store s) all x)) (λ r s', carried s s' ∧
      match r with
      | inl all => Forall (policy_source (s_store s)) all ∧
          ∀ ns' x, x ∈ default [] (names !! ns') → ns' ∈ l ∨ found_at (s_store s) all x
      | inr _ => True
      end))].
  - intros [r|r] s' [? ?]; [by split|by split].
  - split_and!; [done..| |by left|done]. intros x Hx. by eapply Hn.
  - intros all' s2 (? & ? & _ & Hdone & Hrest). split_and!; [done..|]. intros ns' x Hx.
    destruct (Hrest ns' x Hx) as [[->|?]%elem_of_cons|?]; [|by left|by right].
    destruct (Hdone x Hx) as [?%not_elem_of_nil|?]; [done|by right].
  - intros name l' all' s2 (Hs2 & Hall' & Hl' & Hdone & Hrest). destruct (Hl' name) as (y & Hy & He); [by left|].
    apply wpr_bind. pose proof (Htame y Hy) as Hcan. rewrite <-He in Hcan.
    eapply wpr_mono; [|apply (wpr_fixes outside); [apply (quiet_GetPolicy env)|apply wpr_GetPolicy; [done|by right|by apply Hs2]]].
    intros r s3 (Ho & Hc3 & Hd3 & Hr). apply wpr_ret.
    assert (carried s s3) as Hs3.
    { etrans; [exact Hs2|]. split; [|done|done]. unfold rest. by rewrite (disk_store _ _ Hd3), Hd3. }
    assert (∀ x, x ∈ l' → named x) as Hl'' by (intros x Hx; apply Hl'; by right).
    destruct r as [o|err]; [|done]. simpl in Hr. rewrite (carried_policy_at s s2) in Hr by done.
    assert (found_at (s_store s) (all' ++ option_list o) name) as Hname.
    { destruct o as [p|]; [right|by left]. exists p. split; [done|]. apply elem_of_app. right. by left. }
    assert (inl (all' ++ option_list o) = match o with Some p => inl (all' ++ [p]) | None => inl all' end :> _ + goerr) as <-
      by (destruct o; simpl; by rewrite ?app_nil_r).
    split_and!; [done| |done| |].
    + apply Forall_app. split; [done|]. destruct o as [p|]; [|done]. apply Forall_singleton. right.
      exists y. split; [done|]. by rewrite <-He.
    + intros x Hx. destruct (Hdone x Hx) as [[->|?]%elem_of_cons|?]; [by right|by left|right; by apply found_app].
    + intros ns' x Hx. destruct (Hrest ns' x Hx) as [?|?]; [by left|right; by apply found_app].
Qed.

Lemma wpr_fill entity ps s :
  wpr (fill_templates entity ps)
    (λ r s', same s s' ∧ match r with
       | inl (l, _) => Forall (λ p, ∃ p0, p0 ∈ ps ∧ derived p0 p) l ∧
           ∀ p0, p0 ∈ ps → ∃ p, derived p0 p ∧ p ∈ l
       | inr _ => True
       end) s.
Proof.
  set (J := λ (ps' l : list Policy), Forall (λ p, ∃ p0, p0 ∈ ps ∧ derived p0 p) l ∧
    ∀ p0, p0 ∈ ps → p0 ∈ ps' ∨ ∃ p, derived p0 p ∧ p ∈ l).
  assert (∀ p q ps' l, p ∈ ps → derived p q → J (p :: ps') l → J ps' (l ++ [q])) as Hstep.
  { intros p q ps' l Hp Hq [Hl Hall]. split.
    - apply Forall_app. split; [done|]. apply Forall_singleton. eauto.
    - intros p0 Hp0. destruct (Hall p0 Hp0) as [[->|?]%elem_of_cons|(p' & ? & ?)]; [right|by left|right].
      + exists q. split; [done|]. apply elem_of_app. right. by left.
      + exists p'. split; [done|]. apply elem_of_app. by left. }
  apply (wpr_range (λ ps' st s', same s s' ∧ (∀ p, p ∈ ps' → p ∈ ps) ∧ J ps' st.1)).
  { split_and!; [done..|]. split; [done|]. by left. }
  { intros [l fetched] s1 (? & _ & Hl & Hall). split_and!; [done..|]. intros p0 Hp0.
    destruct (Hall p0 Hp0) as [?%not_elem_of_nil|?]; done. }
  intros p ps' [l fetched] s1 (Hs1 & Hin & Hl). simpl in Hl.
  assert (p ∈ ps) as Hp by (apply Hin; by left).
  assert (∀ q, q ∈ ps' → q ∈ ps) as Hin' by (intros q Hq; apply Hin; by right).
  destruct (_ && _) eqn:Ht.
  2: { split_and!; [done..|]. apply (Hstep p); [done|by left|done]. }
  apply andb_prop in Ht as [_ Ht]. apply wpr_bind.
  assert (∀ groups s2, same s s2 → wpr (match groups with
      | Err err => Ret (inr (ErrWrap "failed to fetch group memberships: %w" err))
      | Ok groups =>
          clock ← trigger (OnCore Now);
          Ret (match parseACLPolicyWithTemplating clock (namespace p) (Raw p)
                       (Some (mkSubject (i_Entity <$> entity) groups)) with
               | Err _ => inr (ErrBackend "error parsing templated policy %q: %w")
               | Ok q => inl (l ++ [set_Name (Name p) q], Some groups)
               end)
      end) (λ r s', match r with
        | inl st => same s s' ∧ (∀ q, q ∈ ps' → q ∈ ps) ∧ J ps' st.1
        | inr _ => same s s' ∧ True
        end) s2) as Hrest.
  { intros [groups|err] s2 Hs2; [|done]. apply wpr_bind, wpr_now. intros s3 Hs3. apply wpr_ret.
    assert (same s s3) by (by etrans). destruct (parseACLPolicyWithTemplating _ _ _ _) as [q|] eqn:Hq; [|done].
    split_and!; [done..|]. apply (Hstep p); [done| |done]. right. split; [done|]. by eexists _, _, q. }
  destruct fetched as [groups|]; [by apply wpr_ret, (Hrest (Ok groups))|].
  destruct entity as [e|]; [|by apply wpr_ret, (Hrest (Ok []))]. apply wpr_req; [done|]. intros s2 Hs2. apply Hrest. by etrans.
Qed.

Lemma wpr_ACL ns entity names additional s :
  coherent c s → names_in names named → Forall (policy_source (s_store s)) additional →
  wpr (ACL_ c ns entity names additional)
    (λ r s', carried s s' ∧ ∀ acl, r = Ok acl →
       ∃ pols, NewACL (Some ns) (Some <$> pols) = Ok acl ∧ Forall (policy_given (s_store s)) pols ∧
         (∀ p0, p0 ∈ additional → ∃ p, derived p0 p ∧ p ∈ pols) ∧
         ∀ ns x, x ∈ default [] (names !! ns) → policy_at (s_store s) (sanitizeName x) = Ok None ∨
           ∃ p0 p, policy_at (s_store s) (sanitizeName x) = Ok (Some p0) ∧ derived p0 p ∧ p ∈ pols) s.
Proof.
  intros Hc Hn Ha. apply wpr_bind. eapply wpr_mono; [|by apply wpr_fetch_named].
  intros [l|err] s1 [Hs1 Hl]; [|done]. destruct Hl as [Hl Hf]. apply wpr_bind, wpr_steps.
  eapply wpr_mono; [|apply wpr_fill]. intros r s2 [Hs2 Hr]. apply wpr_ret.
  assert (carried s s2) as Hs by (etrans; [done|by apply carried_same]).
  destruct r as [[pols fetched]|err]; [|done]. destruct Hr as [Hr Hall]. split; [done|]. intros acl Hacl.
  destruct (NewACL _ _) as [acl'|] eqn:HN; [|done]. injection Hacl as <-. exists pols. split_and!; [done|..].
  - eapply Forall_impl; [exact Hr|]. intros p (p0 & Hp0 & Hd). exists p0. split; [|done].
    apply elem_of_app in Hp0 as [Hp0|Hp0]; [|by rewrite Forall_forall in Ha; apply Ha].
    rewrite Forall_forall in Hl. by apply Hl.
  - intros p0 Hp0. apply Hall, elem_of_app. by right.
  - intros ns' x Hx. destruct (Hf ns' x Hx) as [?|(p0 & Hp0 & Hin)]; [by left|right].
    destruct (Hall p0) as (p & ? & ?); [apply elem_of_app; by left|]. eauto.
Qed.

(** What is found for the token. *)
Record granted_to (st : gmap string blob) (ns : Namespace) (g : Grant) : Prop := {
  gt_te : g_te g = te;
  gt_entity : ∀ e, g_entity g = Some e → ∃ k, entities env k (EntityID te) = Ok (Some e);
  gt_identity : names_in (g_identityPolicies g) (λ y, NoIdentityPolicies te = false ∧ identity_name (EntityID te) y);
  gt_seen : is_Some (g_entity g) → NoIdentityPolicies te = false →
    identity_seen (EntityID te) (λ y, has_name (eq y) (g_identityPolicies g));
  gt_acl : ∃ ns' pols, (ns' = ns ∨ ns' = RootNamespace) ∧
    NewACL (Some ns') (Some <$> pols) = Ok (g_acl g) ∧ Forall (policy_given st) pols ∧
    complete st (λ y, has_name (eq y) (g_identityPolicies g)) pols;
}.

(** Root is among the names of the token and of [m], or is not. *)
Lemma root_named m :
  (∃ y, (y ∈ Policies te ∨ has_name (eq y) m) ∧ sanitizeName y = "root") ∨
  (∀ y, y ∈ Policies te ∨ has_name (eq y) m → sanitizeName y ≠ "root").
Proof.
  assert (∀ y, has_name (eq y) m ↔ y ∈ concat (map_to_list m).*2) as Hm.
  { intros y. rewrite list_elem_of_In, in_concat. setoid_rewrite <-list_elem_of_In. split.
    - intros (ns & y' & Hy & <-). destruct (m !! ns) as [l|] eqn:Hl; [|by apply not_elem_of_nil in Hy].
      exists l. split; [|done]. apply list_elem_of_fmap. exists (ns, l). by rewrite elem_of_map_to_list.
    - intros (l & ([ns l'] & -> & Hl%elem_of_map_to_list)%list_elem_of_fmap & Hy). exists ns, y. by rewrite Hl. }
  destruct (decide (Exists (λ y, sanitizeName y = "root") (Policies te ++ concat (map_to_list m).*2))) as [Hr|Hr].
  - left. apply Exists_exists in Hr as (y & Hy & Hr). exists y. by rewrite Hm, <-elem_of_app.
  - right. intros y Hy Hroot. apply Hr, Exists_exists. exists y. by rewrite elem_of_app, <-Hm.
Qed.

Lemma wpr_token_acl ns path s :
  coherent c s →
  wpr (token_acl c ns path te)
    (λ r s', carried s s' ∧ ∀ g, r = Ok g → granted_to (s_store s) ns g) s.
Proof.
  intros Hc. unfold token_acl, NamespaceByID. destruct (decide _); [|done].
  apply wpr_bind, wpr_steps. eapply wpr_mono; [|apply wpr_fetchEntity]. intros r s1 [Hs1 Hr].
  destruct r as [[entity idp]|err]; [|split; [by apply carried_same|done]].
  destruct (Hr _ _ eq_refl) as (He & Hid & Hseen). apply wpr_bind, wpr_steps.
  assert (wpr (inline_policies RootNamespace te) (λ r s', same s s' ∧ match r with
    | Ok l => Forall (policy_source (s_store s)) l ∧ (InlinePolicy te ≠ "" → ∃ p0,
        ParseACLPolicyCheckDuplicates 0 RootNamespace (InlinePolicy te) = Ok p0 ∧ p0 ∈ l)
    | Err _ => True end) s1) as Hin.
  { unfold inline_policies. destruct (decide _) as [|Hne]; [by apply wpr_ret|].
    apply wpr_bind, wpr_now. intros s2 Hs2. apply wpr_ret. split; [by etrans|].
    rewrite (parse_clock _ 0). destruct (ParseACLPolicyCheckDuplicates _ _ _) as [p|] eqn:Hp; [|done].
    split; [apply Forall_singleton; by left|]. intros _. exists p. by rewrite list_elem_of_singleton. }
  eapply wpr_mono; [|exact Hin]. intros [inline|err] s2 [Hs2 Hinl]; [|split; [by apply carried_same|done]].
  destruct Hinl as [Hinl Hpres].
  apply wpr_bind. rewrite <-(same_store _ _ Hs2) in Hinl.
  eapply wpr_mono; [|apply wpr_ACL; [by eapply coherent_same|by apply policy_names_named|done]].
  intros r s3 [Hs3 Hacl]. apply wpr_ret. split; [etrans; [by apply carried_same|done]|].
  intros g Hg. destruct r as [acl|]; [|done]. injection Hg as <-.
  destruct (Hacl acl eq_refl) as (pols & HN & Hpols & Hadd & Hnames). rewrite (same_store _ _ Hs2) in Hpols, Hnames.
  split; [done..|]. eexists _, pols. split_and!; [|done|done|].
  { destruct (wrapping_only _ _ _); auto. }
  split.
  { intros Hne. destruct (Hpres Hne) as (p0 & Hp0 & Hp0in). destruct (Hadd p0 Hp0in) as (p & ? & ?). eauto. }
  destruct (root_named idp) as [?|Hnr]; [by left|right]. intros y Hy.
  destruct (policy_names_complete _ _ Hid Hnr Hy) as (ns' & y' & Hy' & <-). by eapply Hnames.
Qed.
End token.
End facts.
