(* ===== verification/PipelineTheorems.v ===== *)
(** * Nothing reaches a backend past the checks

    The stages of a request put together: what a request has passed when it is
    routed, and that a request that a rule guards is not routed. *)

From S2P Require Import Prelude GoLib GoSplit Storage Core ApprovalTypes ApprovalCore CoreLogic RequestHandling Router Routing Templating Policy Acl AclFacts AclSound Tokens Server PolicyStore TokenStore ServerLogic TokenFacts TokenUses TokenLookup Pipeline Quiet PolicyStoreFacts PolicyStoreTheorems Reliable ScanViewFacts Scenario RouterScenario ServerScenario Interception PipelineFacts.
Import Token.

Section theorems.
Context `{RadixTree} `{RadixSearch} `{GoTables} `{MapRange} `{Globbing} `{Parseutil} `{HCL} `{!Strsets} `{Sockaddr}
  `{Crypto} `{TokenCrypto} (env : SEnv) (c : Conf).
#[local] Instance theorem_handler : Handler srvE Server := srv_handler env.

(** ** The decision *)

(** The token of the request: the one it comes with, or else one that is live
    under the identifier it gives. *)
Definition token_of (st : gmap string blob) (n : nat) (req : Req) (te : TokenEntry) : Prop :=
  rq_TokenEntry req = Some te ∨
  rq_TokenEntry req = None ∧ live env c st n (req_ClientToken (rq req)) te.

(** The entity of a token, where it has one, exists and is not disabled. *)
Definition entity_ok (te : TokenEntry) : Prop :=
  EntityID te ≠ "" → ∃ k e, entities env k (EntityID te) = Ok (Some e) ∧ i_Disabled e = false.

(** The backend may say of a write whether it creates or updates. *)
Definition operation_of (op op' : string) : Prop :=
  op' = op ∨ (op ∈ [CreateOperation; UpdateOperation]) ∧ (op' ∈ [CreateOperation; UpdateOperation]).

(** The policies [pols] let the operation pass. *)
Definition permits (ns : Namespace) (pols : list Policy) (sudo : bool) (op path : string) : Prop :=
  (∃ p, pols = [p] ∧ Name p = "root") ∨ op = HelpOperation ∨
  ∃ cap, op_capability op = Some cap ∧
    grants (Some <$> pols) op (drop_slashes (ns_Path ns +:+ path)) cap ∧
    (sudo = true → grants (Some <$> pols) op (drop_slashes (ns_Path ns +:+ path)) SudoCapabilityInt).

Lemma parsed_from_text clock ns rules subject p :
  parseACLPolicyWithTemplating clock ns rules subject = Ok p → from_text p.
Proof.
  unfold parseACLPolicyWithTemplating. destruct (ParseHCL rules) as [file|]; [|done].
  destruct (CheckHCLKeys _ _); [done|]. destruct (parsePaths _ _ _ _) as [[paths t]|] eqn:Hp; simpl; [|done].
  intros [= <-]. by eexists _, _, _, _, _.
Qed.

Lemma source_from_text te st p0 : policy_source env te st p0 → from_text p0.
Proof.
  intros [[_ Hp]|(y & _ & Hp)]; [by eapply parsed_from_text|].
  unfold policy_at in Hp. destruct (decide _).
  { injection Hp as <-. by exists 0, RootNamespace, None, [], false. }
  unfold read_policy in Hp. destruct (st !! _); [|done]. destruct (DecodeJSON _ _); [|done].
  destruct (ParseACLPolicyCheckDuplicates _ _ _) as [p|] eqn:Hq; [|done]. injection Hp as <-.
  apply parsed_from_text in Hq. exact Hq.
Qed.

Lemma given_from_text te st p : policy_given env te st p → from_text p.
Proof.
  intros (p0 & Hs & [-> |(_ & clock & subject & q & Hq & ->)]); [by eapply source_from_text|].
  apply parsed_from_text in Hq. exact Hq.
Qed.

Lemma given_carried te s s' p :
  carried c s s' → policy_given env te (s_store s') p → policy_given env te (s_store s) p.
Proof.
  intros Hs (p0 & Hsrc & Hd). exists p0. split; [|done]. destruct Hsrc as [?|(y & Hy & Hp)]; [by left|right].
  exists y. split; [done|]. by rewrite <-(carried_policy_at c s s').
Qed.

(** The names [P] are those of the token's entity, as the identity store gave
    them for this request, where the token has an entity whose policies it
    takes. *)
Definition identity_known (te : TokenEntry) (P : string → Prop) : Prop :=
  EntityID te = "" ∨ NoIdentityPolicies te = true ∨ identity_seen env (EntityID te) P.

(** The policies [pols] are the ones the token is entitled to: none of them is
    another, and none of those is left out. *)
Definition policies_of (te : TokenEntry) (st : gmap string blob) (pols : list Policy) : Prop :=
  Forall (policy_given env te st) pols ∧ ∃ P, identity_known te P ∧ complete te st P pols.

Lemma complete_carried te s s' P pols :
  carried c s s' → complete te (s_store s') P pols → complete te (s_store s) P pols.
Proof.
  intros Hs [Hin Hn]. split; [done|]. destruct Hn as [?|Hn]; [by left|right]. intros y Hy.
  rewrite <-(carried_policy_at c s s') by done. by apply Hn.
Qed.

Lemma policies_of_carried te s s' pols :
  carried c s s' → policies_of te (s_store s') pols → policies_of te (s_store s) pols.
Proof.
  intros Hs (Hp & P & Hk & Hc). split.
  - eapply Forall_impl; [exact Hp|]. intros p. by apply given_carried.
  - exists P. split; [done|]. by eapply complete_carried.
Qed.

Lemma decision ns ns' te st pols acl legacy req b r :
  NewACL (Some ns') (Some <$> pols) = Ok acl → Forall (policy_given env te st) pols →
  performPolicyChecks (Some acl) legacy (Some (ns_Path ns)) req (mkOpts b false) = Some r → au_Allowed r = true →
  permits ns pols b (req_Operation req) (req_Path req).
Proof.
  intros HN Hp HP Hal. assert (∀ p, Some p ∈ Some <$> pols → from_text p) as Ht.
  { intros p (q & [= ->] & Hq)%list_elem_of_fmap. rewrite Forall_forall in Hp. by eapply given_from_text, Hp. }
  destruct (checks_sound _ _ _ _ _ _ _ _ HN Ht HP Hal) as [(p & Hpols & Hn & _)|[?|(nsp & cap & [= <-] & Hop & Hc & Hs)]].
  - left. exists p. split; [|done]. destruct pols as [|q [|]]; [done| |done]. simpl in Hpols. by injection Hpols as ->.
  - right. by left.
  - do 2 right. by exists cap.
Qed.

(** ** The stages of the check *)

Section request.
Context (ns : Namespace) (req : Req) (n : nat) (st : gmap string blob).
Context (Htame : ∀ te y, token_of st n req te → entitled env te y → canonical (sanitizeName y)).

Lemma wpr_fetchACL s :
  coherent c s → s_store s = st → (n ≤ tick_of s)%nat →
  wpr (fetchACLTokenEntryAndEntity c ns req)
    (λ r s', carried c s s' ∧ (∃ te, r.1 = SetTokenEntry te req ∨ r.1 = req) ∧
       ∀ g, r.2 = Ok g → ∃ te, token_of st n req te ∧ bound_cidrs_ok te (rq_RemoteAddr req) = true ∧
         granted_to env te st ns g) s.
Proof.
  intros Hc Hst Hn. unfold fetchACLTokenEntryAndEntity.
  assert (∀ s, carried c s s ∧ ∃ te, req = SetTokenEntry te req ∨ req = req) as Hid.
  { intros s0. split; [done|]. exists None. by right. }
  destruct (decide _); [split_and!; [done|apply Hid, s|done]|].
  destruct (tokenStore_nil c); [split_and!; [done|apply Hid, s|done]|]. apply wpr_bind.
  assert (∀ te s1, carried c s s1 → (∀ te', te = Some te' → token_of st n req te') →
    wpr (let req' := SetTokenEntry te req in
         match te with
         | None => Ret (req', Err (ErrMulti [ErrPermissionDenied; ErrInvalidToken]))
         | Some te =>
             if bound_cidrs_ok te (rq_RemoteAddr req') then
               g ← token_acl c ns (req_Path (rq req')) te; Ret (req', g)
             else Ret (req', Err ErrPermissionDenied)
         end)
      (λ r s', carried c s s' ∧ (∃ te, r.1 = SetTokenEntry te req ∨ r.1 = req) ∧
         ∀ g, r.2 = Ok g → ∃ te, token_of st n req te ∧ bound_cidrs_ok te (rq_RemoteAddr req) = true ∧
           granted_to env te st ns g) s1) as Hrest.
  { intros [te|] s1 Hs1 Hte; [|by split_and!; [|exists None; left|]]. cbv zeta. specialize (Hte te eq_refl).
    change (rq_RemoteAddr (SetTokenEntry _ req)) with (rq_RemoteAddr req).
    destruct (bound_cidrs_ok te _) eqn:Hb; [|by split_and!; [|exists (Some te); left|]].
    apply wpr_bind. eapply wpr_mono; [|apply (wpr_token_acl env c te); [|by apply Hs1]].
    2: { intros y. by apply Htame. }
    intros r s2 [Hs2 Hg]. apply wpr_ret. split_and!; [by etrans|exists (Some te); by left|].
    intros g Hr. exists te. split_and!; [done..|]. destruct (Hg g Hr) as [? ? ? ? (ns' & pols & ? & ? & Hp & Hcomp)].
    split; [done..|]. exists ns', pols. subst st. split_and!; [done..| |by eapply complete_carried].
    eapply Forall_impl; [exact Hp|]. intros p Hgp. by eapply given_carried. }
  destruct (rq_TokenEntry req) as [te|] eqn:Hte.
  - apply wpr_ret, (Hrest (Some te)); [done|]. intros te' [= <-]. by left.
  - apply wpr_steps, (wpr_Lookup env c _ n); [done|]. intros r s1 Hs1 Hl.
    destruct r as [te|err]; [|split_and!; [done|apply Hid, s|done]]. apply Hrest; [done|].
    intros te' ->. right. split; [done|]. subst st. by apply Hl.
Qed.

(** What is known of a request when the check returns no error. *)
Record passed (te : TokenEntry) (req' : Req) (ck : Checked) : Prop := {
  pa_te : ck_te ck = Some te;
  pa_entity : entity_ok te;
  pa_path : req_Path (rq (ck_req ck)) = req_Path (rq req');
  pa_op : operation_of (req_Operation (rq req')) (req_Operation (rq (ck_req ck)));
  pa_caller : req_EntityID (rq (ck_req ck)) = EntityID te;
  pa_control : rq_ControlGroup (ck_req ck) = rq_ControlGroup req';
  pa_names : ∃ auth, ck_auth ck = Some auth ∧ Forall (λ y, ∃ x, entitled env te x ∧ y = sanitizeName x) (ra_Policies auth);
  pa_permitted : ∃ pols, policies_of te st pols ∧
    permits ns pols (Router.RootPath (conf_router c) (Some (ns_Path ns)) (req_Path (rq req')))
      (req_Operation (rq (ck_req ck))) (req_Path (rq req'));
}.

Lemma wpr_existence req' s :
  wpr (core_existenceCheck req')
    (λ r s', same s s' ∧ ∀ op, r = Ok op → op ∈ [CreateOperation; UpdateOperation]) s.
Proof.
  apply wpr_bind, wpr_req; [done|]. intros s1 Hs1. destruct (req_handle _ _ _ _).1 as [[[resp b] b'] err].
  apply wpr_ret. split; [done|]. intros op.
  assert ((if b && negb b' then CreateOperation else UpdateOperation) ∈ [CreateOperation; UpdateOperation]) as Hop.
  { destruct (b && negb b'); set_solver. }
  destruct err as [[]|]; try done; [intros [= <-]; set_solver|].
  destruct resp as [resp|]; [|by intros [= <-]]. destruct (IsError resp); [|by intros [= <-]].
  destruct (_ !! "error") as [[]|]; done.
Qed.

Lemma wpr_actual req' s :
  wpr (actual_operation req')
    (λ r s', same s s' ∧ ∀ req'', r = Ok req'' → ∃ op,
       operation_of (req_Operation (rq req')) op ∧ req'' = set_rq (set_Operation op (rq req')) req') s.
Proof.
  unfold actual_operation. destruct (_ || _) eqn:Hw.
  - apply wpr_try. eapply wpr_mono; [|apply wpr_existence]. intros [op|err] s1 [Hs1 Hop]; [|done].
    split; [done|]. intros req'' [= <-]. exists op. split; [|done]. right. split; [|by apply Hop].
    apply orb_true_iff in Hw as [->%bool_decide_eq_true| ->%bool_decide_eq_true]; set_solver.
  - split; [done|]. intros req'' [= <-]. exists (req_Operation (rq req')). split; [by left|]. by destruct req', rq.
Qed.

Lemma wpr_recover_check req' s : wpr (recover_check req') (λ _ s', same s s') s.
Proof.
  unfold recover_check. destruct (_ && _); [|by apply wpr_ret]. apply wpr_try.
  eapply wpr_mono; [|apply wpr_existence]. by intros [op|err] s1 [Hs1 _].
Qed.

Lemma caller_names te g b req' :
  token_of st n req te → granted_to env te st ns g →
  Forall (λ y, ∃ x, entitled env te x ∧ y = sanitizeName x) (ra_Policies (caller (Some g) b req')).
Proof.
  intros Hte [<- _ Hid _ _]. apply Forall_forall. simpl. intros y (z & Hz & ->)%sanitize_elem. exists z.
  assert (entitled env (g_te g) z) as Hent.
  { apply elem_of_app in Hz as [Hz|Hz]; [by left|]. right. by eapply Hid. }
  split; [done|]. by destruct (Htame _ z Hte Hent) as [_ Hc].
Qed.

Lemma wpr_decide te g req' s :
  token_of st n req te → entity_ok te → granted_to env te st ns g →
  identity_known te (λ y, has_name (eq y) (g_identityPolicies g)) →
  wpr (decide_request c ns false (Router.RootPath (conf_router c) (Some (ns_Path ns)) (req_Path (rq req')))
         (Some g) req')
    (λ ck s', same s s' ∧ (ck_err ck = None → passed te req' ck)) s.
Proof.
  intros Htok He Hg Hknown. pose proof (caller_names te g) as Hnames.
  destruct (Hg) as [Hte _ _ _ (ns' & pols & _ & HN & Hp & Hcomp)].
  unfold decide_request. cbv zeta. simpl fmap. rewrite Hte. destruct (CreateClientID te) as [cid twe].
  apply wpr_bind. eapply wpr_mono; [|apply wpr_recover_check]. intros [[]|err] s1 Hs1; [|done].
  simpl fmap. destruct (performPolicyChecks _ _ _ _ _) as [res|] eqn:HP; [|done].
  destruct (au_Allowed res) eqn:Hal; [|done].
  assert (∀ err, passed te req' (mkChecked
    (set_ClientID cid (set_rq (set_EntityID (EntityID te) (rq req')) req'))
    (Some (set_decision true (from_option GrantingPolicies [] (ACLResults_ res)) (caller (Some g)
      (Router.RootPath (conf_router c) (Some (ns_Path ns)) (req_Path (rq req'))) req'))) (Some te) err)) as Hck.
  { intros err. split; simpl; try done; [by left|eexists; split; [done|by apply Hnames]|].
    exists pols. split; [by split; [|eexists]|]. eapply (decision ns) in HP; [exact HP|done..]. }
  destruct (negb false && _); [|by apply wpr_ret].
  apply wpr_bind, wpr_req; [done|]. intros s2 Hs2. apply wpr_ret. split; [by etrans|]. intros _. apply Hck.
Qed.

Lemma strip_same te req' :
  let r := strip_token_headers false te req' in
  req_Path (rq r) = req_Path (rq req') ∧ req_Operation (rq r) = req_Operation (rq req') ∧
  rq_ControlGroup r = rq_ControlGroup req'.
Proof.
  unfold strip_token_headers. by repeat case_match.
Qed.

#[local] Instance operation_of_preorder : PreOrder operation_of.
Proof. split; [by left|]. unfold operation_of. intros o1 o2 o3 [-> |[? ?]] [-> |[? ?]]; auto. Qed.

Lemma wpr_check_found te g req' s :
  token_of st n req te → granted_to env te st ns g →
  wpr (check_found c ns false (Some g) req')
    (λ ck s', same s s' ∧ (ck_err ck = None → passed te req' ck)) s.
Proof.
  intros Htok Hg. destruct (Hg) as [Hte He _ Hseen _]. unfold check_found. cbv zeta. simpl mbind. simpl fmap.
  destruct (from_option i_Disabled false _) eqn:Hd; [done|]. rewrite Hte.
  destruct (_ && bool_decide _) eqn:Hno; [by destruct (perfStandby c)|].
  rewrite andb_false_r. destruct (strip_same (Some te) req') as (Hp & Ho & Hcg).
  assert (entity_ok te) as Hok.
  { intros Hne. destruct (g_entity g) as [e|] eqn:Hge.
    - destruct (He e eq_refl) as [k Hk]. exists k, e. by split.
    - simpl in Hno. by rewrite bool_decide_eq_false_2 in Hno. }
  assert (identity_known te (λ y, has_name (eq y) (g_identityPolicies g))) as Hknown.
  { destruct (decide (EntityID te = "")) as [|Hne]; [by left|right].
    destruct (NoIdentityPolicies te) eqn:Hid; [by left|right]. apply Hseen; [|done].
    destruct (g_entity g); [done|]. simpl in Hno. by rewrite bool_decide_eq_false_2 in Hno. }
  apply wpr_bind, wpr_steps. eapply wpr_mono; [|apply wpr_actual].
  intros [req''|err] s1 [Hs1 Hr]; [|done]. destruct (Hr _ eq_refl) as (op & Hop & ->).
  apply wpr_steps. rewrite <-Hp.
  eapply wpr_mono; [|exact (wpr_decide te g (set_rq (set_Operation op _) _) s1 Htok Hok Hg Hknown)].
  intros ck s2 [Hs2 Hck]. split; [by etrans|]. intros [? ? Hpa Hopp ? Hct ? ?]%Hck.
  simpl in *. rewrite Ho in Hop. rewrite Hp in *. split; try done; try congruence. by etrans.
Qed.

Lemma wpr_CheckToken s :
  coherent c s → s_store s = st → (n ≤ tick_of s)%nat →
  wpr (CheckToken c ns req false)
    (λ ck s', carried c s s' ∧ (ck_err ck = None → ∃ te,
       token_of st n req te ∧ bound_cidrs_ok te (rq_RemoteAddr req) = true ∧ passed te req ck)) s.
Proof.
  intros Hc Hst Hn. apply wpr_bind. simpl orb. cbv iota. apply wpr_bind.
  eapply wpr_mono; [|by apply wpr_fetchACL]. intros [req' r] s1 (Hs1 & [te' Hreq] & Hg). apply wpr_ret.
  simpl in Hreq, Hg. cbn [fst snd]. destruct r as [g|err]; [|by split].
  destruct (Hg g eq_refl) as (te & Htok & Hb & Hgr).
  eapply wpr_mono; [|by apply (wpr_check_found te)]. intros ck s2 [Hs2 Hck].
  split; [etrans; [done|by apply carried_same]|]. intros Hok. exists te. split_and!; [done..|].
  destruct (Hck Hok). by split; destruct Hreq as [-> | ->].
Qed.

(** ** Serving *)

(** What left the server: routed, leased, logged. *)
Definition seen (s : Server) : list Core.Request * list (Core.Request * Secret) * list Core.Request :=
  (w_routed (s_core s), w_leases (s_core s), s_audit s).

Lemma carried_seen s s' : carried c s s' → seen s' = seen s.
Proof. intros [_ Ho _]. unfold outside in Ho. unfold seen. congruence. Qed.

Lemma wpr_revoke_used te r s : wpr (revoke_used te r) (λ _ s', seen s' = seen s) s.
Proof.
  apply wpr_bind, wpr_trigger. cbn [handle theorem_handler srv_handler srv_handle tok_handle fst snd].
  apply wpr_bind. destruct (revocation_lease _ _ _) as [l|err]; [|done].
  apply wpr_trigger. cbn [handle theorem_handler srv_handler srv_handle tok_handle fst snd]. by destruct (lazy_revoke _ _ _).
Qed.

Context (P : list Core.Request * list (Core.Request * Secret) * list Core.Request → Prop).

(** Refusing a request logs it at most. *)
Definition refusable (s : Server) : Prop := ∀ au, P ((seen s).1, au).

Lemma refusable_carried s s' : carried c s s' → refusable s → refusable s'.
Proof. intros Hs Hr. unfold refusable. by rewrite (carried_seen _ _ Hs). Qed.

Lemma refusable_seen s s' : seen s' = seen s → refusable s → P (seen s').
Proof. intros -> Hr. exact (Hr (s_audit s)). Qed.

Lemma wpr_refuse req' err s : refusable s → wpr (refuse_request req' err) (λ _ s', P (seen s')) s.
Proof.
  intros Hr. apply wpr_bind. destruct (rq_ControlGroup req'); [apply wpr_ret, wpr_ret; by apply (refusable_seen s)|].
  apply wpr_trigger, wpr_ret. cbn [handle theorem_handler srv_handler srv_handle req_handle snd].
  destruct (log_request _ _ _ _); [exact (Hr (s_audit s))|exact (Hr (rq req' :: s_audit s))].
Qed.

Lemma wpr_use_and_serve ctx entry ck s :
  refusable s →
  (∀ auth s1, ck_err ck = None → ck_auth ck = Some auth → carried c s s1 →
     wpr (allowed_request c ctx entry auth (ck_req ck)) (λ _ s', P (seen s')) s1) →
  wpr (use_and_serve c ctx entry ck) (λ _ s', P (seen s')) s.
Proof.
  intros Hr Hal. unfold use_and_serve. cbv zeta.
  assert (∀ s1, carried c s s1 → wpr (match ck_err ck, ck_auth ck with
    | Some err, _ => refuse_request (ck_req ck) err
    | None, Some auth => allowed_request c ctx entry auth (ck_req ck)
    | None, None => Ret (None, Some (ErrBackend "invalid memory address or nil pointer dereference"))
    end) (λ _ s', P (seen s')) s1) as Hserve.
  { intros s1 Hs1. destruct (ck_err ck); [by apply wpr_refuse, (refusable_carried s)|].
    destruct (ck_auth ck) as [auth|]; [by apply (Hal auth)|].
    apply wpr_ret. by apply (refusable_seen s); [apply carried_seen|]. }
  destruct (ck_te ck) as [te|]; [|by apply Hserve]. destruct (rq_ControlGroup _); [by apply Hserve|].
  apply wpr_bind, (wpr_UseToken env c). intros [te'|err] s1 Hs1.
  2: { apply wpr_ret. by apply (refusable_seen s); [apply carried_seen|]. }
  destruct (_ =? _); [|by apply Hserve]. apply wpr_bind. eapply wpr_mono; [|by apply Hserve].
  intros r s2 HP. eapply wpr_mono; [|apply wpr_revoke_used]. by intros r' s3 ->.
Qed.

Lemma wpr_handleRequest ctx s :
  coherent c s → s_store s = st → n = tick_of s → refusable s →
  (∀ te ck auth entry s1, token_of st n req te → bound_cidrs_ok te (rq_RemoteAddr req) = true → passed te req ck →
     ck_auth ck = Some auth → carried c s s1 →
     wpr (allowed_request c ctx entry auth (ck_req ck)) (λ _ s', P (seen s')) s1) →
  wpr (handleRequest c ctx ns req) (λ _ s', P (seen s')) s.
Proof.
  intros Hc Hst Hn Hr Hal. apply wpr_bind, wpr_steps, wpr_trigger.
  set (entry := (handle _ _).1). set (s1 := (handle _ _).2).
  assert (same s s1) as Hs1 by by apply same_ro.
  assert (tick_of s1 = S (tick_of s)) as Ht by exact (handle_tick env _ s).
  assert (n ≤ tick_of s1)%nat as Hn1 by lia.
  apply wpr_bind. eapply wpr_mono; [|apply wpr_CheckToken; [by eapply coherent_same| |done]].
  2: { by rewrite (same_store _ _ Hs1). }
  intros ck s2 [Hs2 Hck]. assert (carried c s s2) as Hs by (etrans; [by apply carried_same|done]).
  assert (wpr (steps (use_and_serve c ctx entry ck)) (λ _ s', P (seen s')) s2) as Huse.
  { apply wpr_steps, wpr_use_and_serve; [by eapply refusable_carried|]. intros auth s3 Herr Hauth Hs3.
    destruct (Hck Herr) as (te & ? & ? & ?). apply (Hal te); [done..|by etrans]. }
  destruct (ck_err ck) as [err|]; [|done].
  destruct (err_has is_RelativePath err); [|destruct (err_has is_PleaseForward err); [|done]];
    apply wpr_ret; by apply (refusable_seen s); [apply carried_seen|].
Qed.
End request.

(** ** The token of the request *)

(** The identifiers that the text in the request stands for: itself, and what
    it decodes to. *)
Definition presents (req : Req) (id : string) : Prop :=
  let token := req_ClientToken (rq req) in
  id = token ∨ IsSSCToken token = true ∧ CheckSSCToken c token (isLoginRequest c req) = Ok id.

(** A token that is live when the request comes, or when its token was looked
    up for the first time. *)
Definition presented (req : Req) (s : Server) (te : TokenEntry) : Prop :=
  ∃ id s1, presents req id ∧ (s1 = s ∨ s1 = (run (PopulateTokenEntry c req) s).2) ∧
    live env c (s_store s1) (tick_of s1) id te.

(** The parts of the request that its token does not change. *)
Definition target (req : Req) : string * string * bool * option string :=
  (req_Path (rq req), req_Operation (rq req), rq_ControlGroup req, rq_RemoteAddr req).

Lemma populated req s :
  rq_TokenEntry req = None →
  wpr (PopulateTokenEntry c req) (λ r s', carried c s s' ∧ ∀ req', r = Ok req' →
    target req' = target req ∧ ∀ te, token_of (s_store s') (tick_of s') req' te → ∃ id, presents req id ∧
      (live env c (s_store s) (tick_of s) id te ∨ live env c (s_store s') (tick_of s') id te)) s.
Proof.
  intros Hno. unfold PopulateTokenEntry. cbv zeta. destruct (decide _) as [Hemp|].
  { split; [done|]. intros req' [= <-]. split; [done|]. intros te [?|[_ Hl]]; [congruence|].
    exists (req_ClientToken (rq req)). split; [by left|by right]. }
  set (token := req_ClientToken (rq req)).
  destruct (if IsSSCToken token then _ else _) as [decoded|err] eqn:Hdec; [|done].
  assert (presents req decoded) as Hpres.
  { unfold presents. fold token. destruct (IsSSCToken token); [by right|]. injection Hdec as <-. by left. }
  assert (∀ s' te, token_of (s_store s') (tick_of s')
    (set_rq (set_ClientToken decoded (rq req)) (set_InboundSSCToken token req)) te → ∃ id, presents req id ∧
      (live env c (s_store s) (tick_of s) id te ∨ live env c (s_store s') (tick_of s') id te)) as Hlater.
  { intros s' te [Hte|[_ Hl]]; [simpl in Hte; congruence|]. exists decoded. split; [done|by right]. }
  apply wpr_bind. assert (wpr (LookupToken c token) (λ r s', carried c s s' ∧
    ∀ te, r = Ok (Some te) → live env c (s_store s) (tick_of s) token te) s) as Hl.
  { unfold LookupToken. destruct (Sealed c); [done|]. destruct (_ && _); [done|]. destruct (_ || _); [done|].
    by apply (wpr_Lookup env c _ (tick_of s)). }
  eapply wpr_mono; [|exact Hl]. intros r s1 [Hs1 Hr]. apply wpr_ret. split; [done|].
  intros req'. destruct r as [[te|]|err].
  - intros [= <-]. split; [done|]. intros te' [[= <-]|[? _]]; [|done]. exists token. split; [by left|]. left. by apply Hr.
  - intros [= <-]. split; [done|]. apply Hlater.
  - destruct (err_has _ err); [done|]. destruct (IsJWT token); [|done]. intros [= <-]. split; [done|]. apply Hlater.
Qed.

Lemma passed_target ns st st' te req req' ck :
  target req' = target req → (∀ pols, policies_of te st' pols → policies_of te st pols) →
  passed ns st' te req' ck → passed ns st te req ck.
Proof.
  intros [= Hp Ho Hc Hr] Hg [Hte He Hpa Hop Hca Hco Hna (pols & Hpols & Hperm)].
  rewrite Hp in Hpa, Hperm. rewrite Ho in Hop. rewrite Hc in Hco. split; [done..|].
  exists pols. split; [by apply Hg|done].
Qed.

Lemma wpr_handle_with_token P ctx ns req s :
  coherent c s → rq_TokenEntry req = None →
  (∀ te y, presented req s te → entitled env te y → canonical (sanitizeName y)) →
  refusable P s →
  (∀ te ck auth entry s1, presented req s te → bound_cidrs_ok te (rq_RemoteAddr req) = true →
     passed ns (s_store s) te req ck → ck_auth ck = Some auth → carried c s s1 →
     wpr (allowed_request c ctx entry auth (ck_req ck)) (λ _ s', P (seen s')) s1) →
  wpr (handle_with_token c ctx ns req) (λ _ s', P (seen s')) s.
Proof.
  intros Hc Hno Htame Hr Hal. apply wpr_bind, wpr_steps. pose proof (populated req s Hno) as Hpop.
  unfold wpr at 1. unfold wpr at 1 in Hpop. destruct (run (PopulateTokenEntry c req) s) as [r s1] eqn:Hrun.
  cbn [fst snd] in *. destruct Hpop as [Hs1 Hpop].
  destruct r as [req'|err]; [|apply wpr_ret; by apply (refusable_seen P s); [apply carried_seen|]].
  destruct (Hpop _ eq_refl) as [Htgt Htok].
  assert (∀ te, token_of (s_store s1) (tick_of s1) req' te → presented req s te) as Hpres.
  { intros te (id & Hid & Hl)%Htok. destruct Hl as [Hl|Hl].
    - exists id, s. split_and!; [done|by left|done].
    - exists id, s1. split_and!; [done|by rewrite Hrun; right|done]. }
  destruct (_ && _); [apply wpr_ret; by apply (refusable_seen P s); [apply carried_seen|]|].
  eapply (wpr_handleRequest ns req' (tick_of s1) (s_store s1)); [eauto|by apply Hs1|done|done|by eapply refusable_carried|].
  intros te ck auth entry s2 Ht Hb Hpa Hauth Hs2. injection (Htgt) as _ _ _ Haddr. rewrite Haddr in Hb.
  apply (Hal te); [by apply Hpres|done| |done|by etrans].
  eapply passed_target; [done| |done]. intros p. by apply policies_of_carried.
Qed.

(** ** The claims *)

(** Why a request may be routed. *)
Definition mediated (ns : Namespace) (req : Req) (s : Server) (audit : list Core.Request) : Prop :=
  ∃ te pols op,
    presented req s te ∧ bound_cidrs_ok te (rq_RemoteAddr req) = true ∧ entity_ok te ∧
    policies_of te (s_store s) pols ∧ operation_of (req_Operation (rq req)) op ∧
    permits ns pols (Router.RootPath (conf_router c) (Some (ns_Path ns)) (req_Path (rq req))) op (req_Path (rq req)) ∧
    (rq_ControlGroup req = false → ∃ logged, audit = logged :: s_audit s ∧
       req_Path logged = req_Path (rq req) ∧ req_Operation logged = op ∧ req_EntityID logged = EntityID te).

Lemma fixes_audit {A} (p : prog coreE A) : fixes s_audit (of_core p).
Proof. apply fixes_wpr. intros s. apply wpr_of_core. by apply (wp_mono _ _ (λ _ _, True)). Qed.
Lemma fixes_audit_recover req : fixes s_audit (recover_data req).
Proof. unfold recover_data. destruct (decide _); [|done]. apply fixes_bind; [by apply fixes_trigger|done]. Qed.

Lemma wpr_allowed_logged ctx entry auth req s :
  wpr (allowed_request c ctx entry auth req) (λ _ s',
    w_routed (s_core s') = w_routed (s_core s) ∨
    (rq_ControlGroup req = false → s_audit s' = set_DisplayName (ra_DisplayName auth) (rq req) :: s_audit s)) s.
Proof.
  apply wpr_bind. set (req' := set_rq _ req).
  assert (∀ s1, wpr (r ← recover_data req'; match r with
    | inl resp => Ret resp
    | inr req => of_core (dispatch (conf_core c) ctx entry (rq req) (Some (mkAuth (ra_Policies auth))))
    end) (λ _ s', s_audit s' = s_audit s1) s1) as Hrest.
  { apply fixes_wpr, fixes_bind; [apply fixes_audit_recover|]. intros [resp|req'']; [done|apply fixes_audit]. }
  change (rq_ControlGroup req') with (rq_ControlGroup req). destruct (rq_ControlGroup req).
  { apply wpr_ret. eapply wpr_mono; [|apply Hrest]. intros r s' _. by right. }
  apply wpr_trigger. cbn [handle theorem_handler srv_handler srv_handle req_handle fst snd].
  destruct (log_request _ _ _ _) as [err|]; [by left|].
  eapply wpr_mono; [|apply Hrest]. intros r s' ->. by right.
Qed.

(** C3: a request with a token is routed to a backend only if it passed the
    checks: the token is live and used from an address it is bound to, its
    entity, if it has one, is known and not disabled, the policies that the
    token is entitled to let the operation pass, with the sudo capability on a
    root path, and the request is in the audit log, unless it is run for a
    control group.  Those policies are all of them: the one inside of the token
    and whatever is stored under its names and the names the identity store
    gave for its entity and groups, so that a policy that denies is not left
    out.  The cache of policies agrees with the storage at the start, and the
    names the token is entitled to are their own cache keys.  The existence
    check of a write, which asks the backend before the decision, does not
    count as routing. *)
Theorem request_mediated ctx ns req s :
  coherent c s → rq_TokenEntry req = None →
  (∀ te y, presented req s te → entitled env te y → canonical (sanitizeName y)) →
  let s' := (run (handle_with_token c ctx ns req) s).2 in
  w_routed (s_core s') = w_routed (s_core s) ∨ mediated ns req s (s_audit s').
Proof.
  intros Hc Hno Htame.
  set (P := λ v : list Core.Request * list (Core.Request * Secret) * list Core.Request,
    v.1.1 = w_routed (s_core s) ∨ mediated ns req s v.2).
  apply (wpr_handle_with_token P); [done..|intros au; by left|].
  intros te ck auth entry s1 Hte Hb [_ He Hpa Hop Hca Hco _ (pols & Hpols & Hperm)] _ Hs1%carried_seen.
  injection Hs1 as Hro _ Hau. eapply wpr_mono; [|apply wpr_allowed_logged].
  intros r s2 [Hs2|Hs2]; [left; simpl; congruence|right]. exists te, pols, (req_Operation (rq (ck_req ck))).
  split_and!; [done..|]. intros Hcg. eexists. split; [simpl; rewrite Hs2 by congruence; by rewrite Hau|].
  by split_and!.
Qed.

(** ** A guarded path *)

Lemma carried_guards path id rule s s' :
  carried c s s' → guards (s_core s) path id rule → guards (s_core s') path id rule.
Proof.
  intros [Hr _ _] [? (v & Hv & Hd) ?]. split; [done| |done]. exists v. split; [|done].
  etrans; [|exact Hv]. by apply (rest_lookup s s').
Qed.

Lemma carried_reliable s s' :
  carried c s s' → reliable (on_core env) (conf_core c) (s_core s) → reliable (on_core env) (conf_core c) (s_core s').
Proof.
  intros [Hr _ _] []. pose proof (f_equal Inmem.failGet Hr). pose proof (f_equal Inmem.failPut Hr).
  pose proof (f_equal Inmem.failDelete Hr). pose proof (f_equal Inmem.failList Hr).
  pose proof (f_equal Inmem.maxValueSize Hr). simpl in *. unfold disk in *. by split; try congruence.
Qed.

Lemma intercepted_operation_of op op' : operation_of op op' → intercepted_op op = true → intercepted_op op' = true.
Proof.
  intros [-> |[_ Hop]] Hi; [done|]. apply elem_of_cons in Hop as [-> |Hop]; [done|].
  by apply list_elem_of_singleton in Hop as ->.
Qed.

Lemma wpr_allowed_guarded ctx entry auth req id rule s :
  reliable (on_core env) (conf_core c) (s_core s) → isApprovalBypass ctx = false →
  exempt_path (req_Path (rq req)) = false → intercepted_op (req_Operation (rq req)) = true →
  has_root (ra_Policies auth) = false → guards (s_core s) (req_Path (rq req)) id rule →
  wpr (allowed_request c ctx entry auth req) (λ _ s', (seen s').1 = (seen s).1) s.
Proof.
  intros Hrel Hctx Hex Hint Hroot Hg. apply wpr_bind. set (req' := set_rq _ req).
  assert (∀ s1, ro (s_core s) (s_core s1) → wpr (r ← recover_data req'; match r with
    | inl resp => Ret resp
    | inr req => of_core (dispatch (conf_core c) ctx entry (rq req) (Some (mkAuth (ra_Policies auth))))
    end) (λ _ s', (seen s').1 = (seen s).1) s1) as Hrest.
  { intros s1 Hs1. unfold recover_data. rewrite decide_False.
    2: { intros Heq. change (req_Operation (rq req) = RecoverOperation) in Heq. by rewrite Heq in Hint. }
    apply wpr_bind, wpr_ret, wpr_of_core.
    eapply wp_mono; [|eapply wp_dispatch_guarded; [by eapply reliable_ro|done|by split|by eapply guards_ro]].
    intros r w [Hro Hle]. apply ro_unrouted in Hs1 as [? ?]. unfold seen. simpl. congruence. }
  destruct (rq_ControlGroup req'); [by apply wpr_ret, Hrest|].
  apply wpr_trigger. cbn [handle theorem_handler srv_handler srv_handle req_handle fst snd].
  destruct (log_request _ _ _ _) as [err|]; [done|by apply Hrest].
Qed.

(** C2: on working storage, a read or a write of a path that a stored rule matches
    reaches no backend and registers no lease, whoever asks, unless the path is
    exempt or the token is entitled to the root policy: from the lookup of the
    token on, nothing that happens before the interceptor looks at the request
    lets it pass.  The cache of policies agrees with the storage at the start,
    and the names the token is entitled to are their own cache keys. *)
Theorem guarded_path_held ctx ns req id rule s :
  coherent c s → reliable (on_core env) (conf_core c) (s_core s) → rq_TokenEntry req = None →
  isApprovalBypass ctx = false → exempt_path (req_Path (rq req)) = false →
  intercepted_op (req_Operation (rq req)) = true → guards (s_core s) (req_Path (rq req)) id rule →
  (∀ te y, presented req s te → entitled env te y → canonical (sanitizeName y) ∧ sanitizeName y ≠ "root") →
  let s' := (run (handle_with_token c ctx ns req) s).2 in
  w_routed (s_core s') = w_routed (s_core s) ∧ w_leases (s_core s') = w_leases (s_core s).
Proof.
  intros Hc Hrel Hno Hctx Hex Hint Hg Htame.
  set (P := λ v : list Core.Request * list (Core.Request * Secret) * list Core.Request,
    v.1.1 = w_routed (s_core s) ∧ v.1.2 = w_leases (s_core s)).
  apply (wpr_handle_with_token P); [done..| |done|].
  { intros te y Ht Hy. by apply (Htame te y). }
  intros te ck auth entry s1 Hte Hb [_ _ Hpa Hop _ _ (auth' & Hauth' & Hnames) _] Hauth Hs1.
  eapply wpr_mono; [|apply (wpr_allowed_guarded _ _ _ _ id rule); try done].
  - intros r s2 Hs2. rewrite (carried_seen _ _ Hs1) in Hs2. unfold P. by rewrite Hs2.
  - by eapply carried_reliable.
  - by rewrite Hpa.
  - by eapply intercepted_operation_of.
  - apply bool_decide_eq_false. intros Hr. assert (auth' = auth) as -> by congruence.
    rewrite Forall_forall in Hnames. destruct (Hnames _ Hr) as (x & Hx & Heq). by destruct (Htame te x Hte Hx).
  - rewrite Hpa. by eapply carried_guards.
Qed.
End theorems.

(** ** On the concrete server *)

(** A token that may be used once and that carries its policy with it. *)
Definition alice_token : TokenEntry :=
  Token.mk TokenTypeService "alice" "" "acc3" "" ["default"] "plain" "auth/token/create" None None
    "alice" 1 1735689600 3600 0 "" 0 "" 0 0 0 "" false [] RootNamespaceID "".
Definition rule_secret : ApprovalRule :=
  mkRule "s" "" "secret/*" ["bob"; "carol"] 1 "" "admin" false.
Definition read_secret : Req :=
  mkReq (mkRequest "req-1" ReadOperation "secret/a" None None "" "" "secret/" "alice" None "") None None NoClientToken
    "" "" 0 "" "" false.
Definition open_server : Server := server0 (put_token alice_token ∅).
Definition guarded_server : Server := server0 (put_rule rule_secret (put_token alice_token ∅)).

Definition served (s : Server) : Server :=
  (run (H:=lock_handler srvE Server (H:=srv_handler senv0))
     (handle_with_token conf0 (mkCtx None) Token.RootNamespace read_secret) s).2.

Lemma alice_only m n id te :
  m !! id_key (token_SaltID conf0 "alice") = Some (Doc (enc_token alice_token)) →
  presents conf0 read_secret id → live senv0 conf0 m n id te → te = upgrade alice_token.
Proof.
  intros Hm [-> |[Hs _]]; [|by vm_compute in Hs]. inversion 1 as [? x v te' Hb Hk He Hd|? ? ? Hb|? ? ? ? Hb]; subst;
    [|by vm_compute in Hb..].
  assert (x = token_SaltID conf0 "alice") as -> by (vm_compute in Hk; injection Hk as <-; vm_compute; reflexivity).
  rewrite Hm in He. injection He as <-. assert (te' = alice_token) as -> by (vm_compute in Hd; by injection Hd as <-).
  done.
Qed.

Lemma alice_canonical m te y :
  m !! id_key (token_SaltID conf0 "alice") = Some (Doc (enc_token alice_token)) →
  s_store (run (H:=srv_handler senv0) (PopulateTokenEntry conf0 read_secret) (server0 m)).2 = m →
  presented senv0 conf0 read_secret (server0 m) te → entitled senv0 te y →
  canonical (sanitizeName y) ∧ sanitizeName y ≠ "root".
Proof.
  intros Hm Hst (id & s1 & Hid & Hs1 & Hl) Hy. assert (s_store s1 = m) as Hm1 by by destruct Hs1 as [-> | ->].
  rewrite Hm1 in Hl. apply (alice_only m _ id te Hm Hid) in Hl as ->.
  destruct Hy as [Hy|[_ (k & e & He & _)]]; [|done]. apply list_elem_of_singleton in Hy as ->.
  by split; [split|]; vm_compute.
Qed.

Lemma no_policy_token te m n : m !! policy_key n = None → put_token te m !! policy_key n = None.
Proof. intros Hm. unfold put_token. by rewrite lookup_insert_ne. Qed.
Lemma no_policy_rule r m n : m !! policy_key n = None → put_rule r m !! policy_key n = None.
Proof. intros Hm. unfold put_rule. by rewrite lookup_insert_ne. Qed.

Lemma request_mediated_witness :
  w_routed (s_core (served open_server)) ≠ w_routed (s_core open_server) ∧
  mediated senv0 conf0 Token.RootNamespace read_secret open_server (s_audit (served open_server)).
Proof.
  assert (w_routed (s_core (served open_server)) ≠ w_routed (s_core open_server)) as Hne by by vm_compute.
  split; [done|].
  destruct (request_mediated senv0 conf0 (mkCtx None) Token.RootNamespace read_secret open_server) as [Heq|Hm].
  - apply no_policies_coherent. intros n. by apply no_policy_token.
  - done.
  - intros te y Ht Hy. eapply alice_canonical; [..|exact Ht|exact Hy]; vm_compute; reflexivity.
  - by destruct Hne.
  - exact Hm.
Defined.

Lemma guarded_path_witness :
  w_routed (s_core (served guarded_server)) = [] ∧ w_leases (s_core (served guarded_server)) = [].
Proof.
  apply (guarded_path_held senv0 conf0 (mkCtx None) Token.RootNamespace read_secret "s" rule_secret guarded_server).
  - apply no_policies_coherent. intros n. by apply no_policy_rule, no_policy_token.
  - apply reliable0.
  - done.
  - done.
  - done.
  - done.
  - split; [by apply plain_check| |vm_compute; reflexivity].
    exists (enc_rule rule_secret). split; vm_compute; reflexivity.
  - intros te y Ht Hy. eapply alice_canonical; [..|exact Ht|exact Hy]; vm_compute; reflexivity.
Defined.
