(* ===== verification/LeaseFacts.v ===== *)
(** * Leases

    The bounds on the time to live of a lease, that a secret handed out by
    the normal path is registered with the expiration manager, and that one
    handed out by the approval workflow is not. *)

From S2P Require Import Prelude GoLib Storage Core Lease ApprovalTypes ApprovalCore ApprovalHandlers RequestHandling CoreLogic Effects Scenario.

(** ** The time to live *)

(** The times to live a mount is configured with. *)
Definition sane_view (sv : SystemView) : Prop :=
  0 < DefaultLeaseTTL sv < 2 ^ 63 ∧ 0 < MaxLeaseTTL sv < 2 ^ 63.

Lemma effective_max_bounds sv bmax emax :
  sane_view sv → 0 < effective_max sv bmax emax ≤ MaxLeaseTTL sv ∧
  (0 < bmax → effective_max sv bmax emax ≤ bmax) ∧ (0 < emax → effective_max sv bmax emax ≤ emax).
Proof.
  intros [_ Hm]. unfold effective_max.
  destruct (Z.ltb_spec 0 bmax), (Z.ltb_spec bmax (MaxLeaseTTL sv)); simpl;
    repeat match goal with |- context [?a <? ?b] => destruct (Z.ltb_spec a b); simpl end; lia.
Qed.

Lemma wrap64_sub a b : 0 < a < 2 ^ 63 → 0 < b < 2 ^ 63 → wrap64 (a - b) = a - b.
Proof. intros Ha Hb. unfold wrap64. rewrite Z.mod_small; lia. Qed.

Lemma Truncate_mono t u : 0 ≤ t ≤ u → 0 ≤ Truncate t Second ≤ Truncate u Second.
Proof.
  intros Htu. unfold Truncate. rewrite !Z.mod_eq by done. unfold Second.
  pose proof (Z.div_le_mono t u 1000000000 ltac:(lia) ltac:(lia)).
  pose proof (Z.div_pos t 1000000000 ltac:(lia) ltac:(lia)). lia.
Qed.

(** The durations a caller may ask for. *)
Definition duration_ok (d : Z) : Prop := - 2 ^ 63 ≤ d < 2 ^ 63.

(** The instant a lease counts from. *)
Definition began (start now : Z) : Z :=
  if IsZero start then Truncate now Second else Truncate start Second.

(** The limit counted from there: none for a periodic lease without an
    explicit maximum. *)
Definition limit (period emax max : Z) : option Z :=
  if 0 <? period then if 0 <? emax then Some emax else None else Some max.

Lemma began_bounds start now : 0 ≤ start ≤ now → 0 ≤ began start now ≤ Truncate now Second.
Proof.
  intros Hs. unfold began. destruct (IsZero start); [|by apply Truncate_mono].
  destruct (Truncate_mono now now); lia.
Qed.

(** What is proposed is positive, and its end is that of the limit. *)
Lemma proposed_bounds sv inc bttl period emax max start :
  sane_view sv → Forall duration_ok [inc; bttl; period; emax] → 0 < max < 2 ^ 63 →
  let '(ttl, _, until) := proposed_ttl sv inc bttl period emax max start in
  0 < ttl < 2 ^ 63 ∧ (0 < period → ttl ≤ max) ∧
  until = from_option (Z.add start) 0 (limit period emax max).
Proof.
  intros [Hd _] Hok Hm. unfold proposed_ttl, limit.
  rewrite !Forall_cons in Hok. destruct Hok as (Hi & Hb & Hp & He & _). unfold duration_ok in *.
  destruct (Z.ltb_spec 0 period); [|destruct (Z.ltb_spec 0 inc); [|destruct (Z.ltb_spec 0 bttl)]].
  - destruct (Z.ltb_spec max period); (split_and!; [lia..|by destruct (0 <? emax)]).
  - split_and!; [lia..|done].
  - split_and!; [lia..|done].
  - split_and!; [lia..|done].
Qed.

Lemma CalculateTTL_bounds sv inc bttl period bmax emax start now :
  sane_view sv → Forall duration_ok [inc; bttl; period; emax] → 0 ≤ start ≤ now →
  let max := effective_max sv bmax emax in
  match CalculateTTL sv inc bttl period bmax emax start now with
  | Ok (ttl, _) =>
      0 < ttl ≤ max ∧ max ≤ MaxLeaseTTL sv ∧
      ∀ l, limit period emax max = Some l → Truncate now Second + ttl ≤ began start now + l
  | Err _ => ∃ l, limit period emax max = Some l ∧ began start now + l ≤ Truncate now Second
  end.
Proof.
  intros Hsv Hok Hs max. destruct (effective_max_bounds sv bmax emax Hsv) as (Hmax & _ & Hemax).
  fold max in Hmax, Hemax. pose proof Hsv as [_ Hm]. pose proof (began_bounds start now Hs) as Hb.
  pose proof (proposed_bounds sv inc bttl period emax max (began start now) Hsv Hok ltac:(lia)) as Hp.
  unfold CalculateTTL. cbv zeta. fold (began start now). fold max.
  destruct (Z.leb_spec max 0); [lia|].
  destruct (proposed_ttl _ _ _ _ _ _ _) as [[ttl ws] until]. destruct Hp as (Ht & Hper & ->).
  assert (∀ l, limit period emax max = Some l → 0 < l < 2 ^ 63 ∧ (period ≤ 0 → l = max)) as Hl.
  { intros l. unfold limit. rewrite !Forall_cons in Hok. destruct Hok as (_ & _ & _ & He & _).
    unfold duration_ok in He.
    destruct (Z.ltb_spec 0 period), (Z.ltb_spec 0 emax); intros [= <-]; lia. }
  destruct (limit period emax max) as [l|] eqn:Hlim; simpl.
  2: { split_and!; [lia| |lia|done]. apply Hper. unfold limit in Hlim.
       destruct (Z.ltb_spec 0 period); [lia|done]. }
  destruct (Hl _ eq_refl) as [Hl0 Hlp]. unfold IsZero at 1.
  destruct (Z.eqb_spec (began start now + l) 0); [lia|].
  unfold time_Sub. destruct (Z.leb_spec (Z.max (-2 ^ 63) (Z.min (2 ^ 63 - 1)
    (began start now + l - Truncate now Second))) 0); [exists l; split; [done|lia]|].
  rewrite wrap64_sub by lia.
  destruct (Z.ltb_spec (Z.max (-2 ^ 63) (Z.min (2 ^ 63 - 1)
    (began start now + l - Truncate now Second)) - ttl) 0);
    (split_and!; [lia|lia|lia|intros ? [= <-]; lia]).
Qed.

(** A lease's time to live is positive, never exceeds the strictest of the
    maxima of the mount, the backend and the caller, and never lets the lease
    run past its limit counted from its start; the calculation fails only
    when that limit has passed. *)
Theorem CalculateTTL_bounded sv inc bttl period bmax emax start now :
  sane_view sv → Forall duration_ok [inc; bttl; period; emax] → 0 ≤ start ≤ now →
  let max := effective_max sv bmax emax in
  match CalculateTTL sv inc bttl period bmax emax start now with
  | Ok (ttl, _) =>
      0 < ttl ≤ max ∧ max ≤ MaxLeaseTTL sv ∧
      ∀ l, limit period emax max = Some l → Truncate now Second + ttl ≤ began start now + l
  | Err _ => ∃ l, limit period emax max = Some l ∧ began start now + l ≤ Truncate now Second
  end.
Proof. apply CalculateTTL_bounds. Qed.

Lemma CalculateTTL_witness :
  let max := effective_max (mkSysView (1 * Hour) (24 * Hour)) 0 (2 * Hour) in
  match CalculateTTL (mkSysView (1 * Hour) (24 * Hour)) 0 (3 * Hour) 0 0 (2 * Hour)
          (t2025 - Hour) t2025 with
  | Ok (ttl, _) =>
      0 < ttl ≤ max ∧ max ≤ 24 * Hour ∧
      ∀ l, limit 0 (2 * Hour) max = Some l →
        Truncate t2025 Second + ttl ≤ began (t2025 - Hour) t2025 + l
  | Err _ => ∃ l, limit 0 (2 * Hour) max = Some l ∧
               began (t2025 - Hour) t2025 + l ≤ Truncate t2025 Second
  end.
Proof.
  apply (CalculateTTL_bounded (mkSysView (1 * Hour) (24 * Hour)) 0 (3 * Hour) 0 0 (2 * Hour)
           (t2025 - Hour) t2025).
  - split; vm_compute; split; congruence.
  - repeat constructor; vm_compute; congruence.
  - vm_compute. split; congruence.
Defined.

(** ** Registration *)

Section registration.
Context `{GoTables} `{RadixTree} (env : Env).

Lemma wp_mount path Q w :
  (∀ w', ro w w' → Q (env_mount env (w_tick w) path) w') →
  wp env (trigger (MatchingMountEntry path)) Q w.
Proof. intros HQ. by apply wp_trigger, HQ. Qed.

Lemma wp_sysview path Q w :
  (∀ w', ro w w' → Q (env_sysview env (w_tick w) path) w') →
  wp env (trigger (MatchingSystemView path)) Q w.
Proof. intros HQ. by apply wp_trigger, HQ. Qed.

(** The registration records the lease exactly when it succeeds. *)
Lemma wp_register req s Q w :
  (∀ id w', w_leases w' = (req, s) :: w_leases w → Q (Ok id) w') →
  (∀ err w', w_leases w' = w_leases w → Q (Err err) w') →
  wp env (trigger (Register req s)) Q w.
Proof.
  intros Hok Herr. apply wp_trigger. simpl.
  destruct (env_register env (w_tick w) req s) as [id|err]; [by apply Hok|by apply Herr].
Qed.

(** A mount whose secrets have leases, with sane times to live. *)
Record leasing (path : string) : Prop := {
  ls_mount : ∀ n m, env_mount env n path = Some m → me_Type m ∉ ["kv"; "generic"; "plugin"];
  ls_view : ∀ n sv, env_sysview env n path = Some sv → sane_view sv;
  ls_clock : ∀ n, 0 ≤ env_clock env n;
  ls_path : renew_path path = false;
}.

(** The lease of a secret: registered last, with the secret's time to live,
    which the mount's maximum bounds. *)
Definition leased (req : Request) (s : Secret) (w w' : World) : Prop :=
  ∃ s0 n sv, w_leases w' = (req, s0) :: w_leases w ∧ s = set_LeaseID (LeaseID s) s0 ∧
    env_sysview env n (req_Path req) = Some sv ∧ 0 < TTL s ≤ MaxLeaseTTL sv.

Lemma wp_register_secret req resp s w :
  leasing (req_Path req) → Forall duration_ok [TTL s; MaxTTL s] →
  wp env (register_secret req resp s) (λ a w',
    a.2 = None → ∃ r s', a.1 = Some r ∧ resp_Secret r = Some s' ∧ leased req s' w w') w.
Proof.
  intros Hl Hok. unfold register_secret. destruct (IsSnapshotReadOrList req); [by apply wp_ret|].
  apply wp_bind, wp_sysview. intros w1 H1.
  destruct (env_sysview env (w_tick w) (req_Path req)) as [sv|] eqn:Hsv; [|by apply wp_ret].
  apply wp_bind, wp_now. intros w2 H2. set (now := env_clock env (w_tick w1)).
  pose proof (CalculateTTL_bounds sv 0 (TTL s) 0 (MaxTTL s) 0 0 now) as Hb.
  destruct (CalculateTTL _ _ _ _ _ _ _ _) as [[ttl ws]|err]; [|by apply wp_ret].
  apply wp_bind, wp_register; [|by intros; apply wp_ret].
  intros id w3 H3. apply wp_ret. intros _. do 2 eexists. split_and!; [done..|].
  eexists (set_TTL ttl s), _, sv. split; [|split; [done|split; [exact Hsv|]]].
  - by rewrite H3, (ro_leases _ _ H2), (ro_leases _ _ H1).
  - rewrite !Forall_cons in Hok. destruct Hok as (Ht & Hm & _). cbn.
    destruct Hb as (Hb & Hb' & _); [by eapply ls_view| |split; [done|apply (ls_clock _ Hl)]|lia].
    repeat constructor; unfold duration_ok in *; lia.
Qed.

(** The normal path hands out no secret without a lease: when a request to
    a mount that leases its secrets is routed and a secret comes back without
    an error, the secret has been registered with the expiration manager, with
    a positive time to live within the mount's maximum. *)
Theorem routed_secret_is_leased entry req resp w :
  leasing (req_Path req) →
  (∀ n br s, env_backend env n req = (Some br, None) → resp_Secret br = Some s →
     Forall duration_ok [TTL s; MaxTTL s]) →
  let r := exec env (route_request entry req) w in
  r.1 = (Some resp, None) → ∀ s, resp_Secret resp = Some s → leased req s w r.2.
Proof.
  intros Hl Hok.
  enough (wp env (route_request entry req) (λ a w', a = (Some resp, None) →
    ∀ s, resp_Secret resp = Some s → leased req s w w') w) as Hwp by exact Hwp.
  apply wp_bind, wp_route. intros w1 H1.
  destruct (env_backend env (w_tick w) req) as [[br|] rerr] eqn:Hb; [|by apply wp_ret].
  cbv zeta. set (resp1 := match entry with Some e => set_MountType (me_Type e) br | None => br end).
  assert (resp_Secret (wrap_response req resp1) = resp_Secret br) as Hsec.
  { unfold wrap_response. destruct (match req_WrapInfo req with Some _ => _ | None => _ end).
    by subst resp1; destruct entry. }
  assert (rerr = None → ∀ s, resp_Secret br = Some s → Forall duration_ok [TTL s; MaxTTL s]) as Hok'.
  { intros -> s. by eapply Hok. }
  clear Hb. generalize dependent (wrap_response req resp1). intros resp2 Hsec.
  apply wp_bind. unfold handle_secret. rewrite Hsec.
  destruct (resp_Secret br) as [s|] eqn:Hs.
  2: { apply wp_ret, wp_ret. intros [= <- ->]. congruence. }
  rewrite (ls_path _ Hl). apply wp_bind, wp_mount. intros w2 H2.
  destruct (env_mount env (w_tick w1) (req_Path req)) as [m|] eqn:Hm; [|by apply wp_ret, wp_ret].
  apply (ls_mount _ Hl) in Hm. unfold registers_lease.
  assert (me_Type m ≠ "kv" ∧ me_Type m ≠ "generic" ∧ me_Type m ≠ "plugin") as (Hkv & Hge & Hpl).
  { split_and!; intros Heq; apply Hm; rewrite Heq; by apply (bool_decide_unpack _). }
  rewrite !bool_decide_eq_false_2 by done. cbn [orb]. rewrite decide_False by done.
  apply wp_ret. destruct rerr as [e|].
  { apply (wp_mono _ _ (λ _ _, True)); [|done]. intros [a [err|]] w3 _; by intros [=]. }
  eapply wp_mono; [|by apply wp_register_secret; auto].
  intros [a [err|]] w3 Hreg; [by intros [=]|]. intros [= ->] s' Hs'.
  destruct (Hreg eq_refl) as (r & s1 & [= ->] & Hs1 & s0 & n & sv & Hls & Hrest).
  assert (s1 = s') as -> by congruence. exists s0, n, sv. split; [|done].
  by rewrite Hls, (ro_leases _ _ H2), (ro_leases _ _ H1).
Qed.
End registration.

(** C30: the approval workflow registers no lease: whatever the environment, an
    approve call leaves the leases as they were, also when it executes the
    parked request and stores the secret that the backend returned. *)
Theorem approved_secret_has_no_lease `{GoTables} `{RadixTree} env c id req w :
  w_leases (exec env (handleApprovalApprove c id req) w).2 = w_leases w.
Proof. apply no_lease_keeps, ob_approve_any. Qed.

(** The times to live asked for, and their shortest: 0 when there is none. *)
Definition asked (req : Request) (resp : Response) : list Z :=
  filter (λ t, 0 < t) (from_option (λ w, [wi_TTL w]) [] (resp_WrapInfo resp) ++
                       from_option (λ w, [rw_TTL w]) [] (req_WrapInfo req)).

Definition shortest (l : list Z) : Z := match l with [] => 0 | t :: l => foldr Z.min t l end.

Lemma wrap_format (f rf : string) :
  (if negb (bool_decide (rf = "")) && bool_decide (f = "") then rf else f) =
  match f with EmptyString => rf | _ => f end.
Proof. by destruct f, rf. Qed.

Lemma filter_pos (t : Z) l :
  filter (λ t, 0 < t) (t :: l) = if 0 <? t then t :: filter (λ t, 0 < t) l else filter (λ t, 0 < t) l.
Proof.
  rewrite filter_cons. destruct (Z.ltb_spec 0 t); [by rewrite decide_True|by rewrite decide_False by lia].
Qed.

Lemma shortest_one t : (if 0 <? t then t else 0) = shortest (filter (λ t, 0 < t) [t]).
Proof. rewrite filter_pos. by destruct (0 <? t). Qed.

Lemma shortest_two t rt :
  (if 0 <? rt then
     if (if 0 <? t then t else 0) =? 0 then rt
     else if rt <? (if 0 <? t then t else 0) then rt else if 0 <? t then t else 0
   else if 0 <? t then t else 0) = shortest (filter (λ t, 0 < t) [t; rt]).
Proof.
  rewrite !filter_pos. destruct (Z.ltb_spec 0 t), (Z.ltb_spec 0 rt); cbn -[Z.ltb Z.eqb]; try done.
  destruct (Z.eqb_spec t 0), (Z.ltb_spec rt t); lia.
Qed.

Lemma wrapped_if {A} (a b : A) l :
  (if 0 <? shortest (filter (λ t, 0 < t) l) then a else b) =
  if decide (filter (λ t, 0 < t) l = []) then b else a.
Proof.
  assert (∀ t, t ∈ filter (λ t, 0 < t) l → 0 < t) as Hpos by by intros t [? _]%list_elem_of_filter.
  destruct (filter _ l) as [|t l']; [done|]. rewrite decide_False by done.
  assert (0 < shortest (t :: l')) as Hs; [|by apply Z.ltb_lt in Hs as ->].
  assert (0 < t) by (apply Hpos; by left). simpl.
  assert (∀ u, u ∈ l' → 0 < u) as Hpos' by (intros u Hu; apply Hpos; by right). clear Hpos.
  induction l' as [|u l' IH]; simpl; [done|]. apply Z.min_glb_lt; [apply Hpos'; by left|].
  apply IH. intros v Hv. apply Hpos'. by right.
Qed.

(** A response is wrapped exactly when the backend or the client asks for
    it, for the shortest of the times to live they ask for; the backend's
    format wins over the client's, and the rest of the response is kept. *)
Theorem wrap_response_shortest req resp :
  wrap_response req resp =
  mkResponse (resp_Data resp) (resp_Warnings resp) (resp_Secret resp)
    (if decide (asked req resp = []) then None
     else Some (mkRespWrap (shortest (asked req resp))
       (match from_option wi_Format "" (resp_WrapInfo resp) with
        | EmptyString => from_option rw_Format "" (req_WrapInfo req)
        | f => f
        end)
       (from_option wi_CreationPath "" (resp_WrapInfo resp))
       (from_option wi_SealWrap false (resp_WrapInfo resp))))
    (resp_MountType resp).
Proof.
  destruct resp as [d ws s [[t f p sw]|] mt], req as [? ? ? ? ? ? ? ? ? [[rt rf]|] ?];
    unfold wrap_response, set_WrapInfo, asked; cbn -[Z.ltb Z.eqb bool_decide decide filter shortest].
  - rewrite shortest_two, wrap_format, wrapped_if. by destruct f.
  - rewrite (shortest_one t), wrapped_if. by destruct f.
  - change (0 =? 0) with true. cbv iota. by rewrite (shortest_one rt), wrap_format, wrapped_if.
  - done.
Qed.

Lemma routed_secret_witness :
  let r := exec env0 (route_request None alice_read) world_pending in
  let resp := mkResponse (resp_Data db_response) [] (Some (mkSecret (1 * Hour) (24 * Hour) true
    "database/creds/readonly/lease-1")) None "" in
  r.1 = (Some resp, None) ∧
  ∀ s, resp_Secret resp = Some s → leased env0 alice_read s world_pending r.2.
Proof.
  intros r resp. assert (r.1 = (Some resp, None)) as Hr by (vm_compute; reflexivity).
  split; [exact Hr|].
  apply (routed_secret_is_leased env0 None alice_read resp world_pending); [| |exact Hr].
  - split.
    + intros n m [= <-]. by apply (bool_decide_unpack _).
    + intros n sv [= <-]. split; vm_compute; split; congruence.
    + intros n. simpl. unfold t2025, Hour, Minute, Second. lia.
    + reflexivity.
  - intros n br s [= <-] [= <-]. repeat constructor; vm_compute; congruence.
Defined.
