(* ===== verification/ApprovalAuthority.v ===== *)
(** * Who may do what

    Execution of a parked request requires a recorded decision by someone
    entitled to take it; a credential is handed to its requester only, once;
    for every environment: storage faults, clock and lookups are arbitrary. *)

From S2P Require Import Prelude GoLib Storage Core ApprovalTypes ApprovalCore ApprovalHandlers ApprovalPaths CoreLogic ApprovalLogic Effects Scenario.

Section authority.
Context `{GoTables} `{RadixTree} (env : Env) (c : Core).

Lemma wrote_routed err m w w' : wrote err m w w' → w_routed w' = w_routed w.
Proof. intros [Hs|[Hr _]]; [by apply (stored_routed m)|by destruct Hr]. Qed.

Lemma reconstructed_set_Status execID s p :
  reconstructed execID (set_Status s p) = reconstructed execID p.
Proof. done. Qed.
Lemma reconstructed_set_Approvals execID l p :
  reconstructed execID (set_Approvals l p) = reconstructed execID p.
Proof. done. Qed.

(** Either nothing reached a backend, or the parked request did, once. *)
Definition executed_at_most_once (p : PendingRequest) (w w' : World) : Prop :=
  w_routed w' = w_routed w ∨
  ∃ execID, w_routed w' = reconstructed execID p :: w_routed w.

Lemma wp_approve_execute_routed id p rule w :
  wp env (approve_execute c id p rule) (λ _ w', executed_at_most_once p w w') w.
Proof.
  unfold executed_at_most_once. apply wp_bind, wp_put_json. intros err w1 H1.
  apply wrote_routed in H1. destruct err as [err|]; [by apply wp_ret; left|].
  apply wp_bind, wp_get_entry. intros r w2 [_ H2 _ _] _ _.
  assert (wp env
    (r ← executeApprovedRequest c (set_Status "approved" p);
     match r with
     | (Some err, pending) =>
         let pending := set_Status "pending" pending in
         let pending := set_Approvals
           (take (length (Approvals pending) - 1) (Approvals pending)) pending in
         _ ← storePendingRequest c pending;
         Ret (go_err (ErrWrap "approval execution failed" err))
     | (None, pending) => Ret (approve_response id pending rule true)
     end) (λ _ w', executed_at_most_once p w w') w2) as Hexec.
  { apply wp_bind. apply wp_execute.
    - intros err w3 [_ H3 _ _]. apply wp_bind, wp_put_json. intros err' w4 H4.
      apply wrote_routed in H4. apply wp_ret. left. congruence.
    - intros execID err w3 [_ H3 _ _]. apply wp_bind, wp_put_json. intros err' w4 H4.
      apply wrote_routed in H4. apply wp_ret. right. exists execID.
      rewrite reconstructed_set_Status in H3. simpl in *. congruence.
    - intros execID n resp now err w3 _ p' Hw. apply wrote_routed in Hw.
      rewrite reconstructed_set_Status in Hw. simpl in Hw.
      destruct err as [err|].
      + apply wp_bind, wp_put_json. intros err' w4 H4.
        apply wrote_routed in H4. apply wp_ret. right. exists execID. congruence.
      + apply wp_ret. right. exists execID. congruence. }
  destruct r as [[p'|]|err]; [|exact Hexec|by apply wp_ret; left; congruence].
  destruct p' as [? ? ? ? ? ? ? ? ? ? ? ? ? [cred|] ? ? ? ?]; [|exact Hexec].
  apply wp_ret. left. congruence.
Qed.

(** C1: approve hands a request to a backend only when the caller was
    entitled to the deciding vote. If the approve handler routes anything
    at all then: the stored request was pending and unexpired, its rule
    exists, the caller holds a root token or is an authorised approver of
    that rule, is not the requester unless the rule allows it (or the
    caller is root, or has no entity), has not voted before, and the vote
    meets the rule's threshold; and exactly one request was routed, the
    one that was parked. *)
Theorem approve_executes_only_if_authorised id req w :
  let w' := (exec env (handleApprovalApprove c id req) w).2 in
  w_routed w' ≠ w_routed w →
  ∃ p rule execID,
    decidable_request env (w_store w) id p rule ∧
    may_vote env req p rule ∧
    ApprovalsRequired rule ≤ len (Approvals p) + 1 ∧
    w_routed w' = reconstructed execID p :: w_routed w.
Proof.
  enough (wp env (handleApprovalApprove c id req) (λ _ w',
    w_routed w' ≠ w_routed w → ∃ p rule execID,
      decidable_request env (w_store w) id p rule ∧ may_vote env req p rule ∧
      ApprovalsRequired rule ≤ len (Approvals p) + 1 ∧
      w_routed w' = reconstructed execID p :: w_routed w) w) as Hwp by exact Hwp.
  apply wp_bind, wp_pending_guards.
  2: { intros resp w1 [_ H1 _ _]. by apply wp_ret. }
  2: { intros p resp err w1 _ _ H1. apply wrote_routed in H1. by apply wp_ret. }
  intros p rule w1 H1 Hdr. apply wp_bind, wp_approve_denied.
  2: { intros resp w2 [_ H2 _ _]. apply wp_ret. destruct H1. congruence. }
  intros w2 H2 Hmv. apply wp_bind, wp_now. intros w3 H3.
  assert (w_routed w3 = w_routed w) as Hr3
    by (destruct H1, H2, H3; congruence).
  cbv zeta. destruct (ApprovalsRequired rule <=? _) eqn:Hthr.
  - eapply wp_mono; [|apply wp_approve_execute_routed].
    intros _ w4 [Hr|[execID Hr]]; [congruence|]. intros _.
    exists p, rule, execID. split_and!; [done..| |].
    + apply Z.leb_le in Hthr. unfold len in *. simpl in Hthr.
      rewrite length_app in Hthr. simpl in Hthr. lia.
    + rewrite reconstructed_set_Approvals in Hr. congruence.
  - apply wp_bind, wp_put_json. intros err w4 H4. apply wrote_routed in H4.
    apply wp_ret. congruence.
Qed.

(** C13: no endpoint but approve reaches a backend or registers a lease: for
    every other path and every operation, fields and caller, in every
    environment. *)
Theorem only_approve_executes path op f req w :
  (∀ id, approval_endpoint path ≠ Some (EApprove id)) →
  let w' := (exec env (handle_approvals c path op f req) w).2 in
  w_routed w' = w_routed w ∧ w_leases w' = w_leases w.
Proof.
  intros Hp. apply no_route_keeps. unfold handle_approvals.
  destruct (approval_endpoint path) as [e|]; [|done].
  destruct (callback c e op f req) as [h|] eqn:Hc; [|done].
  eapply ob_not_approve; [|exact Hc]. intros id ->. by apply (Hp id).
Qed.

(** ** Fetch *)

(** The caller owns the request: its entity is the requester's, or the
    request has no entity and the caller holds a root token. *)
Definition owns (req : Request) (p : PendingRequest) : Prop :=
  (RequesterEntityID p ≠ "" ∧ req_EntityID req = RequesterEntityID p) ∨
  (RequesterEntityID p = "" ∧ root_token env req).

Definition window_expired_msg (id : string) : Response :=
  ErrorResponse "credential for request %q has expired (90-minute retrieval window passed)"
    [VStr id].

Definition credential_response (id : string) (cred : gmap string value) (p : PendingRequest)
    : Response :=
  mkResponse (credential_data id cred (SecretTTL p) (SecretMaxTTL p)) [] None None "".

(** The entry of [id] is untouched unless the caller owns it. *)
Lemma wp_fetch id req Q w :
  (∀ r w', ro w w' → is_Some r.2 → Q r w') →
  (∀ r w', ro w w' → w_store w !! akey ("pending/" +:+ id) = None → Q r w') →
  (∀ p w', ro w w' → (w_tick w ≤ w_tick w')%nat → pending_at (w_store w) id p → owns req p →
     wp env (if decide (Status p = "pending") then fetch_pending c id req p
             else if decide (Status p = "denied") then
               Ret (ok_resp [("status", VStr "denied"); ("request_id", VStr id)])
             else if decide (Status p = "approved") then fetch_approved c id p
             else Ret (err_resp "unknown status for request %q" [VStr id])) Q w') →
  wp env (handleApprovalFetch c id req) Q w.
Proof.
  intros Herr Hnone Hown. apply wp_bind, wp_tick, wp_get_entry. intros r w1 H1 Hp Hn Ht1.
  destruct r as [[p|]|err]; [|by apply wp_ret, Hnone; auto|by apply wp_ret, Herr].
  specialize (Hp _ eq_refl).
  assert (∀ b w2, ro w w2 → (w_tick w ≤ w_tick w2)%nat → (b = true → owns req p) →
    wp env (if negb b then Ret (go_err ErrPermissionDenied)
            else if decide (Status p = "pending") then fetch_pending c id req p
            else if decide (Status p = "denied") then
              Ret (ok_resp [("status", VStr "denied"); ("request_id", VStr id)])
            else if decide (Status p = "approved") then fetch_approved c id p
            else Ret (err_resp "unknown status for request %q" [VStr id])) Q w2) as Hgo.
  { intros [] w2 H2 Ht2 Ho; csimplb; [by apply Hown; auto|by apply wp_ret, Herr]. }
  apply wp_bind. destruct (decide (RequesterEntityID p = "")) as [Hent|Hent].
  - apply wp_tick, wp_callerIsRoot. intros b w2 H2 Hroot Ht2. apply Hgo; [by etrans|lia|].
    intros Hb. right. auto.
  - apply wp_ret, Hgo; [done..|]. intros Hb. left. split; [done|].
    by apply bool_decide_eq_true in Hb.
Qed.

(** C11: only its owner learns anything of a request by fetching it: if the
    entry exists and the fetch returns without an error, the caller is the
    requester, or a root token for a request that has no entity. *)
Theorem fetch_only_owner id req w p :
  pending_at (w_store w) id p →
  (exec env (handleApprovalFetch c id req) w).1.2 = None →
  owns req p.
Proof.
  intros Hp. enough (wp env (handleApprovalFetch c id req)
    (λ r _, r.2 = None → owns req p) w) as Hwp by exact Hwp.
  apply wp_fetch.
  - intros r w' _ [e ->]. done.
  - intros r w' _ Hn. destruct Hp as (v & Hv & _). congruence.
  - intros p' w' _ _ Hp' Ho. pose proof (entry_at_fun _ _ _ _ _ Hp Hp') as <-.
    by unfold wp.
Qed.

Lemma fetch_keys_differ id id' : akey ("history/" +:+ id) ≠ akey ("pending/" +:+ id').
Proof. done. Qed.

(** A reading of the clock between [w] and [w'] at which [P] holds. *)
Definition reading (w w' : World) (P : Z → Prop) : Prop :=
  ∃ n, (w_tick w ≤ n < w_tick w')%nat ∧ P (env_clock env n).

(** The retrieval window had not passed, or had, when the clock was read. *)
Definition in_window (p : PendingRequest) (w w' : World) : Prop :=
  ApprovedAt p = 0 ∨
  reading w w' (λ now, time_Sub now (ApprovedAt p) ≤ approvalCredentialTTL).
Definition window_passed (p : PendingRequest) (w w' : World) : Prop :=
  ApprovedAt p ≠ 0 ∧ reading w w' (λ now, approvalCredentialTTL < time_Sub now (ApprovedAt p)).

(** The credential is the answer, and its entry is gone. *)
Definition burnt (id : string) (cred : gmap string value) (p : PendingRequest)
    (r : Resp) (w' : World) : Prop :=
  r.1 = Some (credential_response id cred p) ∧
  w_store w' !! akey ("pending/" +:+ id) = None.

Lemma wp_fetch_burn id p cred w :
  wp env (fetch_burn c id p cred) (λ r w', r.2 = None → burnt id cred p r w') w.
Proof.
  apply wp_bind, wp_put_json. intros _ w3 _.
  apply wp_bind, wp_Delete. intros err w4 Hdel.
  destruct err as [err|]; [by apply wp_ret|].
  destruct Hdel as [Hdel|[_ [? [=]]]]. apply stored_store in Hdel.
  apply wp_bind, wp_last_approver. intros by_ w5 H5.
  apply wp_bind, wp_now. intros w6 H6.
  apply wp_bind, wp_put_json. intros err w7 H7. apply wp_ret. intros _.
  split; [done|].
  assert (w_store w6 !! akey ("pending/" +:+ id) = None) as H6n.
  { rewrite (ro_store _ _ H6), (ro_store _ _ H5), Hdel. apply lookup_delete_eq. }
  destruct H7 as [H7|[H7 _]].
  - rewrite (stored_store _ _ _ H7). by rewrite lookup_insert_ne by apply fetch_keys_differ.
  - by rewrite (ro_store _ _ H7).
Qed.

Lemma wp_fetch_window_expired id p w :
  wp env (fetch_window_expired c id p) (λ r _, r.1 = Some (window_expired_msg id)) w.
Proof.
  apply wp_bind, wp_drop_pending. intros err w3 _.
  apply wp_bind, wp_last_approver. intros by_ w4 _.
  apply wp_bind, wp_now. intros w5 _.
  apply wp_bind, wp_put_json. intros err' w6 _. by apply wp_ret.
Qed.

(** C12: the credential is burnt before it is released.  When a fetch of an
    approved request that holds a credential returns without an error, then
    either the answer is that the credential has expired, and the retrieval
    window had passed when the fetch read the clock; or the answer is the
    credential, the window had not passed then (or the time of the approval
    is not known), and the stored entry is gone: a later fetch cannot find
    it. *)
Theorem fetch_burns_credential id req w p cred :
  pending_at (w_store w) id p → Status p = "approved" → CredentialData p = Some cred →
  let r := exec env (handleApprovalFetch c id req) w in
  r.1.2 = None →
  (r.1.1 = Some (window_expired_msg id) ∧ window_passed p w r.2) ∨
  (burnt id cred p r.1 r.2 ∧ in_window p w r.2).
Proof.
  intros Hp Hst Hcred. enough (wp env (handleApprovalFetch c id req) (λ r w', r.2 = None →
    r.1 = Some (window_expired_msg id) ∧ window_passed p w w' ∨
    burnt id cred p r w' ∧ in_window p w w') w) as Hwp by exact Hwp.
  apply wp_fetch.
  { by intros r w' _ [e ->]. }
  { intros r w' _ Hn. destruct Hp as (v & Hv & _). congruence. }
  intros p' w1 _ Ht1 Hp' Ho. pose proof (entry_at_fun _ _ _ _ _ Hp Hp') as <-.
  rewrite !decide_False, decide_True by (by rewrite Hst).
  unfold fetch_approved. rewrite Hcred. apply wp_bind. unfold IsZero.
  destruct (Z.eqb_spec (ApprovedAt p) 0) as [Hz|Hz].
  { apply wp_ret. eapply wp_mono; [|apply wp_fetch_burn]. intros r w' Hb Hr. right. split; [auto|by left]. }
  apply wp_bind, wp_time_Since_tick. intros w2 Ht2. apply wp_ret.
  destruct (Z.ltb_spec approvalCredentialTTL (time_Sub (env_clock env (w_tick w1)) (ApprovedAt p))) as [Hw|Hw];
    apply wp_tick; (eapply wp_mono; [|first [apply wp_fetch_window_expired|apply wp_fetch_burn]]);
    intros r w' Hb Ht' Hr.
  - left. split; [done|]. split; [done|]. exists (w_tick w1). split; [lia|done].
  - right. split; [auto|]. right. exists (w_tick w1). split; [lia|done].
Qed.

(** ** Deny *)

(** The caller may decide on requests under the rule, or withdraw its own. *)
Definition may_deny (req : Request) (p : PendingRequest) (rule : ApprovalRule) : Prop :=
  root_token env req ∨ (req_EntityID req ≠ "" ∧ req_EntityID req = RequesterEntityID p) ∨
  approvalEntityIsAuthorized (req_EntityID req) (AuthorizedApprovers rule) = true.

Definition denied_response (id : string) : Response :=
  data_response [("status", VStr "denied"); ("request_id", VStr id)].

(** C37: a request is denied only by someone entitled to it. If deny reports
    success, the stored request was pending and unexpired, and the caller
    holds a root token, is the requester itself (both with an entity), or is
    an authorised approver of its rule; the entry now stored is that request
    with the status denied. *)
Theorem deny_only_if_entitled id req w :
  let r := exec env (handleApprovalDeny c id req) w in
  r.1 = (Some (denied_response id), None) →
  ∃ p rule,
    decidable_request env (w_store w) id p rule ∧ may_deny req p rule ∧
    w_store r.2 !! akey ("pending/" +:+ RequestID p) =
      Some (Doc (enc_pending (set_Status "denied" p))).
Proof.
  enough (wp env (handleApprovalDeny c id req) (λ r w', r = (Some (denied_response id), None) →
    ∃ p rule, decidable_request env (w_store w) id p rule ∧ may_deny req p rule ∧
      w_store w' !! akey ("pending/" +:+ RequestID p) =
        Some (Doc (enc_pending (set_Status "denied" p)))) w) as Hwp by exact Hwp.
  assert (∀ resp : Resp, is_Some resp.2 ∨ (∃ text args, resp = err_resp text args) →
    resp ≠ (Some (denied_response id), None)) as Hno.
  { intros resp [[e He]|(text & args & ->)] Heq; [by rewrite Heq in He|].
    apply (f_equal (λ r : Resp, r.1 ≫= λ x, resp_Data x !! "status")) in Heq.
    vm_compute in Heq. discriminate Heq. }
  apply wp_bind, wp_pending_guards_why.
  { intros resp w1 Hresp. apply wp_ret. intros Heq. by apply Hno in Heq. }
  intros p rule w1 H1 Hdr. cbv zeta. apply wp_bind, wp_callerIsRoot. intros root w2 H2 Hroot.
  destruct (negb root && _ && _) eqn:Hden.
  { apply wp_ret. intros Heq. apply Hno in Heq; [done|]. left. by eexists. }
  assert (may_deny req p rule) as Hmay.
  { apply andb_false_iff in Hden as [[Hd|Hd]%andb_false_iff|Hd]; apply negb_false_iff in Hd.
    - left. auto.
    - apply andb_true_iff in Hd as [Hd1 Hd2]. right. left.
      by apply negb_true_iff, bool_decide_eq_false in Hd1; apply bool_decide_eq_true in Hd2.
    - by right; right. }
  apply wp_bind, wp_put_json. intros [err|] w3 H3.
  { apply wp_ret. intros Heq. apply Hno in Heq; [done|]. left. by eexists. }
  destruct H3 as [H3|[_ [? [=]]]]. apply stored_store in H3.
  apply wp_bind, wp_now. intros w4 H4. apply wp_bind, wp_entity_name. intros name w5 H5.
  apply wp_bind, wp_put_json. intros err w6 H6. apply wp_ret. intros _.
  exists p, rule. split_and!; [done..|].
  assert (w_store w5 !! akey ("pending/" +:+ RequestID p) =
    Some (Doc (enc_pending (set_Status "denied" p)))) as Hst.
  { rewrite (ro_store _ _ H5), (ro_store _ _ H4), H3. apply lookup_insert_eq. }
  destruct H6 as [H6|[H6 _]]; [|by rewrite (ro_store _ _ H6)].
  rewrite (stored_store _ _ _ H6). by rewrite lookup_insert_ne by apply fetch_keys_differ.
Qed.

(** ** Reading *)

(** A read of an existing request. *)
Lemma pending_read_authorised id req w p :
  pending_at (w_store w) id p →
  (exec env (handleApprovalPendingRead c id req) w).1.2 = None →
  root_token env req ∨ (req_EntityID req ≠ "" ∧ req_EntityID req = RequesterEntityID p) ∨
  ∃ rule, rule_at (w_store w) (p_RuleID p) rule ∧
    approvalEntityIsAuthorized (req_EntityID req) (AuthorizedApprovers rule) = true.
Proof.
  intros Hp. enough (wp env (handleApprovalPendingRead c id req) (λ r _, r.2 = None →
    root_token env req ∨ (req_EntityID req ≠ "" ∧ req_EntityID req = RequesterEntityID p) ∨
    ∃ rule, rule_at (w_store w) (p_RuleID p) rule ∧
      approvalEntityIsAuthorized (req_EntityID req) (AuthorizedApprovers rule) = true) w)
    as Hwp by exact Hwp.
  apply wp_bind, wp_get_entry. intros r w1 H1 Hr Hn.
  destruct r as [[p'|]|err]; [| |by apply wp_ret].
  2: { destruct Hp as (v & Hv & _). specialize (Hn eq_refl). congruence. }
  rewrite <-(entry_at_fun _ _ _ _ _ Hp (Hr _ eq_refl)) in *.
  apply wp_bind, wp_bind, wp_callerIsRoot. intros [] w2 H2 Hroot.
  { apply wp_ret. unfold wp. intros _. left. auto. }
  destruct (negb _ && _) eqn:Hown.
  { apply wp_ret. unfold wp. intros _. right. left. apply andb_true_iff in Hown as [Ho1 Ho2].
    by apply negb_true_iff, bool_decide_eq_false in Ho1; apply bool_decide_eq_true in Ho2. }
  apply wp_bind, wp_get_entry. intros r w3 H3 Hrule _. apply wp_ret.
  rewrite (ro_store _ _ H2), (ro_store _ _ H1) in Hrule.
  destruct r as [[rule|]|err]; [|by apply wp_ret..].
  destruct (approvalEntityIsAuthorized _ _) eqn:Ha; csimplb; [|by apply wp_ret].
  unfold wp. intros _. right. right. eauto.
Qed.

Lemma wp_root_or_approver req Q w :
  (∀ w', root_token env req ∨ (∃ id rule, rule_at (w_store w) id rule ∧
     approvalEntityIsAuthorized (req_EntityID req) (AuthorizedApprovers rule) = true) →
     Q None w') →
  (∀ r w', is_Some r.2 → Q (Some r) w') →
  wp env (root_or_approver c req) Q w.
Proof.
  intros Hgo Hstop. apply wp_bind, wp_callerIsRoot. intros [] w1 H1 Hroot.
  { apply wp_ret, Hgo. auto. }
  destruct (decide _); [apply wp_ret, Hstop; by eexists|].
  apply wp_bind, wp_List. intros [keys|err] w2 H2 _; [|apply wp_ret, Hstop; by eexists].
  apply wp_bind, wp_bind.
  apply (wp_range _ (λ _ w', ro w w')); [by etrans| |].
  - intros key [] w3 _ H3. apply wp_bind, wp_read_listed. intros [rule|] w4 H4 Hr.
    2: { apply wp_ret. by etrans. }
    specialize (Hr _ eq_refl). rewrite (ro_store _ _ H3) in Hr. apply wp_ret.
    destruct (approvalEntityIsAuthorized _ _) eqn:Ha; [|by etrans].
    apply wp_ret, wp_ret, Hgo. right. by exists key, rule.
  - intros [] w3 H3. apply wp_ret, wp_ret, Hstop. by eexists.
Qed.

(** The listings. *)
Lemma listings_authorised req w :
  let authorised := root_token env req ∨ ∃ id rule, rule_at (w_store w) id rule ∧
     approvalEntityIsAuthorized (req_EntityID req) (AuthorizedApprovers rule) = true in
  ((exec env (handleApprovalHistory c req) w).1.2 = None → authorised) ∧
  ((exec env (handleApprovalPendingList c req) w).1.2 = None → authorised).
Proof.
  intros authorised.
  enough (wp env (handleApprovalHistory c req) (λ r _, r.2 = None → authorised) w ∧
          wp env (handleApprovalPendingList c req) (λ r _, r.2 = None → authorised) w)
    as [H1 H2] by (split; [exact H1|exact H2]).
  split; apply wp_bind, wp_root_or_approver; try by unfold wp.
  - intros r w1 [e He]. apply wp_ret. by rewrite He.
  - intros r w1 [e He]. apply wp_ret. by rewrite He.
Qed.

(** What is known of requests is shown only to those it concerns: a read
    of a pending request that returns without an error was made with a root
    token, by its requester or by an approver of its rule; the cross-user
    history and the list of request identifiers are shown only to a root
    token and to approvers of some stored rule. *)
Theorem reads_authorised id req w :
  (∀ p, pending_at (w_store w) id p → (exec env (handleApprovalPendingRead c id req) w).1.2 = None →
     root_token env req ∨ (req_EntityID req ≠ "" ∧ req_EntityID req = RequesterEntityID p) ∨
     ∃ rule, rule_at (w_store w) (p_RuleID p) rule ∧
       approvalEntityIsAuthorized (req_EntityID req) (AuthorizedApprovers rule) = true) ∧
  ((exec env (handleApprovalHistory c req) w).1.2 = None ∨
   (exec env (handleApprovalPendingList c req) w).1.2 = None →
     root_token env req ∨ ∃ id rule, rule_at (w_store w) id rule ∧
       approvalEntityIsAuthorized (req_EntityID req) (AuthorizedApprovers rule) = true).
Proof.
  split; [intros p; apply pending_read_authorised|].
  destruct (listings_authorised req w) as [Hh Hl]. by intros [?|?]; [apply Hh|apply Hl].
Qed.
End authority.

(** ** Witnesses *)

Lemma approve_executes_witness :
  let w' := (exec env0 (handleApprovalApprove core0 rid bob_req) world_pending).2 in
  w_routed w' ≠ w_routed world_pending ∧
  ∃ p rule execID,
    decidable_request env0 (w_store world_pending) rid p rule ∧
    may_vote env0 bob_req p rule ∧
    ApprovalsRequired rule ≤ len (Approvals p) + 1 ∧
    w_routed w' = reconstructed execID p :: w_routed world_pending.
Proof.
  cbv zeta. split; [vm_compute; discriminate|].
  apply (approve_executes_only_if_authorised env0 core0 rid bob_req world_pending).
  vm_compute; discriminate.
Defined.

Lemma approved0_stored : pending_at (w_store world_approved) rid approved0.
Proof. exists (enc_pending approved0). split; vm_compute; reflexivity. Qed.

Lemma fetch_only_owner_witness : owns env0 alice_req approved0.
Proof.
  apply (fetch_only_owner env0 core0 rid alice_req world_approved approved0).
  - apply approved0_stored.
  - vm_compute. reflexivity.
Defined.

Lemma fetch_burns_witness :
  let r := exec env0 (handleApprovalFetch core0 rid alice_req) world_approved in
  (r.1.1 = Some (window_expired_msg rid) ∧ window_passed env0 approved0 world_approved r.2) ∨
  (burnt rid (resp_Data db_response) approved0 r.1 r.2 ∧ in_window env0 approved0 world_approved r.2).
Proof.
  apply (fetch_burns_credential env0 core0 rid alice_req world_approved approved0).
  - apply approved0_stored.
  - reflexivity.
  - reflexivity.
  - vm_compute. reflexivity.
Defined.

Lemma only_approve_executes_witness :
  let path := "approvals/fetch/" +:+ rid in
  let f := mkFields (mkRuleFields None None None None None None) "" in
  let w' := (exec env0 (handle_approvals core0 path ReadOperation f alice_req) world_approved).2 in
  w_routed w' = w_routed world_approved ∧ w_leases w' = w_leases world_approved.
Proof.
  apply (only_approve_executes env0 core0 ("approvals/fetch/" +:+ rid)).
  intros id. vm_compute. discriminate.
Defined.

Lemma deny_only_if_entitled_witness :
  let r := exec env0 (handleApprovalDeny core0 rid bob_req) world_pending in
  ∃ p rule,
    decidable_request env0 (w_store world_pending) rid p rule ∧ may_deny env0 bob_req p rule ∧
    w_store r.2 !! akey ("pending/" +:+ RequestID p) =
      Some (Doc (enc_pending (set_Status "denied" p))).
Proof.
  apply (deny_only_if_entitled env0 core0 rid bob_req world_pending). vm_compute. reflexivity.
Defined.

Lemma pending0_stored : pending_at (w_store world_pending) rid pending0.
Proof. exists (enc_pending pending0). split; vm_compute; reflexivity. Qed.

Lemma reads_authorised_witness :
  root_token env0 bob_req ∨ ∃ id rule, rule_at (w_store world_pending) id rule ∧
     approvalEntityIsAuthorized (req_EntityID bob_req) (AuthorizedApprovers rule) = true.
Proof.
  apply (proj2 (reads_authorised env0 core0 rid bob_req world_pending)). left. vm_compute. reflexivity.
Defined.
