(* ===== verification/ApprovalInvariant.v ===== *)
(** * What holds of the stored data under any interleaving

    Requests are served concurrently and storage has no transactions, so
    between any two effects of a handler other handlers may run. The
    invariant of this file holds of every stored rule and request whatever
    the interleaving, the faults and the callers. *)

From S2P Require Import Prelude GoLib Utf8 Storage Core Lease ApprovalTypes ApprovalCore ApprovalPure ApprovalHandlers ApprovalPaths RequestHandling ApprovalJson CoreLogic ApprovalLogic Effects Scenario.

(** ** The calls a server handles *)

(** A call below sys/approvals, or a client's request to a mounted backend. *)
Variant Call :=
| Api (path op : string) (f : Fields) (req : Request)
| Client (ctx : Ctx) (entry : option MountEntry) (req : Request) (auth : option Auth).

Definition serve `{GoTables} (c : Core) (x : Call) : handler Resp :=
  match x with
  | Api path op f req => handle_approvals c path op f req
  | Client ctx entry req auth => dispatch c ctx entry req auth
  end.

(** ** The invariant *)

Section invariant.
Context `{GoTables}.

(** A number of approvals below which no caller sets a rule; the handlers
    themselves see to it that a rule demands one. *)
Context (k : Z).
Definition quorum : Z := Z.max 1 k.

(** A well-formed request: its status is one of three; no entity has voted
    twice; approved means the bound was met; no blocked header was stored
    and the justification is sanitised. *)
Record wf_request (p : PendingRequest) : Prop := {
  wf_status : Status p ∈ ["pending"; "approved"; "denied"];
  wf_votes : NoDup (filter (λ s, s ≠ "") (ApproverEntityID <$> Approvals p));
  wf_ids : Forall (λ a, valid_utf8 (ApproverEntityID a) = ApproverEntityID a) (Approvals p);
  wf_threshold : Status p = "approved" → quorum ≤ len (Approvals p);
  wf_headers : clean_headers (OriginalHeaders p);
  wf_justification : safe_text (Justification p);
}.

(** A well-formed rule. *)
Record wf_rule (r : ApprovalRule) : Prop := {
  wf_required : quorum ≤ ApprovalsRequired r;
  wf_target : TargetMountPath r ≠ "";
  wf_approvers : AuthorizedApprovers r ≠ [];
  wf_slack : slack_url_ok (SlackWebhookURL r) = true;
  wf_slack_utf8 : valid_utf8 (SlackWebhookURL r) = SlackWebhookURL r;
}.

(** What may be stored under a key: an entry that decodes is well formed, and
    a request's entry is stored under its own identifier. *)
Record good (key : string) (b : blob) : Prop := {
  good_pending : ∀ id v p, key = akey ("pending/" +:+ id) → b = Doc v →
    dec_pending v = Ok p → RequestID p = valid_utf8 id ∧ wf_request p;
  good_rule : ∀ id v r, key = akey ("config/" +:+ id) → b = Doc v →
    dec_rule v = Ok r → wf_rule r;
}.

Definition Inv (w : World) : Prop := ∀ key b, w_store w !! key = Some b → good key b.

Definition inv_pre X (e : coreE X) : Prop :=
  match e with SPut key b => good key b | _ => True end.

Definition inv_post X (e : coreE X) : X → Prop :=
  match e with
  | SGet key => λ r, ∀ b, r = Ok (Some b) → good key b
  | _ => λ _, True
  end.

(** The callers' obligations: identifiers and the notification URL are valid
    UTF-8, as everything decoded from JSON is, and where the bound is more
    than one, no rule is written with fewer approvals than it. *)
Definition call_ok (x : Call) : Prop :=
  match x with
  | Api path _ f req =>
      valid_utf8 (req_EntityID req) = req_EntityID req ∧
      (∀ id, approval_endpoint path = Some (EConfig id) →
         k ≤ 1 ∨ ∃ n, f_approvals_required (rule_fields f) = Some n ∧ k ≤ n) ∧
      (∀ u, f_slack_webhook_url (rule_fields f) = Some u → valid_utf8 u = u)
  | Client _ _ _ _ => True
  end.

(** ** The invariant is kept by each effect *)

Lemma Inv_put `{RadixTree} size key b w :
  good key b → Inv w →
  Inv (set_phys (Inmem.PutInternal size key b (w_phys w)).2 (tick w)).
Proof.
  intros Hb Hw. unfold Inmem.PutInternal. repeat case_match; try done.
  intros key' b'. unfold w_store. simpl.
  intros [[<- <-]|[_ ?]]%lookup_insert_Some; [done|by apply Hw].
Qed.

Lemma Inv_delete `{RadixTree} key w :
  Inv w → Inv (set_phys (Inmem.DeleteInternal key (w_phys w)).2 (tick w)).
Proof.
  intros Hw. unfold Inmem.DeleteInternal. repeat case_match; try done.
  intros key' b'. unfold w_store. simpl.
  intros [_ ?]%lookup_delete_Some. by apply Hw.
Qed.

Lemma inv_sound `{RadixTree} env X (e : coreE X) w :
  inv_pre X e → Inv w →
  Inv (core_handle env X e w).2 ∧ inv_post X e (core_handle env X e w).1.
Proof.
  intros Hpre Hw. destruct e; simpl in *; try by split.
  - split; [done|]. intros b Hb. unfold Inmem.GetInternal in Hb.
    destruct (env_fault env _); [|done..].
    destruct (Inmem.failGet (w_phys w)); [done|]. injection Hb as Hb. by apply Hw.
  - split; [|done]. unfold write_result.
    destruct (env_fault env _); [by apply Inv_put|done|by apply Inv_put].
  - split; [|done]. unfold write_result.
    destruct (env_fault env _); [by apply Inv_delete|done|by apply Inv_delete].
  - by destruct (env_register env (w_tick w) req s).
Qed.

#[local] Instance inv_quiet : Quiet inv_pre.
Proof. by intros X []. Qed.
#[local] Instance inv_routes : Routes inv_pre.
Proof. done. Qed.
#[local] Instance inv_registers : Registers inv_pre.
Proof. done. Qed.

Abbreviation ob := (obeys inv_pre inv_post).

(** ** Storage through the approval view *)

Lemma ob_Get c key (Q : res (option (StorageEntry blob)) → Prop) :
  (∀ r, (∀ e, r = Ok (Some e) → good (akey key) (Value e)) → Q r) →
  ob (Get (approvalStorage c) key) Q.
Proof.
  intros HQ. change (Get (approvalStorage c) key) with (view_Get aview key).
  unfold view_Get. destruct (SanityCheck key); [by apply HQ|].
  simpl. split; [done|]. intros r Hr. apply HQ.
  destruct r as [[b|]|err]; [|done..]. intros e [= <-]. simpl. by apply Hr.
Qed.

Lemma ob_Put c key b (Q : option goerr → Prop) :
  good (akey key) b → (∀ r, Q r) → ob (Put (approvalStorage c) (Some (mkEntry key b))) Q.
Proof.
  intros Hb HQ. change (Put (approvalStorage c) (Some (mkEntry key b)))
    with (barrier_Put (mkBarrier aview (core_readOnly c)) (Some (mkEntry key b))).
  unfold barrier_Put. cbn [readOnlyErr bstorage]. destruct (core_readOnly c); [by apply HQ|].
  unfold view_Put. cbn [Key Value]. destruct (SanityCheck key); [by apply HQ|].
  by apply obeys_trigger.
Qed.

(** ** Typed reads and writes *)

Lemma ob_get_pending c id (Q : res (option PendingRequest) → Prop) :
  (∀ r, (∀ p, r = Ok (Some p) → RequestID p = valid_utf8 id ∧ wf_request p) → Q r) →
  ob (getPendingRequest c id) Q.
Proof.
  intros HQ. apply obeys_bind, ob_Get. intros r Hr. apply HQ. intros p.
  destruct r as [[[key b]|]|err]; [|done..]. specialize (Hr _ eq_refl). simpl in Hr.
  unfold DecodeJSON. simpl. destruct b as [v|]; [|done].
  destruct (dec_pending v) as [p'|] eqn:Hd; [|done]. intros [= <-].
  by apply (good_pending _ _ Hr id v p').
Qed.

Lemma ob_get_rule c id (Q : res (option ApprovalRule) → Prop) :
  (∀ r, (∀ rule, r = Ok (Some rule) → wf_rule rule) → Q r) → ob (getApprovalRule c id) Q.
Proof.
  intros HQ. apply obeys_bind, ob_Get. intros r Hr. apply HQ. intros rule.
  destruct r as [[[key b]|]|err]; [|done..]. specialize (Hr _ eq_refl). simpl in Hr.
  unfold DecodeJSON. simpl. destruct b as [v|]; [|done].
  destruct (dec_rule v) as [r'|] eqn:Hd; [|done]. intros [= <-].
  by apply (good_rule _ _ Hr id v r').
Qed.

Lemma ob_put_json c key times v (Q : option goerr → Prop) :
  good (akey key) (Doc v) → (∀ r, Q r) → ob (put_entry c (StorageEntryJSON key times v)) Q.
Proof.
  intros Hv HQ. unfold StorageEntryJSON. destruct (forallb _ times); [|by apply HQ].
  by apply ob_Put.
Qed.

Lemma clean_norm m : clean_headers m → clean_headers (norm_headers m).
Proof.
  destruct m as [m|]; [|done]. intros Hm key [v Hv]. simpl in *.
  apply elem_of_list_to_map_2 in Hv. apply list_elem_of_fmap in Hv as ([k' v'] & [= -> ->] & Hk').
  apply clean_valid_utf8, Hm. exists v'. by apply elem_of_map_to_list.
Qed.

Lemma norm_ids l :
  Forall (λ a, valid_utf8 (ApproverEntityID a) = ApproverEntityID a) l → norm_record <$> l = l.
Proof.
  intros Hl. rewrite <-(list_fmap_id l) at 2. apply list_fmap_ext. intros i a Ha.
  rewrite Forall_forall in Hl. destruct a as [id t]. unfold norm_record. simpl. f_equal.
  apply (Hl (mkRecord id t)). by eapply list_elem_of_lookup_2.
Qed.

Lemma norm_status p :
  Status p ∈ ["pending"; "approved"; "denied"] → valid_utf8 (Status p) = Status p.
Proof. intros Hs. repeat (apply elem_of_cons in Hs as [->|Hs]; [done|]). by apply elem_of_nil in Hs. Qed.

(** What is read back of a well-formed request is well formed. *)
Lemma wf_norm p : wf_request p → wf_request (norm_pending p).
Proof.
  intros [Hs Hv Hi Ht Hh Hj]. pose proof (norm_ids _ Hi) as Hn.
  split; simpl; rewrite ?Hn, ?norm_status by done; try done.
  - by apply clean_norm.
  - by apply safe_text_valid_utf8.
Qed.

Lemma good_request p :
  wf_request p → good (akey ("pending/" +:+ RequestID p)) (Doc (enc_pending p)).
Proof.
  intros Hp. split.
  - intros id v p' Hid%akey_inj [= <-] Hd.
    apply str_app_inj_l in Hid. apply dec_enc_pending_inv in Hd as ->. subst id.
    split; [done|by apply wf_norm].
  - intros id v r Hid%akey_inj. by destruct id.
Qed.

Lemma ob_store_pending c p (Q : option goerr → Prop) :
  wf_request p → (∀ r, Q r) → ob (storePendingRequest c p) Q.
Proof. intros Hp HQ. apply ob_put_json; [by apply good_request|done]. Qed.

Lemma ob_store_history c h (Q : option goerr → Prop) :
  (∀ r, Q r) → ob (storeHistoryEntry c h) Q.
Proof. intros HQ. apply ob_put_json; [|done]. by split; intros ? ? ? ?%akey_inj. Qed.

(** ** The interceptor *)

Lemma wf_parked id rule req now : wf_request (parked id rule req now).
Proof.
  split; simpl.
  - by apply (bool_decide_unpack _).
  - apply NoDup_nil_2.
  - done.
  - done.
  - apply safe_headers_clean.
  - unfold request_justification. repeat case_match; try constructor. apply sanitize_bytes.
Qed.

Lemma ob_park_request c req rule (Q : option Response * bool * option goerr → Prop) :
  (∀ r, Q r) → ob (park_request c req rule) Q.
Proof.
  intros HQ. apply obeys_bind, obeys_trigger; [done|]. intros [id|err] _; [|apply HQ].
  apply obeys_bind, ob_now. intros now. apply obeys_bind, ob_store_pending; [apply wf_parked|].
  intros [err|]; [apply HQ|]. apply obeys_bind. case_decide; [apply HQ|].
  apply obeys_bind, ob_approver_names. intros names. apply obeys_trigger; [done|].
  intros _ _. apply HQ.
Qed.

Lemma ob_checkNeedsApproval c req auth (Q : option Response * bool * option goerr → Prop) :
  (∀ r, Q r) → ob (checkNeedsApproval c req auth) Q.
Proof.
  intros HQ. unfold checkNeedsApproval. do 3 (case_match; [apply HQ|]).
  apply obeys_bind, ob_List. intros [[|key keys]|err]; [apply HQ| |apply HQ].
  apply obeys_bind, ob_matching_rule. intros [rule|]; [|apply HQ].
  apply ob_then; [|intros [[|] [|]]; [apply HQ..|by apply ob_park_request]].
  case_decide; [done|]. apply obeys_bind, ob_List. intros [keys'|err]; [|done].
  apply obeys_bind, ob_range_any; [|done]. intros key' []. by apply ob_dedup.
Qed.

(** ** Updates of a request *)

Lemma wf_vote p e t :
  wf_request p → Status p = "pending" → valid_utf8 e = e →
  (e ≠ "" → e ∉ ApproverEntityID <$> Approvals p) →
  wf_request (set_Approvals (Approvals p ++ [mkRecord e t]) p).
Proof.
  intros [Hs Hv Hi Ht Hh Hj] Hst He Hnew. split; simpl; try done.
  - rewrite fmap_app, filter_app. simpl. rewrite filter_cons.
    case_decide; [|by rewrite filter_nil, app_nil_r]. rewrite filter_nil.
    apply NoDup_app. split_and!; [done| |apply NoDup_singleton].
    intros x [_ Hx]%list_elem_of_filter ->%list_elem_of_singleton. by apply Hnew.
  - apply Forall_app. split; [done|]. by constructor.
  - by rewrite Hst.
Qed.

Lemma wf_approve p : wf_request p → quorum ≤ len (Approvals p) → wf_request (set_Status "approved" p).
Proof. intros [Hs Hv Hi Ht Hh Hj] Hk. split; simpl; try done. by apply (bool_decide_unpack _). Qed.

Lemma wf_deny p : wf_request p → wf_request (set_Status "denied" p).
Proof. intros [Hs Hv Hi Ht Hh Hj]. split; simpl; try done. by apply (bool_decide_unpack _). Qed.

Lemma wf_withdraw p n :
  wf_request p → wf_request (set_Approvals (take n (Approvals p)) (set_Status "pending" p)).
Proof.
  intros [Hs Hv Hi Ht Hh Hj]. split; simpl; try done.
  - by apply (bool_decide_unpack _).
  - rewrite <-(take_drop n (Approvals p)), fmap_app, filter_app in Hv.
    by apply NoDup_app in Hv as [? _].
  - by apply Forall_take.
Qed.

Lemma wf_with_credential resp now p : wf_request p → wf_request (with_credential resp now p).
Proof.
  intros [Hs Hv Hi Ht Hh Hj]. unfold with_credential. by destruct resp as [[? ? [] ? ?]|]; split.
Qed.

Lemma wf_burn p m : wf_request p → wf_request (set_CredentialData m p).
Proof. by intros []; split. Qed.

(** ** Approve, deny, fetch *)

Lemma ob_pending_guards c id (Q : PendingRequest * ApprovalRule + Resp → Prop) :
  (∀ p rule, wf_request p → Status p = "pending" → wf_rule rule → Q (inl (p, rule))) →
  (∀ resp, Q (inr resp)) → ob (pending_guards c id) Q.
Proof.
  intros Hgo Hstop. apply obeys_bind, ob_get_pending. intros r Hr.
  destruct r as [[p|]|err]; [|apply Hstop..]. destruct (Hr _ eq_refl) as [_ Hp].
  case_bool_decide as Hst; csimplb; [|apply Hstop].
  assert (∀ resp, ob (_ ← drop_pending c id; Ret (inr resp)) Q) as Hd.
  { intros resp. apply obeys_bind, ob_drop_pending, Hstop. }
  apply obeys_bind, ob_now. intros now. destruct (After _ _); [apply Hd|].
  apply obeys_bind, ob_get_rule. intros r Hrule.
  destruct r as [[rule|]|err]; [|apply Hd|apply Hstop]. by apply Hgo; [..|apply Hrule].
Qed.

Lemma ob_approve_denied req p rule (Q : option Resp → Prop) :
  ((req_EntityID req ≠ "" → req_EntityID req ∉ ApproverEntityID <$> Approvals p) → Q None) →
  (∀ resp, Q (Some resp)) → ob (approve_denied req p rule) Q.
Proof.
  intros Hgo Hstop. apply obeys_bind, ob_callerIsRoot. intros root.
  destruct (negb root && _); [apply Hstop|]. apply obeys_bind, ob_callerIsRoot. intros root'.
  destruct (negb root' && _ && _ && _); [apply Hstop|].
  destruct (existsb _ _) eqn:Hdup; [apply Hstop|]. apply Hgo.
  intros Hne (a & Ha & Hin)%list_elem_of_fmap.
  apply not_true_iff_false in Hdup. apply Hdup, existsb_exists.
  exists a. split; [by apply list_elem_of_In|].
  rewrite bool_decide_eq_true_2 by done. by rewrite bool_decide_eq_false_2.
Qed.

Lemma ob_execute c p (Q : option goerr * PendingRequest → Prop) :
  wf_request p → (∀ err p', wf_request p' → Q (err, p')) → ob (executeApprovedRequest c p) Q.
Proof.
  intros Hp HQ. apply obeys_bind, obeys_trigger; [done|]. intros [id|err] _; [|by apply HQ].
  apply obeys_bind, obeys_trigger; [done|]. intros [resp [err|]] _; [by apply HQ|].
  apply obeys_bind, ob_now. intros now.
  pose proof (wf_with_credential resp now p Hp) as Hp'.
  apply obeys_bind, ob_store_pending; [done|]. intros err. by apply HQ.
Qed.

Lemma ob_approve_execute c id p rule :
  wf_request p → quorum ≤ len (Approvals p) → ob (approve_execute c id p rule) (λ _, True).
Proof.
  intros Hp Hk. pose proof (wf_approve p Hp Hk) as Ha.
  apply obeys_bind, ob_store_pending; [done|]. intros [err|]; [done|].
  apply obeys_bind, ob_get_pending. intros r _.
  assert (ob
    (r ← executeApprovedRequest c (set_Status "approved" p);
     match r with
     | (Some err, pending) =>
         let pending := set_Status "pending" pending in
         let pending := set_Approvals
           (take (length (Approvals pending) - 1) (Approvals pending)) pending in
         _ ← storePendingRequest c pending;
         Ret (go_err (ErrWrap "approval execution failed" err))
     | (None, pending) => Ret (approve_response id pending rule true)
     end) (λ _, True)) as Hexec.
  { apply obeys_bind, ob_execute; [done|]. intros [err|] p' Hp'; [|done].
    apply obeys_bind, ob_store_pending; [by apply (wf_withdraw p')|done]. }
  destruct r as [[p'|]|err]; [|exact Hexec|done].
  by destruct p' as [? ? ? ? ? ? ? ? ? ? ? ? ? [cred|] ? ? ? ?].
Qed.

Lemma ob_approve c id req :
  valid_utf8 (req_EntityID req) = req_EntityID req →
  ob (handleApprovalApprove c id req) (λ _, True).
Proof.
  intros He. apply obeys_bind, ob_pending_guards; [|done]. intros p rule Hp Hst Hrule.
  apply obeys_bind, ob_approve_denied; [|done]. intros Hnew.
  apply obeys_bind, ob_now. intros now. cbv zeta.
  pose proof (wf_vote p _ now Hp Hst He Hnew) as Hv.
  destruct (ApprovalsRequired rule <=? _) eqn:Hthr.
  - apply ob_approve_execute; [done|]. apply Z.leb_le in Hthr.
    etrans; [apply (wf_required _ Hrule)|done].
  - apply obeys_bind, ob_store_pending; done.
Qed.

Lemma ob_deny c id req : ob (handleApprovalDeny c id req) (λ _, True).
Proof.
  apply obeys_bind, ob_pending_guards; [|done]. intros p rule Hp Hst Hrule.
  apply obeys_bind, ob_callerIsRoot. intros root. destruct (_ && _); [done|].
  apply obeys_bind, ob_store_pending; [by apply wf_deny|].
  intros [err|]; [done|]. apply obeys_bind, ob_now. intros now.
  apply obeys_bind, ob_entity_name. intros name. by apply obeys_bind, ob_store_history.
Qed.

Lemma ob_fetch_approved c id p : wf_request p → ob (fetch_approved c id p) (λ _, True).
Proof.
  intros Hp. unfold fetch_approved. destruct (CredentialData p) as [cred|]; [|done].
  apply ob_then; [destruct (IsZero _); [done|]; by apply obeys_bind, ob_time_Since|].
  intros [].
  - apply obeys_bind, ob_drop_pending, obeys_bind, ob_last_approver. intros by_.
    apply obeys_bind, ob_now. intros now. by apply obeys_bind, ob_store_history.
  - apply obeys_bind, ob_store_pending; [by apply wf_burn|]. intros _.
    apply obeys_bind, ob_Delete. intros [err|]; [done|].
    apply obeys_bind, ob_last_approver. intros by_.
    apply obeys_bind, ob_now. intros now. by apply obeys_bind, ob_store_history.
Qed.

Lemma ob_fetch c id req : ob (handleApprovalFetch c id req) (λ _, True).
Proof.
  apply obeys_bind, ob_get_pending. intros r Hr. destruct r as [[p|]|err]; [|done..].
  destruct (Hr _ eq_refl) as [_ Hp].
  apply ob_then; [destruct (decide _); [by apply ob_callerIsRoot|done]|].
  intros []; csimplb; [|done]. destruct (decide _); [|destruct (decide _); [done|]].
  - apply obeys_bind, ob_now. intros now. destruct (After _ _); [|done].
    apply obeys_bind, ob_drop_pending, obeys_bind, ob_now. intros now'.
    by apply obeys_bind, ob_store_history.
  - destruct (decide _); [by apply ob_fetch_approved|done].
Qed.

(** ** Rules *)

Lemma valid_utf8_nonempty s : s ≠ "" → valid_utf8 s ≠ "".
Proof.
  intros Hs Hv. apply Hs. rewrite <-Hv. symmetry. apply valid_utf8_all_ascii. rewrite Hv. constructor.
Qed.

Lemma wf_norm_rule r : wf_rule r → wf_rule (norm_rule r).
Proof.
  intros [Hk Ht Ha Hs Hu]. split; simpl; rewrite ?Hu; try done.
  - by apply valid_utf8_nonempty.
  - by destruct (AuthorizedApprovers r).
Qed.

Lemma good_rule_entry r : wf_rule r → good (akey ("config/" +:+ RuleID r)) (Doc (enc_rule r)).
Proof.
  intros Hr. split.
  - intros id v p Hid%akey_inj. by destruct id.
  - intros id v r' Hid%akey_inj [= <-] Hd. apply dec_enc_rule_inv in Hd as ->.
    by apply wf_norm_rule.
Qed.

Lemma ob_put_rule c r (Q : option goerr → Prop) :
  wf_rule r → (∀ e, Q e) → ob (putApprovalRule c r) Q.
Proof. intros Hr HQ. apply ob_put_json; [by apply good_rule_entry|done]. Qed.

(** The rule a write starts from: the stored one, or a new one. *)
Lemma ob_rule_write c id f req :
  (k ≤ 1 ∨ ∃ n, f_approvals_required f = Some n ∧ k ≤ n) →
  (∀ u, f_slack_webhook_url f = Some u → valid_utf8 u = u) →
  ob (handleApprovalRuleWrite c id f req) (λ _, True).
Proof.
  intros Hnew Hu. unfold handleApprovalRuleWrite. case_decide; [done|].
  apply obeys_bind, ob_get_rule. intros r Hr. destruct r as [r|err]; [|done]. cbv zeta.
  set (r0 := default _ r).
  assert ((quorum ≤ ApprovalsRequired r0 ∨ is_Some (f_approvals_required f)) ∧
          slack_url_ok (SlackWebhookURL r0) = true ∧
          valid_utf8 (SlackWebhookURL r0) = SlackWebhookURL r0) as (Hk0 & Hs0 & Hu0).
  { subst r0. destruct r as [r|]; simpl.
    2: { split_and!; [|done..]. destruct Hnew as [|(n & -> & _)]; [left; unfold quorum; lia|by right]. }
    destruct (Hr _ eq_refl). auto. }
  unfold update_rule, update_rule_url, check_and_put_rule.
  destruct (f_approvals_required f) as [n|] eqn:Hf.
  - destruct (Z.ltb_spec n 1) as [|Hn1]; [done|].
    assert (quorum ≤ n) as Hq by (unfold quorum; destruct Hnew as [|(? & [= <-] & ?)]; lia).
    destruct (f_slack_webhook_url f) as [u|] eqn:Hfu; [destruct (slack_url_ok u) eqn:Hok; [|done]|];
      do 2 (case_decide; [done|]); apply obeys_bind, ob_put_rule; try done; split; simpl; auto.
  - destruct Hk0 as [Hk0|[? [=]]].
    destruct (f_slack_webhook_url f) as [u|] eqn:Hfu; [destruct (slack_url_ok u) eqn:Hok; [|done]|];
      do 2 (case_decide; [done|]); apply obeys_bind, ob_put_rule; try done; split; simpl; auto.
Qed.

(** ** Every call *)

Lemma ob_serve c x : call_ok x → ob (serve c x) (λ _, True).
Proof.
  destruct x as [path op f req|ctx entry req auth]; simpl.
  - intros (He & Hk & Hu). unfold handle_approvals.
    destruct (approval_endpoint path) as [e|]; [|done].
    destruct (callback c e op f req) as [h|] eqn:Hc; [|done]. unfold callback in Hc.
    destruct e; repeat case_decide; try done; injection Hc as <-.
    + by apply obeys_bind, ob_get_rule.
    + apply ob_rule_write; [by eapply Hk|done].
    + apply ob_rule_write; [by eapply Hk|done].
    + apply ob_rule_delete.
    + by apply ob_list_keys.
    + apply ob_pending_read.
    + apply obeys_bind, ob_root_or_approver. intros [r|]; [done|]. by apply ob_list_keys.
    + by apply ob_approve.
    + apply ob_deny.
    + apply ob_my_requests.
    + apply ob_approvable.
    + unfold handleApprovalRequiresApproval. case_decide; [done|].
      apply obeys_bind, ob_List. intros [keys|err]; [|done].
      by apply obeys_bind, ob_matching_rule.
    + apply ob_fetch.
    + apply obeys_bind, ob_root_or_approver. intros [r|]; [done|].
      by apply obeys_bind, ob_history_list.
  - intros _. unfold dispatch. case_match; [apply ob_route_request|].
    apply obeys_bind, ob_checkNeedsApproval. intros [[resp b] err].
    case_match; [done|]. apply ob_route_request.
Qed.

Lemma Inv_interleaving `{RadixTree} env c calls w ts' w' :
  Forall call_ok calls → Inv w →
  rtc (pool_step (H := core_handler env)) (serve c <$> calls, w) (ts', w') → Inv w'.
Proof.
  intros Hok Hw Hsteps.
  destruct (obeys_pool inv_pre inv_post (H := core_handler env) Inv (inv_sound env) (λ _, True)
    _ _ _ _ Hsteps) as [_ Hw']; [|done..].
  apply Forall_fmap. eapply Forall_impl; [exact Hok|]. intros x Hx. by apply ob_serve.
Qed.

Lemma Inv_insert (m : gmap string blob) key b :
  (∀ key b, m !! key = Some b → good key b) → good key b →
  ∀ key' b', <[key := b]> m !! key' = Some b' → good key' b'.
Proof. intros Hm Hb key' b' [[<- <-]|[_ ?]]%lookup_insert_Some; [done|by apply Hm]. Qed.
End invariant.

Section interleaved.
Context `{GoTables} `{RadixTree} (env : Env) (c : Core) (k : Z).

(** C14: whatever calls are served concurrently, in any interleaving, with any
    storage faults, what is stored is well formed.  Of a request: its status
    is pending, approved or denied, no entity has voted twice, an approved
    request carries at least one vote, no authentication or routing header is
    stored and the justification is sanitised.  Of a rule: it demands at least
    one approval, names a target path and at least one approver, and its
    notification URL is absent or https.  If besides no rule is stored and no
    caller writes one that demands fewer than [k] approvals, then no approved
    request carries fewer than [k] votes.  What the calls carry is valid UTF-8,
    as everything decoded from JSON is. *)
Theorem stored_entries_wf calls w ts' w' :
  Forall (call_ok k) calls → Inv k w →
  rtc (pool_step (H := core_handler env)) (serve c <$> calls, w) (ts', w') →
  (∀ id p, pending_at (w_store w') id p → RequestID p = valid_utf8 id ∧ wf_request k p) ∧
  (∀ id r, rule_at (w_store w') id r → wf_rule k r).
Proof.
  intros Hok Hw Hsteps.
  split; intros id x (v & Hv & Hd);
    pose proof (Inv_interleaving k env c _ _ _ _ Hok Hw Hsteps _ _ Hv) as Hg.
  - by apply (good_pending k _ _ Hg id v).
  - by apply (good_rule k _ _ Hg id v).
Qed.
End interleaved.

(** ** Witnesses *)

Definition no_fields : Fields := mkFields (mkRuleFields None None None None None None) "".
Definition approve_by (req : Request) : Call :=
  Api ("approvals/approve/" +:+ rid) UpdateOperation no_fields req.

Lemma wf_rule_db : wf_rule 1 rule_db.
Proof. split; vm_compute; done. Qed.

Lemma Inv_world_pending : Inv 1 world_pending.
Proof.
  intros key b. unfold world_pending, world0, w_store, put_pending, put_rule. simpl.
  revert key b. apply Inv_insert; [|apply (good_request 1 pending0), wf_parked].
  apply Inv_insert; [done|]. apply (good_rule_entry 1 rule_db), wf_rule_db.
Qed.

(** Bob and carol approve at the same time. *)
Definition both_approve : list Call := [approve_by bob_req; approve_by carol_req].

Lemma both_approve_ok : Forall (call_ok 1) both_approve.
Proof. repeat constructor; try (intros ? [=]); vm_compute; congruence. Qed.

Definition interleaved : list nat := concat (replicate 20 [0; 1]%nat).

Lemma stored_entries_witness :
  let w' := (run_schedule (H := core_handler env0) interleaved
               (serve core0 <$> both_approve, world_pending)).2 in
  (∀ id p, pending_at (w_store w') id p → RequestID p = valid_utf8 id ∧ wf_request 1 p) ∧
  (∀ id r, rule_at (w_store w') id r → wf_rule 1 r).
Proof.
  intros w'. subst w'. destruct (run_schedule _ _) as [ts' w'] eqn:Hs.
  apply (stored_entries_wf env0 core0 1 both_approve world_pending ts' w').
  - apply both_approve_ok.
  - apply Inv_world_pending.
  - rewrite <-Hs. apply run_schedule_steps.
Defined.
