(* ===== verification/ApprovalConfinement.v ===== *)
(** * The workflow stays within its part of the storage

    Whatever is served, entries outside sys/approvals/ are neither written
    nor deleted: the prefixed view confines every write of the workflow. *)

From S2P Require Import Prelude GoLib Storage Core Lease ApprovalTypes ApprovalCore ApprovalHandlers ApprovalPaths RequestHandling CoreLogic Effects ApprovalInvariant Scenario.

(** An effect that changes no entry outside the view. *)
Definition confined X (e : coreE X) : Prop :=
  match e with
  | SPut key _ | SDelete key => HasPrefix key (akey "") = true
  | _ => True
  end.

#[export] Instance confined_quiet : Quiet confined.
Proof. by intros X []. Qed.
#[export] Instance confined_writes : Writes confined.
Proof. intros key b. apply HasPrefix_spec. by exists key. Qed.
#[export] Instance confined_routes : Routes confined.
Proof. done. Qed.
#[export] Instance confined_registers : Registers confined.
Proof. done. Qed.

Section confinement.
Context `{GoTables} `{RadixTree} (env : Env) (c : Core).

Lemma confined_sound key X (e : coreE X) w v :
  HasPrefix key (akey "") = false → confined X e → w_store w !! key = v →
  w_store (core_handle env X e w).2 !! key = v.
Proof.
  intros Hkey He Hw. destruct e; simpl in *; try done.
  - unfold write_result, Inmem.PutInternal. destruct (Inmem.failPut (w_phys w)); simpl.
    { by destruct (env_fault env _). }
    destruct (_ && _); simpl; [by destruct (env_fault env _)|].
    assert (key0 ≠ key) by congruence.
    destruct (env_fault env _); simpl; [|done|]; unfold w_store; simpl; by rewrite lookup_insert_ne.
  - unfold write_result, Inmem.DeleteInternal. destruct (Inmem.failDelete (w_phys w)); simpl.
    { by destruct (env_fault env _). }
    assert (key0 ≠ key) by congruence.
    destruct (env_fault env _); simpl; [|done|]; unfold w_store; simpl; by rewrite lookup_delete_ne.
  - by destruct (env_register env (w_tick w) req s).
Qed.

Lemma serve_confined x : obeys confined any_answer (serve c x) (λ _, True).
Proof.
  destruct x as [path op f req|ctx entry req auth]; cbn [serve].
  - unfold handle_approvals. destruct (approval_endpoint path) as [e|]; [|done].
    destruct (callback c e op f req) as [h|] eqn:Hc; [|done].
    destruct (match e with EApprove _ => true | _ => false end) eqn:He.
    + destruct e; try discriminate He. unfold callback in Hc.
      destruct (decide _); [|discriminate Hc]. injection Hc as <-. apply ob_approve_any.
    + eapply ob_not_approve; [|exact Hc]. by intros id ->.
  - unfold dispatch. destruct (isApprovalBypass ctx); [apply ob_route_request|].
    apply obeys_bind, ob_checkNeedsApproval_any. intros [[resp b] err].
    case_match; [done|]. apply ob_route_request.
Qed.

(** Whatever calls are served concurrently, in any interleaving and with any
    storage faults, no entry outside sys/approvals/ is created, changed or
    deleted through the workflow's storage view. *)
Theorem approvals_confined calls w ts' w' key :
  rtc (pool_step (H := core_handler env)) (serve c <$> calls, w) (ts', w') →
  HasPrefix key "sys/approvals/" = false →
  w_store w' !! key = w_store w !! key.
Proof.
  intros Hsteps Hkey.
  destruct (obeys_pool confined any_answer (H := core_handler env)
    (λ w1, w_store w1 !! key = w_store w !! key)
    (λ X e w1 He Hw, conj (confined_sound key X e w1 _ Hkey He Hw) I) (λ _, True)
    _ _ _ _ Hsteps) as [_ Hw']; [|done..].
  apply Forall_fmap, Forall_true. intros x. apply serve_confined.
Qed.
End confinement.

Lemma approvals_confined_witness :
  let w0 := world0 (<["core/seal" := Doc (VStr "x")]> (w_store world_pending)) in
  let w' := (run_schedule (H := core_handler env0) interleaved
               (serve core0 <$> both_approve, w0)).2 in
  w_store w' !! "core/seal" = w_store w0 !! "core/seal".
Proof.
  intros w0 w'. subst w'. destruct (run_schedule _ _) as [ts' w'] eqn:Hs.
  apply (approvals_confined env0 core0 both_approve w0 ts' w' "core/seal").
  - rewrite <-Hs. apply run_schedule_steps.
  - reflexivity.
Defined.
