(* ===== verification/ApprovalLifecycle.v ===== *)
(** * The life of a request, and its refinement by the handlers

    The abstract store holds a slot for every identifier: nothing, an entry
    that does not decode, or a request with what never changes of it and its
    phase.  Each call is an action of the abstract store, and an action moves
    a slot only in the ways [amoves] lists.  The handlers, served one call
    after the other, refine it, whatever faults occur. *)

From S2P Require Import Prelude GoLib Utf8 Storage Core Lease ApprovalTypes ApprovalCore ApprovalPure ApprovalHandlers ApprovalPaths RequestHandling ApprovalJson CoreLogic ApprovalLogic StorageFacts Reliable Interception Effects ApprovalInvariant Scenario.

(** ** The abstract machine *)

(** What stays the same of a request as long as it exists. *)
Record Tag := mkTag { t_rule : string; t_requester : string; t_path : string }.

Variant phase := Waiting (votes : nat) | Approved (unread : bool) | Denied.

Variant slot := Absent | Unreadable | At (t : Tag) (ph : phase).

(** What a call asks for. *)
Variant action :=
| AVote (id : string) | ADeny (id : string) | AFetch (id : string) | ALook (id : string)
| AApprovable | AMine (requester : string) | ADropRule (rule : string)
| AAsk (requester path : string) | ANone.

(** The actions that may remove the request [id]: those on a request remove
    it if it waits (it has expired, or its rule is gone) or, for a fetch, if
    its credential is unread; the lists remove what has expired; a new request
    removes the stale ones of the same requester and path; a rule takes all
    its requests along. *)
Definition removable (a : action) (id : string) (t : Tag) (ph : phase) : Prop :=
  match a, ph with
  | (AVote i | ADeny i | ALook i), Waiting _ => i = id
  | AFetch i, (Waiting _ | Approved true) => i = id
  | AApprovable, Waiting _ => True
  | AMine e, (Waiting _ | Approved _) => t_requester t = e
  | AAsk e p, (Waiting _ | Approved _) => t_requester t = e ∧ t_path t = p
  | ADropRule r, _ => t_rule t = r
  | _, _ => False
  end.

(** The moves of the slot [id] under an action, where a decision takes
    [quorum] votes at least. *)
Inductive amoves (quorum : Z) (a : action) (id : string) : slot → slot → Prop :=
| am_stay x : amoves quorum a id x x
| am_park r e p : a = AAsk e p → amoves quorum a id Absent (At (mkTag r e p) (Waiting 0))
| am_vote t n : a = AVote id → amoves quorum a id (At t (Waiting n)) (At t (Waiting (S n)))
| am_grant t n unread : a = AVote id → quorum ≤ Z.of_nat (S n) →
    amoves quorum a id (At t (Waiting n)) (At t (Approved unread))
| am_deny t n : a = ADeny id → amoves quorum a id (At t (Waiting n)) (At t Denied)
| am_burn t : a = AFetch id → amoves quorum a id (At t (Approved true)) (At t (Approved false))
| am_remove t ph : removable a id t ph → amoves quorum a id (At t ph) Absent.

(** A run of the abstract store: one action after the other. *)
Inductive aruns (quorum : Z) : list action → (string → slot) → (string → slot) → Prop :=
| ar_done f : aruns quorum [] f f
| ar_step a l f g h :
    (∀ id, amoves quorum a id (f id) (g id)) → aruns quorum l g h → aruns quorum (a :: l) f h.

Create HintDb lifecycle.
#[export] Hint Constructors amoves : lifecycle.

(** The action of a call. *)
Definition action_of (x : Call) : action :=
  match x with
  | Client _ _ req _ => AAsk (valid_utf8 (req_EntityID req)) (valid_utf8 (req_Path req))
  | Api path op _ req =>
      match approval_endpoint path with
      | Some (EApprove id) => AVote id
      | Some (EDeny id) => ADeny id
      | Some (EFetch id) => AFetch id
      | Some (EPending id) => ALook id
      | Some EApprovable => AApprovable
      | Some EMyRequests => AMine (valid_utf8 (req_EntityID req))
      | Some (EConfig id) => if decide (op = DeleteOperation) then ADropRule (valid_utf8 id) else ANone
      | _ => ANone
      end
  end.

(** ** The slot of a stored request *)

Definition tag_of (p : PendingRequest) : Tag :=
  mkTag (valid_utf8 (p_RuleID p)) (valid_utf8 (RequesterEntityID p)) (valid_utf8 (OriginalPath p)).

Definition phase_of_request (p : PendingRequest) : phase :=
  if decide (Status p = "pending") then Waiting (length (Approvals p))
  else if decide (Status p = "approved") then
    Approved (bool_decide (is_Some (CredentialData p)))
  else Denied.

Definition slot_of_blob (o : option blob) : slot :=
  match o with
  | None => Absent
  | Some (Doc v) =>
      match dec_pending v with Ok p => At (tag_of p) (phase_of_request p) | Err _ => Unreadable end
  | Some NotJSON => Unreadable
  end.

Definition entry_of (w : World) (id : string) : option blob :=
  w_store w !! akey ("pending/" +:+ id).

Definition slot_of (w : World) (id : string) : slot := slot_of_blob (entry_of w id).

Lemma slot_of_pending w id p :
  pending_at (w_store w) id p → slot_of w id = At (tag_of p) (phase_of_request p).
Proof. intros (v & Hv & Hd). unfold slot_of, entry_of. rewrite Hv. simpl. by rewrite Hd. Qed.

(** The times to live fit their type. *)
Definition wide (p : PendingRequest) : Prop :=
  int64_ok (SecretTTL p) = true ∧ int64_ok (SecretMaxTTL p) = true.

Lemma pending_wide m id p : pending_at m id p → wide p.
Proof.
  intros (v & _ & Hd). unfold dec_pending in Hd. destruct v; try done; [by injection Hd as <-|].
  do 15 (apply bind_inv in Hd as (? & _ & Hd)).
  apply bind_inv in Hd as (n & Hn & Hd). apply bind_inv in Hd as (n' & Hn' & Hd).
  apply bind_inv in Hd as (? & _ & Hd). injection Hd as <-. split; simpl;
    [revert Hn|revert Hn']; unfold dec_int; destruct (assoc _ _) as [[]|]; intros Hx; repeat case_match;
    try done; by injection Hx as <-.
Qed.

(** The slot of a request as it is written; an empty credential is dropped. *)
Lemma slot_written p :
  wide p → Status p ∈ ["pending"; "approved"; "denied"] →
  slot_of_blob (Some (Doc (enc_pending p))) = At (tag_of p)
    (if decide (Status p = "pending") then Waiting (length (Approvals p))
     else if decide (Status p = "approved") then
       Approved (bool_decide (is_Some (norm_credential (CredentialData p))))
     else Denied).
Proof.
  intros [Ht Hm] Hs. unfold slot_of_blob. rewrite dec_enc_pending by done.
  unfold tag_of, phase_of_request. simpl. rewrite norm_status, length_fmap, !valid_utf8_idem by done. done.
Qed.

(** ** What a handler may do to the stored requests *)

(** Only the request [id] changes, if at all to a blob that satisfies [P]. *)
Record edits (id : string) (P : option blob → Prop) (w w' : World) : Prop := {
  ed_other : ∀ id', id' ≠ id → entry_of w' id' = entry_of w id';
  ed_this : entry_of w' id = entry_of w id ∨ P (entry_of w' id);
}.

Lemma edits_trans id P w1 w2 w3 : edits id P w1 w2 → edits id P w2 w3 → edits id P w1 w3.
Proof.
  intros [Ho1 Ht1] [Ho2 Ht2]. split.
  - intros id' Hne. by rewrite Ho2, Ho1.
  - destruct Ht2 as [->|?]; [done|by right].
Qed.

Lemma edits_same id P w w' : (∀ id', entry_of w' id' = entry_of w id') → edits id P w w'.
Proof. intros Heq. split; auto. Qed.

Lemma ro_entries w w' : ro w w' → ∀ id, entry_of w' id = entry_of w id.
Proof. intros Hr id. unfold entry_of. by rewrite (ro_store _ _ Hr). Qed.

Lemma edits_ro id P w w' : ro w w' → edits id P w w'.
Proof. intros Hr. apply edits_same. by apply ro_entries. Qed.

Lemma entry_key id id' : id' ≠ id → akey ("pending/" +:+ id') ≠ akey ("pending/" +:+ id).
Proof. intros Hne Heq%akey_inj%str_app_inj_l. done. Qed.

Lemma edits_put id P err v w w' :
  wrote err (<[akey ("pending/" +:+ id) := Doc v]> (w_store w)) w w' → P (Some (Doc v)) →
  edits id P w w'.
Proof.
  intros [Hs|[Hr _]] HP; [|by apply edits_ro]. apply stored_store in Hs. unfold entry_of. split.
  - intros id' Hne. unfold entry_of. rewrite Hs, lookup_insert_ne; [done|]. by apply not_eq_sym, entry_key.
  - right. unfold entry_of. by rewrite Hs, lookup_insert_eq.
Qed.

Lemma edits_delete id P err w w' :
  wrote err (delete (akey ("pending/" +:+ id)) (w_store w)) w w' → P None → edits id P w w'.
Proof.
  intros [Hs|[Hr _]] HP; [|by apply edits_ro]. apply stored_store in Hs. split.
  - intros id' Hne. unfold entry_of. rewrite Hs, lookup_delete_ne; [done|]. by apply not_eq_sym, entry_key.
  - right. unfold entry_of. by rewrite Hs, lookup_delete_eq.
Qed.

(** Entries elsewhere. *)
Lemma other_entries err key w w' m :
  wrote err m w w' → (∀ k, k ≠ akey key → m !! k = w_store w !! k) → (∀ id', key ≠ "pending/" +:+ id') →
  ∀ id', entry_of w' id' = entry_of w id'.
Proof.
  intros [Hs|[Hr _]] Hm Hk; [|by apply ro_entries]. apply stored_store in Hs.
  intros id'. unfold entry_of. rewrite Hs. apply Hm. by intros ?%akey_inj%eq_sym%Hk.
Qed.

Lemma edits_other id P err key b w w' :
  wrote err (<[akey key := b]> (w_store w)) w w' → (∀ id', key ≠ "pending/" +:+ id') →
  edits id P w w'.
Proof.
  intros Hw Hk. apply edits_same. eapply other_entries; [exact Hw| |exact Hk].
  intros k Hne. by rewrite lookup_insert_ne.
Qed.

(** ** The handlers *)

Section lifecycle.
Context `{GoTables} `{RadixTree} (env : Env) (c : Core) (k : Z).

(** The responses of backends fit their types. *)
Hypothesis backend_wide : ∀ n req resp err s,
  env_backend env n req = (Some resp, err) → resp_Secret resp = Some s →
  int64_ok (TTL s) = true ∧ int64_ok (MaxTTL s) = true.

Abbreviation am := (amoves (quorum k)).

(** The moves allowed from the slot of [id] in [w]. *)
Definition allowed (a : action) (w : World) (id : string) (o : option blob) : Prop :=
  am a id (slot_of w id) (slot_of_blob o).

Definition advances (a : action) (w w' : World) : Prop :=
  ∀ id, am a id (slot_of w id) (slot_of w' id).

Lemma edits_advances a id w w' : edits id (allowed a w id) w w' → advances a w w'.
Proof.
  intros [Ho Ht] id'. destruct (decide (id' = id)) as [->|Hne].
  - destruct Ht as [Heq|Ht]; [|done]. unfold slot_of. rewrite Heq. apply am_stay.
  - unfold slot_of. rewrite Ho by done. apply am_stay.
Qed.

Lemma same_advances a w w' : (∀ id, entry_of w' id = entry_of w id) → advances a w w'.
Proof. intros Heq id. unfold slot_of. rewrite Heq. apply am_stay. Qed.

(** ** Approving *)

(** A request the guards let through waits under its own identifier. *)
Lemma request_id w id p :
  Inv k w → valid_utf8 id = id → pending_at (w_store w) id p → RequestID p = id.
Proof.
  intros Hw Hid (v & Hv & Hd). destruct (good_pending k _ _ (Hw _ _ Hv) id v p) as [Hr _]; try done.
  by rewrite Hr, Hid.
Qed.

Lemma rule_quorum w id rule : Inv k w → rule_at (w_store w) id rule → quorum k ≤ ApprovalsRequired rule.
Proof. intros Hw (v & Hv & Hd). by destruct (good_rule k _ _ (Hw _ _ Hv) id v rule). Qed.

Lemma decidable_waiting w id p rule :
  decidable_request env (w_store w) id p rule →
  slot_of w id = At (tag_of p) (Waiting (length (Approvals p))).
Proof.
  intros [Hp Hs _ _]. rewrite (slot_of_pending _ _ _ Hp). unfold phase_of_request. by rewrite decide_True.
Qed.

Lemma wp_store_pending_life id P p Q w0 w :
  RequestID p = id → edits id P w0 w → P (Some (Doc (enc_pending p))) →
  (∀ err w', edits id P w0 w' → Q err w') →
  wp env (storePendingRequest c p) Q w.
Proof.
  intros <- He HP HQ. apply wp_put_json. intros err w' Hw. apply HQ.
  eapply edits_trans; [exact He|]. by eapply edits_put.
Qed.

Lemma wp_guards_life a id Q w :
  a = AVote id ∨ a = ADeny id →
  (∀ p rule w', ro w w' → decidable_request env (w_store w) id p rule → Q (inl (p, rule)) w') →
  (∀ resp w', edits id (allowed a w id) w w' → Q (inr resp) w') →
  wp env (pending_guards c id) Q w.
Proof.
  intros Ha Hgo Hstop. apply wp_pending_guards; [done| |].
  - intros resp w' Hr. by apply Hstop, edits_ro.
  - intros p resp err w' Hp Hst Hw. eapply Hstop, edits_delete; [done|]. unfold allowed.
    rewrite (slot_of_pending _ _ _ Hp). apply am_remove. unfold phase_of_request. rewrite decide_True by done.
    by destruct Ha as [-> | ->].
Qed.

(** What is written of the request [p] that waited, for a vote. *)
Lemma allowed_vote w id p p' :
  slot_of w id = At (tag_of p) (Waiting (length (Approvals p))) → wide p' → tag_of p' = tag_of p →
  (Status p' = "pending" ∧
     (length (Approvals p') = length (Approvals p) ∨ length (Approvals p') = S (length (Approvals p)))) ∨
  (Status p' = "approved" ∧ quorum k ≤ Z.of_nat (S (length (Approvals p)))) →
  allowed (AVote id) w id (Some (Doc (enc_pending p'))).
Proof.
  intros Hw Hwide Htag Hst. unfold allowed. rewrite Hw, slot_written, Htag; [|done|].
  2: { destruct Hst as [[-> _]|[-> _]]; set_solver. }
  destruct Hst as [[-> Hlen]|[-> Hq]]; simpl; [|auto with lifecycle].
  destruct Hlen as [-> | ->]; auto with lifecycle.
Qed.

Lemma edits_routed id P r w w' : edits id P (add_routed r w) w' → edits id P w w'.
Proof. by intros [Ho Ht]. Qed.

(** The rollback of a failed execution returns to the votes before. *)
Lemma wp_rollback_life id p q err w0 w :
  RequestID q = id → slot_of w0 id = At (tag_of p) (Waiting (length (Approvals p))) →
  wide q → tag_of q = tag_of p → length (Approvals q) = S (length (Approvals p)) →
  edits id (allowed (AVote id) w0 id) w0 w →
  wp env (_ ← storePendingRequest c
      (set_Approvals (take (length (Approvals (set_Status "pending" q)) - 1)
         (Approvals (set_Status "pending" q))) (set_Status "pending" q));
    Ret (go_err (ErrWrap "approval execution failed" err)))
    (λ _ w', edits id (allowed (AVote id) w0 id) w0 w') w.
Proof.
  intros Hq Hph Hwide Htag Hlen He.
  apply wp_bind, (wp_store_pending_life id (allowed (AVote id) w0 id) _ _ w0); [done..| |].
  - eapply allowed_vote; [exact Hph|done|done|]. left. split; [done|]. left. simpl. rewrite length_take. lia.
  - intros ? w4 H4. by apply wp_ret.
Qed.

Lemma wide_credential n req resp err now p :
  env_backend env n req = (resp, err) → wide p → wide (with_credential resp now p).
Proof.
  intros Hb Hp. destruct resp as [[? ? [s|] ? ?]|]; [|done..]. unfold with_credential.
  exact (backend_wide _ _ _ _ s Hb eq_refl).
Qed.

Lemma wp_approve_execute_life id p p' rule w0 w :
  RequestID p' = id → slot_of w0 id = At (tag_of p) (Waiting (length (Approvals p))) →
  wide p' → tag_of p' = tag_of p → length (Approvals p') = S (length (Approvals p)) →
  quorum k ≤ Z.of_nat (S (length (Approvals p))) →
  edits id (allowed (AVote id) w0 id) w0 w →
  wp env (approve_execute c id p' rule) (λ _ w', edits id (allowed (AVote id) w0 id) w0 w') w.
Proof.
  intros Hid Hph Hwide Htag Hlen Hq He.
  assert (∀ q, Status q = "approved" → wide q → tag_of q = tag_of p →
    allowed (AVote id) w0 id (Some (Doc (enc_pending q)))) as Hal.
  { intros q Hsq Hwq Htq. eapply allowed_vote; [exact Hph|done|done|]. by right. }
  apply wp_bind, (wp_store_pending_life id (allowed (AVote id) w0 id) _ _ w0); [done|done|by apply Hal|].
  intros [err|] w1 H1; [by apply wp_ret|].
  apply wp_bind, wp_get_entry. intros r w2 H2 _ _.
  assert (edits id (allowed (AVote id) w0 id) w0 w2) as He2
    by by (eapply edits_trans; [exact H1|by apply edits_ro]).
  assert (wp env
    (r ← executeApprovedRequest c (set_Status "approved" p');
     match r with
     | (Some err, pending) =>
         let pending := set_Status "pending" pending in
         let pending := set_Approvals
           (take (length (Approvals pending) - 1) (Approvals pending)) pending in
         _ ← storePendingRequest c pending;
         Ret (go_err (ErrWrap "approval execution failed" err))
     | (None, pending) => Ret (approve_response id pending rule true)
     end) (λ _ w', edits id (allowed (AVote id) w0 id) w0 w') w2) as Hexec.
  { apply wp_bind, wp_execute.
    - intros err w3 H3. eapply (wp_rollback_life id p); [done..|].
      eapply edits_trans; [exact He2|by apply edits_ro].
    - intros execID err w3 H3. eapply (wp_rollback_life id p); [done..|].
      eapply edits_trans; [exact He2|]. by eapply edits_routed, edits_ro.
    - intros execID n' resp now err w3 Hb q Hw.
      assert (RequestID q = id ∧ Approvals q = Approvals p' ∧ Status q = "approved" ∧ tag_of q = tag_of p)
        as (Hqid & Ha & Hs & Ht) by (subst q; by destruct resp as [[? ? [] ? ?]|]).
      assert (wide q) as Hwq by by eapply wide_credential.
      assert (edits id (allowed (AVote id) w0 id) w0 w3) as H3.
      { eapply edits_trans; [exact He2|]. simpl in Hw. rewrite Hid in Hw.
        eapply edits_routed, edits_put; [exact Hw|by apply Hal]. }
      destruct err as [err|]; [|by apply wp_ret]. eapply (wp_rollback_life id p); [done..| |done].
      by rewrite Ha. }
  destruct r as [[q|]|err]; [|exact Hexec|by apply wp_ret].
  destruct q as [? ? ? ? ? ? ? ? ? ? ? ? ? [cred|] ? ? ? ?]; [by apply wp_ret|exact Hexec].
Qed.

Lemma wp_approve_life id req w :
  Inv k w → valid_utf8 id = id →
  wp env (handleApprovalApprove c id req) (λ _ w', edits id (allowed (AVote id) w id) w w') w.
Proof.
  intros Hw Hid. apply wp_bind, (wp_guards_life (AVote id)); [by left| |by intros; apply wp_ret].
  intros p rule w1 H1 Hdr. pose proof (decidable_waiting _ _ _ _ Hdr) as Hph.
  destruct Hdr as [Hp Hst _ Hrule]. assert (RequestID p = id) as Hpid by by eapply request_id.
  pose proof (pending_wide _ _ _ Hp) as Hwide.
  apply wp_bind, wp_approve_denied.
  2: { intros resp w2 H2. apply wp_ret, edits_ro. by etrans. }
  intros w2 H2 _. apply wp_bind, wp_now. intros w3 H3. cbv zeta.
  set (p' := set_Approvals _ p).
  assert (length (Approvals p') = S (length (Approvals p))) as Hlen
    by (subst p'; simpl; rewrite length_app; simpl; lia).
  assert (edits id (allowed (AVote id) w id) w w3) as He.
  { apply edits_ro. do 2 (etrans; [done|]). done. }
  destruct (Z.leb_spec (ApprovalsRequired rule) (len (Approvals p'))) as [Hq|_].
  { eapply (wp_approve_execute_life id p); [done..| |done]. pose proof (rule_quorum _ _ _ Hw Hrule).
    unfold len in Hq. lia. }
  apply wp_bind, (wp_store_pending_life id (allowed (AVote id) w id) _ _ w); [done..| |].
  - eapply allowed_vote; [exact Hph|done|done|]. left. split; [by subst p'|by right].
  - intros err w4 H4. by apply wp_ret.
Qed.

(** ** Denying and fetching *)

Lemma wp_history_life id P h Q w0 w :
  edits id P w0 w → (∀ err w', edits id P w0 w' → Q err w') →
  wp env (storeHistoryEntry c h) Q w.
Proof.
  intros He HQ. apply wp_put_json. intros err w' Hw. apply HQ.
  eapply edits_trans; [exact He|]. eapply edits_other; [exact Hw|]. by intros id'.
Qed.

Lemma wp_deny_life id req w :
  Inv k w → valid_utf8 id = id →
  wp env (handleApprovalDeny c id req) (λ _ w', edits id (allowed (ADeny id) w id) w w') w.
Proof.
  intros Hw Hid. apply wp_bind, (wp_guards_life (ADeny id)); [by right| |by intros; apply wp_ret].
  intros p rule w1 H1 Hdr. pose proof (decidable_waiting _ _ _ _ Hdr) as Hph.
  destruct Hdr as [Hp _ _ _]. assert (RequestID p = id) as Hpid by by eapply request_id.
  pose proof (pending_wide _ _ _ Hp) as Hwide.
  cbv zeta. apply wp_bind, wp_callerIsRoot. intros root w2 H2 _.
  assert (edits id (allowed (ADeny id) w id) w w2) as He2 by (apply edits_ro; by etrans).
  destruct (_ && _); [by apply wp_ret|].
  apply wp_bind, (wp_store_pending_life id (allowed (ADeny id) w id) _ _ w); [done..| |].
  { unfold allowed. rewrite Hph, slot_written; [by apply am_deny|done|]. simpl. set_solver. }
  intros [err|] w3 H3; [by apply wp_ret|].
  apply wp_bind, wp_now. intros w4 H4. apply wp_bind, wp_entity_name. intros name w5 H5.
  apply wp_bind, (wp_history_life id (allowed (ADeny id) w id) _ _ w).
  { eapply edits_trans; [exact H3|]. apply edits_ro. by etrans. }
  intros err w6 H6. by apply wp_ret.
Qed.

Lemma wp_drop_life id P Q w0 w :
  edits id P w0 w → P None → (∀ w', edits id P w0 w' → Q () w') →
  wp env (drop_pending c id) Q w.
Proof.
  intros He HP HQ. apply wp_drop_pending. intros err w' Hw. apply HQ.
  eapply edits_trans; [exact He|]. by eapply edits_delete.
Qed.

Lemma wp_fetch_approved_life id p w0 w :
  RequestID p = id → Status p = "approved" → pending_at (w_store w0) id p →
  edits id (allowed (AFetch id) w0 id) w0 w →
  wp env (fetch_approved c id p) (λ _ w', edits id (allowed (AFetch id) w0 id) w0 w') w.
Proof.
  intros Hid Hst Hp He. unfold fetch_approved.
  destruct (CredentialData p) as [cred|] eqn:Hc; [|by apply wp_ret].
  assert (slot_of w0 id = At (tag_of p) (Approved true)) as Hsl.
  { rewrite (slot_of_pending _ _ _ Hp). unfold phase_of_request.
    by rewrite decide_False, decide_True, Hc by congruence. }
  assert (allowed (AFetch id) w0 id None) as Hnone by (unfold allowed; rewrite Hsl; by apply am_remove).
  apply wp_bind. eapply (wp_mono _ _ (λ _ w1, edits id (allowed (AFetch id) w0 id) w0 w1)).
  2: { destruct (IsZero _); [done|]. apply wp_bind, wp_time_Since. intros w1 H1. apply wp_ret.
       eapply edits_trans; [exact He|by apply edits_ro]. }
  assert (∀ h w2, edits id (allowed (AFetch id) w0 id) w0 w2 → ∀ r : Resp,
    wp env (_ ← storeHistoryEntry c h; Ret r) (λ _ w', edits id (allowed (AFetch id) w0 id) w0 w') w2) as Hh.
  { intros h w2 H2 r. apply wp_bind, (wp_history_life id (allowed (AFetch id) w0 id) _ _ w0); [done|].
    intros err w3 H3. by apply wp_ret. }
  intros [] w1 H1.
  - apply wp_bind, (wp_drop_life id (allowed (AFetch id) w0 id) _ w0); [done|done|].
    intros w2 H2. apply wp_bind, wp_last_approver. intros by_ w3 H3.
    apply wp_bind, wp_now. intros w4 H4. apply Hh. eapply edits_trans; [exact H2|].
    apply edits_ro. by etrans.
  - apply wp_bind, (wp_store_pending_life id (allowed (AFetch id) w0 id) _ _ w0); [done..| |].
    { unfold allowed. rewrite Hsl, slot_written; [|exact (pending_wide _ _ _ Hp)|simpl; rewrite Hst; set_solver].
      simpl. rewrite decide_False, decide_True by congruence. by apply am_burn. }
    intros _ w2 H2. apply wp_bind, wp_Delete. intros err w3 H3.
    assert (edits id (allowed (AFetch id) w0 id) w0 w3) as He3.
    { eapply edits_trans; [exact H2|]. by eapply edits_delete. }
    destruct err; [by apply wp_ret|]. apply wp_bind, wp_last_approver. intros by_ w4 H4.
    apply wp_bind, wp_now. intros w5 H5. apply Hh. eapply edits_trans; [exact He3|].
    apply edits_ro. by etrans.
Qed.

Lemma wp_fetch_life id req w :
  Inv k w → valid_utf8 id = id →
  wp env (handleApprovalFetch c id req) (λ _ w', edits id (allowed (AFetch id) w id) w w') w.
Proof.
  intros Hw Hid. apply wp_bind, wp_get_entry. intros r w1 H1 Hp _.
  destruct r as [[p|]|err]; [|by apply wp_ret, edits_ro..]. specialize (Hp _ eq_refl).
  assert (RequestID p = id) as Hpid by by eapply request_id.
  apply wp_bind. eapply (wp_mono _ _ (λ _ w2, ro w w2)).
  2: { destruct (decide _); [|done]. apply wp_callerIsRoot. intros b w2 H2 _. by etrans. }
  intros [] w2 H2; csimplb; [|by apply wp_ret, edits_ro].
  destruct (decide (Status p = "pending")) as [Hst|].
  { apply wp_bind, wp_now. intros w3 H3.
    assert (edits id (allowed (AFetch id) w id) w w3) as He by (apply edits_ro; by etrans).
    destruct (After _ _); [|by apply wp_ret].
    apply wp_bind, (wp_drop_life id (allowed (AFetch id) w id) _ w); [done| |].
    { unfold allowed. rewrite (slot_of_pending _ _ _ Hp). apply am_remove. unfold phase_of_request.
      by rewrite decide_True. }
    intros w4 H4. apply wp_bind, wp_now. intros w5 H5.
    apply wp_bind, (wp_history_life id (allowed (AFetch id) w id) _ _ w);
      [eapply edits_trans; [exact H4|by apply edits_ro]|].
    intros err w6 H6. by apply wp_ret. }
  destruct (decide (Status p = "denied")); [by apply wp_ret, edits_ro|].
  destruct (decide (Status p = "approved")); [|by apply wp_ret, edits_ro].
  apply wp_fetch_approved_life; [done..|by apply edits_ro].
Qed.

(** ** Lists, sweeps and new requests *)

(** [w'] is [w] without some requests that the action may remove. *)
Definition drops (a : action) (w w' : World) : Prop :=
  ∀ id, entry_of w' id = entry_of w id ∨
    entry_of w' id = None ∧
    ∃ p, pending_at (w_store w) id p ∧ removable a id (tag_of p) (phase_of_request p).

#[local] Instance drops_preorder a : PreOrder (drops a).
Proof.
  split; [by left|]. intros w1 w2 w3 H1 H2 id.
  destruct (H2 id) as [He2|(He2 & p & Hp & Hr)]; rewrite He2; [apply H1|].
  destruct (H1 id) as [He1|[He1 Hx]]; [|by right].
  right. split; [done|]. exists p. split; [|done]. destruct Hp as (v & Hv & Hd).
  exists v. split; [|done]. unfold entry_of in He1. by rewrite <-He1.
Qed.

Lemma drops_same a w w' : (∀ id, entry_of w' id = entry_of w id) → drops a w w'.
Proof. intros Heq id. by left. Qed.

Lemma drops_ro a w w' : ro w w' → drops a w w'.
Proof. intros Hr. by apply drops_same, ro_entries. Qed.

Lemma drops_advances a w w' : drops a w w' → advances a w w'.
Proof.
  intros Hd id. destruct (Hd id) as [He|(He & p & Hp & Hr)].
  - unfold slot_of. rewrite He. apply am_stay.
  - rewrite (slot_of_pending _ _ _ Hp). unfold slot_of. rewrite He. by apply am_remove.
Qed.

(** Deleting a request that the action may remove. *)
Lemma drops_deleted a key p err w w' :
  wrote err (delete (akey ("pending/" +:+ key)) (w_store w)) w w' →
  pending_at (w_store w) key p → removable a key (tag_of p) (phase_of_request p) → drops a w w'.
Proof.
  intros Hw Hp Hr id. destruct Hw as [Hs|[Hro _]]; [|left; by apply ro_entries]. apply stored_store in Hs.
  unfold entry_of. rewrite Hs. destruct (decide (id = key)) as [->|Hne].
  - right. rewrite lookup_delete_eq. split; [done|]. by exists p.
  - left. rewrite lookup_delete_ne; [done|]. by apply not_eq_sym, entry_key.
Qed.

Lemma wp_Delete_drops {A} a key p (x : A) w0 w Q :
  drops a w0 w → pending_at (w_store w) key p → removable a key (tag_of p) (phase_of_request p) →
  (∀ w', drops a w0 w' → Q x w') →
  wp env (_ ← Delete (approvalStorage c) ("pending/" +:+ key); Ret x) Q w.
Proof.
  intros Hd Hp Hr HQ. apply wp_bind, wp_Delete. intros err w' Hw. apply wp_ret, HQ.
  etrans; [exact Hd|by eapply drops_deleted].
Qed.

Lemma wp_drop_drops {A} a key p (x : A) w0 w Q :
  drops a w0 w → pending_at (w_store w) key p → removable a key (tag_of p) (phase_of_request p) →
  (∀ w', drops a w0 w' → Q x w') →
  wp env (_ ← drop_pending c key; Ret x) Q w.
Proof.
  intros Hd Hp Hr HQ. apply wp_bind, wp_drop_pending. intros err w' Hw. apply wp_ret, HQ.
  etrans; [exact Hd|by eapply drops_deleted].
Qed.

Lemma pending_ro w w' id p : ro w w' → pending_at (w_store w) id p → pending_at (w_store w') id p.
Proof. intros Hr. by rewrite (ro_store _ _ Hr). Qed.

(** A loop that only drops. *)
Lemma wp_range_drops {A S R} a (l : list A) (s : S) (body : A → S → handler (S + R)) w0 w Q :
  drops a w0 w → (∀ x s w, drops a w0 w → wp env (body x s) (λ _ w', drops a w0 w') w) →
  (∀ r w', drops a w0 w' → Q r w') → wp env (range l s body) Q w.
Proof.
  intros Hd Hb HQ. apply (wp_range _ (λ _ w', drops a w0 w')); [done| |intros; by apply HQ].
  intros x s' w' _ Hw'. eapply wp_mono; [|by apply Hb]. intros [s''|r] w'' Hw''; [done|by apply HQ].
Qed.

Lemma phase_pending p : Status p = "pending" → phase_of_request p = Waiting (length (Approvals p)).
Proof. intros Hp. unfold phase_of_request. by rewrite decide_True. Qed.
Lemma phase_approved p : Status p = "approved" → ∃ u, phase_of_request p = Approved u.
Proof. intros Hp. unfold phase_of_request. rewrite decide_False, decide_True by congruence. eauto. Qed.

Lemma wp_approvable_life req w :
  wp env (handleApprovalApprovable c req) (λ _ w', drops AApprovable w w') w.
Proof.
  apply wp_bind, wp_callerIsRoot. intros root w1 H1 _. destruct (_ && _); [by apply wp_ret, drops_ro|].
  apply wp_bind, wp_List. intros [keys|err] w2 H2 _; [|apply wp_ret, drops_ro; by etrans].
  apply wp_bind, (wp_range_drops AApprovable _ _ _ w); [apply drops_ro; by etrans| |by intros].
  clear w1 w2 H1 H2. intros key l w1 H1. apply wp_bind, wp_read_listed. intros [p|] w2 H2 Hp.
  2: { apply wp_ret. etrans; [done|by apply drops_ro]. }
  specialize (Hp _ eq_refl). assert (drops AApprovable w w2) as Hw2 by (etrans; [done|by apply drops_ro]).
  case_bool_decide as Hst; csimplb; [|by apply wp_ret].
  apply wp_bind, wp_now. intros w3 H3.
  assert (drops AApprovable w w3) as Hw3 by (etrans; [done|by apply drops_ro]).
  destruct (After _ _).
  { apply (wp_drop_drops AApprovable _ p _ w); [done|by do 2 (eapply pending_ro; [done|])| |done].
    by rewrite phase_pending. }
  destruct root; [by apply wp_ret|]. apply wp_bind, wp_get_entry. intros r w4 H4 _ _. apply wp_ret.
  etrans; [done|by apply drops_ro].
Qed.

Lemma wp_history_list_life a w0 w Q :
  drops a w0 w → (∀ r w', drops a w0 w' → Q r w') → wp env (listAllHistoryEntries c) Q w.
Proof.
  intros Hd HQ. apply wp_bind, wp_List. intros [keys|err] w1 H1 _;
    [|apply wp_ret, HQ; etrans; [done|by apply drops_ro]].
  apply wp_bind, wp_now. intros w2 H2.
  apply wp_bind, (wp_range_drops a _ _ _ w0); [do 2 (etrans; [|by apply drops_ro]); done| |].
  - intros key l w3 H3. apply wp_bind, wp_read_listed. intros [h|] w4 H4 _.
    2: { apply wp_ret. etrans; [done|by apply drops_ro]. }
    assert (drops a w0 w4) by (etrans; [done|by apply drops_ro]).
    destruct (After _ _); [|by apply wp_ret]. apply wp_bind, wp_Delete. intros err w5 Hw5. apply wp_ret.
    etrans; [done|]. apply drops_same. eapply (other_entries _ ("history/" +:+ key)); [exact Hw5| |by intros id'].
    intros k' Hne. by rewrite lookup_delete_ne.
  - intros r w3 H3. by apply wp_ret, HQ.
Qed.

Lemma wp_my_requests_life req w :
  wp env (handleApprovalMyRequests c req) (λ _ w', drops (AMine (valid_utf8 (req_EntityID req))) w w') w.
Proof.
  set (a := AMine _). unfold handleApprovalMyRequests. destruct (decide _); [by apply wp_ret|].
  apply wp_bind, wp_List. intros [keys|err] w1 H1 _; [|by apply wp_ret, drops_ro].
  apply wp_bind, (wp_range_drops a _ _ _ w); [by apply drops_ro| |].
  2: { intros r w2 H2. apply wp_bind, wp_bind, (wp_history_list_life a w); [done|]. intros. by apply wp_ret, wp_ret. }
  clear w1 H1. intros key l w1 H1. apply wp_bind, wp_read_listed. intros [p|] w2 H2 Hp.
  2: { apply wp_ret. etrans; [done|by apply drops_ro]. }
  specialize (Hp _ eq_refl). assert (drops a w w2) as Hw2 by (etrans; [done|by apply drops_ro]).
  case_bool_decide as He; csimplb; [|by apply wp_ret].
  apply wp_bind. eapply (wp_mono _ _ (λ b w3, ro w2 w3 ∧ (b = true → Status p = "pending" ∨ Status p = "approved"))).
  - intros [] w3 [H3 Hst]; [|apply wp_ret; etrans; [done|by apply drops_ro]].
    apply (wp_drop_drops a _ p _ w); [etrans; [done|by apply drops_ro]|by do 2 (eapply pending_ro; [done|])| |done].
    destruct (Hst eq_refl) as [Hs|Hs].
    + rewrite phase_pending by done. simpl. by rewrite He.
    + destruct (phase_approved _ Hs) as [u ->]. simpl. by rewrite He.
  - unfold my_stale. destruct (decide _); [apply wp_bind, wp_now; intros w3 H3; apply wp_ret; auto|].
    destruct (decide _); [|by apply wp_ret]. destruct (IsZero _); [by apply wp_ret|].
    apply wp_bind, wp_time_Since. intros w3 H3. apply wp_ret. auto.
Qed.

Lemma wp_pending_read_life id req w :
  wp env (handleApprovalPendingRead c id req) (λ _ w', drops (ALook id) w w') w.
Proof.
  apply wp_bind, wp_get_entry. intros r w1 H1 Hp _.
  destruct r as [[p|]|err]; [|by apply wp_ret, drops_ro..]. specialize (Hp _ eq_refl).
  apply wp_bind. eapply (wp_mono _ _ (λ _ w2, w_store w2 = w_store w)).
  - intros [] w2 H2; csimplb; [|apply wp_ret, drops_same; intros id'; unfold entry_of; by rewrite H2].
    apply wp_bind. eapply (wp_mono _ _ (λ b w3, w_store w3 = w_store w ∧ (b = true → Status p = "pending"))).
    + intros [] w3 [H3 Hst].
      * apply (wp_drop_drops (ALook id) _ p _ w); [|by rewrite H3| |done].
        { apply drops_same. intros id'. unfold entry_of. by rewrite H3. }
        by rewrite phase_pending by auto.
      * apply wp_ret, drops_same. intros id'. unfold entry_of. by rewrite H3.
    + destruct (decide _); [|by apply wp_ret]. apply wp_bind, wp_now. intros w3 H3. apply wp_ret.
      by rewrite (ro_store _ _ H3).
  - rewrite <-(ro_store _ _ H1). apply no_write_store.
    apply obeys_bind, ob_callerIsRoot. intros []; [done|]. destruct (_ && _); [done|].
    by apply obeys_bind, ob_get_entry.
Qed.

Lemma wp_rule_delete_life id req w :
  wp env (handleApprovalRuleDelete c id req) (λ _ w', drops (ADropRule (valid_utf8 id)) w w') w.
Proof.
  set (a := ADropRule _). apply wp_bind. eapply (wp_mono _ _ (λ _ w1, drops a w w1)).
  - intros _ w1 H1. apply wp_bind, wp_Delete. intros err w2 H2. apply wp_ret. etrans; [exact H1|].
    apply drops_same. eapply (other_entries _ ("config/" +:+ id)); [exact H2| |by intros id']. intros k' Hne. by rewrite lookup_delete_ne.
  - apply wp_bind, wp_List. intros [keys|err] w1 H1 _; [|by apply wp_ret, drops_ro].
    apply wp_bind, (wp_range_drops a _ _ _ w); [by apply drops_ro| |by intros].
    clear w1 H1. intros key [] w1 H1. apply wp_bind, wp_read_listed. intros [p|] w2 H2 Hp.
    2: { apply wp_ret. etrans; [done|by apply drops_ro]. }
    specialize (Hp _ eq_refl). assert (drops a w w2) as Hw2 by (etrans; [done|by apply drops_ro]).
    destruct (decide _) as [Hid|]; [|by apply wp_ret].
    apply (wp_Delete_drops a _ p _ w); [done|by eapply pending_ro| |done].
    simpl. rewrite Hid. by destruct (phase_of_request p).
Qed.

(** ** New requests *)

Lemma wp_no_write {A} (p : handler A) Q w :
  obeys no_write any_answer p (λ _, True) →
  (∀ r w', w_store w' = w_store w → (w_tick w ≤ w_tick w')%nat → Q r w') → wp env p Q w.
Proof. intros Hp HQ. apply HQ; [by apply no_write_store|apply exec_tick]. Qed.

Lemma wp_dedup_life req keys w0 w Q :
  let a := AAsk (valid_utf8 (req_EntityID req)) (valid_utf8 (req_Path req)) in
  drops a w0 w → (∀ r w', drops a w0 w' → Q r w') → wp env (range keys () (dedup_body c req)) Q w.
Proof.
  intros a Hd HQ. apply (wp_range_drops a _ _ _ w0); [done| |done].
  intros key [] w1 H1. apply wp_bind, wp_read_listed. intros [p|] w2 H2 Hp.
  2: { apply wp_ret. etrans; [done|by apply drops_ro]. }
  specialize (Hp _ eq_refl). assert (drops a w0 w2) as Hw2 by (etrans; [done|by apply drops_ro]).
  assert (∀ w3 ph, phase_of_request p = ph → (match ph with Denied => False | _ => True end) → ro w2 w3 →
    RequesterEntityID p = req_EntityID req → OriginalPath p = req_Path req →
    wp env (_ ← Delete (approvalStorage c) ("pending/" +:+ key); Ret (inl () : () + Resp)) (λ _ w', drops a w0 w') w3) as Hdel.
  { intros w3 ph Hph Hok H3 He Hpa.
    apply (wp_Delete_drops a _ p _ w0); [etrans; [done|by apply drops_ro]|by do 2 (eapply pending_ro; [done|])| |done].
    simpl. rewrite Hph, He, Hpa. by destruct ph. }
  case_bool_decide as He; csimplb; [|by apply wp_ret]. case_bool_decide as Hpa; csimplb; [|by apply wp_ret].
  destruct (decide (Status p = "pending")) as [Hst|].
  { apply wp_bind, wp_now. intros w3 H3. destruct (Before _ _).
    - apply wp_ret. etrans; [done|by apply drops_ro].
    - by eapply Hdel; [apply phase_pending|..]. }
  destruct (decide (Status p = "approved")) as [Hst|]; [|by apply wp_ret].
  destruct (phase_approved _ Hst) as [u Hu].
  apply wp_bind. eapply (wp_mono _ _ (λ _ w3, ro w2 w3)).
  - intros since w3 H3. destruct (from_option _ _ _); [|by eapply Hdel].
    apply wp_bind, wp_time_Since. intros w4 H4. apply wp_ret. etrans; [done|]. apply drops_ro. by etrans.
  - destruct (CredentialData p); [|done]. destruct (IsZero _); [done|].
    apply wp_bind, wp_time_Since. intros w3 H3. by apply wp_ret.
Qed.

(** A new entry is one that was drawn. *)
Definition only_drawn (w w' : World) : Prop :=
  ∀ id, entry_of w id = None → entry_of w' id ≠ None → drawn env w w' id.

Lemma drops_only_drawn a w w' : drops a w w' → only_drawn w w'.
Proof. intros Hd id Hn Hs. destruct (Hd id) as [He|[He _]]; congruence. Qed.

Lemma wp_park_life req rule w0 w :
  let a := AAsk (valid_utf8 (req_EntityID req)) (valid_utf8 (req_Path req)) in
  fresh_ids env w0 → drops a w0 w → (w_tick w0 ≤ w_tick w)%nat →
  wp env (park_request c req rule) (λ _ w', advances a w0 w' ∧ only_drawn w0 w') w.
Proof.
  intros a Hf Hd Ht. apply wp_bind, wp_trigger. cbn [core_handle fst snd]. set (w1 := tick w).
  assert (∀ w', drops a w0 w' → advances a w0 w' ∧ only_drawn w0 w') as Hdrops.
  { intros w' Hw'. split; [by apply drops_advances|by eapply drops_only_drawn]. }
  destruct (env_uuid env (w_tick w)) as [u|err] eqn:Hu; [|by apply wp_ret, Hdrops].
  apply wp_bind, wp_trigger. cbn [core_handle fst snd]. set (w2 := tick w1). cbv zeta. set (p := parked _ _ _ _).
  apply wp_bind, wp_tick, wp_put_json. intros err w3 Hw Ht3. simpl in Ht3.
  assert (drops a w0 w2) as Hd2 by done.
  assert (∀ w', (∀ id, entry_of w' id = entry_of w3 id) → (w_tick w3 ≤ w_tick w')%nat →
    advances a w0 w' ∧ only_drawn w0 w') as Hdone.
  { intros w' He' Ht'. destruct Hw as [Hs|[Hro _]].
    2: { apply Hdrops. etrans; [exact Hd2|]. apply drops_same. intros id. by rewrite He', (ro_entries _ _ Hro). }
    apply stored_store in Hs. assert (∀ id, id ≠ u → entry_of w' id = entry_of w id) as Hoth.
    { intros id Hne. rewrite He'. unfold entry_of. rewrite Hs, lookup_insert_ne; [done|].
      by apply not_eq_sym, entry_key. }
    split.
    - intros id. destruct (decide (id = u)) as [->|Hne].
      + unfold slot_of. rewrite He'. unfold entry_of. rewrite (Hf _ _ Ht Hu), Hs, lookup_insert_eq.
        rewrite slot_written; [|by split|by apply (bool_decide_unpack _)]. by apply am_park.
      + pose proof (drops_advances _ _ _ Hd id) as Hm. unfold slot_of in *. by rewrite Hoth.
    - intros id Hn Hne. destruct (decide (id = u)) as [->|Hid].
      + exists (w_tick w). split; [lia|done].
      + rewrite Hoth in Hne by done. destruct (Hd id) as [He|[He _]]; congruence. }
  destruct err as [err|]; [by apply wp_ret, Hdone|].
  apply wp_bind, wp_no_write.
  - destruct (decide _); [done|]. by apply obeys_bind, ob_approver_names.
  - intros [] w4 H4 Ht4. apply wp_ret, Hdone; [|done]. intros id. unfold entry_of. by rewrite H4.
Qed.

Lemma wp_interceptor_life req auth w :
  let a := AAsk (valid_utf8 (req_EntityID req)) (valid_utf8 (req_Path req)) in
  fresh_ids env w →
  wp env (checkNeedsApproval c req auth) (λ _ w', advances a w w' ∧ only_drawn w w') w.
Proof.
  intros a Hf. assert (∀ w', drops a w w' → advances a w w' ∧ only_drawn w w') as Hdrops.
  { intros w' Hw'. split; [by apply drops_advances|by eapply drops_only_drawn]. }
  unfold checkNeedsApproval. destruct (exempt_path _); [by apply wp_ret, Hdrops|].
  destruct (negb _); [by apply wp_ret, Hdrops|]. destruct (from_option _ _ auth); [by apply wp_ret, Hdrops|].
  apply wp_bind, wp_tick, wp_List. intros [[|key keys]|err] w1 H1 _ Ht1;
    try by apply wp_ret, Hdrops, drops_ro.
  apply wp_bind, wp_no_write; [by apply ob_matching_rule|].
  intros [rule|] w2 H2 Ht2; assert (drops a w w2) as Hd2
    by (apply drops_same; intros id; unfold entry_of; by rewrite H2, (ro_store _ _ H1));
    [|by apply wp_ret, Hdrops].
  apply wp_bind, wp_tick. eapply (wp_mono _ _ (λ _ w3, drops a w w3)).
  - intros [[|] [|]] w3 H3 Ht3; try by apply wp_ret, Hdrops. apply wp_park_life; [done..|lia].
  - destruct (decide _); [done|]. apply wp_bind, wp_List. intros [keys'|err] w3 H3 _.
    2: { apply wp_ret. etrans; [done|by apply drops_ro]. }
    apply wp_bind, (wp_dedup_life req _ w); [etrans; [done|by apply drops_ro]|].
    by intros [[]|r] w4 H4.
Qed.

Lemma wp_dispatch_life ctx entry req auth w :
  let a := AAsk (valid_utf8 (req_EntityID req)) (valid_utf8 (req_Path req)) in
  fresh_ids env w →
  wp env (dispatch c ctx entry req auth) (λ _ w', advances a w w' ∧ only_drawn w w') w.
Proof.
  intros a Hf. unfold dispatch. destruct (isApprovalBypass ctx).
  { apply wp_no_write; [by apply ob_route_request|]. intros r w' Hs _.
    assert (drops a w w') as Hd by (apply drops_same; intros id; unfold entry_of; by rewrite Hs).
    split; [by apply drops_advances|by eapply drops_only_drawn]. }
  apply wp_bind. eapply wp_mono; [|by apply wp_interceptor_life].
  intros [[resp b] err] w1 [H1 Hd1]. destruct (_ || _); [by apply wp_ret|].
  apply wp_no_write; [by apply ob_route_request|]. intros r w' Hs Ht. split.
  - intros id. specialize (H1 id). unfold slot_of, entry_of in *. by rewrite Hs.
  - intros id Hn Hne. unfold entry_of in Hne. rewrite Hs in Hne. destruct (Hd1 id Hn Hne) as (n & Hn' & Hu).
    exists n. split; [lia|done].
Qed.

Lemma wp_rule_write_life id f req w :
  wp env (handleApprovalRuleWrite c id f req) (λ _ w', ∀ id', entry_of w' id' = entry_of w id') w.
Proof.
  unfold handleApprovalRuleWrite. destruct (decide _); [by apply wp_ret|].
  apply wp_bind, wp_get_entry. intros [r|err] w1 H1 _ _; [|by apply wp_ret, ro_entries]. cbv zeta.
  destruct (update_rule f _) as [r1|]; [|by apply wp_ret, ro_entries].
  destruct (update_rule_url f r1) as [r2|]; [|by apply wp_ret, ro_entries].
  unfold check_and_put_rule. do 2 (destruct (decide _); [by apply wp_ret, ro_entries|]).
  apply wp_bind, wp_put_json. intros err w2 H2. apply wp_ret. intros id'.
  rewrite <-(ro_entries _ _ H1). eapply (other_entries _ ("config/" +:+ RuleID r2)); [exact H2| |by intros id''].
  intros k' Hne. by rewrite lookup_insert_ne.
Qed.

(** ** Every call *)

Lemma capture_uuid prefix path id : capture prefix uuidPattern path = Some id → uuidPattern id = true.
Proof.
  unfold capture. destruct (strip_prefix prefix path) as [x|]; [|done].
  destruct (uuidPattern x) eqn:Hx; [|done]. by intros [= <-].
Qed.

Lemma endpoint_uuid path e :
  approval_endpoint path = Some e →
  match e with EApprove id | EDeny id | EFetch id => uuidPattern id = true | _ => True end.
Proof.
  unfold approval_endpoint. intros He.
  destruct (capture _ ruleIDPattern path); [by injection He as <-|].
  destruct (bool_decide _); [by injection He as <-|].
  destruct (capture "approvals/pending/" _ path); [by injection He as <-|].
  destruct (bool_decide _); [by injection He as <-|].
  destruct (capture "approvals/approve/" _ path) eqn:H1; [injection He as <-; by eapply capture_uuid|].
  destruct (capture "approvals/deny/" _ path) eqn:H2; [injection He as <-; by eapply capture_uuid|].
  do 3 (destruct (decide _); [by injection He as <-|]).
  destruct (capture "approvals/fetch/" _ path) eqn:H3; [injection He as <-; by eapply capture_uuid|].
  destruct (decide _); [by injection He as <-|done].
Qed.

(** No move takes an absent slot anywhere but to a new request. *)
Lemma advances_only_drawn a w w' :
  (∀ e p, a ≠ AAsk e p) → advances a w w' → only_drawn w w'.
Proof.
  intros Ha Hadv id Hn Hne. exfalso. specialize (Hadv id). unfold slot_of in Hadv. rewrite Hn in Hadv.
  simpl in Hadv. remember (slot_of_blob (entry_of w' id)) as y eqn:Hy.
  inversion Hadv as [x| | | | | |]; subst; [|naive_solver].
  destruct (entry_of w' id) as [[v|]|]; [|done..]. simpl in *. by destruct (dec_pending v).
Qed.

Lemma wp_serve_life x w :
  Inv k w → fresh_ids env w →
  wp env (serve c x) (λ _ w', advances (action_of x) w w' ∧ only_drawn w w') w.
Proof.
  intros Hw Hf. destruct x as [path op f req|ctx entry req auth]; [|by apply wp_dispatch_life].
  eapply (wp_mono _ _ (λ _ w', advances (action_of (Api path op f req)) w w')).
  { intros _ w' Hadv. split; [done|]. eapply advances_only_drawn; [|exact Hadv].
    intros e p. simpl. repeat case_match; done. }
  assert (∀ a, advances a w w) as Hrefl by (intros a id; apply am_stay).
  assert (∀ a (h : handler Resp), obeys no_write any_answer h (λ _, True) →
    wp env h (λ _ w', advances a w w') w) as Hread.
  { intros a h Hh. apply wp_no_write; [done|]. intros _ w' Hs _.
    apply same_advances. intros id. unfold entry_of. by rewrite Hs. }
  simpl. unfold handle_approvals.
  destruct (approval_endpoint path) as [e|] eqn:He; [|by apply wp_ret].
  apply endpoint_uuid in He.
  destruct (callback c e op f req) as [h|] eqn:Hc; [|by apply wp_ret]. unfold callback in Hc.
  destruct e; match goal with |- wp _ _ (λ _ w', advances ?a _ _) _ => set (a0 := a) end;
    repeat case_decide; try done; injection Hc as <-; subst.
  - apply Hread. by apply obeys_bind, ob_get_entry.
  - eapply wp_mono; [|apply wp_rule_write_life]. intros r w'. apply same_advances.
  - eapply wp_mono; [|apply wp_rule_write_life]. intros r w'. apply same_advances.
  - eapply wp_mono; [|apply wp_rule_delete_life]. intros r w'. apply drops_advances.
  - apply Hread. by apply ob_list_keys.
  - eapply wp_mono; [|apply wp_pending_read_life]. intros r w'. apply drops_advances.
  - apply Hread. apply obeys_bind, ob_root_or_approver. intros [r|]; [done|]. by apply ob_list_keys.
  - eapply wp_mono; [|apply wp_approve_life; [done|by apply uuidPattern_utf8]]. intros r w'. apply edits_advances.
  - eapply wp_mono; [|apply wp_deny_life; [done|by apply uuidPattern_utf8]]. intros r w'. apply edits_advances.
  - eapply wp_mono; [|apply wp_my_requests_life]. intros r w'. apply drops_advances.
  - eapply wp_mono; [|apply wp_approvable_life]. intros r w'. apply drops_advances.
  - apply Hread. unfold handleApprovalRequiresApproval. case_decide; [done|].
    apply obeys_bind, ob_List. intros [keys|err]; [|done]. by apply obeys_bind, ob_matching_rule.
  - eapply wp_mono; [|apply wp_fetch_life; [done|by apply uuidPattern_utf8]]. intros r w'. apply edits_advances.
  - apply wp_bind, wp_no_write; [by apply ob_root_or_approver|]. intros r w1 H1 _. assert (drops ANone w w1) as Hd by (apply drops_same; intros id; unfold entry_of; by rewrite H1).
    destruct r as [r|]; [by apply wp_ret, drops_advances|].
    apply wp_bind, (wp_history_list_life ANone w); [done|]. intros r w2 H2. by apply wp_ret, drops_advances.
Qed.

(** ** Refinement *)

(** The calls one after the other. *)
Fixpoint serve_all (xs : list Call) (w : World) : World :=
  match xs with [] => w | x :: xs => serve_all xs (exec env (serve c x) w).2 end.

Lemma Inv_served x w : call_ok k x → Inv k w → Inv k (exec env (serve c x) w).2.
Proof.
  intros Hok Hw. by apply (obeys_run (inv_pre k) (inv_post k) (H := core_handler env)
    (Inv k) (inv_sound k env) (serve c x) (λ _, True)); [apply ob_serve|].
Qed.

(** The generator repeats no identifier. *)
Definition distinct_ids : Prop :=
  ∀ n m u, env_uuid env n = Ok u → env_uuid env m = Ok u → n = m.

Lemma fresh_served x w :
  distinct_ids → Inv k w → fresh_ids env w → fresh_ids env (exec env (serve c x) w).2.
Proof.
  intros Hdi Hw Hf n u Hn Hu. destruct (wp_serve_life x w Hw Hf) as [_ Hnew].
  pose proof (exec_tick env (serve c x) w) as Ht.
  destruct (w_store (exec env (serve c x) w).2 !! akey ("pending/" +:+ u)) as [b|] eqn:Hb; [|done].
  destruct (Hnew u) as (m & Hm & Hu').
  - apply (Hf n); [lia|done].
  - unfold entry_of. by rewrite Hb.
  - pose proof (Hdi _ _ _ Hu Hu'). lia.
Qed.

(** C5: the handlers refine the abstract store of requests.  Serving any list of
    calls one after the other, whatever storage, clock, callers and backends
    do, is a run of the abstract store with the actions of those calls: only a
    client's request creates a request, under its requester and path, and what
    a request is for never changes; votes are added one at a time, by a vote on
    that request and only while it waits; it is granted or denied only while it
    waits, and granted only with as many votes as every rule demands; a
    credential is only taken out by a fetch; a denial is never revised, and
    only the deletion of its rule removes it; the other removals are those of
    [removable].  Identifiers are not repeated, and durations fit their type. *)
Theorem lifecycle_refinement xs w :
  Forall (call_ok k) xs → Inv k w → distinct_ids → fresh_ids env w →
  aruns (quorum k) (action_of <$> xs) (slot_of w) (slot_of (serve_all xs w)).
Proof.
  intros Hok Hw Hdi Hf. revert w Hw Hf. induction Hok as [|x xs Hx _ IH]; intros w Hw Hf; [apply ar_done|].
  rewrite fmap_cons. eapply ar_step.
  - exact (proj1 (wp_serve_life x w Hw Hf)).
  - apply IH; [by apply Inv_served|by apply fresh_served].
Qed.
End lifecycle.

(** ** Witness *)

(** Bob approves, alice fetches the credential and asks again. *)
Definition life_calls : list Call :=
  [approve_by bob_req; Api ("approvals/fetch/" +:+ rid) ReadOperation no_fields alice_req;
   Client (mkCtx None) None alice_read None].

Definition tag0 : Tag := mkTag "db" "alice" "database/creds/readonly".

Lemma distinct_env0 : distinct_ids env0.
Proof.
  intros n m u Hn Hm.
  assert ("uuid-" +:+ pretty n = "uuid-" +:+ pretty m) as He by (simpl in *; congruence).
  apply str_app_inj_l in He. by apply (inj pretty).
Qed.

Lemma fresh_env0 : fresh_ids env0 world_pending.
Proof.
  intros n u _ [= <-]. unfold world_pending, world0, w_store, put_pending, put_rule. simpl.
  rewrite !lookup_insert_ne; [apply lookup_empty|by intros [=]..].
Qed.

Lemma lifecycle_refinement_witness :
  let w n := serve_all env0 core0 (take n life_calls) world_pending in
  slot_of (w 0%nat) rid = At tag0 (Waiting 0) ∧ slot_of (w 1%nat) rid = At tag0 (Approved true) ∧
  slot_of (w 2%nat) rid = Absent ∧
  (∃ u, slot_of (w 2%nat) u = Absent ∧ slot_of (w 3%nat) u = At tag0 (Waiting 0)) ∧
  aruns (quorum 1) (action_of <$> life_calls) (slot_of world_pending)
    (slot_of (serve_all env0 core0 life_calls world_pending)).
Proof.
  intros w. split_and!; [vm_compute; reflexivity..| |].
  - exists "uuid-22". split; vm_compute; reflexivity.
  - apply (lifecycle_refinement env0 core0 1).
    + intros n req resp err s [= <- _] [= <-]. by split.
    + repeat constructor; try (intros ? [=]); vm_compute; congruence.
    + apply Inv_world_pending.
    + apply distinct_env0.
    + apply fresh_env0.
Defined.
