(* ===== verification/ApprovalOps.v ===== *)
(** * What each operation does on working storage

    The functional behaviour of the handlers when storage works: the vote
    that meets the threshold, a failed execution, retrieval, and the writing
    of rules. *)

From S2P Require Import Prelude GoLib Utf8 Storage Core ApprovalTypes ApprovalCore ApprovalPure ApprovalHandlers ApprovalPaths ApprovalJson CoreLogic ApprovalLogic StorageFacts Reliable Interception Effects ApprovalAuthority Scenario.

Lemma pending_sane id : plain id → SanityCheck ("pending/" +:+ id) = None.
Proof. apply plain_sane. by apply (bool_decide_unpack _). Qed.
Lemma config_sane id : plain id → SanityCheck ("config/" +:+ id) = None.
Proof. apply plain_sane. by apply (bool_decide_unpack _). Qed.
Lemma history_sane id : plain id → SanityCheck ("history/" +:+ id) = None.
Proof. apply plain_sane. by apply (bool_decide_unpack _). Qed.

Section operations.
Context `{GoTables} `{RadixTree} (env : Env) (c : Core).

(** ** Approving *)

(** The clock shows instants JSON can carry, also after adding a time to
    live of the workflow. *)
Definition clock_ok : Prop :=
  ∀ n, time_json_ok (env_clock env n) = true ∧
       time_json_ok (env_clock env n + approvalHistoryTTL) = true.

(** A stored request that the caller, not a root token, may vote on. *)
Record votable (w : World) (id : string) (req : Request) (p : PendingRequest)
    (rule : ApprovalRule) : Prop := {
  vt_id : plain id;
  vt_pending : pending_at (w_store w) id p;
  vt_self : RequestID p = id;
  vt_status : Status p = "pending";
  vt_alive : ∀ n, env_clock env n ≤ ExpiresAt p;
  vt_rule_id : plain (p_RuleID p);
  vt_rule : rule_at (w_store w) (p_RuleID p) rule;
  vt_approver : approvalEntityIsAuthorized (req_EntityID req) (AuthorizedApprovers rule) = true;
  vt_duties : req_EntityID req ≠ RequesterEntityID p;
  vt_once : req_EntityID req ∉ ApproverEntityID <$> Approvals p;
  vt_times : forallb time_json_ok (pending_times p) = true;
}.

Definition voted (req : Request) (now : Z) (p : PendingRequest) : PendingRequest :=
  set_Approvals (Approvals p ++ [mkRecord (req_EntityID req) now]) p.

(** The caller, not a root token, may vote on the request as it was read. *)
Record entitled (id : string) (req : Request) (p : PendingRequest) (rule : ApprovalRule)
    : Prop := {
  en_id : plain id;
  en_self : RequestID p = id;
  en_approver : approvalEntityIsAuthorized (req_EntityID req) (AuthorizedApprovers rule) = true;
  en_duties : req_EntityID req ≠ RequesterEntityID p;
  en_once : req_EntityID req ∉ ApproverEntityID <$> Approvals p;
  en_times : forallb time_json_ok (pending_times p) = true;
}.

Lemma votable_entitled w id req p rule : votable w id req p rule → entitled id req p rule.
Proof. intros []. by split. Qed.

(** The guards let a votable request through, *)
Lemma wp_guards_r id req p rule Q w :
  reliable env c w → votable w id req p rule →
  (∀ w', ro w w' → Q (inl (p, rule)) w') → wp env (pending_guards c id) Q w.
Proof.
  intros Hr [Hid Hp Hself Hst Hal Hrid Hrule _ _ _ _] HQ.
  apply wp_bind, (wp_get_entry_r _ _ _ _ p); [done|by apply pending_sane|done|].
  intros w1 H1. rewrite bool_decide_eq_true_2 by done. csimplb.
  apply wp_bind, wp_now. intros w2 H2. unfold After.
  rewrite (proj2 (Z.ltb_ge _ _) (Hal _)).
  assert (ro w w2) as H02 by by etrans.
  apply wp_bind, (wp_get_entry_r _ _ _ _ rule);
    [by eapply reliable_ro|by apply config_sane|by rewrite (ro_store _ _ H02)|].
  intros w3 H3. apply wp_ret, HQ. by etrans.
Qed.

(** and an entitled vote is counted, whatever is stored by then. *)
Lemma wp_vote id req p rule Q w :
  entitled id req p rule →
  (∀ w' now, ro w w' → (∃ n, now = env_clock env n) →
     wp env (if ApprovalsRequired rule <=? len (Approvals (voted req now p)) then
               approve_execute c id (voted req now p) rule
             else
               err ← storePendingRequest c (voted req now p);
               Ret (match err with
                    | Some err => go_err err
                    | None => approve_response id (voted req now p) rule false
                    end)) Q w') →
  wp env (approve_vote c id req p rule) Q w.
Proof.
  intros [_ _ Happ Hdut Honce _] HQ.
  apply wp_bind, wp_bind, wp_callerIsRoot. intros root w4 H4 _.
  rewrite Happ, andb_false_r. apply wp_bind, wp_callerIsRoot. intros root' w5 H5 _.
  rewrite (bool_decide_eq_false_2 (req_EntityID req = RequesterEntityID p)) by done.
  rewrite andb_false_r.
  destruct (existsb _ _) eqn:Hdup.
  { exfalso. apply existsb_exists in Hdup as (a & Ha & [Heq _]%andb_true_iff).
    apply bool_decide_eq_true in Heq. apply Honce, list_elem_of_fmap. exists a.
    by rewrite list_elem_of_In. }
  apply wp_ret, wp_bind, wp_now. intros w6 H6. apply HQ; [|by eexists].
  etrans; [done|]. by etrans.
Qed.

Lemma voted_times req now p :
  forallb time_json_ok (pending_times p) = true → time_json_ok now = true →
  forallb time_json_ok (pending_times (voted req now p)) = true.
Proof.
  unfold pending_times, voted. simpl. rewrite !andb_true_iff, fmap_app, forallb_app. simpl.
  rewrite andb_true_iff. by intros (? & ? & ? & ?) ->.
Qed.

(** The request as the vote that meets the threshold leaves it before it is
    executed. *)
Definition granted (req : Request) (now : Z) (p : PendingRequest) : PendingRequest :=
  set_Status "approved" (voted req now p).

(** No credential is stored yet, and the durations are Go's. *)
Definition fresh (p : PendingRequest) : Prop :=
  CredentialData p = None ∧ int64_ok (SecretTTL p) = true ∧ int64_ok (SecretMaxTTL p) = true.

(** The vote is stored, found without a credential, and executed. *)
Lemma wp_execute_vote id req p rule now Q w :
  reliable env c w → plain id → RequestID p = id → fresh p →
  forallb time_json_ok (pending_times p) = true → time_json_ok now = true →
  (∀ w', stored (<[akey ("pending/" +:+ id) := Doc (enc_pending (granted req now p))]> (w_store w))
           w w' →
     wp env
       (r ← executeApprovedRequest c (granted req now p);
        match r with
        | (Some err, pending) =>
            let pending := set_Status "pending" pending in
            let pending := set_Approvals
              (take (length (Approvals pending) - 1) (Approvals pending)) pending in
            _ ← storePendingRequest c pending;
            Ret (go_err (ErrWrap "approval execution failed" err))
        | (None, pending) => Ret (approve_response id pending rule true)
        end) Q w') →
  wp env (approve_execute c id (voted req now p) rule) Q w.
Proof.
  intros Hr Hid Hself (Hc & Ht & Hm) Htimes Hnow HQ.
  apply wp_bind, wp_put_json_r; [done| |by apply voted_times|].
  { simpl. rewrite Hself. by apply pending_sane. }
  change (RequestID (set_Status "approved" (voted req now p))) with (RequestID p).
  rewrite Hself. intros w1 H1.
  apply wp_bind, (wp_get_entry_r _ _ _ _ (norm_pending (granted req now p))).
  - by eapply reliable_stored.
  - by apply pending_sane.
  - exists (enc_pending (granted req now p)). split; [|by apply dec_enc_pending].
    rewrite (stored_store _ _ _ H1). apply lookup_insert_eq.
  - intros w2 H2. unfold norm_pending.
    change (CredentialData (granted req now p)) with (CredentialData p). rewrite Hc.
    apply HQ. by eapply stored_ro_r.
Qed.

(** The environment's identifiers and backend during an execution. *)
Definition answers_with (p : PendingRequest) (a : option Response * option goerr) : Prop :=
  (∀ n, is_ok (env_uuid env n) = true) ∧ (∀ n x, env_backend env n (reconstructed x p) = a).

(** Up to the backend's answer. *)
Lemma wp_execute_routed p a Q w :
  reliable env c w → answers_with p a →
  (∀ w' execID, reliable env c w' → w_store w' = w_store w →
     w_routed w' = reconstructed execID p :: w_routed w →
     wp env (match a with
             | (_, Some err) =>
                 Ret (Some (ErrWrap "approval: backend execution failed" err), p)
             | (resp, None) =>
                 now ← trigger Now;
                 let pending := with_credential resp now p in
                 err ← storePendingRequest c pending;
                 Ret (err, pending)
             end) Q w') →
  wp env (executeApprovedRequest c p) Q w.
Proof.
  intros Hr [Huuid Hback] HQ. apply wp_bind, wp_uuid. intros w1 H1.
  specialize (Huuid (w_tick w)). destruct (env_uuid env (w_tick w)) as [u|]; [|done].
  apply wp_bind, wp_route. intros w2 H2. rewrite Hback. apply (HQ w2 u).
  - eapply reliable_ro; [|exact H2]. assert (reliable env c w1) as [] by by eapply reliable_ro.
    by split.
  - rewrite (ro_store _ _ H2). change (w_store (add_routed _ w1)) with (w_store w1).
    by rewrite (ro_store _ _ H1).
  - rewrite (ro_routed _ _ H2). simpl. by rewrite (ro_routed _ _ H1).
Qed.

Lemma wp_execute_r p resp Q w :
  reliable env c w → clock_ok → answers_with p (resp, None) → plain (RequestID p) →
  forallb time_json_ok (pending_times p) = true →
  (∀ now execID w', let q := with_credential resp now p in
     w_store w' = <[akey ("pending/" +:+ RequestID p) := Doc (enc_pending q)]> (w_store w) →
     w_routed w' = reconstructed execID p :: w_routed w →
     Q (None, q) w') →
  wp env (executeApprovedRequest c p) Q w.
Proof.
  intros Hr Hclk Ha Hid Htimes HQ. eapply wp_execute_routed; [done..|]. intros w1 u Hr1 Hs1 Hu1.
  apply wp_bind, wp_now. intros w2 H2. cbv zeta. set (q := with_credential _ _ _).
  assert (RequestID q = RequestID p) as Hqid by (subst q; by destruct resp as [[? ? [] ? ?]|]).
  apply wp_bind, wp_put_json_r; [by eapply reliable_ro|rewrite Hqid; by apply pending_sane| |].
  - destruct (Hclk (w_tick w1)) as [Hnow _]. unfold pending_times in *. simpl in Htimes.
    rewrite !andb_true_iff in Htimes. destruct Htimes as (Ht1 & Ht2 & _ & Ht4).
    subst q. destruct resp as [[? ? [] ? ?]|]; simpl; by rewrite Ht1, Ht2, Hnow, Ht4.
  - intros w3 H3. apply wp_ret, (HQ _ u); fold q.
    + by rewrite (stored_store _ _ _ H3), Hqid, (ro_store _ _ H2), Hs1.
    + by rewrite (stored_routed _ _ _ H3), (ro_routed _ _ H2).
Qed.

(** A vote that meets the threshold, up to the execution. *)
Lemma wp_deciding_vote id req p rule Q w :
  reliable env c w → clock_ok → entitled id req p rule → fresh p →
  ApprovalsRequired rule ≤ len (Approvals p) + 1 →
  (∀ now w', let g := granted req now p in
     reliable env c w' → RequestID g = id → forallb time_json_ok (pending_times g) = true →
     w_store w' = <[akey ("pending/" +:+ id) := Doc (enc_pending g)]> (w_store w) →
     w_routed w' = w_routed w →
     wp env
       (r ← executeApprovedRequest c g;
        match r with
        | (Some err, pending) =>
            let pending := set_Status "pending" pending in
            let pending := set_Approvals
              (take (length (Approvals pending) - 1) (Approvals pending)) pending in
            _ ← storePendingRequest c pending;
            Ret (go_err (ErrWrap "approval execution failed" err))
        | (None, pending) => Ret (approve_response id pending rule true)
        end) Q w') →
  wp env (approve_vote c id req p rule) Q w.
Proof.
  intros Hr Hclk Hv Hf Hthr HQ. pose proof Hv as [Hid Hself _ _ _ Htimes].
  eapply wp_vote; [done..|]. intros w1 now H1 [n ->]. destruct (Hclk n) as [Hnow _].
  rewrite (proj2 (Z.leb_le _ _)); [|unfold len, voted in *; simpl; rewrite length_app; simpl; lia].
  eapply wp_execute_vote; [by eapply reliable_ro|done..|]. intros w2 H2. apply HQ.
  - eapply reliable_stored; [|exact H2]. by eapply reliable_ro.
  - done.
  - by apply voted_times.
  - by rewrite (stored_store _ _ _ H2), (ro_store _ _ H1).
  - by rewrite (stored_routed _ _ _ H2), (ro_routed _ _ H1).
Qed.

(** What the vote that meets the threshold leaves: the request [q] with the
    vote and the credential, executed once more. *)
Record executed (id : string) (req : Request) (p : PendingRequest) (rule : ApprovalRule)
    (resp : option Response) (w : World) (r : Resp) (w' : World) : Prop := {
  ex_entry : ∃ now now', let q := with_credential resp now' (granted req now p) in
    r = approve_response id q rule true ∧
    w_store w' = <[akey ("pending/" +:+ id) := Doc (enc_pending q)]> (w_store w);
  ex_routed : ∃ execID, w_routed w' = reconstructed execID p :: w_routed w;
}.

Lemma wp_granting_vote id req p rule resp w :
  reliable env c w → clock_ok → entitled id req p rule → fresh p →
  ApprovalsRequired rule ≤ len (Approvals p) + 1 → answers_with p (resp, None) →
  wp env (approve_vote c id req p rule) (executed id req p rule resp w) w.
Proof.
  intros Hr Hclk Hv Hf Hthr Ha.
  eapply wp_deciding_vote; [done..|]. intros now w1 g Hr1 Hgid Htimes Hs1 Hu1.
  apply wp_bind, (wp_execute_r g resp); [done..| |done|].
  { rewrite Hgid. by apply (en_id _ _ _ _ Hv). }
  intros now' u w2 q Hs2 Hu2. apply wp_ret. split.
  - exists now, now'. split; [done|]. rewrite Hs2, Hgid, Hs1. apply insert_insert_eq.
  - exists u. by rewrite Hu2, Hu1.
Qed.

(** C27: the vote that meets the threshold executes the parked request and stores
    its credential: on working storage, with a backend that answers, approve
    reports success, the request rebuilt from the parked one reaches the
    backend exactly once, and the stored entry is the request with the vote
    added, its status approved and the backend's answer as its credential. *)
Theorem approve_grants id req p rule resp w :
  reliable env c w → clock_ok → votable w id req p rule → fresh p →
  ApprovalsRequired rule ≤ len (Approvals p) + 1 → answers_with p (resp, None) →
  let r := exec env (handleApprovalApprove c id req) w in
  (∃ now now',
    let q := with_credential resp now' (granted req now p) in
    r.1 = approve_response id q rule true ∧
    w_store r.2 = <[akey ("pending/" +:+ id) := Doc (enc_pending q)]> (w_store w)) ∧
  ∃ execID, w_routed r.2 = reconstructed execID p :: w_routed w.
Proof.
  intros Hr Hclk Hv Hf Hthr Ha.
  enough (wp env (handleApprovalApprove c id req) (executed id req p rule resp w) w) as [Hq Hu]
    by (split; [exact Hq|exact Hu]).
  eapply wp_bind, wp_guards_r; [done..|]. intros w1 H1. eapply wp_mono;
    [|apply (wp_granting_vote id req p rule resp); [by eapply reliable_ro|done|
      by eapply votable_entitled|done..]].
  intros r w2 [Hq Hu]. split.
  - by rewrite <-(ro_store _ _ H1).
  - by rewrite <-(ro_routed _ _ H1).
Qed.

Lemma rollback_restores req now p :
  Status p = "pending" →
  set_Approvals (take (length (Approvals (set_Status "pending" (granted req now p))) - 1)
    (Approvals (set_Status "pending" (granted req now p))))
    (set_Status "pending" (granted req now p)) = p.
Proof.
  intros Hs. simpl. rewrite length_app. simpl.
  rewrite Nat.add_sub, take_app_length. destruct p. simpl in *. by subst.
Qed.

(** A failed execution is rolled back: when the backend answers with an
    error, approve reports it and the stored entry is again the request as it
    was before the vote, so that the same approver can retry. *)
Theorem failed_execution_rolls_back id req p rule resp err w :
  reliable env c w → clock_ok → votable w id req p rule → fresh p →
  ApprovalsRequired rule ≤ len (Approvals p) + 1 → answers_with p (resp, Some err) →
  let r := exec env (handleApprovalApprove c id req) w in
  is_Some r.1.2 ∧
  w_store r.2 = <[akey ("pending/" +:+ id) := Doc (enc_pending p)]> (w_store w).
Proof.
  intros Hr Hclk Hv Hf Hthr Ha. pose proof Hv as [Hid _ Hself Hst _ _ _ _ _ _ Htimes].
  enough (wp env (handleApprovalApprove c id req) (λ r w', is_Some r.2 ∧
    w_store w' = <[akey ("pending/" +:+ id) := Doc (enc_pending p)]> (w_store w)) w) as Hwp
    by exact Hwp.
  eapply wp_bind, wp_guards_r; [done..|]. intros w0 Hw0.
  eapply wp_deciding_vote; [by eapply reliable_ro|done|by eapply votable_entitled|done..|].
  intros now w1 g Hr1 Hgid _ Hs1 _.
  apply wp_bind, (wp_execute_routed g (resp, Some err)); [done..|].
  intros w2 u Hr2 Hs2 _. apply wp_ret. cbv zeta. subst g. rewrite rollback_restores by done.
  apply wp_bind, wp_put_json_r; [done|rewrite Hself; by apply pending_sane|done|].
  intros w3 H3. apply wp_ret. split; [by eexists|].
  rewrite (stored_store _ _ _ H3), Hself, Hs2, Hs1, (ro_store _ _ Hw0). apply insert_insert_eq.
Qed.

(** ** Fetching *)

(** An approved request whose credential its requester may still retrieve. *)
Record retrievable (w : World) (id : string) (req : Request) (p : PendingRequest)
    (cred : gmap string value) : Prop := {
  rt_id : plain id;
  rt_pending : pending_at (w_store w) id p;
  rt_self : RequestID p = id;
  rt_status : Status p = "approved";
  rt_cred : CredentialData p = Some cred;
  rt_owner : RequesterEntityID p ≠ "" ∧ req_EntityID req = RequesterEntityID p;
  rt_window : ∀ n, time_Sub (env_clock env n) (ApprovedAt p) ≤ approvalCredentialTTL;
  rt_times : forallb time_json_ok (pending_times p) = true;
}.

Lemma history_times_ok p s n by1 by2 :
  clock_ok → forallb time_json_ok (pending_times p) = true →
  forallb time_json_ok (history_times (history_of p s (env_clock env n) by1 by2)) = true.
Proof.
  intros Hclk Ht. unfold pending_times in Ht. simpl in *. apply andb_true_iff in Ht as [-> _].
  by destruct (Hclk n) as [-> ->].
Qed.

(** C28: the requester gets the credential: on working storage, within the
    window, a fetch by the requester returns the credential, removes the
    entry, and records the retrieval in the history; nothing else changes. *)
Theorem fetch_delivers id req p cred w :
  reliable env c w → clock_ok → retrievable w id req p cred →
  let r := exec env (handleApprovalFetch c id req) w in
  r.1 = (Some (credential_response id cred p), None) ∧
  ∃ now by_id by_name,
    w_store r.2 = <[akey ("history/" +:+ id) :=
                     Doc (enc_history (history_of p "retrieved" now by_id by_name))]>
                    (delete (akey ("pending/" +:+ id)) (w_store w)).
Proof.
  intros Hr Hclk [Hid Hp Hself Hst Hc [Hne Hown] Hwin Htimes].
  enough (wp env (handleApprovalFetch c id req) (λ r w',
    r = (Some (credential_response id cred p), None) ∧ ∃ now by_id by_name,
    w_store w' = <[akey ("history/" +:+ id) :=
                     Doc (enc_history (history_of p "retrieved" now by_id by_name))]>
                    (delete (akey ("pending/" +:+ id)) (w_store w))) w) as Hwp by exact Hwp.
  apply wp_bind, (wp_get_entry_r _ _ _ _ p); [done|by apply pending_sane|done|]. intros w1 H1.
  apply wp_bind. rewrite decide_False by done. apply wp_ret.
  rewrite bool_decide_eq_true_2 by done. csimplb.
  rewrite !decide_False, decide_True by (by rewrite Hst).
  unfold fetch_approved. rewrite Hc.
  assert (reliable env c w1) as Hr1 by by eapply reliable_ro.
  apply wp_bind. eapply (wp_mono _ _ (λ b w2, b = false ∧ ro w w2)).
  2: { destruct (IsZero _); [by apply wp_ret|]. apply wp_bind, wp_time_Since. intros w2 H2.
       apply wp_ret. split; [|by etrans]. apply Z.ltb_ge, Hwin. }
  intros b w2 [-> H2]. apply wp_bind, wp_put_json_r;
    [by apply (reliable_ro env c w)|simpl; rewrite Hself; by apply pending_sane|done|].
  change (RequestID (set_CredentialData None p)) with (RequestID p). rewrite Hself.
  intros w3 H3. assert (reliable env c w3) as Hr3.
  { eapply reliable_stored; [|exact H3]. by apply (reliable_ro env c w). }
  apply wp_bind, wp_Delete_r; [done|by apply pending_sane|]. intros w4 H4.
  apply wp_bind, wp_last_approver. intros by_ w5 H5. apply wp_bind, wp_now. intros w6 H6.
  apply wp_bind, wp_put_json_r.
  - eapply reliable_ro; [|exact H6]. eapply reliable_ro; [|exact H5]. by eapply reliable_stored.
  - simpl. rewrite Hself. by apply history_sane.
  - by apply (history_times_ok (set_CredentialData None p)).
  - simpl. rewrite Hself. intros w7 H7. apply wp_ret. split; [done|].
    exists (env_clock env (w_tick w5)), by_.1, by_.2.
    rewrite (stored_store _ _ _ H7), (ro_store _ _ H6), (ro_store _ _ H5), (stored_store _ _ _ H4),
      (stored_store _ _ _ H3), (ro_store _ _ H2). by rewrite delete_insert_eq.
Qed.

(** ** Writing rules *)

(** The rule after a partial update. *)
Definition merged (f : RuleFields) (r : ApprovalRule) : ApprovalRule :=
  mkRule (RuleID r)
    (default (Description r) (f_description f))
    (default (TargetMountPath r) (f_target_mount_path f))
    (default (AuthorizedApprovers r) (f_authorized_approvers f))
    (default (ApprovalsRequired r) (f_approvals_required f))
    (default (SlackWebhookURL r) (f_slack_webhook_url f))
    (CreatedByEntityID r)
    (default (AllowSelfApproval r) (f_allow_self_approval f)).

Definition valid_update (f : RuleFields) (r : ApprovalRule) : bool :=
  from_option (λ n, 1 <=? n) true (f_approvals_required f) &&
  from_option slack_url_ok true (f_slack_webhook_url f) &&
  negb (bool_decide (TargetMountPath (merged f r) = "")) &&
  negb (bool_decide (AuthorizedApprovers (merged f r) = [])).

(** The rule an update starts from. *)
Definition base_rule (w : World) (id : string) (req : Request) (r : ApprovalRule) : Prop :=
  (rule_at (w_store w) id r ∧ RuleID r = id) ∨
  (w_store w !! akey ("config/" +:+ id) = None ∧ r = mkRule id "" "" [] 1 "" (req_EntityID req) false).

Lemma base_rule_id w id req r : base_rule w id req r → RuleID r = id.
Proof. by intros [[_ ?]|[_ ->]]. Qed.

(** The two steps of the update and the final checks are one validation and
    one merge. *)
Lemma wp_update_rule f r Q w :
  reliable env c w → plain (RuleID r) →
  (valid_update f r = true →
     ∀ w', stored (<[akey ("config/" +:+ RuleID r) := Doc (enc_rule (merged f r))]> (w_store w)) w w' →
     Q (None, None) w') →
  (∀ text, valid_update f r = false → Q (err_resp text []) w) →
  wp env (match update_rule f r with
          | inr resp => Ret resp
          | inl r1 => match update_rule_url f r1 with
                      | inr resp => Ret resp
                      | inl rule => check_and_put_rule c rule
                      end
          end) Q w.
Proof.
  intros Hr Hid Hok Herr. unfold valid_update, update_rule, update_rule_url in *.
  assert (∀ rule, rule = merged f r → from_option (λ n, 1 <=? n) true (f_approvals_required f) = true →
    from_option slack_url_ok true (f_slack_webhook_url f) = true →
    wp env (check_and_put_rule c rule) Q w) as Hput.
  { intros rule -> Hn Hu. rewrite Hn, Hu in *. unfold check_and_put_rule.
    destruct (decide (TargetMountPath (merged f r) = "")) as [He|He].
    { apply wp_ret, Herr. by rewrite bool_decide_eq_true_2. }
    destruct (decide (AuthorizedApprovers (merged f r) = [])) as [He'|He'].
    { apply wp_ret, Herr. rewrite (bool_decide_eq_true_2 _ He'). apply andb_false_r. }
    apply wp_bind, wp_put_json_r; [done|by apply config_sane|done|]. intros w1 H1.
    apply wp_ret, Hok; [|done]. by rewrite !bool_decide_eq_false_2. }
  destruct (f_approvals_required f) as [n|] eqn:Hn; simpl in *.
  - destruct (Z.ltb_spec n 1); [apply wp_ret, Herr; by rewrite (proj2 (Z.leb_gt 1 n))|].
    assert ((1 <=? n) = true) as Hn' by (apply Z.leb_le; lia).
    destruct (f_slack_webhook_url f) as [u|] eqn:Hu; simpl in *.
    + destruct (slack_url_ok u) eqn:Hs; [|apply wp_ret, Herr; by rewrite andb_false_r].
      apply Hput; [|done..]. unfold merged. by rewrite Hn, Hu.
    + apply Hput; [|done..]. unfold merged. by rewrite Hn, Hu.
  - destruct (f_slack_webhook_url f) as [u|] eqn:Hu; simpl in *.
    + destruct (slack_url_ok u) eqn:Hs; [|by apply wp_ret, Herr].
      apply Hput; [|done..]. unfold merged. by rewrite Hn, Hu.
    + apply Hput; [|done..]. unfold merged. by rewrite Hn, Hu.
Qed.

(** A rule write merges the fields it sets into the stored rule, or into a
    new one demanding one approval, and stores the result if it is valid; if
    it is not, it reports an error and stores nothing. *)
Theorem rule_write_merges id f req r w :
  reliable env c w → plain id → id ≠ "" → base_rule w id req r →
  let x := exec env (handleApprovalRuleWrite c id f req) w in
  (valid_update f r = true ∧ x.1 = (None, None) ∧
   w_store x.2 = <[akey ("config/" +:+ id) := Doc (enc_rule (merged f r))]> (w_store w)) ∨
  (valid_update f r = false ∧ (∃ text, x.1 = err_resp text []) ∧ w_store x.2 = w_store w).
Proof.
  intros Hr Hid Hne Hb. pose proof (base_rule_id _ _ _ _ Hb) as Hrid.
  enough (wp env (handleApprovalRuleWrite c id f req) (λ a w',
    (valid_update f r = true ∧ a = (None, None) ∧
     w_store w' = <[akey ("config/" +:+ id) := Doc (enc_rule (merged f r))]> (w_store w)) ∨
    (valid_update f r = false ∧ (∃ text, a = err_resp text []) ∧ w_store w' = w_store w)) w) as Hwp
    by exact Hwp.
  unfold handleApprovalRuleWrite. rewrite decide_False by done.
  assert (∀ w1, ro w w1 → wp env (match update_rule f r with
          | inr resp => Ret resp
          | inl r1 => match update_rule_url f r1 with
                      | inr resp => Ret resp
                      | inl rule => check_and_put_rule c rule
                      end
          end) (λ a w',
    (valid_update f r = true ∧ a = (None, None) ∧
     w_store w' = <[akey ("config/" +:+ id) := Doc (enc_rule (merged f r))]> (w_store w)) ∨
    (valid_update f r = false ∧ (∃ text, a = err_resp text []) ∧ w_store w' = w_store w)) w1) as Hgo.
  { intros w1 H1. apply wp_update_rule; [by eapply reliable_ro|by rewrite Hrid| |].
    - intros Hv w2 H2. left. rewrite (stored_store _ _ _ H2), (ro_store _ _ H1), Hrid. done.
    - intros text Hv. right. rewrite (ro_store _ _ H1). eauto. }
  destruct Hb as [[Hat _]|[Habs ->]].
  - apply wp_bind, (wp_get_entry_r _ _ _ _ r); [done|by apply config_sane|done|].
    intros w1 H1. by apply Hgo.
  - apply wp_bind, wp_bind, wp_Get_r; [done|by apply config_sane|]. intros w1 H1.
    rewrite Habs. simpl. apply wp_ret. by apply Hgo.
Qed.
End operations.

(** ** Evaluation *)

(** The environment of the scenario with a backend that fails. *)
Definition env_failing : Env := mkEnv (env_fault env0) (env_size env0) (λ _, t2025)
  (λ _, Ok "uuid-1") (env_token env0) (env_entity env0) (λ _ _, (None, Some ErrPermissionDenied))
  (env_mount env0) (env_mount_backend env0) (env_sysview env0) (env_register env0).

Lemma votable_bob env : (∀ n, env_clock env n = t2025) →
  votable env world_pending rid bob_req pending0 rule_db.
Proof.
  intros Hclk. split.
  - by apply plain_check.
  - exists (enc_pending pending0). split; vm_compute; reflexivity.
  - reflexivity.
  - reflexivity.
  - intros n. rewrite Hclk. vm_compute. discriminate.
  - by apply plain_check.
  - exists (enc_rule rule_db). split; vm_compute; reflexivity.
  - reflexivity.
  - discriminate.
  - by apply not_elem_of_nil.
  - vm_compute. reflexivity.
Qed.

Lemma clock_frozen env : (∀ n, env_clock env n = t2025) → clock_ok env.
Proof. intros Hclk n. rewrite Hclk. split; vm_compute; reflexivity. Qed.

Lemma approve_grants_witness :
  let r := exec env_frozen (handleApprovalApprove core0 rid bob_req) world_pending in
  (∃ now now',
    let q := with_credential (Some db_response) now' (granted bob_req now pending0) in
    r.1 = approve_response rid q rule_db true ∧
    w_store r.2 = <[akey ("pending/" +:+ rid) := Doc (enc_pending q)]> (w_store world_pending)) ∧
  ∃ execID, w_routed r.2 = reconstructed execID pending0 :: w_routed world_pending.
Proof.
  apply (approve_grants env_frozen core0 rid bob_req pending0 rule_db (Some db_response)).
  - by split.
  - by apply clock_frozen.
  - by apply votable_bob.
  - by split_and!.
  - vm_compute. discriminate.
  - by split.
Defined.

Lemma failed_execution_witness :
  let r := exec env_failing (handleApprovalApprove core0 rid bob_req) world_pending in
  is_Some r.1.2 ∧
  w_store r.2 = <[akey ("pending/" +:+ rid) := Doc (enc_pending pending0)]> (w_store world_pending).
Proof.
  apply (failed_execution_rolls_back env_failing core0 rid bob_req pending0 rule_db None ErrPermissionDenied).
  - by split.
  - by apply clock_frozen.
  - by apply votable_bob.
  - by split_and!.
  - vm_compute. discriminate.
  - by split.
Defined.

Lemma fetch_delivers_witness :
  let r := exec env_frozen (handleApprovalFetch core0 rid alice_req) world_approved in
  r.1 = (Some (credential_response rid (resp_Data db_response) approved0), None) ∧
  ∃ now by_id by_name,
    w_store r.2 = <[akey ("history/" +:+ rid) :=
                     Doc (enc_history (history_of approved0 "retrieved" now by_id by_name))]>
                    (delete (akey ("pending/" +:+ rid)) (w_store world_approved)).
Proof.
  apply (fetch_delivers env_frozen core0 rid alice_req approved0 (resp_Data db_response)).
  - by split.
  - by apply clock_frozen.
  - split; try done.
    + by apply plain_check.
    + exists (enc_pending approved0). split; vm_compute; reflexivity.
Defined.

(** An update of the rule that raises the number of approvals. *)
Definition raise_to (n : Z) : RuleFields := mkRuleFields None None None (Some n) None None.

Lemma rule_write_merges_witness :
  let x := exec env0 (handleApprovalRuleWrite core0 "db" (raise_to 2) root_req) world_pending in
  (valid_update (raise_to 2) rule_db = true ∧ x.1 = (None, None) ∧
   w_store x.2 = <[akey ("config/" +:+ "db") := Doc (enc_rule (merged (raise_to 2) rule_db))]>
                   (w_store world_pending)) ∨
  (valid_update (raise_to 2) rule_db = false ∧ (∃ text, x.1 = err_resp text []) ∧
   w_store x.2 = w_store world_pending).
Proof.
  apply (rule_write_merges env0 core0 "db" (raise_to 2) root_req rule_db).
  - apply reliable0.
  - by apply plain_check.
  - discriminate.
  - left. split; [|done]. exists (enc_rule rule_db). split; vm_compute; reflexivity.
Defined.
