(* ===== verification/ApprovalRaces.v ===== *)
(** * Behaviours at the edges of the workflow

    Calls that overlap: a vote that was let through executes the request
    whatever was done to it in the meantime. Storage faults: rules that cannot
    be read guard nothing. Answers of a backend that the workflow treats in a
    way its comments do not say. The theorems are general; the examples are
    runs of the definitions. *)

From S2P Require Import Prelude GoLib Storage Core Lease ApprovalTypes ApprovalCore ApprovalHandlers ApprovalPaths RequestHandling CoreLogic ApprovalLogic Reliable Interception Effects Scenario ApprovalInvariant ApprovalOps.

(** ** Votes *)

Section votes.
Context `{GoTables} `{RadixTree} (env : Env) (c : Core).
#[local] Instance votes_handler : Handler coreE World := core_handler env.

(** No call changes whether the storage works. *)
Lemma reliable_exec {A} (p : handler A) w : reliable env c w → reliable env c (exec env p w).2.
Proof.
  revert w. induction p as [a|X e k IH]; intros w Hr; [done|].
  apply (IH (core_handle env X e w).1 (core_handle env X e w).2).
  destruct Hr as [? ? ? ? ? ? ?].
  destruct e; simpl; unfold write_result, Inmem.PutInternal, Inmem.DeleteInternal;
    repeat case_match; simplify_eq/=; by split.
Qed.

(** C39: an approval does not notice what is done to the request after it was
    read.  The guards of approve pass on a votable request; then any other
    call is served to its end (another approval that executes the request, a
    denial that is acknowledged, the deletion of the rule); then the approval
    goes on: it executes the request and stores it as approved over whatever
    the other call has left, and reports success.  The entry is read again
    before the execution, but only after it was overwritten. *)
Theorem stale_vote_executes id req p rule resp (other : handler Resp) w :
  reliable env c w → clock_ok env → votable env w id req p rule → fresh p →
  ApprovalsRequired rule ≤ len (Approvals p) + 1 → answers_with env p (resp, None) →
  ∃ w1 r w', ro w w1 ∧
    let o := exec env other w1 in
    rtc pool_step ([handleApprovalApprove c id req; other], w) ([Ret r; Ret o.1], w') ∧
    executed id req p rule resp o.2 r w'.
Proof.
  intros Hr Hclk Hv Hf Hthr Ha.
  assert (wp env (pending_guards c id) (λ g w1, g = inl (p, rule) ∧ ro w w1) w) as [Hg H1]
    by by eapply wp_guards_r.
  set (w1 := (exec env (pending_guards c id) w).2) in *.
  exists w1. set (o := exec env other w1).
  assert (reliable env c o.2) as Hro by (eapply reliable_exec, reliable_ro; done).
  exists (exec env (approve_vote c id req p rule) o.2).1, (exec env (approve_vote c id req p rule) o.2).2.
  split; [done|]. split.
  - etrans; [by eapply (pool_run_bind 0 _ (pending_guards c id))|].
    change (run (pending_guards c id) w) with (exec env (pending_guards c id) w).
    rewrite Hg. etrans; [by apply (pool_run 1 _ other)|].
    by apply (pool_run 0 [approve_vote c id req p rule; Ret o.1] _ o.2).
  - apply wp_granting_vote; try done. by eapply votable_entitled.
Qed.
End votes.

(** ** Rules that cannot be read *)

Section faults.
Context `{GoTables} `{RadixTree} (env : Env) (c : Core).

(** From the moment [n] on, the storage answers no read. *)
Definition unreadable (n : nat) : Prop := ∀ m, (n ≤ m)%nat → env_fault env m ≠ Done.

Lemma wp_read_listed_failed {A} (dec : value → res A) key Q n w :
  unreadable n → (n ≤ w_tick w)%nat →
  (∀ w', ro w w' → Q None w') → wp env (read_listed dec c key) Q w.
Proof.
  intros Hu Hn HQ. apply wp_bind. change (Get (approvalStorage c) key) with (view_Get aview key).
  unfold view_Get. destruct (SanityCheck key) as [err|]; [by apply wp_ret, wp_ret, HQ|].
  specialize (Hu _ Hn). apply wp_bind. unfold wp at 1. simpl.
  destruct (env_fault env (w_tick w)); [done|by apply wp_ret, HQ..].
Qed.

(** No rule is found then. *)
Lemma wp_matching_rule_failed keys path Q n w :
  unreadable n → (n ≤ w_tick w)%nat →
  (∀ w', ro w w' → Q None w') → wp env (matching_rule c keys path) Q w.
Proof.
  intros Hu Hn HQ. apply wp_bind.
  apply (wp_range _ (λ _ w', ro w w' ∧ (n ≤ w_tick w')%nat)).
  - done.
  - intros key s w1 _ [H1 Hn1]. apply wp_tick, wp_bind.
    eapply wp_read_listed_failed; [done..|]. intros w2 H2. apply wp_ret. intros Ht.
    split; [by etrans|lia].
  - intros s w1 [H1 _]. apply wp_ret. by apply HQ.
Qed.

(** Routing hands over the request, and nothing after it reaches a backend. *)
Definition kept_back X (e : coreE X) : Prop := match e with Route _ => False | _ => True end.
#[local] Instance kept_reads : Reads kept_back.
Proof. by intros X []. Qed.
#[local] Instance kept_registers : Registers kept_back.
Proof. done. Qed.

Lemma handle_secret_keeps req resp w :
  w_routed (exec env (handle_secret req resp) w).2 = w_routed w.
Proof.
  eapply (obeys_run kept_back any_answer (H := core_handler env) (λ w', w_routed w' = w_routed w))
    with (Q := λ _, True); [|apply ob_handle_secret|done].
  intros X e w' Hpre Hw. split; [|done]. destruct e; try done; cbn; unfold write_result;
    by repeat case_match.
Qed.

Lemma wp_route_request entry req Q w :
  (∀ r w', w_routed w' = req :: w_routed w → Q r w') → wp env (route_request entry req) Q w.
Proof.
  intros HQ. apply wp_bind, wp_route. intros w1 H1. apply ro_routed in H1.
  destruct (env_backend _ _ _) as [[resp|] err]; [|by apply wp_ret, HQ].
  apply wp_bind. unfold wp at 1. apply wp_ret, HQ. by rewrite handle_secret_keeps.
Qed.

Lemma wp_list_rules Q w :
  (∀ keys, env_fault env (w_tick w) = Done → Inmem.failList (w_phys w) = false →
     Q (Ok keys) (tick w)) →
  (∀ err, env_fault env (w_tick w) ≠ Done ∨ Inmem.failList (w_phys w) = true →
     Q (Err err) (tick w)) →
  wp env (List (approvalStorage c) "config/") Q w.
Proof.
  change (List (approvalStorage c) "config/") with (view_List aview "config/").
  intros Hok Hbad. apply wp_trigger. simpl. unfold Inmem.ListInternal.
  destruct (env_fault env (w_tick w)), (Inmem.failList (w_phys w)); simpl;
    first [by apply Hok | by apply Hbad; right | by apply Hbad; left].
Qed.

Lemma wp_dispatch_unread ctx entry req auth w :
  isApprovalBypass ctx = false → interceptable req auth →
  env_fault env (w_tick w) = Done → Inmem.failList (w_phys w) = false →
  unreadable (S (w_tick w)) →
  wp env (dispatch c ctx entry req auth) (λ _ w', w_routed w' = req :: w_routed w) w.
Proof.
  intros Hb [Hp Ho Ha] Hd Hl Hu. unfold dispatch, checkNeedsApproval.
  rewrite Hb, Hp, Ho, Ha. csimplb. apply wp_bind, wp_bind, wp_list_rules.
  2: { intros err [?|?]; congruence. }
  intros [|key keys] _ _; [by apply wp_ret, wp_route_request|].
  apply wp_bind, (wp_matching_rule_failed _ _ _ (S (w_tick w))); [done..|].
  intros w2 H2. apply wp_ret. csimplb. apply wp_route_request. intros r w3 ->.
  by rewrite (ro_routed _ _ H2).
Qed.

Lemma wp_dispatch_unlisted ctx entry req auth w :
  isApprovalBypass ctx = false → interceptable req auth →
  env_fault env (w_tick w) ≠ Done ∨ Inmem.failList (w_phys w) = true →
  wp env (dispatch c ctx entry req auth)
    (λ r w', r.1 = None ∧ is_Some r.2 ∧ w_routed w' = w_routed w) w.
Proof.
  intros Hb [Hp Ho Ha] Hf. unfold dispatch, checkNeedsApproval.
  rewrite Hb, Hp, Ho, Ha. csimplb. apply wp_bind, wp_bind, wp_list_rules.
  { intros keys Hd Hl. destruct Hf; congruence. }
  intros err _. apply wp_ret. rewrite bool_decide_eq_true_2 by by eexists. by apply wp_ret.
Qed.

(** C40: the interceptor fails open on the rules and closed on their list.
    When the rules can be listed but not read, a request that the interceptor
    looks at reaches the backend, once and without approval, whatever rules
    guard its path; when they cannot be listed, it is answered with an error
    and reaches no backend. *)
Theorem interceptor_fails_open ctx entry req auth w :
  isApprovalBypass ctx = false → interceptable req auth →
  let r := exec env (dispatch c ctx entry req auth) w in
  (env_fault env (w_tick w) = Done → Inmem.failList (w_phys w) = false →
   unreadable (S (w_tick w)) → w_routed r.2 = req :: w_routed w) ∧
  (env_fault env (w_tick w) ≠ Done ∨ Inmem.failList (w_phys w) = true →
   r.1.1 = None ∧ is_Some r.1.2 ∧ w_routed r.2 = w_routed w).
Proof.
  intros Hb Hi. split; intros; [by apply wp_dispatch_unread|by apply wp_dispatch_unlisted].
Qed.
End faults.

(** ** Runs *)

(** A member of the data of a response. *)
Definition datum (r : Resp) (key : string) : option value :=
  r.1 ≫= λ resp, resp_Data resp !! key.

Definition answers (ts : list (handler Resp)) (key : string) : list (option value) :=
  (λ t, returned t ≫= λ r, datum r key) <$> ts.

(** The status stored for a request. *)
Definition stored_status (w : World) (id : string) : option string :=
  match w_store w !! akey ("pending/" +:+ id) with
  | Some (Doc v) => match dec_pending v with Ok p => Some (Status p) | Err _ => None end
  | _ => None
  end.

Definition deny_by (req : Request) : Call :=
  Api ("approvals/deny/" +:+ rid) UpdateOperation no_fields req.
Definition fetch_by (req : Request) : Call :=
  Api ("approvals/fetch/" +:+ rid) ReadOperation no_fields req.

(** Two calls served concurrently, one effect of each in turn. *)
Definition race (x y : Call) (w : World) : list (handler Resp) * World :=
  run_schedule (H := core_handler env0) interleaved ([serve core0 x; serve core0 y], w).

(** Calls served one after the other. *)
Definition served (env : Env) (xs : list Call) (w : World) : list Resp * World :=
  fold_left (λ '(rs, w) x, let r := exec env (serve core0 x) w in (rs ++ [r.1], r.2)) xs ([], w).

(** The outcome of a race is reachable. *)
Lemma race_steps x y w :
  rtc (pool_step (H := core_handler env0)) ([serve core0 x; serve core0 y], w) (race x y w).
Proof. apply run_schedule_steps. Qed.

(** Handlers that run at the same time get in each other's way.  Two
    approvers who reach the threshold together execute the request twice;
    two fetches together both return the credential; a denial that is
    acknowledged is overwritten by an approval, and the request is
    executed. *)
Example handlers_race :
  (let r := race (approve_by bob_req) (approve_by carol_req) world_pending in
   answers r.1 "threshold_met" = [Some (VBool true); Some (VBool true)] ∧
   (req_Path <$> w_routed r.2) = ["database/creds/readonly"; "database/creds/readonly"]) ∧
  (let r := race (fetch_by alice_req) (fetch_by alice_req) world_approved in
   answers r.1 "password" = [Some (VStr "s3cret"); Some (VStr "s3cret")]) ∧
  (let r := race (deny_by carol_req) (approve_by bob_req) world_pending in
   answers r.1 "status" = [Some (VStr "denied"); Some (VStr "approved")] ∧
   stored_status r.2 rid = Some "approved" ∧ length (w_routed r.2) = 1%nat).
Proof. cbv zeta. repeat match goal with |- _ ∧ _ => split end; vm_compute; reflexivity. Qed.

(** *** Votes of a root token *)

(** A root token has no entity, so the check against voting twice does not
    apply to it: alone it supplies both approvals of a rule that demands
    two. *)
Example root_votes_twice :
  let r := served env0 [approve_by root_req; approve_by root_req] world_pending2 in
  (λ a, datum a "threshold_met") <$> r.1 = [Some (VBool false); Some (VBool true)] ∧
  stored_status r.2 rid = Some "approved" ∧ length (w_routed r.2) = 1%nat.
Proof. split_and!; vm_compute; reflexivity. Qed.

(** *** Faults *)

(** The environment [env0] in which the second effect fails. *)
Definition env_flaky : Env := mkEnv
  (λ n, if decide (n = 1%nat) then Failed else Done) (env_size env0) (env_clock env0)
  (env_uuid env0) (env_token env0) (env_entity env0) (env_backend env0) (env_mount env0)
  (env_mount_backend env0) (env_sysview env0) (env_register env0).

Definition alice_call : Call := Client (mkCtx None) None alice_read None.
Definition world_rule : World := world0 (put_rule rule_db ∅).

(** When the rule that guards the path cannot be read, the request reaches
    the backend without approval; when it can be read, the same request is
    parked. *)
Example unread_rule_skipped :
  (req_Path <$> w_routed (exec env_flaky (serve core0 alice_call) world_rule).2) =
    ["database/creds/readonly"] ∧
  w_routed (exec env0 (serve core0 alice_call) world_rule).2 = [].
Proof. split; vm_compute; reflexivity. Qed.

(** *** Answers of the backend *)

Definition with_backend (r : option Response * option goerr) : Env := mkEnv
  (env_fault env0) (env_size env0) (env_clock env0)
  (env_uuid env0) (env_token env0) (env_entity env0) (λ _ _, r) (env_mount env0)
  (env_mount_backend env0) (env_sysview env0) (env_register env0).

(** Two answers of a backend are misread.  An answer without data, as for
    a write, leaves an approved request whose credential is an empty map; the
    encoding drops it, and the requester is told that it has already been
    retrieved.  An error response without a Go error, as for a role that does
    not exist, counts as executed: its text is handed out and burnt as the
    credential. *)
Example answers_misread :
  (let r := served (with_backend (None, None)) [approve_by bob_req; fetch_by alice_req]
              world_pending in
   (λ a, datum a "threshold_met") <$> head r.1 = Some (Some (VBool true)) ∧
   last r.1 = Some (err_resp "credential for request %q has already been retrieved" [VStr rid]) ∧
   stored_status r.2 rid = Some "approved") ∧
  (let r := served (with_backend (Some (ErrorResponse "unknown role" []), None))
              [approve_by bob_req; fetch_by alice_req] world_pending in
   (λ a, datum a "threshold_met") <$> head r.1 = Some (Some (VBool true)) ∧
   (λ a, datum a "status") <$> last r.1 = Some (Some (VStr "approved")) ∧
   (λ a, datum a "error") <$> last r.1 = Some (Some (VStr "unknown role")) ∧
   stored_status r.2 rid = None).
Proof. cbv zeta. repeat match goal with |- _ ∧ _ => split end; vm_compute; reflexivity. Qed.

(** *** The theorems at work *)

(** The vote of bob, with a denial by carol after its guards. *)
Lemma stale_vote_witness :
  ∃ w1 r w', ro world_pending w1 ∧
    let o := exec env_frozen (handleApprovalDeny core0 rid carol_req) w1 in
    rtc (pool_step (H := core_handler env_frozen))
      ([handleApprovalApprove core0 rid bob_req; handleApprovalDeny core0 rid carol_req], world_pending)
      ([Ret r; Ret o.1], w') ∧
    executed rid bob_req pending0 rule_db (Some db_response) o.2 r w'.
Proof.
  apply (stale_vote_executes env_frozen core0 rid bob_req pending0 rule_db (Some db_response)
    (handleApprovalDeny core0 rid carol_req) world_pending).
  - by split.
  - by apply clock_frozen.
  - by apply votable_bob.
  - by split_and!.
  - vm_compute. discriminate.
  - by split.
Defined.

(** The environment in which every effect but the first fails. *)
Definition env_dying : Env := mkEnv
  (λ n, if decide (n = 0%nat) then Done else Failed) (env_size env0) (env_clock env0)
  (env_uuid env0) (env_token env0) (env_entity env0) (env_backend env0) (env_mount env0)
  (env_mount_backend env0) (env_sysview env0) (env_register env0).

Lemma env_dying_unreadable : unreadable env_dying (S (w_tick world_rule)).
Proof. intros [|m] Hm; [simpl in Hm; lia|done]. Qed.

(** The rule guards the path, and alice's request reaches the backend. *)
Lemma interceptor_fails_open_witness :
  approvalRuleMatchesPath rule_db (req_Path alice_read) = true ∧
  w_routed (exec env_dying (dispatch core0 (mkCtx None) None alice_read None) world_rule).2 =
    alice_read :: w_routed world_rule.
Proof.
  split; [reflexivity|].
  apply (interceptor_fails_open env_dying core0 (mkCtx None) None alice_read None world_rule).
  - reflexivity.
  - by split.
  - reflexivity.
  - reflexivity.
  - apply env_dying_unreadable.
Defined.
