(* ===== verification/ApprovalPurge.v ===== *)
(** * The loops that purge a directory

    [sweepPendingRequestsByRule] and [listAllHistoryEntries] walk a listing,
    delete the entries that meet a condition and pass over the others.  One
    lemma characterises both loops; the theorems are about the deletion of a
    rule and about the listing of the history. *)

From S2P Require Import Prelude GoLib Utf8 Storage Core ApprovalTypes ApprovalCore ApprovalHandlers ApprovalJson CoreLogic ApprovalLogic StorageFacts Reliable Interception ApprovalOps Scenario.

Section purge.
Context `{GoTables} `{RadixTree} (env : Env) (c : Core).

(** What a loop reads under a key: nothing under a key the view refuses. *)
Definition legible {A} (dec : value → res A) (m : gmap string blob) (k : string) (a : A) : Prop :=
  SanityCheck k = None ∧ entry_at dec m k a.

Lemma wp_read_legible {A} (dec : value → res A) k Q w :
  reliable env c w →
  (∀ r w', ro w w' → (∀ a, r = Some a ↔ legible dec (w_store w) k a) → Q r w') →
  wp env (read_listed dec c k) Q w.
Proof.
  intros Hr HQ. destruct (SanityCheck k) as [e|] eqn:Hk.
  - change (read_listed dec c k) with (entry ← view_Get aview k; Ret (match entry with
       | Ok (Some e) => match DecodeJSON dec e with Ok a => Some a | Err _ => None end
       | _ => None end)).
    unfold view_Get. rewrite Hk. apply wp_ret, HQ; [done|]. intros a.
    split; [done|]. intros [? _]. congruence.
  - apply wp_read_listed_iff; [done..|]. intros r w' Hro Hiff. apply HQ; [done|].
    intros a. rewrite Hiff. split; [by split|by intros [_ ?]].
Qed.

Section loop.
Context {A B : Type} (dec : value → res A) (dir : string) (stale : A → Prop) (keep : A → B → B).
Context (body : string → B → handler (B + Empty_set)) (w0 : World).

(** One round of such a loop. *)
Context (decide_entry : string → A → B → handler (B + Empty_set)).
Hypothesis body_shape : ∀ key acc, body key acc =
  (r ← read_listed dec c (dir +:+ key);
   match r with None => Ret (inl acc) | Some a => decide_entry key a acc end).
Hypothesis entry_shape : ∀ key a acc,
  (stale a ∧ decide_entry key a acc =
     (_ ← Delete (approvalStorage c) (dir +:+ key); Ret (inl acc))) ∨
  (¬ stale a ∧ decide_entry key a acc = Ret (inl (keep a acc))).

Definition doomed (id : string) : Prop :=
  ∃ a, legible dec (w_store w0) (dir +:+ id) a ∧ stale a.

(** After the rounds for [done]: the doomed entries among them are gone and
    every other entry of the store is as it was. *)
Record purged (dn : list string) (w : World) : Prop := {
  pg_reliable : reliable env c w;
  pg_gone : ∀ id, id ∈ dn → doomed id → w_store w !! akey (dir +:+ id) = None;
  pg_kept : ∀ key, (∀ id, id ∈ dn → key = akey (dir +:+ id) → ¬ doomed id) →
    w_store w !! key = w_store w0 !! key;
  pg_routed : w_routed w = w_routed w0;
}.

(** The entries a loop passes over, in the order of the keys. *)
Inductive collected : list string → B → B → Prop :=
| collected_nil acc : collected [] acc acc
| collected_keep key a keys acc acc' :
    legible dec (w_store w0) (dir +:+ key) a → ¬ stale a →
    collected keys (keep a acc) acc' → collected (key :: keys) acc acc'
| collected_skip key keys acc acc' :
    (∀ a, legible dec (w_store w0) (dir +:+ key) a → stale a) →
    collected keys acc acc' → collected (key :: keys) acc acc'.

Lemma purged_ro dn w w' : purged dn w → ro w w' → purged dn w'.
Proof.
  intros [? ? ? ?] Hro. split; rewrite ?(ro_store _ _ Hro), ?(ro_routed _ _ Hro); try done.
  by eapply reliable_ro.
Qed.

(** A round that reads nothing, or an entry it keeps, removes nothing. *)
Lemma purged_pass dn key w :
  purged dn w → ¬ doomed key ∨ w_store w !! akey (dir +:+ key) = None → purged (dn ++ [key]) w.
Proof.
  intros [Hr Hg Hk Hro] Hd. split; [done| | |done].
  - intros id [Hid| ->%list_elem_of_singleton]%elem_of_app Hdm; [by apply Hg|]. by destruct Hd.
  - intros k Hno. apply Hk. intros id Hid. apply Hno, elem_of_app. by left.
Qed.

Lemma purged_drop dn key w w' :
  purged dn w → doomed key → stored (delete (akey (dir +:+ key)) (w_store w)) w w' →
  purged (dn ++ [key]) w'.
Proof.
  intros [Hr Hg Hk Hro] Hd Hs. pose proof (stored_store _ _ _ Hs) as Hst. split.
  - by eapply reliable_stored.
  - intros id Hid Hdm. rewrite Hst. destruct (decide (id = key)) as [->|Hne].
    { apply lookup_delete_eq. }
    rewrite lookup_delete_ne by (by intros ?%akey_inj%str_app_inj_l).
    apply elem_of_app in Hid as [Hid| ->%list_elem_of_singleton]; [by apply Hg|done].
  - intros k Hno. rewrite Hst, lookup_delete_ne.
    + apply Hk. intros id Hid. apply Hno, elem_of_app. by left.
    + intros <-. apply (Hno key); [apply elem_of_app; right; by left|done|done].
  - by rewrite (stored_routed _ _ _ Hs).
Qed.

(** What a later round reads is what was there at the start. *)
Lemma purged_legible dn key a w :
  purged dn w → key ∉ dn →
  legible dec (w_store w) (dir +:+ key) a ↔ legible dec (w_store w0) (dir +:+ key) a.
Proof.
  intros [_ Hg Hk _] Hin. unfold legible, entry_at. rewrite Hk; [done|].
  intros id Hid Heq%akey_inj%str_app_inj_l. by subst.
Qed.

Lemma wp_purge keys dn acc Q w :
  NoDup (dn ++ keys) → purged dn w →
  (∀ acc' w', purged (dn ++ keys) w' → collected keys acc acc' → Q (inl acc') w') →
  wp env (range keys acc body) Q w.
Proof.
  revert dn acc Q w. induction keys as [|key keys IH]; intros dn acc Q w Hnd Hp HQ; cbn [range].
  { apply wp_ret, HQ; [by rewrite app_nil_r|constructor]. }
  rewrite cons_middle, app_assoc in Hnd.
  assert (key ∉ dn) as Hnew.
  { apply NoDup_app in Hnd as [Hnd _]. apply NoDup_app in Hnd as (_ & Hd & _).
    intros Hin. apply (Hd _ Hin). by left. }
  assert (∀ acc1 w1, purged (dn ++ [key]) w1 →
    (∀ acc', collected keys acc1 acc' → collected (key :: keys) acc acc') →
    wp env (range keys acc1 body) Q w1) as Hgo.
  { intros acc1 w1 H1 Hc. apply (IH (dn ++ [key])); [done..|].
    intros acc' w' Hw' Hcol. apply HQ; [by rewrite cons_middle, app_assoc|auto]. }
  rewrite body_shape. apply wp_bind, wp_bind, wp_read_legible; [by destruct Hp|].
  intros r w1 H1 Hiff. assert (purged dn w1) as Hp1 by by eapply purged_ro.
  assert (∀ a, r = Some a ↔ legible dec (w_store w0) (dir +:+ key) a) as Hiff0.
  { intros a. rewrite Hiff. by apply (purged_legible dn). }
  destruct r as [a|].
  - assert (legible dec (w_store w0) (dir +:+ key) a) as Hleg by by apply Hiff0.
    destruct (entry_shape key a acc) as [[Hst ->]|[Hst ->]].
    + apply wp_bind, wp_Delete_r; [by destruct Hp1|by destruct Hleg|]. intros w2 H2.
      apply wp_ret, Hgo; [by eapply purged_drop; eauto; exists a|].
      intros acc' Hc. apply collected_skip; [|done]. intros a' Ha'%Hiff0. by injection Ha' as <-.
    + apply wp_ret, Hgo; [|by econstructor].
      apply purged_pass; [done|left]. intros (a' & Ha'%Hiff0 & Hst'). by injection Ha' as <-.
  - apply wp_ret, Hgo.
    + apply purged_pass; [done|left]. by intros (a' & Ha'%Hiff0 & _).
    + intros acc' Hc. apply collected_skip; [|done]. by intros a' Ha'%Hiff0.
Qed.

Lemma purged_start w : reliable env c w → ro w0 w → purged [] w.
Proof.
  intros Hr Hro. split; [done| | |by apply ro_routed].
  - intros id Hid. by apply elem_of_nil in Hid.
  - intros. by rewrite (ro_store _ _ Hro).
Qed.
End loop.

(** ** Deleting a rule *)

(** A pending request parked by the rule. *)
Definition of_rule (w : World) (ruleID id : string) : Prop :=
  ∃ p, pending_at (w_store w) id p ∧ p_RuleID p = ruleID.

Lemma plain_legible {A} (dec : value → res A) dir id a w :
  dot ∉ bytes dir → plain id → entry_at dec (w_store w) (dir +:+ id) a →
  legible dec (w_store w) (dir +:+ id) a.
Proof. intros. split; [by apply plain_sane|done]. Qed.

(** C36: deleting a rule on working storage removes the rule and every request
    parked under it (pending, approved or denied), keeps every other entry of
    the store, and routes nothing. *)
Theorem rule_delete_cascades ruleID req w :
  reliable env c w → plain ruleID →
  let r := exec env (handleApprovalRuleDelete c ruleID req) w in
  r.1 = (None, None) ∧ w_routed r.2 = w_routed w ∧
  w_store r.2 !! akey ("config/" +:+ ruleID) = None ∧
  (∀ id, plain id → of_rule w ruleID id → w_store r.2 !! akey ("pending/" +:+ id) = None) ∧
  (∀ key, key ≠ akey ("config/" +:+ ruleID) →
     (∀ id, key = akey ("pending/" +:+ id) → ¬ of_rule w ruleID id) →
     w_store r.2 !! key = w_store w !! key).
Proof.
  intros Hr Hpl.
  match goal with |- let r := exec _ _ _ in @?P r => enough (wp env (handleApprovalRuleDelete c ruleID req)
    (λ a w', P (a, w')) w) as Hwp by exact Hwp end.
  apply wp_bind, wp_bind, wp_List_r; [done..|]. intros keys w1 H1 Hl.
  assert (reliable env c w1) as Hr1 by by eapply reliable_ro.
  apply list_spec in Hl as Hl'. destruct Hl' as [Hnd _].
  apply wp_bind, (wp_purge dec_pending "pending/" (λ p, p_RuleID p = ruleID) (λ _ u, u) _ w
    (λ key p _, if decide (p_RuleID p = ruleID) then
       _ ← Delete (approvalStorage c) ("pending/" +:+ key); Ret (inl ()) else Ret (inl ())) )
    with (dn := []); [by intros ? []|intros key p []; destruct (decide _); auto|done| |].
  { by apply purged_start. }
  intros [] w2 [Hr2 Hg Hk Hro] _. apply wp_ret, wp_bind, wp_Delete_r; [done|by apply config_sane|].
  intros w3 H3. apply wp_ret. pose proof (stored_store _ _ _ H3) as Hst. cbn [fst snd].
  rewrite Hst, (stored_routed _ _ _ H3). split_and!; [done..|apply lookup_delete_eq| |].
  - intros id Hid (p & Hat & He).
    assert (akey ("config/" +:+ ruleID) ≠ akey ("pending/" +:+ id)) by by intros ?%akey_inj.
    rewrite lookup_delete_ne by done. apply Hg.
    + pose proof Hat as (v & Hv & _). eapply listed_entry; [exact Hl|by apply plain_index|exact Hv].
    + exists p. split; [|done]. apply plain_legible; [by apply (bool_decide_unpack _)|done..].
  - intros key Hne Hno. rewrite lookup_delete_ne by done. apply Hk. intros id _ -> (p & [_ Hat] & He).
    apply (Hno id eq_refl). by exists p.
Qed.

(** ** Listing the history *)

(** An entry of the history that has not expired at [now]. *)
Definition shown (w : World) (now : Z) (id : string) (h : ApprovalHistoryEntry) : Prop :=
  legible dec_history (w_store w) ("history/" +:+ id) h ∧ now ≤ HistoryExpiresAt h.

Abbreviation gathered w0 now := (collected dec_history "history/"
  (λ h, After now (HistoryExpiresAt h) = true) (λ h l, l ++ [h]) w0).

Lemma After_false t u : After t u ≠ true ↔ t ≤ u.
Proof. unfold After. rewrite not_true_iff_false, Z.ltb_ge. lia. Qed.

Lemma collected_history w0 now keys acc l :
  gathered w0 now keys acc l →
  ∀ h, h ∈ l ↔ h ∈ acc ∨ ∃ id, id ∈ keys ∧ shown w0 now id h.
Proof.
  induction 1 as [acc|key a keys acc l Ha Hst _ IH|key keys acc l Hsk _ IH]; intros h.
  - split; [auto|]. intros [?|(id & Hid & _)]; [done|by apply elem_of_nil in Hid].
  - rewrite IH, elem_of_app, list_elem_of_singleton. apply After_false in Hst. split.
    + intros [[?| ->]|(id & Hid & Hs)]; [by left|right; exists key; split; [by left|done]|].
      right. exists id. split; [by right|done].
    + intros [?|(id & [->|Hid]%elem_of_cons & Hs)]; [by left; left| |right; eauto].
      left. right. destruct Hs as [[_ Hs] _], Ha as [_ Ha]. by eapply entry_at_fun.
  - rewrite IH. split.
    + intros [?|(id & Hid & Hs)]; [by left|]. right. exists id. split; [by right|done].
    + intros [?|(id & [->|Hid]%elem_of_cons & Hs)]; [by left| |right; eauto].
      destruct Hs as [Hleg Hn]. apply After_false in Hn. by apply Hsk in Hleg.
Qed.

(** Listing the history on working storage returns exactly the entries
    that have not expired at the instant of the listing, removes the expired
    ones, and keeps everything else. *)
Theorem history_exact w :
  reliable env c w →
  (∀ id b, w_store w !! akey ("history/" +:+ id) = Some b → plain id) →
  let r := exec env (listAllHistoryEntries c) w in
  ∃ now l, (∃ n, now = env_clock env n) ∧ r.1 = Ok l ∧
    (∀ h, h ∈ l ↔ ∃ id, history_at (w_store w) id h ∧ now ≤ HistoryExpiresAt h) ∧
    (∀ id h, history_at (w_store w) id h → HistoryExpiresAt h < now →
       w_store r.2 !! akey ("history/" +:+ id) = None) ∧
    (∀ key, (∀ id h, key = akey ("history/" +:+ id) → history_at (w_store w) id h →
               now ≤ HistoryExpiresAt h) →
       w_store r.2 !! key = w_store w !! key).
Proof.
  intros Hr Hpl.
  match goal with |- let r := exec _ _ _ in @?P r => enough (wp env (listAllHistoryEntries c)
    (λ a w', P (a, w')) w) as Hwp by exact Hwp end.
  apply wp_bind, wp_List_r; [done..|]. intros keys w1 H1 Hl.
  pose proof Hl as [Hnd _]%list_spec.
  assert (∀ id h, history_at (w_store w) id h → id ∈ keys ∧
            legible dec_history (w_store w) ("history/" +:+ id) h) as Hin.
  { intros id h (v & Hv & Hd). assert (plain id) by by eapply Hpl. split.
    - eapply listed_entry; [exact Hl|by apply plain_index|exact Hv].
    - apply plain_legible; [by apply (bool_decide_unpack _)|done|by exists v]. }
  apply wp_bind, wp_now. intros w2 H2. set (now := env_clock env (w_tick w1)).
  assert (ro w w2) as H12 by by etrans.
  apply wp_bind, (wp_purge dec_history "history/" (λ h, After now (HistoryExpiresAt h) = true)
    (λ h l, l ++ [h]) _ w (λ key h l, if After now (HistoryExpiresAt h) then
       _ ← Delete (approvalStorage c) ("history/" +:+ key); Ret (inl l) else Ret (inl (l ++ [h]))))
    with (dn := []); [done| |done|apply purged_start; [by eapply reliable_ro|done]|].
  { intros key h l. destruct (After _ _); [by left|by right]. }
  intros l w3 [_ Hg Hk _] Hcol. apply wp_ret. exists now, l. split_and!; [by eexists|done|..].
  - intros h. rewrite (collected_history _ _ _ _ _ Hcol). split.
    + intros [Hn|(id & _ & [_ Hat] & Hn)]; [by apply elem_of_nil in Hn|by exists id].
    + intros (id & Hat & Hn). right. destruct (Hin _ _ Hat). by exists id.
  - intros id h Hat He. destruct (Hin _ _ Hat). apply Hg; [done|]. exists h. split; [done|].
    apply Z.ltb_lt. lia.
  - intros key Hno. apply Hk. intros id _ -> (h & [_ Hat] & He). apply (Hno _ _ eq_refl), After_false in Hat.
    by apply Hat.
Qed.
End purge.

(** ** Evaluation *)

Lemma rule_delete_witness :
  let r := exec env0 (handleApprovalRuleDelete core0 "db" root_req) world_pending in
  r.1 = (None, None) ∧ w_routed r.2 = w_routed world_pending ∧
  w_store r.2 !! akey ("config/" +:+ "db") = None ∧
  (∀ id, plain id → of_rule world_pending "db" id →
     w_store r.2 !! akey ("pending/" +:+ id) = None) ∧
  (∀ key, key ≠ akey ("config/" +:+ "db") →
     (∀ id, key = akey ("pending/" +:+ id) → ¬ of_rule world_pending "db" id) →
     w_store r.2 !! key = w_store world_pending !! key).
Proof.
  apply (rule_delete_cascades env0 core0 "db" root_req world_pending).
  - apply reliable0.
  - by apply plain_check.
Defined.

(** Two entries of the history, one of them expired. *)
Definition retrieved0 : ApprovalHistoryEntry := history_of approved0 "retrieved" t2025 "bob" "bob".
Definition expired0 : ApprovalHistoryEntry :=
  history_of approved0 "retrieved" (t2025 - 8 * 24 * Hour) "bob" "bob".
Definition put_history (id : string) (h : ApprovalHistoryEntry) : gmap string blob → gmap string blob :=
  <[akey ("history/" +:+ id) := Doc (enc_history h)]>.
Definition world_history : World := world0 (put_history "h1" retrieved0 (put_history "h2" expired0 ∅)).

Lemma world_history_plain id b :
  w_store world_history !! akey ("history/" +:+ id) = Some b → plain id.
Proof.
  unfold world_history, world0, w_store, put_history. cbn -[akey].
  intros [[Heq%akey_inj%str_app_inj_l _]|[_ Hb]]%lookup_insert_Some.
  { subst. by apply plain_check. }
  apply lookup_insert_Some in Hb as [[Heq%akey_inj%str_app_inj_l _]|[_ Hb]]; [|done].
  subst. by apply plain_check.
Qed.

Lemma history_exact_witness :
  let r := exec env0 (listAllHistoryEntries core0) world_history in
  ∃ now l, (∃ n, now = env_clock env0 n) ∧ r.1 = Ok l ∧
    (∀ h, h ∈ l ↔ ∃ id, history_at (w_store world_history) id h ∧ now ≤ HistoryExpiresAt h) ∧
    (∀ id h, history_at (w_store world_history) id h → HistoryExpiresAt h < now →
       w_store r.2 !! akey ("history/" +:+ id) = None) ∧
    (∀ key, (∀ id h, key = akey ("history/" +:+ id) → history_at (w_store world_history) id h →
               now ≤ HistoryExpiresAt h) →
       w_store r.2 !! key = w_store world_history !! key).
Proof.
  apply (history_exact env0 core0 world_history).
  - apply reliable0.
  - apply world_history_plain.
Defined.
