(* ===== verification/ShamirArith.v ===== *)
(** * The arithmetic of GF(2^8)

    The laws of [add], [mult] and [inverse].  Multiplication is additive in
    each argument, so its laws need checking only on the eight powers of
    two. *)

From Stdlib Require Import NArith List Bool Lia.
From S2P Require Import Shamir.
Import ListNotations.
#[local] Open Scope N_scope.

Definition byte (a : N) : Prop := a < 256.

(** ** Checking all bytes *)

Definition all_bytes : list N := map N.of_nat (seq 0 256).

Lemma byte_In a : byte a -> In a all_bytes.
Proof.
  intros Ha. apply in_map_iff. exists (N.to_nat a). split; [apply N2Nat.id|].
  apply in_seq. unfold byte in Ha. lia.
Qed.

Lemma check1 (P : N -> bool) : forallb P all_bytes = true -> forall a, byte a -> P a = true.
Proof. intros HP a Ha. rewrite forallb_forall in HP. apply HP, byte_In, Ha. Qed.

Lemma check2 (P : N -> N -> bool) :
  forallb (fun a => forallb (P a) all_bytes) all_bytes = true ->
  forall a b, byte a -> byte b -> P a b = true.
Proof.
  intros HP a b Ha Hb. apply (check1 (P a)); [|exact Hb].
  apply (check1 (fun a => forallb (P a) all_bytes)); assumption.
Qed.

(** ** Addition *)

Lemma add_byte a b : byte a -> byte b -> byte (add a b).
Proof.
  intros Ha Hb. apply N.ltb_lt. apply (check2 (fun a b => add a b <? 256)); try assumption.
  vm_compute. reflexivity.
Qed.

(** ** Multiplication *)

(** A round doubles and adds [a] if the bit of [b] is set. *)
Definition xtime (r : N) : N := N.lxor (N.land (neg8 (N.shiftr r 7)) 0x1B) (uint8 (r + r)).

Lemma round_xtime a b i r :
  byte a -> mult_round a b i r = add (if N.testbit b i then a else 0) (xtime r).
Proof.
  intros Ha. unfold mult_round, xtime, add. rewrite N.lxor_assoc. f_equal.
  change 1 with (N.ones 1). rewrite N.land_ones. change (2 ^ 1) with 2.
  rewrite <-N.bit0_mod, N.shiftr_spec', N.add_0_l.
  destruct (N.testbit b i); [|apply N.land_0_l].
  apply N.eqb_eq. apply (check1 (fun a => N.land (neg8 1) a =? a)); [|exact Ha].
  vm_compute. reflexivity.
Qed.

Lemma xtime_byte r : byte r -> byte (xtime r).
Proof.
  intros Hr. apply N.ltb_lt. apply (check1 (fun r => xtime r <? 256)); [|exact Hr].
  vm_compute. reflexivity.
Qed.

Lemma xtime_add r s : byte r -> byte s -> xtime (add r s) = add (xtime r) (xtime s).
Proof.
  intros Hr Hs. apply N.eqb_eq.
  apply (check2 (fun r s => xtime (add r s) =? add (xtime r) (xtime s))); try assumption.
  vm_compute. reflexivity.
Qed.

Lemma round_byte a b i r : byte a -> byte r -> byte (mult_round a b i r).
Proof.
  intros Ha Hr. rewrite round_xtime by exact Ha. apply add_byte; [|apply xtime_byte, Hr].
  destruct (N.testbit b i); [exact Ha|reflexivity].
Qed.

Lemma loop_byte i a b r : byte a -> byte r -> byte (mult_loop i a b r).
Proof. revert r. induction i; intros r Ha Hr; simpl; auto using round_byte. Qed.

Lemma mult_byte a b : byte a -> byte (mult a b).
Proof. intros Ha. apply loop_byte; [exact Ha|reflexivity]. Qed.

Lemma add_swap a b c d : add (add a b) (add c d) = add (add a c) (add b d).
Proof.
  unfold add. rewrite !N.lxor_assoc. f_equal. rewrite <-!N.lxor_assoc. f_equal. apply N.lxor_comm.
Qed.

Lemma loop_add_l i a a' b r r' :
  byte a -> byte a' -> byte r -> byte r' ->
  mult_loop i (add a a') b (add r r') = add (mult_loop i a b r) (mult_loop i a' b r').
Proof.
  intros Ha Ha'. revert r r'. induction i as [|i IH]; intros r r' Hr Hr'; [reflexivity|]. simpl.
  rewrite <-IH by auto using round_byte. f_equal.
  rewrite !round_xtime, xtime_add by auto using add_byte. rewrite add_swap.
  destruct (N.testbit b (N.of_nat i)); reflexivity.
Qed.

Lemma loop_add_r i a b b' r r' :
  byte a -> byte r -> byte r' ->
  mult_loop i a (add b b') (add r r') = add (mult_loop i a b r) (mult_loop i a b' r').
Proof.
  intros Ha. revert r r'. induction i as [|i IH]; intros r r' Hr Hr'; [reflexivity|]. simpl.
  rewrite <-IH by auto using round_byte. f_equal.
  rewrite !round_xtime, xtime_add by auto. rewrite add_swap. f_equal.
  unfold add. rewrite N.lxor_spec.
  destruct (N.testbit b _), (N.testbit b' _); simpl; rewrite ?N.lxor_0_r, ?N.lxor_nilpotent; reflexivity.
Qed.

Lemma mult_add_l a a' b : byte a -> byte a' -> mult (add a a') b = add (mult a b) (mult a' b).
Proof. intros Ha Ha'. apply (loop_add_l 8 a a' b 0 0); auto; reflexivity. Qed.

Lemma mult_add_r a b b' : byte a -> mult a (add b b') = add (mult a b) (mult a b').
Proof. intros Ha. apply (loop_add_r 8 a b b' 0 0); auto; reflexivity. Qed.

(** ** Laws from the powers of two *)

Definition powers : list N := [1; 2; 4; 8; 16; 32; 64; 128].

Definition additive (f : N -> N) : Prop :=
  forall a b, byte a -> byte b -> f (add a b) = add (f a) (f b).

(** The sum of the powers whose bit is set. *)
Definition bits_of (a : N) : list N := filter (fun p => negb (N.land a p =? 0)) powers.

Lemma bits_sum a : byte a -> fold_right add 0 (bits_of a) = a.
Proof.
  intros Ha. apply N.eqb_eq.
  apply (check1 (fun a => fold_right add 0 (bits_of a) =? a)); [|exact Ha]. vm_compute. reflexivity.
Qed.

Lemma powers_byte p : In p powers -> byte p.
Proof. intros Hp. repeat (destruct Hp as [<-|Hp]; [reflexivity|]). destruct Hp. Qed.

Lemma additive_0 f : additive f -> f 0 = 0.
Proof.
  intros Hf. pose proof (Hf 0 0 eq_refl eq_refl) as H0. change (add 0 0) with 0 in H0.
  rewrite H0. apply N.lxor_nilpotent.
Qed.

Lemma additive_ext f g :
  additive f -> additive g -> (forall p, In p powers -> f p = g p) ->
  forall a, byte a -> f a = g a.
Proof.
  intros Hf Hg Hp a Ha. rewrite <-(bits_sum a Ha).
  assert (Forall (fun p => In p powers) (bits_of a)) as Hb.
  { apply Forall_forall. intros p Hin. apply filter_In in Hin. tauto. }
  assert (forall l, Forall (fun p => In p powers) l -> byte (fold_right add 0 l)) as Hbyte.
  { induction 1; simpl; [reflexivity|]. apply add_byte; [apply powers_byte|]; assumption. }
  induction Hb as [|p l Hin Hl IH]; simpl; [rewrite !additive_0 by assumption; reflexivity|].
  rewrite Hf, Hg by (auto using powers_byte). f_equal; auto.
Qed.

Lemma check_powers (P : N -> bool) : forallb P powers = true -> forall p, In p powers -> P p = true.
Proof. intros HP. apply forallb_forall, HP. Qed.

Lemma additive_l b : additive (fun a => mult a b).
Proof. intros a a' Ha Ha'. apply mult_add_l; assumption. Qed.
Lemma additive_r a : byte a -> additive (mult a).
Proof. intros Ha b b' _ _. apply mult_add_r, Ha. Qed.

Lemma mult_comm a b : byte a -> byte b -> mult a b = mult b a.
Proof.
  intros Ha Hb. revert a Ha. apply additive_ext; [apply additive_l|apply additive_r, Hb|].
  intros p Hp. pose proof (powers_byte p Hp) as Hpb. revert b Hb.
  apply additive_ext; [apply additive_r, Hpb|apply additive_l|].
  intros q Hq. apply N.eqb_eq.
  apply (check_powers (fun q => mult p q =? mult q p)); [|exact Hq].
  apply (check_powers (fun p => forallb (fun q => mult p q =? mult q p) powers)); [|exact Hp].
  vm_compute. reflexivity.
Qed.

Lemma additive_comp f g : additive f -> additive g -> (forall a, byte a -> byte (g a)) ->
  additive (fun a => f (g a)).
Proof. intros Hf Hg Hb a b Ha Hb'. rewrite Hg, Hf by auto. reflexivity. Qed.

Lemma mult_assoc a b c :
  byte a -> byte b -> byte c -> mult a (mult b c) = mult (mult a b) c.
Proof.
  intros Ha Hb Hc. revert a Ha. apply additive_ext.
  { apply additive_l. }
  { apply (additive_comp (fun x => mult x c)); auto using additive_l, mult_byte. }
  intros p Hp. pose proof (powers_byte p Hp) as Hpb. revert b Hb. apply additive_ext.
  { apply (additive_comp (mult p)); auto using additive_r, additive_l, mult_byte. }
  { apply (additive_comp (fun x => mult x c)); auto using additive_l, additive_r, mult_byte. }
  intros q Hq. pose proof (powers_byte q Hq) as Hqb. revert c Hc. apply additive_ext.
  { apply (additive_comp (mult p)); auto using additive_r, mult_byte. }
  { auto using additive_r, mult_byte. }
  intros r Hr. apply N.eqb_eq.
  apply (check_powers (fun r => mult p (mult q r) =? mult (mult p q) r)); [|exact Hr].
  apply (check_powers (fun q => forallb (fun r => mult p (mult q r) =? mult (mult p q) r) powers)); [|exact Hq].
  apply (check_powers (fun p => forallb (fun q =>
    forallb (fun r => mult p (mult q r) =? mult (mult p q) r) powers) powers)); [|exact Hp].
  vm_compute. reflexivity.
Qed.

Lemma mult_1_l a : byte a -> mult 1 a = a.
Proof.
  intros Ha. apply N.eqb_eq. apply (check1 (fun a => mult 1 a =? a)); [|exact Ha].
  vm_compute. reflexivity.
Qed.

Lemma inverse_byte a : byte a -> byte (inverse a).
Proof. intros Ha. unfold inverse. cbv zeta. auto 20 using mult_byte. Qed.

Lemma mult_inverse a : byte a -> a <> 0 -> mult (inverse a) a = 1.
Proof.
  intros Ha H0. apply N.eqb_eq.
  enough ((a =? 0) || (mult (inverse a) a =? 1) = true) as H.
  { apply orb_true_iff in H as [H|H]; [|exact H]. apply N.eqb_eq in H. contradiction. }
  apply (check1 (fun a => (a =? 0) || (mult (inverse a) a =? 1))); [|exact Ha].
  vm_compute. reflexivity.
Qed.

Lemma mult_0_l a : byte a -> mult 0 a = 0.
Proof. intros Ha. apply (additive_0 (fun x => mult x a)), additive_l. Qed.

Lemma div_mult a b : byte a -> byte b -> b <> 0 -> div a b = Value (mult a (inverse b)).
Proof.
  intros Ha Hb H0. unfold div. apply N.eqb_neq in H0 as ->.
  destruct (N.eqb_spec a 0) as [->|]; [|reflexivity]. rewrite mult_0_l; auto using inverse_byte.
Qed.

(** The bytes with [add], [mult] and [inverse] form a field: the operations
    return bytes, addition is an involutive commutative group, multiplication
    is commutative and associative with 1, distributes over addition, and
    every byte but zero has the computed inverse. *)
Theorem gf256_field a b c :
  byte a -> byte b -> byte c ->
  byte (add a b) /\ byte (mult a b) /\ byte (inverse a) /\
  add a a = 0 /\ add a 0 = a /\ add a b = add b a /\ add a (add b c) = add (add a b) c /\
  mult 1 a = a /\ mult a b = mult b a /\ mult a (mult b c) = mult (mult a b) c /\
  mult (add a b) c = add (mult a c) (mult b c) /\
  (a <> 0 -> mult (inverse a) a = 1).
Proof.
  intros Ha Hb Hc. repeat split; auto using add_byte, mult_byte, inverse_byte, mult_1_l,
    mult_comm, mult_assoc, mult_add_l, mult_inverse.
  - apply N.lxor_nilpotent.
  - apply N.lxor_0_r.
  - apply N.lxor_comm.
  - symmetry. apply N.lxor_assoc.
Qed.

Lemma gf256_field_witness :
  byte (add 0x53 0xCA) /\ byte (mult 0x53 0xCA) /\ byte (inverse 0x53) /\
  add 0x53 0x53 = 0 /\ add 0x53 0 = 0x53 /\ add 0x53 0xCA = add 0xCA 0x53 /\
  add 0x53 (add 0xCA 2) = add (add 0x53 0xCA) 2 /\
  mult 1 0x53 = 0x53 /\ mult 0x53 0xCA = mult 0xCA 0x53 /\
  mult 0x53 (mult 0xCA 2) = mult (mult 0x53 0xCA) 2 /\
  mult (add 0x53 0xCA) 2 = add (mult 0x53 2) (mult 0xCA 2) /\
  (0x53 <> 0 -> mult (inverse 0x53) 0x53 = 1).
Proof. apply (gf256_field 0x53 0xCA 2); reflexivity. Defined.
