(* ===== verification/ShamirTotal.v ===== *)
(** * Secret sharing never panics

    [Combine] returns a secret or an error on every input: the tags it
    interpolates over are distinct, so that no division is by zero, and every
    index is in range. *)

From Stdlib Require Import NArith Arith String List Bool Lia.
From S2P Require Import Shamir ShamirArith.
Import ListNotations.
#[local] Open Scope N_scope.

Lemma index_lt {A} (l : list A) i : (i < length l)%nat -> exists a, index l i = Value a /\ nth_error l i = Some a.
Proof.
  intros Hi. unfold index. destruct (nth_error l i) as [a|] eqn:He; [eauto|].
  apply nth_error_None in He. lia.
Qed.

Lemma traverse_ok {A B} (f : A -> outcome B) (l : list A) :
  (forall a, In a l -> exists b, f a = Value b) ->
  exists bs, traverse f l = Value bs /\ length bs = length l.
Proof.
  induction l as [|a l IH]; intros Hf; simpl; [eauto|].
  destruct (Hf a (or_introl eq_refl)) as [b ->].
  destruct IH as (bs & -> & Hlen); [intros x Hx; apply Hf; right; exact Hx|].
  exists (b :: bs). simpl. auto.
Qed.

Lemma add_eq_0 a b : add a b = 0 -> a = b.
Proof. apply N.lxor_eq. Qed.

(** Distinct samples have a basis at every point. *)
Lemma basis_ok xs x i js b :
  NoDup xs -> (i < length xs)%nat -> (forall j, In j js -> (j < length xs)%nat) ->
  exists c, basis_loop xs x i js b = Value c.
Proof.
  intros Hnd Hi. revert b. induction js as [|j js IH]; intros b Hjs; simpl; [eauto|].
  assert (forall k, In k js -> (k < length xs)%nat) as Hjs' by (intros k Hk; apply Hjs; right; exact Hk).
  destruct (Nat.eqb_spec i j) as [|Hne]; [auto|].
  destruct (index_lt xs j) as (xj & -> & Hj); [apply Hjs; left; reflexivity|].
  destruct (index_lt xs i Hi) as (xi & -> & Hi'). simpl. unfold div.
  destruct (N.eqb_spec (add xi xj) 0) as [H0|_]; [|simpl; auto].
  exfalso. apply add_eq_0 in H0. subst. apply Hne.
  apply (proj1 (NoDup_nth_error xs) Hnd i j Hi). congruence.
Qed.

Lemma interpolate_ok xs ys x :
  NoDup xs -> length ys = length xs ->
  exists v, interpolatePolynomial xs ys x = Value v.
Proof.
  intros Hnd Hlen. unfold interpolatePolynomial.
  assert (forall i, In i (seq 0 (length xs)) -> (i < length xs)%nat) as Hseq
    by (intros i Hi; apply in_seq in Hi; lia).
  assert (forall idxs r, (forall i, In i idxs -> (i < length xs)%nat) ->
    exists v, interpolate_loop xs ys x idxs r = Value v) as H; [|apply H, Hseq].
  induction idxs as [|i idxs IH]; intros r His; simpl; [eauto|].
  assert (i < length xs)%nat as Hi by (apply His; left; reflexivity).
  destruct (basis_ok xs x i (seq 0 (length xs)) 1 Hnd Hi Hseq) as [c ->].
  destruct (index_lt ys i) as (yi & -> & _); [lia|]. simpl. apply IH. intros k Hk. apply His. right. exact Hk.
Qed.

(** The tags of parts of the same length: distinct and new, or an error. *)
Definition tags (parts : list (list N)) : list N := map (fun part => last part 0) parts.

Lemma index_last (part : list N) n : length part = S n -> index part n = Value (last part 0).
Proof.
  intros Hl. unfold index.
  destruct (exists_last (l := part)) as (l & a & ->); [intros ->; discriminate|].
  rewrite length_app in Hl. simpl in Hl. rewrite nth_error_app2, last_last by lia.
  replace (n - length l)%nat with 0%nat by lia. reflexivity.
Qed.

Lemma existsb_In t seen : existsb (N.eqb t) seen = true <-> In t seen.
Proof.
  rewrite existsb_exists. split.
  - intros (x & Hx & He). apply N.eqb_eq in He. subst. exact Hx.
  - intros Ht. exists t. split; [exact Ht|apply N.eqb_refl].
Qed.

Lemma sample_spec n parts seen :
  Forall (fun part => length part = S n) parts ->
  (sample_loop n seen parts = Value (tags parts) /\ NoDup (tags parts) /\
   (forall t, In t (tags parts) -> ~ In t seen)) \/
  (sample_loop n seen parts = Error "duplicate part detected" /\
   ~ (NoDup (tags parts) /\ (forall t, In t (tags parts) -> ~ In t seen))).
Proof.
  intros Hl. revert seen. induction Hl as [|part parts Hp _ IH]; intros seen; simpl.
  { left. split; [reflexivity|]. split; [constructor|]. intros t []. }
  rewrite (index_last part n Hp). simpl. set (t := last part 0).
  destruct (existsb (N.eqb t) seen) eqn:He.
  { right. split; [reflexivity|]. intros [_ Hn]. apply (Hn t); [left; reflexivity|].
    apply existsb_In, He. }
  destruct (IH (t :: seen)) as [(-> & Hnd & Hnew)|(-> & Hbad)]; simpl.
  - left. split; [reflexivity|]. split.
    + constructor; [|exact Hnd]. intros Hin. apply (Hnew t Hin). left. reflexivity.
    + intros u [<-|Hu] Hin; [|apply (Hnew u Hu); right; exact Hin].
      apply existsb_In in Hin. congruence.
  - right. split; [reflexivity|]. intros [Hnd Hnew]. apply Hbad. inversion Hnd as [|? ? Hnt Hnd']. subst.
    split; [exact Hnd'|]. intros u Hu [<-|Hin]; [contradiction|].
    apply (Hnew u); [right; exact Hu|exact Hin].
Qed.

(** Parts that can be combined: at least two, of the same length of at least
    two bytes, with distinct tags. *)
Definition combinable (parts : list (list N)) : Prop :=
  (2 <= length parts)%nat /\
  (exists n, (1 <= n)%nat /\ Forall (fun part => length part = S n) parts) /\
  NoDup (tags parts).

Lemma Combine_same_length parts n :
  (2 <= length parts)%nat -> (1 <= n)%nat -> Forall (fun part => length part = S n) parts ->
  Combine parts =
  (x_samples <- sample_loop n [] parts;;
   traverse (fun idx =>
     y_samples <- traverse (fun part => index part idx) parts;;
     interpolatePolynomial x_samples y_samples 0) (seq 0 n)).
Proof.
  intros H2 Hn Hl. unfold Combine.
  destruct parts as [|first [|second parts]]; [simpl in H2; lia..|].
  inversion Hl as [|? ? Hf Hrest]. subst. rewrite Hf.
  destruct (Nat.ltb_spec (S n) 2); [lia|].
  assert (forallb (fun part => Nat.eqb (length part) (S n)) (second :: parts) = true) as ->.
  { apply forallb_forall. intros part Hp. apply Nat.eqb_eq.
    rewrite Forall_forall in Hrest. apply Hrest, Hp. }
  simpl negb. rewrite Nat.sub_1_r. reflexivity.
Qed.

Lemma Combine_columns parts n xs :
  Forall (fun part => length part = S n) parts -> NoDup xs -> length xs = length parts ->
  exists secret, traverse (fun idx =>
     y_samples <- traverse (fun part => index part idx) parts;;
     interpolatePolynomial xs y_samples 0) (seq 0 n) = Value secret /\ length secret = n.
Proof.
  intros Hl Hnd Hx. destruct (traverse_ok (fun idx =>
     y_samples <- traverse (fun part => index part idx) parts;;
     interpolatePolynomial xs y_samples 0) (seq 0 n)) as (s & Hs & Hlen).
  - intros idx Hidx. apply in_seq in Hidx.
    destruct (traverse_ok (fun part => index part idx) parts) as (ys & -> & Hys).
    + intros part Hp. rewrite Forall_forall in Hl. apply Hl in Hp.
      destruct (index_lt part idx) as (y & Hy & _); [lia|]. eauto.
    + simpl. apply interpolate_ok; [exact Hnd|lia].
  - exists s. rewrite length_seq in Hlen. auto.
Qed.

(** C33: [Combine] never panics: it returns a secret, one byte shorter than each
    part, exactly when there are at least two parts, of one length of at
    least two bytes, with distinct tags, and otherwise an error. *)
Theorem Combine_total parts :
  (combinable parts -> exists secret, Combine parts = Value secret /\
     Forall (fun part => length part = S (length secret)) parts) /\
  (~ combinable parts -> exists msg, Combine parts = Error msg).
Proof.
  split.
  - intros (H2 & (n & Hn & Hl) & Hnd). rewrite (Combine_same_length parts n) by assumption.
    destruct (sample_spec n parts [] Hl) as [(-> & _)|(_ & [])]; simpl.
    + destruct (Combine_columns parts n (tags parts)) as (s & Hs & <-); [assumption..|apply length_map|].
      eauto.
    + split; [exact Hnd|]. intros t _ [].
  - intros Hbad. destruct parts as [|first [|second parts]]; [simpl; eauto..|].
    destruct (Nat.ltb_spec (length first) 2) as [Hs|Hs].
    { simpl. apply Nat.ltb_lt in Hs. rewrite Hs. eauto. }
    destruct (forallb (fun part => Nat.eqb (length part) (length first)) (second :: parts)) eqn:Hf.
    2: { unfold Combine. rewrite Hf. destruct (length first <? 2)%nat; simpl; eauto. }
    assert (Forall (fun part => length part = S (length first - 1)) (first :: second :: parts)) as Hl.
    { constructor; [lia|]. apply Forall_forall. intros part Hp. rewrite forallb_forall in Hf.
      apply Hf, Nat.eqb_eq in Hp. lia. }
    rewrite (Combine_same_length _ (length first - 1)) by (try exact Hl; simpl; lia).
    destruct (sample_spec _ _ [] Hl) as [(_ & Hnd & _)|(-> & _)]; [|simpl; eauto].
    exfalso. apply Hbad. split; [simpl; lia|]. split; [|exact Hnd].
    exists (length first - 1)%nat. split; [lia|exact Hl].
Qed.

Lemma Combine_total_witness :
  (combinable [[7; 1]; [9; 2]] -> exists secret, Combine [[7; 1]; [9; 2]] = Value secret /\
     Forall (fun part => length part = S (length secret)) [[7; 1]; [9; 2]]) /\
  (~ combinable [[7; 1]; [9; 2]] -> exists msg, Combine [[7; 1]; [9; 2]] = Error msg).
Proof. apply (Combine_total [[7; 1]; [9; 2]]). Defined.
