(* ===== verification/GF256.v ===== *)
(** * GF(2^8) as a field of MathComp

    The bytes with the operations of [Shamir] are a field, so that MathComp's
    theory of polynomials applies to them. *)

#[local] Set Warnings "-notation-overridden,-ambiguous-paths,-redundant-canonical-projection".
From Stdlib Require Import NArith Lia.
From HB Require Import structures.
From mathcomp Require Import boot order algebra.
From S2P Require Import Shamir ShamirArith.
Import GRing.Theory.

Set Implicit Arguments.
Unset Strict Implicit.
Unset Printing Implicit Defensive.

(** ** The field *)

Record gf := GF { gfval : N; gf_byte : N.ltb gfval 256 }.

Lemma gf_lt (a : gf) : byte (gfval a).
Proof. by apply/N.ltb_lt; case: a. Qed.

Lemma gf_inj (a b : gf) : gfval a = gfval b -> a = b.
Proof. case: a b => [a ha] [b hb] /= eab. by subst b; congr GF; apply: bool_irrelevance. Qed.

Definition mk (n : N) (h : byte n) : gf := GF (introT (@N.ltb_spec0 n 256) h).

Definition to_ord (a : gf) : 'I_256 := inord (N.to_nat (gfval a)).

Lemma ord_byte (i : 'I_256) : byte (N.of_nat i).
Proof. by case: i => i /= /ltP h; rw /byte; lia. Qed.

Definition of_ord (i : 'I_256) : gf := mk (ord_byte i).

Lemma to_ordK : cancel to_ord of_ord.
Proof.
move=> a; apply: gf_inj => /=; rw inordK; last exact: Nnat.N2Nat.id.
by apply/ltP; have := gf_lt a; rw /byte; lia.
Qed.

HB.instance Definition _ := Finite.copy gf (can_type to_ordK).

Definition gf_add (a b : gf) : gf := mk (add_byte _ _ (gf_lt a) (gf_lt b)).
Definition gf_mul (a b : gf) : gf := mk (mult_byte _ (gfval b) (gf_lt a)).
Definition gf_inv (a : gf) : gf := mk (inverse_byte _ (gf_lt a)).
Definition gf0 : gf := @mk 0%num erefl.
Definition gf1 : gf := @mk 1%num erefl.

Lemma gf_addA : associative gf_add.
Proof. by move=> a b c; apply: gf_inj; rw /= /add N.lxor_assoc. Qed.
Lemma gf_addC : commutative gf_add.
Proof. by move=> a b; apply: gf_inj; apply: N.lxor_comm. Qed.
Lemma gf_add0 : left_id gf0 gf_add.
Proof. by move=> a; apply: gf_inj; apply: N.lxor_0_l. Qed.
Lemma gf_addN : left_inverse gf0 id gf_add.
Proof. by move=> a; apply: gf_inj; apply: N.lxor_nilpotent. Qed.

HB.instance Definition _ := GRing.isZmodule.Build gf gf_addA gf_addC gf_add0 gf_addN.

Lemma gf_mulA : associative gf_mul.
Proof. by move=> a b c; apply: gf_inj; apply: mult_assoc; apply: gf_lt. Qed.
Lemma gf_mulC : commutative gf_mul.
Proof. by move=> a b; apply: gf_inj; apply: mult_comm; apply: gf_lt. Qed.
Lemma gf_mul1 : left_id gf1 gf_mul.
Proof. by move=> a; apply: gf_inj; apply: mult_1_l; apply: gf_lt. Qed.
Lemma gf_mulD : left_distributive gf_mul gf_add.
Proof. by move=> a b c; apply: gf_inj; apply: mult_add_l; apply: gf_lt. Qed.
Lemma gf_1n0 : gf1 != gf0.
Proof. by apply/eqP => /(congr1 gfval). Qed.

HB.instance Definition _ := GRing.Zmodule_isComNzRing.Build gf gf_mulA gf_mulC gf_mul1 gf_mulD gf_1n0.

Lemma gf_mulV (a : gf) : a != 0%R -> (gf_inv a * a)%R = 1%R.
Proof.
move=> /eqP a0; apply: gf_inj; apply: mult_inverse; first exact: gf_lt.
by move=> e; apply: a0; apply: gf_inj.
Qed.
Lemma gf_inv0 : gf_inv 0%R = 0%R.
Proof. exact: gf_inj. Qed.

HB.instance Definition _ := GRing.ComNzRing_isField.Build gf gf_mulV gf_inv0.
