(* ===== verification/ShamirSharing.v ===== *)
(** * The round trip and the secrecy of secret sharing

    The loops of the source compute the value of a polynomial and the
    Lagrange interpolation of its samples over GF(2^8).  Hence the shares of
    [Split], as many as the threshold or more, in any order, give the secret
    back; and fewer of them are equally likely to come from any other secret
    of the same length. *)

#[local] Set Warnings "-notation-overridden,-ambiguous-paths,-redundant-canonical-projection".
From Stdlib Require Import NArith ZArith Permutation FinFun Lia.
From HB Require Import structures.
From mathcomp Require Import boot order algebra.
From S2P Require Import Shamir ShamirArith ShamirTotal GF256.
Import GRing.Theory.

Set Implicit Arguments.
Unset Strict Implicit.
Unset Printing Implicit Defensive.

#[local] Open Scope ring_scope.

(** ** Bytes and field elements *)

#[local] Arguments gfval : simpl never.

(** The bytes of a list of field elements. *)
Abbreviation vals := (map gfval).

#[local] Opaque mult add inverse.

Lemma gfvalM (a b : gf) : gfval (a * b) = mult (gfval a) (gfval b).
Proof. by []. Qed.
Lemma gfvalD (a b : gf) : gfval (a + b) = add (gfval a) (gfval b).
Proof. by []. Qed.
Lemma gfvalB (a b : gf) : gfval (a - b) = add (gfval a) (gfval b).
Proof. by []. Qed.
Lemma gfvalV (a : gf) : gfval a^-1 = inverse (gfval a).
Proof. by []. Qed.
Lemma index_vals (s : seq gf) i : (i < size s)%N -> index (vals s) i = Value (gfval s`_i).
Proof. by rw /index; elim: s i => [|a s IH] [|i] //= /IH. Qed.

Lemma length_size (T : Type) (s : seq T) : length s = size s.
Proof. by elim: s => //= a s ->. Qed.

Lemma list_map (A B : Type) (f : A -> B) (s : seq A) : List.map f s = map f s.
Proof. by elim: s => //= a s ->. Qed.

Lemma seq_iota m n : List.seq m n = iota m n.
Proof. by elim: n m => //= n IH m; rw IH. Qed.

(** ** Evaluation *)

Lemma horner_rec_rcons (s : seq gf) c x out :
  horner_rec (rcons (rcons s c) out) x = horner_rec (rcons s (out * x + c)) x.
Proof. by elim: s => /= [|a s ->]; rw ?mul0r ?add0r. Qed.

Lemma horner_loop (p : seq gf) x i out :
  (i <= size p)%N ->
  horner (vals p) (gfval x) i (gfval out) = Value (gfval (horner_rec (rcons (take i p) out) x)).
Proof.
elim: i out => [|i IH] out ip /=; first by rw take0 /= mul0r add0r.
rw (index_vals ip) /= (take_nth 0 ip) horner_rec_rcons -IH //.
exact: ltnW.
Qed.

Lemma evaluate_vals (p : seq gf) x :
  (0 < size p)%N -> evaluate (vals p) (gfval x) = Value (gfval (Poly p).[x]).
Proof.
move=> p0; rw /evaluate horner_Poly.
case: N.eqb_spec => [x0|_].
  have -> : x = 0 by exact: gf_inj.
  by rw (index_vals p0); case: p p0 => //= a s _; rw mulr0 add0r.
rw length_size size_map; case sp: (size p) p0 => [//|d] _.
have dp : (d < size p)%N by rw sp.
rw (index_vals dp) /= horner_loop ?(ltnW dp) //.
by rw -(take_nth 0 dp) -sp take_size.
Qed.

(** ** Interpolation *)

(** The Lagrange basis polynomial of the sample [i], at [x]. *)
Definition basis_at (xs : seq gf) (x : gf) (i : nat) (js : seq nat) : gf :=
  \prod_(j <- js | j != i) ((x - xs`_j) / (xs`_i - xs`_j)).

Lemma basis_vals (xs : seq gf) x i js b :
  uniq xs -> (i < size xs)%N -> all (gtn (size xs)) js ->
  basis_loop (vals xs) (gfval x) i js (gfval b) = Value (gfval (b * basis_at xs x i js)).
Proof.
move=> xu ix; rw /basis_at; elim: js b => [|j js IH] b; first by rw big_nil mulr1.
case/andP => jx jsx; rw big_cons /=.
case: PeanoNat.Nat.eqb_spec => [ij|/eqP].
  by subst j; rw eqxx /= IH.
move=> /negPf ij; rw eq_sym ij /= (index_vals jx) (index_vals ix) /=.
rw -!gfvalB div_mult; [exact: gf_lt|exact: gf_lt| |].
  move=> e; have /eqP : xs`_i - xs`_j = 0 by exact: gf_inj.
  by rw subr_eq0 nth_uniq // ij.
by rw /= -gfvalV -!gfvalM (IH _ jsx) -[b * _ * _]mulrA.
Qed.

Definition lagrange (xs ys : seq gf) (x : gf) (idxs : seq nat) : gf :=
  \sum_(i <- idxs) ys`_i * basis_at xs x i (iota 0 (size xs)).

Lemma interpolate_vals (xs ys : seq gf) x :
  uniq xs -> size ys = size xs ->
  interpolatePolynomial (vals xs) (vals ys) (gfval x) =
  Value (gfval (lagrange xs ys x (iota 0 (size xs)))).
Proof.
move=> xu sy; rw /interpolatePolynomial length_size size_map seq_iota.
have ltI : all (gtn (size xs)) (iota 0 (size xs)) by apply/allP => i; rw mem_iota.
suff H idxs r : all (gtn (size xs)) idxs ->
    interpolate_loop (vals xs) (vals ys) (gfval x) idxs (gfval r) =
    Value (gfval (r + lagrange xs ys x idxs)).
  by rw (H _ 0 ltI) add0r.
rw /lagrange; elim: idxs r => [|i idxs IH] r; first by rw big_nil addr0.
case/andP => ix idx; rw big_cons /= length_size size_map seq_iota.
rw (basis_vals _ 1) // mul1r /= index_vals ?sy //=.
by rw -gfvalM -gfvalD (IH _ idx) -addrA.
Qed.

(** The polynomial through the samples [ys] at [xs]. *)
Section interpolation.
Variables (xs ys : seq gf).
Hypothesis xs_uniq : uniq xs.

Let factor (i j : nat) : {poly gf} := (xs`_i - xs`_j)^-1 *: ('X - (xs`_j)%:P).
Let basis (i : nat) : {poly gf} := \prod_(j <- iota 0 (size xs) | j != i) factor i j.
Definition interp : {poly gf} := \sum_(i <- iota 0 (size xs)) ys`_i *: basis i.

Lemma basis_horner i x : (basis i).[x] = basis_at xs x i (iota 0 (size xs)).
Proof.
rw /basis /basis_at horner_prod; apply: eq_bigr => j _.
by rw /factor hornerZ hornerXsubC mulrC.
Qed.

Lemma interp_horner x : interp.[x] = lagrange xs ys x (iota 0 (size xs)).
Proof.
by rw /interp /lagrange horner_sum; apply: eq_bigr => i _; rw hornerZ basis_horner.
Qed.

(** At a sample the basis polynomials are one or zero. *)
Lemma basis_sample i k : (i < size xs)%N -> (k < size xs)%N ->
  basis_at xs xs`_k i (iota 0 (size xs)) = (i == k)%:R.
Proof.
move=> ix kx; rw /basis_at; case: eqP => [->|/eqP ik].
  rw big_seq_cond big1 // => j /andP[]; rw mem_iota => /= jx jk.
  by rw divff // subr_eq0 nth_uniq // eq_sym.
apply/eqP; rw prodf_seq_eq0; apply/hasP; exists k; first by rw mem_iota.
by rw eq_sym ik subrr mul0r eqxx.
Qed.

Lemma interp_sample k : (k < size xs)%N -> interp.[xs`_k] = ys`_k.
Proof.
move=> kx; rw interp_horner /lagrange (bigD1_seq k) ?iota_uniq ?mem_iota //=.
rw basis_sample // eqxx mulr1 big_seq_cond big1 ?addr0 //.
move=> i /andP[]; rw mem_iota => /= ix /negPf ik.
by rw basis_sample // ik mulr0.
Qed.

Lemma basis_size i : (i < size xs)%N -> (size (basis i) <= size xs)%N.
Proof.
move=> ix; rw /basis scaler_prod; apply: (leq_trans (size_scale_leq _ _)).
rw -big_filter size_prod_XsubC size_filter.
have := count_predC (pred1 i) (iota 0 (size xs)).
by rw size_iota (count_uniq_mem _ (iota_uniq _ _)) mem_iota /= ix => e; apply: eq_leq.
Qed.

Lemma interp_size : (size interp <= size xs)%N.
Proof.
apply: (leq_trans (size_sum _ _ _)); apply/bigmax_leqP_seq => i.
rw mem_iota => /= ix _; apply: (leq_trans (size_scale_leq _ _)).
exact: basis_size.
Qed.

(** It is the only polynomial through them with so few coefficients. *)
Lemma interp_unique (p : {poly gf}) :
  (size p <= size xs)%N -> (forall k, (k < size xs)%N -> p.[xs`_k] = ys`_k) -> interp = p.
Proof.
move=> sp pE; apply/eqP; rw -subr_eq0; apply/eqP.
apply: (@roots_geq_poly_eq0 _ _ xs) => //; last first.
  by apply: (leq_trans (size_polyD _ _)); rw size_polyN geq_max interp_size sp.
apply/(all_nthP 0) => k kx.
by rw rootE hornerD hornerN interp_sample // pE // subrr.
Qed.
End interpolation.

(** The interpolation of the samples of a polynomial is its value. *)
Lemma lagrange_exact (xs : seq gf) (p : {poly gf}) x :
  uniq xs -> (size p <= size xs)%N ->
  lagrange xs [seq p.[y] | y <- xs] x (iota 0 (size xs)) = p.[x].
Proof.
move=> xu sp; rw -interp_horner (@interp_unique xs _ xu p) // => k kx.
by rw (nth_map 0).
Qed.

(** ** Shares *)

(** Bytes are values of field elements. *)
Lemma vals_of (bs : seq N) : List.Forall byte bs -> exists s, vals s = bs.
Proof.
elim: bs => [_|b bs IH /List.Forall_cons_iff[hb hbs]]; first by exists [::].
by have [s <-] := IH hbs; exists (mk hb :: s).
Qed.

Lemma traverse_map (A B C : Type) (f : B -> outcome C) (h : A -> B) (g : A -> C) (s : seq A) :
  (forall a, f (h a) = Value (g a)) -> traverse f (map h s) = Value (map g s).
Proof. by move=> fg; elim: s => //= a s ->; rw fg. Qed.

(** The share with the tag [x] of the polynomials [ps]. *)
Definition share (ps : seq (seq gf)) (x : gf) : seq N := vals (rcons [seq (Poly p).[x] | p <- ps] x).

(** A column in front of the shares of the later ones. *)
Lemma share_cons p ps (xs : seq gf) :
  List.map (fun '(y, row) => y :: row)
    (List.combine [seq gfval (Poly p).[x] | x <- xs] [seq share ps x | x <- xs]) =
  [seq share (p :: ps) x | x <- xs].
Proof. by elim: xs => //= x xs ->. Qed.

Section split.
Variables (random : nat -> nat -> outcome (seq N)) (perm : seq N) (xs : seq gf) (t : nat).
Hypothesis random_ok : forall idx n, exists bs,
  random idx n = Value bs /\ length bs = n /\ List.Forall byte bs.
Hypothesis t_bounds : (1 < t < 256)%N.
(** The tags of the shares. *)
Hypothesis tags_ok : forall i, (i < size xs)%N -> coordinate perm i = Value (gfval xs`_i).

Lemma makePolynomial_ok idx (v : gf) :
  exists p, makePolynomial (random idx) (gfval v) (uint8 (N.of_nat t - 1)) = Value (vals (v :: p)) /\
            size (v :: p) = t.
Proof.
case/andP: t_bounds => /ltP t1 /ltP t2.
have -> : uint8 (N.of_nat t - 1) = (N.of_nat t - 1)%num by rw /uint8 N.mod_small //; lia.
rw /makePolynomial.
have -> : N.to_nat (uint8 (N.of_nat t - 1 + 1)) = t by rw /uint8 N.mod_small; lia.
case: t t1 {t2} => [|n] t1; first by lia.
have [bs [-> [lb /vals_of[p pE]]]] := random_ok idx n; exists p; split; first by rw /= pE.
by rw /= -(size_map gfval) pE -length_size lb.
Qed.

Lemma traverse_tags (C : Type) (f : N -> outcome C) (g : gf -> C) :
  (forall x, f (gfval x) = Value (g x)) ->
  traverse (fun i => bind (coordinate perm i) f) (List.seq 0 (size xs)) = Value [seq g x | x <- xs].
Proof.
move=> fg; rw seq_iota.
suff H s : all (gtn (size xs)) s ->
    traverse (fun i => bind (coordinate perm i) f) s = Value [seq g xs`_i | i <- s].
  rw H; first by apply/allP => i; rw mem_iota.
  by congr Value; rw -[in RHS](mkseq_nth 0 xs) -map_comp.
by elim: s => //= i s IH /andP[ix /IH ->]; rw tags_ok //= fg.
Qed.

Lemma columns_ok idx (secret : seq gf) :
  exists ps, all (fun p => size p == t) ps /\ [seq p`_0 | p <- ps] = secret /\
    columns random perm (size xs) (N.of_nat t) (vals xs) idx (vals secret) =
    Value [seq share ps x | x <- xs].
Proof.
elim: secret idx => [|v secret IH] idx /=.
  by exists [::]; split => //; split => //; rw list_map -map_comp.
have [p [pE sp]] := makePolynomial_ok idx v.
have [ps [psz [ps0 psE]]] := IH idx.+1.
exists ((v :: p) :: ps); split; first by apply/andP; split; first exact/eqP.
split; first by rw /= ps0.
rw /column pE /= (@traverse_tags _ _ (fun x => gfval (Poly (v :: p)).[x])).
  by move=> x; exact: (@evaluate_vals (v :: p)).
by cbn [bind]; rw psE; cbn [bind]; rw share_cons.
Qed.
End split.

(** ** Combining shares *)

Lemma last_vals (s : seq gf) x : List.last (vals (rcons s x)) 0%num = gfval x.
Proof. by elim: s => //= a [|b s] //= ->. Qed.

Lemma uniq_NoDup (xs : seq gf) : uniq xs -> List.NoDup (vals xs).
Proof.
elim: xs => [_|x xs IH /= /andP[xn xu]]; constructor; last exact: IH.
move=> /List.in_map_iff[y [e hy]]; move/negP: xn; apply.
by rw -(gf_inj e); elim: xs hy {xu IH} => //= z s IHs [->|/IHs]; rw inE ?eqxx // => ->; rw orbT.
Qed.

(** Combining shares of polynomials of at most as many coefficients. *)
Lemma Combine_shares (ps : seq (seq gf)) (xs : seq gf) :
  (0 < size ps)%N -> (1 < size xs)%N -> uniq xs -> all (fun p => 0 < size p <= size xs)%N ps ->
  Combine [seq share ps x | x <- xs] = Value (vals [seq p`_0 | p <- ps]).
Proof.
move=> ps0 xs1 xu psz.
have lens : List.Forall (fun part => length part = (size ps).+1) [seq share ps x | x <- xs].
  apply/List.Forall_forall => part /List.in_map_iff[x [<- _]].
  by rw length_size size_map size_rcons size_map.
rw (@Combine_same_length _ (size ps)) //; [by rw length_size size_map; exact/ltP|exact/ltP|].
have tagsE : tags [seq share ps x | x <- xs] = vals xs.
  by rw /tags list_map -map_comp; apply: eq_map => x; exact: last_vals.
have [[-> _]|[_ []]] := sample_spec _ _ nil lens; last first.
  by rw tagsE; split; [exact: uniq_NoDup|move=> ? _ []].
rw tagsE seq_iota; cbn [bind].
suff col idx : (idx < size ps)%N ->
    bind (traverse (index^~ idx) [seq share ps x | x <- xs])
      (fun ys => interpolatePolynomial (vals xs) ys 0) = Value (gfval (nth [::] ps idx)`_0).
  suff H s : all (gtn (size ps)) s -> traverse (fun idx =>
      bind (traverse (index^~ idx) [seq share ps x | x <- xs])
        (fun ys => interpolatePolynomial (vals xs) ys 0)) s =
      Value [seq gfval (nth [::] ps idx)`_0 | idx <- s].
    rw H; first by apply/allP => i; rw mem_iota.
    by congr Value; rw -[in RHS](mkseq_nth [::] ps) -!map_comp.
  by elim: s => //= i s IH /andP[ix /IH ->]; rw col.
move=> ix; set p := nth [::] ps idx.
rw (@traverse_map _ _ _ _ _ (fun x => gfval (Poly p).[x])) => [x|].
  rw /share index_vals ?size_rcons ?size_map ?ltnS ?(ltnW ix) //.
  by rw nth_rcons size_map ix (nth_map [::]).
rw /= (map_comp gfval (fun x => (Poly p).[x])) -[X in interpolatePolynomial _ _ X]/(gfval 0).
rw interpolate_vals ?size_map //.
have /andP[p0 pz] : (0 < size p <= size xs)%N by apply: (allP psz); apply: mem_nth.
rw lagrange_exact //; first exact: leq_trans (size_Poly _) pz.
by rw horner_coef0 coef_Poly.
Qed.

(** ** The round trip *)

(** What [Split] relies on: math/rand's [Perm(255)] is a permutation of the
    numbers below 255, and crypto/rand fills the bytes it is given. *)
Definition perm_ok (perm : seq N) : Prop :=
  Permutation perm (List.map N.of_nat (List.seq 0 255)).
Definition random_fills (random : nat -> nat -> outcome (seq N)) : Prop :=
  forall idx n, exists bs, random idx n = Value bs /\ length bs = n /\ List.Forall byte bs.

Lemma NoDup_uniq (xs : seq gf) : List.NoDup (vals xs) -> uniq xs.
Proof.
elim: xs => //= x xs IH /List.NoDup_cons_iff[xn /IH ->]; rw andbT; apply/negP => xin; apply: xn.
by elim: xs xin {IH} => //= y s IHs; rw inE => /orP[/eqP ->|/IHs]; [left|right].
Qed.

Lemma perm_facts perm : perm_ok perm ->
  length perm = 255 /\ List.NoDup perm /\ forall c, List.In c perm -> (c < 255)%num.
Proof.
move=> pp; split; first by rw (Permutation_length pp) List.length_map List.length_seq.
split.
  apply: (Permutation_NoDup (Permutation_sym pp)).
  by apply: Injective_map_NoDup; [exact: Nnat.Nat2N.inj|exact: List.seq_NoDup].
by move=> c /(Permutation_in c pp)/List.in_map_iff[n [<- /List.in_seq nb]]; lia.
Qed.

(** The tags: one more than the coordinates, hence distinct and not zero. *)
Lemma perm_tags perm parts : perm_ok perm -> (parts <= 255)%N ->
  exists xs : seq gf, size xs = parts /\ uniq xs /\ all (predC1 0) xs /\
    forall i, (i < parts)%N -> coordinate perm i = Value (gfval xs`_i).
Proof.
move=> /perm_facts[lp [nd lt]] pl.
have [s sE] : exists s, vals s = [seq (c + 1)%num | c <- perm].
  apply: vals_of; apply/List.Forall_forall => b /List.in_map_iff[c [<- /lt hc]].
  by rw /byte; lia.
have ss : size s = 255 by rw -(size_map gfval) sE size_map -length_size.
have sc i : (i < 255)%N -> exists2 c, List.nth_error perm i = Some c & gfval s`_i = (c + 1)%num.
  move=> i255; case e: (List.nth_error perm i) => [c|]; last first.
    by move/List.nth_error_None: e; rw lp => /leP; rw leqNgt i255.
  exists c => //; have := @index_vals s i; rw ss sE => /(_ i255).
  by rw /index -list_map List.nth_error_map e => -[].
exists (take parts s); split; first by rw size_takel ?ss.
split.
  apply: take_uniq; apply: NoDup_uniq; rw sE.
  by apply: (@Injective_map_NoDup _ _ (fun c => (c + 1)%num)) => // a b; lia.
have tk i : (i < parts)%N -> (take parts s)`_i = s`_i by move=> ip; rw nth_take.
split.
  apply/(all_nthP 0) => i; rw size_takel ?ss // => ip; rw tk //=.
  have [c _ e] := sc i (leq_trans ip pl); apply/eqP => s0.
  by move: e; rw s0 => e; have e0 : (0 = c + 1)%num := e; lia.
move=> i ip; have [c e e'] := sc i (leq_trans ip pl); rw tk // e' /coordinate /index e /=.
have hc : (c < 255)%num by apply: lt; exact: List.nth_error_In e.
by rw /uint8 (N.mod_small c) ?N.mod_small //; lia.
Qed.

Lemma Split_checks random perm (v : N) secret parts t :
  (1 < t <= parts)%N -> (parts <= 255)%N ->
  Split random perm (v :: secret) (Z.of_nat parts) (Z.of_nat t) =
  bind (traverse (coordinate perm) (List.seq 0 parts))
    (fun tags => columns random perm parts (N.of_nat t) tags 0 (v :: secret)).
Proof.
move=> /andP[/ltP t1 /leP tp] /leP p255; rw /Split.
case: Z.ltb_spec => [|_]; first by lia.
case: Z.ltb_spec => [|_]; first by lia.
case: Z.ltb_spec => [|_]; first by lia.
case: Z.ltb_spec => [|_]; first by lia.
by rw Znat.Nat2Z.id -(Znat.nat_N_Z t) Znat.N2Z.id.
Qed.

(** The shares with the indices [sel], in that order. *)
Definition pick (shares : seq (seq N)) (sel : seq nat) : seq (seq N) :=
  List.map (fun i => List.nth i shares [::]) sel.

Lemma pick_shares ps (xs : seq gf) sel :
  all (gtn (size xs)) sel ->
  pick [seq share ps x | x <- xs] sel = [seq share ps x | x <- [seq xs`_i | i <- sel]].
Proof.
rw /pick; elim: sel => //= i sel IH /andP[ix /IH ->]; congr (_ :: _).
by elim: xs i ix {IH} => //= x xs IH [|i] //= /IH.
Qed.

Lemma NoDup_sel (sel : seq nat) : List.NoDup sel -> uniq sel.
Proof.
elim: sel => //= i s IH /List.NoDup_cons_iff[xn /IH ->]; rw andbT; apply/negP => xin; apply: xn.
by elim: s xin {IH} => //= j s IHs; rw inE => /orP[/eqP ->|/IHs]; [left|right].
Qed.

Lemma Forall_sel (sel : seq nat) n : List.Forall (fun i => lt i n) sel -> all (gtn n) sel.
Proof. by elim: sel => //= i s IH /List.Forall_cons_iff[/ltP -> /IH]. Qed.

(** C6: secrets round trip: [Split] succeeds on a non-empty secret with at least
    as many parts as the threshold, at most 255, and a threshold of at least
    two; it returns that many shares; and [Combine] gives the secret back from
    any selection of distinct shares, in any order, that has at least as many
    shares as the threshold. *)
Theorem split_combine random perm secret parts t :
  random_fills random -> perm_ok perm -> List.Forall byte secret -> secret <> [::] ->
  (1 < t <= parts)%N -> (parts <= 255)%N ->
  exists shares, Split random perm secret (Z.of_nat parts) (Z.of_nat t) = Value shares /\
    length shares = parts /\
    forall sel, List.NoDup sel -> List.Forall (fun i => lt i parts) sel -> (t <= length sel)%N ->
      Combine (pick shares sel) = Value secret.
Proof.
move=> rnd prm /vals_of[s <-] s0 tb p255; case: s s0 => [//|v s] _.
have /andP[t1 tp] := tb.
have [xs [sxs [xu [_ xt]]]] := perm_tags prm p255.
have t256 : (1 < t < 256)%N by rw t1 ltnS (leq_trans tp p255).
have xt' i : (i < size xs)%N -> coordinate perm i = Value (gfval xs`_i) by rw sxs; exact: xt.
have [ps [psz [ps0 psE]]] := columns_ok rnd t256 xt' 0 (v :: s).
exists [seq share ps x | x <- xs]; split; last split.
- rw Split_checks // -sxs.
  have := @traverse_tags _ _ xt' _ (@Value _) gfval (fun x => erefl).
  have -> : traverse (fun i => bind (coordinate perm i) Value) (List.seq 0 (size xs)) =
            traverse (coordinate perm) (List.seq 0 (size xs)).
    by elim: (List.seq _ _) => //= i l ->; case: (coordinate perm i).
  by move=> ->; exact: psE.
- by rw length_size size_map.
move=> sel /NoDup_sel su /Forall_sel; rw -sxs => sl; rw length_size => st.
rw pick_shares // Combine_shares ?size_map ?(leq_trans t1 st) //.
- by case: (ps) ps0.
- rw map_inj_in_uniq // => i j /(allP sl) ix /(allP sl) jx /eqP.
  by rw nth_uniq // => /eqP.
- by apply: sub_all psz => p /eqP ->; rw st andbT; exact: ltnW.
by rw ps0.
Qed.

(** ** Secrecy *)

(** The random bytes of a call: [n] of them for each of the [m] bytes of the
    secret, and the source that hands them out. *)
Definition draws (m n : nat) (d : seq (seq N)) : Prop :=
  length d = m /\ List.Forall (fun bs => length bs = n /\ List.Forall byte bs) d.
Definition dealt (d : seq (seq N)) (idx n : nat) : outcome (seq N) :=
  Value (List.firstn n (List.nth idx d [::])).

(** The byte by byte sum of two lists of draws. *)
Definition masked (m d : seq (seq N)) : seq (seq N) :=
  [seq [seq add a.1 a.2 | a <- zip u.1 u.2] | u <- zip m d].
Definition mask_gf (m d : seq (seq gf)) : seq (seq gf) :=
  [seq [seq a.1 + a.2 | a <- zip u.1 u.2] | u <- zip m d].

Lemma masked_vals (m d : seq (seq gf)) : masked (map vals m) (map vals d) = map vals (mask_gf m d).
Proof.
rw /masked /mask_gf; elim: m d => [|u m IH] [|v d] //=; rw IH; congr (_ :: _).
by elim: u v {IH} => [|a u IHu] [|b v] //=; rw IHu.
Qed.

Lemma addgK (a b : gf) : a + (a + b) = b.
Proof. by rw addrA -[a + a]/(a - a) subrr add0r. Qed.

Lemma mask_gfK n (m d : seq (seq gf)) :
  size m = size d -> all (fun u => size u == n) m -> all (fun u => size u == n) d ->
  all (fun u => size u == n) (mask_gf m d) /\ mask_gf m (mask_gf m d) = d.
Proof.
rw /mask_gf; elim: m d => [|u m IH] [|v d] //= [/IH H] /andP[/eqP su um] /andP[/eqP sv vd].
have [Ha ->] := H um vd; rw Ha size_map size_zip su sv minnn eqxx; split=> //; congr (_ :: _).
elim: u v n su sv {IH H um vd Ha} => [|a u IH] [|b v] [|n] //= [su] [sv].
by rw addgK (IH v n su sv).
Qed.

Lemma draws_vals m n d : draws m n d ->
  exists e, map vals e = d /\ size e = m /\ all (fun p : seq gf => size p == n) e.
Proof.
case=> <- {m}; elim: d => [_|bs d IH /List.Forall_cons_iff[[lb /vals_of[p pE]] /IH[e [eE [se en]]]]].
  by exists [::].
exists (p :: e); split; first by rw /= pE eE.
split; first by rw /= se length_size.
by rw /= en andbT -(size_map gfval) pE -length_size lb.
Qed.

Lemma vals_draws n (e : seq (seq gf)) :
  all (fun p : seq gf => size p == n) e -> draws (size e) n (map vals e).
Proof.
move=> en; split; first by rw length_size size_map.
elim: e en => //= p e IH /andP[/eqP sp /IH H]; constructor=> //; split.
  by rw length_size size_map.
by apply/List.Forall_forall => b /List.in_map_iff[a [<- _]]; exact: gf_lt.
Qed.

(** The shares of [Split] with given draws. *)
Lemma columns_dealt random perm (xs : seq gf) t idx (secret : seq gf) (e : seq (seq gf)) :
  (1 < t < 256)%N -> (forall i, (i < size xs)%N -> coordinate perm i = Value (gfval xs`_i)) ->
  size e = size secret -> all (fun p => size p == t.-1) e ->
  (forall j, (j < size secret)%N -> random (idx + j)%N t.-1 = Value (vals (nth [::] e j))) ->
  columns random perm (size xs) (N.of_nat t) (vals xs) idx (vals secret) =
  Value [seq share [seq p.1 :: p.2 | p <- zip secret e] x | x <- xs].
Proof.
move=> tb xt; elim: secret idx e => [|v secret IH] idx [|p e] //=.
  by move=> _ _ _; rw list_map -map_comp.
move=> [se] /andP[/eqP sp en] rE.
rw /column /makePolynomial.
have /andP[/ltP t1 /ltP t2] := tb.
have -> : uint8 (N.of_nat t - 1) = (N.of_nat t - 1)%num by rw /uint8 N.mod_small //; lia.
have -> : N.to_nat (uint8 (N.of_nat t - 1 + 1)) = t.-1.+1 by rw /uint8 N.mod_small; lia.
have := rE 0%N isT; rw addn0 /= => ->; cbn [bind wrap_error].
rw (@traverse_tags _ _ xt _ _ (fun x => gfval (Poly (v :: p)).[x])).
  by move=> x; exact: (@evaluate_vals (v :: p)).
cbn [bind]; rw (IH idx.+1 e se en) => [j jx|]; last by cbn [bind]; rw share_cons.
by have := rE j.+1 jx; rw addnS.
Qed.

Lemma Split_dealt perm parts t (xs : seq gf) (secret : seq gf) (e : seq (seq gf)) :
  (1 < t <= parts)%N -> (parts <= 255)%N -> size xs = parts ->
  (forall i, (i < parts)%N -> coordinate perm i = Value (gfval xs`_i)) ->
  secret != [::] -> size e = size secret -> all (fun p => size p == t.-1) e ->
  Split (dealt (map vals e)) perm (vals secret) (Z.of_nat parts) (Z.of_nat t) =
  Value [seq share [seq p.1 :: p.2 | p <- zip secret e] x | x <- xs].
Proof.
move=> tb p255 sxs xt s0 se en; have /andP[t1 tp] := tb.
have t256 : (1 < t < 256)%N by rw t1 ltnS (leq_trans tp p255).
have xt' i : (i < size xs)%N -> coordinate perm i = Value (gfval xs`_i) by rw sxs; exact: xt.
have tags : traverse (coordinate perm) (List.seq 0 parts) = Value (vals xs).
  have := @traverse_tags _ _ xt' _ (@Value _) gfval (fun x => erefl); rw sxs => <-.
  by elim: (List.seq _ _) => //= i l ->; case: (coordinate perm i).
case: secret s0 se => [//|v secret] _ se.
rw /= Split_checks // tags; cbn [bind]; rw -sxs; apply: (@columns_dealt _ _ _ _ 0 (v :: secret)) => //.
move=> j jx; rw add0n /dealt.
have -> : List.nth j (map vals e) [::] = vals (nth [::] e j).
  by elim: e j {se en jx} => [|p e IH] [|j] /=.
have /eqP sj : size (nth [::] e j) == t.-1 by apply: (all_nthP [::] en); rw se.
by rw -sj -(size_map gfval) -length_size List.firstn_all.
Qed.

(** The coefficients after the intercept of the polynomial of [n + 1]
    coefficients at most that is [c] at zero and zero at the tags. *)
Definition mask (xs : seq gf) (n : nat) (c : gf) : seq gf :=
  mkseq (fun j => (interp (0 :: xs) (c :: nseq (size xs) 0))`_j.+1) n.

Lemma mask_keeps (xs : seq gf) n (s s' : gf) (cs : seq gf) x :
  uniq xs -> all (predC1 0) xs -> (size xs <= n)%N -> size cs = n -> x \in xs ->
  (Poly (s' :: [seq a.1 + a.2 | a <- zip (mask xs n (s + s')) cs])).[x] = (Poly (s :: cs)).[x].
Proof.
move=> xu x0 xn sc xin; set q := interp (0 :: xs) (s + s' :: nseq (size xs) 0).
have xu0 : uniq (0 :: xs) by rw /= xu andbT; apply/negP => /(allP x0); rw /= eqxx.
have sq : (size q <= n.+1)%N by apply: leq_trans (interp_size _ _) _.
have q0 : q`_0 = s + s' by rw -horner_coef0; exact: (@interp_sample (0 :: xs) _ xu0 0 isT).
have qx : q.[x] = 0.
  have kx : (seq.index x xs < size xs)%N by rw index_mem.
  have := @interp_sample (0 :: xs) (s + s' :: nseq (size xs) 0) xu0 (seq.index x xs).+1 kx.
  by rw /= nth_index // nth_nseq kx.
suff -> : Poly (s' :: [seq a.1 + a.2 | a <- zip (mask xs n (s + s')) cs]) = Poly (s :: cs) + q.
  by rw hornerD qx addr0.
apply/polyP => -[|i]; rw coefD !coef_Poly /=; first by rw q0 addgK.
have sz : size (zip (mask xs n (s + s')) cs) = n by rw size_zip size_mkseq sc minnn.
case: (ltnP i n) => ix.
  by rw (nth_map (0, 0)) ?sz // nth_zip ?size_mkseq ?sc //= nth_mkseq // addrC.
rw !nth_default ?size_map ?sz ?sc ?addr0 //; first by exact: leq_trans sq _.
Qed.

(** The masks of all bytes of two secrets keep the shares at the tags. *)
Lemma masks_keep (xs : seq gf) n (s s' : seq gf) (e : seq (seq gf)) x :
  uniq xs -> all (predC1 0) xs -> (size xs <= n)%N -> x \in xs ->
  size s' = size s -> size e = size s -> all (fun p => size p == n) e ->
  share [seq p.1 :: p.2 | p <- zip s' (mask_gf [seq mask xs n (a.1 + a.2) | a <- zip s s'] e)] x =
  share [seq p.1 :: p.2 | p <- zip s e] x.
Proof.
move=> xu x0 xn xin ss se en; rw /share; congr (vals (rcons _ _)); rw -!map_comp.
elim: s s' e ss se en => [|a s IH] [|a' s'] [|p e] //= [ss] [se] /andP[/eqP sp en].
by rw (@mask_keeps xs n a a') // (IH s' e ss se en).
Qed.

(** C7: fewer shares than the threshold tell nothing about the secret.  Let
    [Split] share out two secrets of the same length, and let an observer hold
    shares at fewer positions than the threshold.  The random bytes that the
    polynomials are made of can be paired off, by a map that is its own
    inverse, such that whatever was drawn for the first secret, the observer
    holds the same shares, tags included, when the paired bytes are drawn for
    the second.  So the two secrets are equally likely to have given them. *)
Theorem shares_hide_secret perm secret secret' parts t sel :
  perm_ok perm -> List.Forall byte secret -> List.Forall byte secret' ->
  secret <> [::] -> length secret' = length secret ->
  (1 < t <= parts)%N -> (parts <= 255)%N ->
  List.NoDup sel -> List.Forall (fun i => lt i parts) sel -> (length sel < t)%N ->
  exists f : seq (seq N) -> seq (seq N), forall d, draws (length secret) t.-1 d ->
    draws (length secret) t.-1 (f d) /\ f (f d) = d /\
    exists shares shares',
      Split (dealt d) perm secret (Z.of_nat parts) (Z.of_nat t) = Value shares /\
      Split (dealt (f d)) perm secret' (Z.of_nat parts) (Z.of_nat t) = Value shares' /\
      pick shares' sel = pick shares sel.
Proof.
move=> prm /vals_of[s <-] /vals_of[s' <-] s0; rw !length_size !size_map => ss tb p255.
move=> /NoDup_sel su /Forall_sel sl st; have /andP[t1 tp] := tb.
have [xs [sxs [xu [xn0 xt]]]] := perm_tags prm p255.
have {}s0 : s != [::] by apply/eqP => e; apply: s0; rw e.
have s0' : s' != [::] by rw -size_eq0 ss size_eq0.
pose ys := [seq xs`_i | i <- sel].
have yu : uniq ys.
  rw map_inj_in_uniq // => i j /(allP sl) ix /(allP sl) jx /eqP.
  by rw nth_uniq ?sxs // => /eqP.
have yn0 : all (predC1 0) ys.
  apply/allP => _ /mapP[i /(allP sl) ix ->]; apply: (allP xn0); apply: mem_nth; by rw sxs.
have yt : (size ys <= t.-1)%N by rw size_map -ltnS prednK // (ltn_trans _ t1).
pose m := [seq mask ys t.-1 (a.1 + a.2) | a <- zip s s'].
have sm : size m = size s by rw size_map size_zip ss minnn.
have mn : all (fun u => size u == t.-1) m.
  by apply/allP => _ /mapP[a _ ->]; rw size_mkseq.
exists (masked (map vals m)) => d /draws_vals[e [<- [se en]]].
have [men mmE] := mask_gfK (etrans sm (esym se)) mn en.
have sme : size (mask_gf m e) = size s by rw size_map size_zip sm se minnn.
split; first by rw masked_vals -sme; exact: vals_draws.
split; first by rw !masked_vals mmE.
exists [seq share [seq p.1 :: p.2 | p <- zip s e] x | x <- xs].
exists [seq share [seq p.1 :: p.2 | p <- zip s' (mask_gf m e)] x | x <- xs].
split; first by apply: Split_dealt.
split; first by rw masked_vals; apply: Split_dealt => //; rw sme ss.
rw !pick_shares ?sxs //; apply/eq_in_map => x xin; exact: masks_keep.
Qed.

(** ** Witnesses *)

(** Coefficients that are all seven; coordinates in order. *)
Definition sevens (idx n : nat) : outcome (seq N) := Value (List.repeat 7%num n).
Definition in_order : seq N := List.map N.of_nat (List.seq 0 255).

Lemma sevens_fill : random_fills sevens.
Proof.
move=> idx n; exists (List.repeat 7%num n); split=> //; split; first exact: List.repeat_length.
by elim: n => //= n IH; constructor.
Qed.

Lemma split_combine_witness :
  exists shares, Split sevens in_order [:: 65%num; 66%num] (Z.of_nat 3) (Z.of_nat 2) = Value shares /\
    length shares = 3 /\
    forall sel, List.NoDup sel -> List.Forall (fun i => lt i 3) sel -> (2 <= length sel)%N ->
      Combine (pick shares sel) = Value [:: 65%num; 66%num].
Proof.
apply: (@split_combine sevens in_order [:: 65%num; 66%num] 3 2).
- exact: sevens_fill.
- exact: Permutation_refl.
- by repeat constructor.
- by [].
- by [].
- by [].
Defined.

(** The first of three shares, two of which are needed, of two secrets. *)
Lemma shares_hide_secret_witness :
  exists f : seq (seq N) -> seq (seq N), forall d, draws 2 1 d ->
    draws 2 1 (f d) /\ f (f d) = d /\
    exists shares shares',
      Split (dealt d) in_order [:: 65%num; 66%num] (Z.of_nat 3) (Z.of_nat 2) = Value shares /\
      Split (dealt (f d)) in_order [:: 97%num; 98%num] (Z.of_nat 3) (Z.of_nat 2) = Value shares' /\
      pick shares' [:: 1%N] = pick shares [:: 1%N].
Proof.
apply: (@shares_hide_secret in_order [:: 65%num; 66%num] [:: 97%num; 98%num] 3 2 [:: 1%N]).
- exact: Permutation_refl.
- by repeat constructor.
- by repeat constructor.
- by [].
- by [].
- by [].
- by [].
- by repeat constructor => //=.
- by repeat constructor.
- by [].
Defined.
